(* ===== verification/_CoqProject ===== *)
-Q . S2P
Prelude.v
Hash.v
Object.v
Serialize.v
SerializeFacts.v
Delta.v
DeltaFacts.v
Merkle.v
MerkleFacts.v
MerkleProofs.v
ObjectId.v
Store.v
StoreFacts.v
Graph.v
GraphFacts.v
Gc.v
GcFacts.v
Ancestry.v
AncestryFacts.v
Diff.v
Myers.v
EditScript.v
LineMerge.v
Hunks.v
Content.v
ContentFacts.v
Utf8.v
MergeTrees.v
MergeTreesFacts.v
Chunker.v
ChunkerFacts.v
Replay.v
TreeDiff.v
TreeDiffFacts.v
RenameFacts.v
Ingest.v
IngestFacts.v
Index.v
IndexFacts.v
IndexTree.v
IndexTreeFacts.v
IndexTreeSpec.v
Ignore.v
IgnoreFacts.v
Sign.v
SignFacts.v
Wire.v
Messages.v
ZstdFrame.v
Pack.v
PackFacts.v
PackDecode.v
PackDecodeFacts.v
Disclosure.v
DisclosureFacts.v
DisclosureBuild.v
Closure.v
ClosureFacts.v
ClosureSpec.v
ClosurePacks.v
ClosurePush.v
