(* ===== verification/Prelude.v ===== *)
(** * Verification of the mkit core library

    mkit is a version-control system over a content-addressed object store. This
    library models the core of its Rust code (src/rust/crates/mkit-core/src/, whose
    file names are given below without the directory) as executable definitions, and
    proves what makes them correct.

    ** How the parts fit together

    Bytes become objects, objects get ids, and ids name files of the store; every
    operation on history is a walk over the object graph through an object source.

    - [Prelude]: bytes, numbers of a fixed width, results, the loop combinator with its
      invariant and termination rules, sorted lists.
    - [Hash] (hash.rs): hex, object paths, domain-separated digests. BLAKE3 is the class
      [Blake3] (a digest and a streaming state), with the law [Blake3Incremental] where
      a theorem needs that streaming agrees with the digest of the whole.
    - [Object] (object.rs): the seven kinds of objects and their structural checks.
    - [Serialize], [SerializeFacts] (serialize.rs): the canonical encoding, writer and
      reader, each reader step a function of the reader state.
    - [Delta], [DeltaFacts] (delta.rs): copy/insert streams; the rolling-hash encoder and
      the decoder as state machines.
    - [Merkle], [MerkleFacts], [MerkleProofs] (merkle.rs): binary Merkle trees, single,
      range and multi proofs, and the ids of trees and chunked blobs.
    - [ObjectId] (object.rs): the id of an object, of its bytes and of their parts.
    - [Store], [StoreFacts] (store.rs, store/): the store as the set of its files, bulk
      writers, overlays with budgets, pruning; the classes [ObjectSource] and
      [ObjectSink] are the traits of the same names.
    - [Graph], [GraphFacts] (ops/graph.rs): the walks over parents and reachable objects.
    - [Gc], [GcFacts] (ops/gc.rs): retention roots, the live set and the sweep.
    - [Ancestry], [AncestryFacts] (ops/merge.rs): ancestry and merge bases.
    - [Diff] with [Myers], [EditScript], [LineMerge], [Hunks] (ops/diff.rs): lines, the
      edit script, the three-way merge of texts, hunks and their partial application.
    - [Utf8] (from_utf8_lossy of the standard library), [MergeTrees], [MergeTreesFacts]
      (ops/merge.rs): the three-way merge of trees.
    - [Replay] (ops/cherry_pick.rs, ops/revert.rs): cherry-pick and revert.
    - [TreeDiff], [TreeDiffFacts], [RenameFacts] (ops/diff.rs): the diff of two trees and
      the detection of renames by content.
    - [Content], [ContentFacts] (worktree/blob.rs): reading, fingerprinting and comparing
      the content behind an id, chunk by chunk.
    - [Chunker], [ChunkerFacts] (chunker.rs): content-defined chunking of slices and of
      streams.
    - [Ingest], [IngestFacts] (worktree.rs): storing content as blobs, chunks and
      manifests.
    - [Index], [IndexFacts] (index.rs): the staging index, its operations over a vector
      and a map of paths, its file, and the index of a tree.
    - [IndexTree], [IndexTreeFacts], [IndexTreeSpec] (worktree.rs, the functions under
      build_tree_from_index): the tree of an index, with the fan-out of the probes over
      threads.
    - [Ignore], [IgnoreFacts] (ignore.rs): ignore files, their patterns and matchers.
    - [Sign], [SignFacts] (sign.rs): the bytes that a signature covers, signing and
      verification over the class [Ed25519].
    - [Wire] (merkle.rs): the wire form of proofs over the codec library, the class
      [WireCodec].
    - [Disclosure], [DisclosureFacts], [DisclosureBuild] (verify.rs): partial disclosure,
      its verifier, its bundle, and its builder; Bao slices are the class [Bao].
    - [ZstdFrame], [Pack], [PackFacts] (pack.rs): the checks around a zstd frame, over the
      class [Zstd]; the writer of packs in its two profiles, and the iterator over the
      entries of a pack.
    - [PackDecode], [PackDecodeFacts] (pack.rs): decoding the entries of a pack over a source
      of delta bases, with the budget and the cursor that pauses at a missing base.
    - [Messages] (the [Display] of decoding errors): the texts that reports carry.
    - [Closure], [ClosureFacts], [ClosureSpec], [ClosurePacks] (verify/closure.rs): the
      verification of a closure over any source, a store, a supplied set or packs with their
      manifest, and the export that writes these packs.
    - [Closure], [ClosurePush] (verify/push.rs): the verification of a push.

    A file without [Facts] holds definitions, which keep the names of the source where
    that is possible (a method [T::m] is [T_m], or is in a module [T]); the [Facts] file
    beside it holds the theorems.

    ** State and effects

    A fallible function returns [result]; a function that reads or writes a store has
    the type [ME E S A], state to result and state, so that the state after a failure is
    that at the failure, as in the code. A loop of the code is [loop fuel step state]
    where [step] is one round; it gives [None] only when the fuel runs out. A number
    of a fixed width is an [N] or a [Z] with its wrap-around or its check written out; a
    length or an index into memory is a [nat] or an [N].

    ** What is proved

    - Encoding: [deserialize] accepts exactly the canonical encodings of well-formed
      objects; an id commits to the object (or the hashed inputs collide, explicitly);
      the ids of the value, its bytes and its parts agree. Theorems about hashing never
      assume that BLAKE3 has no collisions: they say that the claim holds or exhibit two
      different inputs of the same digest.
    - Deltas: encoding ends, its stream decodes to the target and is bounded in size;
      decoding is total and accepts exactly the streams of valid instructions.
    - Merkle proofs: what verifies is in the tree (or a collision is exhibited), and what
      is built verifies.
    - Store: reads are of the requested id and well-formed; writes read back and touch
      nothing else; an overlay counts every read and byte, refuses past its budgets, and
      leaves what is below it alone.
    - Graph and collection: the walks end and compute reachability; the collector keeps
      all that the roots reach and deletes exactly what is old, unlocked and unreachable; a
      delete that fails ends the sweep, which has then deleted a part of this.
    - Merge: merge bases are best common ancestors; the edit script is shortest; the text
      merge is a three-way merge by parts; the tree merge gives at every name and depth what is
      specified (the side that changed, down to the contents of files, the merge of
      subtrees or of texts, or one conflict), and its result is a canonical tree;
      cherry-pick and revert undo each other, again down to contents.
    - Tree diff: it lists exactly the changed leaves; renames pair equal contents.
    - Content: comparison decides equality of valid contents whatever their chunks, as
      long as none is empty, and never calls different valid contents equal; chunks
      concatenate to the input within their bounds, and the stream reader finds the chunks
      of the slice iterator; storing content gives the id computed without storing, reads
      back, and is the same for slices, streams, batches and the pipeline of two threads.
    - Index: its operations are those of a finite map and its file format is canonical; a
      written index reads back without the stat caches that could hide a change; the
      index of a tree holds its leaves, the tree of an index has the live entries for
      leaves, and going from a tree to its index and back gives the tree.
    - Ignore patterns: the matchers decide the documented languages of their patterns, for a
      pattern without a backslash in a class; the last pattern that applies decides, and
      nothing below an ignored directory escapes.
    - Signatures: a signed digest commits to the kind and every covered field of a commit,
      remix or tag; what is signed verifies under the embedded key.
    - Disclosure: what a verified bundle says agrees with every repository that stores
      objects under their ids (or a collision or a forged slice is exhibited), and the
      bundle that is built for a path and a selector verifies as what was asked for.
    - Packs: the reader opens exactly the byte strings of the layout, and every run of pushes
      that the writer accepts reads back; the cursor, which keeps a base only while it is
      needed, delivers what a decoder does that keeps every entry.
    - Closures and pushes: a report lists exactly the reached objects that are missing or
      corrupt; two complete reports for one root agree on every object; what is exported
      verifies; an accepted push is good and signed above what is known, and closes it.
    - Where the code does something else than its documents say, a theorem says so (the
      texts that the merge glues, the deletions that keep theirs, the empty chunk).

    ** Bounds and fuel

    Fuel is an argument or is computed from the state (the length of a list, the number
    of objects), and for every loop a theorem or lemma says how much is enough and that
    the loop then gives a result. The recursion into subtrees is bounded by the
    constants of the code, whose errors are part of the result.

    ** Not modelled

    The file system (flushes, temporary files, locks, permissions, directory walks), the
    seed of hash maps where only the order of buckets depends on it, logging, and
    allocation failure. The other parts of mkit-core (the working directory, ref files, pack
    windows and shards, transfer plans, the history index, rebase, bisect, stash, sparse
    checkout) and the other crates (attestations, client, server, primitives, transports,
    bridge, bindings, command line) are listed with the reason in the manifest: they are
    effects on files and networks around the parts above, or features beside the core that
    are left out for their size. *)

From Stdlib Require Import Eqdep_dec.
From Stdlib Require Export Lia ZifyN ZifyNat.
From stdpp Require Export base list gmap sorting strings numbers.

#[export] Set Warnings "-clear-no-such-hyp,-register-all".

Declare Scope mkit_scope.
Delimit Scope mkit_scope with mkit.

(** ** Bytes

    A [u8] is an element of [Byte.byte], so every byte list of the model is a
    legal [Vec<u8>]; its numeric value is [b2n]. *)

Abbreviation byte := Byte.byte.
Abbreviation bytes := (list Byte.byte).

#[export] Instance byte_eq_dec : EqDecision byte := Byte.byte_eq_dec.

(** The value of a byte, and the byte of a number below 256. *)
Definition b2n (b : byte) : N := Byte.to_N b.
Definition n2b (n : N) : byte := default Byte.x00 (Byte.of_N n).

(** The bytes of an ASCII literal, as Rust's [b"..."]. *)
Notation "b# s" := (String.list_byte_of_string s%string)
  (at level 1, s at level 0, format "b# s") : mkit_scope.

Open Scope mkit_scope.

(** Linear arithmetic extended with [/] and [mod] by constants. *)
Ltac dlia := zify; Z.to_euclidean_division_equations; lia.

Lemma b2n_lt b : (b2n b < 256)%N.
Proof. unfold b2n. pose proof (Byte.to_N_bounded b). lia. Qed.

Lemma b2n_n2b n : (n < 256)%N → b2n (n2b n) = n.
Proof.
  intros Hn. unfold b2n, n2b.
  destruct (Byte.of_N n) eqn:E; simpl.
  - by apply Byte.to_of_N.
  - apply Byte.of_N_None_iff in E. lia.
Qed.

Lemma n2b_b2n b : n2b (b2n b) = b.
Proof. unfold b2n, n2b. by rewrite Byte.of_to_N. Qed.

Lemma b2n_inj b1 b2 : b2n b1 = b2n b2 → b1 = b2.
Proof. intros H. by rewrite <- (n2b_b2n b1), H, n2b_b2n. Qed.

#[export] Instance b2n_Inj : Inj (=) (=) b2n := b2n_inj.

#[export] Instance byte_countable : Countable byte.
Proof.
  refine (inj_countable b2n (λ n, Some (n2b n)) _).
  intros b. by rewrite n2b_b2n.
Defined.

(** ** Sizes

    [usize] and the fixed-width unsigned integers are [N]; a length is the
    length of a list read as an [N]. The target is 64-bit. *)

Definition U16_MAX : N := 2 ^ 16 - 1.
Definition U32_MAX : N := 2 ^ 32 - 1.
Definition U64_MAX : N := 2 ^ 64 - 1.
Definition USIZE_MAX : N := U64_MAX.

Definition lenN {A} (l : list A) : N := N.of_nat (length l).

(** [usize::saturating_mul]. *)
Definition saturating_mul (a b : N) : N := N.min (a * b) USIZE_MAX.

Lemma lenN_app {A} (l k : list A) : lenN (l ++ k) = (lenN l + lenN k)%N.
Proof. unfold lenN. rewrite length_app. lia. Qed.

Lemma lenN_cons {A} (x : A) l : lenN (x :: l) = (1 + lenN l)%N.
Proof. unfold lenN. simpl. lia. Qed.

Lemma lenN_nil {A} : lenN (@nil A) = 0%N.
Proof. done. Qed.

(** ** Little- and big-endian integers: [to_le_bytes] and friends *)

Fixpoint le_bytes (n : nat) (v : N) : bytes :=
  match n with
  | O => []
  | S n => n2b (v mod 256) :: le_bytes n (v / 256)
  end.

Fixpoint le_val (l : bytes) : N :=
  match l with
  | [] => 0
  | b :: l => b2n b + 256 * le_val l
  end.

Definition be_bytes (n : nat) (v : N) : bytes := reverse (le_bytes n v).

Lemma length_le_bytes n v : length (le_bytes n v) = n.
Proof. revert v. induction n; intros; cbn [le_bytes length]; auto. Qed.

Lemma length_be_bytes n v : length (be_bytes n v) = n.
Proof. unfold be_bytes. by rewrite length_reverse, length_le_bytes. Qed.

Lemma le_val_le_bytes n v : (v < 256 ^ N.of_nat n)%N → le_val (le_bytes n v) = v.
Proof.
  revert v. induction n as [|n IH]; intros v Hv.
  - simpl in *. lia.
  - rewrite Nat2N.inj_succ, N.pow_succ_r' in Hv.
    cbn [le_bytes le_val]. rewrite b2n_n2b, IH; dlia.
Qed.

Lemma le_bytes_le_val l : le_bytes (length l) (le_val l) = l.
Proof.
  induction l as [|b l IH]; [done|].
  cbn [le_bytes le_val length]. pose proof (b2n_lt b).
  replace ((b2n b + 256 * le_val l) mod 256)%N with (b2n b) by dlia.
  replace ((b2n b + 256 * le_val l) / 256)%N with (le_val l) by dlia.
  by rewrite n2b_b2n, IH.
Qed.

Lemma le_val_bound l : (le_val l < 256 ^ lenN l)%N.
Proof.
  induction l as [|b l IH]; [done|].
  rewrite lenN_cons, N.add_1_l, N.pow_succ_r'. simpl.
  pose proof (b2n_lt b). lia.
Qed.

Lemma le_bytes_inj n v w :
  (v < 256 ^ N.of_nat n)%N → (w < 256 ^ N.of_nat n)%N →
  le_bytes n v = le_bytes n w → v = w.
Proof. intros Hv Hw E. by rewrite <- (le_val_le_bytes n v), E, le_val_le_bytes. Qed.

Lemma be_bytes_inj n v w :
  (v < 256 ^ N.of_nat n)%N → (w < 256 ^ N.of_nat n)%N →
  be_bytes n v = be_bytes n w → v = w.
Proof. intros Hv Hw E%(inj reverse). by apply (le_bytes_inj n). Qed.

#[global] Arguments le_bytes : simpl never.

(** ** Fixed-size arrays: [[u8; n]]

    The length is part of the type, as in the source; two arrays are equal
    when their bytes are. *)

Record arr (n : nat) := Arr {
  arr_bytes : bytes;
  arr_len : Nat.eqb (length arr_bytes) n = true
}.
Arguments Arr {n} _ _.
Arguments arr_bytes {n} _.
Arguments arr_len {n} _.

Lemma arr_eq {n} (a b : arr n) : arr_bytes a = arr_bytes b → a = b.
Proof.
  destruct a as [la Ha], b as [lb Hb]. simpl. intros ->.
  f_equal. apply UIP_dec. apply Bool.bool_dec.
Qed.

#[export] Instance arr_bytes_Inj n : Inj (=) (=) (@arr_bytes n) := arr_eq.

Lemma arr_length {n} (a : arr n) : length (arr_bytes a) = n.
Proof. apply Nat.eqb_eq, (arr_len a). Qed.

Lemma lenN_arr {n} (a : arr n) : lenN (arr_bytes a) = N.of_nat n.
Proof. unfold lenN. by rewrite arr_length. Qed.

Lemma arr_zero_len n : Nat.eqb (length (replicate n Byte.x00)) n = true.
Proof. induction n as [|n IH]; [reflexivity|exact IH]. Defined.

(** [[0u8; n]]. *)
Definition arr_zero (n : nat) : arr n := Arr (replicate n Byte.x00) (arr_zero_len n).

(** The array with the given bytes ([copy_from_slice] of a slice of length
    [n]; a slice of any other length panics in the source and no caller of the
    model passes one). *)
Definition arr_of (n : nat) (l : bytes) : arr n :=
  (if Nat.eqb (length l) n as b return Nat.eqb (length l) n = b → arr n
   then λ E, Arr l E else λ _, arr_zero n) eq_refl.

Lemma arr_bytes_of n l : length l = n → arr_bytes (arr_of n l) = l.
Proof.
  intros Hl%Nat.eqb_eq. unfold arr_of.
  generalize (eq_refl (Nat.eqb (length l) n)) as E.
  generalize (Nat.eqb (length l) n) at 2 3 as b.
  intros [] E; [done|]. congruence.
Qed.

Lemma arr_of_bytes {n} (a : arr n) : arr_of n (arr_bytes a) = a.
Proof. apply arr_eq, arr_bytes_of, arr_length. Qed.

#[export] Instance arr_eq_dec n : EqDecision (arr n).
Proof.
  refine (λ a b, cast_if (decide (arr_bytes a = arr_bytes b)));
    abstract (first [by apply arr_eq | by intros ->]).
Defined.

#[export] Instance arr_countable n : Countable (arr n).
Proof.
  refine (inj_countable arr_bytes (λ l, Some (arr_of n l)) _).
  intros a. by rewrite arr_of_bytes.
Defined.

(** ** Byte-wise lexicographic order: [<[u8] as Ord>::cmp] *)

Fixpoint bytes_cmp (a b : bytes) : comparison :=
  match a, b with
  | [], [] => Eq
  | [], _ :: _ => Lt
  | _ :: _, [] => Gt
  | x :: a, y :: b =>
      match (b2n x ?= b2n y)%N with Eq => bytes_cmp a b | c => c end
  end.

Definition bytes_ltb (a b : bytes) : bool :=
  match bytes_cmp a b with Lt => true | _ => false end.
Definition bytes_leb (a b : bytes) : bool :=
  match bytes_cmp a b with Gt => false | _ => true end.
Definition bytes_eqb (a b : bytes) : bool := bool_decide (a = b).

Definition bytes_lt (a b : bytes) : Prop := bytes_ltb a b = true.

Lemma bytes_cmp_eq a b : bytes_cmp a b = Eq ↔ a = b.
Proof.
  revert b. induction a as [|x a IH]; intros [|y b]; simpl; try done.
  destruct (N.compare_spec (b2n x) (b2n y)) as [E|E|E].
  - apply b2n_inj in E as ->. rewrite IH. naive_solver.
  - split; [done|]. intros [= -> _]. lia.
  - split; [done|]. intros [= -> _]. lia.
Qed.

Lemma bytes_cmp_antisym a b : bytes_cmp b a = CompOpp (bytes_cmp a b).
Proof.
  revert b. induction a as [|x a IH]; intros [|y b]; simpl; try done.
  rewrite N.compare_antisym. destruct (b2n x ?= b2n y)%N; simpl; auto.
Qed.

Lemma bytes_cmp_refl a : bytes_cmp a a = Eq.
Proof. by apply bytes_cmp_eq. Qed.

Lemma bytes_cmp_lt_trans a b c :
  bytes_cmp a b = Lt → bytes_cmp b c = Lt → bytes_cmp a c = Lt.
Proof.
  revert b c. induction a as [|x a IH]; intros [|y b] [|z c]; simpl; try done.
  destruct (N.compare_spec (b2n x) (b2n y)) as [E1|E1|E1];
    destruct (N.compare_spec (b2n y) (b2n z)) as [E2|E2|E2]; try done;
    destruct (N.compare_spec (b2n x) (b2n z)) as [E3|E3|E3]; try done; try lia.
  apply IH.
Qed.

Lemma bytes_ltb_lt a b : bytes_ltb a b = true ↔ bytes_cmp a b = Lt.
Proof. unfold bytes_ltb. by destruct (bytes_cmp a b). Qed.

Lemma bytes_leb_ltb a b : bytes_leb a b = negb (bytes_ltb b a).
Proof.
  unfold bytes_leb, bytes_ltb. rewrite (bytes_cmp_antisym a b).
  by destruct (bytes_cmp a b).
Qed.

#[export] Instance bytes_lt_strict : StrictOrder bytes_lt.
Proof.
  split.
  - intros a. unfold complement, bytes_lt, bytes_ltb. by rewrite bytes_cmp_refl.
  - intros a b c. unfold bytes_lt. rewrite !bytes_ltb_lt. apply bytes_cmp_lt_trans.
Qed.

Lemma bytes_lt_total a b : bytes_lt a b ∨ a = b ∨ bytes_lt b a.
Proof.
  unfold bytes_lt. rewrite !bytes_ltb_lt, (bytes_cmp_antisym a b), <- bytes_cmp_eq.
  destruct (bytes_cmp a b); naive_solver.
Qed.

Lemma bytes_lt_irrefl a : ¬ bytes_lt a a.
Proof. apply (irreflexivity bytes_lt). Qed.

Lemma bytes_eqb_eq a b : bytes_eqb a b = true ↔ a = b.
Proof. apply bool_decide_eq_true. Qed.
Lemma bytes_eqb_sym a b : bytes_eqb a b = bytes_eqb b a.
Proof. unfold bytes_eqb. apply bool_decide_ext. naive_solver. Qed.

(** ** Booleans as propositions *)

Create Rewrite HintDb mkit_bool.
#[export] Hint Rewrite andb_true_iff andb_false_iff orb_true_iff orb_false_iff negb_true_iff
  negb_false_iff bool_decide_eq_true bool_decide_eq_false bytes_eqb_eq Nat.eqb_eq Nat.eqb_neq
  Nat.ltb_lt Nat.ltb_ge Nat.leb_le Nat.leb_gt N.eqb_eq N.eqb_neq N.ltb_lt N.ltb_ge N.leb_le
  N.leb_gt Z.eqb_eq Z.ltb_lt Z.ltb_ge Z.leb_le Z.leb_gt : mkit_bool.

(** Turn boolean tests into propositions, everywhere. *)
Ltac reflect := autorewrite with mkit_bool in *.

(** ** [Result<A, E>] *)

Inductive result (E A : Type) : Type :=
  | Ok (a : A)
  | Err (e : E).
Arguments Ok {E A} a.
Arguments Err {E A} e.

#[export] Instance result_ret E : MRet (result E) := λ A a, Ok a.
#[export] Instance result_bind E : MBind (result E) := λ A B f m,
  match m with Ok a => f a | Err e => Err e end.
#[export] Instance result_fmap E : FMap (result E) := λ A B f m,
  match m with Ok a => Ok (f a) | Err e => Err e end.

#[export] Instance result_eq_dec E A
  `{EqDecision E, EqDecision A} : EqDecision (result E A).
Proof. solve_decision. Defined.

(** [if !b { return Err(e) }]. *)
Definition ensure {E} (b : bool) (e : E) : result E unit :=
  if b then Ok tt else Err e.

(** [.ok_or(e)?]. *)
Definition ok_or {E A} (o : option A) (e : E) : result E A :=
  match o with Some a => Ok a | None => Err e end.

(** [?] with a [From] instance, and [map_err]. *)
Definition map_err {E E' A} (f : E → E') (r : result E A) : result E' A :=
  match r with Ok a => Ok a | Err e => Err (f e) end.

(** [.ok()]. *)
Definition to_option {E A} (r : result E A) : option A :=
  match r with Ok a => Some a | Err _ => None end.

Definition is_ok {E A} (r : result E A) : bool :=
  match r with Ok _ => true | Err _ => false end.

Lemma bind_Ok {E A B} (m : result E A) (f : A → result E B) b :
  m ≫= f = Ok b ↔ ∃ a, m = Ok a ∧ f a = Ok b.
Proof. destruct m; simpl; naive_solver. Qed.

Lemma bind_Err {E A B} (m : result E A) (f : A → result E B) e :
  m ≫= f = Err e ↔ m = Err e ∨ ∃ a, m = Ok a ∧ f a = Err e.
Proof. destruct m; simpl; naive_solver. Qed.

Lemma fmap_Ok {E A B} (f : A → B) (m : result E A) b :
  f <$> m = Ok b ↔ ∃ a, m = Ok a ∧ b = f a.
Proof. destruct m; simpl; naive_solver. Qed.

Lemma ensure_Ok {E} b (e : E) u : ensure b e = Ok u ↔ b = true.
Proof. destruct b, u; simpl; naive_solver. Qed.

Lemma ensure_Err {E} b (e e' : E) : ensure b e = Err e' ↔ b = false ∧ e = e'.
Proof. destruct b; simpl; naive_solver. Qed.

(** A check that passes. *)
Lemma ensure_bind {E A} b (e : E) (f : unit → result E A) :
  b = true → ensure b e ≫= f = f tt.
Proof. by intros ->. Qed.

Lemma ok_or_Ok {E A} (o : option A) (e : E) a : ok_or o e = Ok a ↔ o = Some a.
Proof. destruct o; simpl; naive_solver. Qed.

Lemma Ok_inj {E A} (a b : A) : @Ok E A a = Ok b → a = b.
Proof. by intros [= ->]. Qed.

Lemma ret_Ok {E A} (a b : A) : (mret a : result E A) = Ok b → a = b.
Proof. by intros [= ->]. Qed.

(** Take apart a successful computation written with [←]. *)
Ltac inv_ok :=
  repeat match goal with
  | H : _ ≫= _ = Ok _ |- _ => apply bind_Ok in H as (? & ? & H)
  | H : (_ ≫= _) _ = Ok _ |- _ => progress simpl in H
  | H : _ <$> _ = Ok _ |- _ => apply fmap_Ok in H as (? & ? & ?)
  | H : ensure _ _ = Ok _ |- _ => apply ensure_Ok in H
  | H : ok_or _ _ = Ok _ |- _ => apply ok_or_Ok in H
  | H : Ok _ = Ok _ |- _ => apply Ok_inj in H
  | H : Err _ = Ok _ |- _ => discriminate H
  | H : mret _ = Ok _ |- _ => apply ret_Ok in H
  | u : unit |- _ => destruct u
  end.

(** ** Loops

    A [while] loop whose body is [step]: [inl] continues, [inr] leaves. The
    loop is cut by fuel; [loop_rule] is its total-correctness rule, so every
    client proves that its fuel is enough. *)

Fixpoint loop {S R} (fuel : nat) (step : S → S + R) (s : S) : option R :=
  match fuel with
  | O => None
  | S fuel => match step s with inl s' => loop fuel step s' | inr r => Some r end
  end.

Lemma loop_rule {S R} (step : S → S + R) (m : S → nat)
    (P : S → Prop) (Q : R → Prop) :
  (∀ s, P s → match step s with
              | inl s' => P s' ∧ m s' < m s
              | inr r => Q r
              end) →
  ∀ fuel s, P s → m s < fuel → ∃ r, loop fuel step s = Some r ∧ Q r.
Proof.
  intros Hstep fuel. induction fuel as [|fuel IH]; intros s HP Hm; [lia|].
  simpl. specialize (Hstep s HP). destruct (step s) as [s'|r].
  - destruct Hstep. apply IH; [done|lia].
  - eauto.
Qed.

(** More fuel does not change a result. *)
Lemma loop_mono {S R} (step : S → S + R) fuel fuel' s r :
  loop fuel step s = Some r → fuel ≤ fuel' → loop fuel' step s = Some r.
Proof.
  revert fuel' s. induction fuel as [|fuel IH]; intros [|fuel'] s H Hle;
    simpl in *; try done; try lia.
  destruct (step s); [|done]. apply IH; [done|lia].
Qed.

(** The total-correctness rule when the number of rounds has no closed form:
    the rounds descend in a well-founded order, so some fuel is enough. *)
Lemma loop_wf_rule {S R} (step : S → S + R) (lt : relation S)
    (P : S → Prop) (Q : R → Prop) :
  well_founded lt →
  (∀ s, P s → match step s with
              | inl s' => P s' ∧ lt s' s
              | inr r => Q r
              end) →
  ∀ s, P s → ∃ fuel r, (∀ fuel', fuel ≤ fuel' → loop fuel' step s = Some r) ∧ Q r.
Proof.
  intros Hwf Hstep s. induction (Hwf s) as [s _ IH]. intros HP.
  specialize (Hstep s HP). destruct (step s) as [s'|r] eqn:E.
  - destruct Hstep as [HP' Hlt]. destruct (IH s' Hlt HP') as (fuel & r & Hl & HQ).
    exists (Datatypes.S fuel), r. split; [|done]. intros [|fuel'] Hle; [lia|].
    simpl. rewrite E. apply Hl. lia.
  - exists 1, r. split; [|done]. intros [|fuel'] Hle; [lia|]. simpl. by rewrite E.
Qed.

(** Descent in a first measure, or in a second one with the first unchanged. *)
Definition lex2 {S} (m1 m2 : S → nat) : relation S := λ s' s,
  m1 s' < m1 s ∨ m1 s' = m1 s ∧ m2 s' < m2 s.

Lemma lex2_wf {S} (m1 m2 : S → nat) : well_founded (lex2 m1 m2).
Proof.
  intros s. remember (m1 s) as a eqn:Ea. remember (m2 s) as b eqn:Eb.
  revert b s Ea Eb. induction (lt_wf a) as [a _ IHa]. intros b.
  induction (lt_wf b) as [b _ IHb]. intros s -> ->. constructor. intros s' [H|[H1 H2]].
  - by apply (IHa (m1 s') H (m2 s') s').
  - by apply (IHb (m2 s') H2 s').
Qed.

(** A loop whose rounds have no bound known in advance: [phases] of [budget s]
    rounds each, the budget taken anew from the state when a phase starts. *)
Fixpoint loop_refuel {S R} (phases : nat) (budget : S → nat) (step : S → S + R) : S → option R :=
  match phases with
  | O => λ _, None
  | Datatypes.S phases => λ s,
      (fix go fuel s :=
         match fuel with
         | O => loop_refuel phases budget step s
         | Datatypes.S fuel =>
             match step s with inl s' => go fuel s' | inr r => Some r end
         end) (budget s) s
  end.

(** Its total-correctness rule: a round lowers [m1], which bounds the phases, or
    keeps it and lowers [m2], which bounds the rounds of a phase. *)
Lemma loop_refuel_rule {S R} (step : S → S + R) (m1 m2 : S → nat) (P : S → Prop) (Q : R → Prop) :
  (∀ s, P s → match step s with
              | inl s' => P s' ∧ lex2 m1 m2 s' s
              | inr r => Q r
              end) →
  ∀ s, P s →
    ∃ r, loop_refuel (Datatypes.S (m1 s)) (λ s, Datatypes.S (m2 s)) step s = Some r ∧ Q r.
Proof.
  intros Hstep.
  assert (∀ s, m2 s < (λ s, Datatypes.S (m2 s)) s) as Hb by (cbn; lia).
  revert Hb. generalize (λ s, Datatypes.S (m2 s)) as budget. intros budget Hb.
  enough (∀ phases s, P s → m1 s < phases →
    ∃ r, loop_refuel phases budget step s = Some r ∧ Q r) as H.
  { intros s Hs. apply H; [done|lia]. }
  induction phases as [|phases IH]; intros s Hs Hm; [lia|]. cbn [loop_refuel].
  assert (m1 s < phases ∨ m1 s = phases ∧ m2 s < budget s) as Hf by (specialize (Hb s); lia).
  clear Hm. revert Hf. generalize (budget s) as fuel. intros fuel. revert s Hs.
  induction fuel as [|fuel IHf]; intros s Hs Hf.
  - apply IH; [done|lia].
  - specialize (Hstep s Hs). destruct (step s) as [s'|r]; [|eauto].
    destruct Hstep as [Hs' [Hlt|[Heq Hlt]]]; apply IHf; (done || lia).
Qed.

(** ** Lists *)

(** [l.windows(2).all(|w| p(w[0], w[1]))]. *)
Fixpoint windows2_all {A} (p : A → A → bool) (l : list A) : bool :=
  match l with
  | x :: (y :: _) as l' => p x y && windows2_all p l'
  | _ => true
  end.

(** [l.starts_with(p)]. *)
Fixpoint starts_with (p l : bytes) : bool :=
  match p, l with
  | [], _ => true
  | x :: p, y :: l => bool_decide (x = y) && starts_with p l
  | _ :: _, [] => false
  end.

Lemma starts_with_spec p l : starts_with p l = true ↔ ∃ k, l = p ++ k.
Proof.
  revert l. induction p as [|x p IH]; intros l; simpl.
  - naive_solver.
  - destruct l as [|y l]; [naive_solver|].
    rewrite andb_true_iff, bool_decide_eq_true, IH. naive_solver.
Qed.

Lemma windows2_all_Sorted {A} (p : A → A → bool) (l : list A) :
  windows2_all p l = true ↔ Sorted (λ x y, p x y = true) l.
Proof.
  induction l as [|x [|y l] IH]; [done|split; auto|].
  cbn [windows2_all] in *. rewrite andb_true_iff, IH. split.
  - intros [? ?]. by constructor; [|constructor].
  - intros [? H]%Sorted_inv. split; [|done]. by inv H.
Qed.

Lemma Forall2_length_eq {A B} (P : A → B → Prop) l k :
  Forall2 P l k → length l = length k.
Proof. apply Forall2_length. Qed.

(** Splitting a prefix of known length off both sides of an equation. *)
Lemma app_inj_len {A} (a b c d : list A) :
  length a = length c → a ++ b = c ++ d → a = c ∧ b = d.
Proof. intros Hl H. by apply app_inj_1. Qed.

(** [BTreeSet<A>] as the list of its elements in ascending order. *)
Class StrictOrd {A} (ltb : A → A → bool) : Prop := {
  ltb_irr x : ltb x x ≠ true;
  ltb_tr x y z : ltb x y = true → ltb y z = true → ltb x z = true;
  ltb_tot x y : ltb x y = true ∨ x = y ∨ ltb y x = true
}.

#[export] Instance nat_ltb_strict : StrictOrd Nat.ltb.
Proof.
  split.
  - intros x. rewrite Nat.ltb_lt. lia.
  - intros x y z. rewrite !Nat.ltb_lt. lia.
  - intros x y. rewrite !Nat.ltb_lt. lia.
Qed.

#[export] Instance bytes_ltb_strict : StrictOrd bytes_ltb.
Proof.
  split.
  - apply bytes_lt_irrefl.
  - apply (transitivity (R := bytes_lt)).
  - apply bytes_lt_total.
Qed.

Section btree_set.
Context {A : Type} (ltb : A → A → bool).

Fixpoint bt_insert (x : A) (l : list A) : list A :=
  match l with
  | [] => [x]
  | y :: l' =>
      if ltb x y then x :: l
      else if ltb y x then y :: bt_insert x l'
      else l
  end.

(** [iter.collect::<BTreeSet<_>>()]. *)
Definition bt_collect (xs : list A) : list A := foldl (λ s x, bt_insert x s) [] xs.

Abbreviation lt x y := (ltb x y = true).

Context `{O : !StrictOrd ltb}.

Lemma bt_insert_elem x l z : z ∈ bt_insert x l ↔ z = x ∨ z ∈ l.
Proof.
  induction l as [|y l IH]; cbn [bt_insert]; [set_solver|].
  destruct (ltb x y) eqn:E1; [set_solver|].
  destruct (ltb y x) eqn:E2; [set_solver|].
  assert (x = y) as -> by (destruct (ltb_tot x y) as [?|[?|?]]; congruence). set_solver.
Qed.

Lemma bt_insert_sorted x l :
  StronglySorted (λ a b, lt a b) l → StronglySorted (λ a b, lt a b) (bt_insert x l).
Proof.
  induction 1 as [|y l Hl IH Hall]; cbn [bt_insert]; [repeat constructor|].
  destruct (ltb x y) eqn:E1.
  - constructor; [by constructor|]. constructor; [done|].
    rewrite list.Forall_forall in *. intros z Hz. eapply ltb_tr; [done|]. by apply Hall.
  - destruct (ltb y x) eqn:E2; [|by constructor]. constructor; [done|].
    rewrite list.Forall_forall in *. intros z [->|Hz]%bt_insert_elem; [done|by apply Hall].
Qed.

Lemma bt_fold_elem {B} (f : B → option A) xs : ∀ s z,
  z ∈ foldl (λ s b, match f b with Some a => bt_insert a s | None => s end) s xs ↔
  z ∈ s ∨ ∃ b, b ∈ xs ∧ f b = Some z.
Proof.
  induction xs as [|x xs IH]; intros s z; cbn [foldl]; [set_solver|].
  rewrite IH. destruct (f x) as [a|] eqn:E; [rewrite bt_insert_elem|]; set_solver.
Qed.

Lemma bt_fold_sorted {B} (f : B → option A) xs : ∀ s,
  StronglySorted (λ a b, lt a b) s →
  StronglySorted (λ a b, lt a b)
    (foldl (λ s b, match f b with Some a => bt_insert a s | None => s end) s xs).
Proof.
  induction xs as [|x xs IH]; intros s Hs; cbn [foldl]; [done|].
  apply IH. destruct (f x); [by apply bt_insert_sorted|done].
Qed.

Lemma bt_collect_elem xs z : z ∈ bt_collect xs ↔ z ∈ xs.
Proof.
  unfold bt_collect. rewrite (bt_fold_elem (λ b, Some b)). set_solver.
Qed.

Lemma bt_collect_sorted xs : StronglySorted (λ a b, lt a b) (bt_collect xs).
Proof. apply (bt_fold_sorted (λ b, Some b)). constructor. Qed.

(** An ordered set is determined by its elements. *)
Lemma bt_unique (l k : list A) :
  StronglySorted (λ a b, lt a b) l → StronglySorted (λ a b, lt a b) k →
  (∀ z, z ∈ l ↔ z ∈ k) → l = k.
Proof.
  intros Hl. revert k. induction Hl as [|x l Hl IH Hx]; intros k Hk H.
  { destruct k as [|y k]; [done|]. specialize (H y). set_solver. }
  destruct Hk as [|y k Hk Hy].
  { specialize (H x). set_solver. }
  rewrite list.Forall_forall in Hx, Hy.
  assert (x = y) as ->.
  { pose proof (proj1 (H x)) as H1. pose proof (proj2 (H y)) as H2.
    rewrite !elem_of_cons in H1, H2.
    destruct H1 as [->|H1]; [by left|done|]. destruct H2 as [->|H2]; [by left|done|].
    destruct (ltb_irr x). eapply ltb_tr; [by apply Hx|by apply Hy]. }
  f_equal. apply IH; [done|]. intros z. specialize (H z). rewrite !elem_of_cons in H.
  split; intros Hz.
  - destruct H as [[->|?] _]; [by right| |done]. destruct (ltb_irr y). by apply Hx.
  - destruct H as [_ [->|?]]; [by right| |done]. destruct (ltb_irr y). by apply Hy.
Qed.
End btree_set.

(** [slice::sort_by], a stable sort: an insertion sort, from the right. *)
Section stable_sort.
Context {A : Type} (leb : A → A → bool).

Fixpoint stable_insert (x : A) (l : list A) : list A :=
  match l with
  | [] => [x]
  | y :: l' => if leb x y then x :: l else y :: stable_insert x l'
  end.
Definition stable_sort (l : list A) : list A := foldr stable_insert [] l.

Lemma stable_insert_perm x l : stable_insert x l ≡ₚ x :: l.
Proof.
  induction l as [|y l IH]; [done|]. cbn. destruct (leb x y); [done|].
  rewrite IH. constructor.
Qed.

Lemma stable_sort_perm l : stable_sort l ≡ₚ l.
Proof. induction l as [|x l IH]; [done|]. cbn. by rewrite stable_insert_perm, IH. Qed.

Context (Htot : ∀ x y, leb x y = true ∨ leb y x = true).

Lemma stable_insert_sorted x l :
  Sorted (λ a b, leb a b = true) l → Sorted (λ a b, leb a b = true) (stable_insert x l).
Proof.
  induction 1 as [|y l Hl IH Hy]; cbn; [by repeat constructor|].
  destruct (leb x y) eqn:E; [by repeat constructor|].
  constructor; [done|]. destruct (Htot x y) as [?|Hyx]; [congruence|].
  destruct l as [|z l]; cbn in *; [by constructor|]. inv Hy. destruct (leb x z); by constructor.
Qed.

Lemma stable_sort_sorted l : Sorted (λ a b, leb a b = true) (stable_sort l).
Proof. induction l as [|x l IH]; cbn; [constructor|]. by apply stable_insert_sorted. Qed.
End stable_sort.

(** Facts that close a case of an invariant. *)
Create HintDb mkit.
#[export] Hint Resolve bt_insert_sorted bt_collect_sorted SSorted_nil Forall_nil : mkit.

(** Wrapping [u64] arithmetic. *)
Definition wrap64 (n : N) : N := (n mod 2 ^ 64)%N.
Definition wrapping_mul (a b : N) : N := wrap64 (a * b).
Definition wrapping_add (a b : N) : N := wrap64 (a + b).
Definition wrapping_sub (a b : N) : N := wrap64 (a + 2 ^ 64 - wrap64 b).

(** [&l[pos..pos + n]]. *)
Definition slice (pos n : nat) (l : bytes) : bytes := take n (drop pos l).

Lemma slice_app pos (l a b : bytes) : drop pos l = a ++ b → slice pos (length a) l = a.
Proof. unfold slice. intros ->. apply take_app_length. Qed.

Lemma slice_length pos n l : pos + n <= length l → length (slice pos n l) = n.
Proof. intros H. unfold slice. rewrite length_take, length_drop. lia. Qed.

Lemma slice_drop pos n (l : bytes) : drop pos l = slice pos n l ++ drop (pos + n) l.
Proof. unfold slice. by rewrite <- drop_drop, take_drop. Qed.

(** Rust's [{:02x}] helpers and ASCII classes. *)
Definition is_ascii_digit (b : byte) : bool := (48 <=? b2n b)%N && (b2n b <=? 57)%N.
Definition is_ascii_lower (b : byte) : bool := (97 <=? b2n b)%N && (b2n b <=? 122)%N.
Definition is_ascii_upper (b : byte) : bool := (65 <=? b2n b)%N && (b2n b <=? 90)%N.
Definition is_ascii_alphanumeric (b : byte) : bool :=
  is_ascii_digit b || is_ascii_lower b || is_ascii_upper b.
(** [u8::is_ascii_graphic]: ['!'..='~']. *)
Definition is_ascii_graphic (b : byte) : bool := (33 <=? b2n b)%N && (b2n b <=? 126)%N.
(** [u8::to_ascii_lowercase]. *)
Definition to_ascii_lowercase (b : byte) : byte :=
  if is_ascii_upper b then n2b (b2n b + 32) else b.
(** [<[u8]>::eq_ignore_ascii_case]. *)
Definition eq_ignore_ascii_case (a b : bytes) : bool :=
  bytes_eqb (map to_ascii_lowercase a) (map to_ascii_lowercase b).

(** Case analysis over all 256 bytes. *)
Ltac by_bytes b := destruct b; vm_compute; done.

(** Lists by index. *)
Lemma drop_nth {A} (l : list A) (d : A) i : (i < length l)%nat → drop i l = nth i l d :: drop (S i) l.
Proof.
  intros Hi. apply lookup_lt_is_Some in Hi as [x Hx]. rewrite (drop_S _ _ _ Hx).
  by rewrite (nth_lookup_Some _ _ _ _ Hx).
Qed.

Lemma take_S_nth {A} (l : list A) (d : A) i : (i < length l)%nat → take (S i) l = take i l ++ [nth i l d].
Proof.
  intros Hi. apply lookup_lt_is_Some in Hi as [x Hx]. erewrite take_S_r by done.
  by rewrite (nth_lookup_Some _ _ _ _ Hx).
Qed.
