(* ===== verification/Hash.v ===== *)
(** * BLAKE3 helpers: [rust/crates/mkit-core/src/hash.rs]

    The [blake3] crate is not part of the repository, so it is an interface:
    the class [Blake3] holds its one-shot and incremental functions, and
    [Blake3Incremental] states the documented contract that absorbing the
    pieces of an input gives the digest of the whole. Everything the file
    defines on top of it (hex, domain-separated digests, object paths) is the
    repository's own code. *)

From S2P Require Import Prelude.

Definition HASH_LEN : N := 32.
Definition HEX_LEN : N := 64.

(** [type Hash = [u8; HASH_LEN]]. *)
Abbreviation hash32 := (arr 32).

(** The all-zero digest, the "absent" sentinel of annotation slots. *)
Definition ZERO : hash32 := arr_zero 32.

(** ** The [blake3] crate *)

Class Blake3 := {
  b3_hash : bytes → hash32;
  b3_state : Type;
  b3_new : b3_state;
  b3_update : b3_state → bytes → b3_state;
  b3_finalize : b3_state → hash32
}.

Class Blake3Incremental `{Blake3} : Prop :=
  b3_incremental : ∀ parts : list bytes,
    b3_finalize (foldl b3_update b3_new parts) = b3_hash (concat parts).

(** ** Hexadecimal *)

Inductive FromHexError :=
  | InvalidLength (actual : N)
  | InvalidChar.

#[export] Instance FromHexError_eq_dec : EqDecision FromHexError.
Proof. solve_decision. Defined.

Definition HEX : bytes := b# "0123456789abcdef".

Definition hex_digit (n : N) : byte := nth (N.to_nat n) HEX Byte.x00.

Fixpoint to_hex_bytes (l : bytes) : bytes :=
  match l with
  | [] => []
  | b :: l =>
      hex_digit (N.shiftr (b2n b) 4) ::
      hex_digit (N.land (b2n b) 15) :: to_hex_bytes l
  end.

Definition to_hex (h : hash32) : bytes := to_hex_bytes (arr_bytes h).

Definition hex_nibble (b : byte) : result FromHexError N :=
  let n := b2n b in
  if is_ascii_digit b then Ok (n - 48)%N
  else if (97 <=? n)%N && (n <=? 102)%N then Ok (10 + (n - 97))%N
  else if (65 <=? n)%N && (n <=? 70)%N then Ok (10 + (n - 65))%N
  else Err InvalidChar.

(** The loop of [from_hex]: two input characters per output byte. *)
Fixpoint from_hex_pairs (s : bytes) : result FromHexError bytes :=
  match s with
  | c1 :: c2 :: s =>
      hi ← hex_nibble c1;
      lo ← hex_nibble c2;
      rest ← from_hex_pairs s;
      mret (n2b (N.lor (N.shiftl hi 4) lo) :: rest)
  | _ => mret []
  end.

Definition from_hex (s : bytes) : result FromHexError hash32 :=
  _ ← ensure (lenN s =? HEX_LEN)%N (InvalidLength (lenN s));
  out ← from_hex_pairs s;
  mret (arr_of 32 out).

(** ** Object-store paths *)

Record ObjectPath := { op_dir : arr 2; op_file : arr 62 }.

Definition object_path (h : hash32) : ObjectPath :=
  let hex := to_hex h in
  {| op_dir := arr_of 2 (take 2 hex); op_file := arr_of 62 (drop 2 hex) |}.

(** [impl Display for ObjectPath]. *)
Definition object_path_display (p : ObjectPath) : bytes :=
  arr_bytes (op_dir p) ++ b# "/" ++ arr_bytes (op_file p).

Section hashing.
Context `{Blake3}.

Definition hash (data : bytes) : hash32 := b3_hash data.

(** [struct Hasher] and its methods. *)
Definition Hasher_new : b3_state := b3_new.
Definition Hasher_update (s : b3_state) (data : bytes) : b3_state := b3_update s data.
Definition Hasher_finalize (s : b3_state) : hash32 := b3_finalize s.

(** [domain_digest]: [BLAKE3(len_le16(domain) ‖ domain ‖ body)]. The source
    panics on a domain longer than [u16::MAX]; every domain of the
    repository is a short constant. *)
Definition domain_digest (domain body : bytes) : hash32 :=
  let h := b3_update b3_new (le_bytes 2 (lenN domain)) in
  let h := b3_update h domain in
  let h := b3_update h body in
  b3_finalize h.
End hashing.

(** What [domain_digest] absorbs. *)
Definition domain_preimage (domain body : bytes) : bytes :=
  le_bytes 2 (lenN domain) ++ domain ++ body.

(** ** Proofs *)

Lemma length_to_hex_bytes l : length (to_hex_bytes l) = 2 * length l.
Proof. induction l; simpl in *; lia. Qed.

Lemma length_to_hex h : length (to_hex h) = 64.
Proof. unfold to_hex. by rewrite length_to_hex_bytes, arr_length. Qed.

(** One output byte of the hex printer, read back by the parser. *)
Lemma hex_byte_roundtrip b :
  hex_nibble (hex_digit (N.shiftr (b2n b) 4)) = Ok (N.shiftr (b2n b) 4) ∧
  hex_nibble (hex_digit (N.land (b2n b) 15)) = Ok (N.land (b2n b) 15) ∧
  n2b (N.lor (N.shiftl (N.shiftr (b2n b) 4) 4) (N.land (b2n b) 15)) = b.
Proof. by_bytes b. Qed.

Lemma from_hex_pairs_to_hex l : from_hex_pairs (to_hex_bytes l) = Ok l.
Proof.
  induction l as [|b l IH]; [done|]. cbn [to_hex_bytes from_hex_pairs].
  destruct (hex_byte_roundtrip b) as (-> & -> & E). simpl. rewrite IH. simpl.
  by rewrite E.
Qed.

(** An accepted character is the printed digit of its value up to case. *)
Lemma hex_nibble_Ok c v :
  hex_nibble c = Ok v → to_ascii_lowercase c = hex_digit v ∧ (v < 16)%N.
Proof. destruct c; vm_compute; intros [= <-]; done. Qed.

Lemma hex_nibble_lowercase c v :
  (v < 16)%N → to_ascii_lowercase c = hex_digit v → hex_nibble c = Ok v.
Proof.
  intros Hv. assert (In v (map N.of_nat (seq 0 16))) as Hin.
  { apply in_map_iff. exists (N.to_nat v). split; [lia|]. apply in_seq. lia. }
  clear Hv. simpl in Hin.
  destruct_or! Hin; subst; try done; destruct c; vm_compute; done.
Qed.

Lemma nibbles_of_byte hi lo :
  (hi < 16)%N → (lo < 16)%N →
  let b := n2b (N.lor (N.shiftl hi 4) lo) in
  N.shiftr (b2n b) 4 = hi ∧ N.land (b2n b) 15 = lo.
Proof.
  intros Hhi Hlo.
  assert (In hi (map N.of_nat (seq 0 16))) as H1.
  { apply in_map_iff. exists (N.to_nat hi). split; [lia|]. apply in_seq. lia. }
  assert (In lo (map N.of_nat (seq 0 16))) as H2.
  { apply in_map_iff. exists (N.to_nat lo). split; [lia|]. apply in_seq. lia. }
  clear Hhi Hlo. simpl in H1, H2.
  destruct_or! H1; subst; try done; destruct_or! H2; subst; done.
Qed.

Lemma from_hex_pairs_Ok n s l :
  length s = 2 * n → from_hex_pairs s = Ok l →
  map to_ascii_lowercase s = to_hex_bytes l ∧ length l = n.
Proof.
  revert s l. induction n as [|n IH]; intros s l Hlen Hs.
  - destruct s; [|done]. by injection Hs as <-.
  - destruct s as [|c1 [|c2 s]]; simpl in Hlen; try lia.
    cbn [from_hex_pairs] in Hs. inv_ok.
    rename select (hex_nibble c1 = _) into Hc1.
    rename select (hex_nibble c2 = _) into Hc2.
    apply hex_nibble_Ok in Hc1 as [E1' ?]. apply hex_nibble_Ok in Hc2 as [E2' ?].
    rename select (from_hex_pairs s = _) into Hrest.
    apply IH in Hrest as [E <-]; [|lia]. subst l. cbn [map to_hex_bytes length].
    destruct (nibbles_of_byte x x0) as [-> ->]; [done..|]. by rewrite E1', E2', E.
Qed.

Lemma from_hex_pairs_lowercase s l :
  map to_ascii_lowercase s = to_hex_bytes l → from_hex_pairs s = Ok l.
Proof.
  revert s. induction l as [|b l IH]; intros s Hs.
  - by destruct s.
  - destruct s as [|c1 [|c2 s]]; simplify_eq/=.
    destruct (hex_byte_roundtrip b) as (_ & _ & E).
    rewrite (hex_nibble_lowercase c1 (N.shiftr (b2n b) 4)); cycle 1.
    { pose proof (b2n_lt b). rewrite N.shiftr_div_pow2. simpl. dlia. }
    { done. }
    rewrite (hex_nibble_lowercase c2 (N.land (b2n b) 15)); cycle 1.
    { change 15%N with (N.ones 4). rewrite N.land_ones. by apply N.mod_lt. }
    { done. }
    simpl. rewrite IH by done. simpl. by rewrite E.
Qed.

(** [from_hex] inverts [to_hex]: printing a digest as hex and parsing it
    back gives the digest, for every digest. *)
Theorem from_hex_to_hex (h : hash32) : from_hex (to_hex h) = Ok h.
Proof.
  unfold from_hex, lenN. rewrite length_to_hex. simpl. unfold to_hex.
  rewrite from_hex_pairs_to_hex. simpl. by rewrite arr_of_bytes.
Qed.

(** The texts [from_hex] accepts for a digest are exactly the 64-character
    spellings of its lowercase hex form, in any mixture of letter case. *)
Theorem from_hex_Ok_iff (s : bytes) (h : hash32) :
  from_hex s = Ok h ↔ map to_ascii_lowercase s = to_hex h.
Proof.
  unfold from_hex. split.
  - intros Hs. inv_ok. rename select ((_ =? _)%N = true) into Hlen.
    rename select (from_hex_pairs s = _) into Hp. subst h.
    apply N.eqb_eq in Hlen. unfold lenN, HEX_LEN in Hlen.
    apply (from_hex_pairs_Ok 32) in Hp as [-> Hx]; [|lia].
    unfold to_hex. by rewrite arr_bytes_of.
  - intros Hs. pose proof (f_equal length Hs) as Hlen.
    rewrite length_map, length_to_hex in Hlen. unfold lenN. rewrite Hlen. simpl.
    rewrite (from_hex_pairs_lowercase _ (arr_bytes h)) by done. simpl.
    by rewrite arr_of_bytes.
Qed.

(** Every input that is not a spelling of a digest is refused, with the length
    error exactly when the length is wrong. *)
Lemma from_hex_Err s e :
  from_hex s = Err e →
  (e = InvalidLength (lenN s) ∧ length s ≠ 64) ∨ (e = InvalidChar ∧ length s = 64).
Proof.
  unfold from_hex, HEX_LEN. intros [H|([] & Hl%ensure_Ok & H)]%bind_Err.
  - apply ensure_Err in H as [H%N.eqb_neq <-]. left. unfold lenN in *. split; [done|lia].
  - right. apply N.eqb_eq in Hl. unfold lenN in Hl. split; [|lia].
    apply bind_Err in H as [H|(? & _ & H)]; [|done]. clear Hl. revert H.
    assert (∀ c e', hex_nibble c = Err e' → e' = InvalidChar) as Hn.
    { intros c e'. unfold hex_nibble. repeat case_match; naive_solver. }
    remember (length s) as n eqn:Hlen.
    revert s Hlen. induction (lt_wf n) as [n _ IH]. intros [|c1 [|c2 s]] -> He; try done.
    cbn [from_hex_pairs] in He. apply bind_Err in He as [He|(? & _ & He)]; [by eapply Hn|].
    apply bind_Err in He as [He|(? & _ & He)]; [by eapply Hn|].
    apply bind_Err in He as [He|(? & _ & He)]; [|done].
    eapply IH; [|done..]. simpl. lia.
Qed.

(** The frame of a domain-separated digest is unambiguous. *)
Lemma domain_preimage_inj d1 b1 d2 b2 :
  (lenN d1 <= U16_MAX)%N → (lenN d2 <= U16_MAX)%N →
  domain_preimage d1 b1 = domain_preimage d2 b2 → d1 = d2 ∧ b1 = b2.
Proof.
  unfold domain_preimage, U16_MAX. intros H1 H2 E.
  apply app_inj_len in E as [E1 E2]; [|by rewrite !length_le_bytes].
  apply le_bytes_inj in E1; [|simpl; lia..].
  apply app_inj_len in E2; [done|]. unfold lenN in E1. lia.
Qed.

Lemma object_path_split h :
  arr_bytes (op_dir (object_path h)) ++ arr_bytes (op_file (object_path h)) = to_hex h.
Proof.
  unfold object_path; simpl. pose proof (length_to_hex h).
  rewrite !arr_bytes_of; [apply take_drop|..].
  - rewrite length_drop. lia.
  - rewrite length_take. lia.
Qed.

Lemma object_path_inj h1 h2 : object_path h1 = object_path h2 → h1 = h2.
Proof.
  intros E. assert (to_hex h1 = to_hex h2) as Eh.
  { by rewrite <- !object_path_split, E. }
  pose proof (from_hex_to_hex h1) as H. rewrite Eh, from_hex_to_hex in H. congruence.
Qed.

Section hashing_proofs.
Context `{Blake3Incremental}.

Lemma domain_digest_preimage d b : domain_digest d b = hash (domain_preimage d b).
Proof.
  pose proof (b3_incremental [le_bytes 2 (lenN d); d; b]) as E.
  simpl in E. by rewrite app_nil_r in E.
Qed.

Lemma hasher_two a b :
  Hasher_finalize (Hasher_update (Hasher_update Hasher_new a) b) = hash (a ++ b).
Proof.
  pose proof (b3_incremental [a; b]) as E. simpl in E. by rewrite app_nil_r in E.
Qed.
End hashing_proofs.

(** ** A computable stand-in for BLAKE3

    Used by the examples and witnesses of the development only: a polynomial
    hash of the absorbed bytes, injective on inputs shorter than 31 bytes. *)
Module Toy.
Definition mask : N := Eval vm_compute in N.ones 256.
Definition fold_byte (acc : N) (b : byte) : N := N.land (acc * 257 + b2n b + 1) mask.
Definition digest (acc : N) : hash32 := arr_of 32 (le_bytes 32 acc).

#[export] Instance toy_blake3 : Blake3 := {|
  b3_hash l := digest (foldl fold_byte 0%N l);
  b3_state := N;
  b3_new := 0%N;
  b3_update := foldl fold_byte;
  b3_finalize := digest
|}.

#[export] Instance toy_incremental : Blake3Incremental.
Proof.
  intros parts. simpl. f_equal. generalize 0%N.
  induction parts as [|p parts IH]; intros acc; simpl; [done|].
  by rewrite IH, foldl_app.
Qed.
End Toy.
