(* ===== verification/Object.v ===== *)
(** * Object types: [rust/crates/mkit-core/src/object.rs]

    The data model of the object store: the seven object kinds as records and
    one tagged union, the tags with their byte values, and the structural
    checks ([Identity::is_valid], [TreeEntry::validate_name], [Tree::is_sorted],
    [Remix::sources_sorted], [Tag::name_is_valid]). Object identity
    ([Object::id]) lives in [ObjectId.v], because it needs the serializer and
    the Merkle tree. *)

From S2P Require Import Prelude Hash.

Definition MAGIC : bytes := b# "MKT1".
Definition SCHEMA_VERSION : byte := Byte.x01.
Definition IDENTITY_MAX_LEN : N := 4096.
Definition TAG_NAME_MAX_LEN : N := 4096.

(** ** Errors *)

(** [delta::DeltaCorruption]. *)
Inductive DeltaCorruption :=
  | BaseLenMismatch (declared actual : N)
  | ReservedOpcodeBits (op : byte)
  | ZeroOpcode
  | ZeroLengthCopy
  | CopyPastBase (offset length base_len : N)
  | ResultLenOverrun (emitted requested result_len : N)
  | ResultLenUnderrun (expected actual : N).

Inductive MkitError :=
  | EmptyData
  | InvalidObjectType (b : byte)
  | InvalidMagic
  | UnsupportedObjectVersion
  | UnexpectedEof
  | TrailingData
  | TooManyEntries
  | InvalidEntryName
  | InvalidEntryMode (b : byte)
  | InvalidEntryOrder
  | TooManyParents
  | TooManySources
  | TagNameInvalid
  | TagTargetTypeInvalid (b : byte)
  | InvalidSourceOrder
  | TooManyChunks
  | ChunkedBlobSizeMismatch (expected actual : N)
  | UnknownIdentityKind (b : byte)
  | InvalidIdentity
  | IdentityTooLarge
  | OversizePayload (field : string) (len : N)
  | RngFailure
  | SignatureInvalid
  | InvalidPublicKey
  | InsecureKeyPermissions (actual : N)
  | InsecureKeyOwner (actual euid : N)
  | InsecureKeyDir (actual : N)
  | KeyPathIsSymlink (path : bytes)
  | InvalidKeyLength (actual : N)
  | KeyIo (msg : bytes)
  | DeltaLengthOverflow (field : string) (len : N)
  | DeltaCorrupt (c : DeltaCorruption).

#[export] Instance DeltaCorruption_eq_dec : EqDecision DeltaCorruption.
Proof. solve_decision. Defined.
#[export] Instance MkitError_eq_dec : EqDecision MkitError.
Proof. solve_decision. Defined.

(** ** Tags *)

Module ObjectType.
Inductive t := Blob | Tree | Commit | Remix | ChunkedBlob | Delta | Tag.

#[export] Instance t_eq_dec : EqDecision t.
Proof. solve_decision. Defined.

(** [self as u8]. *)
Definition to_u8 (o : t) : byte :=
  match o with
  | Blob => Byte.x01 | Tree => Byte.x02 | Commit => Byte.x03 | Remix => Byte.x04
  | ChunkedBlob => Byte.x05 | Delta => Byte.x06 | Tag => Byte.x07
  end.

Definition from_u8 (b : byte) : result MkitError t :=
  match b with
  | Byte.x01 => Ok Blob
  | Byte.x02 => Ok Tree
  | Byte.x03 => Ok Commit
  | Byte.x04 => Ok Remix
  | Byte.x05 => Ok ChunkedBlob
  | Byte.x06 => Ok Delta
  | Byte.x07 => Ok Tag
  | other => Err (InvalidObjectType other)
  end.

Definition is_merkle (o : t) : bool :=
  match o with Tree | ChunkedBlob => true | _ => false end.

Definition name (o : t) : bytes :=
  match o with
  | Blob => b# "blob"
  | Tree => b# "tree"
  | Commit => b# "commit"
  | Remix => b# "remix"
  | ChunkedBlob => b# "chunked_blob"
  | Delta => b# "delta"
  | Tag => b# "tag"
  end.

Lemma object_type_from_to_u8 o : from_u8 (to_u8 o) = Ok o.
Proof. by destruct o. Qed.

Lemma object_type_from_u8_Ok b o : from_u8 b = Ok o → b = to_u8 o.
Proof. destruct b; simpl; try done; by intros [= <-]. Qed.
End ObjectType.
#[export] Existing Instance ObjectType.t_eq_dec.

Module EntryMode.
Inductive t := Blob | Tree | Symlink | Executable.

#[export] Instance t_eq_dec : EqDecision t.
Proof. solve_decision. Defined.

Definition to_u8 (m : t) : byte :=
  match m with
  | Blob => Byte.x01 | Tree => Byte.x02 | Symlink => Byte.x03 | Executable => Byte.x04
  end.

Definition from_u8 (b : byte) : result MkitError t :=
  match b with
  | Byte.x01 => Ok Blob
  | Byte.x02 => Ok Tree
  | Byte.x03 => Ok Symlink
  | Byte.x04 => Ok Executable
  | other => Err (InvalidEntryMode other)
  end.

Lemma entry_mode_from_to_u8 m : from_u8 (to_u8 m) = Ok m.
Proof. by destruct m. Qed.

Lemma entry_mode_from_u8_Ok b m : from_u8 b = Ok m → b = to_u8 m.
Proof. destruct b; simpl; try done; by intros [= <-]. Qed.
End EntryMode.
#[export] Existing Instance EntryMode.t_eq_dec.

Module IdentityKind.
Inductive t := Ed25519 | DidKey | Opaque_.

#[export] Instance t_eq_dec : EqDecision t.
Proof. solve_decision. Defined.

Definition to_u8 (k : t) : byte :=
  match k with Ed25519 => Byte.x01 | DidKey => Byte.x02 | Opaque_ => Byte.x03 end.

Definition from_u8 (b : byte) : result MkitError t :=
  match b with
  | Byte.x01 => Ok Ed25519
  | Byte.x02 => Ok DidKey
  | Byte.x03 => Ok Opaque_
  | other => Err (UnknownIdentityKind other)
  end.

Lemma identity_kind_from_to_u8 k : from_u8 (to_u8 k) = Ok k.
Proof. by destruct k. Qed.

Lemma identity_kind_from_u8_Ok b k : from_u8 b = Ok k → b = to_u8 k.
Proof. destruct b; simpl; try done; by intros [= <-]. Qed.
End IdentityKind.
#[export] Existing Instance IdentityKind.t_eq_dec.

(** ** Identities *)

Record Identity := { id_kind : IdentityKind.t; id_bytes : bytes }.

Definition Identity_is_valid (i : Identity) : bool :=
  if (lenN (id_bytes i) =? 0)%N || (IDENTITY_MAX_LEN <? lenN (id_bytes i))%N then false
  else match id_kind i with
       | IdentityKind.Ed25519 => (lenN (id_bytes i) =? 32)%N
       | IdentityKind.DidKey => forallb is_ascii_graphic (id_bytes i)
       | IdentityKind.Opaque_ => true
       end.

(** ** Tree entries *)

Record TreeEntry := {
  te_name : bytes;
  te_mode : EntryMode.t;
  te_hash : hash32
}.

Definition is_windows_reserved_stem (stem : bytes) : bool :=
  match length stem with
  | 3 =>
      eq_ignore_ascii_case stem (b# "CON") || eq_ignore_ascii_case stem (b# "PRN")
      || eq_ignore_ascii_case stem (b# "AUX") || eq_ignore_ascii_case stem (b# "NUL")
  | 4 =>
      let head := take 3 stem in
      let tail := nth 3 stem Byte.x00 in
      let is_digit_1_9 := (49 <=? b2n tail)%N && (b2n tail <=? 57)%N in
      is_digit_1_9 &&
      (eq_ignore_ascii_case head (b# "COM") || eq_ignore_ascii_case head (b# "LPT"))
  | _ => false
  end.

(** [name.iter().position(|&b| b == c)], and the bytes before it. *)
Fixpoint before_byte (c : byte) (l : bytes) : bytes :=
  match l with
  | [] => []
  | b :: l => if bool_decide (b = c) then [] else b :: before_byte c l
  end.

(** The bytes no name may hold: NUL, [/] and [\]. *)
Definition is_forbidden_byte (b : byte) : bool :=
  match b with Byte.x00 | Byte.x2f | Byte.x5c => true | _ => false end.

Definition validate_name (name : bytes) : bool :=
  if (lenN name =? 0)%N || (255 <? lenN name)%N then false
  else if bytes_eqb name (b# ".") || bytes_eqb name (b# "..") then false
  else if existsb is_forbidden_byte name then false
  else if match list.last name with
          | Some Byte.x2e | Some Byte.x20 => true
          | _ => false
          end then false
  else if eq_ignore_ascii_case name (b# ".mkit")
          || eq_ignore_ascii_case name (b# ".git") then false
  else if is_windows_reserved_stem (before_byte Byte.x2e name) then false
  else true.

(** ** Objects *)

Record Blob := { blob_data : bytes }.

Record Tree := { tree_entries : list TreeEntry }.

Definition Tree_is_sorted (t : Tree) : bool :=
  windows2_all (λ a b, bytes_ltb (te_name a) (te_name b)) (tree_entries t).

Record Commit := {
  c_tree_hash : hash32;
  c_parents : list hash32;
  c_author : Identity;
  c_signer : arr 32;
  c_message : bytes;
  c_timestamp : N;
  c_message_hash : hash32;
  c_content_digest : hash32;
  c_signature : arr 64
}.

(** [Commit::new_unannotated]. *)
Definition Commit_new_unannotated tree_hash parents author signer message
    timestamp signature : Commit := {|
  c_tree_hash := tree_hash; c_parents := parents; c_author := author;
  c_signer := signer; c_message := message; c_timestamp := timestamp;
  c_message_hash := ZERO; c_content_digest := ZERO; c_signature := signature
|}.

Record RemixSource := { rs_upstream_id : hash32; rs_commit_hash : hash32 }.

Record Remix := {
  r_tree_hash : hash32;
  r_parents : list hash32;
  r_sources : list RemixSource;
  r_author : Identity;
  r_signer : arr 32;
  r_message : bytes;
  r_timestamp : N;
  r_signature : arr 64
}.

(** [Hash]'s derived order is the byte order. *)
Definition hash_cmp (a b : hash32) : comparison := bytes_cmp (arr_bytes a) (arr_bytes b).

Definition sources_ordered (a b : RemixSource) : bool :=
  match hash_cmp (rs_upstream_id a) (rs_upstream_id b) with
  | Lt => true
  | Gt => false
  | Eq => match hash_cmp (rs_commit_hash a) (rs_commit_hash b) with Lt => true | _ => false end
  end.

Definition Remix_sources_sorted (r : Remix) : bool :=
  windows2_all sources_ordered (r_sources r).

Record Tag := {
  tag_target : hash32;
  tag_target_type : ObjectType.t;
  tag_name : bytes;
  tag_tagger : Identity;
  tag_signer : arr 32;
  tag_message : bytes;
  tag_timestamp : N;
  tag_signature : arr 64
}.

Definition Tag_name_is_valid (t : Tag) : bool :=
  if (lenN (tag_name t) =? 0)%N || (TAG_NAME_MAX_LEN <? lenN (tag_name t))%N then false
  else negb (existsb is_forbidden_byte (tag_name t)).

Record ChunkedBlob := {
  cb_total_size : N;
  cb_chunk_size : N;
  cb_chunks : list hash32
}.

(** [ChunkedBlob::check_reassembled_size]; a [usize] fits a [u64]. *)
Definition check_reassembled_size (cb : ChunkedBlob) (reassembled_len : N)
    : result MkitError unit :=
  if negb (reassembled_len =? cb_total_size cb)%N
  then Err (ChunkedBlobSizeMismatch (cb_total_size cb) reassembled_len)
  else Ok tt.

Record Delta := {
  d_base_hash : hash32;
  d_result_size : N;
  d_instructions : bytes
}.

Inductive Object :=
  | OBlob (b : Blob)
  | OTree (t : Tree)
  | OCommit (c : Commit)
  | ORemix (r : Remix)
  | OChunkedBlob (cb : ChunkedBlob)
  | ODelta (d : Delta)
  | OTag (t : Tag).

Definition object_type (o : Object) : ObjectType.t :=
  match o with
  | OBlob _ => ObjectType.Blob
  | OTree _ => ObjectType.Tree
  | OCommit _ => ObjectType.Commit
  | ORemix _ => ObjectType.Remix
  | OChunkedBlob _ => ObjectType.ChunkedBlob
  | ODelta _ => ObjectType.Delta
  | OTag _ => ObjectType.Tag
  end.

(** ** Decidable equality *)

#[export] Instance Identity_eq_dec : EqDecision Identity.
Proof. solve_decision. Defined.
#[export] Instance TreeEntry_eq_dec : EqDecision TreeEntry.
Proof. solve_decision. Defined.
#[export] Instance RemixSource_eq_dec : EqDecision RemixSource.
Proof. solve_decision. Defined.
#[export] Instance Blob_eq_dec : EqDecision Blob.
Proof. solve_decision. Defined.
#[export] Instance Tree_eq_dec : EqDecision Tree.
Proof. solve_decision. Defined.
#[export] Instance Commit_eq_dec : EqDecision Commit.
Proof. solve_decision. Defined.
#[export] Instance Remix_eq_dec : EqDecision Remix.
Proof. solve_decision. Defined.
#[export] Instance Tag_eq_dec : EqDecision Tag.
Proof. solve_decision. Defined.
#[export] Instance ChunkedBlob_eq_dec : EqDecision ChunkedBlob.
Proof. solve_decision. Defined.
#[export] Instance Delta_eq_dec : EqDecision Delta.
Proof. solve_decision. Defined.
#[export] Instance Object_eq_dec : EqDecision Object.
Proof. solve_decision. Defined.

(** ** Ordered children *)

Lemma hash_cmp_eq a b : hash_cmp a b = Eq ↔ a = b.
Proof.
  unfold hash_cmp. rewrite bytes_cmp_eq. split; [apply (inj arr_bytes)|by intros ->].
Qed.

Lemma windows2_all_StronglySorted {A} (p : A → A → bool) (l : list A) :
  (∀ x y z, p x y = true → p y z = true → p x z = true) →
  windows2_all p l = true ↔ StronglySorted (λ x y, p x y = true) l.
Proof.
  intros Ht. rewrite windows2_all_Sorted. split.
  - apply Sorted_StronglySorted. intros x y z. apply Ht.
  - apply StronglySorted_Sorted.
Qed.

Lemma Tree_is_sorted_spec t :
  Tree_is_sorted t = true ↔
  StronglySorted (λ a b, bytes_lt (te_name a) (te_name b)) (tree_entries t).
Proof.
  apply windows2_all_StronglySorted. intros x y z.
  apply (transitivity (R := bytes_lt)).
Qed.

(** A sorted tree names each child once. *)
Lemma sorted_names_NoDup t : Tree_is_sorted t = true → NoDup (te_name <$> tree_entries t).
Proof.
  rewrite Tree_is_sorted_spec. induction 1 as [|e l _ IH Hall]; [constructor|].
  rewrite fmap_cons. constructor; [|done].
  intros ([name m h] & Hn & Hin)%list_elem_of_fmap.
  rewrite list.Forall_forall in Hall. apply Hall in Hin. simpl in *. rewrite Hn in Hin.
  by apply bytes_lt_irrefl in Hin.
Qed.

Lemma sources_ordered_trans x y z :
  sources_ordered x y = true → sources_ordered y z = true → sources_ordered x z = true.
Proof.
  unfold sources_ordered.
  destruct (hash_cmp (rs_upstream_id x) (rs_upstream_id y)) eqn:E1; [|..|done];
    destruct (hash_cmp (rs_upstream_id y) (rs_upstream_id z)) eqn:E2; try done.
  - apply hash_cmp_eq in E1 as ->. rewrite E2.
    intros H1 H2. unfold hash_cmp in *.
    destruct (bytes_cmp (arr_bytes (rs_commit_hash x)) _) eqn:?; try done.
    destruct (bytes_cmp (arr_bytes (rs_commit_hash y)) _) eqn:?; try done.
    by erewrite bytes_cmp_lt_trans.
  - apply hash_cmp_eq in E1 as ->. by rewrite E2.
  - apply hash_cmp_eq in E2 as <-. by rewrite E1.
  - unfold hash_cmp in *. by erewrite bytes_cmp_lt_trans.
Qed.

Lemma Remix_sources_sorted_spec r :
  Remix_sources_sorted r = true ↔
  StronglySorted (λ a b, sources_ordered a b = true) (r_sources r).
Proof. apply windows2_all_StronglySorted, sources_ordered_trans. Qed.

Lemma Identity_is_valid_len i :
  Identity_is_valid i = true → (0 < lenN (id_bytes i) <= IDENTITY_MAX_LEN)%N.
Proof.
  unfold Identity_is_valid. case_match eqn:E; [done|].
  apply orb_false_iff in E as [E1 E2].
  apply N.eqb_neq in E1. apply N.ltb_ge in E2. lia.
Qed.
