(* ===== verification/Serialize.v ===== *)
(** * Canonical object encoding: [rust/crates/mkit-core/src/serialize.rs]

    The writers return the bytes the source appends to its buffer (on an error
    the source drops the buffer). The readers are state-passing functions over
    [Reader], the source's slice with its position, in an error monad whose
    bind threads the position. *)

From S2P Require Import Prelude Hash Object.

Definition PROLOGUE_LEN : N := 6.
Definition MAX_TREE_ENTRIES : N := 1_000_000.
Definition MAX_PARENTS : N := 1_000.
Definition MAX_REMIX_SOURCES : N := 10_000.
Definition MAX_CHUNKS : N := 1_000_000.

(** ** Writers *)

Abbreviation written := (result MkitError bytes).

Definition write_prologue (t : ObjectType.t) : bytes :=
  ObjectType.to_u8 t :: MAGIC ++ [SCHEMA_VERSION].

Definition write_u16_le (v : N) : bytes := le_bytes 2 v.
Definition write_u32_le (v : N) : bytes := le_bytes 4 v.
Definition write_u64_le (v : N) : bytes := le_bytes 8 v.

Definition checked_u32 (field : string) (len : N) : result MkitError N :=
  if (len <=? U32_MAX)%N then Ok len else Err (OversizePayload field len).

Definition write_lp_bytes (field : string) (data : bytes) : written :=
  len ← checked_u32 field (lenN data);
  mret (write_u32_le len ++ data).

Definition write_identity (i : Identity) : written :=
  _ ← ensure (Identity_is_valid i) InvalidIdentity;
  _ ← ensure (lenN (id_bytes i) <=? U16_MAX)%N InvalidIdentity;
  mret (IdentityKind.to_u8 (id_kind i)
        :: write_u16_le (lenN (id_bytes i)) ++ id_bytes i).

Definition write_blob (b : Blob) : written := write_lp_bytes "blob.data" (blob_data b).

(** One iteration of the entry loop of [write_tree]. *)
Definition write_tree_entry (e : TreeEntry) : written :=
  name ← write_lp_bytes "tree.entry.name" (te_name e);
  mret (name ++ EntryMode.to_u8 (te_mode e) :: arr_bytes (te_hash e)).

Fixpoint write_tree_entries (es : list TreeEntry) : written :=
  match es with
  | [] => mret []
  | e :: es =>
      w ← write_tree_entry e;
      ws ← write_tree_entries es;
      mret (w ++ ws)
  end.

Definition write_tree (t : Tree) : written :=
  count ← checked_u32 "tree.entries" (lenN (tree_entries t));
  es ← write_tree_entries (tree_entries t);
  mret (write_u32_le count ++ es).

Definition write_hashes (hs : list hash32) : bytes := concat (map arr_bytes hs).

Definition write_commit (c : Commit) : written :=
  parent_count ← checked_u32 "commit.parents" (lenN (c_parents c));
  author ← write_identity (c_author c);
  message ← write_lp_bytes "commit.message" (c_message c);
  mret (arr_bytes (c_tree_hash c)
        ++ write_u32_le parent_count ++ write_hashes (c_parents c)
        ++ author ++ message
        ++ write_u64_le (c_timestamp c)
        ++ arr_bytes (c_signer c)
        ++ arr_bytes (c_message_hash c)
        ++ arr_bytes (c_content_digest c)
        ++ arr_bytes (c_signature c)).

Definition write_source (s : RemixSource) : bytes :=
  arr_bytes (rs_upstream_id s) ++ arr_bytes (rs_commit_hash s).

Definition write_remix (r : Remix) : written :=
  parent_count ← checked_u32 "remix.parents" (lenN (r_parents r));
  source_count ← checked_u32 "remix.sources" (lenN (r_sources r));
  author ← write_identity (r_author r);
  message ← write_lp_bytes "remix.message" (r_message r);
  mret (arr_bytes (r_tree_hash r)
        ++ write_u32_le parent_count ++ write_hashes (r_parents r)
        ++ write_u32_le source_count ++ concat (map write_source (r_sources r))
        ++ author ++ message
        ++ write_u64_le (r_timestamp r)
        ++ arr_bytes (r_signer r)
        ++ arr_bytes (r_signature r)).

Definition check_tag_target_type (t : ObjectType.t) : result MkitError unit :=
  match t with
  | ObjectType.Delta => Err (TagTargetTypeInvalid (ObjectType.to_u8 t))
  | _ => Ok tt
  end.

Definition write_tag (t : Tag) : written :=
  _ ← ensure (Tag_name_is_valid t) TagNameInvalid;
  _ ← check_tag_target_type (tag_target_type t);
  name ← write_lp_bytes "tag.name" (tag_name t);
  tagger ← write_identity (tag_tagger t);
  message ← write_lp_bytes "tag.message" (tag_message t);
  mret (arr_bytes (tag_target t)
        ++ ObjectType.to_u8 (tag_target_type t) :: name
        ++ tagger ++ message
        ++ write_u64_le (tag_timestamp t)
        ++ arr_bytes (tag_signer t)
        ++ arr_bytes (tag_signature t)).

Definition write_chunked_blob (cb : ChunkedBlob) : written :=
  count ← checked_u32 "chunked_blob.chunks" (lenN (cb_chunks cb));
  mret (write_u64_le (cb_total_size cb) ++ write_u32_le (cb_chunk_size cb)
        ++ write_u32_le count ++ write_hashes (cb_chunks cb)).

Definition write_delta (d : Delta) : written :=
  instructions ← write_lp_bytes "delta.instructions" (d_instructions d);
  mret (arr_bytes (d_base_hash d) ++ write_u32_le (d_result_size d) ++ instructions).

(** The dispatch of [serialize] on the object kind. *)
Definition write_body (o : Object) : written :=
  match o with
  | OBlob b => write_blob b
  | OTree t => write_tree t
  | OCommit c => write_commit c
  | ORemix r => write_remix r
  | OChunkedBlob cb => write_chunked_blob cb
  | ODelta d => write_delta d
  | OTag t => write_tag t
  end.

Definition serialize (o : Object) : written :=
  body ← write_body o;
  mret (write_prologue (object_type o) ++ body).

Definition blob_prologue (len : N) : written :=
  len_le ← checked_u32 "blob.data" len;
  mret (ObjectType.to_u8 ObjectType.Blob :: MAGIC ++ SCHEMA_VERSION :: le_bytes 4 len_le).

(** The buffer capacity [serialize] asks for beyond the prologue. *)
Definition estimated_body_len (o : Object) : N :=
  match o with
  | OBlob b => 4 + lenN (blob_data b)
  | OTree t =>
      4 + foldr N.add 0 (map (λ e, 4 + lenN (te_name e) + 1 + 32) (tree_entries t))
  | OCommit c =>
      32 + 4 + lenN (c_parents c) * 32 + 1 + 2 + lenN (id_bytes (c_author c)) + 4
      + lenN (c_message c) + 8 + 32 + 32 + 32 + 64
  | ORemix r =>
      32 + 4 + lenN (r_parents r) * 32 + 4 + lenN (r_sources r) * 64 + 1 + 2
      + lenN (id_bytes (r_author r)) + 4 + lenN (r_message r) + 8 + 32 + 64
  | OChunkedBlob cb => 8 + 4 + 4 + lenN (cb_chunks cb) * 32
  | ODelta d => 32 + 4 + 4 + lenN (d_instructions d)
  | OTag t =>
      32 + 1 + 4 + lenN (tag_name t) + 1 + 2 + lenN (id_bytes (tag_tagger t)) + 4
      + lenN (tag_message t) + 8 + 32 + 64
  end%N.

(** ** Reader *)

Record Reader := { rd_data : bytes; rd_pos : nat }.

Definition Reader_new (data : bytes) : Reader := {| rd_data := data; rd_pos := 0 |}.

Definition remaining (r : Reader) : N := (lenN (rd_data r) - N.of_nat (rd_pos r))%N.

Definition need (r : Reader) (n : N) : result MkitError unit :=
  if (remaining r <? n)%N then Err UnexpectedEof else Ok tt.

(** A [&mut Reader] method: the value, and the reader with its new position. *)
Definition reader (A : Type) : Type := Reader → result MkitError (A * Reader).

#[export] Instance reader_ret : MRet reader := λ A a r, Ok (a, r).
#[export] Instance reader_bind : MBind reader := λ A B f m r,
  match m r with Ok (a, r') => f a r' | Err e => Err e end.
#[export] Instance reader_fmap : FMap reader := λ A B f m r,
  match m r with Ok (a, r') => Ok (f a, r') | Err e => Err e end.

(** [res?] of a computation that does not touch the reader. *)
Definition lift {A} (res : result MkitError A) : reader A := λ r,
  match res with Ok a => Ok (a, r) | Err e => Err e end.

(** [if !b { return Err(e) }]. *)
Definition check (b : bool) (e : MkitError) : reader unit := lift (ensure b e).

(** [self.need(n)?; let s = self.data[pos..pos + n]; pos += n]: the shape of
    every primitive read. *)
Definition read_slice (n : N) : reader bytes := λ r,
  match need r n with
  | Ok _ =>
      Ok (take (N.to_nat n) (drop (rd_pos r) (rd_data r)),
          {| rd_data := rd_data r; rd_pos := rd_pos r + N.to_nat n |})
  | Err e => Err e
  end.

Definition read_u8 : reader byte :=
  s ← read_slice 1; mret (nth 0 s Byte.x00).
Definition read_u16 : reader N := le_val <$> read_slice 2.
Definition read_u32 : reader N := le_val <$> read_slice 4.
Definition read_u64 : reader N := le_val <$> read_slice 8.
Definition read_fixed (n : nat) : reader (arr n) := arr_of n <$> read_slice (N.of_nat n).
Definition read_hash : reader hash32 := arr_of 32 <$> read_slice HASH_LEN.

Definition read_lp_bytes : reader bytes :=
  len ← read_u32;
  read_slice len.

Definition read_identity : reader Identity :=
  kind_byte ← read_u8;
  kind ← lift (IdentityKind.from_u8 kind_byte);
  len ← read_u16;
  _ ← check (negb (len =? 0)%N) InvalidIdentity;
  _ ← check (negb (IDENTITY_MAX_LEN <? len)%N) IdentityTooLarge;
  _ ← check (match kind with
             | IdentityKind.Ed25519 => (len =? 32)%N
             | _ => true
             end) InvalidIdentity;
  bs ← read_slice len;
  let id := {| id_kind := kind; id_bytes := bs |} in
  _ ← check (Identity_is_valid id) InvalidIdentity;
  mret id.

(** [if count.saturating_mul(size) > r.remaining() { return Err(UnexpectedEof) }]. *)
Definition check_count (count size : N) : reader unit := λ r,
  if (remaining r <? saturating_mul count size)%N then Err UnexpectedEof else Ok (tt, r).

(** [for _ in 0..n { v.push(m?) }]. *)
Fixpoint read_n {A} (n : nat) (m : reader A) : reader (list A) :=
  match n with
  | O => mret []
  | S n => x ← m; xs ← read_n n m; mret (x :: xs)
  end.

(** The counted vector of a parent list, a source list and a chunk list: the
    count, its cap, the up-front size check, the items. *)
Definition read_counted {A} (max : N) (e : MkitError) (size : N) (m : reader A)
    : reader (list A) :=
  count ← read_u32;
  _ ← check (negb (max <? count)%N) e;
  _ ← check_count count size;
  read_n (N.to_nat count) m.

Definition read_blob : reader Blob :=
  data ← read_lp_bytes;
  mret {| blob_data := data |}.

(** The entry loop of [read_tree]; [prev] is [entries.last()]. *)
Fixpoint read_tree_entries (n : nat) (prev : option bytes) : reader (list TreeEntry) :=
  match n with
  | O => mret []
  | S n =>
      name ← read_lp_bytes;
      _ ← check (validate_name name) InvalidEntryName;
      _ ← check (match prev with
                 | Some p => negb (bytes_leb name p)
                 | None => true
                 end) InvalidEntryOrder;
      mode_byte ← read_u8;
      mode ← lift (EntryMode.from_u8 mode_byte);
      object_hash ← read_hash;
      rest ← read_tree_entries n (Some name);
      mret ({| te_name := name; te_mode := mode; te_hash := object_hash |} :: rest)
  end.

Definition read_tree : reader Tree :=
  count ← read_u32;
  _ ← check (negb (MAX_TREE_ENTRIES <? count)%N) TooManyEntries;
  _ ← check_count count (4 + 1 + 1 + HASH_LEN);
  entries ← read_tree_entries (N.to_nat count) None;
  mret {| tree_entries := entries |}.

(** The parent list of a commit or remix. *)
Definition read_parents : reader (list hash32) :=
  read_counted MAX_PARENTS TooManyParents HASH_LEN read_hash.

Definition read_commit : reader Commit :=
  tree_hash ← read_hash;
  parents ← read_parents;
  author ← read_identity;
  message ← read_lp_bytes;
  timestamp ← read_u64;
  signer ← read_fixed 32;
  message_hash ← read_hash;
  content_digest ← read_hash;
  signature ← read_fixed 64;
  mret {| c_tree_hash := tree_hash; c_parents := parents; c_author := author;
          c_signer := signer; c_message := message; c_timestamp := timestamp;
          c_message_hash := message_hash; c_content_digest := content_digest;
          c_signature := signature |}.

Definition read_source : reader RemixSource :=
  upstream_id ← read_hash;
  commit_hash ← read_hash;
  mret {| rs_upstream_id := upstream_id; rs_commit_hash := commit_hash |}.

(** [bad] of the sort check of [read_remix]. *)
Definition source_pair_bad (a b : RemixSource) : bool :=
  match hash_cmp (rs_upstream_id a) (rs_upstream_id b) with
  | Gt => true
  | Eq => bytes_leb (arr_bytes (rs_commit_hash b)) (arr_bytes (rs_commit_hash a))
  | Lt => false
  end.

Definition read_remix : reader Remix :=
  tree_hash ← read_hash;
  parents ← read_parents;
  sources ← read_counted MAX_REMIX_SOURCES TooManySources (2 * HASH_LEN) read_source;
  author ← read_identity;
  message ← read_lp_bytes;
  timestamp ← read_u64;
  signer ← read_fixed 32;
  signature ← read_fixed 64;
  _ ← check (windows2_all (λ a b, negb (source_pair_bad a b)) sources) InvalidSourceOrder;
  mret {| r_tree_hash := tree_hash; r_parents := parents; r_sources := sources;
          r_author := author; r_signer := signer; r_message := message;
          r_timestamp := timestamp; r_signature := signature |}.

Definition read_tag : reader Tag :=
  target ← read_hash;
  type_byte ← read_u8;
  target_type ← lift (ObjectType.from_u8 type_byte);
  _ ← lift (check_tag_target_type target_type);
  name_len ← read_u32;
  _ ← check (negb ((name_len =? 0)%N || (TAG_NAME_MAX_LEN <? name_len)%N)) TagNameInvalid;
  name ← read_slice name_len;
  _ ← check (negb (existsb is_forbidden_byte name)) TagNameInvalid;
  tagger ← read_identity;
  message ← read_lp_bytes;
  timestamp ← read_u64;
  signer ← read_fixed 32;
  signature ← read_fixed 64;
  mret {| tag_target := target; tag_target_type := target_type; tag_name := name;
          tag_tagger := tagger; tag_signer := signer; tag_message := message;
          tag_timestamp := timestamp; tag_signature := signature |}.

Definition read_chunked_blob : reader ChunkedBlob :=
  total_size ← read_u64;
  chunk_size ← read_u32;
  chunks ← read_counted MAX_CHUNKS TooManyChunks HASH_LEN read_hash;
  mret {| cb_total_size := total_size; cb_chunk_size := chunk_size; cb_chunks := chunks |}.

Definition read_delta : reader Delta :=
  base_hash ← read_hash;
  result_size ← read_u32;
  instructions ← read_lp_bytes;
  mret {| d_base_hash := base_hash; d_result_size := result_size;
          d_instructions := instructions |}.

(** The dispatch of [deserialize] on the type tag. *)
Definition read_body (tag : ObjectType.t) : reader Object :=
  match tag with
  | ObjectType.Blob => OBlob <$> read_blob
  | ObjectType.Tree => OTree <$> read_tree
  | ObjectType.Commit => OCommit <$> read_commit
  | ObjectType.Remix => ORemix <$> read_remix
  | ObjectType.ChunkedBlob => OChunkedBlob <$> read_chunked_blob
  | ObjectType.Delta => ODelta <$> read_delta
  | ObjectType.Tag => OTag <$> read_tag
  end.

Definition deserialize (data : bytes) : result MkitError Object :=
  _ ← ensure (PROLOGUE_LEN <=? lenN data)%N EmptyData;
  tag ← ObjectType.from_u8 (nth 0 data Byte.x00);
  _ ← ensure (bytes_eqb (take 4 (drop 1 data)) MAGIC) InvalidMagic;
  _ ← ensure (bool_decide (nth 5 data Byte.x00 = SCHEMA_VERSION)) UnsupportedObjectVersion;
  '(obj, r) ← read_body tag (Reader_new (drop 6 data));
  _ ← ensure (remaining r =? 0)%N TrailingData;
  mret obj.
