(* ===== verification/SerializeFacts.v ===== *)
(** * The object encoding is canonical

    Facts about [Serialize.v]. [wf] is the invariant a decoded object has; the
    class [Codec] pairs a reader with a writer, states that the reader parses
    what the writer writes and that whatever it accepts was written that way,
    and is solved for every field and every object kind. *)

From S2P Require Import Prelude Hash Object Serialize.

(** ** The invariant of decoded objects *)

Definition u32_bounded (n : N) : bool := (n <=? U32_MAX)%N.
Definition u64_bounded (n : N) : bool := (n <=? U64_MAX)%N.

Definition wf_blob (b : Blob) : bool := u32_bounded (lenN (blob_data b)).

Definition wf_tree (t : Tree) : bool :=
  (lenN (tree_entries t) <=? MAX_TREE_ENTRIES)%N
  && forallb (λ e, validate_name (te_name e)) (tree_entries t)
  && Tree_is_sorted t.

Definition wf_commit (c : Commit) : bool :=
  (lenN (c_parents c) <=? MAX_PARENTS)%N
  && Identity_is_valid (c_author c)
  && u32_bounded (lenN (c_message c))
  && u64_bounded (c_timestamp c).

Definition wf_remix (r : Remix) : bool :=
  (lenN (r_parents r) <=? MAX_PARENTS)%N
  && (lenN (r_sources r) <=? MAX_REMIX_SOURCES)%N
  && Remix_sources_sorted r
  && Identity_is_valid (r_author r)
  && u32_bounded (lenN (r_message r))
  && u64_bounded (r_timestamp r).

Definition wf_tag (t : Tag) : bool :=
  Tag_name_is_valid t
  && negb (bool_decide (tag_target_type t = ObjectType.Delta))
  && Identity_is_valid (tag_tagger t)
  && u32_bounded (lenN (tag_message t))
  && u64_bounded (tag_timestamp t).

Definition wf_chunked_blob (cb : ChunkedBlob) : bool :=
  u64_bounded (cb_total_size cb) && u32_bounded (cb_chunk_size cb)
  && (lenN (cb_chunks cb) <=? MAX_CHUNKS)%N.

Definition wf_delta (d : Delta) : bool :=
  u32_bounded (d_result_size d) && u32_bounded (lenN (d_instructions d)).

Definition wf (o : Object) : bool :=
  match o with
  | OBlob b => wf_blob b
  | OTree t => wf_tree t
  | OCommit c => wf_commit c
  | ORemix r => wf_remix r
  | OChunkedBlob cb => wf_chunked_blob cb
  | ODelta d => wf_delta d
  | OTag t => wf_tag t
  end.

(** ** The unread suffix *)

Definition unread (r : Reader) : bytes := drop (rd_pos r) (rd_data r).

Lemma remaining_unread r : remaining r = lenN (unread r).
Proof. unfold remaining, unread, lenN. rewrite length_drop. lia. Qed.

Lemma read_slice_Ok n r l r' :
  read_slice n r = Ok (l, r') → lenN l = n ∧ unread r = l ++ unread r'.
Proof.
  unfold read_slice, need. rewrite remaining_unread.
  case_match eqn:E; [|done]. case_match eqn:E'; [done|].
  apply N.ltb_ge in E'. intros [= <- <-]. unfold unread, lenN in *; simpl.
  rewrite length_take. split; [lia|]. by rewrite <- drop_drop, take_drop.
Qed.

(** ** Parsing *)

(** [m] reads [l], whatever follows it, and returns [a]. *)
Definition parses {A} (m : reader A) (l : bytes) (a : A) : Prop :=
  ∀ r k, unread r = l ++ k → ∃ r', m r = Ok (a, r') ∧ unread r' = k.

Lemma parses_ret {A} (a : A) : parses (mret a) [] a.
Proof. intros r k H. by exists r. Qed.

Lemma parses_bind {A B} (m : reader A) (f : A → reader B) l1 l2 a b :
  parses m l1 a → parses (f a) l2 b → parses (m ≫= f) (l1 ++ l2) b.
Proof.
  intros Hm Hf r k Hr. rewrite <- app_assoc in Hr.
  destruct (Hm _ _ Hr) as (r1 & E1 & Hr1). destruct (Hf _ _ Hr1) as (r2 & E2 & Hr2).
  exists r2. split; [|done]. unfold mbind, reader_bind. by rewrite E1.
Qed.

Lemma parses_bind_cons {A B} (m : reader A) (f : A → reader B) x l a b :
  parses m [x] a → parses (f a) l b → parses (m ≫= f) (x :: l) b.
Proof. apply (parses_bind m f [x]). Qed.

(** The last read of a chain, whose bytes end the input. *)
Lemma parses_bind_ret {A B} (m : reader A) (f : A → reader B) l a b :
  parses m l a → parses (f a) [] b → parses (m ≫= f) l b.
Proof. intros H1 H2. rewrite <- (app_nil_r l). by eapply parses_bind. Qed.

Lemma parses_fmap {A B} (m : reader A) (f : A → B) l a :
  parses m l a → parses (f <$> m) l (f a).
Proof.
  intros H r k Hr. destruct (H _ _ Hr) as (r' & E & ?). exists r'.
  split; [|done]. unfold fmap, reader_fmap. by rewrite E.
Qed.

(** A step that reads nothing. *)
Lemma parses_lift {A B} (res : result MkitError A) (f : A → reader B) a l b :
  res = Ok a → parses (f a) l b → parses (lift res ≫= f) l b.
Proof. intros -> H r k Hr. by apply H. Qed.

Lemma parses_check {B} (c : bool) e (f : unit → reader B) l b :
  c = true → parses (f tt) l b → parses (check c e ≫= f) l b.
Proof. intros ->. by apply parses_lift. Qed.

(** The up-front count check never refuses an input that holds the items. *)
Lemma parses_check_count {B} count size (f : unit → reader B) l b :
  (count * size <= lenN l)%N → parses (f tt) l b →
  parses (check_count count size ≫= f) l b.
Proof.
  intros Hl H r k Hr. unfold mbind, reader_bind, check_count.
  rewrite remaining_unread, Hr, lenN_app. unfold saturating_mul.
  destruct (N.ltb_spec (lenN l + lenN k) ((count * size) `min` USIZE_MAX)); [lia|].
  by apply H.
Qed.

Lemma parses_slice l : parses (read_slice (lenN l)) l l.
Proof.
  intros r k Hr. unfold read_slice, need. rewrite remaining_unread, Hr, lenN_app.
  destruct (N.ltb_spec (lenN l + lenN k) (lenN l)); [lia|].
  eexists. unfold unread in *; simpl. unfold lenN. rewrite Nat2N.id.
  rewrite Hr, take_app_length. split; [done|]. simpl.
  by rewrite <- drop_drop, Hr, drop_app_length.
Qed.

Lemma parses_slice' n l : n = lenN l → parses (read_slice n) l l.
Proof. intros ->. apply parses_slice. Qed.

(** ** Inverting a successful read *)

Lemma rd_bind_Ok {A B} (m : reader A) (f : A → reader B) r b r' :
  (m ≫= f) r = Ok (b, r') ↔ ∃ a r1, m r = Ok (a, r1) ∧ f a r1 = Ok (b, r').
Proof.
  unfold mbind, reader_bind. destruct (m r) as [[a r1]|e]; naive_solver.
Qed.

Lemma rd_fmap_Ok {A B} (m : reader A) (f : A → B) r b r' :
  (f <$> m) r = Ok (b, r') ↔ ∃ a, m r = Ok (a, r') ∧ b = f a.
Proof.
  unfold fmap, reader_fmap. destruct (m r) as [[a r1]|e]; naive_solver.
Qed.

Lemma rd_ret_Ok {A} (a b : A) (r r' : Reader) :
  (mret a : reader A) r = Ok (b, r') ↔ b = a ∧ r' = r.
Proof. unfold mret, reader_ret. naive_solver. Qed.

Lemma rd_lift_Ok {A} (res : result MkitError A) r a r' :
  lift res r = Ok (a, r') ↔ res = Ok a ∧ r' = r.
Proof. unfold lift. destruct res; naive_solver. Qed.

Lemma rd_check_Ok c e r u r' : check c e r = Ok (u, r') ↔ c = true ∧ r' = r.
Proof. unfold check. rewrite rd_lift_Ok, ensure_Ok. done. Qed.

Lemma rd_check_count_Ok count size r u r' :
  check_count count size r = Ok (u, r') → r' = r.
Proof. unfold check_count. case_match; [done|]. by intros [= _ ->]. Qed.

Ltac inv_rd :=
  repeat match goal with
  | H : (_ ≫= _) _ = Ok (_, _) |- _ => apply rd_bind_Ok in H as (? & ? & ? & H)
  | H : (_ <$> _) _ = Ok (_, _) |- _ => apply rd_fmap_Ok in H as (? & H & ?)
  | H : mret _ _ = Ok (_, _) |- _ => apply rd_ret_Ok in H as [? ?]
  | H : lift _ _ = Ok (_, _) |- _ => apply rd_lift_Ok in H as [H ?]
  | H : check _ _ _ = Ok (_, _) |- _ => apply rd_check_Ok in H as [H ?]
  | H : check_count _ _ _ = Ok (_, _) |- _ => apply rd_check_count_Ok in H
  | H : _ && _ = true |- _ => apply andb_true_iff in H as [? ?]
  | H : negb _ = true |- _ => apply negb_true_iff in H
  | u : unit |- _ => destruct u
  end; subst.

(** ** Codecs *)

Class Codec {A} (m : reader A) (w : A → written) (P : A → bool) : Prop := {
  codec_parse a : P a = true → ∃ l, w a = Ok l ∧ parses m l a;
  codec_sound r a r' :
    m r = Ok (a, r') → P a = true ∧ ∃ l, w a = Ok l ∧ unread r = l ++ unread r'
}.

Lemma codec_write {A} (m : reader A) w P {C : Codec m w P} a : P a = true → ∃ l, w a = Ok l.
Proof. intros HP. destruct (codec_parse (Codec := C) a HP) as (l & ? & _). eauto. Qed.

Lemma codec_parses {A} {m : reader A} {w P} {C : Codec m w P} a l : P a = true → w a = Ok l → parses m l a.
Proof. intros HP E. destruct (codec_parse (Codec := C) a HP) as (l' & E' & ?).
  rewrite E in E'. by injection E' as ->. Qed.

(** Replay successful reads: each becomes the bytes it consumed. *)
Ltac codec_inv :=
  repeat match goal with
  | H : read_slice _ _ = Ok (_, _) |- _ => apply read_slice_Ok in H as [? ?]
  | H : ?m ?r = Ok (_, ?r') |- _ =>
      lazymatch type of r with Reader => apply codec_sound in H as (? & ? & ? & ?) end
  | H : Ok _ = Ok _ |- _ => injection H as H
  end; subst.

(** Put the consumed bytes together. *)
Ltac codec_done :=
  simpl in *;
  repeat match goal with
  | H : unread ?r = _ |- context [unread ?r] => rewrite H; clear H
  end;
  rewrite ?app_nil_r; repeat (rewrite <- app_assoc; simpl); try done.

(** *** Fixed-width fields *)

#[export] Instance codec_u8 : Codec read_u8 (λ b, Ok [b]) (λ _, true).
Proof.
  split.
  - intros b _. exists [b]. split; [done|]. eapply parses_bind_ret.
    + by apply parses_slice'.
    + apply parses_ret.
  - intros r b r' H. unfold read_u8 in H. inv_rd. split; [done|].
    rename select (read_slice _ _ = _) into Hs. apply read_slice_Ok in Hs as [Hl E].
    exists [nth 0 x Byte.x00]. split; [done|]. rewrite E.
    destruct x as [|? [|]]; simpl in *; try done; unfold lenN in Hl; simpl in Hl; lia.
Qed.

Lemma codec_le (n : nat) :
  Codec (le_val <$> read_slice (N.of_nat n)) (λ v, Ok (le_bytes n v))
        (λ v, (v <=? 256 ^ N.of_nat n - 1)%N).
Proof.
  assert (0 < 256 ^ N.of_nat n)%N as Hpos by (apply N.neq_0_lt_0, N.pow_nonzero; lia).
  split.
  - intros v Hv%N.leb_le. eexists. split; [done|].
    rewrite <- (le_val_le_bytes n v) at 2 by lia.
    apply parses_fmap, parses_slice'. unfold lenN. by rewrite length_le_bytes.
  - intros r v r' H. inv_rd. rename select (read_slice _ _ = _) into Hs.
    apply read_slice_Ok in Hs as [Hl E]. pose proof (le_val_bound x) as Hb.
    rewrite Hl in Hb. split; [apply N.leb_le; lia|]. eexists. split; [done|].
    rewrite E. f_equal. unfold lenN in Hl. apply Nat2N.inj in Hl. subst n.
    by rewrite le_bytes_le_val.
Qed.

#[export] Instance codec_u16 :
  Codec read_u16 (λ v, Ok (write_u16_le v)) (λ v, (v <=? U16_MAX)%N) := codec_le 2.
#[export] Instance codec_u32 : Codec read_u32 (λ v, Ok (write_u32_le v)) u32_bounded :=
  codec_le 4.
#[export] Instance codec_u64 : Codec read_u64 (λ v, Ok (write_u64_le v)) u64_bounded :=
  codec_le 8.

#[export] Instance codec_fixed n :
  Codec (read_fixed n) (λ a, Ok (arr_bytes a)) (λ _, true).
Proof.
  split.
  - intros a _. eexists. split; [done|]. unfold read_fixed.
    rewrite <- (arr_of_bytes a) at 2. apply parses_fmap, parses_slice'.
    by rewrite lenN_arr.
  - intros r a r' H. unfold read_fixed in H. inv_rd.
    rename select (read_slice _ _ = _) into Hs. apply read_slice_Ok in Hs as [Hl E].
    split; [done|]. eexists. split; [done|]. rewrite E. f_equal.
    rewrite arr_bytes_of; [done|]. unfold lenN in Hl. lia.
Qed.

#[export] Instance codec_hash : Codec read_hash (λ a, Ok (arr_bytes a)) (λ _, true) :=
  codec_fixed 32.

(** *** Length-prefixed bytes and identities *)

Lemma checked_u32_Ok field n m :
  checked_u32 field n = Ok m ↔ u32_bounded n = true ∧ m = n.
Proof. unfold checked_u32, u32_bounded. case_match; naive_solver. Qed.

Lemma checked_u32_bounded field n : u32_bounded n = true → checked_u32 field n = Ok n.
Proof. intros. by apply checked_u32_Ok. Qed.

Lemma write_lp_bytes_bounded field l :
  u32_bounded (lenN l) = true → write_lp_bytes field l = Ok (write_u32_le (lenN l) ++ l).
Proof. intros. unfold write_lp_bytes. by rewrite checked_u32_bounded. Qed.

#[export] Instance codec_lp_bytes :
  Codec read_lp_bytes (λ l, Ok (write_u32_le (lenN l) ++ l)) (λ l, u32_bounded (lenN l)).
Proof.
  split.
  - intros l Hl. eexists. split; [done|].
    eapply parses_bind; [by eapply codec_parses; [exact Hl|]|apply parses_slice].
  - intros r l r' H. unfold read_lp_bytes in H. inv_rd.
    rename select (read_u32 _ = _) into Hu. apply codec_sound in Hu as (Hb & ? & [= <-] & E).
    apply read_slice_Ok in H as [<- E']. split; [done|].
    eexists. split; [done|]. by rewrite E, E', app_assoc.
Qed.

Lemma write_identity_valid i :
  Identity_is_valid i = true →
  write_identity i = Ok (IdentityKind.to_u8 (id_kind i)
                         :: write_u16_le (lenN (id_bytes i)) ++ id_bytes i).
Proof.
  intros Hv. pose proof (Identity_is_valid_len _ Hv) as Hlen. unfold IDENTITY_MAX_LEN in Hlen.
  unfold write_identity. rewrite Hv. destruct (N.leb_spec (lenN (id_bytes i)) U16_MAX) as [|H];
    [done|unfold U16_MAX in H; lia].
Qed.

#[export] Instance codec_identity :
  Codec read_identity
        (λ i, Ok (IdentityKind.to_u8 (id_kind i)
                  :: write_u16_le (lenN (id_bytes i)) ++ id_bytes i))
        Identity_is_valid.
Proof.
  split.
  - intros i Hv. pose proof (Identity_is_valid_len _ Hv) as Hlen. unfold IDENTITY_MAX_LEN in Hlen.
    eexists. split; [done|].
    eapply parses_bind_cons; [by apply codec_parses|].
    eapply parses_lift; [apply IdentityKind.identity_kind_from_to_u8|].
    eapply parses_bind.
    { apply codec_parses; [|done]. apply N.leb_le. unfold U16_MAX. lia. }
    apply parses_check; [apply negb_true_iff, N.eqb_neq; lia|].
    apply parses_check; [apply negb_true_iff, N.ltb_ge; unfold IDENTITY_MAX_LEN; lia|].
    apply parses_check.
    { destruct i as [[] bs]; simpl in *; try done. unfold Identity_is_valid in Hv.
      simpl in Hv. by case_match. }
    eapply parses_bind_ret; [apply parses_slice|].
    replace {| id_kind := _ |} with i by (by destruct i).
    apply parses_check; [done|]. apply parses_ret.
  - intros r i r' H. unfold read_identity in H. inv_rd. codec_inv.
    rename select (IdentityKind.from_u8 _ = _) into Hk.
    apply IdentityKind.identity_kind_from_u8_Ok in Hk as ->.
    split; [done|]. eexists. split; [done|]. codec_done.
Qed.

(** *** Counted vectors *)

Section counted.
Context {A : Type} (m : reader A) (w : A → bytes) (P : A → bool).
Context `{C : !Codec m (λ a, Ok (w a)) P}.

Lemma parses_read_n xs :
  forallb P xs = true → parses (read_n (length xs) m) (concat (map w xs)) xs.
Proof.
  induction xs as [|x xs IH]; intros H; [apply parses_ret|].
  simpl in H. apply andb_true_iff in H as [Hx Hxs]. simpl.
  eapply parses_bind; [by eapply codec_parses|].
  eapply parses_bind_ret; [by apply IH|apply parses_ret].
Qed.

Lemma read_n_sound n r xs r' :
  read_n n m r = Ok (xs, r') →
  length xs = n ∧ forallb P xs = true ∧ unread r = concat (map w xs) ++ unread r'.
Proof.
  revert r xs. induction n as [|n IH]; simpl; intros r xs H; inv_rd; [done|].
  rename select (m r = _) into Hx. apply codec_sound in Hx as (Hx & ? & [= <-] & E).
  rename select (read_n n m _ = _) into Hxs. apply IH in Hxs as (<- & Hxs & E').
  simpl. rewrite Hx, Hxs, E, E'. by rewrite app_assoc.
Qed.

Lemma codec_counted max e size :
  (max <= U32_MAX)%N → (∀ a, lenN (w a) = size) →
  Codec (read_counted max e size m)
        (λ xs, Ok (write_u32_le (lenN xs) ++ concat (map w xs)))
        (λ xs, (lenN xs <=? max)%N && forallb P xs).
Proof.
  intros Hmax Hsize. split.
  - intros xs [Hc Hxs]%andb_true_iff. eexists. split; [done|].
    pose proof Hc as Hc'%N.leb_le.
    eapply parses_bind.
    { apply (codec_parses (lenN xs)); [apply N.leb_le; lia|done]. }
    apply parses_check; [apply negb_true_iff, N.ltb_ge; lia|].
    apply parses_check_count.
    + clear - Hsize. induction xs as [|x xs IH]; [done|]. cbn [map concat].
      rewrite lenN_cons, lenN_app, Hsize. lia.
    + unfold lenN. rewrite Nat2N.id. by apply parses_read_n.
  - intros r xs r' H. unfold read_counted in H. inv_rd. codec_inv.
    rename select (read_n _ _ _ = _) into Hn. apply read_n_sound in Hn as (Hl & -> & E).
    match type of Hl with _ = N.to_nat ?c => rename c into count end.
    assert (count = lenN xs) as -> by (unfold lenN; lia).
    split; [|eexists; split; [done|codec_done]].
    rewrite andb_true_r. apply N.leb_le.
    rename select ((max <? _)%N = false) into Hm. by apply N.ltb_ge in Hm.
Qed.
End counted.

#[export] Instance codec_hashes max e :
  TCEq (max <=? U32_MAX)%N true →
  Codec (read_counted max e HASH_LEN read_hash)
        (λ hs, Ok (write_u32_le (lenN hs) ++ write_hashes hs))
        (λ hs, (lenN hs <=? max)%N && forallb (λ _, true) hs).
Proof.
  intros Hmax%TCEq_eq%N.leb_le. apply codec_counted; [apply _|done|].
  intros a. by rewrite lenN_arr.
Qed.

#[export] Instance codec_parents :
  Codec read_parents (λ hs, Ok (write_u32_le (lenN hs) ++ write_hashes hs))
        (λ hs, (lenN hs <=? MAX_PARENTS)%N && forallb (λ _, true) hs).
Proof. by apply codec_hashes. Qed.

#[export] Instance codec_source : Codec read_source (λ s, Ok (write_source s)) (λ _, true).
Proof.
  split.
  - intros [u c] _. eexists. split; [done|].
    eapply parses_bind; [by apply codec_parses|].
    eapply parses_bind_ret; [by apply codec_parses|apply parses_ret].
  - intros r [u c] r' H. unfold read_source in H. inv_rd. codec_inv.
    rename select (_ = {| rs_upstream_id := _ |}) into E. injection E as -> ->.
    split; [done|]. eexists. split; [done|]. unfold write_source. codec_done.
Qed.

#[export] Instance codec_sources :
  Codec (read_counted MAX_REMIX_SOURCES TooManySources (2 * HASH_LEN) read_source)
        (λ ss, Ok (write_u32_le (lenN ss) ++ concat (map write_source ss)))
        (λ ss, (lenN ss <=? MAX_REMIX_SOURCES)%N && forallb (λ _, true) ss).
Proof.
  apply codec_counted; [apply _|done|].
  intros s. unfold write_source. by rewrite lenN_app, !lenN_arr.
Qed.

Lemma forallb_true {A} (l : list A) : forallb (λ _, true) l = true.
Proof. by induction l. Qed.

(** *** Objects *)

(** Consume the next field of the reader with its codec. *)
Ltac parse_field :=
  eapply codec_parses;
  [|first [reflexivity|eassumption]];
  first [reflexivity|eassumption|by rewrite forallb_true, andb_true_r].
Ltac parse_step :=
  first
  [ lazymatch goal with |- parses _ (_ ++ _) _ => eapply parses_bind end; [parse_field|]
  | lazymatch goal with |- parses _ (_ :: _) _ => eapply parses_bind_cons end; [parse_field|]
  | eapply parses_bind_ret; [parse_field|] ].

(** Run a writer on fields that are known to be in bounds. *)
Ltac run_writer :=
  repeat first
    [ progress cbn [mbind result_bind mret result_ret ensure negb]
    | rewrite checked_u32_bounded by assumption
    | rewrite write_lp_bytes_bounded by assumption
    | rewrite write_identity_valid by assumption
    | match goal with H : ?b = true |- context [ensure ?b _] => rewrite H end ];
  reflexivity.

(** A conjunction of checks, each of them known. *)
Ltac apply_andb := repeat (apply andb_true_iff; split); try done; assumption.

(** The bounds that [run_writer] needs, from those [wf] gives. *)
Lemma u32_bounded_le n m : (n <=? m)%N = true → (m <= U32_MAX)%N → u32_bounded n = true.
Proof. intros H%N.leb_le Hm. apply N.leb_le. lia. Qed.

#[export] Instance codec_blob : Codec read_blob write_blob wf_blob.
Proof.
  split.
  - intros [d] Hd. unfold wf_blob, write_blob in *. cbn [blob_data] in *.
    eexists. split; [run_writer|]. unfold read_blob. parse_step. apply parses_ret.
  - intros r b r' H. unfold read_blob in H. inv_rd. codec_inv.
    split; [done|]. eexists. split; [unfold write_blob; cbn [blob_data]; run_writer|done].
Qed.

#[export] Instance codec_delta : Codec read_delta write_delta wf_delta.
Proof.
  split.
  - intros [h n d] [Hn Hd]%andb_true_iff; cbn [d_result_size d_instructions] in *.
    eexists. split; [unfold write_delta; cbn [d_instructions]; run_writer|].
    unfold read_delta. do 3 parse_step. apply parses_ret.
  - intros r b r' H. unfold read_delta in H. inv_rd. codec_inv.
    split; [by apply andb_true_iff|].
    eexists. split; [unfold write_delta; cbn [d_instructions]; run_writer|]. codec_done.
Qed.

#[export] Instance codec_chunked_blob :
  Codec read_chunked_blob write_chunked_blob wf_chunked_blob.
Proof.
  split.
  - intros [t c hs] [[Ht Hc]%andb_true_iff Hn]%andb_true_iff; cbn in Ht, Hc, Hn.
    assert (u32_bounded (lenN hs) = true) by (by eapply u32_bounded_le).
    eexists. split; [unfold write_chunked_blob; cbn [cb_chunks]; run_writer|].
    unfold read_chunked_blob; cbn [cb_total_size cb_chunk_size cb_chunks].
    do 3 parse_step. apply parses_ret.
  - intros r b r' H. unfold read_chunked_blob in H. inv_rd. codec_inv. inv_rd.
    rename select ((_ <=? MAX_CHUNKS)%N = true) into Hn. pose proof Hn as Hn'.
    eapply u32_bounded_le in Hn'; [|done].
    split; [by apply_andb|].
    eexists. split; [unfold write_chunked_blob; cbn [cb_chunks]; run_writer|]. codec_done.
Qed.

#[export] Instance codec_commit : Codec read_commit write_commit wf_commit.
Proof.
  split.
  - intros [h ps a s m t mh cd sg]
      [[[Hn Ha]%andb_true_iff Hm]%andb_true_iff Ht]%andb_true_iff; cbn in Hn, Ha, Hm, Ht.
    assert (u32_bounded (lenN ps) = true) by (by eapply u32_bounded_le).
    eexists. split; [unfold write_commit; cbn [c_parents c_author c_message]; run_writer|].
    unfold read_commit; cbn [c_tree_hash c_parents c_author c_signer c_message c_timestamp
      c_message_hash c_content_digest c_signature].
    rewrite (app_assoc (write_u32_le _) (write_hashes _)).
    do 9 parse_step. apply parses_ret.
  - intros r b r' H. unfold read_commit in H. inv_rd. codec_inv. inv_rd.
    rename select ((_ <=? MAX_PARENTS)%N = true) into Hn. pose proof Hn as Hn'.
    eapply u32_bounded_le in Hn'; [|done].
    split; [by apply_andb|].
    eexists. split; [unfold write_commit; cbn [c_parents c_author c_message]; run_writer|].
    codec_done.
Qed.

Lemma source_pair_good a b : negb (source_pair_bad a b) = sources_ordered a b.
Proof.
  unfold source_pair_bad, sources_ordered. destruct (hash_cmp _ _); try done.
  rewrite bytes_leb_ltb, negb_involutive. done.
Qed.

Lemma source_pairs_good ss :
  windows2_all (λ a b, negb (source_pair_bad a b)) ss = windows2_all sources_ordered ss.
Proof.
  induction ss as [|a [|b ss] IH]; [done..|].
  cbn [windows2_all] in *. by rewrite source_pair_good, IH.
Qed.

#[export] Instance codec_remix : Codec read_remix write_remix wf_remix.
Proof.
  split.
  - intros [h ps ss a s m t sg] [[[[[Hn Hk]%andb_true_iff Hs]%andb_true_iff
      Ha]%andb_true_iff Hm]%andb_true_iff Ht]%andb_true_iff; cbn in Hn, Hk, Hs, Ha, Hm, Ht.
    assert (u32_bounded (lenN ps) = true) by (by eapply u32_bounded_le).
    assert (u32_bounded (lenN ss) = true) by (by eapply u32_bounded_le).
    eexists. split;
      [unfold write_remix; cbn [r_parents r_sources r_author r_message]; run_writer|].
    unfold read_remix; cbn [r_tree_hash r_parents r_sources r_author r_signer r_message
      r_timestamp r_signature].
    rewrite (app_assoc (write_u32_le _) (write_hashes _)).
    rewrite (app_assoc (write_u32_le _) (concat _)).
    do 8 parse_step. apply parses_check; [by rewrite source_pairs_good|]. apply parses_ret.
  - intros r b r' H. unfold read_remix in H. inv_rd. codec_inv. inv_rd.
    rename select ((_ <=? MAX_PARENTS)%N = true) into Hn. pose proof Hn as Hn'.
    eapply u32_bounded_le in Hn'; [|done].
    rename select ((_ <=? MAX_REMIX_SOURCES)%N = true) into Hk. pose proof Hk as Hk'.
    eapply u32_bounded_le in Hk'; [|done].
    rename select (windows2_all _ _ = true) into Hs. rewrite source_pairs_good in Hs.
    split; [by apply_andb|].
    eexists. split;
      [unfold write_remix; cbn [r_parents r_sources r_author r_message]; run_writer|].
    codec_done.
Qed.

Lemma Tag_name_is_valid_iff t :
  Tag_name_is_valid t = true ↔
  (lenN (tag_name t) =? 0)%N || (TAG_NAME_MAX_LEN <? lenN (tag_name t))%N = false ∧
  existsb is_forbidden_byte (tag_name t) = false.
Proof. rewrite <- (negb_true_iff (existsb _ _)). unfold Tag_name_is_valid. case_match; naive_solver. Qed.

Lemma tag_name_u32 n :
  (n =? 0)%N || (TAG_NAME_MAX_LEN <? n)%N = false → u32_bounded n = true.
Proof.
  intros [_ H%N.ltb_ge]%orb_false_iff. apply N.leb_le.
  unfold TAG_NAME_MAX_LEN, U32_MAX in *. lia.
Qed.

Lemma check_tag_target_type_Ok t u :
  check_tag_target_type t = Ok u ↔ negb (bool_decide (t = ObjectType.Delta)) = true.
Proof. destruct u. by destruct t. Qed.

#[export] Instance codec_tag : Codec read_tag write_tag wf_tag.
Proof.
  split.
  - intros [h k n i s m t sg] [[[[Hn Hk]%andb_true_iff Hi]%andb_true_iff
      Hm]%andb_true_iff Ht]%andb_true_iff; cbn in Hk, Hi, Hm, Ht.
    pose proof Hn as [Hl Hc]%Tag_name_is_valid_iff; cbn in Hl, Hc.
    pose proof (tag_name_u32 _ Hl). apply (check_tag_target_type_Ok _ ()) in Hk.
    eexists. split.
    { unfold write_tag. rewrite Hn. cbn [tag_target_type tag_name tag_tagger tag_message].
      rewrite Hk. run_writer. }
    unfold read_tag; cbn [tag_target tag_target_type tag_name tag_tagger tag_signer
      tag_message tag_timestamp tag_signature].
    rewrite <- (app_assoc (write_u32_le (lenN n))).
    do 2 parse_step. eapply parses_lift; [apply ObjectType.object_type_from_to_u8|].
    eapply parses_lift; [done|]. parse_step. apply parses_check; [by rewrite Hl|].
    eapply parses_bind; [apply parses_slice|]. apply parses_check; [by rewrite Hc|].
    do 5 parse_step. apply parses_ret.
  - intros r b r' H. unfold read_tag in H. inv_rd. codec_inv. inv_rd.
    rename select (check_tag_target_type _ = _) into Hk. pose proof Hk as Hk'.
    rename select (ObjectType.from_u8 _ = _) into E. apply ObjectType.object_type_from_u8_Ok in E as ->.
    apply check_tag_target_type_Ok in Hk'.
    match goal with |- context [wf_tag ?t] => set (tag := t) end.
    assert (Tag_name_is_valid tag = true) as Hn by (by apply Tag_name_is_valid_iff).
    split; [by apply_andb|].
    eexists. split.
    { unfold write_tag. rewrite Hn. unfold tag.
      cbn [tag_target_type tag_name tag_tagger tag_message]. rewrite Hk. run_writer. }
    codec_done.
Qed.

(** *** Trees *)

Definition after (prev : option bytes) (name : bytes) : bool :=
  match prev with Some p => bytes_ltb p name | None => true end.

(** The name order the entry loop enforces, from [prev] on. *)
Fixpoint ordered_after (prev : option bytes) (es : list TreeEntry) : bool :=
  match es with
  | [] => true
  | e :: es => after prev (te_name e) && ordered_after (Some (te_name e)) es
  end.

Lemma after_check prev name :
  match prev with Some p => negb (bytes_leb name p) | None => true end = after prev name.
Proof. destruct prev; [|done]. by rewrite bytes_leb_ltb, negb_involutive. Qed.

Lemma ordered_after_sorted es : ordered_after None es = Tree_is_sorted {| tree_entries := es |}.
Proof.
  unfold Tree_is_sorted; cbn [tree_entries].
  destruct es as [|e es]; [done|]. cbn [ordered_after after andb].
  revert e. induction es as [|e' es IH]; intros e; [done|].
  cbn [ordered_after windows2_all]. by rewrite IH.
Qed.

Lemma validate_name_len name : validate_name name = true → (1 <= lenN name <= 255)%N.
Proof.
  unfold validate_name. case_match eqn:E; [done|]. intros _.
  apply orb_false_iff in E as [E1%N.eqb_neq E2%N.ltb_ge]. lia.
Qed.

Lemma validate_name_u32 name : validate_name name = true → u32_bounded (lenN name) = true.
Proof. intros ?%validate_name_len. apply N.leb_le. unfold U32_MAX. lia. Qed.

(** The bytes of an entry. *)
Definition entry_bytes (e : TreeEntry) : bytes :=
  (write_u32_le (lenN (te_name e)) ++ te_name e)
  ++ EntryMode.to_u8 (te_mode e) :: arr_bytes (te_hash e).

Lemma write_tree_entries_valid es :
  forallb (λ e, validate_name (te_name e)) es = true →
  write_tree_entries es = Ok (concat (map entry_bytes es)).
Proof.
  induction es as [|e es IH]; [done|]. cbn [forallb write_tree_entries map concat].
  intros [He Hes]%andb_true_iff. rewrite (IH Hes). unfold write_tree_entry.
  by rewrite write_lp_bytes_bounded by (by apply validate_name_u32).
Qed.

Lemma entry_bytes_len e : validate_name (te_name e) = true → (38 <= lenN (entry_bytes e))%N.
Proof.
  intros H%validate_name_len. unfold entry_bytes. rewrite !lenN_app, lenN_cons, lenN_arr.
  unfold write_u32_le. unfold lenN at 1. rewrite length_le_bytes. lia.
Qed.

Lemma entries_bytes_len es :
  forallb (λ e, validate_name (te_name e)) es = true →
  (lenN es * (4 + 1 + 1 + HASH_LEN) <= lenN (concat (map entry_bytes es)))%N.
Proof.
  induction es as [|e es IH]; [done|]. cbn [forallb map concat].
  intros [He%entry_bytes_len Hes]%andb_true_iff. specialize (IH Hes).
  rewrite lenN_cons, lenN_app. unfold HASH_LEN in *. lia.
Qed.

Lemma parses_tree_entries es : ∀ prev,
  forallb (λ e, validate_name (te_name e)) es = true → ordered_after prev es = true →
  parses (read_tree_entries (length es) prev) (concat (map entry_bytes es)) es.
Proof.
  induction es as [|[name mode h] es IH]; intros prev; [intros; apply parses_ret|].
  cbn [forallb ordered_after te_name length read_tree_entries map concat].
  intros [Hv Hes]%andb_true_iff [Ho Hos]%andb_true_iff.
  pose proof (validate_name_u32 _ Hv).
  unfold entry_bytes at 1. cbn [te_name te_mode te_hash].
  rewrite <- (app_assoc (write_u32_le _ ++ name)). parse_step.
  apply parses_check; [done|]. apply parses_check; [by rewrite after_check|].
  change ((?x :: ?l) ++ ?k) with (x :: (l ++ k)). parse_step.
  eapply parses_lift; [apply EntryMode.entry_mode_from_to_u8|]. parse_step.
  eapply parses_bind_ret; [by apply IH|apply parses_ret].
Qed.

Lemma tree_entries_sound n : ∀ prev r es r',
  read_tree_entries n prev r = Ok (es, r') →
  length es = n ∧ forallb (λ e, validate_name (te_name e)) es = true ∧
  ordered_after prev es = true ∧ unread r = concat (map entry_bytes es) ++ unread r'.
Proof.
  induction n as [|n IH]; intros prev r es r' H; cbn [read_tree_entries] in H; inv_rd; [done|].
  rename select (read_tree_entries _ _ _ = _) into Hes. codec_inv.
  apply IH in Hes as (<- & Hv & Ho & E). rewrite after_check in *.
  rename select (EntryMode.from_u8 _ = _) into Hm. apply EntryMode.entry_mode_from_u8_Ok in Hm as ->.
  split; [done|]. cbn [forallb ordered_after te_name map concat].
  split; [by apply_andb|]. split; [by apply_andb|].
  unfold entry_bytes at 1. cbn [te_name te_mode te_hash]. codec_done.
Qed.

#[export] Instance codec_tree : Codec read_tree write_tree wf_tree.
Proof.
  split.
  - intros [es] [[Hn Hv]%andb_true_iff Ho]%andb_true_iff; cbn in Hn, Hv.
    assert (u32_bounded (lenN es) = true) by (by eapply u32_bounded_le).
    rewrite <- ordered_after_sorted in Ho.
    eexists. split.
    { unfold write_tree; cbn [tree_entries]. rewrite write_tree_entries_valid by done. run_writer. }
    unfold read_tree. parse_step. apply N.leb_le in Hn.
    apply parses_check; [by apply negb_true_iff, N.ltb_ge|].
    apply parses_check_count; [by apply entries_bytes_len|].
    eapply parses_bind_ret; [|apply parses_ret].
    unfold lenN. rewrite Nat2N.id. by apply parses_tree_entries.
  - intros r t r' H. unfold read_tree in H. inv_rd.
    rename select (read_tree_entries _ _ _ = _) into Hes. codec_inv.
    apply tree_entries_sound in Hes as (Hl & Hv & Ho & E). rewrite ordered_after_sorted in Ho.
    match type of Hl with _ = N.to_nat ?c => rename c into count end.
    match type of E with _ = concat (map _ ?l) ++ _ => rename l into es end.
    assert (count = lenN es) as -> by (unfold lenN; lia).
    assert ((lenN es <=? MAX_TREE_ENTRIES)%N = true) as Hn
      by (rename select ((_ <? _)%N = false) into Hn; apply N.leb_le; by apply N.ltb_ge in Hn).
    split; [by apply_andb|]. eexists. split.
    { unfold write_tree; cbn [tree_entries]. rewrite write_tree_entries_valid by done. run_writer. }
    codec_done.
Qed.

(** ** Whole objects *)

Lemma codec_fmap_parse {A B} (f : A → B) {m : reader A} {w P} {C : Codec m w P} a :
  P a = true → ∃ l, w a = Ok l ∧ parses (f <$> m) l (f a).
Proof.
  intros HP. destruct (codec_parse (Codec := C) a HP) as (l & E & Hl). exists l.
  split; [done|by apply parses_fmap].
Qed.

Lemma codec_fmap_sound {A B} (f : A → B) {m : reader A} {w P} {C : Codec m w P} r b r' :
  (f <$> m) r = Ok (b, r') →
  ∃ a, b = f a ∧ P a = true ∧ ∃ l, w a = Ok l ∧ unread r = l ++ unread r'.
Proof.
  intros H. inv_rd. rename select (m r = _) into Hm.
  destruct (codec_sound (Codec := C) _ _ _ Hm) as [? ?]. eauto.
Qed.

Lemma body_parse o :
  wf o = true → ∃ l, write_body o = Ok l ∧ parses (read_body (object_type o)) l o.
Proof.
  destruct o; cbn [wf write_body object_type read_body]; intros Hw;
    (eapply codec_fmap_parse; [apply _|done]).
Qed.

Lemma body_sound tag r o r' :
  read_body tag r = Ok (o, r') →
  object_type o = tag ∧ wf o = true ∧
  ∃ l, write_body o = Ok l ∧ unread r = l ++ unread r'.
Proof.
  destruct tag; cbn [read_body]; intros H;
    (eapply codec_fmap_sound in H as (a & -> & ?); [done|apply _]).
Qed.

(** The six bytes every object starts with. *)
Lemma prologue_split data tag :
  (PROLOGUE_LEN <= lenN data)%N → nth 0 data Byte.x00 = ObjectType.to_u8 tag →
  take 4 (drop 1 data) = MAGIC → nth 5 data Byte.x00 = SCHEMA_VERSION →
  data = write_prologue tag ++ drop 6 data.
Proof.
  unfold PROLOGUE_LEN, lenN. intros Hl H0 H1 H5.
  destruct data as [|b0 [|b1 [|b2 [|b3 [|b4 [|b5 data]]]]]]; simpl in *; try lia.
  unfold MAGIC in H1. simpl in H1.
  injection H1 as -> -> -> ->. by subst.
Qed.

(** [deserialize] past a valid prologue. *)
Definition deserialize_rest (tag : ObjectType.t) (body : bytes) : result MkitError Object :=
  '(obj, r) ← read_body tag (Reader_new body);
  _ ← ensure (remaining r =? 0)%N TrailingData;
  mret obj.

Lemma deserialize_prologue tag body :
  deserialize (write_prologue tag ++ body) = deserialize_rest tag body.
Proof.
  unfold deserialize. replace (PROLOGUE_LEN <=? _)%N with true; [by destruct tag|].
  symmetry. apply N.leb_le. rewrite lenN_app. change (lenN (write_prologue _)) with 6%N.
  unfold PROLOGUE_LEN. lia.
Qed.

Lemma deserialize_parses o l :
  write_body o = Ok l → parses (read_body (object_type o)) l o →
  ∀ k, deserialize (write_prologue (object_type o) ++ l ++ k) =
       if bool_decide (k = []) then Ok o else Err TrailingData.
Proof.
  intros E Hp k. destruct (Hp (Reader_new (l ++ k)) k) as (r' & Hr & Hk); [done|].
  rewrite deserialize_prologue. unfold deserialize_rest. rewrite Hr.
  cbn [mbind result_bind]. rewrite remaining_unread, Hk. by destruct k.
Qed.

Lemma deserialize_Ok_prologue data o :
  deserialize data = Ok o → ∃ tag body, data = write_prologue tag ++ body.
Proof.
  unfold deserialize.
  intros ([] & Hl%ensure_Ok%N.leb_le & (tag & Ht%ObjectType.object_type_from_u8_Ok & ([] & Hm%ensure_Ok &
    ([] & Hv%ensure_Ok & _)%bind_Ok)%bind_Ok)%bind_Ok)%bind_Ok.
  exists tag, (drop 6 data). apply prologue_split; [done..| |].
  - by apply bytes_eqb_eq.
  - by apply bool_decide_eq_true in Hv.
Qed.

Lemma deserialize_inv data o :
  deserialize data = Ok o →
  wf o = true ∧ ∃ l, write_body o = Ok l ∧ data = write_prologue (object_type o) ++ l.
Proof.
  intros H. destruct (deserialize_Ok_prologue _ _ H) as (tag & body & ->).
  rewrite deserialize_prologue in H. unfold deserialize_rest in H.
  apply bind_Ok in H as ([o' r] & Hr & H). inv_ok. subst.
  apply body_sound in Hr as (<- & Hw & l & E & Hl). split; [done|]. exists l.
  split; [done|]. change (unread (Reader_new body)) with body in Hl.
  rewrite remaining_unread in *. rename select ((_ =? 0)%N = true) into H0.
  apply N.eqb_eq in H0. by rewrite Hl, (nil_length_inv (unread r)), app_nil_r
    by (unfold lenN in H0; lia).
Qed.

(** Every well-formed object has an encoding, and a decoder given that
    encoding with anything after it refuses the input as trailing data. *)
Theorem serialize_wf_total (o : Object) (k : bytes) (Hw : wf o = true) :
  ∃ data, serialize o = Ok data ∧ deserialize data = Ok o ∧
          (k ≠ [] → deserialize (data ++ k) = Err TrailingData).
Proof.
  destruct (body_parse o Hw) as (l & E & Hp).
  pose proof (deserialize_parses o l E Hp) as H.
  exists (write_prologue (object_type o) ++ l). split; [unfold serialize; by rewrite E|].
  split.
  - specialize (H []). by rewrite app_nil_r in H.
  - intros Hk. rewrite <- app_assoc, H. by rewrite bool_decide_eq_false_2.
Qed.

(** Decoding inverts encoding. *)
Lemma serialize_deserialize o data :
  wf o = true → serialize o = Ok data → deserialize data = Ok o.
Proof.
  intros Hw H. unfold serialize in H. destruct (body_parse o Hw) as (l & E & Hp).
  rewrite E in H. injection H as <-. pose proof (deserialize_parses o l E Hp []) as Hd.
  by rewrite app_nil_r in Hd.
Qed.

(** C1: the object encoding is a bijection between the well-formed objects and
    the byte strings the decoder accepts: [deserialize] returns [o] exactly on
    the bytes [serialize] gives for a well-formed [o]. So decoding inverts
    encoding, every accepted string is the canonical encoding of what it
    decodes to, and a decoded object satisfies every structural rule (entry
    names and their order, identity rules, source order, tag names, counts). *)
Theorem deserialize_iff (data : bytes) (o : Object) :
  deserialize data = Ok o ↔ wf o = true ∧ serialize o = Ok data.
Proof.
  unfold serialize. split.
  - intros (Hw & l & E & ->)%deserialize_inv. split; [done|]. by rewrite E.
  - intros [Hw H]. by apply serialize_deserialize.
Qed.

(** No accepted string is a proper prefix of another one: a truncated object is
    refused wherever it is cut. *)
Lemma deserialize_prefix_free a k o o' :
  deserialize a = Ok o → deserialize (a ++ k) = Ok o' → k = [] ∧ o' = o.
Proof.
  intros (Hw & l & E & ->)%deserialize_inv.
  destruct (body_parse o Hw) as (l' & E' & Hp).
  rewrite E in E'. injection E' as <-. rewrite <- app_assoc.
  rewrite (deserialize_parses o l E Hp k).
  case_bool_decide as Hk; [|done]. by intros [= ->].
Qed.

(** ** Sizes *)

Lemma lenN_le_bytes n v : lenN (le_bytes n v) = N.of_nat n.
Proof. unfold lenN. by rewrite length_le_bytes. Qed.

Lemma lenN_write_lp field l w : write_lp_bytes field l = Ok w → lenN w = (4 + lenN l)%N.
Proof.
  unfold write_lp_bytes. intros H. inv_ok. subst. unfold write_u32_le.
  by rewrite lenN_app, lenN_le_bytes.
Qed.

Lemma lenN_write_identity i w :
  write_identity i = Ok w → lenN w = (1 + 2 + lenN (id_bytes i))%N.
Proof.
  unfold write_identity. intros H. inv_ok. subst. unfold write_u16_le.
  rewrite lenN_cons, lenN_app, lenN_le_bytes. lia.
Qed.

Lemma lenN_write_hashes hs : lenN (write_hashes hs) = (lenN hs * 32)%N.
Proof.
  unfold write_hashes. induction hs as [|h hs IH]; [done|]. cbn [map concat].
  rewrite lenN_app, lenN_arr, IH, lenN_cons. lia.
Qed.

Lemma lenN_write_sources ss : lenN (concat (map write_source ss)) = (lenN ss * 64)%N.
Proof.
  induction ss as [|s ss IH]; [done|]. cbn [map concat]. unfold write_source at 1.
  rewrite !lenN_app, !lenN_arr, IH, lenN_cons. lia.
Qed.

Lemma lenN_write_tree_entries es w :
  write_tree_entries es = Ok w →
  lenN w = foldr N.add 0%N (map (λ e, 4 + lenN (te_name e) + 1 + 32)%N es).
Proof.
  revert w. induction es as [|e es IH]; intros w H; cbn [write_tree_entries] in H.
  { by injection H as <-. }
  apply bind_Ok in H as (w1 & H1 & (w2 & H2 & <-%ret_Ok)%bind_Ok).
  apply bind_Ok in H1 as (l & Hl%lenN_write_lp & <-%ret_Ok).
  cbn [map foldr]. rewrite !lenN_app, lenN_cons, lenN_arr, (IH _ H2), Hl. lia.
Qed.

(** Compute the length of written fields. *)
Ltac measure :=
  repeat match goal with
  | H : write_identity _ = Ok _ |- _ => apply lenN_write_identity in H
  | H : write_lp_bytes _ _ = Ok _ |- _ => apply lenN_write_lp in H
  end;
  unfold write_u16_le, write_u32_le, write_u64_le;
  rewrite ?lenN_app, ?lenN_cons, ?lenN_app, ?lenN_le_bytes, ?lenN_arr,
    ?lenN_write_hashes, ?lenN_write_sources; lia.

Lemma serialize_len (o : Object) (data : bytes)
    (H : serialize o = Ok data) : lenN data = (PROLOGUE_LEN + estimated_body_len o)%N.
Proof.
  unfold serialize in H. apply bind_Ok in H as (l & H & <-%ret_Ok).
  rewrite lenN_app. change (lenN (write_prologue _)) with PROLOGUE_LEN. f_equal.
  destruct o; cbn [write_body estimated_body_len] in *.
  - by apply lenN_write_lp in H.
  - unfold write_tree in H. inv_ok. subst.
    rename select (write_tree_entries _ = _) into Hes.
    unfold write_u32_le. by rewrite lenN_app, lenN_le_bytes, (lenN_write_tree_entries _ _ Hes).
  - unfold write_commit in H. inv_ok. subst. measure.
  - unfold write_remix in H. inv_ok. subst. measure.
  - unfold write_chunked_blob in H. inv_ok. subst. measure.
  - unfold write_delta in H. inv_ok. subst. measure.
  - unfold write_tag in H. inv_ok. subst. measure.
Qed.

(** [estimated_body_len], the size [serialize] reserves before writing, is
    exact for every object kind: a successful encoding is that many bytes after
    the six of the prologue. *)
Theorem estimated_body_len_exact (o : Object) (data : bytes)
    (H : serialize o = Ok data) : lenN data = (PROLOGUE_LEN + estimated_body_len o)%N.
Proof. by apply serialize_len. Qed.

(** A large blob can be hashed without being copied: [blob_prologue] of its
    length, followed by its bytes, is what [serialize] gives, and the two refuse
    the same lengths with the same error. *)
Theorem blob_prologue_spec (b : Blob) :
  serialize (OBlob b) =
  (prologue ← blob_prologue (lenN (blob_data b)); mret (prologue ++ blob_data b)).
Proof.
  unfold serialize, write_body, write_blob, write_lp_bytes, blob_prologue.
  by destruct (checked_u32 _ _).
Qed.

(** The writer checks less than the reader. A tree whose entry is named
    [..] is encoded without complaint, and the encoding is refused by the
    decoder. *)
Theorem serialize_unchecked_name :
  let t := OTree {| tree_entries :=
             [{| te_name := b# ".."; te_mode := EntryMode.Blob; te_hash := ZERO |}] |} in
  ∃ data, serialize t = Ok data ∧ deserialize data = Err InvalidEntryName.
Proof.
  intros t. exists (default [] (to_option (serialize t))).
  split; vm_compute; reflexivity.
Qed.

(** ** A concrete tree *)

Definition example_tree : Object := OTree {| tree_entries :=
  [{| te_name := b# "README.md"; te_mode := EntryMode.Blob; te_hash := ZERO |};
   {| te_name := b# "src"; te_mode := EntryMode.Tree; te_hash := ZERO |}] |}.

Lemma serialize_wf_total_witness :
  wf example_tree = true ∧
  ∃ data, serialize example_tree = Ok data ∧ deserialize data = Ok example_tree ∧
          ([Byte.x00] ≠ [] → deserialize (data ++ [Byte.x00]) = Err TrailingData).
Proof. split; [vm_compute; reflexivity|]. apply serialize_wf_total. vm_compute. reflexivity. Defined.

Lemma estimated_body_len_exact_witness :
  ∃ data, serialize example_tree = Ok data ∧
          lenN data = (PROLOGUE_LEN + estimated_body_len example_tree)%N.
Proof.
  exists (default [] (to_option (serialize example_tree))).
  assert (serialize example_tree = Ok (default [] (to_option (serialize example_tree)))) as E
    by (vm_compute; reflexivity).
  split; [exact E|]. exact (estimated_body_len_exact _ _ E).
Defined.
