(* ===== verification/Delta.v ===== *)
(** * Delta streams: [rust/crates/mkit-core/src/delta.rs]

    The writer [encode] (block index, rolling hash, greedy copies, pending
    inserts) and the reader [decode] as state machines over the source's loop
    variables, each a [loop] with fuel. The seeded hasher of the source's index
    only decides the bucket layout of a [HashMap], so the index is a [gmap].
    [Op], [op_bytes] and [op_apply] are the abstract instruction set the two are
    proved against. *)

From S2P Require Import Prelude Object.

Definition corrupt (kind : DeltaCorruption) : MkitError := DeltaCorrupt kind.

Definition STREAM_VERSION : byte := Byte.x01.
Definition OP_COPY : byte := Byte.x80.
Definition MAX_INSERT_LEN : nat := 127.
Definition HEADER_LEN : nat := 1 + 4 + 4.
Definition BLOCK_SIZE : nat := 16.
Definition CAP_MULTIPLIER : N := 256.

Definition compute_cap_hint (result_len _base_len stream_len : N) : N :=
  N.min result_len (saturating_mul stream_len CAP_MULTIPLIER).

Definition check_length_bounds (base_len result_len : N) : result MkitError unit :=
  _ ← ensure (base_len <=? U32_MAX)%N (DeltaLengthOverflow "base_len" base_len);
  ensure (result_len <=? U32_MAX)%N (DeltaLengthOverflow "result_len" result_len).

(** ** Emitting *)

Definition write_header (base_len result_len : N) : bytes :=
  STREAM_VERSION :: le_bytes 4 base_len ++ le_bytes 4 result_len.

Definition emit_copy (out : bytes) (offset length : N) : bytes :=
  out ++ OP_COPY :: le_bytes 4 offset ++ le_bytes 2 length.

(** [flush_insert(out, buf)], which leaves [buf] empty. *)
Definition flush_insert (out buf : bytes) : bytes :=
  match buf with
  | [] => out
  | _ => out ++ n2b (lenN buf) :: buf
  end.

(** ** The block hash, in wrapping [u64] arithmetic *)

Definition ROLL_M : N := 0x9E3779B97F4A7C15.

Definition ROLL_M_POW_BLOCK : N :=
  Nat.iter BLOCK_SIZE (λ r, wrapping_mul r ROLL_M) 1%N.

Definition block_hash (block : bytes) : N :=
  foldl (λ h b, wrapping_add (wrapping_mul h ROLL_M) (b2n b)) 0%N block.

Definition roll_forward (h : N) (old new : byte) : N :=
  wrapping_add
    (wrapping_sub (wrapping_mul h ROLL_M) (wrapping_mul (b2n old) ROLL_M_POW_BLOCK))
    (b2n new).

(** ** Encoding *)

(** The loop that fills the index: blocks [i .. i + n], first seen wins. *)
Fixpoint index_blocks (base : bytes) (i n : nat) (index : gmap N N) : gmap N N :=
  match n with
  | O => index
  | S n =>
      let pos := i * BLOCK_SIZE in
      if (N.of_nat pos <=? U32_MAX)%N then
        let h := block_hash (slice pos BLOCK_SIZE base) in
        index_blocks base (S i) n
          (match index !! h with Some _ => index | None => <[h := N.of_nat pos]> index end)
      else index
  end.

Definition build_index (base : bytes) : gmap N N :=
  index_blocks base 0 (length base / BLOCK_SIZE) ∅.

(** The greedy forward extension; [fuel] is what is left of [result]. *)
Fixpoint extend_match (fuel : nat) (base result : bytes) (base_pos ti match_len : nat) : nat :=
  match fuel with
  | O => match_len
  | S fuel =>
      if (base_pos + match_len <? length base)%nat
         && (ti + match_len <? length result)%nat
         && bool_decide (base !! (base_pos + match_len) = result !! (ti + match_len))
         && (N.of_nat match_len <? U16_MAX)%N
      then extend_match fuel base result base_pos ti (S match_len)
      else match_len
  end.

(** The variables of the scan. *)
Record Scan := {
  s_out : bytes;
  s_insert_buf : bytes;
  s_ti : nat;
  s_window_hash : option N
}.

(** What a window of [result] matched in the base, if anything. *)
Definition find_match (base target_block : bytes) (index : gmap N N) (h : N) : option nat :=
  match index !! h with
  | Some base_pos =>
      let base_pos := N.to_nat base_pos in
      if bytes_eqb (slice base_pos BLOCK_SIZE base) target_block then Some base_pos else None
  | None => None
  end.

(** The bytes of the target under the window at [ti] and the byte at [i]. *)
Definition byte_at (l : bytes) (i : nat) : byte := nth i l Byte.x00.

(** The miss branch: buffer one byte, roll the window, flush a full buffer. *)
Definition scan_miss (result : bytes) (s : Scan) (window_hash : option N) : Scan :=
  let ti := s_ti s in
  let insert_buf := s_insert_buf s ++ [byte_at result ti] in
  let window_hash :=
    h ← window_hash;
    if (ti + BLOCK_SIZE <? length result)%nat
    then Some (roll_forward h (byte_at result ti) (byte_at result (ti + BLOCK_SIZE)))
    else None in
  let full := (length insert_buf =? MAX_INSERT_LEN)%nat in
  {| s_out := if full then flush_insert (s_out s) insert_buf else s_out s;
     s_insert_buf := if full then [] else insert_buf;
     s_ti := S ti;
     s_window_hash := window_hash |}.

(** The match branch: flush the pending insert, extend, emit the copy. *)
Definition scan_copy (base result : bytes) (s : Scan) (base_pos : nat) : Scan :=
  let out := flush_insert (s_out s) (s_insert_buf s) in
  let match_len :=
    extend_match (length result - s_ti s) base result base_pos (s_ti s) BLOCK_SIZE in
  {| s_out := emit_copy out (N.of_nat base_pos) (N.of_nat match_len);
     s_insert_buf := [];
     s_ti := s_ti s + match_len;
     s_window_hash := None |}.

(** One iteration of the scan; leaving the loop flushes the pending insert. *)
Definition scan_step (base result : bytes) (index : gmap N N) (s : Scan) : Scan + bytes :=
  if (s_ti s <? length result)%nat then
    if (s_ti s + BLOCK_SIZE <=? length result)%nat then
      let target_block := slice (s_ti s) BLOCK_SIZE result in
      let h := default (block_hash target_block) (s_window_hash s) in
      match find_match base target_block index h with
      | Some base_pos => inl (scan_copy base result s base_pos)
      | None => inl (scan_miss result s (Some h))
      end
    else inl (scan_miss result s None)
  else inr (flush_insert (s_out s) (s_insert_buf s)).

(** [None] stands for a scan that ran out of fuel; [encode_total] excludes it. *)
Definition encode (base result : bytes) : option (Prelude.result MkitError bytes) :=
  match check_length_bounds (lenN base) (lenN result) with
  | Err e => Some (Err e)
  | Ok _ =>
      let s := {| s_out := write_header (lenN base) (lenN result);
                  s_insert_buf := []; s_ti := 0; s_window_hash := None |} in
      Ok <$> loop (S (length result)) (scan_step base result (build_index base)) s
  end.

(** ** Decoding *)

Record Decoder := { dc_pos : nat; dc_out : bytes }.

Definition emit_checked (out : bytes) (length : nat) (result_len : N)
    : result MkitError unit :=
  ensure (lenN out + N.of_nat length <=? result_len)%N
    (corrupt (ResultLenOverrun (lenN out) (N.of_nat length) result_len)).

(** The COPY branch, after the opcode. *)
Definition decode_copy (base stream : bytes) (result_len : N) (op : byte) (pos : nat)
    (out : bytes) : result MkitError Decoder :=
  _ ← ensure (N.land (b2n op) 0x7F =? 0)%N (corrupt (ReservedOpcodeBits op));
  _ ← ensure (pos + 6 <=? length stream)%nat UnexpectedEof;
  let offset := le_val (slice pos 4 stream) in
  let len := le_val (slice (pos + 4) 2 stream) in
  _ ← ensure (negb (len =? 0)%N) (corrupt ZeroLengthCopy);
  _ ← ensure (offset + len <=? lenN base)%N (corrupt (CopyPastBase offset len (lenN base)));
  _ ← emit_checked out (N.to_nat len) result_len;
  mret {| dc_pos := pos + 4 + 2;
          dc_out := out ++ slice (N.to_nat offset) (N.to_nat len) base |}.

(** The INSERT branch, after the opcode. *)
Definition decode_insert (stream : bytes) (result_len : N) (op : byte) (pos : nat)
    (out : bytes) : result MkitError Decoder :=
  let len := N.to_nat (b2n op) in
  _ ← ensure (pos + len <=? length stream)%nat UnexpectedEof;
  _ ← emit_checked out len result_len;
  mret {| dc_pos := pos + len; dc_out := out ++ slice pos len stream |}.

Definition decode_op (base stream : bytes) (result_len : N) (d : Decoder)
    : result MkitError Decoder :=
  let op := byte_at stream (dc_pos d) in
  let pos := S (dc_pos d) in
  if negb (N.land (b2n op) 0x80 =? 0)%N then decode_copy base stream result_len op pos (dc_out d)
  else if (0 <? b2n op)%N then decode_insert stream result_len op pos (dc_out d)
  else Err (corrupt ZeroOpcode).

Definition decode_step (base stream : bytes) (result_len : N) (d : Decoder)
    : Decoder + result MkitError bytes :=
  if (dc_pos d <? length stream)%nat then
    match decode_op base stream result_len d with
    | Ok d' => inl d'
    | Err e => inr (Err e)
    end
  else inr (
    if (lenN (dc_out d) =? result_len)%N then Ok (dc_out d)
    else Err (corrupt (ResultLenUnderrun result_len (lenN (dc_out d))))).

(** The header checks of [decode_inner]: the declared result length. *)
Definition decode_header (base stream : bytes) : result MkitError N :=
  _ ← ensure (HEADER_LEN <=? length stream)%nat UnexpectedEof;
  _ ← ensure (bool_decide (byte_at stream 0 = STREAM_VERSION)) UnsupportedObjectVersion;
  let base_len := le_val (slice 1 4 stream) in
  let result_len := le_val (slice 5 4 stream) in
  _ ← ensure (base_len =? lenN base)%N (corrupt (BaseLenMismatch base_len (lenN base)));
  mret result_len.

(** The capacity of a fresh [out] is not observable; its contents are. *)
Definition decode_inner (base stream : bytes) (output : option bytes)
    : option (result MkitError bytes) :=
  match decode_header base stream with
  | Err e => Some (Err e)
  | Ok result_len =>
      loop (S (length stream)) (decode_step base stream result_len)
           {| dc_pos := HEADER_LEN; dc_out := default [] output |}
  end.

Definition decode (base stream : bytes) : option (result MkitError bytes) :=
  decode_inner base stream None.

Definition decode_preallocated (base stream output : bytes)
    : option (result MkitError bytes) :=
  decode_inner base stream (Some output).
