(* ===== verification/DeltaFacts.v ===== *)
(** * Delta streams reconstruct their target

    The rolling hash is the block hash of the moved window; the stream format is
    characterised by an abstract instruction list, in both directions; the
    writer always terminates and its stream decodes to the target. *)

From Stdlib Require Import Zdiv.
From S2P Require Import Prelude Object Delta.

(** ** The rolling hash *)

(** The polynomial [block_hash] computes, without wrapping. *)
Definition horner (l : bytes) (h : Z) : Z :=
  foldl (λ h b, h * Z.of_N ROLL_M + Z.of_N (b2n b))%Z h l.

Abbreviation eq64 := (eqm (2 ^ 64)).

#[export] Instance eq64_equiv : Equivalence eq64 := eqm_setoid (2 ^ 64).
#[export] Instance eq64_add : Proper (eq64 ==> eq64 ==> eq64) Z.add := Zplus_eqm (2 ^ 64).
#[export] Instance eq64_sub : Proper (eq64 ==> eq64 ==> eq64) Z.sub := Zminus_eqm (2 ^ 64).
#[export] Instance eq64_mul : Proper (eq64 ==> eq64 ==> eq64) Z.mul := Zmult_eqm (2 ^ 64).

Lemma wrap64_Z n : eq64 (Z.of_N (wrap64 n)) (Z.of_N n).
Proof. unfold eqm, wrap64. rewrite N2Z.inj_mod. apply Zmod_mod. Qed.

Lemma wrap64_lt n : (wrap64 n < 2 ^ 64)%N.
Proof. by apply N.mod_lt. Qed.

Lemma wrapping_mul_Z a b : eq64 (Z.of_N (wrapping_mul a b)) (Z.of_N a * Z.of_N b).
Proof. unfold wrapping_mul. by rewrite wrap64_Z, N2Z.inj_mul. Qed.

Lemma wrapping_add_Z a b : eq64 (Z.of_N (wrapping_add a b)) (Z.of_N a + Z.of_N b).
Proof. unfold wrapping_add. by rewrite wrap64_Z, N2Z.inj_add. Qed.

Lemma wrapping_sub_Z a b : eq64 (Z.of_N (wrapping_sub a b)) (Z.of_N a - Z.of_N b).
Proof.
  unfold wrapping_sub. rewrite wrap64_Z. pose proof (wrap64_lt b).
  rewrite N2Z.inj_sub, N2Z.inj_add by lia. rewrite wrap64_Z.
  unfold eqm. change (Z.of_N (2 ^ 64)) with (2 ^ 64)%Z.
  replace (Z.of_N a + 2 ^ 64 - Z.of_N b)%Z with (Z.of_N a - Z.of_N b + 1 * 2 ^ 64)%Z by lia.
  apply Z_mod_plus_full.
Qed.

Lemma block_hash_fold_Z l h z :
  eq64 (Z.of_N h) z →
  eq64 (Z.of_N (foldl (λ h b, wrapping_add (wrapping_mul h ROLL_M) (b2n b)) h l)) (horner l z).
Proof.
  revert h z. induction l as [|b l IH]; intros h z Hz; [done|].
  cbn [foldl]. unfold horner. cbn [foldl]. apply IH.
  by rewrite wrapping_add_Z, wrapping_mul_Z, Hz.
Qed.

Lemma block_hash_Z l : eq64 (Z.of_N (block_hash l)) (horner l 0).
Proof. by apply block_hash_fold_Z. Qed.

Lemma horner_acc l z :
  horner l z = (z * Z.of_N ROLL_M ^ Z.of_nat (length l) + horner l 0)%Z.
Proof.
  revert z. induction l as [|b l IH]; intros z; [unfold horner; simpl; lia|].
  unfold horner in *. cbn [foldl length].
  rewrite IH, (IH (0 * _ + _)%Z), Nat2Z.inj_succ, Z.pow_succ_r by lia. ring.
Qed.

Lemma ROLL_M_POW_BLOCK_Z :
  eq64 (Z.of_N ROLL_M_POW_BLOCK) (Z.of_N ROLL_M ^ Z.of_nat BLOCK_SIZE).
Proof. vm_compute. reflexivity. Qed.

Lemma foldl_wrap_lt l h :
  (h < 2 ^ 64)%N →
  (foldl (λ h b, wrapping_add (wrapping_mul h ROLL_M) (b2n b)) h l < 2 ^ 64)%N.
Proof.
  revert h. induction l as [|b l IH]; intros h Hh; [done|]. cbn [foldl].
  apply IH, wrap64_lt.
Qed.

(** Two [u64] values are equal when they agree modulo 2^64. *)
Lemma eq64_u64 a b :
  (a < 2 ^ 64)%N → (b < 2 ^ 64)%N → eq64 (Z.of_N a) (Z.of_N b) → a = b.
Proof.
  intros Ha Hb. unfold eqm. rewrite !Z.mod_small by lia. apply N2Z.inj.
Qed.

Lemma roll_forward_hash old w new :
  length w = BLOCK_SIZE - 1 →
  roll_forward (block_hash (old :: w)) old new = block_hash (w ++ [new]).
Proof.
  intros Hw. apply eq64_u64; [apply wrap64_lt|by apply foldl_wrap_lt|].
  unfold roll_forward.
  rewrite wrapping_add_Z, wrapping_sub_Z, !wrapping_mul_Z, ROLL_M_POW_BLOCK_Z, !block_hash_Z.
  replace (horner (old :: w) 0) with
    (Z.of_N (b2n old) * Z.of_N ROLL_M ^ Z.of_nat (length w) + horner w 0)%Z
    by (by rewrite <- horner_acc).
  replace (horner (w ++ [new]) 0) with (horner w 0 * Z.of_N ROLL_M + Z.of_N (b2n new))%Z
    by (unfold horner; by rewrite foldl_app).
  rewrite Hw. change (Z.of_nat BLOCK_SIZE) with (Z.succ (Z.of_nat (BLOCK_SIZE - 1))).
  rewrite Z.pow_succ_r by lia.
  match goal with |- eq64 ?a ?b => replace a with b by ring end. reflexivity.
Qed.

(** ** Instructions *)

Inductive Op :=
  | Copy (offset len : N)
  | Insert (lit : bytes).

Definition op_bytes (o : Op) : bytes :=
  match o with
  | Copy offset len => OP_COPY :: le_bytes 4 offset ++ le_bytes 2 len
  | Insert lit => n2b (lenN lit) :: lit
  end.

Definition op_apply (base : bytes) (o : Op) : bytes :=
  match o with
  | Copy offset len => slice (N.to_nat offset) (N.to_nat len) base
  | Insert lit => lit
  end.

Definition op_valid (base : bytes) (o : Op) : bool :=
  match o with
  | Copy offset len =>
      (offset <=? U32_MAX)%N && (0 <? len)%N && (len <=? U16_MAX)%N
      && (offset + len <=? lenN base)%N
  | Insert lit => (0 <? lenN lit)%N && (lenN lit <=? 127)%N
  end.

(** What a list of instructions reconstructs, and the stream that carries it. *)
Definition ops_apply (base : bytes) (ops : list Op) : bytes :=
  concat (map (op_apply base) ops).
Definition ops_bytes (ops : list Op) : bytes := concat (map op_bytes ops).
Definition ops_valid (base : bytes) (ops : list Op) : bool := forallb (op_valid base) ops.

Lemma drop_app_step pos (l a b : bytes) : drop pos l = a ++ b → drop (pos + length a) l = b.
Proof. intros H. rewrite <- drop_drop, H. apply drop_app_length. Qed.

Lemma drop_cons_lt {A} pos (l : list A) x k : drop pos l = x :: k → pos < length l.
Proof. intros H. pose proof (length_drop l pos) as E. rewrite H in E. simpl in E. lia. Qed.

Lemma byte_at_drop pos (l : bytes) x k : drop pos l = x :: k → byte_at l pos = x ∧ drop (S pos) l = k.
Proof.
  intros H. rewrite (drop_nth l Byte.x00 pos) in H by (by eapply drop_cons_lt).
  by injection H.
Qed.

(** A fixed-width field of the stream, as a number and back. *)
Lemma slice_le pos n l :
  pos + n <= length l →
  le_bytes n (le_val (slice pos n l)) = slice pos n l ∧
  (le_val (slice pos n l) < 256 ^ N.of_nat n)%N.
Proof.
  intros H%slice_length. pose proof (le_val_bound (slice pos n l)) as Hb.
  unfold lenN in Hb. rewrite H in Hb. split; [|done]. rewrite <- H at 1. apply le_bytes_le_val.
Qed.

(** The opcode classes: a byte with its top bit set, a literal length, zero. *)
Lemma opcode_copy b : N.land (b2n b) 0x80 ≠ 0%N → N.land (b2n b) 0x7F = 0%N → b = OP_COPY.
Proof. destruct b; vm_compute; done. Qed.

Lemma opcode_insert b :
  N.land (b2n b) 0x80 = 0%N → (0 < b2n b)%N → (b2n b <= 127)%N.
Proof. destruct b; vm_compute; done. Qed.

Lemma opcode_insert_of n : (0 < n <= 127)%N → N.land n 0x80 = 0%N.
Proof.
  intros Hn. rewrite N.land_comm. change 0x80%N with (1 * 2 ^ 7)%N.
  apply N.bits_inj. intros i. rewrite N.land_spec, N.bits_0.
  destruct (N.testbit (1 * 2 ^ 7) i) eqn:E; [|done]. simpl.
  destruct (decide (i = 7%N)) as [->|].
  - apply N.bits_above_log2, N.log2_lt_pow2; lia.
  - change (1 * 2 ^ 7)%N with (2 ^ 7)%N in E. rewrite N.pow2_bits_eqb in E.
    apply N.eqb_eq in E. congruence.
Qed.

(** *** One instruction *)

Lemma emit_checked_Ok out n rl u :
  emit_checked out n rl = Ok u ↔ (lenN out + N.of_nat n <= rl)%N.
Proof. unfold emit_checked. by rewrite ensure_Ok, N.leb_le. Qed.

Lemma op_apply_len base o : op_valid base o = true → (0 < lenN (op_apply base o))%N.
Proof.
  destruct o as [off len|lit]; cbn [op_valid op_apply]; intros H.
  - apply andb_true_iff in H as [[[_ ?%N.ltb_lt]%andb_true_iff _]%andb_true_iff ?%N.leb_le].
    unfold lenN in *. rewrite slice_length; lia.
  - apply andb_true_iff in H as [?%N.ltb_lt _]. done.
Qed.

Lemma length_op_bytes o : 0 < length (op_bytes o).
Proof. destruct o; simpl; lia. Qed.

Section decode.
Context (base stream : bytes) (rl : N).

Lemma decode_op_complete d o rest :
  drop (dc_pos d) stream = op_bytes o ++ rest → op_valid base o = true →
  (lenN (dc_out d) + lenN (op_apply base o) <= rl)%N →
  decode_op base stream rl d =
  Ok {| dc_pos := dc_pos d + length (op_bytes o); dc_out := dc_out d ++ op_apply base o |}.
Proof.
  destruct d as [pos out]; cbn [dc_pos dc_out]. intros Hd Hv Hl. unfold decode_op.
  cbn [dc_pos dc_out].
  destruct o as [off len|lit]; cbn [op_bytes op_valid op_apply] in *.
  - apply andb_true_iff in Hv as [[[H1%N.leb_le H2%N.ltb_lt]%andb_true_iff
      H3%N.leb_le]%andb_true_iff H4%N.leb_le].
    rewrite <- app_comm_cons, <- app_assoc in Hd. apply byte_at_drop in Hd as [-> Hd].
    pose proof (length_drop stream (S pos)) as HL. rewrite Hd, !length_app, !length_le_bytes in HL.
    pose proof (slice_app _ _ _ _ Hd) as E1. rewrite length_le_bytes in E1.
    apply drop_app_step in Hd. rewrite length_le_bytes in Hd.
    pose proof (slice_app _ _ _ _ Hd) as E2. rewrite length_le_bytes in E2.
    change (negb (N.land (b2n OP_COPY) 128 =? 0)%N) with true. cbn iota.
    unfold decode_copy. rewrite E1, E2.
    rewrite !le_val_le_bytes by (unfold U32_MAX, U16_MAX in *; simpl in *; lia).
    rewrite !ensure_bind.
    + unfold mbind, result_bind. rewrite (proj2 (emit_checked_Ok _ _ _ tt)).
      * cbn [length]. rewrite length_app, !length_le_bytes.
        unfold mret, result_ret. f_equal. f_equal. lia.
      * unfold lenN in *. rewrite slice_length in Hl; lia.
    + by apply N.leb_le.
    + apply negb_true_iff, N.eqb_neq. lia.
    + apply Nat.leb_le. lia.
    + done.
  - apply andb_true_iff in Hv as [H1%N.ltb_lt H2%N.leb_le].
    rewrite <- app_comm_cons in Hd. apply byte_at_drop in Hd as [-> Hd].
    pose proof (length_drop stream (S pos)) as HL. rewrite Hd, length_app in HL.
    pose proof (slice_app _ _ _ _ Hd) as E1.
    rewrite b2n_n2b, opcode_insert_of by lia. cbn [N.eqb negb].
    destruct (N.ltb_spec 0 (lenN lit)) as [_|]; [|lia].
    unfold decode_insert. rewrite b2n_n2b by lia. unfold lenN in *. rewrite Nat2N.id, E1.
    rewrite ensure_bind by (apply Nat.leb_le; lia).
    unfold mbind, result_bind. rewrite (proj2 (emit_checked_Ok _ _ _ tt)) by (unfold lenN; lia).
    simpl. f_equal. f_equal. lia.
Qed.

Lemma decode_op_sound d d' :
  dc_pos d < length stream → decode_op base stream rl d = Ok d' →
  ∃ o, op_valid base o = true ∧
       drop (dc_pos d) stream = op_bytes o ++ drop (dc_pos d') stream ∧
       dc_pos d' = dc_pos d + length (op_bytes o) ∧
       dc_out d' = dc_out d ++ op_apply base o ∧ (lenN (dc_out d') <= rl)%N.
Proof.
  destruct d as [pos out]; cbn [dc_pos dc_out]. intros Hpos. unfold decode_op. cbn [dc_pos dc_out].
  rewrite (drop_nth stream Byte.x00 pos) by done. change (nth pos stream _) with (byte_at stream pos).
  set (op := byte_at stream pos).
  destruct (N.eqb_spec (N.land (b2n op) 128) 0) as [E|E]; cbn [negb].
  - destruct (N.ltb_spec 0 (b2n op)) as [Hop|]; [|done].
    pose proof (opcode_insert _ E Hop) as Hop'. intros H. unfold decode_insert in H. inv_ok. subst d'.
    rename select ((_ <=? _)%nat = true) into Hl. apply Nat.leb_le in Hl.
    rename select (emit_checked _ _ _ = _) into He. apply emit_checked_Ok in He.
    set (n := N.to_nat (b2n op)) in *.
    assert (length (slice (S pos) n stream) = n) as Hn by (by apply slice_length).
    exists (Insert (slice (S pos) n stream)). cbn [op_valid op_bytes op_apply dc_pos dc_out].
    unfold lenN. rewrite Hn.
    replace (N.of_nat n) with (b2n op) by lia. rewrite n2b_b2n.
    split; [apply andb_true_iff; split; [apply N.ltb_lt|apply N.leb_le]; lia|].
    split; [rewrite <- app_comm_cons; f_equal; apply slice_drop|].
    split; [simpl; lia|]. split; [done|]. rewrite length_app, Hn. unfold lenN in He. lia.
  - intros H. unfold decode_copy in H. inv_ok. subst d'.
    set (off := le_val (slice (S pos) 4 stream)) in *.
    set (len := le_val (slice (S pos + 4) 2 stream)) in *.
    rename select ((S pos + 6 <=? _)%nat = true) into Hl. apply Nat.leb_le in Hl.
    rename select (negb _ = true) into Hz. apply negb_true_iff, N.eqb_neq in Hz.
    rename select ((off + len <=? _)%N = true) into Hb. pose proof Hb as Hb'%N.leb_le.
    rename select (emit_checked _ _ _ = _) into He. apply emit_checked_Ok in He.
    destruct (slice_le (S pos) 4 stream) as [Ho1 Ho2]; [lia|]. fold off in Ho1, Ho2.
    destruct (slice_le (S pos + 4) 2 stream) as [Hn1 Hn2]; [lia|]. fold len in Hn1, Hn2.
    assert (length (slice (N.to_nat off) (N.to_nat len) base) = N.to_nat len) as Hs
      by (apply slice_length; unfold lenN in *; lia).
    exists (Copy off len). cbn [op_valid op_bytes op_apply dc_pos dc_out].
    rewrite (opcode_copy op E) by (by apply N.eqb_eq).
    split; [|split; [|split; [|split]]].
    + rewrite Hb, andb_true_r, !andb_true_iff, !N.leb_le, N.ltb_lt.
      unfold U32_MAX, U16_MAX. simpl in *. lia.
    + rewrite <- app_comm_cons, <- app_assoc. f_equal.
      rewrite (slice_drop (S pos) 4), (slice_drop (S pos + 4) 2). by rewrite Ho1, Hn1.
    + cbn [length]. rewrite length_app, !length_le_bytes. lia.
    + done.
    + rewrite lenN_app. unfold lenN in *. rewrite Hs. lia.
Qed.

Lemma decode_ops_complete ops : ∀ fuel d,
  drop (dc_pos d) stream = ops_bytes ops → ops_valid base ops = true →
  (lenN (dc_out d) + lenN (ops_apply base ops) = rl)%N → length ops < fuel →
  loop fuel (decode_step base stream rl) d = Some (Ok (dc_out d ++ ops_apply base ops)).
Proof.
  induction ops as [|o ops IH]; intros [|fuel] d Hd Hv Hl Hf; try (simpl in Hf; lia).
  - cbn [loop]. unfold decode_step. destruct (Nat.ltb_spec (dc_pos d) (length stream)) as [H|].
    { pose proof (length_drop stream (dc_pos d)) as E. rewrite Hd in E. simpl in E. lia. }
    unfold ops_apply in *; simpl in *. rewrite app_nil_r.
    destruct (N.eqb_spec (lenN (dc_out d)) rl); [done|]. rewrite lenN_nil in Hl. lia.
  - unfold ops_bytes, ops_apply, ops_valid in *. cbn [map concat forallb] in *.
    apply andb_true_iff in Hv as [Ho Hv]. rewrite lenN_app in Hl.
    cbn [loop]. unfold decode_step at 1.
    destruct (Nat.ltb_spec (dc_pos d) (length stream)) as [|H]; cycle 1.
    { pose proof (length_drop stream (dc_pos d)) as E. rewrite Hd, length_app in E.
      pose proof (length_op_bytes o). lia. }
    rewrite (decode_op_complete d o _ Hd Ho) by lia.
    rewrite IH; cbn [dc_pos dc_out].
    + by rewrite app_assoc.
    + by apply drop_app_step.
    + done.
    + rewrite lenN_app. lia.
    + simpl in Hf. lia.
Qed.

Lemma decode_ops_sound fuel : ∀ d out,
  loop fuel (decode_step base stream rl) d = Some (Ok out) →
  ∃ ops, ops_valid base ops = true ∧ drop (dc_pos d) stream = ops_bytes ops ∧
         out = dc_out d ++ ops_apply base ops ∧ lenN out = rl.
Proof.
  induction fuel as [|fuel IH]; intros d out H; [done|]. cbn [loop] in H.
  unfold decode_step at 1 in H.
  destruct (Nat.ltb_spec (dc_pos d) (length stream)) as [Hd|Hd].
  - destruct (decode_op base stream rl d) as [d'|e] eqn:E; [|done].
    apply decode_op_sound in E as (o & Ho & Hs & _ & Eo & _); [|done].
    apply IH in H as (ops & Hv & Hd' & -> & Hl). exists (o :: ops).
    unfold ops_valid, ops_bytes, ops_apply in *. cbn [map concat forallb].
    rewrite Ho, Hv, Hs, Hd', Eo. split; [done|]. split; [done|]. split; [|by rewrite <- Eo].
    by rewrite app_assoc.
  - destruct (N.eqb_spec (lenN (dc_out d)) rl) as [Hl|]; [|done]. injection H as <-.
    exists []. split; [done|]. split; [by apply drop_ge|].
    unfold ops_apply; simpl. by rewrite app_nil_r.
Qed.

(** Every instruction moves the position, so the fuel of [decode_inner] is
    enough; the output never grows past the declared length. *)
Lemma decode_loop_total fuel d :
  (lenN (dc_out d) <= rl)%N → length stream - dc_pos d < fuel →
  ∃ r, loop fuel (decode_step base stream rl) d = Some r ∧
       ∀ out, r = Ok out → lenN out = rl.
Proof.
  apply (loop_rule _ (λ d, length stream - dc_pos d) (λ d, (lenN (dc_out d) <= rl)%N)
           (λ r, ∀ out, r = Ok out → lenN out = rl)).
  clear. intros d Hd. unfold decode_step.
  destruct (Nat.ltb_spec (dc_pos d) (length stream)) as [Hp|Hp].
  - destruct (decode_op base stream rl d) as [d'|e] eqn:E; [|done].
    apply decode_op_sound in E as (o & _ & _ & E & _ & Hl); [|done].
    pose proof (length_op_bytes o). split; [done|lia].
  - destruct (N.eqb_spec (lenN (dc_out d)) rl); [|done]. by intros out [= <-].
Qed.
End decode.

Lemma length_write_header a b : length (write_header a b) = HEADER_LEN.
Proof. unfold write_header. cbn [length]. by rewrite length_app, !length_le_bytes. Qed.

Lemma decode_header_complete base rl body :
  (lenN base <= U32_MAX)%N → (rl <= U32_MAX)%N →
  decode_header base (write_header (lenN base) rl ++ body) = Ok rl.
Proof.
  intros Hb Hr. unfold decode_header. set (stream := write_header _ _ ++ body).
  assert (drop 1 stream = le_bytes 4 (lenN base) ++ le_bytes 4 rl ++ body) as E1.
  { unfold stream, write_header. rewrite <- app_comm_cons, <- app_assoc. done. }
  assert (drop 5 stream = le_bytes 4 rl ++ body) as E5.
  { apply drop_app_step in E1. rewrite length_le_bytes in E1. done. }
  pose proof (slice_app _ _ _ _ E1) as S1. rewrite length_le_bytes in S1.
  pose proof (slice_app _ _ _ _ E5) as S5. rewrite length_le_bytes in S5.
  rewrite S1, S5, !le_val_le_bytes by (unfold U32_MAX in *; simpl in *; lia).
  rewrite !ensure_bind; [done|by apply N.eqb_eq|done|].
  apply Nat.leb_le. unfold stream. rewrite length_app, length_write_header. lia.
Qed.

Lemma decode_header_sound base stream rl :
  decode_header base stream = Ok rl →
  (lenN base <= U32_MAX)%N ∧ (rl <= U32_MAX)%N ∧
  stream = write_header (lenN base) rl ++ drop HEADER_LEN stream.
Proof.
  unfold decode_header. intros H. inv_ok.
  rename select ((_ <=? length stream)%nat = true) into Hl. apply Nat.leb_le in Hl.
  rename select (bool_decide _ = true) into Hv. apply bool_decide_eq_true in Hv.
  rename select ((_ =? lenN base)%N = true) into Hb. apply N.eqb_eq in Hb.
  unfold HEADER_LEN in *.
  destruct (slice_le 1 4 stream) as [E1 B1]; [lia|].
  destruct (slice_le 5 4 stream) as [E2 B2]; [lia|].
  rewrite Hb in *. subst rl. unfold U32_MAX. simpl in B1, B2.
  split; [lia|]. split; [lia|].
  unfold write_header. rewrite E1, E2, <- app_comm_cons, <- app_assoc.
  rewrite <- (slice_drop 5 4), <- (slice_drop 1 4).
  rewrite <- Hv. change (byte_at stream 0) with (nth 0 stream Byte.x00).
  rewrite <- drop_nth by lia. done.
Qed.

(** ** The extension of a match *)

Lemma slice_cons pos n (l : bytes) :
  pos < length l → slice pos (S n) l = byte_at l pos :: slice (S pos) n l.
Proof. intros H. unfold slice. by rewrite (drop_nth l Byte.x00 pos) by done. Qed.

Lemma slice_S pos n (l : bytes) x :
  l !! (pos + n) = Some x → slice pos (S n) l = slice pos n l ++ [x].
Proof.
  intros H. unfold slice. apply take_S_r. by rewrite lookup_drop.
Qed.

Lemma byte_at_lookup (l : bytes) i : i < length l → l !! i = Some (byte_at l i).
Proof. intros [x Hx]%lookup_lt_is_Some_2. rewrite Hx. f_equal. symmetry.
  by apply nth_lookup_Some. Qed.

(** Rolling the hash of the window at [ti] gives the hash of the next one. *)
Lemma roll_window (result : bytes) ti :
  ti + BLOCK_SIZE < length result →
  roll_forward (block_hash (slice ti BLOCK_SIZE result)) (byte_at result ti)
    (byte_at result (ti + BLOCK_SIZE)) = block_hash (slice (S ti) BLOCK_SIZE result).
Proof.
  intros Hlt. change BLOCK_SIZE with (S (BLOCK_SIZE - 1)) at 1 3.
  rewrite slice_cons by lia.
  rewrite roll_forward_hash by (apply slice_length; unfold BLOCK_SIZE in *; simpl; lia).
  f_equal. symmetry. apply slice_S. rewrite byte_at_lookup by (unfold BLOCK_SIZE in *; simpl; lia).
  do 2 f_equal. unfold BLOCK_SIZE. lia.
Qed.

Lemma extend_match_spec base result p ti fuel : ∀ m,
  slice p m base = slice ti m result → p + m <= length base → ti + m <= length result →
  (N.of_nat m <= U16_MAX)%N →
  let m' := extend_match fuel base result p ti m in
  m <= m' ∧ slice p m' base = slice ti m' result ∧ p + m' <= length base ∧
  ti + m' <= length result ∧ (N.of_nat m' <= U16_MAX)%N.
Proof.
  induction fuel as [|fuel IH]; intros m Hs Hp Ht Hm; cbn [extend_match]; [done|].
  case_match eqn:E; [|done].
  apply andb_true_iff in E as [[[E1%Nat.ltb_lt E2%Nat.ltb_lt]%andb_true_iff
    E3%bool_decide_eq_true]%andb_true_iff E4%N.ltb_lt].
  destruct (lookup_lt_is_Some_2 base (p + m)) as [x Hx]; [done|].
  assert (slice p (S m) base = slice ti (S m) result) as E.
  { rewrite (slice_S _ _ _ _ Hx), Hs. rewrite Hx in E3. by rewrite (slice_S _ _ _ x). }
  specialize (IH (S m) E). simpl in IH. simpl. destruct IH as (? & ? & ? & ? & ?); try lia.
  repeat split; try done; lia.
Qed.

(** The fuel [length result - ti] never cuts the extension short. *)
Lemma extend_match_maximal base result p ti fuel : ∀ m,
  length result - (ti + m) <= fuel →
  let m' := extend_match fuel base result p ti m in
  p + m' < length base → ti + m' < length result → (N.of_nat m' < U16_MAX)%N →
  base !! (p + m') ≠ result !! (ti + m').
Proof.
  induction fuel as [|fuel IH]; intros m Hf; cbn [extend_match].
  - intros _ H. lia.
  - case_match eqn:E; [apply IH; lia|]. intros H1 H2 H3 H4.
    apply andb_false_iff in E as [[[E%Nat.ltb_ge|E%Nat.ltb_ge]%andb_false_iff|
      E%bool_decide_eq_false]%andb_false_iff|E%N.ltb_ge]; try lia. done.
Qed.

(** ** The scan *)

Section encode.
Context (base result : bytes) (index : gmap N N) (header : bytes).
Hypothesis Hbase : (lenN base <= U32_MAX)%N.

(** What is emitted and pending reconstructs the scanned prefix; the rolled
    hash is the hash of the window; the stream has not grown by more than a
    byte for every 127 literals. *)
Record scan_inv (s : Scan) (ops : list Op) : Prop := {
  si_out : s_out s = header ++ ops_bytes ops;
  si_valid : ops_valid base ops = true;
  si_apply : ops_apply base ops ++ s_insert_buf s = take (s_ti s) result;
  si_ti : s_ti s <= length result;
  si_buf : length (s_insert_buf s) < MAX_INSERT_LEN;
  si_hash h : s_window_hash s = Some h →
    s_ti s + BLOCK_SIZE <= length result ∧ h = block_hash (slice (s_ti s) BLOCK_SIZE result);
  si_size : (127 * (Z.of_nat (length (ops_bytes ops)) + Z.of_nat (length (s_insert_buf s))
             - Z.of_nat (s_ti s)) + Z.of_nat (length (s_insert_buf s)) <= Z.of_nat (s_ti s))%Z
}.

Lemma ops_bytes_snoc ops o : ops_bytes (ops ++ [o]) = ops_bytes ops ++ op_bytes o.
Proof. unfold ops_bytes. rewrite map_app, concat_app. simpl. by rewrite app_nil_r. Qed.

Lemma ops_apply_snoc ops o : ops_apply base (ops ++ [o]) = ops_apply base ops ++ op_apply base o.
Proof. unfold ops_apply. rewrite map_app, concat_app. simpl. by rewrite app_nil_r. Qed.

Lemma ops_valid_snoc ops o :
  ops_valid base (ops ++ [o]) = ops_valid base ops && op_valid base o.
Proof. unfold ops_valid. rewrite forallb_app. simpl. by rewrite andb_true_r. Qed.

(** Flushing adds one INSERT, or nothing when nothing is pending. *)
Lemma flush_insert_ops out ops buf :
  out = header ++ ops_bytes ops → ops_valid base ops = true → length buf <= 127 →
  ∃ ops', flush_insert out buf = header ++ ops_bytes ops' ∧ ops_valid base ops' = true ∧
          ops_apply base ops' = ops_apply base ops ++ buf ∧
          length (ops_bytes ops') = length (ops_bytes ops) + length buf + (if decide (buf = []) then 0 else 1).
Proof.
  intros -> Hv Hl. destruct buf as [|b buf].
  { exists ops. rewrite app_nil_r. simpl. split_and!; try done. lia. }
  exists (ops ++ [Insert (b :: buf)]).
  rewrite ops_bytes_snoc, ops_apply_snoc, ops_valid_snoc, Hv. unfold flush_insert.
  split_and!; [by rewrite <- app_assoc| |done|].
  - cbn [op_valid andb]. rewrite andb_true_iff, N.ltb_lt, N.leb_le.
    rewrite lenN_cons. unfold lenN. simpl in Hl. lia.
  - rewrite length_app. simpl. lia.
Qed.

Lemma scan_miss_inv s ops wh :
  scan_inv s ops → s_ti s < length result →
  (∀ h, wh = Some h → s_ti s + BLOCK_SIZE <= length result ∧
                      h = block_hash (slice (s_ti s) BLOCK_SIZE result)) →
  ∃ ops', scan_inv (scan_miss result s wh) ops'.
Proof.
  intros [Ho Hv Ha Ht Hb _ Hs] Hlt Hwh. destruct s as [out buf ti wh0].
  cbn [s_out s_insert_buf s_ti s_window_hash] in *.
  destruct (lookup_lt_is_Some_2 result ti Hlt) as [x Hx].
  assert (byte_at result ti = x) as Ex by (by apply nth_lookup_Some).
  assert (ops_apply base ops ++ buf ++ [x] = take (S ti) result) as Ha'.
  { rewrite app_assoc, Ha. symmetry. by apply take_S_r. }
  assert (∀ h, (h ← wh; if (ti + BLOCK_SIZE <? length result)%nat
            then Some (roll_forward h (byte_at result ti) (byte_at result (ti + BLOCK_SIZE)))
            else None) = Some h →
          S ti + BLOCK_SIZE <= length result ∧ h = block_hash (slice (S ti) BLOCK_SIZE result))
    as Hroll.
  { intros h Hh. destruct wh as [h0|]; [|done]. simpl in Hh.
    destruct (Nat.ltb_spec (ti + BLOCK_SIZE) (length result)) as [Hlt'|]; [|done].
    injection Hh as <-. destruct (Hwh _ eq_refl) as [_ ->]. split; [unfold BLOCK_SIZE in *; lia|].
    by apply roll_window. }
  unfold scan_miss; cbn [s_out s_insert_buf s_ti s_window_hash]. rewrite Ex.
  destruct (Nat.eqb_spec (length (buf ++ [x])) MAX_INSERT_LEN) as [Hfull|Hfull].
  - destruct (flush_insert_ops out ops (buf ++ [x])) as (ops' & Eo & Ev & Ea & El);
      [done..|unfold MAX_INSERT_LEN in *; lia|].
    exists ops'. constructor; cbn [s_out s_insert_buf s_ti s_window_hash]; try done.
    + by rewrite Ea, app_nil_r.
    + unfold MAX_INSERT_LEN; simpl; lia.
    + by rewrite <- Ex.
    + rewrite El. rewrite decide_False by (by destruct buf). rewrite length_app in *.
      unfold MAX_INSERT_LEN in *. simpl in *. lia.
  - exists ops. rewrite length_app in Hfull. simpl in Hfull.
    constructor; cbn [s_out s_insert_buf s_ti s_window_hash]; try done.
    + rewrite length_app. simpl. lia.
    + by rewrite <- Ex.
    + rewrite length_app. simpl. lia.
Qed.

Lemma find_match_Some target h p :
  length target = BLOCK_SIZE → find_match base target index h = Some p →
  slice p BLOCK_SIZE base = target ∧ p + BLOCK_SIZE <= length base.
Proof.
  unfold find_match. intros Hl H. destruct (index !! h) as [q|]; [|done].
  destruct (bytes_eqb _ target) eqn:E; [|done]. apply bytes_eqb_eq in E. injection H as <-.
  split; [done|]. rewrite <- E in Hl. unfold slice in Hl.
  rewrite length_take, length_drop in Hl. unfold BLOCK_SIZE in *. lia.
Qed.

Lemma scan_copy_inv s ops base_pos h :
  scan_inv s ops → s_ti s + BLOCK_SIZE <= length result →
  find_match base (slice (s_ti s) BLOCK_SIZE result) index h = Some base_pos →
  (∃ ops', scan_inv (scan_copy base result s base_pos) ops') ∧
  s_ti s < s_ti (scan_copy base result s base_pos).
Proof.
  intros [Ho Hv Ha Ht Hb _ Hs] Hblock Hm. destruct s as [out buf ti wh0].
  cbn [s_out s_insert_buf s_ti s_window_hash] in *.
  apply find_match_Some in Hm as [Hm Hp]; [|by apply slice_length].
  unfold scan_copy; cbn [s_out s_insert_buf s_ti s_window_hash].
  destruct (extend_match_spec base result base_pos ti (length result - ti) BLOCK_SIZE)
    as (M1 & M2 & M3 & M4 & M5); [done..|].
  set (m := extend_match _ _ _ _ _ _) in *. clearbody m.
  assert (0 < m) by (unfold BLOCK_SIZE in *; lia).
  split; [|lia].
  destruct (flush_insert_ops out ops buf) as (ops' & Eo & Ev & Ea & El);
    [done..|unfold MAX_INSERT_LEN in *; lia|].
  exists (ops' ++ [Copy (N.of_nat base_pos) (N.of_nat m)]).
  constructor; cbn [s_out s_insert_buf s_ti s_window_hash]; try done.
  - unfold emit_copy. by rewrite ops_bytes_snoc, Eo, <- app_assoc.
  - rewrite ops_valid_snoc, Ev. cbn [op_valid andb].
    rewrite !andb_true_iff, !N.leb_le, N.ltb_lt. unfold lenN in *. lia.
  - rewrite app_nil_r, ops_apply_snoc, Ea, Ha. cbn [op_apply]. rewrite !Nat2N.id, M2.
    unfold slice. by rewrite take_take_drop.
  - unfold MAX_INSERT_LEN. simpl. lia.
  - rewrite ops_bytes_snoc, length_app, El. cbn [op_bytes length].
    rewrite length_app, !length_le_bytes. unfold BLOCK_SIZE in *. case_decide; lia.
Qed.

Lemma scan_step_inv s ops :
  scan_inv s ops →
  match scan_step base result index s with
  | inl s' => (∃ ops', scan_inv s' ops') ∧ s_ti s < s_ti s' <= length result
  | inr out => s_ti s = length result ∧ out = flush_insert (s_out s) (s_insert_buf s)
  end.
Proof.
  intros Hi. pose proof Hi as [_ _ _ Ht _ Hh _]. unfold scan_step.
  destruct (Nat.ltb_spec (s_ti s) (length result)) as [Hlt|]; [|split; [lia|done]].
  assert (∀ s', (∃ ops', scan_inv s' ops') ∧ s_ti s < s_ti s' →
           (∃ ops', scan_inv s' ops') ∧ s_ti s < s_ti s' <= length result) as Hle.
  { intros s' [[ops' Hi'] ?]. pose proof (si_ti _ _ Hi'). eauto with lia. }
  destruct (Nat.leb_spec (s_ti s + BLOCK_SIZE) (length result)) as [Hblock|].
  - assert (default (block_hash (slice (s_ti s) BLOCK_SIZE result)) (s_window_hash s)
            = block_hash (slice (s_ti s) BLOCK_SIZE result)) as Hd.
    { destruct (s_window_hash s) as [h|] eqn:E; [|done]. simpl. by apply Hh. }
    rewrite Hd.
    destruct (find_match _ _ _ _) as [p|] eqn:Hm; apply Hle.
    + by eapply scan_copy_inv.
    + split; [|simpl; lia]. eapply scan_miss_inv; [done..|]. by intros h [= <-].
  - apply Hle. split; [|simpl; lia]. by eapply scan_miss_inv.
Qed.

(** The scan terminates and its output is a valid instruction stream. *)
Lemma scan_total :
  ∃ out, loop (S (length result)) (scan_step base result index)
           {| s_out := header; s_insert_buf := []; s_ti := 0; s_window_hash := None |} = Some out ∧
         ∃ ops, out = header ++ ops_bytes ops ∧ ops_valid base ops = true ∧
                ops_apply base ops = result ∧
                (127 * (Z.of_nat (length (ops_bytes ops)) - Z.of_nat (length result))
                 <= Z.of_nat (length result) + 126)%Z.
Proof.
  apply (loop_rule _ (λ s, length result - s_ti s) (λ s, ∃ ops, scan_inv s ops)).
  - intros s [ops Hi]. pose proof (scan_step_inv s ops Hi) as H.
    destruct (scan_step base result index s) as [s'|out].
    + destruct H as [H ?]. split; [done|lia].
    + destruct H as [Hend ->]. destruct Hi as [Ho Hv Ha Ht Hb _ Hs].
      destruct (flush_insert_ops (s_out s) ops (s_insert_buf s)) as (ops' & Eo & Ev & Ea & El);
        [done..|unfold MAX_INSERT_LEN in *; lia|].
      exists ops'. split; [done|]. split; [done|]. split.
      * by rewrite Ea, Ha, Hend, firstn_all.
      * rewrite El. rewrite Hend in Hs. case_decide as Hd; [lia|].
        assert (0 < length (s_insert_buf s)) by (destruct (s_insert_buf s); [done|simpl; lia]).
        lia.
  - exists []. constructor; cbn [s_out s_insert_buf s_ti s_window_hash]; try done.
    + by rewrite app_nil_r.
    + lia.
    + unfold MAX_INSERT_LEN. simpl. lia.
  - simpl. lia.
Qed.
End encode.

(** ** The contract of the codec *)

Lemma check_length_bounds_Ok a b u :
  check_length_bounds a b = Ok u ↔ (a <= U32_MAX)%N ∧ (b <= U32_MAX)%N.
Proof.
  unfold check_length_bounds. rewrite bind_Ok.
  setoid_rewrite ensure_Ok. setoid_rewrite N.leb_le. naive_solver.
Qed.

Lemma encode_Ok base result :
  (lenN base <= U32_MAX)%N → (lenN result <= U32_MAX)%N →
  ∃ ops, encode base result =
           Some (Ok (write_header (lenN base) (lenN result) ++ ops_bytes ops)) ∧
         ops_valid base ops = true ∧ ops_apply base ops = result ∧
         (127 * (Z.of_nat (length (ops_bytes ops)) - Z.of_nat (length result))
          <= Z.of_nat (length result) + 126)%Z.
Proof.
  intros Hb Hr. unfold encode.
  rewrite (proj2 (check_length_bounds_Ok _ _ tt)) by done.
  destruct (scan_total base result (build_index base)
              (write_header (lenN base) (lenN result)) Hb) as (out & -> & ops & -> & ?).
  exists ops. done.
Qed.

(** The streams that decode to [out]. *)
Definition encodes (base out stream : bytes) (ops : list Op) : Prop :=
  ops_valid base ops = true ∧ out = ops_apply base ops ∧
  stream = write_header (lenN base) (lenN out) ++ ops_bytes ops.

Lemma decode_sound base stream out :
  decode base stream = Some (Ok out) →
  (lenN base <= U32_MAX)%N ∧ (lenN out <= U32_MAX)%N ∧ ∃ ops, encodes base out stream ops.
Proof.
  unfold decode, decode_inner. destruct (decode_header base stream) as [rl|e] eqn:Hh; [|done].
  apply decode_header_sound in Hh as (Hb & Hr & Hs).
  intros (ops & Hv & Hd & -> & Hl)%decode_ops_sound. cbn [dc_pos dc_out default] in *.
  rewrite app_nil_l in *. rewrite Hd in Hs. rewrite <- Hl in *.
  split; [done|]. split; [done|]. by exists ops.
Qed.

Lemma length_ops ops : length ops <= length (ops_bytes ops).
Proof.
  unfold ops_bytes. induction ops as [|o ops IH]; cbn [map concat length] in *; [lia|].
  rewrite length_app. pose proof (length_op_bytes o). lia.
Qed.

Lemma decode_complete base stream out ops :
  (lenN base <= U32_MAX)%N → (lenN out <= U32_MAX)%N → encodes base out stream ops →
  decode base stream = Some (Ok out).
Proof.
  intros Hb Ho (Hv & -> & ->). unfold decode, decode_inner.
  rewrite decode_header_complete by done.
  apply (decode_ops_complete base _ _ ops); cbn [dc_pos dc_out default]; try done.
  rewrite length_app. pose proof (length_ops ops). lia.
Qed.

(** C4: what [decode] accepts. A stream decodes to [out] exactly when it is the
    v1 header with the two true lengths followed by the encodings of valid
    instructions (copies inside the base of 1 to 65535 bytes, inserts of 1 to
    127 literal bytes) whose results concatenate to [out]. *)
Theorem decode_spec (base stream out : bytes) :
  decode base stream = Some (Ok out) ↔
  (lenN base <= U32_MAX)%N ∧ (lenN out <= U32_MAX)%N ∧
  ∃ ops, ops_valid base ops = true ∧ out = ops_apply base ops ∧
         stream = write_header (lenN base) (lenN out) ++ ops_bytes ops.
Proof.
  split; [apply decode_sound|]. intros (Hb & Ho & ops & H). by eapply decode_complete.
Qed.

(** C3: a delta reconstructs its target. For every base and target of at most
    2^32 - 1 bytes the writer terminates with a stream, and decoding that stream
    against the base gives the target back; a longer base or target is refused
    with the length error. *)
Theorem encode_decode (base result : bytes) :
  if (lenN base <=? U32_MAX)%N && (lenN result <=? U32_MAX)%N
  then ∃ stream, encode base result = Some (Ok stream) ∧ decode base stream = Some (Ok result)
  else ∃ field n, encode base result = Some (Err (DeltaLengthOverflow field n)).
Proof.
  destruct (N.leb_spec (lenN base) U32_MAX) as [Hb|Hb]; cycle 1.
  { eexists _, _. unfold encode, check_length_bounds. by apply N.leb_gt in Hb as ->. }
  destruct (N.leb_spec (lenN result) U32_MAX) as [Hr|Hr]; cycle 1.
  { eexists _, _. unfold encode, check_length_bounds.
    apply N.leb_le in Hb as ->. by apply N.leb_gt in Hr as ->. }
  destruct (encode_Ok base result Hb Hr) as (ops & E & Hv & Ha & _).
  eexists. split; [exact E|]. by apply (decode_complete _ _ _ ops).
Qed.

(** The size of a delta. The stream is never longer than the nine header
    bytes, the target, and one byte for every started run of 127 target bytes. *)
Theorem encode_size (base result stream : bytes)
    (H : encode base result = Some (Ok stream)) :
  length stream <= HEADER_LEN + length result + (length result + 126) / 127.
Proof.
  assert ((lenN base <= U32_MAX)%N ∧ (lenN result <= U32_MAX)%N) as [Hb Hr].
  { unfold encode in H. destruct (check_length_bounds _ _) as [u|] eqn:E; [|done].
    by apply check_length_bounds_Ok in E. }
  destruct (encode_Ok base result Hb Hr) as (ops & E & _ & _ & Hs).
  assert (stream = write_header (lenN base) (lenN result) ++ ops_bytes ops) as -> by congruence.
  rewrite length_app, length_write_header. dlia.
Qed.

(** C5: decoding terminates on every stream, whatever its bytes, and a decoded
    target has exactly the length its header declares. *)
Theorem decode_total (base stream : bytes) :
  ∃ r, decode base stream = Some r ∧
       ∀ out, r = Ok out → lenN out = le_val (slice 5 4 stream).
Proof.
  unfold decode, decode_inner. destruct (decode_header base stream) as [rl|e] eqn:Hh.
  - assert (rl = le_val (slice 5 4 stream)) as ->.
    { unfold decode_header in Hh. by inv_ok. }
    apply decode_loop_total; cbn [dc_pos dc_out default]; [rewrite lenN_nil; lia|].
    unfold HEADER_LEN. lia.
  - by exists (Err e).
Qed.

(** The rolled hash is the block hash. Sliding the window by one byte with
    [roll_forward], in wrapping 64-bit arithmetic, gives the hash [block_hash]
    computes for the moved window. *)
Theorem roll_forward_correct (window : bytes) (new : byte)
    (Hw : length window = BLOCK_SIZE) :
  roll_forward (block_hash window) (byte_at window 0) new = block_hash (drop 1 window ++ [new]).
Proof.
  destruct window as [|old w]; [done|]. apply roll_forward_hash.
  rewrite length_drop. lia.
Qed.

(** ** Examples *)

Lemma encode_size_witness :
  ∃ stream, encode (b# "0123456789abcdef") (b# "x0123456789abcdefy") = Some (Ok stream) ∧
            length stream <= HEADER_LEN + 18 + (18 + 126) / 127.
Proof.
  set (base := b# "0123456789abcdef"). set (result := b# "x0123456789abcdefy").
  set (stream := match encode base result with Some (Ok s) => s | _ => [] end).
  assert (encode base result = Some (Ok stream)) as E by (vm_compute; reflexivity).
  exists stream. split; [exact E|]. exact (encode_size base result stream E).
Defined.

Lemma roll_forward_correct_witness :
  roll_forward (block_hash (b# "0123456789abcdef")) (byte_at (b# "0123456789abcdef") 0) Byte.x67
  = block_hash (drop 1 (b# "0123456789abcdef") ++ [Byte.x67]).
Proof. apply roll_forward_correct. reflexivity. Defined.
