(* ===== verification/Merkle.v ===== *)
(** * Merkle content addresses: [rust/crates/mkit-core/src/merkle.rs]

    The binary Merkle tree over an object's children: building every level,
    selecting the siblings of a proof, folding a proof back to the root, the
    leaf digests of trees and chunked blobs, the type-domain wrap that makes a
    root an object id, and the proof builders and verifiers stated against
    object ids. Positions and counts are [nat]; the source's [u32] bound is the
    explicit hypothesis of the theorems that need it, as [u32_of] panics above
    it. The wire form of a proof is [commonware_codec]'s and is not modelled. *)

From S2P Require Import Prelude Hash Object.

Definition CHUNKED_TYPE_DOMAIN : bytes := b# "mkit.chunked" ++ [Byte.x00].
Definition TREE_TYPE_DOMAIN : bytes := b# "mkit.tree" ++ [Byte.x00].
Definition CBLOB_META_DOMAIN : bytes := b# "mkit-cblob-meta-v1".
Definition TREE_ENTRY_DOMAIN : bytes := b# "mkit-tree-entry-v1".

Inductive ObjectKind := KTree | KChunkedBlob.

Definition type_domain (k : ObjectKind) : bytes :=
  match k with KTree => TREE_TYPE_DOMAIN | KChunkedBlob => CHUNKED_TYPE_DOMAIN end.

Inductive MerkleError :=
  | PositionOutOfRange (p : nat)
  | DuplicatePosition (p : nat)
  | NoPositions
  | InvalidRange (start end_ : nat)
  | MalformedProof
  | UnalignedProof
  | VerificationFailed.

#[export] Instance MerkleError_eq_dec : EqDecision MerkleError.
Proof. solve_decision. Defined.

Record Proof_ := { leaf_count : nat; siblings : list hash32 }.

(** [n.to_be_bytes()] of a [u32]. *)
Definition be32 (n : nat) : bytes := be_bytes 4 (N.of_nat n).

Definition div_ceil2 (n : nat) : nat := (n + 1) / 2.

(** [leaf_count.saturating_sub(1).bit_width() + 1]. *)
Definition levels_in_tree (leaf_count : nat) : nat :=
  N.to_nat (N.size (N.of_nat (leaf_count - 1))) + 1.

(** ** The siblings of a proof *)

(** Tuple order, as the source's [BTreeSet<(usize, usize)>]. *)
Definition pos_ltb (a b : nat * nat) : bool :=
  (a.1 <? b.1)%nat || ((a.1 =? b.1)%nat && (a.2 <? b.2)%nat).

(** Collect the requested positions, refusing the first bad one. *)
Fixpoint insert_positions (leaf_count : nat) (current positions : list nat)
    : result MerkleError (list nat) :=
  match positions with
  | [] => Ok current
  | pos :: positions =>
      _ ← ensure (pos <? leaf_count)%nat (PositionOutOfRange pos);
      _ ← ensure (negb (bool_decide (pos ∈ current))) (DuplicatePosition pos);
      insert_positions leaf_count (bt_insert Nat.ltb pos current) positions
  end.

Definition sibling_index (level_size index : nat) : nat :=
  if Nat.even index then (if (index + 1 <? level_size)%nat then index + 1 else index)
  else index - 1.

(** The sibling a level contributes for [index], when it is not itself proven. *)
Definition needed_sibling (current : list nat) (level level_size index : nat)
    : option (nat * nat) :=
  let s := sibling_index level_size index in
  if negb (s =? index)%nat && negb (bool_decide (s ∈ current)) then Some (level, s) else None.

(** The [for level in ..] loop of the multi-proof: [n] levels from [level]. *)
Fixpoint multi_levels (n level level_size : nat) (current : list nat)
    (acc : list (nat * nat)) : list (nat * nat) :=
  match n with
  | O => acc
  | S n =>
      let acc := foldl (λ s index,
                   match needed_sibling current level level_size index with
                   | Some x => bt_insert pos_ltb x s
                   | None => s
                   end) acc current in
      multi_levels n (S level) (div_ceil2 level_size)
        (bt_collect Nat.ltb (map (λ idx, idx / 2) current)) acc
  end.

Definition siblings_required_for_multi_proof (leaf_count : nat) (positions : list nat)
    : result MerkleError (list (nat * nat)) :=
  current ← insert_positions leaf_count [] positions;
  _ ← ensure (negb (bool_decide (current = []))) NoPositions;
  mret (multi_levels (levels_in_tree leaf_count - 1) 0 leaf_count current []).

Fixpoint range_levels (n level level_size level_start level_end : nat)
    (acc : list (nat * nat)) : list (nat * nat) :=
  match n with
  | O => acc
  | S n =>
      let acc := if Nat.even level_start then acc
                 else bt_insert pos_ltb (level, level_start - 1) acc in
      let acc := if Nat.even level_end && (level_end + 1 <? level_size)%nat
                 then bt_insert pos_ltb (level, level_end + 1) acc else acc in
      range_levels n (S level) (div_ceil2 level_size) (level_start / 2) (level_end / 2) acc
  end.

Definition siblings_required_for_range_proof (leaf_count start end_ : nat)
    : result MerkleError (list (nat * nat)) :=
  _ ← ensure (negb (leaf_count =? 0)%nat) NoPositions;
  _ ← ensure (start <=? end_)%nat (InvalidRange start end_);
  _ ← ensure (start <? leaf_count)%nat (PositionOutOfRange start);
  _ ← ensure (end_ <? leaf_count)%nat (PositionOutOfRange end_);
  mret (range_levels (levels_in_tree leaf_count - 1) 0 leaf_count start end_ []).

(** Wire size of a proof: the LEB128 prefix loop, whose count shrinks. *)
Fixpoint varint_len (fuel count : nat) : nat :=
  match fuel with
  | O => 1
  | S fuel => if (128 <=? count)%nat then S (varint_len fuel (count / 128)) else 1
  end.

Definition proof_encoded_size (leaf_count : nat) (positions : list nat)
    : result MerkleError nat :=
  s ← siblings_required_for_multi_proof leaf_count positions;
  mret (4 + varint_len (length s) (length s) + length s * 32).

(** ** The tree *)

Record BmtTree := {
  bt_leaf_count : nat;
  bt_empty : bool;
  bt_levels : list (list hash32);
  bt_root : hash32
}.

Section bmt.
Context `{Blake3}.

Definition h2 (a b : bytes) : hash32 :=
  Hasher_finalize (Hasher_update (Hasher_update Hasher_new a) b).

Definition h2h (a b : hash32) : hash32 := h2 (arr_bytes a) (arr_bytes b).

Definition position_leaf (index : nat) (leaf : hash32) : hash32 :=
  h2 (be32 index) (arr_bytes leaf).

(** One level up: [cur.chunks(2)], an odd last node paired with itself. *)
Fixpoint next_level (cur : list hash32) : list hash32 :=
  match cur with
  | a :: b :: cur => h2h a b :: next_level cur
  | [a] => [h2h a a]
  | [] => []
  end.

(** [while levels.last().len() > 1]: a level is shorter than the one below, so
    the length of the leaves is enough fuel ([levels_last]). *)
Fixpoint build_levels (fuel : nat) (cur : list hash32) : list (list hash32) :=
  match fuel with
  | O => [cur]
  | S fuel => if (1 <? length cur)%nat then cur :: build_levels fuel (next_level cur) else [cur]
  end.

Definition build_bmt (leaves : list hash32) : BmtTree :=
  let position_hashed :=
    match leaves with [] => [hash []] | _ => imap position_leaf leaves end in
  let levels := build_levels (length position_hashed) position_hashed in
  let tree_root := default ZERO (list.last levels ≫= head) in
  {| bt_leaf_count := length leaves;
     bt_empty := bool_decide (leaves = []);
     bt_levels := levels;
     bt_root := h2 (be32 (length leaves)) (arr_bytes tree_root) |}.

(** [self.levels[level][index]]; the source indexes in range. *)
Definition bt_node (t : BmtTree) (p : nat * nat) : hash32 :=
  default ZERO (bt_levels t !! p.1 ≫= λ l, l !! p.2).

Definition bt_multi_proof (t : BmtTree) (positions : list nat) : result MerkleError Proof_ :=
  first ← ok_or (head positions) NoPositions;
  _ ← ensure (negb (bt_empty t)) (PositionOutOfRange first);
  s ← siblings_required_for_multi_proof (bt_leaf_count t) positions;
  mret {| leaf_count := bt_leaf_count t; siblings := map (bt_node t) s |}.

Definition bt_proof (t : BmtTree) (position : nat) : result MerkleError Proof_ :=
  bt_multi_proof t [position].

Definition bt_range_proof (t : BmtTree) (start end_ : nat) : result MerkleError Proof_ :=
  _ ← ensure (negb (bt_empty t)) (PositionOutOfRange start);
  _ ← ensure (start <=? end_)%nat (InvalidRange start end_);
  _ ← ensure (start <? bt_leaf_count t)%nat (PositionOutOfRange start);
  _ ← ensure (end_ <? bt_leaf_count t)%nat (PositionOutOfRange end_);
  s ← siblings_required_for_range_proof (bt_leaf_count t) start end_;
  mret {| leaf_count := bt_leaf_count t; siblings := map (bt_node t) s |}.

(** ** Folding a proof *)

(** The [while level_size > 1] loop of the single-leaf fold; the level size
    shrinks, so it is also the fuel ([climb_eq]). *)
Fixpoint climb (fuel : nat) (computed : hash32) (position level_size : nat)
    (sibs : list hash32) : result MerkleError (hash32 * list hash32) :=
  match fuel with
  | O => Ok (computed, sibs)
  | S fuel =>
      if (1 <? level_size)%nat then
        if Nat.even position && (level_size <=? position + 1)%nat then
          climb fuel (h2h computed computed) (position / 2) (div_ceil2 level_size) sibs
        else
          match sibs with
          | [] => Err UnalignedProof
          | sib :: sibs =>
              climb fuel (if Nat.even position then h2h computed sib else h2h sib computed)
                (position / 2) (div_ceil2 level_size) sibs
          end
      else Ok (computed, sibs)
  end.

Definition reconstruct_element_root (p : Proof_) (leaf : hash32) (position : nat)
    : result MerkleError hash32 :=
  _ ← ensure (position <? leaf_count p)%nat (PositionOutOfRange position);
  '(computed, rest) ←
    climb (leaf_count p) (position_leaf position leaf) position (leaf_count p) (siblings p);
  _ ← ensure (bool_decide (rest = [])) UnalignedProof;
  mret (h2 (be32 (leaf_count p)) (arr_bytes computed)).

(** One level of the multi-leaf fold: the [while idx < current.len()] loop. *)
Fixpoint fold_level (level_size : nat) (current : list (nat * hash32)) (sibs : list hash32)
    : result MerkleError (list (nat * hash32) * list hash32) :=
  match current with
  | [] => Ok ([], sibs)
  | (pos, digest) :: rest =>
      if Nat.even pos then
        match rest with
        | (pos', digest') :: rest' =>
            if (pos' =? pos + 1)%nat then
              '(next, sibs) ← fold_level level_size rest' sibs;
              mret ((pos / 2, h2h digest digest') :: next, sibs)
            else if (level_size <=? pos + 1)%nat then
              '(next, sibs) ← fold_level level_size rest sibs;
              mret ((pos / 2, h2h digest digest) :: next, sibs)
            else
              match sibs with
              | [] => Err UnalignedProof
              | sib :: sibs =>
                  '(next, sibs) ← fold_level level_size rest sibs;
                  mret ((pos / 2, h2h digest sib) :: next, sibs)
              end
        | [] =>
            if (level_size <=? pos + 1)%nat then Ok ([(pos / 2, h2h digest digest)], sibs)
            else
              match sibs with
              | [] => Err UnalignedProof
              | sib :: sibs => Ok ([(pos / 2, h2h digest sib)], sibs)
              end
        end
      else
        match sibs with
        | [] => Err UnalignedProof
        | sib :: sibs =>
            '(next, sibs) ← fold_level level_size rest sibs;
            mret ((pos / 2, h2h sib digest) :: next, sibs)
        end
  end.

Fixpoint fold_levels (n level_size : nat) (current : list (nat * hash32)) (sibs : list hash32)
    : result MerkleError (list (nat * hash32) * list hash32) :=
  match n with
  | O => Ok (current, sibs)
  | S n =>
      '(current, sibs) ← fold_level level_size current sibs;
      fold_levels n (div_ceil2 level_size) current sibs
  end.

Definition pos_le (a b : nat * hash32) : Prop := a.1 <= b.1.

#[local] Instance pos_le_dec : RelDecision pos_le := λ a b, decide (a.1 <= b.1).

(** [sort_unstable_by_key(|(pos, _)| *pos)]: equal keys are refused next, so
    their order is not observable. *)
Definition sort_by_pos (l : list (nat * hash32)) : list (nat * hash32) :=
  merge_sort pos_le l.

(** The range check on every element, in order. *)
Fixpoint check_positions (leaf_count : nat) (elements : list (hash32 * nat))
    : result MerkleError unit :=
  match elements with
  | [] => Ok tt
  | (_, position) :: elements =>
      _ ← ensure (position <? leaf_count)%nat (PositionOutOfRange position);
      check_positions leaf_count elements
  end.

(** The first repeated position of the sorted elements. *)
Fixpoint check_distinct (sorted : list (nat * hash32)) : result MerkleError unit :=
  match sorted with
  | (p, _) :: ((q, _) :: _) as rest =>
      _ ← ensure (negb (p =? q)%nat) (DuplicatePosition q);
      check_distinct rest
  | _ => Ok tt
  end.

Definition reconstruct_multi_root (p : Proof_) (elements : list (hash32 * nat))
    : result MerkleError hash32 :=
  _ ← ensure (negb (bool_decide (elements = []))) NoPositions;
  _ ← check_positions (leaf_count p) elements;
  let sorted := sort_by_pos (map (λ '(leaf, pos), (pos, position_leaf pos leaf)) elements) in
  _ ← check_distinct sorted;
  '(current, rest) ←
    fold_levels (levels_in_tree (leaf_count p) - 1) (leaf_count p) sorted (siblings p);
  _ ← ensure (bool_decide (rest = [])) UnalignedProof;
  match current with
  | [(_, top)] => mret (h2 (be32 (leaf_count p)) (arr_bytes top))
  | _ => Err UnalignedProof
  end.

Definition reconstruct_range_root (p : Proof_) (position : nat) (leaves : list hash32)
    : result MerkleError hash32 :=
  _ ← (match leaves with
       | [] => ensure (position =? 0)%nat (PositionOutOfRange position)
       | _ =>
           let end_ := position + (length leaves - 1) in
           _ ← ensure (N.of_nat end_ <=? U32_MAX)%N (PositionOutOfRange position);
           ensure (end_ <? leaf_count p)%nat (PositionOutOfRange end_)
       end);
  reconstruct_multi_root p (imap (λ i l, (l, position + i)) leaves).

(** ** Leaves, inner roots and ids *)

Definition wrap_id (kind : ObjectKind) (inner_root : hash32) : hash32 :=
  domain_digest (type_domain kind) (arr_bytes inner_root).

Definition chunked_meta_leaf_raw (total_size chunk_size : N) : hash32 :=
  domain_digest CBLOB_META_DOMAIN (le_bytes 8 total_size ++ le_bytes 4 chunk_size).

Definition chunked_meta_leaf (cb : ChunkedBlob) : hash32 :=
  chunked_meta_leaf_raw (cb_total_size cb) (cb_chunk_size cb).

Definition tree_entry_body (e : TreeEntry) : bytes :=
  le_bytes 4 (lenN (te_name e)) ++ te_name e ++ EntryMode.to_u8 (te_mode e) :: arr_bytes (te_hash e).

Definition tree_entry_leaf (e : TreeEntry) : hash32 :=
  domain_digest TREE_ENTRY_DOMAIN (tree_entry_body e).

Definition chunked_leaves (cb : ChunkedBlob) : list hash32 := chunked_meta_leaf cb :: cb_chunks cb.
Definition tree_leaves (t : Tree) : list hash32 := map tree_entry_leaf (tree_entries t).

Definition chunked_inner_root (cb : ChunkedBlob) : hash32 := bt_root (build_bmt (chunked_leaves cb)).
Definition tree_inner_root (t : Tree) : hash32 := bt_root (build_bmt (tree_leaves t)).
Definition compute_chunked_id (cb : ChunkedBlob) : hash32 := wrap_id KChunkedBlob (chunked_inner_root cb).
Definition compute_tree_id (t : Tree) : hash32 := wrap_id KTree (tree_inner_root t).

(** ** Builders and verifiers *)

Definition build_chunk_proof (cb : ChunkedBlob) (position : nat) : result MerkleError Proof_ :=
  bt_proof (build_bmt (chunked_leaves cb)) position.
Definition build_chunks_range_proof (cb : ChunkedBlob) (start end_ : nat) : result MerkleError Proof_ :=
  bt_range_proof (build_bmt (chunked_leaves cb)) start end_.
Definition build_chunks_multi_proof (cb : ChunkedBlob) (positions : list nat) : result MerkleError Proof_ :=
  bt_multi_proof (build_bmt (chunked_leaves cb)) positions.
Definition build_tree_entry_proof (t : Tree) (position : nat) : result MerkleError Proof_ :=
  bt_proof (build_bmt (tree_leaves t)) position.
Definition build_tree_entries_range_proof (t : Tree) (start end_ : nat) : result MerkleError Proof_ :=
  bt_range_proof (build_bmt (tree_leaves t)) start end_.
Definition build_tree_entries_multi_proof (t : Tree) (positions : list nat) : result MerkleError Proof_ :=
  bt_multi_proof (build_bmt (tree_leaves t)) positions.

Definition check_wrapped (kind : ObjectKind) (root expected_id : hash32) : result MerkleError unit :=
  if bool_decide (wrap_id kind root = expected_id) then Ok tt else Err VerificationFailed.

Definition verify_tree_entry (tree_id : hash32) (entry : TreeEntry) (position : nat) (p : Proof_)
    : result MerkleError unit :=
  root ← reconstruct_element_root p (tree_entry_leaf entry) position;
  check_wrapped KTree root tree_id.

Definition verify_tree_entries_range (tree_id : hash32) (start : nat) (entries : list TreeEntry)
    (p : Proof_) : result MerkleError unit :=
  root ← reconstruct_range_root p start (map tree_entry_leaf entries);
  check_wrapped KTree root tree_id.

Definition verify_tree_entries_multi (tree_id : hash32) (entries : list (TreeEntry * nat))
    (p : Proof_) : result MerkleError unit :=
  root ← reconstruct_multi_root p (map (λ '(e, pos), (tree_entry_leaf e, pos)) entries);
  check_wrapped KTree root tree_id.

Definition verify_chunk (chunked_id chunk_hash : hash32) (position : nat) (p : Proof_)
    : result MerkleError unit :=
  _ ← ensure (negb (position =? 0)%nat) (PositionOutOfRange 0);
  root ← reconstruct_element_root p chunk_hash position;
  check_wrapped KChunkedBlob root chunked_id.

Definition verify_chunks_range (chunked_id : hash32) (start : nat) (chunk_hashes : list hash32)
    (p : Proof_) : result MerkleError unit :=
  _ ← ensure (negb (start =? 0)%nat) (PositionOutOfRange 0);
  root ← reconstruct_range_root p start chunk_hashes;
  check_wrapped KChunkedBlob root chunked_id.

Definition verify_chunks_multi (chunked_id : hash32) (chunks : list (hash32 * nat)) (p : Proof_)
    : result MerkleError unit :=
  _ ← ensure (negb (existsb (λ c, (c.2 =? 0)%nat) chunks)) (PositionOutOfRange 0);
  root ← reconstruct_multi_root p chunks;
  check_wrapped KChunkedBlob root chunked_id.

Definition verify_chunk_with_meta_leaf (chunked_id : hash32) (total_size chunk_size : N)
    (chunk_hash : hash32) (chunk_position : nat) (p : Proof_) : result MerkleError unit :=
  _ ← ensure (negb (chunk_position =? 0)%nat) (PositionOutOfRange 0);
  let meta_leaf := chunked_meta_leaf_raw total_size chunk_size in
  root ← reconstruct_multi_root p [(meta_leaf, 0); (chunk_hash, chunk_position)];
  check_wrapped KChunkedBlob root chunked_id.
End bmt.

(** Positions by content. *)
Fixpoint position_of {A} (f : A → bool) (l : list A) : option nat :=
  match l with
  | [] => None
  | x :: l => if f x then Some 0 else S <$> position_of f l
  end.

Definition chunk_position (cb : ChunkedBlob) (chunk_hash : hash32) : option nat :=
  (λ i, i + 1) <$> position_of (λ c, bool_decide (c = chunk_hash)) (cb_chunks cb).

Definition tree_entry_position (t : Tree) (name : bytes) : option nat :=
  position_of (λ e, bytes_eqb (te_name e) name) (tree_entries t).
