(* ===== verification/MerkleFacts.v ===== *)
(** * Merkle proofs are complete and sound

    Facts about [Merkle.v]: the shape of the built tree, the sibling selection
    as one list per level, completeness of the multi-leaf fold for it, the
    single-leaf and range folds as instances of the multi-leaf one, and
    soundness up to an explicit hash collision: [collides xs ys] holds when one
    input hashed by the builder and a different one hashed by the verifier have
    the same digest. *)

From S2P Require Import Prelude Hash Object Merkle.

(** ** Level arithmetic *)

Lemma even_mod n : Nat.even n = (n mod 2 =? 0)%nat.
Proof.
  destruct (Nat.even n) eqn:E; symmetry.
  - apply Nat.even_spec in E as [k ->]. apply Nat.eqb_eq. dlia.
  - apply Nat.eqb_neq. intros H. assert (Nat.even n = true); [|congruence].
    apply Nat.even_spec. exists (n / 2). dlia.
Qed.

(** Turn the parity test into arithmetic. *)
Ltac parity p E :=
  rewrite (even_mod p) in *; destruct (Nat.eqb_spec (p mod 2) 0) as [E|E].

Lemma div_ceil2_lt n : 1 < n → div_ceil2 n < n.
Proof. unfold div_ceil2. dlia. Qed.

Lemma N_size_half n : (n ≠ 0)%N → N.size n = N.succ (N.size (n / 2)).
Proof.
  intros Hn. rewrite <- N.div2_div. destruct n as [|[p|p|]]; done.
Qed.

Lemma levels_in_tree_step n : 1 < n → levels_in_tree n = S (levels_in_tree (div_ceil2 n)).
Proof.
  intros Hn. unfold levels_in_tree. rewrite (N_size_half (N.of_nat (n - 1))) by lia.
  replace (N.of_nat (n - 1) / 2)%N with (N.of_nat (div_ceil2 n - 1)) by (unfold div_ceil2; dlia).
  lia.
Qed.

Lemma levels_in_tree_1 n : n <= 1 → levels_in_tree n = 1.
Proof. intros Hn. unfold levels_in_tree. by replace (n - 1) with 0 by lia. Qed.

Section bmt.
Context `{B : Blake3}.

Lemma list_pair_ind {A} (P : list A → Prop) :
  P [] → (∀ a, P [a]) → (∀ a b l, P l → P (a :: b :: l)) → ∀ l, P l.
Proof.
  intros H0 H1 H2. enough (∀ l, P l ∧ ∀ a, P (a :: l)) by (intros; by apply H).
  induction l as [|b l [IH1 IH2]]; split; auto.
Qed.

Lemma length_next_level cur : length (next_level cur) = div_ceil2 (length cur).
Proof.
  unfold div_ceil2. induction cur as [|a|a b l IH] using list_pair_ind; [done..|].
  cbn [next_level length]. rewrite IH. dlia.
Qed.

Lemma next_level_lookup cur i :
  i < div_ceil2 (length cur) →
  ∃ a, cur !! (2 * i) = Some a ∧ next_level cur !! i = Some (h2h a (default a (cur !! (2 * i + 1)))).
Proof.
  revert i. induction cur as [|a|a b l IH] using list_pair_ind; intros i Hi.
  - unfold div_ceil2 in Hi. simpl in Hi. lia.
  - assert (i = 0) as -> by (unfold div_ceil2 in Hi; simpl in Hi; dlia). by exists a.
  - destruct i as [|i]; [by exists a|].
    destruct (IH i) as (x & Hx & Hn).
    { unfold div_ceil2 in *. cbn [length] in Hi. dlia. }
    exists x. replace (2 * S i) with (S (S (2 * i))) by lia.
    replace (S (S (2 * i)) + 1) with (S (S (2 * i + 1))) by lia. done.
Qed.

(** The levels from [cur] up to the single root. *)
Inductive chain : list hash32 → list (list hash32) → Prop :=
  | chain_root x : chain [x] [[x]]
  | chain_up cur levels :
      1 < length cur → chain (next_level cur) levels → chain cur (cur :: levels).

Lemma build_levels_chain fuel : ∀ cur,
  1 <= length cur <= fuel → chain cur (build_levels fuel cur).
Proof.
  induction fuel as [|fuel IH]; intros cur Hl; [lia|]. cbn [build_levels].
  destruct (Nat.ltb_spec 1 (length cur)) as [H1|H1].
  - constructor; [done|]. apply IH. rewrite length_next_level.
    pose proof (div_ceil2_lt (length cur) H1). unfold div_ceil2 in *. dlia.
  - destruct cur as [|x [|]]; simpl in *; try lia. constructor.
Qed.

Lemma chain_length cur levels : chain cur levels → length levels = levels_in_tree (length cur).
Proof.
  induction 1 as [x|cur levels Hl _ IH]; [done|]. cbn [length].
  by rewrite levels_in_tree_step, IH, length_next_level.
Qed.

Lemma chain_head cur levels : chain cur levels → head levels = Some cur.
Proof. by destruct 1. Qed.

Lemma chain_last cur levels : chain cur levels → ∃ top, list.last levels = Some [top].
Proof.
  induction 1 as [x|cur levels Hl Hc [top IH]]; [by exists x|].
  exists top. destruct levels; [inv Hc|done].
Qed.

(** ** One level of a proof *)

Lemma level_ind (P : list nat → Prop) :
  P [] →
  (∀ p rest, Nat.even p = true → P rest → P (p :: p + 1 :: rest)) →
  (∀ p rest, Nat.even p = true → head rest ≠ Some (p + 1) → P rest → P (p :: rest)) →
  (∀ p rest, Nat.even p = false → P rest → P (p :: rest)) →
  ∀ ps, P ps.
Proof.
  intros H0 Hpair Halone Hodd ps.
  remember (length ps) as n eqn:E. revert ps E.
  induction (lt_wf n) as [n _ IH]. intros [|p rest] ->; [done|].
  destruct (Nat.even p) eqn:Ep.
  - destruct (decide (head rest = Some (p + 1))) as [Hh|Hh].
    + destruct rest as [|q rest]; [done|]. simpl in Hh. injection Hh as ->.
      apply Hpair; [done|]. eapply IH; [|done]. simpl. lia.
    + apply Halone; [done..|]. eapply IH; [|done]. simpl. lia.
  - apply Hodd; [done|]. eapply IH; [|done]. simpl. lia.
Qed.

(** The parents of a level's proven positions, each with the sibling it needs. *)
Fixpoint groups (size : nat) (ps : list nat) : list (nat * option nat) :=
  match ps with
  | [] => []
  | p :: rest =>
      if Nat.even p then
        match rest with
        | q :: rest' =>
            if (q =? p + 1)%nat then (p / 2, None) :: groups size rest'
            else (p / 2, if (size <=? p + 1)%nat then None else Some (p + 1)) :: groups size rest
        | [] => [(p / 2, if (size <=? p + 1)%nat then None else Some (p + 1))]
        end
      else (p / 2, Some (p - 1)) :: groups size rest
  end.

Definition parents (size : nat) (ps : list nat) : list nat := map fst (groups size ps).
Definition sibs_of (size : nat) (ps : list nat) : list nat := omap snd (groups size ps).

Lemma groups_pair size p rest :
  Nat.even p = true → groups size (p :: p + 1 :: rest) = (p / 2, None) :: groups size rest.
Proof. intros E. cbn [groups]. by rewrite E, Nat.eqb_refl. Qed.

Lemma groups_alone size p rest :
  Nat.even p = true → head rest ≠ Some (p + 1) →
  groups size (p :: rest) =
  (p / 2, if (size <=? p + 1)%nat then None else Some (p + 1)) :: groups size rest.
Proof.
  intros E Hh. cbn [groups]. rewrite E. destruct rest as [|q rest]; [done|].
  destruct (Nat.eqb_spec q (p + 1)) as [->|]; [done|done].
Qed.

Lemma groups_odd size p rest :
  Nat.even p = false → groups size (p :: rest) = (p / 2, Some (p - 1)) :: groups size rest.
Proof. intros E. cbn [groups]. by rewrite E. Qed.

Abbreviation sorted := (StronglySorted (λ a b : nat, (a <? b)%nat = true)).

Lemma sorted_cons p rest : sorted (p :: rest) → sorted rest ∧ ∀ q, q ∈ rest → p < q.
Proof.
  intros [Hs Hp]%StronglySorted_inv. split; [done|]. intros q Hq.
  rewrite list.Forall_forall in Hp. by apply Nat.ltb_lt, Hp.
Qed.

Lemma parents_elem size ps q : q ∈ parents size ps ↔ ∃ p, p ∈ ps ∧ q = p / 2.
Proof.
  unfold parents. induction ps as [|p rest E IH|p rest E Hh IH|p rest E IH] using level_ind.
  - set_solver.
  - rewrite groups_pair by done. cbn [map fst]. rewrite elem_of_cons, IH.
    assert ((p + 1) / 2 = p / 2) as Ediv by (rewrite even_mod in E; apply Nat.eqb_eq in E; dlia).
    set_solver.
  - rewrite groups_alone by done. cbn [map fst]. rewrite elem_of_cons, IH. set_solver.
  - rewrite groups_odd by done. cbn [map fst]. rewrite elem_of_cons, IH. set_solver.
Qed.

Lemma sorted_tail p rest : sorted (p :: rest) → sorted rest.
Proof. by intros [? _]%sorted_cons. Qed.

(** An even position whose partner is not next has no partner at all. *)
Lemma alone_gap p rest :
  sorted (p :: rest) → head rest ≠ Some (p + 1) → ∀ q, q ∈ rest → p + 1 < q.
Proof.
  intros Hs Hh q Hq. apply sorted_cons in Hs as [Hs Hp].
  destruct rest as [|r rest]; [set_solver|]. apply sorted_cons in Hs as [_ Hr].
  assert (p < r) by (apply Hp; set_solver). assert (r ≠ p + 1) by (intros ->; done).
  apply elem_of_cons in Hq as [->|Hq%Hr]; lia.
Qed.

Lemma pair_gap p rest : sorted (p :: p + 1 :: rest) → ∀ q, q ∈ rest → p + 1 < q.
Proof. intros [Hs _]%sorted_cons. apply sorted_cons, Hs. Qed.

Lemma sorted_intro p rest : sorted rest → (∀ q, q ∈ rest → p < q) → sorted (p :: rest).
Proof.
  intros Hs H. constructor; [done|]. rewrite list.Forall_forall. intros q Hq.
  by apply Nat.ltb_lt, H.
Qed.

Lemma parents_sorted size ps : sorted ps → sorted (parents size ps).
Proof.
  induction ps as [|p rest E IH|p rest E Hh IH|p rest E IH] using level_ind; intros Hs.
  - constructor.
  - unfold parents. rewrite groups_pair by done. cbn [map fst]. apply sorted_intro.
    { exact (IH (sorted_tail _ _ (sorted_tail _ _ Hs))). }
    intros q (p' & Hp' & ->)%parents_elem. apply (pair_gap _ _ Hs) in Hp'.
    rewrite even_mod in E. apply Nat.eqb_eq in E. dlia.
  - unfold parents. rewrite groups_alone by done. cbn [map fst]. apply sorted_intro.
    { exact (IH (sorted_tail _ _ Hs)). }
    intros q (p' & Hp' & ->)%parents_elem. apply (alone_gap _ _ Hs Hh) in Hp'.
    rewrite even_mod in E. apply Nat.eqb_eq in E. dlia.
  - unfold parents. rewrite groups_odd by done. cbn [map fst]. apply sorted_cons in Hs as [Hs Hp].
    apply sorted_intro; [by apply IH|].
    intros q (p' & Hp'%Hp & ->)%parents_elem.
    rewrite even_mod in E. apply Nat.eqb_neq in E. dlia.
Qed.

Lemma sibling_cases size p :
  (Nat.even p = true ∧ p + 1 < size ∧ sibling_index size p = p + 1) ∨
  (Nat.even p = true ∧ size <= p + 1 ∧ sibling_index size p = p) ∨
  (Nat.even p = false ∧ sibling_index size p = p - 1).
Proof.
  unfold sibling_index. destruct (Nat.even p); [|by auto].
  destruct (Nat.ltb_spec (p + 1) size); auto.
Qed.

(** The sibling of a later position is not an earlier one. *)
Lemma sibling_later size p q :
  p < q → (Nat.even p = true → p + 1 < q) →
  sibling_index size q ≠ p ∧ (Nat.even p = true → sibling_index size q ≠ p + 1).
Proof.
  rewrite (even_mod p). intros Hq Hp.
  destruct (sibling_cases size q) as [(E' & ? & ->)|[(E' & ? & ->)|(E' & ->)]];
    rewrite even_mod in E'; destruct (Nat.eqb_spec (p mod 2) 0) as [E|E];
    try specialize (Hp eq_refl); try apply Nat.eqb_neq in E'; split; intros; dlia.
Qed.

(** The sibling positions a level needs: those of proven positions, other than
    the position itself and the positions that are proven too. *)
Lemma sibs_elem size ps s :
  sorted ps →
  s ∈ sibs_of size ps ↔
  ∃ p, p ∈ ps ∧ s = sibling_index size p ∧ s ≠ p ∧ s ∉ ps.
Proof.
  unfold sibs_of.
  induction ps as [|p rest E IH|p rest E Hh IH|p rest E IH] using level_ind; intros Hs.
  - set_solver.
  - rewrite groups_pair by done. change (omap snd ((?a, None) :: ?l)) with (omap snd l).
    pose proof (pair_gap _ _ Hs) as Hgap.
    rewrite IH by (exact (sorted_tail _ _ (sorted_tail _ _ Hs))). setoid_rewrite not_elem_of_cons.
    setoid_rewrite not_elem_of_cons. setoid_rewrite elem_of_cons. setoid_rewrite elem_of_cons.
    assert (sibling_index size (p + 1) = p) as Hsp.
    { unfold sibling_index. rewrite even_mod in *. apply Nat.eqb_eq in E.
      destruct (Nat.eqb_spec ((p + 1) mod 2) 0); dlia. }
    split.
    + intros (q & Hq & -> & Hn & Hni). exists q.
      destruct (sibling_later size p q) as [H1 H2]; [specialize (Hgap _ Hq); lia|auto|].
      auto 10.
    + intros (q & [->|[->|Hq]] & -> & Hn & H1 & H2 & Hni); [| |by exists q].
      * destruct (sibling_cases size p) as [(_ & _ & ?)|[(_ & _ & ?)|(? & _)]]; congruence.
      * congruence.
  - rewrite groups_alone by done. pose proof (alone_gap _ _ Hs Hh) as Hgap.
    pose proof (sorted_tail _ _ Hs) as Hs'. specialize (IH Hs').
    assert (∀ q, q ∈ rest → sibling_index size q ≠ p) as Hlater.
    { intros q Hq. apply sibling_later; [specialize (Hgap _ Hq); lia|auto]. }
    setoid_rewrite not_elem_of_cons. setoid_rewrite elem_of_cons.
    destruct (sibling_cases size p) as [(_ & Hsz & Hsib)|[(_ & Hsz & Hsib)|(? & _)]]; [| |congruence].
    + replace (size <=? p + 1)%nat with false by (symmetry; apply Nat.leb_gt; lia).
      change (omap snd ((?a, Some ?b) :: ?l)) with (b :: omap snd l). rewrite elem_of_cons, IH. split.
      * intros [->|(q & Hq & -> & Hn & Hni)]; [|by exists q; auto 10].
        exists p. rewrite Hsib. split; [by left|]. split; [done|]. split; [lia|].
        split; [lia|]. intros Hp. specialize (Hgap _ Hp). lia.
      * intros (q & [->|Hq] & -> & Hn & H1 & Hni); [by left|right; by exists q].
    + replace (size <=? p + 1)%nat with true by (symmetry; apply Nat.leb_le; lia).
      change (omap snd ((?a, None) :: ?l)) with (omap snd l). rewrite IH. split.
      * intros (q & Hq & -> & Hn & Hni). exists q. auto 10.
      * intros (q & [->|Hq] & -> & Hn & H1 & Hni); [congruence|by exists q].
  - rewrite groups_odd by done. pose proof (sorted_cons _ _ Hs) as [Hs' Hgap]. specialize (IH Hs').
    assert (∀ q, q ∈ rest → sibling_index size q ≠ p) as Hlater.
    { intros q Hq. apply sibling_later; [by apply Hgap|congruence]. }
    change (omap snd ((?a, Some ?b) :: ?l)) with (b :: omap snd l).
    setoid_rewrite not_elem_of_cons. setoid_rewrite elem_of_cons.
    assert (sibling_index size p = p - 1) as Hsib by (unfold sibling_index; by rewrite E).
    rewrite IH.
    assert (0 < p) by (destruct p; [done|lia]). split.
    + intros [->|(q & Hq & -> & Hn & Hni)]; [|by exists q; auto 10].
      exists p. split; [by left|]. split; [done|]. split; [lia|]. split; [lia|].
      intros Hp. specialize (Hgap _ Hp). lia.
    + intros (q & [->|Hq] & -> & Hn & H1 & Hni); [by left|right; by exists q].
Qed.

Lemma sibs_sorted size ps : sorted ps → sorted (sibs_of size ps).
Proof.
  unfold sibs_of.
  induction ps as [|p rest E IH|p rest E Hh IH|p rest E IH] using level_ind; intros Hs.
  - constructor.
  - rewrite groups_pair by done. exact (IH (sorted_tail _ _ (sorted_tail _ _ Hs))).
  - rewrite groups_alone by done. pose proof (sorted_tail _ _ Hs) as Hs'.
    destruct (size <=? p + 1)%nat; [exact (IH Hs')|].
    change (omap snd ((?a, Some ?b) :: ?l)) with (b :: omap snd l).
    apply sorted_intro; [exact (IH Hs')|].
    intros s' (q & Hq & -> & _)%sibs_elem; [|done].
    pose proof (alone_gap _ _ Hs Hh _ Hq). rewrite even_mod in E. apply Nat.eqb_eq in E.
    destruct (sibling_cases size q) as [(_ & _ & ->)|[(_ & _ & ->)|(E' & ->)]];
      [lia|lia|]. rewrite even_mod in E'. apply Nat.eqb_neq in E'. dlia.
  - rewrite groups_odd by done. apply sorted_cons in Hs as [Hs Hgap].
    change (omap snd ((?a, Some ?b) :: ?l)) with (b :: omap snd l).
    apply sorted_intro; [exact (IH Hs)|].
    intros s' (q & Hq%Hgap & -> & _)%sibs_elem; [|done].
    assert (0 < p) by (destruct p; [done|lia]).
    destruct (sibling_cases size q) as [(_ & _ & ->)|[(_ & _ & ->)|(E' & ->)]]; lia.
Qed.

(** ** Completeness of one level *)

Definition node (l : list hash32) (p : nat) : hash32 := default ZERO (l !! p).

Definition tag_nodes (l : list hash32) (ps : list nat) : list (nat * hash32) :=
  map (λ p, (p, node l p)) ps.

Lemma tag_nodes_cons l p ps : tag_nodes l (p :: ps) = (p, node l p) :: tag_nodes l ps.
Proof. done. Qed.

Lemma node_next l p :
  p < length l →
  node (next_level l) (p / 2) =
  if Nat.even p
  then h2h (node l p) (if (length l <=? p + 1)%nat then node l p else node l (p + 1))
  else h2h (node l (p - 1)) (node l p).
Proof.
  intros Hp. destruct (next_level_lookup l (p / 2)) as (a & Ha & Hn).
  { unfold div_ceil2. dlia. }
  unfold node. rewrite Hn, even_mod. clear Hn.
  destruct (Nat.eqb_spec (p mod 2) 0) as [E|E].
  - replace (2 * (p / 2)) with p in * by dlia.
    rewrite Ha. simpl. destruct (Nat.leb_spec (length l) (p + 1)) as [H|H].
    + by rewrite (lookup_ge_None_2 l (p + 1)).
    + destruct (lookup_lt_is_Some_2 l (p + 1) H) as [b ->]. done.
  - replace (2 * (p / 2)) with (p - 1) in * by dlia. rewrite Ha.
    replace (p - 1 + 1) with p by lia.
    destruct (lookup_lt_is_Some_2 l p Hp) as [b ->]. done.
Qed.

(** The three shapes of a step of the multi-leaf fold. *)
Lemma fold_level_pair size p d d' rest sibs :
  Nat.even p = true →
  fold_level size ((p, d) :: (p + 1, d') :: rest) sibs =
  ('(next, sibs) ← fold_level size rest sibs; mret ((p / 2, h2h d d') :: next, sibs)).
Proof. intros E. cbn [fold_level]. by rewrite E, Nat.eqb_refl. Qed.

Lemma fold_level_alone size p d rest sibs :
  Nat.even p = true → head (map fst rest) ≠ Some (p + 1) →
  fold_level size ((p, d) :: rest) sibs =
  (if (size <=? p + 1)%nat then
     '(next, sibs) ← fold_level size rest sibs; mret ((p / 2, h2h d d) :: next, sibs)
   else match sibs with
        | [] => Err UnalignedProof
        | sib :: sibs =>
            '(next, sibs) ← fold_level size rest sibs; mret ((p / 2, h2h d sib) :: next, sibs)
        end).
Proof.
  intros E Hh. cbn [fold_level]. rewrite E. destruct rest as [|[q d'] rest].
  - destruct (size <=? p + 1)%nat; [done|]. by destruct sibs.
  - simpl in Hh. by destruct (Nat.eqb_spec q (p + 1)) as [->|].
Qed.

Lemma fold_level_odd size p d rest sibs :
  Nat.even p = false →
  fold_level size ((p, d) :: rest) sibs =
  match sibs with
  | [] => Err UnalignedProof
  | sib :: sibs =>
      '(next, sibs) ← fold_level size rest sibs; mret ((p / 2, h2h sib d) :: next, sibs)
  end.
Proof. intros E. cbn [fold_level]. by rewrite E. Qed.

Lemma head_tag_nodes l ps : head (map fst (tag_nodes l ps)) = head ps.
Proof. by destruct ps. Qed.

Lemma fold_level_complete l ps rest :
  (∀ p, p ∈ ps → p < length l) →
  fold_level (length l) (tag_nodes l ps) (map (node l) (sibs_of (length l) ps) ++ rest) =
  Ok (tag_nodes (next_level l) (parents (length l) ps), rest).
Proof.
  unfold sibs_of, parents.
  induction ps as [|p ps E IH|p ps E Hh IH|p ps E IH] using level_ind; intros Hlt.
  - done.
  - rewrite groups_pair by done. cbn [map fst]. rewrite !tag_nodes_cons.
        change (omap snd ((?a, None) :: ?l)) with (omap snd l).
    rewrite fold_level_pair by done. rewrite IH by set_solver.
    cbn [mbind result_bind fst]. unfold mret, result_ret. do 3 f_equal.
    rewrite node_next, E by (apply Hlt; set_solver).
    destruct (Nat.leb_spec (length l) (p + 1)) as [H|]; [|done].
    assert (p + 1 < length l) by (apply Hlt; set_solver). lia.
  - rewrite groups_alone by done. cbn [map fst]. rewrite !tag_nodes_cons.
    rewrite fold_level_alone by (first [done|by rewrite head_tag_nodes]).
    destruct (Nat.leb_spec (length l) (p + 1)) as [H|H].
    + change (omap snd ((?a, None) :: ?l)) with (omap snd l). rewrite IH by set_solver.
      cbn [mbind result_bind fst]. unfold mret, result_ret. do 3 f_equal.
      rewrite node_next, E by (apply Hlt; set_solver).
      by apply Nat.leb_le in H as ->.
    + change (omap snd ((?a, Some ?b) :: ?l)) with (b :: omap snd l). cbn [map app].
      rewrite IH by set_solver.
      cbn [mbind result_bind fst]. unfold mret, result_ret. do 3 f_equal.
      rewrite node_next, E by (apply Hlt; set_solver).
      by apply Nat.leb_gt in H as ->.
  - rewrite groups_odd by done. cbn [map fst]. rewrite !tag_nodes_cons.
    change (omap snd ((?a, Some ?b) :: ?l)) with (b :: omap snd l). cbn [map app].
    rewrite fold_level_odd by done. rewrite IH by set_solver.
    cbn [mbind result_bind fst]. unfold mret, result_ret. do 3 f_equal.
    by rewrite node_next, E by (apply Hlt; set_solver).
Qed.

(** ** The sibling selection, level by level *)

Lemma pos_ltb_spec a b : pos_ltb a b = true ↔ a.1 < b.1 ∨ (a.1 = b.1 ∧ a.2 < b.2).
Proof.
  unfold pos_ltb. rewrite orb_true_iff, andb_true_iff, !Nat.ltb_lt, Nat.eqb_eq. done.
Qed.
#[local] Instance pos_ltb_strict : StrictOrd pos_ltb.
Proof.
  split.
  - intros x. rewrite pos_ltb_spec. lia.
  - intros x y z. rewrite !pos_ltb_spec. lia.
  - intros x y. rewrite !pos_ltb_spec. destruct x as [a b], y as [c d]; simpl.
    destruct (decide (a = c)) as [->|]; [|lia].
    destruct (decide (b = d)) as [->|]; [auto|lia].
Qed.

Abbreviation sorted2 := (StronglySorted (λ a b, pos_ltb a b = true)).

(** The siblings of [n] levels from [level], in the order a fold uses them. *)
Fixpoint spec_sibs (n level size : nat) (ps : list nat) : list (nat * nat) :=
  match n with
  | O => []
  | S n => map (pair level) (sibs_of size ps)
           ++ spec_sibs n (S level) (div_ceil2 size) (parents size ps)
  end.

Lemma spec_sibs_level n : ∀ level size ps x, x ∈ spec_sibs n level size ps → level <= x.1.
Proof.
  induction n as [|n IH]; intros level size ps x; cbn [spec_sibs]; [set_solver|].
  rewrite elem_of_app. intros [(s & -> & _)%list_elem_of_fmap|H%IH]; simpl; lia.
Qed.

Lemma map_pair_sorted level l : sorted l → sorted2 (map (pair level) l).
Proof.
  intros Hs. eapply (StronglySorted_fmap (pair level)); [|exact Hs].
  intros x y H%Nat.ltb_lt. apply pos_ltb_spec. simpl. lia.
Qed.

(** Adding siblings of a later level appends them. *)
Lemma append_level acc level l :
  sorted2 acc → sorted l → (∀ x, x ∈ acc → x.1 < level) → sorted2 (acc ++ map (pair level) l).
Proof.
  intros Ha Hl Hlt. apply StronglySorted_app_2; [|done|by apply map_pair_sorted].
  intros x y Hx%Hlt (s & -> & _)%list_elem_of_fmap. apply pos_ltb_spec. simpl. lia.
Qed.

Lemma needed_sibling_elem current level size z :
  sorted current →
  (∃ p, p ∈ current ∧ needed_sibling current level size p = Some z) ↔
  z ∈ map (pair level) (sibs_of size current).
Proof.
  intros Hs. rewrite (list_elem_of_fmap (pair level)). unfold needed_sibling. split.
  - intros (p & Hp & H). case_match eqn:E; [|done]. injection H as <-.
    apply andb_true_iff in E as [E1%negb_true_iff%Nat.eqb_neq
      E2%negb_true_iff%bool_decide_eq_false].
    exists (sibling_index size p). split; [done|]. apply sibs_elem; [done|]. by exists p.
  - intros (s' & -> & (p & Hp & -> & H1 & H2)%sibs_elem); [|done]. exists p. split; [done|].
    rewrite bool_decide_eq_false_2 by done. by apply Nat.eqb_neq in H1 as ->.
Qed.

Lemma parents_collect size ps :
  sorted ps → bt_collect Nat.ltb (map (λ idx, idx / 2) ps) = parents size ps.
Proof.
  intros Hs. apply (bt_unique Nat.ltb).
  - apply (bt_collect_sorted Nat.ltb).
  - by apply parents_sorted.
  - intros z. rewrite (bt_collect_elem Nat.ltb), parents_elem.
    rewrite (list_elem_of_fmap (λ idx, idx / 2)). naive_solver.
Qed.

Lemma multi_levels_spec n : ∀ level size ps acc,
  sorted ps → sorted2 acc → (∀ x, x ∈ acc → x.1 < level) →
  multi_levels n level size ps acc = acc ++ spec_sibs n level size ps.
Proof.
  induction n as [|n IH]; intros level size ps acc Hs Ha Hlt; cbn [multi_levels spec_sibs].
  { by rewrite app_nil_r. }
  set (acc' := foldl _ acc ps). assert (acc' = acc ++ map (pair level) (sibs_of size ps)) as ->.
  { pose proof (sibs_sorted size ps Hs) as Hss.
    apply (bt_unique pos_ltb).
    - by apply (bt_fold_sorted pos_ltb (needed_sibling ps level size)).
    - by apply append_level.
    - intros z. unfold acc'.
      rewrite (bt_fold_elem pos_ltb (needed_sibling ps level size)).
      by rewrite (needed_sibling_elem _ _ _ _ Hs), elem_of_app. }
  rewrite (parents_collect size) by done. rewrite IH.
  - by rewrite app_assoc.
  - by apply parents_sorted.
  - apply append_level; [done|by apply sibs_sorted|done].
  - intros x. rewrite elem_of_app. intros [H%Hlt|(s' & -> & _)%list_elem_of_fmap]; simpl; lia.
Qed.

(** ** Completeness of the whole fold *)

Lemma parents_lt size ps q :
  (∀ p, p ∈ ps → p < size) → q ∈ parents size ps → q < div_ceil2 size.
Proof. intros H (p & Hp%H & ->)%parents_elem. unfold div_ceil2. dlia. Qed.

Lemma parents_nonempty size ps : ps ≠ [] → parents size ps ≠ [].
Proof.
  intros H E. destruct ps as [|p ps]; [done|].
  assert (p / 2 ∈ parents size (p :: ps)) as Hin by (apply parents_elem; exists p; set_solver).
  rewrite E in Hin. set_solver.
Qed.

Lemma sorted_lt_1 ps : sorted ps → ps ≠ [] → (∀ p, p ∈ ps → p < 1) → ps = [0].
Proof.
  intros Hs Hne Hlt. destruct ps as [|p ps]; [done|].
  assert (p = 0) as -> by (specialize (Hlt p ltac:(set_solver)); lia). f_equal.
  destruct ps as [|q ps]; [done|]. apply sorted_cons in Hs as [_ Hq].
  specialize (Hq q ltac:(set_solver)). specialize (Hlt q ltac:(set_solver)). lia.
Qed.

(** The node at a level and index of a list of levels. *)
Definition level_node (levels : list (list hash32)) (p : nat * nat) : hash32 :=
  default ZERO (levels !! p.1 ≫= λ l, l !! p.2).

Lemma fold_levels_complete cur levels : chain cur levels → ∀ pre ps rest,
  sorted ps → ps ≠ [] → (∀ p, p ∈ ps → p < length cur) →
  ∃ top, list.last levels = Some [top] ∧
  fold_levels (length levels - 1) (length cur) (tag_nodes cur ps)
    (map (level_node (pre ++ levels))
       (spec_sibs (length levels - 1) (length pre) (length cur) ps) ++ rest) =
  Ok ([(0, top)], rest).
Proof.
  induction 1 as [x|cur levels Hl Hc IH]; intros pre ps rest Hs Hne Hlt.
  - exists x. split; [done|]. by rewrite (sorted_lt_1 ps).
  - pose proof (chain_length _ _ Hc) as HL. pose proof (length_next_level cur) as HN.
    assert (1 <= length levels) by (rewrite HL; unfold levels_in_tree; lia).
    cbn [length]. replace (S (length levels) - 1) with (S (length levels - 1)) by lia.
    cbn [spec_sibs fold_levels]. rewrite map_app, map_map, <- app_assoc.
    replace (map (λ x, level_node (pre ++ cur :: levels) (length pre, x)) (sibs_of (length cur) ps))
      with (map (node cur) (sibs_of (length cur) ps)); cycle 1.
    { apply map_ext. intros i. unfold level_node, node. cbn [fst snd].
      by rewrite list_lookup_middle. }
    rewrite fold_level_complete by done. cbn [mbind result_bind].
    destruct (IH (pre ++ [cur]) (parents (length cur) ps) rest) as (top & Htop & Hf).
    { by apply parents_sorted. }
    { by apply parents_nonempty. }
    { intros q Hq. rewrite HN. by eapply parents_lt. }
    exists top. split; [destruct levels; [inv Hc|done]|].
    rewrite HN, <- app_assoc, length_app, Nat.add_1_r in Hf. exact Hf.
Qed.

(** The built tree over at least one leaf. *)
Definition level0 (leaves : list hash32) : list hash32 := imap position_leaf leaves.

Lemma length_level0 leaves : length (level0 leaves) = length leaves.
Proof. apply length_imap. Qed.

Lemma build_bmt_chain leaves :
  leaves ≠ [] →
  chain (level0 leaves) (bt_levels (build_bmt leaves)) ∧
  ∃ top, list.last (bt_levels (build_bmt leaves)) = Some [top] ∧
         bt_root (build_bmt leaves) = h2 (be32 (length leaves)) (arr_bytes top).
Proof.
  intros Hne. unfold build_bmt; cbn [bt_levels bt_root].
  replace (match leaves with [] => [hash []] | _ => imap position_leaf leaves end)
    with (level0 leaves) by (by destruct leaves).
  assert (chain (level0 leaves) (build_levels (length (level0 leaves)) (level0 leaves))) as Hc.
  { apply build_levels_chain. unfold level0. rewrite length_imap.
    destruct leaves; [done|]. simpl. lia. }
  split; [done|]. destruct (chain_last _ _ Hc) as [top Htop]. exists top.
  split; [done|]. by rewrite Htop.
Qed.

Lemma insert_positions_ok n positions : ∀ current,
  NoDup positions → (∀ p, p ∈ positions → p < n ∧ p ∉ current) →
  insert_positions n current positions =
  Ok (foldl (λ s x, bt_insert Nat.ltb x s) current positions).
Proof.
  induction positions as [|p ps IH]; intros current Hnd Hok; [done|].
  apply list.NoDup_cons in Hnd as [Hp Hnd]. cbn [insert_positions foldl].
  destruct (Hok p) as [H1 H2]; [set_solver|].
  rewrite !ensure_bind; [|by apply negb_true_iff, bool_decide_eq_false|by apply Nat.ltb_lt].
  apply IH; [done|]. intros q Hq. destruct (Hok q) as [H3 H4]; [set_solver|].
  split; [done|]. rewrite (bt_insert_elem Nat.ltb). intros [->|?]; done.
Qed.

Lemma siblings_required_ok n positions :
  NoDup positions → positions ≠ [] → (∀ p, p ∈ positions → p < n) →
  siblings_required_for_multi_proof n positions =
  Ok (spec_sibs (levels_in_tree n - 1) 0 n (bt_collect Nat.ltb positions)).
Proof.
  intros Hnd Hne Hlt. unfold siblings_required_for_multi_proof.
  rewrite insert_positions_ok; [|done|set_solver].
  change (foldl _ [] positions) with (bt_collect Nat.ltb positions).
  cbn [mbind result_bind]. rewrite ensure_bind.
  - unfold mret, result_ret. f_equal.
    apply (multi_levels_spec _ _ _ _ []); [apply (bt_collect_sorted Nat.ltb)|constructor|set_solver].
  - apply negb_true_iff, bool_decide_eq_false. intros E. destruct positions as [|p ps]; [done|].
    assert (p ∈ bt_collect Nat.ltb (p :: ps)) as Hin
      by (rewrite (bt_collect_elem Nat.ltb); set_solver).
    rewrite E in Hin. set_solver.
Qed.

(** *** The verifier's view of the elements *)

#[local] Instance pos_le_trans : Transitive pos_le.
Proof. intros a b c. unfold pos_le. lia. Qed.
#[local] Instance pos_le_total : Total pos_le.
Proof. intros a b. unfold pos_le. lia. Qed.

Lemma sort_by_pos_perm l : sort_by_pos l ≡ₚ l.
Proof. apply merge_sort_Permutation. Qed.

Lemma sort_by_pos_sorted l : StronglySorted (λ a b, a.1 <= b.1) (sort_by_pos l).
Proof. apply (StronglySorted_merge_sort pos_le); apply _. Qed.

Lemma check_distinct_Ok l :
  StronglySorted (λ a b : nat * hash32, a.1 <= b.1) l →
  check_distinct l = Ok tt ↔ sorted (map fst l).
Proof.
  induction l as [|[p d] [|[q e] l] IH]; intros Hs; [split; [constructor|done]|..].
  { split; [repeat constructor|done]. }
  apply StronglySorted_inv in Hs as [Hs Hp]. specialize (IH Hs).
  inversion_clear Hp as [|? ? Hpq _]. simpl in Hpq.
  cbn [check_distinct]. rewrite bind_Ok. setoid_rewrite ensure_Ok.
  cbn [map fst] in *. split.
  - intros (_ & Hne%negb_true_iff%Nat.eqb_neq & H%IH). apply sorted_intro; [done|].
    intros x [->|Hx]%elem_of_cons; [lia|]. apply sorted_cons in H as [_ H].
    specialize (H x Hx). lia.
  - intros H. exists tt. apply sorted_cons in H as [H Hlt].
    split; [|by apply IH]. apply negb_true_iff, Nat.eqb_neq.
    specialize (Hlt q ltac:(set_solver)). lia.
Qed.

Lemma check_positions_Ok n elements :
  check_positions n elements = Ok tt ↔ ∀ p, p ∈ map snd elements → p < n.
Proof.
  induction elements as [|[l p] es IH]; cbn [check_positions map snd]; [set_solver|].
  rewrite bind_Ok. setoid_rewrite ensure_Ok. setoid_rewrite Nat.ltb_lt. setoid_rewrite IH.
  split.
  - intros (_ & ? & ?) q [->|?]%elem_of_cons; auto.
  - intros H. exists tt. split; [apply H|intros q Hq; apply H]; set_solver.
Qed.

Lemma tag_nodes_fst l0 l :
  (∀ x, x ∈ l → x.2 = node l0 x.1) → l = tag_nodes l0 (map fst l).
Proof.
  induction l as [|[p d] l IH]; intros H; [done|]. cbn [map fst]. rewrite tag_nodes_cons.
  specialize (H (p, d) ltac:(set_solver)) as Hd. simpl in Hd. rewrite Hd. f_equal.
  apply IH. set_solver.
Qed.

Lemma le_sorted_strict l :
  StronglySorted (λ a b : nat * hash32, a.1 <= b.1) l → NoDup (map fst l) → sorted (map fst l).
Proof.
  induction 1 as [|x l Hs IH Hx]; intros Hnd; [constructor|]. cbn [map] in *.
  apply list.NoDup_cons in Hnd as [Hni Hnd]. apply sorted_intro; [by apply IH|].
  intros q Hq. pose proof Hq as (y & -> & Hy)%list_elem_of_fmap.
  rewrite list.Forall_forall in Hx. specialize (Hx y Hy).
  assert (x.1 ≠ y.1) by (intros E; apply Hni; by rewrite E). lia.
Qed.

(** The positioned digests the fold starts from. *)
Definition positioned (elements : list (hash32 * nat)) : list (nat * hash32) :=
  map (λ '(leaf, pos), (pos, position_leaf pos leaf)) elements.

Lemma positioned_fst elements : map fst (positioned elements) = map snd elements.
Proof. unfold positioned. rewrite map_map. by apply map_ext; intros []. Qed.

Lemma node_level0 leaves p :
  p < length leaves → node (level0 leaves) p = position_leaf p (node leaves p).
Proof.
  intros [x Hx]%lookup_lt_is_Some_2. unfold node, level0. rewrite list_lookup_imap, Hx. done.
Qed.

(** The genuine leaves at some positions. *)
Definition leaves_at (leaves : list hash32) (positions : list nat) : list (hash32 * nat) :=
  map (λ p, (node leaves p, p)) positions.

Lemma leaves_at_snd leaves positions : map snd (leaves_at leaves positions) = positions.
Proof. unfold leaves_at. rewrite map_map. apply map_id. Qed.

Lemma sort_leaves_at leaves positions elements :
  NoDup positions → (∀ p, p ∈ positions → p < length leaves) →
  elements ≡ₚ leaves_at leaves positions →
  sort_by_pos (positioned elements) =
  tag_nodes (level0 leaves) (bt_collect Nat.ltb positions).
Proof.
  intros Hnd Hlt Hp. set (l := sort_by_pos (positioned elements)).
  assert (l ≡ₚ positioned elements) as Hl by apply sort_by_pos_perm.
  assert (map fst l ≡ₚ positions) as Hfst.
  { rewrite Hl, positioned_fst, Hp, leaves_at_snd. done. }
  rewrite (tag_nodes_fst (level0 leaves) l).
  - f_equal. apply (bt_unique Nat.ltb).
    + apply le_sorted_strict; [apply sort_by_pos_sorted|]. by rewrite Hfst.
    + apply (bt_collect_sorted Nat.ltb).
    + intros z. by rewrite (bt_collect_elem Nat.ltb), Hfst.
  - intros x Hx. rewrite Hl in Hx. unfold positioned in Hx.
    apply list_elem_of_fmap in Hx as ([leaf p] & -> & Hx). rewrite Hp in Hx.
    apply list_elem_of_fmap in Hx as (q & [= -> ->] & Hq). simpl.
    by rewrite node_level0 by auto.
Qed.

(** Inverting a successful fold. *)
Lemma reconstruct_multi_Ok p elements root :
  reconstruct_multi_root p elements = Ok root ↔
  elements ≠ [] ∧ (∀ q, q ∈ map snd elements → q < leaf_count p) ∧
  sorted (map fst (sort_by_pos (positioned elements))) ∧
  ∃ pos top,
    fold_levels (levels_in_tree (leaf_count p) - 1) (leaf_count p)
      (sort_by_pos (positioned elements)) (siblings p) = Ok ([(pos, top)], []) ∧
    root = h2 (be32 (leaf_count p)) (arr_bytes top).
Proof.
  unfold reconstruct_multi_root. fold (positioned elements).
  rewrite <- (check_distinct_Ok (sort_by_pos (positioned elements))) by apply sort_by_pos_sorted.
  rewrite <- check_positions_Ok. split.
  - intros ([] & H1%ensure_Ok & ([] & H2 & ([] & H3 & ([cur rest] & H4 &
      ([] & H5%ensure_Ok & H6)%bind_Ok)%bind_Ok)%bind_Ok)%bind_Ok)%bind_Ok.
    apply negb_true_iff, bool_decide_eq_false in H1. apply bool_decide_eq_true in H5 as ->.
    split; [done|]. split; [done|]. split; [done|].
    destruct cur as [|[pos top] [|]]; try done. exists pos, top.
    split; [done|]. by apply ret_Ok in H6.
  - intros (H1 & H2 & H3 & pos & top & H4 & ->).
    rewrite ensure_bind by (by apply negb_true_iff, bool_decide_eq_false).
    rewrite H2. cbn [mbind result_bind]. rewrite H3. cbn [mbind result_bind].
    rewrite H4. cbn [mbind result_bind]. by rewrite ensure_bind.
Qed.

Lemma multi_complete leaves positions elements :
  NoDup positions → positions ≠ [] → (∀ p, p ∈ positions → p < length leaves) →
  elements ≡ₚ leaves_at leaves positions →
  ∃ p, bt_multi_proof (build_bmt leaves) positions = Ok p ∧
       leaf_count p = length leaves ∧
       siblings p = map (level_node (bt_levels (build_bmt leaves)))
         (spec_sibs (levels_in_tree (length leaves) - 1) 0 (length leaves)
            (bt_collect Nat.ltb positions)) ∧
       reconstruct_multi_root p elements = Ok (bt_root (build_bmt leaves)).
Proof.
  intros Hnd Hne Hlt Hp.
  assert (leaves ≠ []) as Hl.
  { intros ->. destruct positions as [|q qs]; [done|]. specialize (Hlt q ltac:(set_solver)).
    simpl in Hlt. lia. }
  destruct (build_bmt_chain leaves Hl) as (Hc & top & Htop & Hroot).
  pose proof (siblings_required_ok (length leaves) positions Hnd Hne Hlt) as Hsibs.
  eexists. split.
  { unfold bt_multi_proof. destruct positions as [|q qs]; [done|]. cbn [head ok_or mbind result_bind].
    rewrite ensure_bind by (unfold build_bmt; cbn [bt_empty]; by rewrite bool_decide_eq_false_2).
    cbn [bt_leaf_count build_bmt]. rewrite Hsibs. cbn [mbind result_bind]. done. }
  cbn [leaf_count siblings]. split; [done|]. split; [done|].
  apply reconstruct_multi_Ok. cbn [leaf_count siblings].
  rewrite (sort_leaves_at leaves positions) by done.
  set (ps := bt_collect Nat.ltb positions).
  assert (∀ q, q ∈ ps ↔ q ∈ positions) as Hps by (intros q; apply (bt_collect_elem Nat.ltb)).
  split.
  { intros ->. apply Permutation_nil_l in Hp. by destruct positions. }
  split; [intros q; rewrite Hp, leaves_at_snd; auto|]. split.
  { unfold tag_nodes. rewrite map_map. rewrite map_id. apply (bt_collect_sorted Nat.ltb). }
  destruct (fold_levels_complete _ _ Hc [] ps []) as (top' & Htop' & Hf).
  { apply (bt_collect_sorted Nat.ltb). }
  { intros E. destruct positions as [|q qs]; [done|].
    assert (q ∈ ps) as Hin by (apply Hps; set_solver). rewrite E in Hin. set_solver. }
  { intros q Hq%Hps. rewrite length_level0. auto. }
  rewrite Htop in Htop'. injection Htop' as <-.
  rewrite (chain_length _ _ Hc) in Hf.
  exists 0, top. split; [|done]. rewrite app_nil_r, length_level0 in Hf. exact Hf.
Qed.

(** ** The single-leaf fold is the multi-leaf fold of one element *)

Lemma fold_level_single size pos d sibs :
  fold_level size [(pos, d)] sibs =
  if Nat.even pos && (size <=? pos + 1)%nat then Ok ([(pos / 2, h2h d d)], sibs)
  else match sibs with
       | [] => Err UnalignedProof
       | sib :: sibs =>
           Ok ([(pos / 2, if Nat.even pos then h2h d sib else h2h sib d)], sibs)
       end.
Proof.
  destruct (Nat.even pos) eqn:E.
  - rewrite fold_level_alone by done. cbn [andb fold_level mbind result_bind].
    destruct (size <=? pos + 1)%nat; [done|]. by destruct sibs.
  - rewrite fold_level_odd by done. by destruct sibs.
Qed.

(** The [while] loop's fuel is enough, and the loop is the level fold. *)
Lemma climb_fold fuel : ∀ d pos size sibs,
  size <= fuel →
  ∃ pos', fold_levels (levels_in_tree size - 1) size [(pos, d)] sibs =
          ('(c, rest) ← climb fuel d pos size sibs; mret ([(pos', c)], rest)).
Proof.
  induction fuel as [|fuel IH]; intros d pos size sibs Hf.
  { exists pos. assert (size = 0) as -> by lia. done. }
  cbn [climb]. destruct (Nat.ltb_spec 1 size) as [H1|H1]; cycle 1.
  { exists pos. by rewrite levels_in_tree_1. }
  assert (div_ceil2 size <= fuel) as Hf' by (pose proof (div_ceil2_lt size H1); lia).
  rewrite levels_in_tree_step by done.
  assert (1 <= levels_in_tree (div_ceil2 size)) by (unfold levels_in_tree; lia).
  replace (S (levels_in_tree (div_ceil2 size)) - 1)
    with (S (levels_in_tree (div_ceil2 size) - 1)) by lia.
  cbn [fold_levels]. rewrite fold_level_single.
  destruct (Nat.even pos && (size <=? pos + 1)%nat).
  - apply IH. done.
  - destruct sibs as [|sib sibs]; [by exists pos|]. apply IH. done.
Qed.

Lemma climb_total p leaf position :
  reconstruct_element_root p leaf position = reconstruct_multi_root p [(leaf, position)].
Proof.
  unfold reconstruct_element_root, reconstruct_multi_root.
  rewrite (ensure_bind (negb _)) by done. cbn [check_positions].
  destruct (Nat.ltb_spec position (leaf_count p)) as [Hp|Hp]; [|done].
  change (sort_by_pos _) with [(position, position_leaf position leaf)].
  cbn [ensure mbind result_bind check_distinct].
  destruct (climb_fold (leaf_count p) (position_leaf position leaf) position (leaf_count p)
              (siblings p)) as [pos' ->]; [done|].
  destruct (climb _ _ _ _ _) as [[c rest]|e]; [|done].
  cbn [mbind result_bind mret result_ret]. by destruct rest.
Qed.

(** ** Ranges are multi-proofs of their positions *)

Definition interval (s e : nat) : list nat := seq s (e + 1 - s).

Lemma interval_elem s e x : s <= e → x ∈ interval s e ↔ s <= x <= e.
Proof. intros H. unfold interval. rewrite elem_of_seq. lia. Qed.

Lemma seq_sorted n : ∀ s, sorted (seq s n).
Proof.
  induction n as [|n IH]; intros s; cbn [seq]; [constructor|].
  apply sorted_intro; [done|]. intros q. rewrite elem_of_seq. lia.
Qed.

Lemma interval_parents size s e : s <= e → parents size (interval s e) = interval (s / 2) (e / 2).
Proof.
  intros Hse. apply (bt_unique Nat.ltb); [apply parents_sorted, seq_sorted|apply seq_sorted|].
  intros z. rewrite parents_elem, interval_elem by dlia. split.
  - intros (p & Hp & ->). apply interval_elem in Hp; [dlia|done].
  - intros Hz. destruct (decide (2 * z < s)).
    + exists s. rewrite interval_elem by done. dlia.
    + exists (2 * z). rewrite interval_elem by done. dlia.
Qed.

Definition interval_sibs (size s e : nat) : list nat :=
  (if Nat.even s then [] else [s - 1])
  ++ (if Nat.even e && (e + 1 <? size)%nat then [e + 1] else []).

Lemma interval_sibs_elem size s e z :
  z ∈ interval_sibs size s e ↔
  (Nat.even s = false ∧ z = s - 1) ∨ (Nat.even e = true ∧ e + 1 < size ∧ z = e + 1).
Proof.
  unfold interval_sibs. rewrite elem_of_app, <- Nat.ltb_lt.
  destruct (Nat.even s), (Nat.even e), (e + 1 <? size)%nat; set_solver.
Qed.

Lemma interval_sibs_sorted size s e : s <= e → sorted (interval_sibs size s e).
Proof.
  intros Hse. unfold interval_sibs.
  apply StronglySorted_app_2.
  - intros x y. destruct (Nat.even s), (Nat.even e && _);
      rewrite ?list_elem_of_singleton; try set_solver. intros -> ->. apply Nat.ltb_lt. lia.
  - destruct (Nat.even s); repeat constructor.
  - destruct (Nat.even e && _); repeat constructor.
Qed.

Lemma interval_sibs_of size s e :
  s <= e → e < size → sibs_of size (interval s e) = interval_sibs size s e.
Proof.
  intros Hse He.
  apply (bt_unique Nat.ltb); [apply sibs_sorted, seq_sorted|by apply interval_sibs_sorted|].
  intros z. rewrite sibs_elem by apply seq_sorted. rewrite interval_sibs_elem. split.
  - intros (p & Hp%interval_elem & -> & Hn & Hni); [|done]. rewrite interval_elem in Hni by done.
    destruct (sibling_cases size p) as [(E & ? & Hs)|[(E & ? & Hs)|(E & Hs)]]; rewrite Hs in *.
    + right. assert (p = e) as -> by lia. done.
    + lia.
    + left. assert (p = s) as -> by lia. done.
  - intros [[E ->]|(E & Hlt & ->)].
    + exists s. rewrite !interval_elem by done.
      assert (0 < s) by (destruct s; [done|lia]). unfold sibling_index. rewrite E. lia.
    + exists e. rewrite !interval_elem by done. unfold sibling_index. rewrite E.
      apply Nat.ltb_lt in Hlt as ->. lia.
Qed.

Lemma range_levels_spec n : ∀ level size s e acc,
  s <= e → e < size → sorted2 acc → (∀ x, x ∈ acc → x.1 < level) →
  range_levels n level size s e acc = acc ++ spec_sibs n level size (interval s e).
Proof.
  induction n as [|n IH]; intros level size s e acc Hse He Ha Hlt; cbn [range_levels spec_sibs].
  { by rewrite app_nil_r. }
  rewrite interval_sibs_of, interval_parents by done.
  set (acc1 := if Nat.even s then acc else _). set (acc2 := if _ && _ then _ else acc1).
  assert (acc2 = acc ++ map (pair level) (interval_sibs size s e)) as ->.
  { assert (sorted2 acc1) as Ha1.
    { unfold acc1. destruct (Nat.even s); [done|by apply (bt_insert_sorted pos_ltb)]. }
    apply (bt_unique pos_ltb).
    - unfold acc2. destruct (_ && _); [by apply (bt_insert_sorted pos_ltb)|done].
    - apply append_level; [done|by apply interval_sibs_sorted|done].
    - intros z. rewrite elem_of_app, (list_elem_of_fmap (pair level)).
      setoid_rewrite interval_sibs_elem.
      unfold acc2, acc1. destruct (Nat.even s), (Nat.even e), (Nat.ltb_spec (e + 1) size);
        cbn [andb]; rewrite ?(bt_insert_elem pos_ltb); naive_solver (by eauto with lia). }
  rewrite IH; [by rewrite app_assoc|dlia| | |].
  - unfold div_ceil2. dlia.
  - apply append_level; [done|by apply interval_sibs_sorted|done].
  - intros x. rewrite elem_of_app. intros [H%Hlt|(q & -> & _)%list_elem_of_fmap]; simpl; lia.
Qed.

Lemma collect_interval s e : bt_collect Nat.ltb (interval s e) = interval s e.
Proof.
  apply (bt_unique Nat.ltb); [apply (bt_collect_sorted Nat.ltb)|apply seq_sorted|].
  intros z. apply (bt_collect_elem Nat.ltb).
Qed.

Lemma range_siblings n s e :
  s <= e → e < n →
  siblings_required_for_range_proof n s e =
  siblings_required_for_multi_proof n (interval s e).
Proof.
  intros Hse He. rewrite siblings_required_ok, collect_interval.
  - unfold siblings_required_for_range_proof. rewrite !ensure_bind.
    + unfold mret, result_ret. f_equal.
      apply (range_levels_spec _ _ _ _ _ []); [done|done|constructor|set_solver].
    + by apply Nat.ltb_lt.
    + apply Nat.ltb_lt. lia.
    + by apply Nat.leb_le.
    + apply negb_true_iff, Nat.eqb_neq. lia.
  - apply NoDup_seq.
  - unfold interval. replace (e + 1 - s) with (S (e - s)) by lia. done.
  - intros p Hp%interval_elem; [lia|done].
Qed.

Lemma range_proof_multi leaves s e :
  s <= e → e < length leaves →
  bt_range_proof (build_bmt leaves) s e = bt_multi_proof (build_bmt leaves) (interval s e).
Proof.
  intros Hse He. assert (leaves ≠ []) as Hl by (intros ->; simpl in He; lia).
  assert (negb (bt_empty (build_bmt leaves)) = true) as Hn
    by (unfold build_bmt; cbn [bt_empty]; by rewrite bool_decide_eq_false_2).
  unfold bt_range_proof, bt_multi_proof. rewrite !ensure_bind.
  - cbn [bt_leaf_count build_bmt]. rewrite range_siblings by done.
    assert (head (interval s e) = Some s) as ->
      by (unfold interval; by replace (e + 1 - s) with (S (e - s)) by lia).
    cbn [ok_or mbind result_bind]. by rewrite Hn.
  - by apply Nat.ltb_lt.
  - cbn [bt_leaf_count build_bmt]. apply Nat.ltb_lt. lia.
  - by apply Nat.leb_le.
  - done.
Qed.

(** ** Soundness of one level *)

(** A level fold, keeping each parent's two children apart. *)
Fixpoint fold_pairs (size : nat) (current : list (nat * hash32)) (sibs : list hash32)
    : result MerkleError (list (nat * (hash32 * hash32)) * list hash32) :=
  match current with
  | [] => Ok ([], sibs)
  | (pos, d) :: rest =>
      if Nat.even pos then
        match rest with
        | (pos', d') :: rest' =>
            if (pos' =? pos + 1)%nat then
              '(next, sibs) ← fold_pairs size rest' sibs;
              mret ((pos / 2, (d, d')) :: next, sibs)
            else if (size <=? pos + 1)%nat then
              '(next, sibs) ← fold_pairs size rest sibs;
              mret ((pos / 2, (d, d)) :: next, sibs)
            else
              match sibs with
              | [] => Err UnalignedProof
              | sib :: sibs =>
                  '(next, sibs) ← fold_pairs size rest sibs;
                  mret ((pos / 2, (d, sib)) :: next, sibs)
              end
        | [] =>
            if (size <=? pos + 1)%nat then Ok ([(pos / 2, (d, d))], sibs)
            else
              match sibs with
              | [] => Err UnalignedProof
              | sib :: sibs => Ok ([(pos / 2, (d, sib))], sibs)
              end
        end
      else
        match sibs with
        | [] => Err UnalignedProof
        | sib :: sibs =>
            '(next, sibs) ← fold_pairs size rest sibs;
            mret ((pos / 2, (sib, d)) :: next, sibs)
        end
  end.

Definition join (x : nat * (hash32 * hash32)) : nat * hash32 := (x.1, h2h x.2.1 x.2.2).

(** Induction over positioned digests, along the fold's three shapes. *)
Lemma current_ind (P : list (nat * hash32) → Prop) :
  P [] →
  (∀ p d d' rest, Nat.even p = true → P rest → P ((p, d) :: (p + 1, d') :: rest)) →
  (∀ p d rest, Nat.even p = true → head (map fst rest) ≠ Some (p + 1) → P rest →
               P ((p, d) :: rest)) →
  (∀ p d rest, Nat.even p = false → P rest → P ((p, d) :: rest)) →
  ∀ l, P l.
Proof.
  intros H0 Hpair Halone Hodd l.
  remember (length l) as n eqn:E. revert l E.
  induction (lt_wf n) as [n _ IH]. intros [|[p d] rest] ->; [done|].
  destruct (Nat.even p) eqn:Ep.
  - destruct (decide (head (map fst rest) = Some (p + 1))) as [Hh|Hh].
    + destruct rest as [|[q d'] rest]; [done|]. simpl in Hh. injection Hh as ->.
      apply Hpair; [done|]. eapply IH; [|done]. simpl. lia.
    + apply Halone; [done..|]. eapply IH; [|done]. simpl. lia.
  - apply Hodd; [done|]. eapply IH; [|done]. simpl. lia.
Qed.

Lemma fold_pairs_pair size p d d' rest sibs :
  Nat.even p = true →
  fold_pairs size ((p, d) :: (p + 1, d') :: rest) sibs =
  ('(next, sibs) ← fold_pairs size rest sibs; mret ((p / 2, (d, d')) :: next, sibs)).
Proof. intros E. cbn [fold_pairs]. by rewrite E, Nat.eqb_refl. Qed.

Lemma fold_pairs_alone size p d rest sibs :
  Nat.even p = true → head (map fst rest) ≠ Some (p + 1) →
  fold_pairs size ((p, d) :: rest) sibs =
  (if (size <=? p + 1)%nat then
     '(next, sibs) ← fold_pairs size rest sibs; mret ((p / 2, (d, d)) :: next, sibs)
   else match sibs with
        | [] => Err UnalignedProof
        | sib :: sibs =>
            '(next, sibs) ← fold_pairs size rest sibs; mret ((p / 2, (d, sib)) :: next, sibs)
        end).
Proof.
  intros E Hh. cbn [fold_pairs]. rewrite E. destruct rest as [|[q d'] rest].
  - destruct (size <=? p + 1)%nat; [done|]. by destruct sibs.
  - simpl in Hh. by destruct (Nat.eqb_spec q (p + 1)) as [->|].
Qed.

Lemma fold_pairs_odd size p d rest sibs :
  Nat.even p = false →
  fold_pairs size ((p, d) :: rest) sibs =
  match sibs with
  | [] => Err UnalignedProof
  | sib :: sibs =>
      '(next, sibs) ← fold_pairs size rest sibs; mret ((p / 2, (sib, d)) :: next, sibs)
  end.
Proof. intros E. cbn [fold_pairs]. by rewrite E. Qed.

Lemma fold_level_pairs size current : ∀ sibs,
  fold_level size current sibs =
  ('(prs, rest) ← fold_pairs size current sibs; mret (map join prs, rest)).
Proof.
  induction current as [|p d d' l E IH|p d l E Hh IH|p d l E IH] using current_ind; intros sibs.
  - done.
  - rewrite fold_level_pair, fold_pairs_pair by done. rewrite IH.
    by destruct (fold_pairs size l sibs) as [[prs rest]|].
  - rewrite fold_level_alone, fold_pairs_alone by done.
    destruct (size <=? p + 1)%nat; [|destruct sibs as [|sib sibs]; [done|]];
      rewrite IH; by destruct (fold_pairs size l sibs) as [[prs rest]|].
  - rewrite fold_level_odd, fold_pairs_odd by done. destruct sibs as [|sib sibs]; [done|].
    rewrite IH. by destruct (fold_pairs size l sibs) as [[prs rest]|].
Qed.
End bmt.

(** ** Explicit collisions *)

Definition collides `{Blake3} (xs ys : list bytes) : Prop :=
  ∃ x y, x ∈ xs ∧ y ∈ ys ∧ x ≠ y ∧ hash x = hash y.

Lemma collides_mono `{Blake3} xs xs' ys ys' :
  xs ⊆ xs' → ys ⊆ ys' → collides xs ys → collides xs' ys'.
Proof. intros H1 H2 (x & y & ? & ? & ?). exists x, y. auto. Qed.

(** Two inputs with one digest are equal, or collide. *)
Lemma same_digest `{Blake3} xs ys x y :
  x ∈ xs → y ∈ ys → hash x = hash y → x = y ∨ collides xs ys.
Proof. intros Hx Hy E. destruct (decide (x = y)); [by left|right]. by exists x, y. Qed.

Definition cat2 (a b : hash32) : bytes := arr_bytes a ++ arr_bytes b.

Lemma cat2_inj a b c d : cat2 a b = cat2 c d → a = c ∧ b = d.
Proof.
  intros [E1 E2]%app_inj_len; [|by rewrite !arr_length].
  split; by apply (inj arr_bytes).
Qed.

(** The inputs hashed to build the level above [cur]. *)
Fixpoint pair_inputs (cur : list hash32) : list bytes :=
  match cur with
  | a :: b :: cur => cat2 a b :: pair_inputs cur
  | [a] => [cat2 a a]
  | [] => []
  end.

Lemma pair_inputs_elem cur p :
  p < length cur →
  (if Nat.even p
   then cat2 (node cur p) (if (length cur <=? p + 1)%nat then node cur p else node cur (p + 1))
   else cat2 (node cur (p - 1)) (node cur p)) ∈ pair_inputs cur.
Proof.
  revert p. induction cur as [|a|a b l IH] using list_pair_ind; intros p Hp.
  - simpl in Hp. lia.
  - assert (p = 0) as -> by (simpl in Hp; lia). simpl. by left.
  - destruct p as [|[|p]]; [by left|by left|]. cbn [pair_inputs]. right.
    cbn [length] in Hp. specialize (IH p ltac:(lia)).
    change (Nat.even (S (S p))) with (Nat.even p). cbn [length].
    change (S (S p) + 1) with (S (S (p + 1))). change (S (S p) - 1) with (S p).
    destruct (Nat.even p) eqn:E; [exact IH|].
    destruct p as [|p]; [done|]. replace (S p - 1) with p in IH by lia. exact IH.
Qed.

Section soundness.
Context `{B : Blake3} `{!Blake3Incremental}.

Lemma h2_hash a b : h2 a b = hash (a ++ b).
Proof. apply hasher_two. Qed.

Lemma h2h_hash a b : h2h a b = hash (cat2 a b).
Proof. apply hasher_two. Qed.

(** A parent of [cur] that a proof reached with children [l] and [r]. *)
Lemma parent_children cur p l r ys :
  p < length cur → cat2 l r ∈ ys → h2h l r = node (next_level cur) (p / 2) →
  (if Nat.even p
   then l = node cur p ∧
        r = (if (length cur <=? p + 1)%nat then node cur p else node cur (p + 1))
   else l = node cur (p - 1) ∧ r = node cur p) ∨
  collides (pair_inputs cur) ys.
Proof.
  intros Hp Hy E. rewrite node_next in E by done.
  pose proof (pair_inputs_elem cur p Hp) as Hx. revert Hx E.
  destruct (Nat.even p); rewrite !h2h_hash; intros Hx E;
    (destruct (same_digest _ _ _ _ Hx Hy (eq_sym E)) as [Heq|]; [left|by right]);
    by apply cat2_inj in Heq as [-> ->].
Qed.

Definition cats (prs : list (nat * (hash32 * hash32))) : list bytes :=
  map (λ x, cat2 x.2.1 x.2.2) prs.

(** If every parent is the tree's, every child is, or two inputs collide. *)
Lemma fold_pairs_sound cur current : ∀ sibs prs rest ys,
  fold_pairs (length cur) current sibs = Ok (prs, rest) →
  (∀ x, x ∈ current → x.1 < length cur) → cats prs ⊆ ys →
  (∀ x, x ∈ map join prs → x.2 = node (next_level cur) x.1) →
  (∀ x, x ∈ current → x.2 = node cur x.1) ∨ collides (pair_inputs cur) ys.
Proof.
  assert (∀ (f : nat * (hash32 * hash32) → Prop) x prs,
    (∀ y, y ∈ x :: prs → f y) → f x ∧ ∀ y, y ∈ prs → f y) as Hsplit by set_solver.
  induction current as [|p d d' l E IH|p d l E Hh IH|p d l E IH] using current_ind;
    intros sibs prs rest ys Hf Hlt Hys Hj.
  - left. set_solver.
  - rewrite fold_pairs_pair in Hf by done.
    apply bind_Ok in Hf as ([next rest'] & Hf & [= <- <-]).
    destruct (IH _ _ _ ys Hf) as [HIH|]; [set_solver|set_solver|set_solver| |by right].
    destruct (parent_children cur p d d' ys) as [Hc|]; [|set_solver| | |by right].
    { apply (Hlt (p, d)). set_solver. }
    { apply (Hj (join (p / 2, (d, d')))). set_solver. }
    left. rewrite E in Hc. destruct Hc as [H1 H2].
    assert (p + 1 < length cur) as Hp1 by (apply (Hlt (p + 1, d')); set_solver).
    replace (length cur <=? p + 1)%nat with false in H2 by (symmetry; apply Nat.leb_gt; lia).
    intros x. rewrite !elem_of_cons. intros [->|[->|Hx]]; auto.
  - rewrite fold_pairs_alone in Hf by done.
    assert (p < length cur) as Hp by (apply (Hlt (p, d)); set_solver).
    assert (∀ r next, cats ((p / 2, (d, r)) :: next) ⊆ ys →
      (∀ x, x ∈ map join ((p / 2, (d, r)) :: next) → x.2 = node (next_level cur) x.1) →
      d = node cur p ∨ collides (pair_inputs cur) ys) as Hone.
    { intros r next Hn Hjn. destruct (parent_children cur p d r ys) as [Hc|];
        [done|set_solver| | |by right].
      - apply (Hjn (join (p / 2, (d, r)))). set_solver.
      - rewrite E in Hc. left. apply Hc. }
    assert (∃ r next sibs', fold_pairs (length cur) l sibs' = Ok (next, rest) ∧
              prs = (p / 2, (d, r)) :: next) as (r & next & sibs' & Hf' & ->).
    { destruct (length cur <=? p + 1)%nat; [|destruct sibs as [|sib sibs]; [done|]];
        apply bind_Ok in Hf as ([next rest'] & Hf & [= <- <-]); eauto. }
    destruct (Hone r next) as [Hd|]; [done|done| |by right].
    destruct (IH _ _ _ ys Hf') as [HIH|]; [set_solver|set_solver|set_solver| |by right].
    left. intros x. rewrite elem_of_cons. intros [->|Hx]; auto.
  - rewrite fold_pairs_odd in Hf by done. destruct sibs as [|sib sibs]; [done|].
    apply bind_Ok in Hf as ([next rest'] & Hf & [= <- <-]).
    destruct (IH _ _ _ ys Hf) as [HIH|]; [set_solver|set_solver|set_solver| |by right].
    destruct (parent_children cur p sib d ys) as [Hc|]; [|set_solver| | |by right].
    { apply (Hlt (p, d)). set_solver. }
    { apply (Hj (join (p / 2, (sib, d)))). set_solver. }
    left. rewrite E in Hc. intros x. rewrite elem_of_cons. intros [->|Hx]; [apply Hc|auto].
Qed.

(** The inputs hashed by the levels of a fold. *)
Fixpoint fold_inputs (n size : nat) (current : list (nat * hash32)) (sibs : list hash32)
    : list bytes :=
  match n with
  | O => []
  | S n =>
      match fold_pairs size current sibs with
      | Ok (prs, rest) => cats prs ++ fold_inputs n (div_ceil2 size) (map join prs) rest
      | Err _ => []
      end
  end.

Lemma fold_pairs_positions size current : ∀ sibs prs rest,
  fold_pairs size current sibs = Ok (prs, rest) →
  ∀ x, x ∈ prs → ∃ y, y ∈ current ∧ x.1 = y.1 / 2.
Proof.
  induction current as [|p d d' l E IH|p d l E Hh IH|p d l E IH] using current_ind;
    intros sibs prs rest Hf x Hx.
  - injection Hf as <- <-. set_solver.
  - rewrite fold_pairs_pair in Hf by done.
    apply bind_Ok in Hf as ([next rest'] & Hf & [= <- <-]).
    apply elem_of_cons in Hx as [->|Hx]; [exists (p, d); set_solver|].
    destruct (IH _ _ _ Hf x Hx) as (y & Hy & ->). exists y. set_solver.
  - rewrite fold_pairs_alone in Hf by done.
    assert (∃ r next sibs', fold_pairs size l sibs' = Ok (next, rest) ∧
              prs = (p / 2, (d, r)) :: next) as (r & next & sibs' & Hf' & ->).
    { destruct (size <=? p + 1)%nat; [|destruct sibs as [|sib sibs]; [done|]];
        apply bind_Ok in Hf as ([next rest'] & Hf & [= <- <-]); eauto. }
    apply elem_of_cons in Hx as [->|Hx]; [exists (p, d); set_solver|].
    destruct (IH _ _ _ Hf' x Hx) as (y & Hy & ->). exists y. set_solver.
  - rewrite fold_pairs_odd in Hf by done. destruct sibs as [|sib sibs]; [done|].
    apply bind_Ok in Hf as ([next rest'] & Hf & [= <- <-]).
    apply elem_of_cons in Hx as [->|Hx]; [exists (p, d); set_solver|].
    destruct (IH _ _ _ Hf x Hx) as (y & Hy & ->). exists y. set_solver.
Qed.

(** The inputs hashed to build the levels above the leaves. *)
Definition levels_inputs (levels : list (list hash32)) : list bytes :=
  concat (map pair_inputs (removelast levels)).

Lemma fold_levels_sound cur levels : chain cur levels → ∀ current sibs pos top rest,
  fold_levels (length levels - 1) (length cur) current sibs = Ok ([(pos, top)], rest) →
  list.last levels = Some [top] →
  (∀ x, x ∈ current → x.1 < length cur) →
  (∀ x, x ∈ current → x.2 = node cur x.1) ∨
  collides (levels_inputs levels)
           (fold_inputs (length levels - 1) (length cur) current sibs).
Proof.
  induction 1 as [x|cur levels Hl Hc IH]; intros current sibs pos top rest Hf Htop Hlt.
  - left. cbn in Hf. injection Hf as -> ->. injection Htop as ->.
    intros y Hy. specialize (Hlt y Hy). apply list_elem_of_singleton in Hy as ->.
    simpl in *. by replace pos with 0 by lia.
  - pose proof (chain_length _ _ Hc) as HL. pose proof (length_next_level cur) as HN.
    assert (1 <= length levels) by (rewrite HL; unfold levels_in_tree; lia).
    cbn [length] in *. replace (S (length levels) - 1) with (S (length levels - 1)) in * by lia.
    cbn [fold_levels fold_inputs] in *. rewrite fold_level_pairs in Hf.
    destruct (fold_pairs (length cur) current sibs) as [[prs rest']|] eqn:Hp; [|done].
    cbn [mbind result_bind mret result_ret] in Hf. rewrite <- HN in *.
    set (ys := cats prs ++ _).
    assert (levels_inputs (cur :: levels) = pair_inputs cur ++ levels_inputs levels) as ->
      by (unfold levels_inputs; by destruct levels; [inv Hc|]).
    destruct (IH _ _ _ _ _ Hf) as [Hj|Hcol].
    + by destruct levels; [inv Hc|].
    + intros x (y & -> & Hy)%list_elem_of_fmap.
      destruct (fold_pairs_positions _ _ _ _ _ Hp y Hy) as (z & Hz & Eyz).
      simpl. rewrite Eyz, HN. specialize (Hlt z Hz). unfold div_ceil2. dlia.
    + destruct (fold_pairs_sound cur current sibs prs rest' ys) as [|Hcol]; [done..| | |by left|].
      { unfold ys. set_solver. }
      { done. }
      right. eapply collides_mono; [| |exact Hcol]; set_solver.
    + right. eapply collides_mono; [| |exact Hcol]; unfold ys; set_solver.
Qed.

Lemma be32_inj n m :
  (N.of_nat n <= U32_MAX)%N → (N.of_nat m <= U32_MAX)%N → be32 n = be32 m → n = m.
Proof.
  unfold be32, U32_MAX. intros Hn Hm E. apply be_bytes_inj in E; [lia|simpl; lia..].
Qed.

Lemma be32_app_inj n m l k :
  (N.of_nat n <= U32_MAX)%N → (N.of_nat m <= U32_MAX)%N →
  be32 n ++ l = be32 m ++ k → n = m ∧ l = k.
Proof.
  intros Hn Hm E. apply app_inj_len in E as [E ->]; [|unfold be32; by rewrite !length_be_bytes].
  split; [by apply be32_inj|done].
Qed.

(** The node under the root of the built tree. *)
Definition build_top (leaves : list hash32) : hash32 :=
  default ZERO (list.last (bt_levels (build_bmt leaves)) ≫= head).

Lemma build_root_hash leaves :
  bt_root (build_bmt leaves) = hash (be32 (length leaves) ++ arr_bytes (build_top leaves)).
Proof. apply h2_hash. Qed.

(** Everything [build_bmt] hashes. *)
Definition builder_inputs (leaves : list hash32) : list bytes :=
  (match leaves with [] => [[]] | _ => imap (λ i l, be32 i ++ arr_bytes l) leaves end)
  ++ levels_inputs (bt_levels (build_bmt leaves))
  ++ [be32 (length leaves) ++ arr_bytes (build_top leaves)].

Lemma builder_root_in leaves :
  be32 (length leaves) ++ arr_bytes (build_top leaves) ∈ builder_inputs leaves.
Proof. unfold builder_inputs. rewrite !elem_of_app. right; right. by left. Qed.

Lemma builder_levels_in leaves :
  levels_inputs (bt_levels (build_bmt leaves)) ⊆ builder_inputs leaves.
Proof. intros x Hx. unfold builder_inputs. rewrite !elem_of_app. auto. Qed.

(** Everything [reconstruct_multi_root] hashes. *)
Definition verifier_inputs (p : Proof_) (elements : list (hash32 * nat)) : list bytes :=
  let sorted := sort_by_pos (positioned elements) in
  let n := levels_in_tree (leaf_count p) - 1 in
  map (λ '(leaf, pos), be32 pos ++ arr_bytes leaf) elements
  ++ fold_inputs n (leaf_count p) sorted (siblings p)
  ++ match fold_levels n (leaf_count p) sorted (siblings p) with
     | Ok ([(_, top)], _) => [be32 (leaf_count p) ++ arr_bytes top]
     | _ => []
     end.

Lemma builder_leaf_in leaves q leaf :
  leaves !! q = Some leaf → be32 q ++ arr_bytes leaf ∈ builder_inputs leaves.
Proof.
  intros Hx. unfold builder_inputs. apply elem_of_app. left. destruct leaves; [done|].
  apply elem_of_lookup_imap. by exists q, leaf.
Qed.

(** Equal level-0 digests come from equal leaves, or collide. *)
Lemma elements_sound leaves (elements : list (hash32 * nat)) ys :
  leaves ≠ [] → (N.of_nat (length leaves) <= U32_MAX)%N →
  (∀ leaf q, (leaf, q) ∈ elements → q < length leaves ∧
     position_leaf q leaf = node (level0 leaves) q ∧ be32 q ++ arr_bytes leaf ∈ ys) →
  (∀ leaf q, (leaf, q) ∈ elements → leaves !! q = Some leaf) ∨
  collides (builder_inputs leaves) ys.
Proof.
  intros Hl Hn Hel.
  destruct (decide (Forall (λ x, leaves !! x.2 = Some x.1) elements)) as [Hall|Hbad].
  { left. intros leaf q Hq. rewrite list.Forall_forall in Hall. exact (Hall _ Hq). }
  apply not_Forall_Exists, list.Exists_exists in Hbad as ([leaf q] & Hq & Hne); [|apply _].
  simpl in Hne. right. destruct (Hel _ _ Hq) as (Hlt & E & Hy).
  rewrite node_level0 in E by done. unfold position_leaf in E. rewrite !h2_hash in E.
  destruct (lookup_lt_is_Some_2 leaves q Hlt) as [x Hx].
  assert (node leaves q = x) as Hnx by (unfold node; by rewrite Hx). rewrite Hnx in E.
  destruct (same_digest (builder_inputs leaves) ys (be32 q ++ arr_bytes x) (be32 q ++ arr_bytes leaf))
    as [Heq|]; [|done|done| |done].
  - by apply builder_leaf_in.
  - apply app_inv_head in Heq. apply (inj arr_bytes) in Heq. congruence.
Qed.

Lemma multi_sound leaves p elements :
  (N.of_nat (length leaves) <= U32_MAX)%N → (N.of_nat (leaf_count p) <= U32_MAX)%N →
  reconstruct_multi_root p elements = Ok (bt_root (build_bmt leaves)) →
  (∀ leaf pos, (leaf, pos) ∈ elements → leaves !! pos = Some leaf) ∨
  collides (builder_inputs leaves) (verifier_inputs p elements).
Proof.
  intros Hn Hc Hrec.
  apply reconstruct_multi_Ok in Hrec as (Hne & Hlt & _ & pos & top & Hf & Hroot).
  unfold verifier_inputs. rewrite Hf.
  set (sorted := sort_by_pos _) in *. set (vin := fold_inputs _ _ _ _).
  set (lin := map (λ '(leaf, pos), be32 pos ++ arr_bytes leaf) elements).
  set (ys := lin ++ vin ++ [be32 (leaf_count p) ++ arr_bytes top]).
  assert (∀ leaf q, (leaf, q) ∈ elements → be32 q ++ arr_bytes leaf ∈ ys) as Hlin.
  { intros leaf q Hq. unfold ys. rewrite elem_of_app. left.
    apply list_elem_of_fmap. by exists (leaf, q). }
  assert (vin ⊆ ys) as Hvin by (intros x Hx; unfold ys; rewrite !elem_of_app; auto).
  assert (be32 (leaf_count p) ++ arr_bytes top ∈ ys) as Hrin
    by (unfold ys; rewrite !elem_of_app; right; right; by left).
  clearbody ys. clear lin. rewrite h2_hash, build_root_hash in Hroot.
  destruct (same_digest _ _ _ _ (builder_root_in leaves) Hrin Hroot) as [E|]; [|by right].
  apply be32_app_inj in E as [Hlen Htop]; [|done..]. apply (inj arr_bytes) in Htop.
  assert (leaves ≠ []) as Hl.
  { intros ->. destruct elements as [|[l q] es]; [done|].
    specialize (Hlt q ltac:(set_solver)). simpl in Hlen. lia. }
  destruct (build_bmt_chain leaves Hl) as (Hch & top2 & Htop2 & _).
  assert (top2 = top) as -> by (unfold build_top in Htop; by rewrite Htop2 in Htop).
  rewrite <- (length_level0 leaves) in Hlen. rewrite <- Hlen in Hf, Hlt.
  subst vin. rewrite <- Hlen in Hvin. rewrite <- (chain_length _ _ Hch) in Hf, Hvin.
  assert (∀ x, x ∈ sorted → x ∈ positioned elements) as Hsp
    by (intros x Hx; unfold sorted in Hx; by rewrite sort_by_pos_perm in Hx).
  destruct (fold_levels_sound _ _ Hch _ _ _ _ _ Hf Htop2) as [Hnodes|Hcol].
  { intros x Hx%Hsp. apply Hlt. rewrite <- positioned_fst. by apply (list_elem_of_fmap_2 fst). }
  - apply elements_sound; [done..|]. intros leaf q Hq.
    assert (q < length (level0 leaves)) as Hq'
      by (apply Hlt; by apply (list_elem_of_fmap_2 snd) in Hq).
    split; [by rewrite length_level0 in Hq'|]. split; [|by apply Hlin].
    apply (Hnodes (q, position_leaf q leaf)). unfold sorted. rewrite sort_by_pos_perm.
    apply list_elem_of_fmap. by exists (leaf, q).
  - right. eapply collides_mono; [apply builder_levels_in|exact Hvin|exact Hcol].
Qed.
End soundness.
