(* ===== verification/MerkleProofs.v ===== *)
(** * Object ids commit to their children, and proofs are checked against ids

    The contract of [Merkle.v] at the level of object ids: an id determines its
    tree or chunk list, a built proof verifies, a verified proof is about the
    object, and ids of the two kinds are apart — each up to an explicit
    collision between the inputs one side and the other hash. *)

From S2P Require Import Prelude Hash Object Merkle MerkleFacts.

Section ids.
Context `{B : Blake3} `{BI : !Blake3Incremental}.

(** ** The inputs an id hashes *)

Definition wrap_input (kind : ObjectKind) (root : hash32) : bytes :=
  domain_preimage (type_domain kind) (arr_bytes root).

Definition entry_input (e : TreeEntry) : bytes :=
  domain_preimage TREE_ENTRY_DOMAIN (tree_entry_body e).

Definition meta_input (total_size chunk_size : N) : bytes :=
  domain_preimage CBLOB_META_DOMAIN (le_bytes 8 total_size ++ le_bytes 4 chunk_size).

Definition tree_id_inputs (t : Tree) : list bytes :=
  wrap_input KTree (tree_inner_root t)
  :: map entry_input (tree_entries t) ++ builder_inputs (tree_leaves t).

Definition chunked_id_inputs (cb : ChunkedBlob) : list bytes :=
  wrap_input KChunkedBlob (chunked_inner_root cb)
  :: meta_input (cb_total_size cb) (cb_chunk_size cb) :: builder_inputs (chunked_leaves cb).

(** The bounds of the source's integer types. *)
Definition entry_bounded (e : TreeEntry) : Prop := (lenN (te_name e) <= U32_MAX)%N.
Definition tree_bounded (t : Tree) : Prop :=
  (lenN (tree_entries t) <= U32_MAX)%N ∧ Forall entry_bounded (tree_entries t).
Definition chunked_bounded (cb : ChunkedBlob) : Prop :=
  (1 + lenN (cb_chunks cb) <= U32_MAX)%N ∧
  (cb_total_size cb <= U64_MAX)%N ∧ (cb_chunk_size cb <= U32_MAX)%N.

Lemma wrap_id_hash k r : wrap_id k r = hash (wrap_input k r).
Proof. apply domain_digest_preimage. Qed.

Lemma tree_entry_leaf_hash e : tree_entry_leaf e = hash (entry_input e).
Proof. apply domain_digest_preimage. Qed.

Lemma meta_leaf_hash t c : chunked_meta_leaf_raw t c = hash (meta_input t c).
Proof. apply domain_digest_preimage. Qed.

Lemma wrap_input_inj k1 k2 r1 r2 :
  wrap_input k1 r1 = wrap_input k2 r2 → k1 = k2 ∧ r1 = r2.
Proof.
  intros E. apply domain_preimage_inj in E as [Ek Er]; [|by destruct k1|by destruct k2].
  split; [by destruct k1, k2|by apply (inj arr_bytes)].
Qed.

(** The entry body is unambiguous: the name's length is in front of it. *)
Lemma tree_entry_body_inj e1 e2 :
  entry_bounded e1 → entry_bounded e2 → tree_entry_body e1 = tree_entry_body e2 → e1 = e2.
Proof.
  unfold entry_bounded, U32_MAX. destruct e1 as [n1 m1 h1], e2 as [n2 m2 h2].
  unfold tree_entry_body; cbn [te_name te_mode te_hash]. intros H1 H2 E.
  apply app_inj_len in E as [El E]; [|by rewrite !length_le_bytes].
  apply le_bytes_inj in El; [|simpl; lia..].
  apply app_inj_len in E as [-> E]; [|unfold lenN in El; lia].
  injection E as Em Eh. apply (inj arr_bytes) in Eh as ->. f_equal.
  pose proof (EntryMode.entry_mode_from_to_u8 m1) as H. rewrite Em in H.
  rewrite EntryMode.entry_mode_from_to_u8 in H. by injection H.
Qed.

Lemma entry_input_inj e1 e2 :
  entry_bounded e1 → entry_bounded e2 → entry_input e1 = entry_input e2 → e1 = e2.
Proof.
  intros H1 H2 E. apply domain_preimage_inj in E as [_ E]; [|done..].
  by apply tree_entry_body_inj.
Qed.

Lemma meta_input_inj t1 c1 t2 c2 :
  (t1 <= U64_MAX)%N → (t2 <= U64_MAX)%N → (c1 <= U32_MAX)%N → (c2 <= U32_MAX)%N →
  meta_input t1 c1 = meta_input t2 c2 → t1 = t2 ∧ c1 = c2.
Proof.
  unfold U64_MAX, U32_MAX. intros H1 H2 H3 H4 E.
  apply domain_preimage_inj in E as [_ E]; [|done..].
  apply app_inj_len in E as [Et Ec]; [|by rewrite !length_le_bytes].
  apply le_bytes_inj in Et; [|simpl; lia..]. apply le_bytes_inj in Ec; [|simpl; lia..]. done.
Qed.

(** ** The root determines the leaves *)

Lemma next_level_inj cur1 cur2 :
  length cur1 = length cur2 → next_level cur1 = next_level cur2 →
  cur1 = cur2 ∨ collides (pair_inputs cur1) (pair_inputs cur2).
Proof.
  revert cur2. induction cur1 as [|a|a b l IH] using list_pair_ind; intros cur2 Hl E.
  - left. by destruct cur2.
  - destruct cur2 as [|c [|]]; try done. injection E as E. rewrite !h2h_hash in E.
    destruct (same_digest [cat2 a a] [cat2 c c] _ _ ltac:(by left) ltac:(by left) E)
      as [Eq|]; [|by right].
    apply cat2_inj in Eq as [-> _]. by left.
  - destruct cur2 as [|c [|d k]]; try done. injection Hl as Hl. injection E as E1 E2.
    rewrite !h2h_hash in E1.
    destruct (same_digest (cat2 a b :: pair_inputs l) (cat2 c d :: pair_inputs k) _ _
                ltac:(by left) ltac:(by left) E1) as [Eq|]; [|by right].
    apply cat2_inj in Eq as [-> ->]. destruct (IH k Hl E2) as [->|Hc]; [by left|right].
    eapply collides_mono; [| |exact Hc]; set_solver.
Qed.

Lemma chain_inj cur1 levels1 : chain cur1 levels1 → ∀ cur2 levels2,
  chain cur2 levels2 → length cur1 = length cur2 → list.last levels1 = list.last levels2 →
  cur1 = cur2 ∨ collides (levels_inputs levels1) (levels_inputs levels2).
Proof.
  induction 1 as [x|cur1 levels1 H1 Hc1 IH]; intros cur2 levels2 Hc2 Hl Htop.
  - destruct Hc2 as [y|cur2 levels2 H2 _]; [|simpl in *; lia]. left. by injection Htop as ->.
  - destruct Hc2 as [y|cur2 levels2 H2 Hc2]; [simpl in *; lia|].
    assert (∀ cur levels, chain (next_level cur) levels →
      levels_inputs (cur :: levels) = pair_inputs cur ++ levels_inputs levels ∧
      list.last (cur :: levels) = list.last levels) as Hcons.
    { intros cur levels Hc. destruct levels; [inv Hc|done]. }
    destruct (Hcons _ _ Hc1) as [-> E1]. destruct (Hcons _ _ Hc2) as [-> E2].
    rewrite E1, E2 in Htop.
    destruct (IH _ _ Hc2) as [Hn|Hcol]; [by rewrite !length_next_level, Hl|done| |].
    + destruct (next_level_inj cur1 cur2 Hl Hn) as [->|Hcol]; [by left|right].
      eapply collides_mono; [| |exact Hcol]; set_solver.
    + right. eapply collides_mono; [| |exact Hcol]; set_solver.
Qed.

Lemma level0_inj leaves1 leaves2 :
  leaves1 ≠ [] → (lenN leaves1 <= U32_MAX)%N → length leaves1 = length leaves2 →
  level0 leaves1 = level0 leaves2 →
  leaves1 = leaves2 ∨ collides (builder_inputs leaves1) (builder_inputs leaves2).
Proof.
  intros N1 H1 Hl E.
  destruct (elements_sound leaves1 (imap (λ i l, (l, i)) leaves2) (builder_inputs leaves2))
    as [Hall|]; [done|done| | |by right].
  - intros leaf q (i & x & [= -> ->] & Hx)%elem_of_lookup_imap.
    pose proof (lookup_lt_Some _ _ _ Hx). split; [lia|]. split; [|by apply builder_leaf_in].
    rewrite E, node_level0 by done. unfold node. by rewrite Hx.
  - left. apply list_eq. intros i. destruct (leaves2 !! i) as [x|] eqn:Hx.
    + apply Hall, elem_of_lookup_imap. by exists i, x.
    + apply lookup_ge_None_2. apply lookup_ge_None_1 in Hx. lia.
Qed.

Lemma bmt_root_inj leaves1 leaves2 :
  (lenN leaves1 <= U32_MAX)%N → (lenN leaves2 <= U32_MAX)%N →
  bt_root (build_bmt leaves1) = bt_root (build_bmt leaves2) →
  leaves1 = leaves2 ∨ collides (builder_inputs leaves1) (builder_inputs leaves2).
Proof.
  intros H1 H2 E. rewrite !build_root_hash in E.
  destruct (same_digest _ _ _ _ (builder_root_in leaves1) (builder_root_in leaves2) E)
    as [Eq|]; [|by right].
  apply be32_app_inj in Eq as [Hl Htop]; [|done..]. apply (inj arr_bytes) in Htop.
  destruct (decide (leaves1 = [])) as [->|N1]; [left; by destruct leaves2|].
  assert (leaves2 ≠ []) as N2 by (intros ->; by destruct leaves1).
  destruct (build_bmt_chain leaves1 N1) as (C1 & top1 & T1 & _).
  destruct (build_bmt_chain leaves2 N2) as (C2 & top2 & T2 & _).
  assert (top1 = top2) as -> by (unfold build_top in Htop; by rewrite T1, T2 in Htop).
  destruct (chain_inj _ _ C1 _ _ C2) as [Hlv|Hcol].
  { by rewrite !length_level0. }
  { by rewrite T1, T2. }
  - by apply level0_inj.
  - right. eapply collides_mono; [apply builder_levels_in|apply builder_levels_in|exact Hcol].
Qed.

(** ** Ids commit to their objects *)

Lemma entries_inj es1 es2 :
  Forall entry_bounded es1 → Forall entry_bounded es2 →
  map tree_entry_leaf es1 = map tree_entry_leaf es2 →
  es1 = es2 ∨ collides (map entry_input es1) (map entry_input es2).
Proof.
  intros H1. revert es2. induction H1 as [|e1 es1 He1 _ IH]; intros [|e2 es2] H2 E; try done.
  { by left. }
  apply list.Forall_cons in H2 as [He2 H2]. cbn [map] in E. injection E as E1 E2.
  rewrite !tree_entry_leaf_hash in E1.
  destruct (same_digest (map entry_input (e1 :: es1)) (map entry_input (e2 :: es2)) _ _
              ltac:(by left) ltac:(by left) E1) as [Eq|]; [|by right].
  apply entry_input_inj in Eq as ->; [|done..].
  destruct (IH _ H2 E2) as [->|Hcol]; [by left|right].
  eapply collides_mono; [| |exact Hcol]; set_solver.
Qed.

Lemma tree_inputs_sub t :
  map entry_input (tree_entries t) ⊆ tree_id_inputs t ∧
  builder_inputs (tree_leaves t) ⊆ tree_id_inputs t.
Proof.
  unfold tree_id_inputs. split; intros x Hx; apply elem_of_cons; right; apply elem_of_app; auto.
Qed.

Lemma chunked_inputs_sub cb : builder_inputs (chunked_leaves cb) ⊆ chunked_id_inputs cb.
Proof. intros x Hx. unfold chunked_id_inputs. rewrite !elem_of_cons. auto. Qed.

Lemma tree_id_inj t1 t2 :
  tree_bounded t1 → tree_bounded t2 → compute_tree_id t1 = compute_tree_id t2 →
  t1 = t2 ∨ collides (tree_id_inputs t1) (tree_id_inputs t2).
Proof.
  intros [L1 B1] [L2 B2] E. unfold compute_tree_id in E. rewrite !wrap_id_hash in E.
  destruct (same_digest (tree_id_inputs t1) (tree_id_inputs t2) _ _
              ltac:(by left) ltac:(by left) E) as [Eq|]; [|by right].
  apply wrap_input_inj in Eq as [_ Eq].
  destruct (tree_inputs_sub t1) as [S1 S1'], (tree_inputs_sub t2) as [S2 S2'].
  destruct (bmt_root_inj (tree_leaves t1) (tree_leaves t2)) as [El|Hcol].
  1,2: unfold tree_leaves, lenN; by rewrite length_map.
  { done. }
  - destruct (entries_inj _ _ B1 B2 El) as [Ee|Hcol].
    + left. destruct t1, t2. cbn in Ee. by subst.
    + right. eapply collides_mono; [exact S1|exact S2|exact Hcol].
  - right. eapply collides_mono; [exact S1'|exact S2'|exact Hcol].
Qed.

Lemma chunked_leaves_len cb : lenN (chunked_leaves cb) = (1 + lenN (cb_chunks cb))%N.
Proof. unfold chunked_leaves. by rewrite lenN_cons. Qed.

Lemma chunked_id_inj cb1 cb2 :
  chunked_bounded cb1 → chunked_bounded cb2 → compute_chunked_id cb1 = compute_chunked_id cb2 →
  cb1 = cb2 ∨ collides (chunked_id_inputs cb1) (chunked_id_inputs cb2).
Proof.
  intros (L1 & T1 & C1) (L2 & T2 & C2) E. unfold compute_chunked_id in E.
  rewrite !wrap_id_hash in E.
  destruct (same_digest (chunked_id_inputs cb1) (chunked_id_inputs cb2) _ _
              ltac:(by left) ltac:(by left) E) as [Eq|]; [|by right].
  apply wrap_input_inj in Eq as [_ Eq].
  destruct (bmt_root_inj (chunked_leaves cb1) (chunked_leaves cb2)) as [El|Hcol].
  1,2: by rewrite chunked_leaves_len.
  { done. }
  - unfold chunked_leaves in El. injection El as Em Ec.
    unfold chunked_meta_leaf in Em. rewrite !meta_leaf_hash in Em.
    destruct (same_digest (chunked_id_inputs cb1) (chunked_id_inputs cb2) _ _
                ltac:(by right; left) ltac:(by right; left) Em) as [Eq'|]; [|by right].
    apply meta_input_inj in Eq' as [Et Es]; [|done..].
    left. destruct cb1, cb2. cbn in *. by subst.
  - right. eapply collides_mono; [apply chunked_inputs_sub|apply chunked_inputs_sub|exact Hcol].
Qed.

(** ** Checking a proof against an id *)

Lemma check_wrapped_Ok k root id u : check_wrapped k root id = Ok u ↔ wrap_id k root = id.
Proof. unfold check_wrapped. destruct u. case_bool_decide; naive_solver. Qed.

(** Everything a verification against an id of kind [k] hashes. *)
Definition verify_inputs (k : ObjectKind) (p : Proof_) (elements : list (hash32 * nat))
    : list bytes :=
  match reconstruct_multi_root p elements with
  | Ok root => [wrap_input k root]
  | Err _ => []
  end ++ verifier_inputs p elements.

(** A fold that passes the id check reached the object's own root, whose kind
    is the one checked for. *)
Lemma verify_root k k' p elements root inner xs :
  reconstruct_multi_root p elements = Ok root → wrap_id k root = wrap_id k' inner →
  wrap_input k' inner ∈ xs →
  (k = k' ∧ root = inner) ∨ collides xs (verify_inputs k p elements).
Proof.
  intros Hr E Hx. rewrite !wrap_id_hash in E.
  destruct (same_digest xs (verify_inputs k p elements) _ _ Hx
              ltac:(unfold verify_inputs; rewrite Hr; by left) (eq_sym E)) as [Eq|]; [|by right].
  apply wrap_input_inj in Eq as [-> ->]. by left.
Qed.

Lemma verify_leaves k leaves p elements root id_inputs :
  (lenN leaves <= U32_MAX)%N → (N.of_nat (leaf_count p) <= U32_MAX)%N →
  wrap_input k (bt_root (build_bmt leaves)) ∈ id_inputs → builder_inputs leaves ⊆ id_inputs →
  reconstruct_multi_root p elements = Ok root →
  wrap_id k root = wrap_id k (bt_root (build_bmt leaves)) →
  (∀ leaf pos, (leaf, pos) ∈ elements → leaves !! pos = Some leaf) ∨
  collides id_inputs (verify_inputs k p elements).
Proof.
  intros Hn Hc Hin Hsub Hr E.
  destruct (verify_root _ _ _ _ _ _ _ Hr E Hin) as [[_ ->]|]; [|by right].
  destruct (multi_sound leaves p elements Hn Hc Hr) as [|Hcol]; [by left|right].
  eapply collides_mono; [exact Hsub| |exact Hcol].
  intros x Hx. apply elem_of_app. by right.
Qed.

(** *** Trees *)

Definition entry_elements (entries : list (TreeEntry * nat)) : list (hash32 * nat) :=
  map (λ '(e, pos), (tree_entry_leaf e, pos)) entries.

Definition tree_verify_inputs (p : Proof_) (entries : list (TreeEntry * nat)) : list bytes :=
  map (λ '(e, _), entry_input e) entries ++ verify_inputs KTree p (entry_elements entries).

(** Entries whose leaves are the tree's are the tree's entries, or collide. *)
Lemma entries_at t entries p :
  Forall entry_bounded (tree_entries t) → Forall (λ x, entry_bounded x.1) entries →
  (∀ e pos, (e, pos) ∈ entries → tree_leaves t !! pos = Some (tree_entry_leaf e)) →
  (∀ e pos, (e, pos) ∈ entries → tree_entries t !! pos = Some e) ∨
  collides (tree_id_inputs t) (tree_verify_inputs p entries).
Proof.
  intros Hb Hbe Hall.
  destruct (decide (Forall (λ x, tree_entries t !! x.2 = Some x.1) entries)) as [Hok|Hbad].
  { left. intros e pos Hin. rewrite list.Forall_forall in Hok. exact (Hok _ Hin). }
  apply not_Forall_Exists, list.Exists_exists in Hbad as ([e pos] & Hin & Hne); [|apply _].
  right. specialize (Hall _ _ Hin). unfold tree_leaves in Hall. rewrite list_lookup_fmap in Hall.
  destruct (tree_entries t !! pos) as [e'|] eqn:He'; [|done]. injection Hall as Hl.
  rewrite !tree_entry_leaf_hash in Hl.
  pose proof (list_elem_of_lookup_2 _ _ _ He') as Hin'.
  pose proof (proj1 (list.Forall_forall _ _) Hb _ Hin').
  pose proof (proj1 (list.Forall_forall _ _) Hbe _ Hin).
  destruct (same_digest (tree_id_inputs t) (tree_verify_inputs p entries) _ _
    (proj1 (tree_inputs_sub t) _ (list_elem_of_fmap_2 entry_input _ _ Hin'))
    ltac:(apply elem_of_app; left; apply list_elem_of_fmap; by exists (e, pos)) Hl) as [Eq|];
    [|done].
  apply entry_input_inj in Eq as ->; done.
Qed.

Lemma tree_multi_sound t entries p :
  tree_bounded t → Forall (λ x, entry_bounded x.1) entries →
  (N.of_nat (leaf_count p) <= U32_MAX)%N →
  verify_tree_entries_multi (compute_tree_id t) entries p = Ok tt →
  (∀ e pos, (e, pos) ∈ entries → tree_entries t !! pos = Some e) ∨
  collides (tree_id_inputs t) (tree_verify_inputs p entries).
Proof.
  intros [Hn Hb] Hbe Hc Hv. apply bind_Ok in Hv as (root & Hr & Hw%check_wrapped_Ok).
  fold (entry_elements entries) in Hr. destruct (tree_inputs_sub t) as [Hs1 Hs2].
  destruct (verify_leaves KTree (tree_leaves t) p (entry_elements entries) root (tree_id_inputs t))
    as [Hall|Hcol]; [|done|by left|done..| |].
  { unfold tree_leaves, lenN. by rewrite length_map. }
  - apply (entries_at t entries); [done..|]. intros e pos Hin.
    apply Hall. apply list_elem_of_fmap. by exists (e, pos).
  - right. eapply collides_mono; [reflexivity| |exact Hcol]. intros x Hx. apply elem_of_app. by right.
Qed.

(** *** Chunked blobs *)

Lemma chunk_multi_sound cb elements p root :
  chunked_bounded cb → (N.of_nat (leaf_count p) <= U32_MAX)%N →
  reconstruct_multi_root p elements = Ok root → wrap_id KChunkedBlob root = compute_chunked_id cb →
  (∀ leaf pos, (leaf, pos) ∈ elements → chunked_leaves cb !! pos = Some leaf) ∨
  collides (chunked_id_inputs cb) (verify_inputs KChunkedBlob p elements).
Proof.
  intros (Hn & _) Hc Hr Hw.
  apply (verify_leaves KChunkedBlob (chunked_leaves cb) p elements root (chunked_id_inputs cb));
    [by rewrite chunked_leaves_len|done|by left|apply chunked_inputs_sub|done|done].
Qed.

Lemma chunked_leaf_chunk cb pos leaf :
  pos ≠ 0 → chunked_leaves cb !! pos = Some leaf → cb_chunks cb !! (pos - 1) = Some leaf.
Proof. intros Hp H. destruct pos; [done|]. cbn in H. by rewrite Nat.sub_succ, Nat.sub_0_r. Qed.

(** ** Properties *)

(** A tree id commits to the tree. Two trees (with [u32] sizes) that have
    the same id have the same entries in the same order, names, modes and
    hashes included, or the hashing of one and of the other contains an explicit
    collision. *)
Theorem compute_tree_id_commits (t1 t2 : Tree)
    (H1 : tree_bounded t1) (H2 : tree_bounded t2)
    (E : compute_tree_id t1 = compute_tree_id t2) :
  t1 = t2 ∨ collides (tree_id_inputs t1) (tree_id_inputs t2).
Proof. by apply tree_id_inj. Qed.

(** A chunked blob id commits to the total size, the chunk size and the
    chunk list, in the same sense. *)
Theorem compute_chunked_id_commits (cb1 cb2 : ChunkedBlob)
    (H1 : chunked_bounded cb1) (H2 : chunked_bounded cb2)
    (E : compute_chunked_id cb1 = compute_chunked_id cb2) :
  cb1 = cb2 ∨ collides (chunked_id_inputs cb1) (chunked_id_inputs cb2).
Proof. by apply chunked_id_inj. Qed.

(** C6: proofs of tree entries are sound. When a multi-entry proof verifies
    against the id of a tree, every claimed entry is the tree's entry at the
    claimed position (in particular the position is in range), or the tree's
    hashing and the verification contain an explicit collision. *)
Theorem verify_tree_entries_multi_sound (t : Tree) (entries : list (TreeEntry * nat)) (p : Proof_)
    (Ht : tree_bounded t) (He : Forall (λ x, entry_bounded x.1) entries)
    (Hc : (N.of_nat (leaf_count p) <= U32_MAX)%N)
    (Hv : verify_tree_entries_multi (compute_tree_id t) entries p = Ok tt) :
  (∀ e pos, (e, pos) ∈ entries → tree_entries t !! pos = Some e) ∨
  collides (tree_id_inputs t) (tree_verify_inputs p entries).
Proof. by apply tree_multi_sound. Qed.

(** Chunk proofs are sound, and the announced sizes are authenticated. When
    the joint proof of the metadata leaf and a chunk verifies against the id of
    a chunked blob, the two announced sizes are the blob's and the chunk is the
    blob's chunk at that position less one, or there is an explicit collision. *)
Theorem verify_chunk_with_meta_leaf_sound (cb : ChunkedBlob) (total_size chunk_size : N)
    (chunk : hash32) (position : nat) (p : Proof_)
    (Hcb : chunked_bounded cb) (Ht : (total_size <= U64_MAX)%N) (Hs : (chunk_size <= U32_MAX)%N)
    (Hc : (N.of_nat (leaf_count p) <= U32_MAX)%N)
    (Hv : verify_chunk_with_meta_leaf (compute_chunked_id cb) total_size chunk_size chunk position p
          = Ok tt) :
  (total_size = cb_total_size cb ∧ chunk_size = cb_chunk_size cb ∧ 0 < position ∧
   cb_chunks cb !! (position - 1) = Some chunk) ∨
  collides (chunked_id_inputs cb)
    (meta_input total_size chunk_size ::
     verify_inputs KChunkedBlob p
       [(chunked_meta_leaf_raw total_size chunk_size, 0); (chunk, position)]).
Proof.
  apply bind_Ok in Hv as ([] & Hp%ensure_Ok & (root & Hr & Hw%check_wrapped_Ok)%bind_Ok).
  apply negb_true_iff, Nat.eqb_neq in Hp.
  destruct (chunk_multi_sound _ _ _ _ Hcb Hc Hr Hw) as [Hall|Hcol]; cycle 1.
  { right. eapply collides_mono; [reflexivity| |exact Hcol]. intros x Hx. by right. }
  pose proof (Hall _ _ ltac:(by left)) as Hm. pose proof (Hall _ _ ltac:(right; by left)) as Hk.
  apply chunked_leaf_chunk in Hk; [|done]. injection Hm as Hm.
  unfold chunked_meta_leaf in Hm. rewrite !meta_leaf_hash in Hm.
  destruct (same_digest (chunked_id_inputs cb) (meta_input total_size chunk_size ::
     verify_inputs KChunkedBlob p
       [(chunked_meta_leaf_raw total_size chunk_size, 0); (chunk, position)]) _ _
       ltac:(by right; left) ltac:(by left) Hm) as [Eq|]; [left|by right].
  destruct Hcb as (_ & Htb & Hsb). apply meta_input_inj in Eq as [-> ->]; [|done..].
  split; [done|]. split; [done|]. split; [lia|done].
Qed.

Lemma chunk_sound cb chunk position p :
  chunked_bounded cb → (N.of_nat (leaf_count p) <= U32_MAX)%N →
  verify_chunk (compute_chunked_id cb) chunk position p = Ok tt →
  (0 < position ∧ cb_chunks cb !! (position - 1) = Some chunk) ∨
  collides (chunked_id_inputs cb) (verify_inputs KChunkedBlob p [(chunk, position)]).
Proof.
  intros Hcb Hc Hv.
  apply bind_Ok in Hv as ([] & Hp%ensure_Ok & (root & Hr & Hw%check_wrapped_Ok)%bind_Ok).
  apply negb_true_iff, Nat.eqb_neq in Hp. rewrite climb_total in Hr.
  destruct (chunk_multi_sound _ _ _ _ Hcb Hc Hr Hw) as [Hall|]; [left|by right].
  split; [lia|]. apply chunked_leaf_chunk; [done|]. apply Hall. by left.
Qed.

(** [verify_chunk] is sound: it accepts only chunks, never the metadata
    leaf, and only the chunk that is at that position. *)
Theorem verify_chunk_sound (cb : ChunkedBlob) (chunk : hash32) (position : nat) (p : Proof_)
    (Hcb : chunked_bounded cb) (Hc : (N.of_nat (leaf_count p) <= U32_MAX)%N)
    (Hv : verify_chunk (compute_chunked_id cb) chunk position p = Ok tt) :
  (0 < position ∧ cb_chunks cb !! (position - 1) = Some chunk) ∨
  collides (chunked_id_inputs cb) (verify_inputs KChunkedBlob p [(chunk, position)]).
Proof. by apply chunk_sound. Qed.

(** The two kinds are apart: no chunk proof verifies against a tree id, and
    no tree entry proof against a chunked blob id, short of an explicit
    collision. *)
Theorem verify_kinds_apart (t : Tree) (cb : ChunkedBlob) (chunk : hash32) (e : TreeEntry)
    (position : nat) (p : Proof_) :
  (verify_chunk (compute_tree_id t) chunk position p ≠ Ok tt ∨
   collides (tree_id_inputs t) (verify_inputs KChunkedBlob p [(chunk, position)])) ∧
  (verify_tree_entry (compute_chunked_id cb) e position p ≠ Ok tt ∨
   collides (chunked_id_inputs cb) (verify_inputs KTree p [(tree_entry_leaf e, position)])).
Proof.
  split.
  - destruct (decide (verify_chunk (compute_tree_id t) chunk position p = Ok tt)) as [Hv|];
      [right|by left].
    apply bind_Ok in Hv as ([] & _ & (root & Hr & Hw%check_wrapped_Ok)%bind_Ok).
    rewrite climb_total in Hr.
    destruct (verify_root _ _ _ _ _ _ (tree_id_inputs t) Hr Hw ltac:(by left)) as [[? _]|]; done.
  - destruct (decide (verify_tree_entry (compute_chunked_id cb) e position p = Ok tt)) as [Hv|];
      [right|by left].
    apply bind_Ok in Hv as (root & Hr & Hw%check_wrapped_Ok). rewrite climb_total in Hr.
    destruct (verify_root _ _ _ _ _ _ (chunked_id_inputs cb) Hr Hw ltac:(by left)) as [[? _]|];
      done.
Qed.

(** *** Completeness *)

Lemma tree_elements t entries :
  (∀ e pos, (e, pos) ∈ entries → tree_entries t !! pos = Some e) →
  entry_elements entries = leaves_at (tree_leaves t) (map snd entries) ∧
  ∀ pos, pos ∈ map snd entries → pos < length (tree_leaves t).
Proof.
  intros Hall. split.
  - unfold entry_elements, leaves_at. rewrite map_map. apply map_ext_in.
    intros [e pos] Hin%list_elem_of_In. simpl. f_equal. unfold node, tree_leaves.
    by rewrite list_lookup_fmap, (Hall _ _ Hin).
  - intros pos ([e pos'] & -> & Hin)%list_elem_of_fmap. unfold tree_leaves. rewrite length_map.
    simpl. by eapply lookup_lt_Some, Hall.
Qed.

(** Proofs of tree entries are complete. For any entries of a tree given
    with their positions, distinct and in any order, the builder gives a proof,
    and that proof verifies against the tree's id for the entries in any order. *)
Theorem tree_entries_multi_complete (t : Tree) (entries : list (TreeEntry * nat))
    (Hne : entries ≠ []) (Hnd : NoDup (map snd entries))
    (Hall : ∀ e pos, (e, pos) ∈ entries → tree_entries t !! pos = Some e) :
  ∃ p, build_tree_entries_multi_proof t (map snd entries) = Ok p ∧
       ∀ entries', entries' ≡ₚ entries →
         verify_tree_entries_multi (compute_tree_id t) entries' p = Ok tt.
Proof.
  destruct (tree_elements t entries Hall) as [Hel Hlt].
  assert (map snd entries ≠ []) as Hne' by (by destruct entries).
  destruct (multi_complete (tree_leaves t) (map snd entries) (entry_elements entries) Hnd Hne' Hlt)
    as (p & Hp & Hcount & Hsibs & _).
  { by rewrite Hel. }
  exists p. split; [done|]. intros entries' Hperm.
  destruct (multi_complete (tree_leaves t) (map snd entries) (entry_elements entries') Hnd Hne' Hlt)
    as (p' & Hp' & _ & _ & Hr).
  { rewrite <- Hel. unfold entry_elements. by rewrite Hperm. }
  assert (p' = p) as -> by congruence.
  unfold verify_tree_entries_multi. fold (entry_elements entries'). rewrite Hr.
  by apply check_wrapped_Ok.
Qed.

Lemma range_leaves leaves start sub :
  sub ≠ [] → (∀ i l, sub !! i = Some l → leaves !! (start + i) = Some l) →
  start + (length sub - 1) < length leaves ∧
  imap (λ i l, (l, start + i)) sub
    = leaves_at leaves (interval start (start + (length sub - 1))).
Proof.
  intros Hne Hall. assert (0 < length sub) by (destruct sub; [done|simpl; lia]). split.
  - destruct (lookup_lt_is_Some_2 sub (length sub - 1)) as [x Hx]; [lia|].
    by eapply lookup_lt_Some, Hall.
  - apply list_eq. intros i. unfold leaves_at, interval.
    rewrite list_lookup_imap, list_lookup_fmap.
    replace (start + (length sub - 1) + 1 - start) with (length sub) by lia.
    destruct (decide (i < length sub)) as [Hi|Hi].
    + rewrite lookup_seq_lt by done. destruct (lookup_lt_is_Some_2 sub i Hi) as [l Hl].
      rewrite Hl. simpl. unfold node. by rewrite (Hall _ _ Hl).
    + rewrite lookup_seq_ge by lia. by rewrite lookup_ge_None_2 by lia.
Qed.

Lemma range_complete leaves start sub :
  sub ≠ [] → (lenN leaves <= U32_MAX)%N →
  (∀ i l, sub !! i = Some l → leaves !! (start + i) = Some l) →
  ∃ p, bt_range_proof (build_bmt leaves) start (start + (length sub - 1)) = Ok p ∧
       reconstruct_range_root p start sub = Ok (bt_root (build_bmt leaves)).
Proof.
  intros Hne Hn Hall. destruct (range_leaves leaves start sub Hne Hall) as [Hlt Hel].
  set (e := start + (length sub - 1)) in *.
  destruct (multi_complete leaves (interval start e) (imap (λ i l, (l, start + i)) sub))
    as (p & Hp & Hcount & _ & Hr).
  - apply NoDup_seq.
  - unfold interval. replace (e + 1 - start) with (S (e - start)) by lia. done.
  - intros q Hq%interval_elem; lia.
  - by rewrite Hel.
  - exists p. rewrite range_proof_multi by lia. split; [done|].
    unfold reconstruct_range_root. destruct sub as [|x sub]; [done|].
    fold e. rewrite Hcount.
    assert ((N.of_nat e <=? U32_MAX)%N = true) as -> by (apply N.leb_le; unfold lenN in Hn; lia).
    cbn [mbind result_bind ensure]. by apply Nat.ltb_lt in Hlt as ->.
Qed.

(** Range proofs of tree entries are complete: for a run of consecutive
    entries of a tree the range builder gives a proof that verifies against the
    tree's id. *)
Theorem tree_entries_range_complete (t : Tree) (start : nat) (entries : list TreeEntry)
    (Hne : entries ≠ []) (Hn : (lenN (tree_entries t) <= U32_MAX)%N)
    (Hall : ∀ i e, entries !! i = Some e → tree_entries t !! (start + i) = Some e) :
  ∃ p, build_tree_entries_range_proof t start (start + (length entries - 1)) = Ok p ∧
       verify_tree_entries_range (compute_tree_id t) start entries p = Ok tt.
Proof.
  destruct (range_complete (tree_leaves t) start (map tree_entry_leaf entries)) as (p & Hp & Hr).
  - by destruct entries.
  - unfold tree_leaves, lenN. by rewrite length_map.
  - intros i l. unfold tree_leaves. rewrite !list_lookup_fmap.
    destruct (entries !! i) as [e|] eqn:He; [|done]. intros [= <-]. by rewrite (Hall _ _ He).
  - rewrite length_map in Hp. exists p. split; [done|].
    unfold verify_tree_entries_range. rewrite Hr. by apply check_wrapped_Ok.
Qed.

(** Chunk proofs are complete: the proof built for the chunk at index [i]
    (tree position [i + 1]) verifies against the blob's id. *)
Theorem chunk_proof_complete (cb : ChunkedBlob) (i : nat) (chunk : hash32)
    (Hi : cb_chunks cb !! i = Some chunk) :
  ∃ p, build_chunk_proof cb (i + 1) = Ok p ∧
       verify_chunk (compute_chunked_id cb) chunk (i + 1) p = Ok tt.
Proof.
  rewrite Nat.add_1_r.
  assert (chunked_leaves cb !! S i = Some chunk) as Hl by done.
  destruct (multi_complete (chunked_leaves cb) [S i] [(chunk, S i)]) as (p & Hp & _ & _ & Hr).
  - apply list.NoDup_singleton.
  - done.
  - intros q ->%list_elem_of_singleton. by eapply lookup_lt_Some.
  - unfold leaves_at, node. cbn [map]. by rewrite Hl.
  - exists p. split; [done|]. unfold verify_chunk. cbn [mbind result_bind ensure negb Nat.eqb].
    rewrite climb_total, Hr. by apply check_wrapped_Ok.
Qed.

(** The single-leaf verifier, which walks one path with a [while] loop, and
    the multi-leaf verifier, which folds whole levels, agree on one element:
    same root and same error, for every proof, leaf and position. *)
Theorem element_root_is_multi_root (p : Proof_) (leaf : hash32) (position : nat) :
  reconstruct_element_root p leaf position = reconstruct_multi_root p [(leaf, position)].
Proof. apply climb_total. Qed.

(** The range builder and the multi builder select the same siblings: a
    range proof is byte for byte the multi-proof of the positions in range. *)
Theorem range_proof_is_multi_proof (leaves : list hash32) (start end_ : nat)
    (H1 : start <= end_) (H2 : end_ < length leaves) :
  bt_range_proof (build_bmt leaves) start end_ =
  bt_multi_proof (build_bmt leaves) (seq start (end_ + 1 - start)).
Proof. by apply range_proof_multi. Qed.

(** The shape of a built tree. Over [n > 0] leaves there are
    [levels_in_tree n] levels, the first the position-hashed leaves, each next
    one half as long (rounded up), the last a single node; the root hashes the
    leaf count and that node. *)
Theorem build_bmt_shape (leaves : list hash32) (Hne : leaves ≠ []) :
  let t := build_bmt leaves in
  length (bt_levels t) = levels_in_tree (length leaves) ∧
  head (bt_levels t) = Some (imap position_leaf leaves) ∧
  (∀ i l l', bt_levels t !! i = Some l → bt_levels t !! S i = Some l' →
     l' = next_level l ∧ length l' = div_ceil2 (length l)) ∧
  ∃ top, list.last (bt_levels t) = Some [top] ∧
         bt_root t = h2 (be32 (length leaves)) (arr_bytes top).
Proof.
  intros t. destruct (build_bmt_chain leaves Hne) as (Hc & Htop). fold t in Hc, Htop.
  split; [by rewrite (chain_length _ _ Hc), length_level0|].
  split; [exact (chain_head _ _ Hc)|]. split; [|done].
  clear Htop. generalize dependent (bt_levels t). intros levels Hc.
  enough (∀ i l l', levels !! i = Some l → levels !! S i = Some l' → l' = next_level l) as Hnext.
  { intros i l l' H1 H2. rewrite (Hnext _ _ _ H1 H2). split; [done|apply length_next_level]. }
  clear t. induction Hc as [x|cur levels Hl Hc IH]; intros [|i] l l' H1 H2; try done.
  - injection H1 as <-. pose proof (chain_head _ _ Hc) as Hh. cbn in H2.
    destruct levels; [done|]. cbn in *. congruence.
  - by apply (IH i).
Qed.
End ids.

(** ** Witnesses, with the computable stand-in hash *)

Import Toy.

Definition ex_entry (name : bytes) (n : N) : TreeEntry :=
  {| te_name := name; te_mode := EntryMode.Blob; te_hash := digest n |}.

Definition ex_tree : Tree := {| tree_entries :=
  [ex_entry (b# "a") 1; ex_entry (b# "b") 2; ex_entry (b# "c") 3] |}.

Definition ex_chunked : ChunkedBlob :=
  {| cb_total_size := 30; cb_chunk_size := 0; cb_chunks := [digest 7; digest 8] |}.

Definition ex_proof (r : result MerkleError Proof_) : Proof_ :=
  match r with Ok p => p | Err _ => {| leaf_count := 0; siblings := [] |} end.

Lemma ex_tree_bounded : tree_bounded ex_tree.
Proof. split; [vm_compute; done|]. repeat constructor; vm_compute; done. Defined.

Lemma ex_chunked_bounded : chunked_bounded ex_chunked.
Proof. split_and!; vm_compute; done. Defined.

Lemma compute_tree_id_commits_witness :
  ex_tree = ex_tree ∨ collides (tree_id_inputs ex_tree) (tree_id_inputs ex_tree).
Proof. exact (compute_tree_id_commits ex_tree ex_tree ex_tree_bounded ex_tree_bounded eq_refl). Defined.

Lemma compute_chunked_id_commits_witness :
  ex_chunked = ex_chunked ∨ collides (chunked_id_inputs ex_chunked) (chunked_id_inputs ex_chunked).
Proof.
  exact (compute_chunked_id_commits ex_chunked ex_chunked ex_chunked_bounded ex_chunked_bounded
           eq_refl).
Defined.

Definition ex_entries : list (TreeEntry * nat) := [(ex_entry (b# "c") 3, 2); (ex_entry (b# "a") 1, 0)].
Definition ex_multi : Proof_ := ex_proof (build_tree_entries_multi_proof ex_tree [2; 0]).

Lemma verify_tree_entries_multi_sound_witness :
  (∀ e pos, (e, pos) ∈ ex_entries → tree_entries ex_tree !! pos = Some e) ∨
  collides (tree_id_inputs ex_tree) (tree_verify_inputs ex_multi ex_entries).
Proof.
  apply (verify_tree_entries_multi_sound ex_tree ex_entries ex_multi ex_tree_bounded).
  - repeat constructor; vm_compute; done.
  - vm_compute; done.
  - vm_compute; reflexivity.
Defined.

Definition ex_meta_proof : Proof_ := ex_proof (build_chunks_multi_proof ex_chunked [0; 2]).

Lemma verify_chunk_with_meta_leaf_sound_witness :
  (30%N = cb_total_size ex_chunked ∧ 0%N = cb_chunk_size ex_chunked ∧ 0 < 2 ∧
   cb_chunks ex_chunked !! (2 - 1) = Some (digest 8)) ∨
  collides (chunked_id_inputs ex_chunked)
    (meta_input 30 0 ::
     verify_inputs KChunkedBlob ex_meta_proof [(chunked_meta_leaf_raw 30 0, 0); (digest 8, 2)]).
Proof.
  apply (verify_chunk_with_meta_leaf_sound ex_chunked 30 0 (digest 8) 2 ex_meta_proof
           ex_chunked_bounded); vm_compute; done.
Defined.

Definition ex_chunk_proof : Proof_ := ex_proof (build_chunk_proof ex_chunked 1).

Lemma verify_chunk_sound_witness :
  (0 < 1 ∧ cb_chunks ex_chunked !! (1 - 1) = Some (digest 7)) ∨
  collides (chunked_id_inputs ex_chunked)
    (verify_inputs KChunkedBlob ex_chunk_proof [(digest 7, 1)]).
Proof.
  apply (verify_chunk_sound ex_chunked (digest 7) 1 ex_chunk_proof ex_chunked_bounded);
    vm_compute; done.
Defined.

Lemma tree_entries_multi_complete_witness :
  ∃ p, build_tree_entries_multi_proof ex_tree (map snd ex_entries) = Ok p ∧
       ∀ entries', entries' ≡ₚ ex_entries →
         verify_tree_entries_multi (compute_tree_id ex_tree) entries' p = Ok tt.
Proof.
  apply (tree_entries_multi_complete ex_tree ex_entries).
  - done.
  - apply (bool_decide_unpack _). vm_compute. done.
  - intros e pos [[= -> ->]|[[= -> ->]|[]%elem_of_nil]%elem_of_cons]%elem_of_cons; done.
Defined.

Lemma tree_entries_range_complete_witness :
  ∃ p, build_tree_entries_range_proof ex_tree 1 (1 + (2 - 1)) = Ok p ∧
       verify_tree_entries_range (compute_tree_id ex_tree) 1
         [ex_entry (b# "b") 2; ex_entry (b# "c") 3] p = Ok tt.
Proof.
  apply (tree_entries_range_complete ex_tree 1 [ex_entry (b# "b") 2; ex_entry (b# "c") 3]).
  - done.
  - vm_compute; done.
  - intros [|[|i]] e [= <-]; done.
Defined.

Lemma chunk_proof_complete_witness :
  ∃ p, build_chunk_proof ex_chunked (1 + 1) = Ok p ∧
       verify_chunk (compute_chunked_id ex_chunked) (digest 8) (1 + 1) p = Ok tt.
Proof. apply (chunk_proof_complete ex_chunked 1 (digest 8)). reflexivity. Defined.

Lemma range_proof_is_multi_proof_witness :
  bt_range_proof (build_bmt (tree_leaves ex_tree)) 1 2 =
  bt_multi_proof (build_bmt (tree_leaves ex_tree)) (seq 1 (2 + 1 - 1)).
Proof. apply range_proof_is_multi_proof; vm_compute; lia. Defined.

Lemma build_bmt_shape_witness :
  let t := build_bmt (tree_leaves ex_tree) in
  length (bt_levels t) = levels_in_tree (length (tree_leaves ex_tree)) ∧
  head (bt_levels t) = Some (imap position_leaf (tree_leaves ex_tree)) ∧
  (∀ i l l', bt_levels t !! i = Some l → bt_levels t !! S i = Some l' →
     l' = next_level l ∧ length l' = div_ceil2 (length l)) ∧
  ∃ top, list.last (bt_levels t) = Some [top] ∧
         bt_root t = h2 (be32 (length (tree_leaves ex_tree))) (arr_bytes top).
Proof. apply (build_bmt_shape (tree_leaves ex_tree)). discriminate. Defined.

Lemma verify_kinds_apart_witness :
  (verify_chunk (compute_tree_id ex_tree) (digest 7) 1 ex_chunk_proof ≠ Ok tt ∨
   collides (tree_id_inputs ex_tree) (verify_inputs KChunkedBlob ex_chunk_proof [(digest 7, 1)])) ∧
  (verify_tree_entry (compute_chunked_id ex_chunked) (ex_entry (b# "a") 1) 1 ex_chunk_proof ≠ Ok tt ∨
   collides (chunked_id_inputs ex_chunked)
     (verify_inputs KTree ex_chunk_proof [(tree_entry_leaf (ex_entry (b# "a") 1), 1)])).
Proof.
  exact (verify_kinds_apart ex_tree ex_chunked (digest 7) (ex_entry (b# "a") 1) 1 ex_chunk_proof).
Defined.
