(* ===== verification/ObjectId.v ===== *)
(** * Object identity: [Object::id] and its byte-level twins

    The second half of [rust/crates/mkit-core/src/object.rs]: the id of an
    object in memory, of an object with its bytes, of bytes, and of bytes in
    parts; that they agree; and that an id commits to its object. *)

From S2P Require Import Prelude Hash Object Serialize SerializeFacts.
From S2P Require Import Merkle MerkleFacts MerkleProofs.

Section id.
Context `{B : Blake3}.

Definition merkle_id (obj : Object) : option hash32 :=
  match obj with
  | OTree t => Some (compute_tree_id t)
  | OChunkedBlob cb => Some (compute_chunked_id cb)
  | _ => None
  end.

(** [Object::id]. *)
Definition Object_id (obj : Object) : result MkitError hash32 :=
  match merkle_id obj with
  | Some h => Ok h
  | None => bs ← serialize obj; mret (hash bs)
  end.

Definition id_from_object (obj : Object) (bs : bytes) : hash32 :=
  default (hash bs) (merkle_id obj).

(** [bytes.first().and_then(|b| ObjectType::from_u8(b).ok()).is_some_and(is_merkle)]. *)
Definition first_is_merkle (bs : bytes) : bool :=
  match head bs with
  | Some b => match ObjectType.from_u8 b with Ok t => ObjectType.is_merkle t | Err _ => false end
  | None => false
  end.

Definition verified_id_and_object (bs : bytes) : hash32 * option Object :=
  match (if first_is_merkle bs then to_option (deserialize bs) else None) with
  | Some obj => (id_from_object obj bs, Some obj)
  | None => (hash bs, None)
  end.

Definition object_id_from_bytes (bs : bytes) : hash32 := (verified_id_and_object bs).1.

Definition object_id_from_parts (parts : list bytes) : hash32 :=
  if match head parts with Some p => first_is_merkle p | None => false end
  then object_id_from_bytes (concat parts)
  else Hasher_finalize (foldl Hasher_update Hasher_new parts).

(** ** Agreement *)

Lemma first_is_merkle_object obj body :
  first_is_merkle (write_prologue (object_type obj) ++ body) = bool_decide (is_Some (merkle_id obj)).
Proof. by destruct obj. Qed.

Lemma serialize_prologue obj bs :
  serialize obj = Ok bs → ∃ body, bs = write_prologue (object_type obj) ++ body.
Proof. unfold serialize. intros (l & _ & <-%ret_Ok)%bind_Ok. by exists l. Qed.

Lemma object_id_from_bytes_object obj bs :
  wf obj = true → serialize obj = Ok bs → object_id_from_bytes bs = id_from_object obj bs.
Proof.
  intros Hw Hs. pose proof (serialize_deserialize obj bs Hw Hs) as Hd.
  destruct (serialize_prologue _ _ Hs) as [body Eb].
  unfold object_id_from_bytes, verified_id_and_object.
  rewrite Eb at 1. rewrite first_is_merkle_object, Hd. unfold id_from_object.
  case_bool_decide as Hm; [done|]. destruct (merkle_id obj); [|done].
  destruct Hm. eauto.
Qed.

Lemma Object_id_object obj bs :
  serialize obj = Ok bs → Object_id obj = Ok (id_from_object obj bs).
Proof.
  intros Hs. unfold Object_id, id_from_object. destruct (merkle_id obj); [done|].
  by rewrite Hs.
Qed.

(** A part list whose first part is not empty starts with that part's byte. *)
Lemma parts_first parts :
  head parts ≠ Some [] →
  match head parts with Some p => first_is_merkle p | None => false end
  = first_is_merkle (concat parts).
Proof. destruct parts as [|[|b p] parts]; [done| |done]. intros H. by destruct H. Qed.

Lemma not_merkle_hashed bs : first_is_merkle bs = false → object_id_from_bytes bs = hash bs.
Proof. intros E. unfold object_id_from_bytes, verified_id_and_object. by rewrite E. Qed.

Lemma verified_decoded bs obj :
  (verified_id_and_object bs).2 = Some obj →
  deserialize bs = Ok obj ∧ (verified_id_and_object bs).1 = id_from_object obj bs.
Proof.
  unfold verified_id_and_object. destruct (first_is_merkle bs); [|done].
  destruct (deserialize bs) as [o|e]; [|done]. by intros [= <-].
Qed.

Context `{BI : !Blake3Incremental}.

Lemma parts_id parts :
  head parts ≠ Some [] → object_id_from_parts parts = object_id_from_bytes (concat parts).
Proof.
  intros Hh. unfold object_id_from_parts. rewrite parts_first by done.
  destruct (first_is_merkle (concat parts)) eqn:E; [done|].
  rewrite not_merkle_hashed by done. apply b3_incremental.
Qed.

(** ** An id commits to its object *)

(** Everything the id of an object hashes. *)
Definition id_inputs (obj : Object) : list bytes :=
  match obj with
  | OTree t => tree_id_inputs t
  | OChunkedBlob cb => chunked_id_inputs cb
  | _ => match serialize obj with Ok bs => [bs] | Err _ => [] end
  end.

Lemma wf_tree_bounded t : wf_tree t = true → tree_bounded t.
Proof.
  intros [[Hn Hv]%andb_true_iff _]%andb_true_iff. split.
  - apply N.leb_le in Hn. unfold MAX_TREE_ENTRIES, U32_MAX in *. lia.
  - apply list.Forall_forall. intros e He. apply forallb_forall with (x := e) in Hv;
      [|by apply list_elem_of_In]. apply validate_name_len in Hv.
    unfold entry_bounded, U32_MAX. lia.
Qed.

Lemma wf_chunked_bounded cb : wf_chunked_blob cb = true → chunked_bounded cb.
Proof.
  intros [[Ht%N.leb_le Hc%N.leb_le]%andb_true_iff Hn%N.leb_le]%andb_true_iff.
  split; [|done]. unfold MAX_CHUNKS, U32_MAX in *. lia.
Qed.

(** The last input hashed for an id: its digest is the id. *)
Lemma id_top obj h :
  Object_id obj = Ok h → ∃ x, x ∈ id_inputs obj ∧ hash x = h ∧
  (if bool_decide (is_Some (merkle_id obj))
   then ∃ k r, x = wrap_input k r ∧ k = (match obj with OTree _ => KTree | _ => KChunkedBlob end)
   else serialize obj = Ok x).
Proof.
  unfold Object_id. intros Hid.
  destruct (merkle_id obj) as [m|] eqn:Em; destruct obj; try done; cbn in Em.
  - injection Em as <-. injection Hid as <-. eexists. split; [by left|].
    split; [symmetry; apply wrap_id_hash|]. rewrite bool_decide_true by eauto. by eexists _, _.
  - injection Em as <-. injection Hid as <-. eexists. split; [by left|].
    split; [symmetry; apply wrap_id_hash|]. rewrite bool_decide_true by eauto. by eexists _, _.
  - apply bind_Ok in Hid as (bs & E & <-%ret_Ok). exists bs. unfold id_inputs. rewrite E.
    split; [by left|]. done.
  - apply bind_Ok in Hid as (bs & E & <-%ret_Ok). exists bs. unfold id_inputs. rewrite E.
    split; [by left|]. done.
  - apply bind_Ok in Hid as (bs & E & <-%ret_Ok). exists bs. unfold id_inputs. rewrite E.
    split; [by left|]. done.
  - apply bind_Ok in Hid as (bs & E & <-%ret_Ok). exists bs. unfold id_inputs. rewrite E.
    split; [by left|]. done.
  - apply bind_Ok in Hid as (bs & E & <-%ret_Ok). exists bs. unfold id_inputs. rewrite E.
    split; [by left|]. done.
Qed.

(** A wrapped root and an encoded object never have the same bytes: they differ
    in the second one. *)
Lemma wrap_not_serialized k r obj bs : serialize obj = Ok bs → wrap_input k r ≠ bs.
Proof.
  intros [body ->]%serialize_prologue E.
  apply (f_equal (λ l, l !! 1)) in E.
  assert (wrap_input k r !! 1 = Some Byte.x00) as H by (destruct k; reflexivity).
  rewrite H in E. discriminate E.
Qed.

Lemma serialize_inj o1 o2 bs :
  wf o1 = true → wf o2 = true → serialize o1 = Ok bs → serialize o2 = Ok bs → o1 = o2.
Proof.
  intros W1 W2 S1 S2. pose proof (serialize_deserialize _ _ W1 S1) as D1.
  rewrite (serialize_deserialize _ _ W2 S2) in D1. by injection D1.
Qed.

Lemma id_kind_apart o1 o2 h :
  Object_id o1 = Ok h → Object_id o2 = Ok h → merkle_id o1 = None → is_Some (merkle_id o2) →
  collides (id_inputs o1) (id_inputs o2).
Proof.
  intros H1 H2 M1 M2. destruct (id_top _ _ H1) as (x1 & I1 & E1 & T1).
  destruct (id_top _ _ H2) as (x2 & I2 & E2 & T2).
  rewrite M1 in T1. rewrite bool_decide_true in T2 by done. destruct T2 as (k & r & -> & _).
  exists x1, (wrap_input k r). split; [done|]. split; [done|]. split; [|congruence].
  intros ->. exact (wrap_not_serialized _ _ _ _ T1 eq_refl).
Qed.

(** Two well-formed objects with one id are equal, or their inputs collide. *)
Lemma id_inj o1 o2 h :
  wf o1 = true → wf o2 = true → Object_id o1 = Ok h → Object_id o2 = Ok h →
  o1 = o2 ∨ collides (id_inputs o1) (id_inputs o2).
Proof.
  intros W1 W2 H1 H2.
  destruct (merkle_id o1) as [m1|] eqn:M1, (merkle_id o2) as [m2|] eqn:M2.
  - destruct o1 as [|t1| | |c1| |], o2 as [|t2| | |c2| |]; try done;
      injection H1 as <-; injection H2 as H2; symmetry in H2.
    + destruct (tree_id_inj t1 t2) as [->|]; auto using wf_tree_bounded.
    + right. exists (wrap_input KTree (tree_inner_root t1)).
      exists (wrap_input KChunkedBlob (chunked_inner_root c2)).
      split; [by left|]. split; [by left|]. split; [by intros [[=] _]%wrap_input_inj|].
      rewrite <- !wrap_id_hash. exact H2.
    + right. exists (wrap_input KChunkedBlob (chunked_inner_root c1)).
      exists (wrap_input KTree (tree_inner_root t2)).
      split; [by left|]. split; [by left|]. split; [by intros [[=] _]%wrap_input_inj|].
      rewrite <- !wrap_id_hash. exact H2.
    + destruct (chunked_id_inj c1 c2) as [->|]; auto using wf_chunked_bounded.
  - right. destruct (id_kind_apart o2 o1 h) as (x & y & Hx & Hy & Hne & E); [done..|by eauto|].
    by exists y, x.
  - right. eapply id_kind_apart; [done..|by eauto].
  - destruct (id_top _ _ H1) as (x1 & I1 & E1 & T1). destruct (id_top _ _ H2) as (x2 & I2 & E2 & T2).
    rewrite M1 in T1. rewrite M2 in T2. cbn in T1, T2. 
    destruct (same_digest _ _ x1 x2 I1 I2) as [->|]; [congruence| |by right].
    left. by eapply serialize_inj.
Qed.

(** A wrapped root that is the id of an object is the root of an object of that kind. *)
Lemma wrapped_object o h k r ys :
  Object_id o = Ok h → wrap_id k r = h → wrap_input k r ∈ ys →
  (match k, o with KTree, OTree _ | KChunkedBlob, OChunkedBlob _ => True | _, _ => False end) ∨
  collides (id_inputs o) ys.
Proof.
  intros Ho Hk Hin. destruct (id_top _ _ Ho) as (x & Hx & Eh & Hform).
  rewrite wrap_id_hash in Hk.
  destruct (same_digest (id_inputs o) ys x _ Hx Hin) as [->|]; [congruence| |by right].
  left. case_bool_decide as Hm.
  - destruct Hform as (k' & r' & [-> _]%wrap_input_inj & ->). by destruct o, Hm.
  - by destruct (wrap_not_serialized _ _ _ _ Hform eq_refl).
Qed.

(** ** Properties *)

(** The ways to address an object agree. For a well-formed object and its
    encoding, the id computed from the value ([Object::id]), from the value and
    its bytes, from the bytes alone, and from any list of parts of the bytes
    whose first part is not empty are the same. *)
Theorem object_id_agreement (obj : Object) (bs : bytes) (parts : list bytes)
    (Hw : wf obj = true) (Hs : serialize obj = Ok bs)
    (Hp : concat parts = bs) (Hh : head parts ≠ Some []) :
  Object_id obj = Ok (id_from_object obj bs) ∧
  object_id_from_bytes bs = id_from_object obj bs ∧
  object_id_from_parts parts = id_from_object obj bs.
Proof.
  split; [by apply Object_id_object|]. split; [by apply object_id_from_bytes_object|].
  rewrite parts_id by done. rewrite Hp. by apply object_id_from_bytes_object.
Qed.

(** The decoded object that [verified_id_and_object] hands back is
    well-formed, encodes to the given bytes, and its own id is the verified one. *)
Theorem verified_object_id (bs : bytes) (id : hash32) (obj : Object)
    (H : verified_id_and_object bs = (id, Some obj)) :
  wf obj = true ∧ serialize obj = Ok bs ∧ Object_id obj = Ok id.
Proof.
  destruct (verified_decoded bs obj) as [Hd Hid]; [by rewrite H|].
  rewrite H in Hid. cbn in Hid. subst id.
  apply deserialize_inv in Hd as (Hw & l & E & ->).
  assert (serialize obj = Ok (write_prologue (object_type obj) ++ l)) as Hs
    by (unfold serialize; by rewrite E).
  split; [done|]. split; [done|]. by apply Object_id_object.
Qed.

(** C2: an object id commits to the object. Two well-formed objects, of any
    kinds, with the same id are the same object, or the inputs hashed for the
    one and for the other contain an explicit collision. *)
Theorem object_id_commits (o1 o2 : Object) (h : hash32)
    (W1 : wf o1 = true) (W2 : wf o2 = true)
    (H1 : Object_id o1 = Ok h) (H2 : Object_id o2 = Ok h) :
  o1 = o2 ∨ collides (id_inputs o1) (id_inputs o2).
Proof. by apply (id_inj o1 o2 h). Qed.

(** The part-wise id looks at the first byte of the first part only. With an
    empty first part, the parts of a well-formed tree's encoding are hashed as
    plain bytes, while the id of the bytes they make up is the Merkle id. *)
Theorem object_id_from_parts_empty_first (t : Tree) (bs : bytes)
    (Hw : wf_tree t = true) (Hs : serialize (OTree t) = Ok bs) :
  object_id_from_parts [[]; bs] = hash bs ∧ object_id_from_bytes bs = compute_tree_id t.
Proof.
  split.
  - unfold object_id_from_parts. cbn [head first_is_merkle].
    pose proof (b3_incremental [[]; bs]) as E. cbn [concat] in E. rewrite app_nil_r in E. exact E.
  - by rewrite (object_id_from_bytes_object (OTree t) bs).
Qed.
End id.

(** ** Witnesses, with the computable stand-in hash *)

Import Toy.

Definition ex_id_tree : Tree := {| tree_entries :=
  [{| te_name := b# "src"; te_mode := EntryMode.Tree; te_hash := ZERO |}] |}.
Definition ex_id_bytes : bytes := default [] (to_option (serialize (OTree ex_id_tree))).
Definition ex_id_blob : Object := OBlob {| blob_data := b# "hello" |}.

Lemma ex_id_serialize : serialize (OTree ex_id_tree) = Ok ex_id_bytes.
Proof. vm_compute. reflexivity. Defined.

Lemma object_id_agreement_witness :
  Object_id (OTree ex_id_tree) = Ok (id_from_object (OTree ex_id_tree) ex_id_bytes) ∧
  object_id_from_bytes ex_id_bytes = id_from_object (OTree ex_id_tree) ex_id_bytes ∧
  object_id_from_parts [take 10 ex_id_bytes; []; drop 10 ex_id_bytes]
  = id_from_object (OTree ex_id_tree) ex_id_bytes.
Proof.
  apply (object_id_agreement (OTree ex_id_tree) ex_id_bytes
           [take 10 ex_id_bytes; []; drop 10 ex_id_bytes]).
  - vm_compute; reflexivity.
  - exact ex_id_serialize.
  - vm_compute; reflexivity.
  - discriminate.
Defined.

Lemma verified_object_id_witness :
  wf (OTree ex_id_tree) = true ∧ serialize (OTree ex_id_tree) = Ok ex_id_bytes ∧
  Object_id (OTree ex_id_tree) = Ok (compute_tree_id ex_id_tree).
Proof. apply verified_object_id. vm_compute. reflexivity. Defined.

Lemma object_id_commits_witness :
  ex_id_blob = ex_id_blob ∨ collides (id_inputs ex_id_blob) (id_inputs ex_id_blob).
Proof.
  apply (object_id_commits ex_id_blob ex_id_blob
           (match Object_id ex_id_blob with Ok h => h | Err _ => ZERO end));
    vm_compute; reflexivity.
Defined.

Lemma object_id_from_parts_empty_first_witness :
  object_id_from_parts [[]; ex_id_bytes] = hash ex_id_bytes ∧
  object_id_from_bytes ex_id_bytes = compute_tree_id ex_id_tree.
Proof.
  apply (object_id_from_parts_empty_first ex_id_tree ex_id_bytes);
    [vm_compute; reflexivity|exact ex_id_serialize].
Defined.
