(* ===== verification/Store.v ===== *)
(** * The object store and the object sources

    Models [rust/crates/mkit-core/src/store.rs], [store/source.rs],
    [store/memory.rs] and [store/memory_overlay.rs]: the store of one
    repository as the files under its [objects/] directory, the read trait
    [ObjectSource] with its implementations, and the write paths. A source may
    change when it is read (an overlay debits its budgets), so every read
    threads the source. Flushes and temporary files are not modelled: a write is
    the rename that publishes its file. Pruning takes as arguments what the disk
    answers: the ids that are locked, and those whose files cannot be opened or
    removed, which end it with an error. *)

From S2P Require Import Prelude Hash Object Serialize ObjectId.

Definition FORMAT_VALUE : bytes := b# "bmt-v1".
Definition MAX_RAW_OBJECT_SIZE : N := 1024 * 1024 * 1024.
Definition MAX_TREE_DEPTH : N := 128.

(** [io::Error]: the code of an operating system error, or the message of
    [io::Error::other]. *)
Inductive io_error :=
  | OsError (code : N)
  | OtherError (msg : bytes).

Inductive StoreError :=
  | NotAMkitRepository
  | AlreadyInitialized
  | IncompatibleRepoFormat (found : option bytes)
  | ObjectNotFound (hex : bytes)
  | ObjectTooLarge
  | TreeTooDeep
  | OperationLimitExceeded (budget : bytes)
  | HashMismatch (expected actual : bytes)
  | Io (e : io_error)
  | Decode (e : MkitError)
  | DeltaBatchLengthMismatch (expected actual : N).

(** [?] on a [Result<_, MkitError>] in a function that returns [StoreError]. *)
Definition decode_err {A} (r : result MkitError A) : result StoreError A :=
  match r with Ok a => Ok a | Err e => Err (Decode e) end.

(** A computation that reads through a source [S]. *)
Definition M (S A : Type) : Type := S → result StoreError A * S.

Definition m_ret {S A} (a : A) : M S A := λ s, (Ok a, s).
Definition m_bind {S A B} (m : M S A) (f : A → M S B) : M S B := λ s,
  match m s with
  | (Ok a, s) => f a s
  | (Err e, s) => (Err e, s)
  end.
Definition m_lift {S A} (r : result StoreError A) : M S A := λ s, (r, s).

(** ** Files *)

(** A regular file: its contents, its modification time in seconds when it can
    be told, and the error that opening it gives, if it gives one. *)
Record FsFile := {
  fs_bytes : bytes;
  fs_mtime : option N;
  fs_open_error : option io_error
}.

#[export] Instance io_error_eq_dec : EqDecision io_error.
Proof. solve_decision. Defined.

#[export] Instance ObjectPath_eq_dec : EqDecision ObjectPath.
Proof. solve_decision. Defined.

#[export] Instance ObjectPath_countable : Countable ObjectPath.
Proof.
  refine (inj_countable (λ p, (op_dir p, op_file p))
            (λ p, Some {| op_dir := p.1; op_file := p.2 |}) _).
  by intros [].
Defined.

(** The files below [objects_root] that have a two-part object path. *)
Record ObjectStore := { disk : gmap ObjectPath FsFile }.

Definition path_for (h : hash32) : ObjectPath := object_path h.

Definition check_hash (expected actual : hash32) : result StoreError () :=
  ensure (bool_decide (actual = expected))
    (HashMismatch (to_hex expected) (to_hex actual)).

(** [File::open] with the error mapping of the store's readers. *)
Definition open_object (st : ObjectStore) (h : hash32) : result StoreError FsFile :=
  match disk st !! path_for h with
  | None => Err (ObjectNotFound (to_hex h))
  | Some f => match fs_open_error f with Some e => Err (Io e) | None => Ok f end
  end.

Section store.
Context `{B : Blake3}.

(** ** [ObjectStore]: reads *)

Definition contains (st : ObjectStore) (h : hash32) : bool :=
  bool_decide (is_Some (disk st !! path_for h)).

Definition read_raw (st : ObjectStore) (h : hash32) : result StoreError bytes :=
  f ← open_object st h;
  _ ← ensure (lenN (fs_bytes f) <=? MAX_RAW_OBJECT_SIZE)%N ObjectTooLarge;
  mret (fs_bytes f).

Definition read (st : ObjectStore) (h : hash32) : result StoreError bytes :=
  bs ← read_raw st h;
  _ ← check_hash h (object_id_from_bytes bs);
  mret bs.

Definition read_unverified (st : ObjectStore) (h : hash32) : result StoreError bytes :=
  read_raw st h.

(** The checks of [object_type] and [verify_object_type] on a prologue. *)
Definition prologue_type (bs : bytes) : result StoreError ObjectType.t :=
  _ ← ensure (6 <=? length bs) (Decode EmptyData);
  _ ← ensure (bytes_eqb (take 4 (drop 1 bs)) MAGIC) (Decode InvalidMagic);
  _ ← ensure (bool_decide (nth 5 bs Byte.x00 = SCHEMA_VERSION))
        (Decode UnsupportedObjectVersion);
  decode_err (ObjectType.from_u8 (nth 0 bs Byte.x00)).

Definition store_object_type (st : ObjectStore) (h : hash32) : result StoreError ObjectType.t :=
  f ← open_object st h;
  prologue_type (take 6 (fs_bytes f)).

Definition verify_object_type (st : ObjectStore) (h : hash32) : result StoreError ObjectType.t :=
  bs ← read st h;
  prologue_type bs.

Definition read_object (st : ObjectStore) (h : hash32) : result StoreError Object :=
  bs ← read_raw st h;
  _ ← check_hash h (verified_id_and_object bs).1;
  match (verified_id_and_object bs).2 with
  | Some obj => Ok obj
  | None => decode_err (deserialize bs)
  end.

(** ** [ObjectStore]: writes

    [now] is the modification time the file system gives to a new file. *)

Definition put_file (p : ObjectPath) (now : option N) (bs : bytes) (st : ObjectStore)
    : ObjectStore :=
  {| disk := <[ p := {| fs_bytes := bs; fs_mtime := now; fs_open_error := None |} ]>
               (disk st) |}.

Definition write (now : option N) (bs : bytes) : M ObjectStore hash32 := λ st,
  if (MAX_RAW_OBJECT_SIZE <? lenN bs)%N then (Err ObjectTooLarge, st)
  else
    let h := object_id_from_bytes bs in
    if contains st h then (Ok h, st)
    else (Ok h, put_file (path_for h) now bs st).

(** [ErrorKind::NotFound], the error ENOENT. *)
Definition not_found : io_error := OsError 2.

(** [fs::remove_file]; [refused]: the error with which the file system refuses. *)
Definition remove_file (refused : option io_error) (p : ObjectPath) (st : ObjectStore)
    : result io_error () * ObjectStore :=
  match refused, disk st !! p with
  | Some e, _ => (Err e, st)
  | None, None => (Err not_found, st)
  | None, Some _ => (Ok tt, {| disk := delete p (disk st) |})
  end.

Definition remove_object (refused : option io_error) (h : hash32) (st : ObjectStore)
    : result StoreError () * ObjectStore :=
  match remove_file refused (path_for h) st with
  | (Ok _, st) => (Ok tt, st)
  | (Err e, st) => (if bool_decide (e = not_found) then Ok tt else Err (Io e), st)
  end.

Definition object_metadata (st : ObjectStore) (h : hash32) : result StoreError FsFile :=
  ok_or (disk st !! path_for h) (ObjectNotFound (to_hex h)).

Definition is_ascii_hexdigit (b : byte) : bool := is_ok (hex_nibble b).

(** The ids that the file names spell. *)
Definition object_names (st : ObjectStore) : list hash32 :=
  omap (λ p, if forallb is_ascii_hexdigit (arr_bytes (op_dir p))
             then to_option (from_hex (arr_bytes (op_dir p) ++ arr_bytes (op_file p)))
             else None)
    (map_to_list (disk st)).*1.

(** [unlisted]: the error of listing a directory of the store, if one fails. *)
Definition iter_object_hashes (unlisted : option io_error) (st : ObjectStore)
    : result StoreError (list hash32) :=
  match unlisted with Some e => Err (Io e) | None => Ok (object_names st) end.

Definition old_enough (meta : FsFile) (now grace : N) : bool :=
  match fs_mtime meta with
  | Some mtime => (grace <=? now - mtime)%N
  | None => false
  end.

(** [prune_if_old_with_hook]; [no_format]: the error of opening the format file;
    [locked]: another writer holds its lock. *)
Definition prune_if_old_with_hook (h : hash32) (now grace : N) (no_format : option io_error)
    (locked : bool) (refused : option io_error) (before_unlink : ObjectStore → ObjectStore)
    (st : ObjectStore) : result StoreError (option N) * ObjectStore :=
  match no_format with
  | Some e => (Err (Io e), st)
  | None =>
      if locked then (Ok None, st)
      else match object_metadata st h with
           | Err _ => (Ok None, st)
           | Ok meta =>
               if negb (old_enough meta now grace) then (Ok None, st)
               else match remove_object refused h (before_unlink st) with
                    | (Ok _, st) => (Ok (Some (lenN (fs_bytes meta))), st)
                    | (Err e, st) => (Err e, st)
                    end
           end
  end.

(** ** [BulkWriter] *)

Record BulkWriter := {
  bw_store : ObjectStore;
  bw_dirs : gset (arr 2);
  bw_files : gset ObjectPath;
  bw_refreshed : gset hash32
}.

Definition bulk_writer (st : ObjectStore) : BulkWriter :=
  {| bw_store := st; bw_dirs := ∅; bw_files := ∅; bw_refreshed := ∅ |}.

(** [fs::read(path) == bytes]. *)
Definition file_is (st : ObjectStore) (p : ObjectPath) (bs : bytes) : bool :=
  match disk st !! p with
  | Some f => bool_decide (fs_open_error f = None ∧ fs_bytes f = bs)
  | None => false
  end.

Definition set_mtime (p : ObjectPath) (now : option N) (st : ObjectStore) : ObjectStore :=
  {| disk := alter (λ f, {| fs_bytes := fs_bytes f; fs_mtime := now;
                            fs_open_error := fs_open_error f |}) p (disk st) |}.

(** [BulkWriter::write]; [refresh]: whether [refresh_mtime] succeeds. *)
Definition bulk_write (now : option N) (refresh : bool) (bs : bytes) (w : BulkWriter)
    : result StoreError hash32 * BulkWriter :=
  if (MAX_RAW_OBJECT_SIZE <? lenN bs)%N then (Err ObjectTooLarge, w)
  else
    let h := object_id_from_bytes bs in
    let p := path_for h in
    let already := bool_decide (h ∈ bw_refreshed w) in
    if file_is (bw_store w) p bs && (already || refresh) then
      (Ok h,
       {| bw_store := if already then bw_store w else set_mtime p now (bw_store w);
          bw_dirs := {[ op_dir p ]} ∪ bw_dirs w;
          bw_files := {[ p ]} ∪ bw_files w;
          bw_refreshed := {[ h ]} ∪ bw_refreshed w |})
    else
      (Ok h,
       {| bw_store := put_file p now bs (bw_store w);
          bw_dirs := {[ op_dir p ]} ∪ bw_dirs w;
          bw_files := bw_files w;
          bw_refreshed := {[ h ]} ∪ bw_refreshed w |}).

(** ** [MemorySource] *)

Record MemorySource := { ms_objects : gmap hash32 bytes }.

Definition ms_insert (id : hash32) (bs : bytes) (s : MemorySource)
    : result StoreError () * MemorySource :=
  if (MAX_RAW_OBJECT_SIZE <? lenN bs)%N then (Err ObjectTooLarge, s)
  else match check_hash id (object_id_from_bytes bs) with
       | Err e => (Err e, s)
       | Ok _ => (Ok tt, {| ms_objects := <[ id := bs ]> (ms_objects s) |})
       end.

Definition ms_bytes (s : MemorySource) (id : hash32) : result StoreError bytes :=
  ok_or (ms_objects s !! id) (ObjectNotFound (to_hex id)).

Definition ms_read (s : MemorySource) (id : hash32) : result StoreError bytes :=
  bs ← ms_bytes s id;
  _ ← check_hash id (object_id_from_bytes bs);
  mret bs.

(** ** [ObjectSource] *)

Class ObjectSource (S : Type) := {
  src_read : hash32 → M S bytes;
  src_read_object : hash32 → M S Object;
  src_read_unverified : hash32 → M S bytes
}.

(** The trait's default [read_object]. *)
Definition default_read_object {S} (rd : hash32 → M S bytes) (h : hash32) : M S Object :=
  m_bind (rd h) (λ bs, m_lift (decode_err (deserialize bs))).

#[export] Instance ObjectStore_source : ObjectSource ObjectStore := {
  src_read h := λ st, (read st h, st);
  src_read_object h := λ st, (read_object st h, st);
  src_read_unverified h := λ st, (read_unverified st h, st)
}.

#[export] Instance MemorySource_source : ObjectSource MemorySource := {
  src_read h := λ s, (ms_read s h, s);
  src_read_object := default_read_object (λ h s, (ms_read s h, s));
  src_read_unverified h := λ s, (ms_read s h, s)
}.

(** [DisplaySource]: the source whose reads are the inner unverified ones. *)
Record DisplaySource (S : Type) := { display_inner : S }.
#[global] Arguments display_inner {S} _.

Definition display_read {S} `{ObjectSource S} (h : hash32) : M (DisplaySource S) bytes := λ d,
  let '(r, s) := src_read_unverified h (display_inner d) in (r, {| display_inner := s |}).

#[export] Instance DisplaySource_source S `{ObjectSource S} : ObjectSource (DisplaySource S) := {
  src_read := display_read;
  src_read_object := default_read_object display_read;
  src_read_unverified := display_read
}.

(** ** [MemoryOverlay] *)

Record MemoryOverlayLimits := {
  lim_read_calls : N;
  lim_read_bytes : N;
  lim_written_bytes : N;
  lim_written_objects : N
}.

(** [MemoryOverlay<S>] with the [State] behind its mutex. *)
Record MemoryOverlay (S : Type) := {
  ov_source : S;
  ov_limits : MemoryOverlayLimits;
  ov_objects : gmap hash32 bytes;
  ov_read_calls : N;
  ov_read_bytes : N;
  ov_written_bytes : N
}.
#[global] Arguments ov_source {S} _.
#[global] Arguments ov_limits {S} _.
#[global] Arguments ov_objects {S} _.
#[global] Arguments ov_read_calls {S} _.
#[global] Arguments ov_read_bytes {S} _.
#[global] Arguments ov_written_bytes {S} _.

Definition overlay_new {S} (source : S) (limits : MemoryOverlayLimits) : MemoryOverlay S :=
  {| ov_source := source; ov_limits := limits; ov_objects := ∅;
     ov_read_calls := 0; ov_read_bytes := 0; ov_written_bytes := 0 |}.

(** [checked_add(..).filter(|n| n <= cap).ok_or(..)]. *)
Definition debit (used amount cap : N) (name : bytes) : result StoreError N :=
  ensure ((used + amount <=? USIZE_MAX) && (used + amount <=? cap))%N
    (OperationLimitExceeded name) ;;
  mret (used + amount)%N.

Definition set_read_calls {S} (n : N) (o : MemoryOverlay S) : MemoryOverlay S :=
  {| ov_source := ov_source o; ov_limits := ov_limits o; ov_objects := ov_objects o;
     ov_read_calls := n; ov_read_bytes := ov_read_bytes o;
     ov_written_bytes := ov_written_bytes o |}.
Definition set_read_bytes {S} (n : N) (o : MemoryOverlay S) : MemoryOverlay S :=
  {| ov_source := ov_source o; ov_limits := ov_limits o; ov_objects := ov_objects o;
     ov_read_calls := ov_read_calls o; ov_read_bytes := n;
     ov_written_bytes := ov_written_bytes o |}.
Definition set_source {S} (s : S) (o : MemoryOverlay S) : MemoryOverlay S :=
  {| ov_source := s; ov_limits := ov_limits o; ov_objects := ov_objects o;
     ov_read_calls := ov_read_calls o; ov_read_bytes := ov_read_bytes o;
     ov_written_bytes := ov_written_bytes o |}.
Definition add_object {S} (id : hash32) (bs : bytes) (written : N) (o : MemoryOverlay S)
    : MemoryOverlay S :=
  {| ov_source := ov_source o; ov_limits := ov_limits o;
     ov_objects := <[ id := bs ]> (ov_objects o);
     ov_read_calls := ov_read_calls o; ov_read_bytes := ov_read_bytes o;
     ov_written_bytes := written |}.

(** The byte debit that ends a read. *)
Definition charge_read {S} (bs : bytes) : M (MemoryOverlay S) bytes := λ o,
  match debit (ov_read_bytes o) (lenN bs) (lim_read_bytes (ov_limits o)) (b# "read bytes") with
  | Err e => (Err e, o)
  | Ok n => (Ok bs, set_read_bytes n o)
  end.

Definition overlay_read {S} `{ObjectSource S} (id : hash32) : M (MemoryOverlay S) bytes := λ o,
  match debit (ov_read_calls o) 1 (lim_read_calls (ov_limits o)) (b# "read calls") with
  | Err e => (Err e, o)
  | Ok n =>
      let o := set_read_calls n o in
      match ov_objects o !! id with
      | Some bs => charge_read bs o
      | None =>
          let '(r, s) := src_read id (ov_source o) in
          let o := set_source s o in
          match r with
          | Err e => (Err e, o)
          | Ok bs => charge_read bs o
          end
      end
  end.

#[export] Instance MemoryOverlay_source S `{ObjectSource S} : ObjectSource (MemoryOverlay S) := {
  src_read := overlay_read;
  src_read_object := default_read_object overlay_read;
  src_read_unverified := overlay_read
}.

(** [parts.iter().try_fold(0, |len, part| len.checked_add(part.len()))]. *)
Fixpoint total_len (acc : N) (parts : list bytes) : option N :=
  match parts with
  | [] => Some acc
  | p :: parts => if (acc + lenN p <=? USIZE_MAX)%N then total_len (acc + lenN p) parts else None
  end.

Fixpoint drop_empty (parts : list bytes) : list bytes :=
  match parts with
  | [] :: parts => drop_empty parts
  | _ => parts
  end.

Definition overlay_put_parts {S} (parts : list bytes) : M (MemoryOverlay S) hash32 := λ o,
  match total_len 0 parts with
  | None => (Err ObjectTooLarge, o)
  | Some len =>
      if (MAX_RAW_OBJECT_SIZE <? len)%N then (Err ObjectTooLarge, o)
      else if (lim_written_bytes (ov_limits o) <? len)%N
      then (Err (OperationLimitExceeded (b# "written bytes")), o)
      else
        let parts := drop_empty parts in
        let id := match parts with
                  | [bs] => object_id_from_bytes bs
                  | _ => object_id_from_parts parts
                  end in
        match ov_objects o !! id with
        | Some _ => (Ok id, o)
        | None =>
            if (lim_written_objects (ov_limits o) <=? N.of_nat (size (ov_objects o)))%N
            then (Err (OperationLimitExceeded (b# "written objects")), o)
            else match debit (ov_written_bytes o) len (lim_written_bytes (ov_limits o))
                         (b# "written bytes") with
                 | Err e => (Err e, o)
                 | Ok written => (Ok id, add_object id (concat parts) written o)
                 end
        end
  end.

Definition overlay_put {S} (bs : bytes) : M (MemoryOverlay S) hash32 := overlay_put_parts [bs].

Definition overlay_has {S} (o : MemoryOverlay S) (id : hash32) : bool :=
  bool_decide (is_Some (ov_objects o !! id)).

(** ** [EphemeralSink] *)

Record EphemeralSink := { es_store : ObjectStore; es_objects : gmap hash32 bytes }.

Definition ephemeral_new (st : ObjectStore) : EphemeralSink :=
  {| es_store := st; es_objects := ∅ |}.

Definition ephemeral_put_parts (parts : list bytes) : M EphemeralSink hash32 := λ s,
  match total_len 0 parts with
  | None => (Err ObjectTooLarge, s)
  | Some total =>
      if (MAX_RAW_OBJECT_SIZE <? total)%N then (Err ObjectTooLarge, s)
      else
        let h := object_id_from_parts parts in
        if contains (es_store s) h then (Ok h, s)
        else
          (Ok h,
           match es_objects s !! h with
           | Some _ => s
           | None => {| es_store := es_store s;
                        es_objects := <[ h := concat parts ]> (es_objects s) |}
           end)
  end.

Definition ephemeral_put (bs : bytes) : M EphemeralSink hash32 := ephemeral_put_parts [bs].

Definition ephemeral_has (s : EphemeralSink) (h : hash32) : bool :=
  bool_decide (is_Some (es_objects s !! h)) || contains (es_store s) h.

Definition ephemeral_read (s : EphemeralSink) (h : hash32) : result StoreError bytes :=
  match es_objects s !! h with Some bs => Ok bs | None => read (es_store s) h end.

Definition ephemeral_read_object (s : EphemeralSink) (h : hash32) : result StoreError Object :=
  match es_objects s !! h with
  | Some bs => decode_err (deserialize bs)
  | None => read_object (es_store s) h
  end.

Definition ephemeral_read_unverified (s : EphemeralSink) (h : hash32) : result StoreError bytes :=
  match es_objects s !! h with
  | Some bs => Ok bs
  | None => read_unverified (es_store s) h
  end.

#[export] Instance EphemeralSink_source : ObjectSource EphemeralSink := {
  src_read h := λ s, (ephemeral_read s h, s);
  src_read_object h := λ s, (ephemeral_read_object s h, s);
  src_read_unverified h := λ s, (ephemeral_read_unverified s h, s)
}.

(** ** [ObjectSink] *)

Class ObjectSink (S : Type) := {
  sink_put : bytes → M S hash32;
  sink_put_parts : list bytes → M S hash32;
  sink_has : S → hash32 → bool
}.

Definition ObjectStore_sink (now : option N) : ObjectSink ObjectStore := {|
  sink_put := write now;
  sink_put_parts parts := write now (concat parts);
  sink_has := contains
|}.

#[export] Instance MemoryOverlay_sink S : ObjectSink (MemoryOverlay S) := {
  sink_put := overlay_put;
  sink_put_parts := overlay_put_parts;
  sink_has := overlay_has
}.

#[export] Instance EphemeralSink_sink : ObjectSink EphemeralSink := {
  sink_put := ephemeral_put;
  sink_put_parts := ephemeral_put_parts;
  sink_has := ephemeral_has
}.
End store.
