(* ===== verification/StoreFacts.v ===== *)
(** * Theorems about the object store and the object sources

    What a read returns and in which order it fails, what a write leaves
    readable, the budgets and contents of an overlay over any run, and the
    interface [SourceView] that the graph walks are proved against. *)

From S2P Require Import Prelude Hash Object Serialize SerializeFacts Merkle ObjectId Store.

Section facts.
Context `{B : Blake3}.

Lemma check_hash_Ok expected actual u : check_hash expected actual = Ok u ↔ actual = expected.
Proof. unfold check_hash. by rewrite ensure_Ok, bool_decide_eq_true. Qed.

Lemma check_hash_refl h : check_hash h h = Ok tt.
Proof. by apply check_hash_Ok. Qed.

Lemma path_for_ne h h' : h ≠ h' → path_for h ≠ path_for h'.
Proof. intros H E. by apply H, object_path_inj. Qed.

(** ** Reads *)

Lemma read_Ok st h bs :
  read st h = Ok bs ↔ read_raw st h = Ok bs ∧ object_id_from_bytes bs = h.
Proof.
  unfold read. split.
  - intros (bs' & Hr & (? & Hc%check_hash_Ok & <-%ret_Ok)%bind_Ok)%bind_Ok. by split.
  - intros [-> <-]. cbn. by rewrite check_hash_refl.
Qed.

(** A decoded object is the one its bytes decode to, found through either id
    computation. *)
Lemma verified_or_decoded bs o :
  (verified_id_and_object bs).2 = Some o → deserialize bs = Ok o.
Proof. apply verified_decoded. Qed.

Lemma read_object_default st h :
  read_object st h = (bs ← read st h; decode_err (deserialize bs)).
Proof.
  unfold read_object, read. destruct (read_raw st h) as [bs|e]; [|done].
  cbn [mbind result_bind]. change (object_id_from_bytes bs) with (verified_id_and_object bs).1.
  destruct (check_hash h _) as [u|e]; [|done]. cbn [mbind result_bind mret result_ret].
  destruct (verified_id_and_object bs).2 as [o|] eqn:E; [|done].
  by rewrite (verified_or_decoded _ _ E).
Qed.

(** [ObjectStore::read_object], which reuses the decode that the id check
    already made, is the plain "read, verify, decode" of the trait's default on
    every store and id, with the same error in every failing case; so is the
    override of [EphemeralSink]. *)
Theorem read_object_is_default (st : ObjectStore) (s : EphemeralSink) (h : hash32) :
  read_object st h = (bs ← read st h; decode_err (deserialize bs)) ∧
  ephemeral_read_object s h = (bs ← ephemeral_read s h; decode_err (deserialize bs)).
Proof.
  split; [apply read_object_default|]. unfold ephemeral_read_object, ephemeral_read.
  destruct (es_objects s !! h); [done|apply read_object_default].
Qed.

Lemma decode_err_Ok {A} (r : result MkitError A) a : decode_err r = Ok a ↔ r = Ok a.
Proof. destruct r; naive_solver. Qed.

Lemma decoded_prologue bs o :
  deserialize bs = Ok o → ∃ body, bs = write_prologue (object_type o) ++ body.
Proof.
  intros H. apply deserialize_inv in H as (Hw & l & E & ->). by exists l.
Qed.

Lemma prologue_type_object t body :
  prologue_type (take 6 (write_prologue t ++ body)) = Ok t.
Proof. by destruct t. Qed.

Lemma read_object_type st h o :
  read_object st h = Ok o → store_object_type st h = Ok (object_type o).
Proof.
  rewrite read_object_default. intros (bs & Hr & Hd%decode_err_Ok)%bind_Ok.
  apply read_Ok in Hr as [Hr _]. unfold read_raw in Hr. unfold store_object_type.
  destruct (open_object st h) as [f|e]; [|done]. cbn [mbind result_bind] in *. inv_ok. subst bs.
  apply decoded_prologue in Hd as [body Eb]. rewrite Eb. apply prologue_type_object.
Qed.

Lemma read_object_id st h o :
  read_object st h = Ok o → wf o = true ∧ Object_id o = Ok h.
Proof.
  rewrite read_object_default. intros (bs & Hr & Hd%decode_err_Ok)%bind_Ok.
  apply read_Ok in Hr as [_ <-]. apply deserialize_inv in Hd as (Hw & l & E & ->).
  assert (serialize o = Ok (write_prologue (object_type o) ++ l)) as Hs
    by (unfold serialize; by rewrite E).
  split; [done|]. by rewrite (object_id_from_bytes_object o), (Object_id_object o _ Hs).
Qed.

(** What [read_object] hands out is what was asked for: the object is
    well-formed, its own id ([Object::id]) is the requested hash, and the cheap
    prologue check [object_type] names its kind. *)
Theorem read_object_sound (st : ObjectStore) (h : hash32) (o : Object)
    (H : read_object st h = Ok o) :
  wf o = true ∧ Object_id o = Ok h ∧ store_object_type st h = Ok (object_type o).
Proof.
  destruct (read_object_id st h o H). auto using read_object_type.
Qed.

(** ** Writes *)

(** Every file holds, readably, an object of the id that its name spells. *)
Definition intact (st : ObjectStore) : Prop :=
  ∀ p f, disk st !! p = Some f →
    p = path_for (object_id_from_bytes (fs_bytes f)) ∧ fs_open_error f = None ∧
    (lenN (fs_bytes f) <= MAX_RAW_OBJECT_SIZE)%N.

Lemma read_file st h f :
  disk st !! path_for h = Some f → fs_open_error f = None →
  (lenN (fs_bytes f) <= MAX_RAW_OBJECT_SIZE)%N →
  object_id_from_bytes (fs_bytes f) = h → read st h = Ok (fs_bytes f).
Proof.
  intros Hp Ho Hl Hh. apply read_Ok. split; [|done]. unfold read_raw, open_object.
  rewrite Hp, Ho. cbn [mbind result_bind]. by rewrite ensure_bind by by apply N.leb_le.
Qed.

Lemma read_put_file st h now bs :
  (lenN bs <= MAX_RAW_OBJECT_SIZE)%N → object_id_from_bytes bs = h →
  read (put_file (path_for h) now bs st) h = Ok bs.
Proof.
  intros Hl Hh. set (f := {| fs_bytes := bs; fs_mtime := now; fs_open_error := None |}).
  apply (read_file _ _ f); [|done..]. cbn. by rewrite lookup_insert_eq.
Qed.

Lemma read_same_file st st' h :
  fs_bytes <$> disk st' !! path_for h = fs_bytes <$> disk st !! path_for h →
  fs_open_error <$> disk st' !! path_for h = fs_open_error <$> disk st !! path_for h →
  read st' h = read st h.
Proof.
  intros H1 H2. unfold read, read_raw, open_object.
  destruct (disk st' !! path_for h) as [[? ? []]|], (disk st !! path_for h) as [[? ? []]|];
    cbn in H1, H2; simplify_eq; done.
Qed.

Lemma read_put_file_ne st h h' now bs :
  h' ≠ h → read (put_file (path_for h) now bs st) h' = read st h'.
Proof.
  intros Hne. apply read_same_file; cbn;
    by rewrite lookup_insert_ne by (apply path_for_ne; congruence).
Qed.

(** The outcome of a write, see [write_spec]. *)
Lemma write_ok (now : option N) (bs : bytes) (st : ObjectStore) :
  intact st →
  let h := object_id_from_bytes bs in
  if (MAX_RAW_OBJECT_SIZE <? lenN bs)%N then write now bs st = (Err ObjectTooLarge, st)
  else ∃ st', write now bs st = (Ok h, st') ∧ intact st' ∧
    (read st' h = Ok bs ∨
     ∃ bs', bs' ≠ bs ∧ object_id_from_bytes bs' = h ∧ read st' h = Ok bs' ∧ st' = st) ∧
    (∀ h', h' ≠ h → read st' h' = read st h').
Proof.
  intros Hi.
  cbn zeta. unfold write. destruct (N.ltb_spec MAX_RAW_OBJECT_SIZE (lenN bs)); [done|].
  unfold contains. case_bool_decide as Hc.
  - exists st. destruct Hc as [f Hf]. split_and!; [done|done| |done].
    destruct (Hi _ _ Hf) as (Hp & Ho & Hl). apply object_path_inj in Hp.
    rewrite (read_file st _ f) by done.
    destruct (decide (fs_bytes f = bs)) as [->|]; [by left|right; eauto].
  - eexists. split; [done|]. split; [|split].
    + intros p g. cbn. intros [[<- <-]|[Hne Hg]]%lookup_insert_Some; [done|by apply Hi].
    + left. by apply read_put_file.
    + intros h' Hh. by apply read_put_file_ne.
Qed.

(** [ObjectStore::write] on a store whose files are intact: an oversize
    object is refused and nothing changes; otherwise the id is returned, the
    store stays intact, reading the id gives the bytes back (or the store
    already held other bytes of the same id, an explicit collision, and keeps
    them), and every other id reads as before. *)
Theorem write_spec (now : option N) (bs : bytes) (st : ObjectStore) (Hi : intact st) :
  let h := object_id_from_bytes bs in
  if (MAX_RAW_OBJECT_SIZE <? lenN bs)%N then write now bs st = (Err ObjectTooLarge, st)
  else ∃ st', write now bs st = (Ok h, st') ∧ intact st' ∧
    (read st' h = Ok bs ∨
     ∃ bs', bs' ≠ bs ∧ object_id_from_bytes bs' = h ∧ read st' h = Ok bs' ∧ st' = st) ∧
    (∀ h', h' ≠ h → read st' h' = read st h').
Proof. exact (write_ok now bs st Hi). Qed.

(** A bulk session heals. Whatever the store holds at the object's path (a
    torn file, one that cannot be opened, or nothing), after [BulkWriter::write]
    of at most 1 GiB the id reads back as exactly the written bytes, every other
    id reads as before, and the file carries the time of this write unless the
    session had refreshed the id before. *)
Theorem bulk_write_heals (now : option N) (refresh : bool) (bs : bytes) (w : BulkWriter)
    (Hl : (lenN bs <= MAX_RAW_OBJECT_SIZE)%N) :
  let h := object_id_from_bytes bs in
  ∃ w', bulk_write now refresh bs w = (Ok h, w') ∧
    read (bw_store w') h = Ok bs ∧
    (∀ h', h' ≠ h → read (bw_store w') h' = read (bw_store w) h') ∧
    (h ∈ bw_refreshed w ∨ ∃ f, disk (bw_store w') !! path_for h = Some f ∧ fs_mtime f = now) ∧
    h ∈ bw_refreshed w' ∧ op_dir (path_for h) ∈ bw_dirs w'.
Proof.
  cbn zeta. unfold bulk_write. destruct (N.ltb_spec MAX_RAW_OBJECT_SIZE (lenN bs)); [lia|].
  set (h := object_id_from_bytes bs).
  destruct (file_is (bw_store w) (path_for h) bs) eqn:Ef.
  2:{ cbn [andb]. eexists. split; [done|]. cbn.
      split; [by apply read_put_file|]. split; [intros; by apply read_put_file_ne|].
      split; [right; eexists; by rewrite lookup_insert_eq|]. set_solver. }
  unfold file_is in Ef. destruct (disk (bw_store w) !! path_for h) as [f|] eqn:Hf; [|done].
  apply bool_decide_eq_true in Ef as [Ho Hb].
  case_bool_decide as Hr; cbn [orb andb].
  - eexists. split; [done|]. cbn. split; [subst bs; by apply (read_file _ _ f)|].
    split; [done|]. split; [by left|]. set_solver.
  - destruct refresh; cbn [orb andb].
    + eexists. split; [done|]. cbn. split; [|split; [|split; [|set_solver]]].
      * set (g := {| fs_bytes := fs_bytes f; fs_mtime := now; fs_open_error := fs_open_error f |}).
        rewrite (read_file _ h g); [by subst|..]; cbn; subst; try done.
        by rewrite lookup_alter_eq, Hf.
      * intros h' Hh. apply read_same_file; cbn;
          by rewrite lookup_alter_ne by (apply path_for_ne; congruence).
      * right. eexists. rewrite lookup_alter_eq, Hf. by split.
    + eexists. split; [done|]. cbn.
      split; [by apply read_put_file|]. split; [intros; by apply read_put_file_ne|].
      split; [right; eexists; by rewrite lookup_insert_eq|]. set_solver.
Qed.

(** ** The interface of the graph walks

    A source has a fixed [view] as long as [I] holds of it: every read gives
    what the view says, or runs out of a caller-selected budget. *)

Definition out_of_budget {A} (r : result StoreError A) : Prop :=
  ∃ name, r = Err (OperationLimitExceeded name).

Definition view_object (view : hash32 → result StoreError bytes) (h : hash32)
    : result StoreError Object :=
  bs ← view h; decode_err (deserialize bs).

Class SourceView (S : Type) `{!ObjectSource S} (I : S → Prop)
    (view : hash32 → result StoreError bytes) : Prop := {
  view_read h s : I s → I (src_read h s).2 ∧
    ((src_read h s).1 = view h ∨ out_of_budget (src_read h s).1);
  view_read_object h s : I s → I (src_read_object h s).2 ∧
    ((src_read_object h s).1 = view_object view h ∨ out_of_budget (src_read_object h s).1)
}.

(** ** Triples *)

Section triples.
Context {S : Type} (I : S → Prop).

(** Started in a good state, the computation ends in one, and what it returns
    satisfies [Q]. *)
Definition triple {A} (m : M S A) (Q : A → Prop) : Prop :=
  ∀ s, I s → I (m s).2 ∧ ∀ a, (m s).1 = Ok a → Q a.

Lemma triple_bind {A C} (m : M S A) (f : A → M S C) (Q : A → Prop) (R : C → Prop) :
  triple m Q → (∀ a, Q a → triple (f a) R) → triple (m_bind m f) R.
Proof.
  intros Hm Hf s Hs. unfold m_bind. destruct (Hm s Hs) as [Hs' Hq].
  destruct (m s) as [[a|e] s']; cbn in *; [by apply Hf; auto|done].
Qed.

Lemma triple_ret {A} (a : A) (Q : A → Prop) : Q a → triple (m_ret a) Q.
Proof. intros HQ s Hs. split; [done|]. by intros ? [= <-]. Qed.

Lemma triple_lift {A} (r : result StoreError A) (Q : A → Prop) :
  (∀ a, r = Ok a → Q a) → triple (m_lift r) Q.
Proof. intros HQ s Hs. by split. Qed.

Lemma triple_weaken {A} (m : M S A) (Q R : A → Prop) :
  triple m Q → (∀ a, Q a → R a) → triple m R.
Proof. intros Hm HQ s Hs. destruct (Hm s Hs). split; auto. Qed.
End triples.

(** The default [read_object] inherits the view of [read]. *)
Lemma default_view {S} (rd : hash32 → M S bytes) (I : S → Prop) view h s :
  (I (rd h s).2 ∧ ((rd h s).1 = view h ∨ out_of_budget (rd h s).1)) →
  I (default_read_object rd h s).2 ∧
  ((default_read_object rd h s).1 = view_object view h ∨
   out_of_budget (default_read_object rd h s).1).
Proof.
  unfold default_read_object, m_bind, m_lift, view_object.
  destruct (rd h s) as [[bs|e] s']; cbn; intros [HI [Hv|[name Hn]]]; (split; [done|]).
  - left. by rewrite <- Hv.
  - done.
  - left. by rewrite <- Hv.
  - right. exists name. by injection Hn as ->.
Qed.

#[export] Instance ObjectStore_view st : SourceView ObjectStore (eq st) (read st).
Proof.
  split; cbn; intros h s <-; (split; [done|]); left; [done|].
  apply read_object_default.
Qed.

#[export] Instance MemorySource_view src : SourceView MemorySource (eq src) (ms_read src).
Proof.
  split; intros h s <-; [by split; [|left]|].
  apply (default_view (λ h s, (ms_read s h, s))). by split; [|left].
Qed.

#[export] Instance EphemeralSink_view snk :
  SourceView EphemeralSink (eq snk) (ephemeral_read snk).
Proof.
  split; cbn; intros h s <-; (split; [done|]); left; [done|].
  unfold ephemeral_read_object, ephemeral_read, view_object.
  destruct (es_objects snk !! h); [done|apply read_object_default].
Qed.

(** The bytes an overlay resolves: its own objects first. *)
Definition overlay_view (objs : gmap hash32 bytes) (view : hash32 → result StoreError bytes)
    (h : hash32) : result StoreError bytes :=
  match objs !! h with Some bs => Ok bs | None => view h end.

Lemma debit_Ok used amount cap name n :
  debit used amount cap name = Ok n ↔
  n = (used + amount)%N ∧ (used + amount <= USIZE_MAX)%N ∧ (used + amount <= cap)%N.
Proof.
  unfold debit. rewrite bind_Ok. split.
  - intros (u & [?%N.leb_le ?%N.leb_le]%ensure_Ok%andb_true_iff & <-%ret_Ok). done.
  - intros (-> & ? & ?). exists tt. by rewrite ensure_Ok, andb_true_iff, !N.leb_le.
Qed.

Lemma debit_Err used amount cap name e :
  debit used amount cap name = Err e → e = OperationLimitExceeded name.
Proof. unfold debit. by intros [[_ <-]%ensure_Err|(? & ? & [=])]%bind_Err. Qed.

(** Close a case in which the outcome of a budgeted read is known. *)
Ltac settle := cbn; split; [by split|first [by left|by right; eexists]].

(** A read leaves the objects, the limits and the write budget alone. *)
Lemma overlay_read_frame {S} `{!ObjectSource S} id (o : MemoryOverlay S) :
  ov_objects (overlay_read id o).2 = ov_objects o ∧
  ov_limits (overlay_read id o).2 = ov_limits o ∧
  ov_written_bytes (overlay_read id o).2 = ov_written_bytes o.
Proof.
  unfold overlay_read, charge_read. repeat (case_match; cbn); done.
Qed.

#[export] Instance MemoryOverlay_view S `{!ObjectSource S} I view objs :
  SourceView S I view →
  SourceView (MemoryOverlay S) (λ o, I (ov_source o) ∧ ov_objects o = objs)
    (overlay_view objs view).
Proof.
  intros V.
  assert (Hr : ∀ h o, I (ov_source o) ∧ ov_objects o = objs →
    (I (ov_source (overlay_read h o).2) ∧ ov_objects (overlay_read h o).2 = objs) ∧
    ((overlay_read h o).1 = overlay_view objs view h ∨ out_of_budget (overlay_read h o).1)).
  { intros h o [HI Ho]. destruct (overlay_read_frame h o) as [-> _]. 
    unfold overlay_read, charge_read, overlay_view, out_of_budget. rewrite <- Ho.
    destruct (debit _ _ _ _) eqn:E1;
      [|apply debit_Err in E1 as ->; settle]. cbn.
    destruct (ov_objects o !! h) as [bs|] eqn:Eo.
    { destruct (debit (ov_read_bytes _) _ _ _) eqn:E2; [|apply debit_Err in E2 as ->]; settle. }
    destruct (view_read h (ov_source o) HI) as [HI' Hv].
    destruct (src_read h (ov_source o)) as [[bs|e] s']; cbn in *; [|by eauto].
    destruct (debit (ov_read_bytes _) _ _ _) eqn:E2; [|apply debit_Err in E2 as ->; settle].
    destruct Hv as [Hv|[? [=]]]. by split; [|left]. }
  split; cbn; [exact Hr|]. intros h o HI.
  apply (default_view overlay_read (λ o, I (ov_source o) ∧ ov_objects o = objs)). auto.
Qed.

(** ** Overlays *)

(** Bytes held by the overlay's own objects. *)
Definition retained (objs : gmap hash32 bytes) : N :=
  map_fold (λ _ bs n, (lenN bs + n)%N) 0%N objs.

Lemma retained_insert objs id bs :
  objs !! id = None → retained (<[id := bs]> objs) = (lenN bs + retained objs)%N.
Proof. intros H. unfold retained. rewrite map_fold_insert_L; [done| |done]. intros. lia. Qed.

Record overlay_ok {S} (o : MemoryOverlay S) : Prop := {
  ok_ids id bs : ov_objects o !! id = Some bs → object_id_from_bytes bs = id;
  ok_retained : ov_written_bytes o = retained (ov_objects o);
  ok_written : (ov_written_bytes o <= lim_written_bytes (ov_limits o))%N;
  ok_objects : (N.of_nat (size (ov_objects o)) <= lim_written_objects (ov_limits o))%N;
  ok_calls : (ov_read_calls o <= lim_read_calls (ov_limits o))%N;
  ok_read : (ov_read_bytes o <= lim_read_bytes (ov_limits o))%N
}.

Lemma total_len_Some parts : ∀ acc n,
  total_len acc parts = Some n → n = (acc + lenN (concat parts))%N.
Proof.
  induction parts as [|p parts IH]; intros acc n; cbn [total_len concat].
  - intros [= <-]. rewrite lenN_nil. lia.
  - case_match; [|done]. intros ->%IH. rewrite lenN_app. lia.
Qed.

Lemma concat_drop_empty parts : concat (drop_empty parts) = concat parts.
Proof. induction parts as [|[] parts IH]; done. Qed.

Lemma drop_empty_head parts : head (drop_empty parts) ≠ Some [].
Proof. induction parts as [|[] parts IH]; done. Qed.

Lemma overlay_read_ok {S} `{!ObjectSource S} id (o : MemoryOverlay S) :
  overlay_ok o → overlay_ok (overlay_read id o).2.
Proof.
  intros [].
  assert (∀ n, (n <= lim_read_calls (ov_limits o))%N → overlay_ok (set_read_calls n o)) as H1
    by (by split).
  unfold overlay_read. destruct (debit (ov_read_calls o) _ _ _) as [n|e] eqn:E1; [|by split].
  apply debit_Ok in E1 as (-> & _ & Hn). specialize (H1 _ Hn).
  assert (∀ bs (o' : MemoryOverlay S), overlay_ok o' → overlay_ok (charge_read bs o').2) as H2.
  { intros bs o' []. unfold charge_read. destruct (debit _ _ _ _) eqn:E2; [|by split].
    apply debit_Ok in E2 as (-> & _ & ?). by split. }
  assert (∀ s (o' : MemoryOverlay S), overlay_ok o' → overlay_ok (set_source s o')) as H3
    by (intros s o' []; by split).
  case_match; [by apply H2|]. destruct (src_read id _) as [[bs|e] s'];
    [by apply H2, H3|by apply H3].
Qed.
End facts.

Section overlay.
Context `{B : Blake3} `{BI : !Blake3Incremental}.
Context {S : Type} `{!ObjectSource S}.

(** The id of the non-empty parts is the id of the bytes they make up. *)
Lemma overlay_part_id parts :
  match drop_empty parts with
  | [bs] => object_id_from_bytes bs
  | _ => object_id_from_parts (drop_empty parts)
  end = object_id_from_bytes (concat parts).
Proof.
  rewrite <- (concat_drop_empty parts). pose proof (drop_empty_head parts) as Hh.
  destruct (drop_empty parts) as [|bs [|]]; [by apply parts_id| |by apply parts_id].
  cbn. by rewrite app_nil_r.
Qed.

Lemma overlay_put_cases parts (o : MemoryOverlay S) :
  (∃ e, overlay_put_parts parts o = (Err e, o)) ∨
  (∃ bs, ov_objects o !! object_id_from_bytes (concat parts) = Some bs ∧
         overlay_put_parts parts o = (Ok (object_id_from_bytes (concat parts)), o)) ∨
  (ov_objects o !! object_id_from_bytes (concat parts) = None ∧
   (N.of_nat (size (ov_objects o)) < lim_written_objects (ov_limits o))%N ∧
   (ov_written_bytes o + lenN (concat parts) <= lim_written_bytes (ov_limits o))%N ∧
   overlay_put_parts parts o =
     (Ok (object_id_from_bytes (concat parts)),
      add_object (object_id_from_bytes (concat parts)) (concat parts)
        (ov_written_bytes o + lenN (concat parts)) o)).
Proof.
  unfold overlay_put_parts. destruct (total_len 0 parts) as [len|] eqn:El; [|eauto].
  apply total_len_Some in El as ->. rewrite N.add_0_l.
  case_match; [by eauto|]. case_match; [by eauto|].
  rewrite overlay_part_id, concat_drop_empty.
  destruct (ov_objects o !! _) as [bs|] eqn:Eo; [by eauto|].
  destruct (N.leb_spec (lim_written_objects (ov_limits o)) (N.of_nat (size (ov_objects o))));
    [by eauto|].
  destruct (debit _ _ _ _) as [w|e] eqn:Ed; [|by eauto].
  apply debit_Ok in Ed as (-> & _ & ?). eauto 10.
Qed.

Lemma overlay_put_ok parts (o : MemoryOverlay S) :
  overlay_ok o → overlay_ok (overlay_put_parts parts o).2.
Proof.
  intros Ho. destruct (overlay_put_cases parts o)
    as [(e & ->)|[(bs & _ & ->)|(Hn & Hs & Hw & ->)]]; [done..|].
  destruct Ho as [Hids Hret _ Hobj Hc Hr]. split; cbn; try done.
  - intros id bs [[<- <-]|[_ H]]%lookup_insert_Some; [done|by apply Hids].
  - rewrite retained_insert by done. rewrite Hret. lia.
  - rewrite map_size_insert_None by done. lia.
Qed.

(** ** Runs *)

(** What the caller of an overlay asks for, and what it gets. *)
Inductive overlay_op :=
  | OpRead (id : hash32)
  | OpPut (parts : list bytes).

Inductive overlay_event :=
  | ReadDone (id : hash32) (r : result StoreError bytes)
  | PutDone (parts : list bytes) (r : result StoreError hash32).

Definition overlay_apply (op : overlay_op) (o : MemoryOverlay S)
    : overlay_event * MemoryOverlay S :=
  match op with
  | OpRead id => let '(r, o) := overlay_read id o in (ReadDone id r, o)
  | OpPut parts => let '(r, o) := overlay_put_parts parts o in (PutDone parts r, o)
  end.

Fixpoint overlay_run (ops : list overlay_op) (o : MemoryOverlay S)
    : list overlay_event * MemoryOverlay S :=
  match ops with
  | [] => ([], o)
  | op :: ops =>
      let '(ev, o) := overlay_apply op o in
      let '(evs, o) := overlay_run ops o in (ev :: evs, o)
  end.

(** The reads of a run, and the bytes that the successful ones returned. *)
Fixpoint reads_made (evs : list overlay_event) : N :=
  match evs with
  | [] => 0
  | ReadDone _ _ :: evs => 1 + reads_made evs
  | PutDone _ _ :: evs => reads_made evs
  end.
Fixpoint bytes_returned (evs : list overlay_event) : N :=
  match evs with
  | [] => 0
  | ReadDone _ (Ok bs) :: evs => lenN bs + bytes_returned evs
  | _ :: evs => bytes_returned evs
  end.

Lemma reads_made_app a b : reads_made (a ++ b) = (reads_made a + reads_made b)%N.
Proof. induction a as [|[] a IH]; cbn; rewrite ?IH; lia. Qed.
Lemma bytes_returned_app a b : bytes_returned (a ++ b) = (bytes_returned a + bytes_returned b)%N.
Proof. induction a as [|[id [bs|e]|parts r] a IH]; cbn; rewrite ?IH; lia. Qed.

Record run_inv (limits : MemoryOverlayLimits) (evs : list overlay_event)
    (o : MemoryOverlay S) : Prop := {
  run_ok : overlay_ok o;
  run_limits : ov_limits o = limits;
  run_calls : ov_read_calls o = N.min (reads_made evs) (N.min (lim_read_calls limits) USIZE_MAX);
  run_bytes : ov_read_bytes o = bytes_returned evs;
  run_exhausted pre id r post : evs = pre ++ ReadDone id r :: post →
    (N.min (lim_read_calls limits) USIZE_MAX <= reads_made pre)%N →
    r = Err (OperationLimitExceeded (b# "read calls"));
  run_puts parts id : PutDone parts (Ok id) ∈ evs →
    id = object_id_from_bytes (concat parts) ∧ is_Some (ov_objects o !! id);
  run_reads id bs : ReadDone id (Ok bs) ∈ evs → object_id_from_bytes bs = id
}.

(** A read consumes one call if one is left, and its bytes if it succeeds. *)
Lemma overlay_read_charges id (o : MemoryOverlay S) :
  ov_read_calls (overlay_read id o).2 =
    N.min (ov_read_calls o + 1)
      (N.max (ov_read_calls o) (N.min (lim_read_calls (ov_limits o)) USIZE_MAX)) ∧
  ov_read_bytes (overlay_read id o).2 =
    (ov_read_bytes o + bytes_returned [ReadDone id (overlay_read id o).1])%N.
Proof.
  assert (Hcharge : ∀ bs (a : MemoryOverlay S),
    ov_read_calls (charge_read bs a).2 = ov_read_calls a ∧
    ov_read_bytes (charge_read bs a).2 =
      (ov_read_bytes a + bytes_returned [ReadDone id (charge_read bs a).1])%N).
  { intros bs a. unfold charge_read. destruct (debit _ _ _ _) as [n|e] eqn:E; cbn; [|lia].
    apply debit_Ok in E as (-> & _). lia. }
  unfold overlay_read. destruct (debit (ov_read_calls o) _ _ _) as [n|e] eqn:E.
  2:{ cbn. unfold debit, ensure in E. destruct (_ && _) eqn:Ec in E; [done|].
      apply andb_false_iff in Ec as [?%N.leb_gt|?%N.leb_gt]; lia. }
  apply debit_Ok in E as (-> & ? & ?).
  destruct (ov_objects (set_read_calls _ o) !! id) as [bs|].
  - destruct (Hcharge bs (set_read_calls (ov_read_calls o + 1) o)) as [-> ->]. cbn. lia.
  - destruct (src_read id _) as [[bs|e] s'].
    + destruct (Hcharge bs (set_source s' (set_read_calls (ov_read_calls o + 1) o))) as [-> ->].
      cbn. lia.
    + cbn. lia.
Qed.

Lemma overlay_read_exhausted id (o : MemoryOverlay S) :
  (N.min (lim_read_calls (ov_limits o)) USIZE_MAX <= ov_read_calls o)%N →
  (overlay_read id o).1 = Err (OperationLimitExceeded (b# "read calls")).
Proof.
  intros Hx. unfold overlay_read, debit, ensure. destruct (_ && _) eqn:E; [|done].
  apply andb_true_iff in E as [?%N.leb_le ?%N.leb_le]. lia.
Qed.

(** The last event of a run that one more event extends. *)
Lemma snoc_split {A} (evs pre post : list A) ev x :
  evs ++ [ev] = pre ++ x :: post → (∃ post', evs = pre ++ x :: post') ∨ (pre = evs ∧ x = ev).
Proof.
  destruct post as [|y post _] using rev_ind.
  - intros [-> [= ->]]%app_inj_tail. by right.
  - rewrite app_comm_cons, app_assoc. intros [-> _]%app_inj_tail. left. by eexists.
Qed.

(** A successful read returns bytes of its id. *)
Lemma overlay_read_id id bs (o : MemoryOverlay S) :
  (∀ h s bs, (src_read h s).1 = Ok bs → object_id_from_bytes bs = h) → overlay_ok o →
  (overlay_read id o).1 = Ok bs → object_id_from_bytes bs = id.
Proof.
  intros Hsrc Ho. unfold overlay_read, charge_read. destruct (debit _ _ _ _); [|done]. cbn.
  destruct (ov_objects o !! id) eqn:E; cbn.
  - destruct (debit _ _ _ _); [|done]. intros [= <-]. by apply (ok_ids o).
  - specialize (Hsrc id (ov_source o)). destruct (src_read id (ov_source o)) as [[b|e] s']; [|done].
    cbn. destruct (debit _ _ _ _); [|done]. cbn. intros [= <-]. by apply Hsrc.
Qed.

Lemma overlay_apply_objects op (o : MemoryOverlay S) :
  ov_limits (overlay_apply op o).2 = ov_limits o ∧
  ov_objects o ⊆ ov_objects (overlay_apply op o).2.
Proof.
  destruct op as [id|parts]; cbn.
  - destruct (overlay_read_frame id o) as (Ho & Hl & _). destruct (overlay_read id o).
    cbn in *. by rewrite Ho, Hl.
  - destruct (overlay_put_cases parts o)
      as [(e & ->)|[(bs & _ & ->)|(Hn & _ & _ & ->)]]; cbn; [done..|].
    split; [done|]. by apply insert_subseteq.
Qed.

Lemma overlay_apply_inv limits evs op (o : MemoryOverlay S)
    (Hsrc : ∀ h s bs, (src_read h s).1 = Ok bs → object_id_from_bytes bs = h) :
  run_inv limits evs o →
  run_inv limits (evs ++ [(overlay_apply op o).1]) (overlay_apply op o).2.
Proof.
  intros [Hok Hlim Hcalls Hbytes Hex Hputs Hreads].
  destruct (overlay_apply_objects op o) as [Hl Hsub].
  assert (Hheld : ∀ parts id, PutDone parts (Ok id) ∈ evs →
    id = object_id_from_bytes (concat parts) ∧
    is_Some (ov_objects (overlay_apply op o).2 !! id)).
  { intros parts id [? [bs Hbs]]%Hputs. split; [done|]. exists bs.
    by eapply lookup_weaken. }
  destruct op as [id|parts]; cbn [overlay_apply] in *.
  - pose proof (overlay_read_charges id o) as [Hc Hb].
    pose proof (overlay_read_ok id o Hok) as Hok'.
    pose proof (λ bs, overlay_read_id id bs o Hsrc Hok) as Hid.
    pose proof (overlay_read_exhausted id o) as Hno.
    destruct (overlay_read id o) as [r o']. cbn in *.
    split; [done|congruence| | | | |].
    + rewrite Hc, reads_made_app, Hcalls, Hlim. cbn. lia.
    + by rewrite Hb, bytes_returned_app, Hbytes.
    + intros pre id' r' post [[post' ->]|[-> [= -> ->]]]%snoc_split Hle; [by eapply Hex|].
      apply Hno. rewrite Hcalls, Hlim. lia.
    + intros parts' id' [?|[=]%list_elem_of_singleton]%elem_of_app. by apply Hheld.
    + intros id' bs [?|[= -> <-]%list_elem_of_singleton]%elem_of_app; [by apply Hreads|by apply Hid].
  - pose proof (overlay_put_ok parts o Hok) as Hok'.
    assert (Hput : ov_read_calls (overlay_put_parts parts o).2 = ov_read_calls o ∧
      ov_read_bytes (overlay_put_parts parts o).2 = ov_read_bytes o ∧
      ∀ id, (overlay_put_parts parts o).1 = Ok id →
        id = object_id_from_bytes (concat parts) ∧
        is_Some (ov_objects (overlay_put_parts parts o).2 !! id)).
    { destruct (overlay_put_cases parts o)
        as [(e & ->)|[(bs & Hbs & ->)|(Hn & _ & _ & ->)]]; cbn; split_and!; try done.
      - intros id [= <-]. by split; [|exists bs].
      - intros id [= <-]. split; [done|]. rewrite lookup_insert_eq. by eexists. }
    destruct (overlay_put_parts parts o) as [r o']. cbn in *. destruct Hput as (Hc & Hb & Hp).
    split; [done|congruence| | | | |].
    + rewrite Hc, reads_made_app, Hcalls. cbn. lia.
    + rewrite Hb, bytes_returned_app, Hbytes. cbn. lia.
    + intros pre id' r' post [[post' ->]|[-> [=]]]%snoc_split Hle. by eapply Hex.
    + intros parts' id' [?|[= -> <-]%list_elem_of_singleton]%elem_of_app; [by apply Hheld|by apply Hp].
    + intros id' bs [?|[=]%list_elem_of_singleton]%elem_of_app. by apply Hreads.
Qed.

Lemma overlay_run_inv limits ops : ∀ evs (o : MemoryOverlay S)
    (Hsrc : ∀ h s bs, (src_read h s).1 = Ok bs → object_id_from_bytes bs = h),
  run_inv limits evs o → run_inv limits (evs ++ (overlay_run ops o).1) (overlay_run ops o).2.
Proof.
  induction ops as [|op ops IH]; intros evs o Hsrc Hi; cbn [overlay_run]; [by rewrite app_nil_r|].
  pose proof (overlay_apply_inv limits evs op o Hsrc Hi) as H1.
  destruct (overlay_apply op o) as [ev o1]. specialize (IH _ o1 Hsrc H1). rewrite <- app_assoc in IH.
  by destruct (overlay_run ops o1).
Qed.

Lemma overlay_run_objects ops : ∀ o : MemoryOverlay S,
  ov_objects o ⊆ ov_objects (overlay_run ops o).2.
Proof.
  induction ops as [|op ops IH]; intros o; cbn [overlay_run]; [done|].
  destruct (overlay_apply_objects op o) as [_ H1]. destruct (overlay_apply op o) as [ev o1].
  specialize (IH o1). destruct (overlay_run ops o1). by etrans.
Qed.

Lemma overlay_new_inv (source : S) limits : run_inv limits [] (overlay_new source limits).
Proof.
  split; cbn; try done; [|lia|by intros [] ????|by intros ? ? ?%not_elem_of_nil..].
  split; cbn; rewrite ?map_size_empty; try lia; done.
Qed.

(** C10: an overlay keeps its budgets and its contents over every run of reads
    and writes from an empty overlay. Every read consumes a call for as long as
    one is left, whether it succeeds or not: the call counter is the number of
    reads made, capped by the limit, and every read past the limit fails; the byte
    counter is the number of bytes that the successful reads returned, and the write
    counter the size of what is held.
    All stay within the caller's limits. Every object is held under its own id,
    every successful write gives the id of its bytes and is held, nothing held is
    lost or changed by a further run, and, over a source that verifies, every
    successful read returned bytes of the id it was asked for. *)
Theorem overlay_run_ok (source : S) (limits : MemoryOverlayLimits) (ops ops' : list overlay_op)
    (Hsrc : ∀ h s bs, (src_read h s).1 = Ok bs → object_id_from_bytes bs = h) :
  let '(evs, o) := overlay_run ops (overlay_new source limits) in
  run_inv limits evs o ∧ ov_objects o ⊆ ov_objects (overlay_run ops' o).2.
Proof.
  pose proof (overlay_run_inv limits ops [] (overlay_new source limits) Hsrc
    (overlay_new_inv source limits)) as H.
  destruct (overlay_run ops _) as [evs o]. split; [exact H|apply overlay_run_objects].
Qed.
End overlay.

(** ** Witnesses, with the computable stand-in hash *)

Import Toy.

Definition ex_obj : Object := OBlob {| blob_data := b# "hello" |}.
Definition ex_bytes : bytes := default [] (to_option (serialize ex_obj)).
Definition ex_id : hash32 := object_id_from_bytes ex_bytes.
Definition ex_empty : ObjectStore := {| disk := ∅ |}.
Definition ex_store : ObjectStore := (write (Some 5%N) ex_bytes ex_empty).2.

Lemma read_object_sound_witness :
  wf ex_obj = true ∧ Object_id ex_obj = Ok ex_id ∧
  store_object_type ex_store ex_id = Ok (object_type ex_obj).
Proof. apply read_object_sound. vm_compute. reflexivity. Defined.

Lemma write_spec_witness :
  intact ex_empty ∧
  ∃ st', write (Some 5%N) ex_bytes ex_empty = (Ok ex_id, st') ∧ intact st' ∧
    (read st' ex_id = Ok ex_bytes ∨
     ∃ bs', bs' ≠ ex_bytes ∧ object_id_from_bytes bs' = ex_id ∧
            read st' ex_id = Ok bs' ∧ st' = ex_empty) ∧
    (∀ h', h' ≠ ex_id → read st' h' = read ex_empty h').
Proof.
  assert (Hi : intact ex_empty) by (intros p f H; cbn in H; by rewrite lookup_empty in H).
  split; [exact Hi|]. exact (write_spec (Some 5%N) ex_bytes ex_empty Hi).
Defined.

Lemma bulk_write_heals_witness :
  (lenN ex_bytes <= MAX_RAW_OBJECT_SIZE)%N ∧
  ∃ w', bulk_write (Some 9%N) false ex_bytes (bulk_writer ex_store) = (Ok ex_id, w') ∧
    read (bw_store w') ex_id = Ok ex_bytes ∧
    (∀ h', h' ≠ ex_id → read (bw_store w') h' = read ex_store h') ∧
    (ex_id ∈ bw_refreshed (bulk_writer ex_store) ∨
     ∃ f, disk (bw_store w') !! path_for ex_id = Some f ∧ fs_mtime f = Some 9%N) ∧
    ex_id ∈ bw_refreshed w' ∧ op_dir (path_for ex_id) ∈ bw_dirs w'.
Proof.
  assert (Hl : (lenN ex_bytes <= MAX_RAW_OBJECT_SIZE)%N) by (vm_compute; congruence).
  split; [exact Hl|].
  exact (bulk_write_heals (Some 9%N) false ex_bytes (bulk_writer ex_store) Hl).
Defined.

Definition ex_limits : MemoryOverlayLimits :=
  {| lim_read_calls := 2; lim_read_bytes := 100; lim_written_bytes := 100;
     lim_written_objects := 1 |}.
Definition ex_overlay : MemoryOverlay ObjectStore := overlay_new ex_store ex_limits.

Definition ex_ops : list overlay_op :=
  [OpRead (arr_zero 32); OpPut [[]; ex_bytes]; OpRead ex_id; OpRead ex_id].

(** A miss and two hits: with two calls the third read fails. *)
Example ex_run_events :
  let '(evs, o) := overlay_run ex_ops ex_overlay in
  (ov_read_calls o, ov_read_bytes o, reads_made evs) = (2, lenN ex_bytes, 3)%N.
Proof. vm_compute. reflexivity. Qed.

Lemma overlay_run_ok_witness :
  let '(evs, o) := overlay_run ex_ops ex_overlay in
  run_inv ex_limits evs o ∧ ov_objects o ⊆ ov_objects (overlay_run [OpRead ex_id] o).2.
Proof.
  apply (overlay_run_ok ex_store ex_limits ex_ops [OpRead ex_id]).
  intros h s bs H. apply (proj1 (read_Ok s h bs)) in H. apply H.
Defined.
