(* ===== verification/Graph.v ===== *)
(** * Walks of the object graph

    Models [rust/crates/mkit-core/src/ops/graph.rs]: the edges of an object,
    the ancestor walk over any [ObjectSource], and the capped reachability walk
    over an [ObjectStore] behind push planning and garbage collection. A walk
    is a loop cut by fuel; that enough fuel exists is proved, not assumed. *)

From S2P Require Import Prelude Hash Object Serialize ObjectId Store.

(** ** Reading the parents of a commit

    The match that every commit walk makes on [read_object]: anything that is
    not a commit, and a missing object, ends the walk at that node. *)
Definition as_parents (r : result StoreError Object) : result StoreError (list hash32) :=
  match r with
  | Ok (OCommit c) => Ok (c_parents c)
  | Ok _ => Ok []
  | Err (ObjectNotFound _) => Ok []
  | Err e => Err e
  end.

Definition read_parents {S} `{ObjectSource S} (h : hash32) : M S (list hash32) := λ s,
  let '(r, s) := src_read_object h s in (as_parents r, s).

(** ** [collect_ancestor_set] *)

Definition MAX_ANCESTORS : N := 10000.

(** The local variables of the walk; the top of the stack is its head. *)
Record AncestorWalk (S : Type) := {
  aw_stack : list hash32;
  aw_set : gset hash32;
  aw_count : N;
  aw_source : S
}.
#[global] Arguments aw_stack {S} _.
#[global] Arguments aw_set {S} _.
#[global] Arguments aw_count {S} _.
#[global] Arguments aw_source {S} _.

(** [for &p in &parents { stack.push(p) }]. *)
Definition push_all (ps stack : list hash32) : list hash32 := foldl (λ st p, p :: st) stack ps.

Definition ancestor_step {S} `{ObjectSource S} (w : AncestorWalk S)
    : AncestorWalk S + result StoreError () * gset hash32 * S :=
  match aw_stack w with
  | [] => inr (Ok tt, aw_set w, aw_source w)
  | current :: stack =>
      if (MAX_ANCESTORS <=? aw_count w)%N then inr (Ok tt, aw_set w, aw_source w)
      else if bool_decide (current ∈ aw_set w) then
        inl {| aw_stack := stack; aw_set := aw_set w; aw_count := aw_count w;
               aw_source := aw_source w |}
      else
        let set := {[ current ]} ∪ aw_set w in
        match read_parents current (aw_source w) with
        | (Err e, s) => inr (Err e, set, s)
        | (Ok ps, s) =>
            inl {| aw_stack := push_all ps stack; aw_set := set;
                   aw_count := (aw_count w + 1)%N; aw_source := s |}
        end
  end.

(** [collect_ancestor_set]: the result, the caller's set afterwards, and the source. *)
Definition collect_ancestor_set {S} `{ObjectSource S} (fuel : nat) (start : hash32)
    (set : gset hash32) (s : S) : option (result StoreError () * gset hash32 * S) :=
  loop fuel ancestor_step
    {| aw_stack := [start]; aw_set := set; aw_count := 0; aw_source := s |}.

(** ** Edges *)

Inductive ClosureMode := Snapshot | History.

#[export] Instance ClosureMode_eq_dec : EqDecision ClosureMode.
Proof. solve_decision. Defined.

Definition children (obj : Object) (mode : ClosureMode) : list hash32 :=
  match obj with
  | OCommit c =>
      c_tree_hash c :: (if decide (mode = History) then c_parents c else [])
  | ORemix r =>
      r_tree_hash r :: (if decide (mode = History) then r_parents r else [])
  | OTree t => te_hash <$> tree_entries t
  | OChunkedBlob cb => cb_chunks cb
  | OTag t => [tag_target t]
  | OBlob _ | ODelta _ => []
  end.

(** ** The reachability walk *)

Definition MAX_REACHABLE : N := 10000000.

(** The order of [BTreeSet<Hash>]. *)
Definition hash_ltb (a b : hash32) : bool := bytes_ltb (arr_bytes a) (arr_bytes b).

Definition is_leaf_type (ty : ObjectType.t) : bool :=
  match ty with ObjectType.Blob | ObjectType.Delta => true | _ => false end.

Section reach.
Context `{B : Blake3}.

Record ReachWalk := { rw_queue : list hash32; rw_out : list hash32 }.

(** One round of the loop of [reachable_with_mode]. *)
Definition reach_step (st : ObjectStore) (mode : ClosureMode) (cap : N) (w : ReachWalk)
    : ReachWalk + result StoreError (list hash32 * bool) :=
  match rw_queue w with
  | [] => inr (Ok (rw_out w, false))
  | h :: queue =>
      if (cap <=? lenN (rw_out w))%N then inr (Ok (rw_out w, true))
      else if bool_decide (h ∈ rw_out w) then
        inl {| rw_queue := queue; rw_out := rw_out w |}
      else
        let out := bt_insert hash_ltb h (rw_out w) in
        match store_object_type st h with
        | Err e => inr (Err e)
        | Ok ty =>
            if is_leaf_type ty then inl {| rw_queue := queue; rw_out := out |}
            else match read_object st h with
                 | Err e => inr (Err e)
                 | Ok obj => inl {| rw_queue := queue ++ children obj mode; rw_out := out |}
                 end
        end
  end.

Definition reachable_with_mode (fuel : nat) (st : ObjectStore) (roots : list hash32)
    (mode : ClosureMode) (cap : N) : option (result StoreError (list hash32 * bool)) :=
  loop fuel (reach_step st mode cap) {| rw_queue := roots; rw_out := [] |}.

Definition reachable_closure_checked_with_cap (fuel : nat) (st : ObjectStore)
    (roots : list hash32) (cap : N) : option (result StoreError (list hash32 * bool)) :=
  reachable_with_mode fuel st roots History cap.

Definition reachable_closure_checked (fuel : nat) (st : ObjectStore) (roots : list hash32)
    : option (result StoreError (list hash32 * bool)) :=
  reachable_closure_checked_with_cap fuel st roots MAX_REACHABLE.

Definition reachable_closure (fuel : nat) (st : ObjectStore) (roots : list hash32)
    : option (result StoreError (list hash32)) :=
  fmap (M := option) (fmap fst) (reachable_closure_checked fuel st roots).

Definition reachable_objects (fuel : nat) (st : ObjectStore) (root : hash32)
    : option (result StoreError (list hash32)) :=
  reachable_closure fuel st [root].

Definition reachable_snapshot (fuel : nat) (st : ObjectStore) (root : hash32)
    : option (result StoreError (list hash32)) :=
  fmap (M := option) (fmap fst) (reachable_with_mode fuel st [root] Snapshot MAX_REACHABLE).

(** [ObjectStore::cached_children] of [store.rs]. *)
Definition cached_children (st : ObjectStore) (h : hash32) : result StoreError (list hash32) :=
  ty ← store_object_type st h;
  if is_leaf_type ty then mret []
  else
    bs ← read_raw st h;
    obj ← decode_err (deserialize bs);
    mret (children obj History).

(** [BulkWriter::reuse_object]; [refresh]: the outcome of [refresh_mtime]. *)
Definition reuse_object (now : option N) (refresh : option io_error) (h : hash32)
    (w : BulkWriter) : result StoreError (list hash32) * BulkWriter :=
  match cached_children (bw_store w) h with
  | Err e => (Err e, w)
  | Ok cs =>
      let p := path_for h in
      let done st refreshed :=
        (Ok cs, {| bw_store := st; bw_dirs := {[ op_dir p ]} ∪ bw_dirs w;
                   bw_files := {[ p ]} ∪ bw_files w; bw_refreshed := refreshed |}) in
      if bool_decide (h ∈ bw_refreshed w) then done (bw_store w) (bw_refreshed w)
      else match refresh with
           | Some e => (Err (Io e), w)
           | None => done (set_mtime p now (bw_store w)) ({[ h ]} ∪ bw_refreshed w)
           end
  end.
End reach.
