(* ===== verification/GraphFacts.v ===== *)
(** * Theorems about the walks of the object graph

    The walks of [Graph] compute reachability. Each proof is an instance of one
    worklist invariant, and each theorem gives the fuel that is enough. *)

From S2P Require Import Prelude Hash Object Serialize SerializeFacts ObjectId Store StoreFacts Graph.

(** ** The worklist invariant

    [V]: what the walk has visited; [pending]: what it still has to look at;
    [Base]: what was there before it started, already closed under [edges]. *)
Section worklist.
Context {A : Type} (edges : A → list A) (Root Base : A → Prop).

Definition edge (x y : A) : Prop := y ∈ edges x.

Definition reachable (y : A) : Prop := ∃ r, Root r ∧ rtc edge r y.

Record wl_inv (V : A → Prop) (pending : list A) : Prop := {
  wl_base x : Base x → V x;
  wl_roots x : Root x → V x ∨ x ∈ pending;
  wl_edges x y : V x → edge x y → V y ∨ y ∈ pending;
  wl_reach x : V x ∨ x ∈ pending → Base x ∨ reachable x
}.

Lemma wl_init (V : A → Prop) pending :
  (∀ x, V x ↔ Base x) → (∀ x, x ∈ pending ↔ Root x) →
  (∀ x y, Base x → edge x y → Base y) → wl_inv V pending.
Proof.
  intros HV Hp Hb. split.
  - intros x. apply HV.
  - intros x Hx. right. by apply Hp.
  - intros x y Hx%HV Hy. left. apply HV. eauto.
  - intros x [Hx%HV|Hx]; [by left|right]. exists x. split; [by apply Hp|done].
Qed.

Lemma wl_skip (V : A → Prop) x pending : V x → wl_inv V (x :: pending) → wl_inv V pending.
Proof.
  intros Hx [H1 H2 H3 H4]. split.
  - done.
  - intros y [?|[->|?]%elem_of_cons]%H2; auto.
  - intros y z Hy Hz. destruct (H3 y z Hy Hz) as [?|[->|?]%elem_of_cons]; auto.
  - intros y [?|?]; apply H4; [by left|by right; right].
Qed.

Lemma wl_visit (V V' : A → Prop) x pending pending' :
  (∀ y, V' y ↔ y = x ∨ V y) → (∀ y, y ∈ pending' ↔ y ∈ pending ∨ edge x y) →
  wl_inv V (x :: pending) → wl_inv V' pending'.
Proof.
  intros HV Hp [H1 H2 H3 H4]. setoid_rewrite elem_of_cons in H2. setoid_rewrite elem_of_cons in H3.
  setoid_rewrite elem_of_cons in H4. split.
  - intros y Hy. apply HV. auto.
  - intros y Hy. rewrite HV, Hp. destruct (H2 y Hy) as [?|[?|?]]; auto.
  - intros y z [->|Hy]%HV Hz; rewrite HV, Hp; [by auto|].
    destruct (H3 y z Hy Hz) as [?|[?|?]]; auto.
  - intros y. rewrite HV, Hp. intros [[->|Hy]|[Hy|Hy]]; [by auto..|].
    destruct (H4 x) as [Hx|(r & Hr & Hx)]; [by auto| |].
    + destruct (H3 x y) as [?|?]; [by apply H1|done|by apply H4; left|by apply H4; right].
    + right. exists r. split; [done|]. eapply rtc_r; done.
Qed.

(** When nothing is pending the walk has found exactly what is reachable. *)
Lemma wl_done (V : A → Prop) : wl_inv V [] → ∀ x, V x ↔ Base x ∨ reachable x.
Proof.
  intros [H1 H2 H3 H4] x. split; [by intros Hx; apply H4; left|].
  intros [Hx|(r & Hr & Hx)]; [by apply H1|].
  assert (V r) as Hv by (destruct (H2 r Hr) as [|?%not_elem_of_nil]; done).
  clear Hr. induction Hx as [|y z w Hyz _ IH]; [done|]. apply IH.
  by destruct (H3 y z Hv Hyz) as [|?%not_elem_of_nil].
Qed.

(** Before that, whatever it has found is reachable. *)
Lemma wl_sound (V : A → Prop) pending x :
  wl_inv V pending → V x ∨ x ∈ pending → Base x ∨ reachable x.
Proof. intros H. apply (wl_reach _ _ H). Qed.
End worklist.

Lemma elem_of_push_all ps st x : x ∈ push_all ps st ↔ x ∈ st ∨ x ∈ ps.
Proof.
  unfold push_all. revert st. induction ps as [|p ps IH]; intros st; cbn [foldl]; [set_solver|].
  rewrite IH. set_solver.
Qed.

Lemma size_insert_gset (x : hash32) (X : gset hash32) :
  x ∉ X → N.of_nat (size ({[x]} ∪ X)) = (N.of_nat (size X) + 1)%N.
Proof. intros H. rewrite size_union by set_solver. rewrite size_singleton. lia. Qed.

(** ** The commit graph of a view *)

Section ancestors.
Context `{B : Blake3} {S : Type} `{!ObjectSource S}.
Context (I : S → Prop) (view : hash32 → result StoreError bytes) `{V : !SourceView S I view}.

Definition vparents (h : hash32) : result StoreError (list hash32) := as_parents (view_object view h).
Definition vedges (h : hash32) : list hash32 := default [] (to_option (vparents h)).

(** [y] is [x] or an ancestor of [x]. *)
Definition ancestor_of (x y : hash32) : Prop := rtc (edge vedges) x y.

Lemma read_parents_view h s :
  I s → I (read_parents h s).2 ∧
    ((read_parents h s).1 = vparents h ∨ out_of_budget (read_parents h s).1).
Proof.
  intros HI. destruct (view_read_object h s HI) as [H1 H2]. unfold read_parents, vparents.
  destruct (src_read_object h s) as [r s']. cbn in *. split; [done|].
  destruct H2 as [->|[name ->]]; [by left|right]. by exists name.
Qed.

Lemma reachable_single x y : reachable vedges (eq x) y ↔ ancestor_of x y.
Proof. unfold reachable, ancestor_of. naive_solver. Qed.

(** Every node of the set beyond the caller's was read. *)
Definition read_below (set0 set : gset hash32) : Prop :=
  ∀ x, x ∈ set → x ∈ set0 ∨ is_ok (vparents x) = true.

Record ancestor_inv (start : hash32) (set0 : gset hash32) (w : AncestorWalk S) : Prop := {
  ai_source : I (aw_source w);
  ai_wl : wl_inv vedges (eq start) (.∈ set0) (.∈ aw_set w) (aw_stack w);
  ai_size : N.of_nat (size (aw_set w)) = (N.of_nat (size set0) + aw_count w)%N;
  ai_count : (aw_count w <= MAX_ANCESTORS)%N;
  ai_read : read_below set0 (aw_set w)
}.

(** What a finished walk promises. *)
Definition ancestor_post (start : hash32) (set0 : gset hash32)
    (out : result StoreError () * gset hash32 * S) : Prop :=
  let '(r, set, s) := out in
  I s ∧ set0 ⊆ set ∧ (∀ x, x ∈ set → x ∈ set0 ∨ ancestor_of start x) ∧
  match r with
  | Ok _ =>
      (∀ x, x ∈ set ↔ x ∈ set0 ∨ ancestor_of start x) ∨
      N.of_nat (size set) = (N.of_nat (size set0) + MAX_ANCESTORS)%N
  | Err e => out_of_budget (@Err StoreError () e) ∨
             ∃ x, ancestor_of start x ∧ vparents x = Err e
  end.

(** Every round visits a new commit or shortens the stack. *)
Definition ancestor_lt : relation (AncestorWalk S) :=
  lex2 (λ w, N.to_nat (MAX_ANCESTORS - aw_count w)) (λ w, length (aw_stack w)).

Lemma ancestor_step_inv start set0 w :
  ancestor_inv start set0 w →
  match ancestor_step w with
  | inl w' => ancestor_inv start set0 w' ∧ ancestor_lt w' w
  | inr out => ancestor_post start set0 out
  end.
Proof.
  intros [HI Hwl Hsz Hc Hrd]. unfold ancestor_step.
  assert (Hsub : set0 ⊆ aw_set w) by (intros x; apply (wl_base _ _ _ _ _ Hwl)).
  assert (Hsnd : ∀ x, x ∈ aw_set w → x ∈ set0 ∨ ancestor_of start x).
  { intros x Hx. rewrite <- reachable_single. apply (wl_sound _ _ _ _ _ x Hwl). by left. }
  destruct (aw_stack w) as [|h stack] eqn:Est.
  { split_and!; [done..|]. left. intros x. rewrite <- reachable_single.
    apply (wl_done _ _ _ _ Hwl). }
  destruct (N.leb_spec MAX_ANCESTORS (aw_count w)) as [Hm|Hm].
  { split_and!; [done..|]. right. lia. }
  case_bool_decide as Hin.
  { split; [split; cbn; try done; by eapply wl_skip|]. right. cbn. rewrite Est. simpl. lia. }
  assert (Hh : ancestor_of start h).
  { destruct (wl_sound _ _ _ _ _ h Hwl) as [Hb|Hb]; [right; left|by destruct Hin; apply Hsub|].
    by apply reachable_single. }
  destruct (read_parents_view h (aw_source w) HI) as [HI' Hr].
  destruct (read_parents h (aw_source w)) as [[ps|e] s'] eqn:Er; cbn in HI', Hr.
  - destruct Hr as [Hr|[? [=]]].
    assert (Hed : vedges h = ps) by (unfold vedges; by rewrite <- Hr).
    split; [split; cbn|left; cbn; lia]; try done; try lia.
    + eapply wl_visit; [| |exact Hwl]; [set_solver|].
      intros y. rewrite elem_of_push_all. unfold edge. by rewrite Hed.
    + rewrite size_insert_gset by done. lia.
    + intros x [->%elem_of_singleton|Hx]%elem_of_union; [right; by rewrite <- Hr|by apply Hrd].
  - split_and!; [done|set_solver| |].
    + intros x [->%elem_of_singleton|Hx]%elem_of_union; auto.
    + destruct Hr as [Hr|[name Hr]]; [right; eauto|left; exists name; congruence].
Qed.

(** [collect_ancestor_set] from any source with a view, into a set that
    already holds whole histories. The walk returns for some amount of fuel and
    every larger one. If it succeeds, the set is exactly the caller's set and the
    commit with all its ancestors, or the walk added [MAX_ANCESTORS] hashes; a
    missing object only ends the walk at that node. If it fails, a budget ran out
    or an ancestor could not be read. In every case nothing outside the history
    has been added. *)
Theorem collect_ancestor_set_spec (start : hash32) (set0 : gset hash32) (s : S)
    (Hs : I s) (Hclosed : ∀ x y, x ∈ set0 → y ∈ vedges x → y ∈ set0) :
  ∃ fuel out, (∀ fuel', fuel ≤ fuel' → collect_ancestor_set fuel' start set0 s = Some out) ∧
    ancestor_post start set0 out.
Proof.
  apply (loop_wf_rule ancestor_step ancestor_lt (ancestor_inv start set0) _ (lex2_wf _ _)).
  - intros w Hw. exact (ancestor_step_inv start set0 w Hw).
  - split; cbn; try done; [|lia|intros x Hx; by left].
    apply wl_init; [done| |done]. set_solver.
Qed.
End ancestors.

(** ** The reachability walk *)

#[export] Instance hash_ltb_strict : StrictOrd hash_ltb.
Proof.
  split.
  - intros x. apply (ltb_irr (ltb := bytes_ltb)).
  - intros x y z. apply (ltb_tr (ltb := bytes_ltb)).
  - intros x y. unfold hash_ltb.
    destruct (ltb_tot (ltb := bytes_ltb) (arr_bytes x) (arr_bytes y)) as [?|[?|?]]; auto.
    right. left. by apply arr_eq.
Qed.

Lemma bt_insert_len {A} (ltb : A → A → bool) `{!StrictOrd ltb} x l :
  x ∉ l → lenN (bt_insert ltb x l) = (lenN l + 1)%N.
Proof.
  induction l as [|y l IH]; cbn [bt_insert]; [done|]. intros [Hne Hin]%not_elem_of_cons.
  destruct (ltb x y) eqn:E1; [rewrite !lenN_cons; lia|].
  destruct (ltb y x) eqn:E2; [rewrite !lenN_cons, IH by done; lia|].
  destruct (ltb_tot x y) as [?|[?|?]]; congruence.
Qed.

Section reach.
Context `{B : Blake3} (st : ObjectStore) (mode : ClosureMode) (cap : N) (roots : list hash32).

(** The edges of a stored object; an object that cannot be read has none. *)
Definition redges (h : hash32) : list hash32 :=
  match read_object st h with Ok o => children o mode | Err _ => [] end.

Definition reachable_from (x : hash32) : Prop := reachable redges (.∈ roots) x.

(** Present: its kind can be told, and unless it is a leaf it can be read. *)
Definition walkable (x : hash32) : Prop :=
  ∃ ty, store_object_type st x = Ok ty ∧
        (is_leaf_type ty = true ∨ is_ok (read_object st x) = true).

Definition hash_sorted (l : list hash32) : Prop := StronglySorted (λ a b, hash_ltb a b = true) l.

Lemma sorted_nodup l : hash_sorted l → NoDup l.
Proof.
  induction 1 as [|x l _ IH Hx]; [apply NoDup_nil_2|]. apply list.NoDup_cons. split; [|done].
  intros Hin. eapply list.Forall_forall in Hx; [|exact Hin]. by destruct (ltb_irr (ltb := hash_ltb) x).
Qed.

Lemma leaf_edges h ty :
  store_object_type st h = Ok ty → is_leaf_type ty = true → redges h = [].
Proof.
  intros Ht Hl. unfold redges. destruct (read_object st h) as [o|e] eqn:E; [|done].
  apply read_object_type in E. rewrite Ht in E. injection E as ->. by destruct o.
Qed.

Record reach_inv (w : ReachWalk) : Prop := {
  ri_wl : wl_inv redges (.∈ roots) (λ _, False) (.∈ rw_out w) (rw_queue w);
  ri_sorted : hash_sorted (rw_out w);
  ri_cap : (lenN (rw_out w) <= cap)%N;
  ri_walkable : Forall walkable (rw_out w)
}.

(** What a finished walk promises. *)
Definition reach_post (r : result StoreError (list hash32 * bool)) : Prop :=
  match r with
  | Ok (out, truncated) =>
      hash_sorted out ∧ Forall walkable out ∧
      if truncated then lenN out = cap ∧ (∀ x, x ∈ out → reachable_from x)
      else (lenN out <= cap)%N ∧ ∀ x, x ∈ out ↔ reachable_from x
  | Err e =>
      ∃ x, reachable_from x ∧
        (store_object_type st x = Err e ∨
         ∃ ty, store_object_type st x = Ok ty ∧ is_leaf_type ty = false ∧
               read_object st x = Err e)
  end.

Definition reach_lt : relation ReachWalk :=
  lex2 (λ w, N.to_nat (cap - lenN (rw_out w))) (λ w, length (rw_queue w)).

(** One visit: the new node, whose edges are queued. *)
Lemma reach_visit w h queue es :
  reach_inv w → rw_queue w = h :: queue → (lenN (rw_out w) < cap)%N → h ∉ rw_out w →
  redges h = es → walkable h →
  let w' := {| rw_queue := queue ++ es; rw_out := bt_insert hash_ltb h (rw_out w) |} in
  reach_inv w' ∧ reach_lt w' w.
Proof.
  intros [Hwl Hs Hc Hw] Eq Hcap Hin Hes Hh. cbn zeta.
  pose proof (bt_insert_len hash_ltb h (rw_out w) Hin) as Hlen.
  split; [split|left]; cbn; try (rewrite Hlen; lia).
  - rewrite Eq in Hwl. eapply wl_visit; [| |exact Hwl].
    + intros y. apply bt_insert_elem, _.
    + intros y. rewrite elem_of_app. unfold edge. by rewrite Hes.
  - by apply bt_insert_sorted; [apply _|].
  - apply list.Forall_forall. intros x [->|Hx]%(bt_insert_elem hash_ltb); [done|].
    by eapply list.Forall_forall in Hw.
Qed.

Lemma reach_step_inv w :
  reach_inv w →
  match reach_step st mode cap w with
  | inl w' => reach_inv w' ∧ reach_lt w' w
  | inr r => reach_post r
  end.
Proof.
  intros Hi. pose proof Hi as [Hwl Hs Hc Hw]. unfold reach_step.
  assert (Hsnd : ∀ x, x ∈ rw_out w ∨ x ∈ rw_queue w → reachable_from x).
  { intros x Hx. by destruct (wl_sound _ _ _ _ _ x Hwl Hx). }
  destruct (rw_queue w) as [|h queue] eqn:Eq.
  { split_and!; [done..|]. intros x. rewrite (wl_done _ _ _ _ Hwl).
    unfold reachable_from. naive_solver. }
  destruct (N.leb_spec cap (lenN (rw_out w))).
  { split_and!; [done..|lia|auto]. }
  case_bool_decide as Hin.
  { split; [split; cbn; try done; by eapply wl_skip|]. right. cbn. rewrite Eq. simpl. lia. }
  assert (Hh : reachable_from h) by (apply Hsnd; right; left).
  destruct (store_object_type st h) as [ty|e] eqn:Et; [|by exists h; auto].
  destruct (is_leaf_type ty) eqn:El.
  - destruct (reach_visit w h queue []) as [? ?]; try done.
    + by eapply leaf_edges.
    + exists ty. auto.
    + by rewrite app_nil_r in *.
  - destruct (read_object st h) as [o|e] eqn:Eo; [|exists h; eauto 10].
    apply reach_visit; try done.
    + unfold redges. by rewrite Eo.
    + exists ty. rewrite Eo. auto.
Qed.

Lemma reachable_with_mode_ok :
  ∃ fuel r, (∀ fuel', fuel ≤ fuel' → reachable_with_mode fuel' st roots mode cap = Some r) ∧
    reach_post r.
Proof.
  apply (loop_wf_rule (reach_step st mode cap) reach_lt reach_inv _ (lex2_wf _ _)).
  - intros w Hw. exact (reach_step_inv w Hw).
  - split; cbn; [|constructor|rewrite lenN_nil; lia|constructor].
    apply wl_init; [|done..]. intros x. by split; [intros ?%not_elem_of_nil|].
Qed.

(** C9: the reachability walk behind push and gc, on every store, root list,
    mode and cap. Some amount of fuel, and every larger one, gives a result. An
    untruncated result is, in ascending order, exactly the set of objects
    reachable from the roots, all of them present, and within the cap. A truncated
    one has exactly [cap] objects, all reachable. A failure is the error of some
    reachable object that is missing or unreadable; so nothing reachable is ever
    silently left out. *)
Theorem reachable_with_mode_spec :
  ∃ fuel r, (∀ fuel', fuel ≤ fuel' → reachable_with_mode fuel' st roots mode cap = Some r) ∧
    reach_post r.
Proof. exact reachable_with_mode_ok. Qed.
End reach.

(** ** Witnesses, with the computable stand-in hash *)

Import Toy.

Definition ex_commit (tree : hash32) (parents : list hash32) (message : bytes) : Commit :=
  Commit_new_unannotated tree parents
    {| id_kind := IdentityKind.Ed25519; id_bytes := replicate 32 Byte.x01 |}
    ZERO message 7 (arr_zero 64).

Definition put_object (o : Object) (st : ObjectStore) : hash32 * ObjectStore :=
  let bs := default [] (to_option (serialize o)) in
  (object_id_from_bytes bs, (write None bs st).2).

(** A blob, a tree that holds it, a commit with a parent that is not stored, and
    its child. *)
Definition ex_repo : hash32 * hash32 * hash32 * ObjectStore :=
  let '(b, st) := put_object (OBlob {| blob_data := b# "hello" |}) {| disk := ∅ |} in
  let '(t, st) := put_object (OTree {| tree_entries :=
    [{| te_name := b# "f"; te_mode := EntryMode.Blob; te_hash := b |}] |}) st in
  let '(c1, st) := put_object (OCommit (ex_commit t [ZERO] (b# "one"))) st in
  let '(c2, st) := put_object (OCommit (ex_commit t [c1] (b# "two"))) st in
  (c1, c2, t, st).
Definition ex_c1 : hash32 := ex_repo.1.1.1.
Definition ex_c2 : hash32 := ex_repo.1.1.2.
Definition ex_tree_id : hash32 := ex_repo.1.2.
Definition ex_objects : ObjectStore := ex_repo.2.

Example walk_finds_three :
  (λ out, (out.1.1, bool_decide (out.1.2 = {[ ex_c2; ex_c1; ZERO ]})))
    <$> collect_ancestor_set 10 ex_c2 ∅ ex_objects = Some (Ok tt, true).
Proof. vm_compute. reflexivity. Qed.

Example snapshot_leaves_parents_out :
  fmap (M := option) (fmap length) (reachable_snapshot 10 ex_objects ex_c2) = Some (Ok 3) ∧
  reachable_objects 10 ex_objects ex_c2 = Some (Err (ObjectNotFound (to_hex ZERO))).
Proof. vm_compute. split; reflexivity. Qed.

Lemma collect_ancestor_set_spec_witness :
  ∃ fuel out, (∀ fuel', fuel ≤ fuel' →
      collect_ancestor_set fuel' ex_c2 ∅ ex_objects = Some out) ∧
    ancestor_post (eq ex_objects) (read ex_objects) ex_c2 ∅ out.
Proof.
  apply (collect_ancestor_set_spec (eq ex_objects) (read ex_objects) ex_c2 ∅ ex_objects).
  - reflexivity.
  - intros x y Hx. exfalso. exact (not_elem_of_empty x Hx).
Defined.
