(* ===== verification/Gc.v ===== *)
(** * Garbage collection

    Models [rust/crates/mkit-core/src/ops/gc.rs]: the retention roots of a
    repository, the live set over them, and the sweep. What the readers of the
    repository's state files return (refs, stash, index, operation state, logs)
    is a [RepoState]; the walk of the ref directories is modelled itself. *)

From S2P Require Import Prelude Hash Object Serialize ObjectId Store Graph.

(** ** [str::trim]: the UTF-8 forms of Unicode white space *)

Definition white_space : list bytes :=
  map (map n2b)
    ([[9]; [10]; [11]; [12]; [13]; [32]; [194; 133]; [194; 160]; [225; 154; 128];
      [226; 128; 128]; [226; 128; 129]; [226; 128; 130]; [226; 128; 131]; [226; 128; 132];
      [226; 128; 133]; [226; 128; 134]; [226; 128; 135]; [226; 128; 136]; [226; 128; 137];
      [226; 128; 138]; [226; 128; 168]; [226; 128; 169]; [226; 128; 175]; [226; 129; 159];
      [227; 128; 128]])%N.

Fixpoint trim_with (fuel : nat) (ws : list bytes) (s : bytes) : bytes :=
  match fuel with
  | O => s
  | S fuel => match find (λ w, starts_with w s) ws with
              | Some w => trim_with fuel ws (drop (length w) s)
              | None => s
              end
  end.

Definition trim (s : bytes) : bytes :=
  let t := trim_with (length s) white_space s in
  reverse (trim_with (length t) (map reverse white_space) (reverse t)).

(** ** Errors *)

(** The error types of the modules that read the roots, which gc only wraps. *)
Class RootErrors := {
  RefError : Type;
  StashError : Type;
  ConflictStateError : Type;
  RebaseError : Type;
  RecoveryError : Type;
  IndexError : Type;
  DiscoverError : Type
}.

Section gc.
Context `{B : Blake3} `{RE : RootErrors}.

Inductive GcRootsError :=
  | GRefs (e : RefError)
  | GStash (e : StashError)
  | GConflictState (e : ConflictStateError)
  | GRebase (e : RebaseError)
  | GRecovery (e : RecoveryError)
  | GIndex (e : IndexError)
  | GStore (e : StoreError)
  | GBadHash (e : FromHexError)
  | GIo (e : io_error)
  | Truncated
  | RefTooDeep (rel : bytes)
  | SymlinkedStore (path : bytes)
  | GWorktrees (e : DiscoverError).

(** [?] with the [From] conversion [f]. *)
Definition wrap {E A} (f : E → GcRootsError) (r : result E A) : result GcRootsError A :=
  match r with Ok a => Ok a | Err e => Err (f e) end.

(** ** The ref directories *)

(** [fs::read_dir]: an absent directory, an error, or its entries in the order
    they are listed. [EOther]: neither a directory nor a regular file. *)
Inductive ref_dir :=
  | DirAbsent
  | DirError (e : io_error)
  | DirEntries (es : ref_entries)
with ref_entries :=
  | ENil
  | ECons (e : ref_entry) (es : ref_entries)
with ref_entry :=
  | EntryError (e : io_error)
  | EDir (name : bytes) (d : ref_dir)
  | EFile (name : bytes) (content : result io_error bytes)
  | EOther (name : bytes).

Definition MAX_REF_WALK_DEPTH : N := 64.

Definition add_root (h : hash32) (roots : list hash32) : list hash32 :=
  if decide (h = ZERO) then roots else bt_insert hash_ltb h roots.

Definition add_roots (hs : list hash32) (roots : list hash32) : list hash32 :=
  foldl (λ s h, add_root h s) roots hs.

Fixpoint walk_ref_roots_strict (d : ref_dir) (rel : bytes) (depth : N) (roots : list hash32)
    : result GcRootsError (list hash32) :=
  if (MAX_REF_WALK_DEPTH <? depth)%N then Err (RefTooDeep rel)
  else match d with
       | DirAbsent => Ok roots
       | DirError e => Err (GIo e)
       | DirEntries es => walk_entries es rel depth roots
       end
with walk_entries (es : ref_entries) (rel : bytes) (depth : N) (roots : list hash32)
    : result GcRootsError (list hash32) :=
  match es with
  | ENil => Ok roots
  | ECons e es => roots ← walk_entry e rel depth roots; walk_entries es rel depth roots
  end
with walk_entry (e : ref_entry) (rel : bytes) (depth : N) (roots : list hash32)
    : result GcRootsError (list hash32) :=
  match e with
  | EntryError e => Err (GIo e)
  | EDir name d => walk_ref_roots_strict d (rel ++ b# "/" ++ name) (depth + 1) roots
  | EOther _ => Ok roots
  | EFile name content =>
      if starts_with (b# ".") name then Ok roots
      else
        raw ← wrap GIo content;
        h ← wrap GBadHash (from_hex (trim raw));
        mret (add_root h roots)
  end.

(** ** The state files *)

(** The base, ours and theirs blobs of one recorded conflict. *)
Record ConflictHashes := {
  ch_base : option hash32;
  ch_ours : option hash32;
  ch_theirs : option hash32
}.

Record RebaseState := {
  rb_orig_head : hash32;
  rb_onto : hash32;
  rb_todo : list hash32;
  rb_done : list hash32
}.

(** What the readers of one worktree's state return. *)
Record TreeState := {
  ts_head : result RefError (option hash32);
  ts_stash : result StashError (list (hash32 * hash32));
  ts_index : result IndexError (list hash32);
  ts_orig_head : result io_error (option bytes);
  ts_merge : result ConflictStateError (option (hash32 * hash32));
  ts_cherry_pick : result ConflictStateError (option (hash32 * hash32));
  ts_revert : result ConflictStateError (option (hash32 * hash32));
  ts_rebase : option (result RebaseError RebaseState);
  ts_conflicts : result ConflictStateError (list ConflictHashes);
  ts_rebase_conflicts : result ConflictStateError (list ConflictHashes)
}.

(** [read_optional_hash] on the contents of the file, [None] when it is absent. *)
Definition read_optional_hash (file : result io_error (option bytes))
    : result GcRootsError (option hash32) :=
  raw ← wrap GIo file;
  match raw with
  | None => Ok None
  | Some raw =>
      let trimmed := trim raw in
      if bool_decide (trimmed = []) then Ok None
      else Some <$> wrap GBadHash (from_hex trimmed)
  end.

Definition conflict_hashes (c : ConflictHashes) : list hash32 :=
  omap id [ch_base c; ch_ours c; ch_theirs c].

Definition add_pair (p : option (hash32 * hash32)) (roots : list hash32) : list hash32 :=
  match p with Some (a, b) => add_root b (add_root a roots) | None => roots end.

Definition collect_tree_roots (t : TreeState) (roots : list hash32)
    : result GcRootsError (list hash32) :=
  head ← wrap GRefs (ts_head t);
  let roots := add_roots (option_list head) roots in
  stash ← wrap GStash (ts_stash t);
  let roots := add_roots (concat (map (λ e, [e.1; e.2]) stash)) roots in
  index ← wrap GIndex (ts_index t);
  let roots := add_roots index roots in
  orig_head ← read_optional_hash (ts_orig_head t);
  let roots := add_roots (option_list orig_head) roots in
  m ← wrap GConflictState (ts_merge t);
  let roots := add_pair m roots in
  c ← wrap GConflictState (ts_cherry_pick t);
  let roots := add_pair c roots in
  r ← wrap GConflictState (ts_revert t);
  let roots := add_pair r roots in
  roots ← match ts_rebase t with
          | None => Ok roots
          | Some res =>
              st ← wrap GRebase res;
              mret (add_roots (rb_todo st ++ rb_done st)
                      (add_root (rb_onto st) (add_root (rb_orig_head st) roots)))
          end;
  c1 ← wrap GConflictState (ts_conflicts t);
  let roots := add_roots (concat (map conflict_hashes c1)) roots in
  c2 ← wrap GConflictState (ts_rebase_conflicts t);
  mret (add_roots (concat (map conflict_hashes c2)) roots).

(** The entries of [attestations/]: whether each is a directory, and its name. *)
Definition attested_commits (dir : result io_error (list (bool * bytes)))
    : result io_error (list hash32) :=
  fmap (M := result io_error)
    (omap (M := list) (λ e, if e.1 : bool then to_option (from_hex e.2) else None)) dir.

(** What the readers of the repository's state return. *)
Record RepoState := {
  rs_heads : ref_dir;
  rs_tags : ref_dir;
  rs_remotes : ref_dir;
  rs_trees : result DiscoverError (list TreeState);
  rs_attestations : result io_error (list (bool * bytes));
  rs_pending_history : result RefError (list hash32);
  rs_recovery : result RecoveryError (list hash32)
}.

Fixpoint collect_trees (ts : list TreeState) (roots : list hash32)
    : result GcRootsError (list hash32) :=
  match ts with
  | [] => Ok roots
  | t :: ts => roots ← collect_tree_roots t roots; collect_trees ts roots
  end.

Definition collect_roots (rs : RepoState) : result GcRootsError (list hash32) :=
  roots ← walk_ref_roots_strict (rs_heads rs) (b# "refs/heads") 0 [];
  roots ← walk_ref_roots_strict (rs_tags rs) (b# "refs/tags") 0 roots;
  roots ← walk_ref_roots_strict (rs_remotes rs) (b# "refs/remotes") 0 roots;
  trees ← wrap GWorktrees (rs_trees rs);
  roots ← collect_trees trees roots;
  attested ← wrap GIo (attested_commits (rs_attestations rs));
  let roots := add_roots attested roots in
  pending ← wrap GRefs (rs_pending_history rs);
  let roots := add_roots pending roots in
  recovery ← wrap GRecovery (rs_recovery rs);
  mret (add_roots recovery roots).

(** ** The live set *)

Definition live_objects (fuel : nat) (st : ObjectStore) (rs : RepoState)
    : option (result GcRootsError (list hash32)) :=
  match collect_roots rs with
  | Err e => Some (Err e)
  | Ok roots =>
      r ← reachable_closure_checked fuel st roots;
      Some (live ← wrap GStore r;
            if live.2 : bool then Err Truncated else mret live.1)
  end.

(** ** The sweep *)

Record GcReport := {
  scanned : N;
  live : N;
  kept_recent : N;
  pruned : N;
  bytes_reclaimed : N;
  dry_run : bool
}.

Definition report_new (dry : bool) : GcReport :=
  {| scanned := 0; live := 0; kept_recent := 0; pruned := 0; bytes_reclaimed := 0;
     dry_run := dry |}.

Definition count_live (r : GcReport) : GcReport :=
  {| scanned := scanned r + 1; live := live r + 1; kept_recent := kept_recent r;
     pruned := pruned r; bytes_reclaimed := bytes_reclaimed r; dry_run := dry_run r |}%N.
Definition count_kept (r : GcReport) : GcReport :=
  {| scanned := scanned r + 1; live := live r; kept_recent := kept_recent r + 1;
     pruned := pruned r; bytes_reclaimed := bytes_reclaimed r; dry_run := dry_run r |}%N.
Definition count_pruned (len : N) (r : GcReport) : GcReport :=
  {| scanned := scanned r + 1; live := live r; kept_recent := kept_recent r;
     pruned := pruned r + 1; bytes_reclaimed := bytes_reclaimed r + len;
     dry_run := dry_run r |}%N.

(** What the file system answers while gc runs, besides what the files hold: the
    error of listing the store, and for each object that is to be pruned the error
    of opening the format file, whether a writer holds its lock, and the error of
    the unlink. A file that is there is not reported missing. *)
Record Disk := {
  dk_unlisted : option io_error;
  dk_no_format : hash32 → option io_error;
  dk_locked : hash32 → bool;
  dk_refused : hash32 → option io_error;
  dk_refused_found : ∀ h, dk_refused h ≠ Some not_found
}.

Section sweep.
Context (now_secs grace_secs : N) (dry : bool).
(** [before_prune]: what other writers do to the store just before a delete. *)
Context (dk : Disk) (before_prune : hash32 → ObjectStore → ObjectStore).

(** One round of the loop of [run_gc_with_hook]. *)
Definition sweep_one (live_set : list hash32) (h : hash32) (report : GcReport)
    (st : ObjectStore) : result GcRootsError GcReport * ObjectStore :=
  if bool_decide (h ∈ live_set) then (Ok (count_live report), st)
  else match object_metadata st h with
       | Err _ => (Ok (count_kept report), st)
       | Ok meta =>
           if negb (old_enough meta now_secs grace_secs) then (Ok (count_kept report), st)
           else if dry then (Ok (count_pruned (lenN (fs_bytes meta)) report), st)
           else
             match prune_if_old_with_hook h now_secs grace_secs (dk_no_format dk h)
                     (dk_locked dk h) (dk_refused dk h) id (before_prune h st) with
             | (Err e, st) => (Err (GStore e), st)
             | (Ok None, st) => (Ok (count_kept report), st)
             | (Ok (Some len), st) => (Ok (count_pruned len report), st)
             end
       end.

Fixpoint sweep (live_set all : list hash32) (report : GcReport) (st : ObjectStore)
    : result GcRootsError GcReport * ObjectStore :=
  match all with
  | [] => (Ok report, st)
  | h :: all =>
      match sweep_one live_set h report st with
      | (Ok report, st) => sweep live_set all report st
      | (Err e, st) => (Err e, st)
      end
  end.

(** [reject_symlink]: the path, and whether it is a symbolic link. *)
Definition reject_symlink (path : bytes * result io_error bool) : result GcRootsError () :=
  is_link ← wrap GIo path.2;
  ensure (negb is_link) (SymlinkedStore path.1).

(** [run_gc_with_hook]: the outcome and the store that it leaves. *)
Definition run_gc_with_hook (fuel : nat) (common_dir objects_root : bytes * result io_error bool)
    (st : ObjectStore) (rs : RepoState) : option (result GcRootsError GcReport * ObjectStore) :=
  match reject_symlink common_dir ≫= λ _, reject_symlink objects_root with
  | Err e => Some (Err e, st)
  | Ok _ =>
      r ← live_objects fuel st rs;
      Some match r with
           | Err e => (Err e, st)
           | Ok live_set =>
               match iter_object_hashes (dk_unlisted dk) st with
               | Err e => (Err (GStore e), st)
               | Ok all => sweep live_set all (report_new dry) st
               end
           end
  end.
End sweep.

(** [run_gc]: no other writer between the checks. *)
Definition run_gc (now_secs grace_secs : N) (dry : bool) (dk : Disk) (fuel : nat)
    (common_dir objects_root : bytes * result io_error bool) (st : ObjectStore)
    (rs : RepoState) : option (result GcRootsError GcReport * ObjectStore) :=
  run_gc_with_hook now_secs grace_secs dry dk (λ _ st, st) fuel common_dir objects_root st rs.
End gc.
