(* ===== verification/GcFacts.v ===== *)
(** * Theorems about garbage collection

    The root set is complete and collected fail-closed, and the sweep deletes
    only old objects that no root reaches, whatever the store holds. *)

From S2P Require Import Prelude Hash Object Serialize SerializeFacts ObjectId Store StoreFacts Graph GraphFacts Gc.

Lemma elem_of_add_root h x roots : h ∈ add_root x roots ↔ h ∈ roots ∨ (h ≠ ZERO ∧ h = x).
Proof.
  unfold add_root. case_decide; [naive_solver|]. rewrite (bt_insert_elem hash_ltb). naive_solver.
Qed.

Lemma elem_of_add_roots h xs roots : h ∈ add_roots xs roots ↔ h ∈ roots ∨ (h ≠ ZERO ∧ h ∈ xs).
Proof.
  unfold add_roots. revert roots. induction xs as [|x xs IH]; intros roots; cbn [foldl].
  - set_solver.
  - rewrite IH, elem_of_add_root, elem_of_cons. naive_solver.
Qed.

Section roots.
Context `{RE : RootErrors}.

Lemma wrap_Ok {E A} (f : E → GcRootsError) (r : result E A) a : wrap f r = Ok a ↔ r = Ok a.
Proof. destruct r; naive_solver. Qed.

(** ** The ref directories *)

(** The regular files of a directory tree that hold refs, dot-files left out. *)
Fixpoint dir_files (d : ref_dir) : list (result io_error bytes) :=
  match d with DirEntries es => entries_files es | _ => [] end
with entries_files (es : ref_entries) : list (result io_error bytes) :=
  match es with ENil => [] | ECons e es => entry_files e ++ entries_files es end
with entry_files (e : ref_entry) : list (result io_error bytes) :=
  match e with
  | EDir _ d => dir_files d
  | EFile name content => if starts_with (b# ".") name then [] else [content]
  | _ => []
  end.

(** What a ref file names; nothing if it cannot be read or decoded. *)
Definition file_hash (content : result io_error bytes) : option hash32 :=
  raw ← to_option content; to_option (from_hex (trim raw)).

(** Every directory of the tree could be listed, within the depth cap. *)
Fixpoint dir_listed (d : ref_dir) (depth : N) : Prop :=
  (depth <= MAX_REF_WALK_DEPTH)%N ∧
  match d with DirEntries es => entries_listed es depth | DirAbsent => True | DirError _ => False end
with entries_listed (es : ref_entries) (depth : N) : Prop :=
  match es with
  | ENil => True
  | ECons e es => entry_listed e depth ∧ entries_listed es depth
  end
with entry_listed (e : ref_entry) (depth : N) : Prop :=
  match e with
  | EntryError _ => False
  | EDir _ d => dir_listed d (depth + 1)
  | EFile _ _ | EOther _ => True
  end.

Scheme ref_dir_ind' := Induction for ref_dir Sort Prop
  with ref_entries_ind' := Induction for ref_entries Sort Prop
  with ref_entry_ind' := Induction for ref_entry Sort Prop.
Combined Scheme ref_tree_ind from ref_dir_ind', ref_entries_ind', ref_entry_ind'.

(** What a successful walk has read and added. *)
Definition walked (files : list (result io_error bytes)) (listed : Prop)
    (roots roots' : list hash32) : Prop :=
  listed ∧ Forall (λ f, is_Some (file_hash f)) files ∧
  ∀ h, h ∈ roots' ↔ h ∈ roots ∨ (h ≠ ZERO ∧ ∃ f, f ∈ files ∧ file_hash f = Some h).

Lemma walked_nil (listed : Prop) roots : listed → walked [] listed roots roots.
Proof. intros Hl. split_and!; [done|constructor|]. set_solver. Qed.

Lemma walk_refs_sound :
  (∀ d rel depth roots roots', walk_ref_roots_strict d rel depth roots = Ok roots' →
     walked (dir_files d) (dir_listed d depth) roots roots') ∧
  (∀ es rel depth roots roots', walk_entries es rel depth roots = Ok roots' →
     walked (entries_files es) (entries_listed es depth) roots roots') ∧
  (∀ e rel depth roots roots', walk_entry e rel depth roots = Ok roots' →
     walked (entry_files e) (entry_listed e depth) roots roots').
Proof.
  apply ref_tree_ind.
  - intros rel depth roots roots'. cbn [walk_ref_roots_strict]. destruct (N.ltb_spec MAX_REF_WALK_DEPTH depth); [done|].
    intros <-%Ok_inj. by apply walked_nil.
  - intros e rel depth roots roots'. cbn [walk_ref_roots_strict]. by case_match.
  - intros es IH rel depth roots roots'. cbn [walk_ref_roots_strict].
    destruct (N.ltb_spec MAX_REF_WALK_DEPTH depth); [done|]. intros (? & ? & ?)%IH. by split.
  - intros rel depth roots roots' <-%Ok_inj. by apply walked_nil.
  - intros e IHe es IHes rel depth roots roots'. cbn [walk_entries].
    intros (r1 & (L1 & F1 & E1)%IHe & (L2 & F2 & E2)%IHes)%bind_Ok.
    split_and!; [done|by apply Forall_app|].
    intros h. rewrite E2, E1. cbn [entries_files]. setoid_rewrite elem_of_app. naive_solver.
  - done.
  - intros name d IH rel depth roots roots' H. apply IH in H. exact H.
  - intros name content rel depth roots roots'. cbn [walk_entry entry_files entry_listed].
    destruct (starts_with _ _); [intros <-%Ok_inj; by apply walked_nil|].
    intros (raw & Hc%wrap_Ok & (h & Hh%wrap_Ok & <-%ret_Ok)%bind_Ok)%bind_Ok.
    assert (file_hash content = Some h) as Hf by (unfold file_hash; by rewrite Hc; cbn; rewrite Hh).
    split_and!; [done|repeat constructor; by exists h|].
    intros x. rewrite elem_of_add_root. set_solver.
  - intros name rel depth roots roots' <-%Ok_inj. by apply walked_nil.
Qed.

(** ** The state files *)

Definition got {E A} (r : result E (list A)) : list A := default [] (to_option r).
Definition got1 {E A} (r : result E (option A)) : list A :=
  option_list (default None (to_option r)).
Definition pair_hashes (p : hash32 * hash32) : list hash32 := [p.1; p.2].

(** Every hash that the state of one worktree names. *)
Definition tree_root_list (t : TreeState) : list hash32 :=
  got1 (ts_head t) ++ concat (map pair_hashes (got (ts_stash t))) ++ got (ts_index t) ++
  got1 (read_optional_hash (ts_orig_head t)) ++
  concat (map pair_hashes (got1 (ts_merge t))) ++
  concat (map pair_hashes (got1 (ts_cherry_pick t))) ++
  concat (map pair_hashes (got1 (ts_revert t))) ++
  match ts_rebase t with
  | Some (Ok st) => rb_orig_head st :: rb_onto st :: rb_todo st ++ rb_done st
  | _ => []
  end ++
  concat (map conflict_hashes (got (ts_conflicts t))) ++
  concat (map conflict_hashes (got (ts_rebase_conflicts t))).

(** No reader of the worktree failed. *)
Definition tree_readable (t : TreeState) : bool :=
  is_ok (ts_head t) && is_ok (ts_stash t) && is_ok (ts_index t) &&
  is_ok (read_optional_hash (ts_orig_head t)) && is_ok (ts_merge t) &&
  is_ok (ts_cherry_pick t) && is_ok (ts_revert t) &&
  match ts_rebase t with Some r => is_ok r | None => true end &&
  is_ok (ts_conflicts t) && is_ok (ts_rebase_conflicts t).

Lemma elem_of_add_pair h p roots :
  h ∈ add_pair p roots ↔ h ∈ roots ∨ (h ≠ ZERO ∧ h ∈ concat (map pair_hashes (option_list p))).
Proof.
  destruct p as [[a b]|]; cbn; [|set_solver]. rewrite !elem_of_add_root. set_solver.
Qed.

Lemma collect_tree_roots_sound t roots roots' :
  collect_tree_roots t roots = Ok roots' →
  tree_readable t = true ∧ ∀ h, h ∈ roots' ↔ h ∈ roots ∨ (h ≠ ZERO ∧ h ∈ tree_root_list t).
Proof.
  unfold collect_tree_roots.
  intros (v1 & E1%wrap_Ok & (v2 & E2%wrap_Ok & (v3 & E3%wrap_Ok & (v4 & E4 &
    (v5 & E5%wrap_Ok & (v6 & E6%wrap_Ok & (v7 & E7%wrap_Ok & (v8 & E8 &
    (v9 & E9%wrap_Ok & (v10 & E10%wrap_Ok & <-%ret_Ok)
      %bind_Ok)%bind_Ok)%bind_Ok)%bind_Ok)%bind_Ok)%bind_Ok)%bind_Ok)%bind_Ok)%bind_Ok)%bind_Ok.
  unfold tree_readable, tree_root_list.
  rewrite E1, E2, E3, E4, E5, E6, E7, E9, E10. cbn [is_ok to_option got got1 default].
  assert (Hr : match ts_rebase t with Some r => is_ok r | None => true end = true ∧
    ∀ h, h ∈ v8 ↔ h ∈ add_pair v7 (add_pair v6 (add_pair v5 (add_roots (option_list v4)
      (add_roots v3 (add_roots (concat (map pair_hashes v2)) (add_roots (option_list v1) roots))))))
      ∨ h ≠ ZERO ∧ h ∈ match ts_rebase t with
        | Some (Ok st) => rb_orig_head st :: rb_onto st :: rb_todo st ++ rb_done st
        | _ => [] end).
  { destruct (ts_rebase t) as [[st|e]|]; [|done|].
    - cbn in E8. apply Ok_inj in E8 as <-. split; [done|]. intros h.
      rewrite elem_of_add_roots, !elem_of_add_root, !elem_of_cons. unfold pair_hashes. tauto.
    - apply Ok_inj in E8 as <-. split; [done|]. intros h. set_solver. }
  destruct Hr as [-> Hr]. split; [done|]. intros h.
  rewrite !elem_of_add_roots, Hr, !elem_of_add_pair, !elem_of_add_roots. 
  unfold got, got1. cbn [to_option default]. rewrite !elem_of_app. tauto.
Qed.

Lemma collect_trees_sound ts : ∀ roots roots', collect_trees ts roots = Ok roots' →
  forallb tree_readable ts = true ∧
  ∀ h, h ∈ roots' ↔ h ∈ roots ∨ (h ≠ ZERO ∧ ∃ t, t ∈ ts ∧ h ∈ tree_root_list t).
Proof.
  induction ts as [|t ts IH]; intros roots roots'; cbn [collect_trees forallb].
  - intros <-%Ok_inj. split; [done|]. set_solver.
  - intros (r1 & [Ht E1]%collect_tree_roots_sound & [Hts E2]%IH)%bind_Ok.
    rewrite Ht, Hts. split; [done|]. intros h. rewrite E2, E1. setoid_rewrite elem_of_cons.
    naive_solver.
Qed.

(** The ref files of the three namespaces. *)
Definition ref_files (rs : RepoState) : list (result io_error bytes) :=
  dir_files (rs_heads rs) ++ dir_files (rs_tags rs) ++ dir_files (rs_remotes rs).

(** [h] is named by some source of roots. *)
Definition root_named (rs : RepoState) (h : hash32) : Prop :=
  (∃ f, f ∈ ref_files rs ∧ file_hash f = Some h) ∨
  (∃ t, t ∈ got (rs_trees rs) ∧ h ∈ tree_root_list t) ∨
  h ∈ got (attested_commits (rs_attestations rs)) ∨
  h ∈ got (rs_pending_history rs) ∨ h ∈ got (rs_recovery rs).

(** Every source of roots could be read and decoded. *)
Definition roots_readable (rs : RepoState) : Prop :=
  dir_listed (rs_heads rs) 0 ∧ dir_listed (rs_tags rs) 0 ∧ dir_listed (rs_remotes rs) 0 ∧
  Forall (λ f, is_Some (file_hash f)) (ref_files rs) ∧
  is_ok (rs_trees rs) = true ∧ forallb tree_readable (got (rs_trees rs)) = true ∧
  is_ok (rs_attestations rs) = true ∧ is_ok (rs_pending_history rs) = true ∧
  is_ok (rs_recovery rs) = true.

Lemma named_app (fs gs : list (result io_error bytes)) h :
  (∃ f, f ∈ fs ++ gs ∧ file_hash f = Some h) ↔
  (∃ f, f ∈ fs ∧ file_hash f = Some h) ∨ (∃ f, f ∈ gs ∧ file_hash f = Some h).
Proof. setoid_rewrite elem_of_app. naive_solver. Qed.

Lemma collect_roots_sound rs roots :
  collect_roots rs = Ok roots →
  roots_readable rs ∧ ∀ h, h ∈ roots ↔ h ≠ ZERO ∧ root_named rs h.
Proof.
  unfold collect_roots. destruct walk_refs_sound as [Hwalk _].
  intros (v1 & (L1 & F1 & E1)%Hwalk & (v2 & (L2 & F2 & E2)%Hwalk & (v3 & (L3 & F3 & E3)%Hwalk &
    (v4 & E4%wrap_Ok & (v5 & [R5 E5]%collect_trees_sound & (v6 & E6%wrap_Ok &
    (v7 & E7%wrap_Ok & (v8 & E8%wrap_Ok & <-%ret_Ok)
      %bind_Ok)%bind_Ok)%bind_Ok)%bind_Ok)%bind_Ok)%bind_Ok)%bind_Ok)%bind_Ok.
  assert (Ha : is_ok (rs_attestations rs) = true)
    by (unfold attested_commits in E6; by destruct (rs_attestations rs)).
  unfold roots_readable, root_named, ref_files, got.
  rewrite E4, E6, E7, E8. cbn [is_ok to_option default].
  split; [split_and!; try done; by repeat apply Forall_app_2|].
  intros h. rewrite !elem_of_add_roots, E5, E3, E2, E1, !named_app, elem_of_nil. tauto.
Qed.

(** ** Readable sources are collected *)

Lemma walk_refs_total :
  (∀ d rel depth roots, dir_listed d depth → Forall (λ f, is_Some (file_hash f)) (dir_files d) →
     is_ok (walk_ref_roots_strict d rel depth roots) = true) ∧
  (∀ es rel depth roots, entries_listed es depth →
     Forall (λ f, is_Some (file_hash f)) (entries_files es) →
     is_ok (walk_entries es rel depth roots) = true) ∧
  (∀ e rel depth roots, entry_listed e depth →
     Forall (λ f, is_Some (file_hash f)) (entry_files e) →
     is_ok (walk_entry e rel depth roots) = true).
Proof.
  apply ref_tree_ind.
  - intros rel depth roots [Hd _] _. cbn [walk_ref_roots_strict].
    by destruct (N.ltb_spec MAX_REF_WALK_DEPTH depth); [lia|].
  - by intros e rel depth roots [_ []].
  - intros es IH rel depth roots [Hd Hes] Hf. cbn [walk_ref_roots_strict].
    destruct (N.ltb_spec MAX_REF_WALK_DEPTH depth); [lia|]. by apply IH.
  - done.
  - intros e IHe es IHes rel depth roots [He Hes] [Hf1 Hf2]%Forall_app. cbn [walk_entries].
    specialize (IHe rel depth roots He Hf1). destruct (walk_entry e rel depth roots); [|done].
    by apply IHes.
  - by intros e rel depth roots [].
  - intros name d IH rel depth roots Hd Hf. by apply IH.
  - intros name content rel depth roots _. cbn [walk_entry entry_files].
    destruct (starts_with _ _); [done|]. intros [[h Hh] _]%list.Forall_cons.
    unfold file_hash in Hh. destruct content as [raw|e]; [|done]. cbn in Hh |- *.
    by destruct (from_hex (trim raw)).
  - done.
Qed.

Lemma tree_readable_ok t roots :
  tree_readable t = true → is_ok (collect_tree_roots t roots) = true.
Proof.
  unfold tree_readable, collect_tree_roots. intros H.
  repeat match goal with
  | H : _ && _ = true |- _ => apply andb_true_iff in H as [? ?]
  end.
  destruct (ts_head t); [|done]. destruct (ts_stash t); [|done]. destruct (ts_index t); [|done].
  destruct (read_optional_hash _); [|done]. destruct (ts_merge t); [|done].
  destruct (ts_cherry_pick t); [|done]. destruct (ts_revert t); [|done].
  destruct (ts_rebase t) as [[]|], (ts_conflicts t), (ts_rebase_conflicts t); done.
Qed.

Lemma trees_readable_ok ts : ∀ roots,
  forallb tree_readable ts = true → is_ok (collect_trees ts roots) = true.
Proof.
  induction ts as [|t ts IH]; intros roots; cbn [forallb collect_trees]; [done|].
  intros [Ht Hts]%andb_true_iff. pose proof (tree_readable_ok t roots Ht) as H.
  destruct (collect_tree_roots t roots); [by apply IH|done].
Qed.

Lemma ok_bind {E A C} (m : result E A) (f : A → result E C) :
  is_ok m = true → (∀ a, is_ok (f a) = true) → is_ok (m ≫= f) = true.
Proof. intros Hm Hf. destruct m; [apply Hf|done]. Qed.

Lemma ok_wrap {E A} (f : E → GcRootsError) (r : result E A) :
  is_ok r = true → is_ok (wrap f r) = true.
Proof. by destruct r. Qed.

Lemma collect_roots_total rs : roots_readable rs → is_ok (collect_roots rs) = true.
Proof.
  intros (L1 & L2 & L3 & Hf & H4 & H5 & H6 & H7 & H8). unfold collect_roots.
  destruct walk_refs_total as [Hw _].
  apply Forall_app in Hf as [F1 [F2 F3]%Forall_app].
  apply ok_bind; [by apply Hw|intros r1]. apply ok_bind; [by apply Hw|intros r2].
  apply ok_bind; [by apply Hw|intros r3].
  destruct (rs_trees rs) as [ts|]; [|done]. cbn [wrap mbind result_bind].
  apply ok_bind; [by apply trees_readable_ok|intros r4].
  apply ok_bind; [apply ok_wrap; by destruct (rs_attestations rs)|intros r5].
  apply ok_bind; [by apply ok_wrap|intros r6]. by apply ok_bind; [apply ok_wrap|].
Qed.

(** C8: the retention roots are complete and collected fail-closed. If
    [collect_roots] succeeds, every ref file at any depth, every worktree state
    and every log was read and decoded, and the roots are exactly the non-zero
    hashes that these sources name; it fails exactly when some source cannot be
    read, decoded or listed within the depth cap. *)
Theorem collect_roots_complete (rs : RepoState) :
  match collect_roots rs with
  | Ok roots => roots_readable rs ∧ ∀ h, h ∈ roots ↔ h ≠ ZERO ∧ root_named rs h
  | Err _ => ¬ roots_readable rs
  end.
Proof.
  destruct (collect_roots rs) as [roots|e] eqn:E; [by apply collect_roots_sound|].
  intros H%collect_roots_total. by rewrite E in H.
Qed.
End roots.

(** ** The sweep *)

Section sweep.
Context `{B : Blake3} `{RE : RootErrors} (now grace : N) (dry : bool) (dk : Disk).

(** The file at the object's path is old enough to be deleted. *)
Definition old_file (st : ObjectStore) (h : hash32) : Prop :=
  ∃ f, disk st !! path_for h = Some f ∧ old_enough f now grace = true.

(** [io]: why [prune_if_old] fails on an old object. *)
Definition delete_fails (h : hash32) (io : io_error) : Prop :=
  dk_no_format dk h = Some io ∨
  (dk_no_format dk h = None ∧ dk_locked dk h = false ∧ dk_refused dk h = Some io).

(** [st] is what is left of [st0] when some old objects of [visited] outside
    [keep] are gone. *)
Definition swept (keep visited : list hash32) (st0 st : ObjectStore) : Prop :=
  ∀ p, disk st !! p = disk st0 !! p ∨
    (disk st !! p = None ∧ dry = false ∧
     ∃ h, h ∈ visited ∧ p = path_for h ∧ (h ∉ keep) ∧ dk_locked dk h = false ∧ old_file st0 h).

(** Nothing that is to be deleted is left at [h]. *)
Definition gone (keep : list hash32) (st0 st : ObjectStore) (h : hash32) : Prop :=
  dry = false → h ∉ keep → dk_locked dk h = false → old_file st0 h →
  disk st !! path_for h = None.

(** [st'] has no file that [st] does not have. *)
Definition shrunk (st st' : ObjectStore) : Prop := ∀ p, disk st !! p = None → disk st' !! p = None.

(** The failure [e] of the delete of [h], which the sweep had to try. *)
Definition failed_at (keep : list hash32) (st0 : ObjectStore) (h : hash32) (e : GcRootsError)
    : Prop :=
  dry = false ∧ (h ∉ keep) ∧ old_file st0 h ∧ ∃ io, delete_fails h io ∧ e = GStore (Io io).

Abbreviation sweep_one' := (sweep_one now grace dry dk (λ _ st, st)).
Abbreviation sweep' := (sweep now grace dry dk (λ _ st, st)).

Definition balanced (r : GcReport) (n : N) : Prop :=
  scanned r = n ∧ scanned r = (live r + kept_recent r + pruned r)%N ∧ dry_run r = dry.

Lemma swept_file keep visited st0 st p f :
  swept keep visited st0 st → disk st !! p = Some f → disk st0 !! p = Some f.
Proof. intros H Hf. destruct (H p) as [E|[E _]]; congruence. Qed.

Lemma swept_more keep visited visited' st0 st :
  visited ⊆ visited' → swept keep visited st0 st → swept keep visited' st0 st.
Proof. intros Hsub H p. destruct (H p) as [?|(? & ? & h & ? & ?)]; [by left|right]. eauto 10. Qed.

(** What one round of the loop, or several, leave. *)
Definition swept_round (keep visited todo : list hash32) (st0 st : ObjectStore) (n : N)
    (out : result GcRootsError GcReport * ObjectStore) : Prop :=
  match out with
  | (Ok report, st') =>
      swept keep (visited ++ todo) st0 st' ∧ balanced report (n + lenN todo) ∧
      (∀ h, h ∈ todo → gone keep st0 st' h) ∧ shrunk st st'
  | (Err e, st') =>
      ∃ pre h post, todo = pre ++ h :: post ∧ swept keep (visited ++ pre) st0 st' ∧
        (∀ x, x ∈ pre → gone keep st0 st' x) ∧ shrunk st st' ∧ failed_at keep st0 h e
  end.

Lemma remove_object_refused h io st :
  dk_refused dk h = Some io → remove_object (dk_refused dk h) h st = (Err (Io io), st).
Proof.
  intros Hr. pose proof (dk_refused_found dk h) as Hf. rewrite Hr in *.
  unfold remove_object, remove_file. by rewrite bool_decide_false by congruence.
Qed.

Lemma remove_object_ok h f st :
  disk st !! path_for h = Some f →
  remove_object None h st = (Ok tt, {| disk := delete (path_for h) (disk st) |}).
Proof. intros Hf. unfold remove_object, remove_file. by rewrite Hf. Qed.

Lemma sweep_one_spec keep visited st0 st h report n :
  swept keep visited st0 st → balanced report n →
  swept_round keep visited [h] st0 st n (sweep_one' keep h report st).
Proof.
  intros Hs (Hn & Hc & Hd). unfold sweep_one.
  assert (Hbal : ∀ report' : GcReport, scanned report' = (scanned report + 1)%N →
    (live report' + kept_recent report' + pruned report' =
     live report + kept_recent report + pruned report + 1)%N → dry_run report' = dry →
    balanced report' (n + 1)) by (intros report' ? ? ?; split_and!; [lia..|done]).
  assert (Hsame : ∀ report', balanced report' (n + 1) → gone keep st0 st h →
    swept_round keep visited [h] st0 st n (Ok report', st)).
  { intros r ? ?. split_and!; [|done| |by intros ?]; [|by intros x ->%list_elem_of_singleton].
    eapply swept_more; [|exact Hs]. set_solver. }
  case_bool_decide as Hk.
  { apply Hsame; [by apply Hbal; cbn; lia || done|]. by intros _ ?. }
  unfold object_metadata. destruct (disk st !! path_for h) as [f|] eqn:Ef; cbn [ok_or].
  2:{ apply Hsame; [by apply Hbal; cbn; lia || done|]. by intros _ _ _ _. }
  pose proof (swept_file _ _ _ _ _ _ Hs Ef) as Ef0.
  destruct (old_enough f now grace) eqn:Ho; cbn [negb].
  2:{ apply Hsame; [by apply Hbal; cbn; lia || done|]. intros _ _ _ (g & Hg & ?). congruence. }
  destruct dry eqn:Edry.
  { apply Hsame; [by apply Hbal; cbn; lia || done|]. intros ?. congruence. }
  assert (Hfail : ∀ io, delete_fails h io →
    swept_round keep visited [h] st0 st n (Err (GStore (Io io)), st)).
  { intros io Hio. exists [], h, []. rewrite app_nil_r. split_and!; try done.
    - by intros x ?%not_elem_of_nil.
    - by intros ?.
    - split_and!; try done; [by exists f|by exists io]. }
  unfold prune_if_old_with_hook, object_metadata.
  destruct (dk_no_format dk h) as [io|] eqn:Eno; [by apply Hfail; left|].
  destruct (dk_locked dk h) eqn:El.
  { apply Hsame; [by apply Hbal; cbn; lia || done|]. intros _ _ ?. congruence. }
  rewrite Ef. cbn [ok_or]. rewrite Ho. cbn [negb id].
  destruct (dk_refused dk h) as [io|] eqn:Er.
  { rewrite <- Er. rewrite (remove_object_refused h io) by done. by apply Hfail; right. }
  rewrite (remove_object_ok h f) by done. split_and!.
  - intros p. cbn. destruct (decide (p = path_for h)) as [->|Hne].
    + right. rewrite lookup_delete_eq. split_and!; [done|done|]. exists h.
      split_and!; try done; [set_solver|by exists f].
    + rewrite lookup_delete_ne by done. apply (swept_more _ _ (visited ++ [h]) _ _) in Hs; [apply Hs|].
      set_solver.
  - by apply Hbal; cbn; lia || done.
  - intros x ->%list_elem_of_singleton _ _ _ _. cbn. apply lookup_delete_eq.
  - intros p Hp. cbn. by apply lookup_delete_None; right.
Qed.

Lemma sweep_spec keep st0 all : ∀ visited st report n,
  swept keep visited st0 st → balanced report n →
  swept_round keep visited all st0 st n (sweep' keep all report st).
Proof.
  induction all as [|h all IH]; intros visited st report n Hs Hb; cbn [sweep].
  - unfold swept_round. rewrite lenN_nil, N.add_0_r, app_nil_r.
    split_and!; [done..|by intros h ?%not_elem_of_nil|by intros ?].
  - pose proof (sweep_one_spec keep visited st0 st h report n Hs Hb) as H1.
    destruct (sweep_one' keep h report st) as [[r1|e] st1].
    2:{ destruct H1 as (pre & x & post & Hsp & Hs1 & Hg1 & M1 & Hf).
        destruct pre as [|? pre]; [|by destruct pre]. injection Hsp as -> <-.
        by exists [], x, all. }
    destruct H1 as (Hs1 & Hb1 & Hg1 & M1).
    specialize (IH (visited ++ [h]) st1 r1 _ Hs1 Hb1).
    destruct (sweep' keep all r1 st1) as [[r2|e] st2].
    + destruct IH as (Hs2 & Hb2 & Hg2 & M2). rewrite <- app_assoc in Hs2. cbn in Hs2.
      split_and!; [done| | |by intros p ?; apply M2, M1].
      * replace (n + lenN (h :: all))%N with (n + lenN [h] + lenN all)%N
          by (rewrite !lenN_cons, lenN_nil; lia). done.
      * intros x [->|Hx]%elem_of_cons; [|by apply Hg2].
        intros ? ? ? ?. apply M2, (Hg1 h); [set_solver|done..].
    + destruct IH as (pre & x & post & -> & Hs2 & Hg2 & M2 & Hf). rewrite <- app_assoc in Hs2.
      exists (h :: pre), x, post. split_and!; try done; [|by intros p ?; apply M2, M1].
      intros y [->|Hy]%elem_of_cons; [|by apply Hg2].
      intros ? ? ? ?. apply M2, (Hg1 h); [set_solver|done..].
Qed.

(** Live: reachable, with parents, from a root that some source names. *)
Definition gc_live (st : ObjectStore) (rs : RepoState) (x : hash32) : Prop :=
  ∃ r, r ≠ ZERO ∧ root_named rs r ∧ rtc (edge (redges st History)) r x.

(** [st'] is [st] after the sweep has dealt with [visited]: the live objects are
    untouched, what is gone was old, unlocked and not live, and nothing that was
    all of this is left. *)
Definition gc_swept (st : ObjectStore) (rs : RepoState) (visited : list hash32)
    (st' : ObjectStore) : Prop :=
  (∀ x, gc_live st rs x → disk st' !! path_for x = disk st !! path_for x ∧ walkable st x) ∧
  (∀ p, disk st' !! p = disk st !! p ∨
     (disk st' !! p = None ∧ dry = false ∧
      ∃ h, h ∈ visited ∧ p = path_for h ∧ ¬ gc_live st rs h ∧ dk_locked dk h = false ∧
           old_file st h)) ∧
  (dry = false → ∀ h, h ∈ visited → ¬ gc_live st rs h → dk_locked dk h = false →
     old_file st h → disk st' !! path_for h = None).

(** Why gc gives up before it sweeps. *)
Definition gc_refused (common_dir objects_root : bytes * result io_error bool)
    (st : ObjectStore) (rs : RepoState) (e : GcRootsError) : Prop :=
  (reject_symlink common_dir ≫= λ _, reject_symlink objects_root) = Err e ∨
  ¬ roots_readable rs ∨
  (∃ x, gc_live st rs x ∧ ¬ walkable st x) ∨
  (e = Truncated ∧ ∃ l, NoDup l ∧ lenN l = MAX_REACHABLE ∧ ∀ x, x ∈ l → gc_live st rs x) ∨
  (∃ io, dk_unlisted dk = Some io ∧ e = GStore (Io io)).

(** What [run_gc] promises of the store [st'] that it leaves. *)
Definition gc_post (common_dir objects_root : bytes * result io_error bool) (st : ObjectStore)
    (rs : RepoState) (out : result GcRootsError GcReport * ObjectStore) : Prop :=
  match out with
  | (Ok report, st') =>
      gc_swept st rs (object_names st) st' ∧ scanned report = lenN (object_names st) ∧
      scanned report = (live report + kept_recent report + pruned report)%N
  | (Err e, st') =>
      (st' = st ∧ gc_refused common_dir objects_root st rs e) ∨
      (∃ pre h post io, object_names st = pre ++ h :: post ∧ gc_swept st rs pre st' ∧
         dry = false ∧ ¬ gc_live st rs h ∧ old_file st h ∧ delete_fails h io ∧
         e = GStore (Io io))
  end.

Lemma gc_swept_intro st rs keep visited st' :
  (∀ x, x ∈ keep ↔ gc_live st rs x) → Forall (walkable st) keep →
  swept keep visited st st' → (∀ h, h ∈ visited → gone keep st st' h) →
  gc_swept st rs visited st'.
Proof.
  intros Hk Hw Hs Hg. split_and!.
  - intros x Hx. split; [|by eapply list.Forall_forall; [|apply Hk]].
    destruct (Hs (path_for x)) as [|(_ & _ & h & _ & Hp & Hh & _)]; [done|].
    apply object_path_inj in Hp as <-. by destruct Hh; apply Hk.
  - intros p. destruct (Hs p) as [?|(? & ? & h & ? & ? & Hh & ? & ?)]; [by left|right].
    split_and!; [done..|]. exists h. rewrite <- Hk. done.
  - intros Hd h Hin Hl Hlk Ho. apply (Hg h Hin); try done. by rewrite Hk.
Qed.

(** A sweep against a keep-set that is exactly the live objects. *)
Lemma sweep_post common_dir objects_root st rs keep :
  (∀ x, x ∈ keep ↔ gc_live st rs x) → Forall (walkable st) keep →
  gc_post common_dir objects_root st rs (sweep' keep (object_names st) (report_new dry) st).
Proof.
  intros Hk Hw.
  pose proof (sweep_spec keep st (object_names st) [] st (report_new dry) 0) as H.
  destruct (sweep' keep (object_names st) (report_new dry) st) as [[r|e] st'].
  - destruct H as (Hs & (Hn & Hc & _) & Hg & _); [by intros p; left|done|].
    split_and!; [by eapply gc_swept_intro|lia|done].
  - destruct H as (pre & h & post & Hsp & Hs & Hg & _ & ? & Hh & ? & io & ? & ?);
      [by intros p; left|done|].
    right. exists pre, h, post, io. rewrite <- Hk. split_and!; try done.
    by eapply gc_swept_intro.
Qed.

(** C7: garbage collection is safe and effective. With some amount of fuel, and
    every larger one, [run_gc] returns. If it succeeds, every object reachable
    with its history from any root is present and its file untouched; every file
    that is gone was enumerated, unreachable, unlocked and past the grace window,
    and none is gone in a dry run; every such object is gone; and the counts of
    the report add up to the objects enumerated. If it fails before the sweep (a
    symlinked store, an unreadable root source, a live object that is missing or
    unreadable, the reachability cap, a store that cannot be listed), nothing has
    been deleted. Otherwise it failed on an I/O error of the delete of one old
    unreachable object: then the objects enumerated before it have been swept as
    in the case of success, and no other file has been touched. *)
Theorem run_gc_safe (common_dir objects_root : bytes * result io_error bool)
    (st : ObjectStore) (rs : RepoState) :
  ∃ fuel out, (∀ fuel', fuel ≤ fuel' →
      run_gc now grace dry dk fuel' common_dir objects_root st rs = Some out) ∧
    gc_post common_dir objects_root st rs out.
Proof.
  unfold run_gc, run_gc_with_hook.
  destruct (reject_symlink common_dir ≫= _) as [u|e] eqn:El.
  2:{ exists 0, (Err e, st). split; [done|]. left. split; [done|by left]. }
  unfold live_objects. destruct (collect_roots rs) as [roots|e] eqn:Er.
  2:{ exists 0, (Err e, st). split; [done|]. left. split; [done|]. right; left.
      intros H%collect_roots_total. by rewrite Er in H. }
  apply collect_roots_sound in Er as [_ Hroots].
  assert (Hlive : ∀ x, reachable_from st History roots x ↔ gc_live st rs x).
  { intros x. unfold reachable_from, reachable, gc_live.
    split; intros (y & Hy & Hx); [apply Hroots in Hy as []; by exists y|].
    exists y. rewrite Hroots. tauto. }
  destruct (reachable_with_mode_ok st History MAX_REACHABLE roots) as (fuel & r & Hr & Hpost).
  assert (Hc : ∀ fuel', fuel ≤ fuel' → reachable_closure_checked fuel' st roots = Some r)
    by exact Hr.
  assert (Hret : ∀ e, gc_refused common_dir objects_root st rs e →
    gc_post common_dir objects_root st rs (Err e, st)) by (intros e ?; by left).
  destruct r as [[keep truncated]|e].
  2:{ exists fuel, (Err (GStore e), st). split; [intros fuel' Hle; by rewrite Hc|].
      apply Hret. do 2 right; left. destruct Hpost as (x & Hx%Hlive & He). exists x.
      split; [done|]. intros (ty & Ht & Hok).
      destruct He as [He|(ty' & Ht' & Hl & He)]; [congruence|].
      rewrite Ht in Ht'. injection Ht' as <-. rewrite He in Hok. destruct Hok; [congruence|done]. }
  destruct Hpost as (Hsort & Hw & Hpost). destruct truncated.
  { exists fuel, (Err Truncated, st). split; [intros fuel' Hle; by rewrite Hc|].
    apply Hret. do 3 right; left. destruct Hpost as [Hlen Hall]. split; [done|].
    exists keep. split_and!; [by eapply sorted_nodup|done|]. intros x ?%Hall. by apply Hlive. }
  destruct (dk_unlisted dk) as [io|] eqn:Eu.
  { exists fuel, (Err (GStore (Io io)), st).
    split; [intros fuel' Hle; by rewrite Hc|].
    apply Hret. do 4 right. by exists io. }
  exists fuel, (sweep' keep (object_names st) (report_new dry) st).
  split; [intros fuel' Hle; by rewrite Hc|].
  destruct Hpost as [_ Hk]. apply sweep_post; [|done]. intros x. by rewrite Hk.
Qed.
End sweep.
