(* ===== verification/Ancestry.v ===== *)
(** * Ancestry of commits and merge bases

    Models the commit-graph half of [rust/crates/mkit-core/src/ops/merge.rs]:
    [is_ancestor], [collect_ancestors_with_depth] and [find_merge_base], over
    any [ObjectSource]. The queues of the source are vectors with a read
    position; here a queue is what lies at and after that position. *)

From S2P Require Import Prelude Hash Object Store Graph.

Section ancestry.
Context {S : Type} `{!ObjectSource S}.

(** ** [is_ancestor] *)

Record SeenWalk := {
  sw_stack : list hash32;
  sw_seen : gset hash32;
  sw_source : S
}.

Definition is_ancestor_step (ancestor : hash32) (w : SeenWalk)
    : SeenWalk + result StoreError bool * S :=
  match sw_stack w with
  | [] => inr (Ok false, sw_source w)
  | current :: stack =>
      if bool_decide (current ∈ sw_seen w) then
        inl {| sw_stack := stack; sw_seen := sw_seen w; sw_source := sw_source w |}
      else
        let seen := {[ current ]} ∪ sw_seen w in
        if bool_decide (current = ancestor) then inr (Ok true, sw_source w)
        else
          match read_parents current (sw_source w) with
          | (Err e, s) => inr (Err e, s)
          | (Ok ps, s) =>
              inl {| sw_stack := push_all ps stack; sw_seen := seen; sw_source := s |}
          end
  end.

Definition is_ancestor (fuel : nat) (ancestor descendant : hash32) (s : S)
    : option (result StoreError bool * S) :=
  if bool_decide (ancestor = descendant) then Some (Ok true, s)
  else loop fuel (is_ancestor_step ancestor)
         {| sw_stack := [descendant]; sw_seen := ∅; sw_source := s |}.

(** ** [collect_ancestors_with_depth] *)

Record DepthWalk := {
  dw_queue : list (hash32 * N);
  dw_ancestors : gmap hash32 N;
  dw_source : S
}.

(** [for &p in &parents { queue.push((p, depth + 1)) }]. *)
Definition with_depth (ps : list hash32) (depth : N) : list (hash32 * N) :=
  (λ p, (p, depth)) <$> ps.

Definition depth_step (w : DepthWalk)
    : DepthWalk + result StoreError (gmap hash32 N) * S :=
  match dw_queue w with
  | [] => inr (Ok (dw_ancestors w), dw_source w)
  | (node, depth) :: queue =>
      match dw_ancestors w !! node with
      | Some _ =>
          inl {| dw_queue := queue; dw_ancestors := dw_ancestors w; dw_source := dw_source w |}
      | None =>
          match read_parents node (dw_source w) with
          | (Err e, s) => inr (Err e, s)
          | (Ok ps, s) =>
              inl {| dw_queue := queue ++ with_depth ps (depth + 1);
                     dw_ancestors := <[ node := depth ]> (dw_ancestors w);
                     dw_source := s |}
          end
      end
  end.

Definition collect_ancestors_with_depth (fuel : nat) (start : hash32) (s : S)
    : option (result StoreError (gmap hash32 N) * S) :=
  loop fuel depth_step {| dw_queue := [(start, 0%N)]; dw_ancestors := ∅; dw_source := s |}.

(** ** [find_merge_base] *)

Record BaseWalk := {
  bw_queue : list (hash32 * N);
  bw_best : option (hash32 * N);
  bw_source : S
}.

(** [best] after looking at one node of B's history. *)
Definition better (ancestors_a : gmap hash32 N) (node : hash32) (depth : N)
    (best : option (hash32 * N)) : option (hash32 * N) :=
  match ancestors_a !! node with
  | None => best
  | Some ancestor_depth =>
      let total := (ancestor_depth + depth)%N in
      match best with
      | None => Some (node, total)
      | Some (_, t) => if (total <? t)%N then Some (node, total) else best
      end
  end.

(** [best] is set and [depth] is beyond its total. *)
Definition beyond (best : option (hash32 * N)) (depth : N) : bool :=
  match best with Some (_, best_total) => (best_total <? depth)%N | None => false end.

Definition base_step (ancestors_a : gmap hash32 N) (w : BaseWalk)
    : BaseWalk + result StoreError (option hash32) * S :=
  match bw_queue w with
  | [] => inr (Ok (fst <$> bw_best w), bw_source w)
  | (node, depth) :: queue =>
      if beyond (bw_best w) depth then inr (Ok (fst <$> bw_best w), bw_source w)
      else
        let best := better ancestors_a node depth (bw_best w) in
        match read_parents node (bw_source w) with
        | (Err e, s) => inr (Err e, s)
        | (Ok ps, s) =>
            inl {| bw_queue := queue ++ with_depth ps (depth + 1);
                   bw_best := best; bw_source := s |}
        end
  end.

Definition find_merge_base (fuel : nat) (a b : hash32) (s : S)
    : option (result StoreError (option hash32) * S) :=
  if bool_decide (a = b) then Some (Ok (Some a), s)
  else
    r ← collect_ancestors_with_depth fuel a s;
    match r with
    | (Err e, s) => Some (Err e, s)
    | (Ok ancestors_a, s) =>
        loop fuel (base_step ancestors_a)
          {| bw_queue := [(b, 0%N)]; bw_best := None; bw_source := s |}
    end.
End ancestry.
#[global] Arguments SeenWalk : clear implicits.
#[global] Arguments DepthWalk : clear implicits.
#[global] Arguments BaseWalk : clear implicits.
