(* ===== verification/AncestryFacts.v ===== *)
(** * Theorems about ancestry and merge bases

    [is_ancestor] decides reachability, [collect_ancestors_with_depth] computes
    shortest distances, and [find_merge_base] a common ancestor of least total
    depth. All are proved over any source with a view. *)

From stdpp Require Import relations.
From S2P Require Import Prelude Hash Object Store StoreFacts Graph GraphFacts Ancestry.

(** ** Depth layers

    A breadth-first queue holds entries of one depth, then entries of the next. *)
Definition layered {A} (lvl : N) (q : list (A * N)) : Prop :=
  ∃ q1 q2, q = q1 ++ q2 ∧ Forall (λ e, e.2 = lvl) q1 ∧ Forall (λ e, e.2 = lvl + 1)%N q2.

Lemma layered_init {A} (x : A) : layered 0 [(x, 0%N)].
Proof. exists [(x, 0%N)], []. by repeat constructor. Qed.

(** The head is a shallowest entry, and its children may be queued after it. *)
Lemma layered_pop {A} lvl (x : A) d q (ys : list (A * N)) :
  layered lvl ((x, d) :: q) → (lvl ≤ d)%N ∧ (∀ y e, (y, e) ∈ q → d ≤ e)%N ∧ layered d q ∧
  (Forall (λ e, e.2 = d + 1)%N ys → layered d (q ++ ys)).
Proof.
  intros (q1 & q2 & E & H1 & H2). destruct q1 as [|e1 q1].
  - cbn in E. subst q2. apply list.Forall_cons in H2 as [Hd H2]. cbn in Hd. subst d.
    assert (layered (lvl + 1) q) as Hl by (exists q, []; by rewrite app_nil_r).
    split_and!; [lia| |done|].
    + intros y e Hy. eapply list.Forall_forall in H2; [|exact Hy]. cbn in H2. lia.
    + intros Hys. by exists q, ys.
  - cbn in E. injection E as <- ->. apply list.Forall_cons in H1 as [Hd H1]. cbn in Hd. subst d.
    split_and!; [lia| |by exists q1, q2|].
    + intros y e [Hy|Hy]%elem_of_app; eapply list.Forall_forall in Hy; [|done| |done]; cbn in Hy; lia.
    + intros Hys. exists q1, (q2 ++ ys). rewrite app_assoc. split_and!; [done..|].
      by apply Forall_app.
Qed.

Lemma with_depth_spec ps d : Forall (λ e, e.2 = d) (with_depth ps d).
Proof.
  apply list.Forall_forall. intros e (p & -> & _)%list_elem_of_fmap. done.
Qed.

Lemma elem_of_with_depth ps d y e : (y, e) ∈ with_depth ps d ↔ y ∈ ps ∧ e = d.
Proof.
  unfold with_depth. rewrite list_elem_of_fmap. naive_solver.
Qed.

Section facts.
Context `{B : Blake3} {S : Type} `{!ObjectSource S}.
Context (I : S → Prop) (view : hash32 → result StoreError bytes) `{V : !SourceView S I view}.

Abbreviation edges := (vedges view).
Abbreviation parent := (edge (vedges view)).

(** [y] is [n] parent steps above [x]. *)
Definition steps (n : nat) (x y : hash32) : Prop := nsteps parent n x y.

Lemma ancestor_steps x y : ancestor_of view x y ↔ ∃ n, steps n x y.
Proof. apply rtc_nsteps. Qed.

(** What an error of a walk over the history of [start] means. *)
Definition walk_error (start : hash32) (e : StoreError) : Prop :=
  out_of_budget (@Err StoreError () e) ∨ ∃ x, ancestor_of view start x ∧ vparents view x = Err e.

(** One read of a walk: the edges of the node, or an error of the walk. *)
Lemma read_parents_case start x s :
  I s → ancestor_of view start x →
  I (read_parents x s).2 ∧
  match (read_parents x s).1 with
  | Ok ps => vparents view x = Ok ps ∧ edges x = ps
  | Err e => walk_error start e
  end.
Proof.
  intros HI Hx. destruct (read_parents_view I view x s HI) as [HI' H]. split; [done|].
  destruct (read_parents x s).1 as [ps|e] eqn:E; cbn in H.
  - destruct H as [H|[? [=]]]. unfold vedges. by rewrite <- H.
  - destruct H as [H|[name [= ->]]]; [right; by exists x|left; by exists name].
Qed.

(** ** [is_ancestor] *)

(** The history of [x] is within the finite set [U]. *)
Definition history_in (U : gset hash32) (x : hash32) : Prop :=
  x ∈ U ∧ ∀ y z, y ∈ U → z ∈ edges y → z ∈ U.

Record seen_inv (U : gset hash32) (ancestor descendant : hash32) (w : SeenWalk S) : Prop := {
  si_source : I (sw_source w);
  si_wl : wl_inv edges (eq descendant) (λ _, False) (.∈ sw_seen w) (sw_stack w);
  si_in : sw_seen w ⊆ U ∧ Forall (.∈ U) (sw_stack w);
  si_not : ancestor ∉ sw_seen w
}.

Definition seen_post (ancestor descendant : hash32) (out : result StoreError bool * S) : Prop :=
  I out.2 ∧
  match out.1 with
  | Ok b => b = true ↔ ancestor_of view descendant ancestor
  | Err e => walk_error descendant e
  end.

Definition seen_lt (U : gset hash32) : relation (SeenWalk S) :=
  lex2 (λ w, size (U ∖ sw_seen w)) (λ w, length (sw_stack w)).

Lemma seen_step U ancestor descendant w :
  history_in U descendant → seen_inv U ancestor descendant w →
  match is_ancestor_step ancestor w with
  | inl w' => seen_inv U ancestor descendant w' ∧ seen_lt U w' w
  | inr out => seen_post ancestor descendant out
  end.
Proof.
  intros [_ HU] [HI Hwl [Hs Hq] Hn]. unfold is_ancestor_step.
  destruct (sw_stack w) as [|h stack] eqn:Eq.
  { split; [done|]. cbn. split; [done|]. intros Ha. destruct Hn.
    apply (wl_done _ _ _ _ Hwl). right. by apply reachable_single. }
  apply list.Forall_cons in Hq as [Hh Hq].
  case_bool_decide as Hin.
  { split; [split; cbn; try done; by eapply wl_skip|right; cbn; rewrite Eq; simpl; lia]. }
  assert (Ha : ancestor_of view descendant h).
  { destruct (wl_sound _ _ _ _ _ h Hwl) as [[]|Hr]; [right; left|by apply reachable_single]. }
  case_bool_decide as He; [subst; by split|].
  destruct (read_parents_case descendant h (sw_source w) HI Ha) as [HI' Hr].
  destruct (read_parents h (sw_source w)) as [[ps|e] s']; cbn in HI', Hr; [|by split].
  destruct Hr as [_ Hed]. split; [split; cbn|left; cbn]; try done.
  - eapply wl_visit; [| |exact Hwl]; [set_solver|].
    intros y. rewrite elem_of_push_all. unfold edge. by rewrite Hed.
  - split; [set_solver|]. apply list.Forall_forall. intros y [Hy|Hy]%elem_of_push_all.
    + by eapply list.Forall_forall in Hq.
    + apply (HU h); [done|]. by rewrite Hed.
  - set_solver.
  - apply subset_size. set_solver.
Qed.

(** [is_ancestor] decides ancestry. On a history that is finite it returns,
    with some amount of fuel and every larger one, and the answer is [true]
    exactly when the ancestor is the descendant or reachable from it through
    parents; it fails only with a budget or an unreadable commit of the
    descendant's history. *)
Theorem is_ancestor_spec (U : gset hash32) (ancestor descendant : hash32) (s : S)
    (Hs : I s) (HU : history_in U descendant) :
  ∃ fuel out, (∀ fuel', fuel ≤ fuel' → is_ancestor fuel' ancestor descendant s = Some out) ∧
    seen_post ancestor descendant out.
Proof.
  unfold is_ancestor. case_bool_decide as He.
  { exists 0, (Ok true, s). split; [done|]. subst. split; [done|]. split; [|done]. intros _. apply rtc_refl. }
  apply (loop_wf_rule (is_ancestor_step ancestor) (seen_lt U) (seen_inv U ancestor descendant) _
           (lex2_wf _ _)).
  - intros w Hw. by apply seen_step.
  - destruct HU as [Hd _]. split; cbn; [done| |split; [set_solver|by repeat constructor]|set_solver].
    apply wl_init; [set_solver|set_solver|done].
Qed.

(** ** [collect_ancestors_with_depth] *)

(** [m] gives, for a subset of the history closed up to [q], the length of a
    path from [start] that is no longer than any. *)
Record depth_inv (U : gset hash32) (start : hash32) (w : DepthWalk S) : Prop := {
  di_source : I (dw_source w);
  di_layers : ∃ lvl, layered lvl (dw_queue w) ∧
                     ∀ x d, dw_ancestors w !! x = Some d → (d ≤ lvl)%N;
  di_path x d : dw_ancestors w !! x = Some d ∨ (x, d) ∈ dw_queue w → steps (N.to_nat d) start x;
  di_start : dw_ancestors w !! start = Some 0%N ∨ (start, 0%N) ∈ dw_queue w;
  di_edges x d y : dw_ancestors w !! x = Some d → y ∈ edges x →
    ∃ e, (e ≤ d + 1)%N ∧ (dw_ancestors w !! y = Some e ∨ (y, e) ∈ dw_queue w);
  di_in : dom (dw_ancestors w) ⊆ U ∧ Forall (λ e, e.1 ∈ U) (dw_queue w)
}.

(** [m] maps exactly the history of [start] to the shortest distances. *)
Definition distances (start : hash32) (m : gmap hash32 N) : Prop :=
  (∀ x d, m !! x = Some d → steps (N.to_nat d) start x) ∧
  (∀ x n, steps n start x → ∃ d, m !! x = Some d ∧ N.to_nat d ≤ n).

Definition depth_post (start : hash32) (out : result StoreError (gmap hash32 N) * S) : Prop :=
  I out.2 ∧
  match out.1 with
  | Ok m => distances start m
  | Err e => walk_error start e
  end.

Definition depth_lt (U : gset hash32) : relation (DepthWalk S) :=
  lex2 (λ w, size (U ∖ dom (dw_ancestors w))) (λ w, length (dw_queue w)).

Lemma depth_done U start w : depth_inv U start w → dw_queue w = [] → distances start (dw_ancestors w).
Proof.
  intros [_ _ Hp Hs He _] Eq. rewrite Eq in *. split; [by intros x d Hx; apply Hp; left|].
  intros x n Hn. revert x Hn. induction n as [|n IH]; intros x Hn.
  - inv Hn. destruct Hs as [Hs|Hs%not_elem_of_nil]; [by exists 0%N|done].
  - replace (Datatypes.S n) with (n + 1) in Hn by lia.
    apply nsteps_add_inv in Hn as (z & Hz & Hx%nsteps_once_inv).
    destruct (IH z Hz) as (d & Hd & Hle).
    destruct (He z d x Hd Hx) as (e & Hee & [Hy|Hy%not_elem_of_nil]); [|done].
    exists e. split; [done|lia].
Qed.

(** A node that is looked at again: its entry in the map is no deeper. *)
Lemma depth_skip U start w h dh q d0 :
  depth_inv U start w → dw_queue w = (h, dh) :: q → dw_ancestors w !! h = Some d0 →
  depth_inv U start {| dw_queue := q; dw_ancestors := dw_ancestors w; dw_source := dw_source w |}.
Proof.
  intros [HI (lvl & Hl & Hm) Hp Hs He [HU1 HU2]] Eq Hd0. rewrite Eq in *.
  destruct (layered_pop _ _ _ _ [] Hl) as (Hle & _ & Hq & _).
  assert (Hsub : ∀ y e, dw_ancestors w !! y = Some e ∨ (y, e) ∈ (h, dh) :: q →
    ∃ e', (e' ≤ e)%N ∧ (dw_ancestors w !! y = Some e' ∨ (y, e') ∈ q)).
  { intros y e [Hy|[[= -> ->]|Hy]%elem_of_cons]; [by exists e; auto| |by exists e; auto].
    exists d0. apply Hm in Hd0 as Hd0'. split; [lia|by left]. }
  split; cbn; try done.
  - exists dh. split; [done|]. intros x d Hx. apply Hm in Hx. lia.
  - intros x d Hx. apply Hp. destruct Hx; [by left|by right; right].
  - destruct (Hsub _ _ Hs) as (e & He0 & Hy). by replace e with 0%N in Hy by lia.
  - intros x d y Hx Hy. destruct (He x d y Hx Hy) as (e & Hed & Hee).
    destruct (Hsub _ _ Hee) as (e' & ? & ?). exists e'. split; [lia|done].
  - split; [done|]. by apply list.Forall_cons in HU2 as [_ ?].
Qed.

(** A node that is looked at first. *)
Lemma depth_visit U start w h dh q ps s :
  history_in U start → depth_inv U start w → dw_queue w = (h, dh) :: q →
  dw_ancestors w !! h = None → edges h = ps → I s →
  depth_inv U start {| dw_queue := q ++ with_depth ps (dh + 1);
                       dw_ancestors := <[ h := dh ]> (dw_ancestors w); dw_source := s |}.
Proof.
  intros [_ HU] [_ (lvl & Hl & Hm) Hp Hs He [HU1 HU2]] Eq Hh Hps HI. rewrite Eq in *.
  destruct (layered_pop _ _ _ _ (with_depth ps (dh + 1)) Hl) as (Hle & _ & _ & Hq).
  apply list.Forall_cons in HU2 as [HhU HU2]. cbn in HhU.
  assert (Hhead : steps (N.to_nat dh) start h) by (apply Hp; right; left).
  set (m' := <[ h := dh ]> (dw_ancestors w)). set (q' := q ++ with_depth ps (dh + 1)).
  assert (Hkeep : ∀ y e, dw_ancestors w !! y = Some e ∨ (y, e) ∈ (h, dh) :: q →
    m' !! y = Some e ∨ (y, e) ∈ q').
  { intros y e [Hy|[[= -> ->]|Hy]%elem_of_cons].
    - left. unfold m'. rewrite lookup_insert_ne by congruence. done.
    - left. apply lookup_insert_eq.
    - right. apply elem_of_app. by left. }
  split; cbn; try done.
  - exists dh. split; [apply Hq, with_depth_spec|].
    intros x d [[<- <-]|[_ Hx%Hm]]%lookup_insert_Some; lia.
  - intros x d [[[<- <-]|[_ Hx]]%lookup_insert_Some|[Hx|[Hx ->]%elem_of_with_depth]%elem_of_app].
    + done.
    + apply Hp. by left.
    + apply Hp. by right; right.
    + replace (N.to_nat (dh + 1)) with (N.to_nat dh + 1) by lia.
      eapply nsteps_trans; [exact Hhead|]. apply nsteps_once. unfold edge. by rewrite Hps.
  - by apply Hkeep.
  - intros x d y [[<- <-]|[_ Hx]]%lookup_insert_Some Hy.
    + exists (dh + 1)%N. split; [lia|]. right. apply elem_of_app. right.
      apply elem_of_with_depth. by rewrite <- Hps.
    + destruct (He x d y Hx Hy) as (e & ? & ?). exists e. auto.
  - split; [unfold m'; rewrite dom_insert_L; set_solver|]. apply Forall_app. split; [done|].
    apply list.Forall_forall. intros [y e] [Hy ->]%elem_of_with_depth.
    apply (HU h); [done|]. by rewrite Hps.
Qed.

Lemma depth_step_inv U start w :
  history_in U start → depth_inv U start w →
  match depth_step w with
  | inl w' => depth_inv U start w' ∧ depth_lt U w' w
  | inr out => depth_post start out
  end.
Proof.
  intros HU Hi. pose proof Hi as [HI _ Hp _ _ [HU1 HU2]]. unfold depth_step.
  destruct (dw_queue w) as [|[h dh] q] eqn:Eq; [split; [done|by eapply depth_done]|].
  destruct (dw_ancestors w !! h) as [d0|] eqn:Eh.
  { split; [by eapply depth_skip|]. right. cbn. rewrite Eq. simpl. lia. }
  assert (Ha : ancestor_of view start h).
  { apply ancestor_steps. eexists. apply Hp. right. left. }
  destruct (read_parents_case start h (dw_source w) HI Ha) as [HI' Hr].
  destruct (read_parents h (dw_source w)) as [[ps|e] s']; cbn in HI', Hr; [|by split].
  destruct Hr as [_ Hed]. split; [by eapply depth_visit|]. left. cbn.
  apply list.Forall_cons in HU2 as [HhU _]. apply not_elem_of_dom in Eh.
  apply subset_size. rewrite dom_insert_L. set_solver.
Qed.

Lemma depth_spec U start s :
  I s → history_in U start →
  ∃ fuel out, (∀ fuel', fuel ≤ fuel' → collect_ancestors_with_depth fuel' start s = Some out) ∧
    depth_post start out.
Proof.
  intros Hs HU.
  apply (loop_wf_rule depth_step (depth_lt U) (depth_inv U start) _ (lex2_wf _ _)).
  - intros w Hw. by apply depth_step_inv.
  - pose proof HU as [Hd _]. split; cbn; [done| | | | |].
    + exists 0%N. split; [apply layered_init|]. by intros x d ?%lookup_empty_Some.
    + intros x d [?%lookup_empty_Some|[= -> ->]%list_elem_of_singleton]; [done|constructor].
    + right. left.
    + by intros x d y ?%lookup_empty_Some.
    + split; [set_solver|by repeat constructor].
Qed.

(** ** [find_merge_base] *)

(** The history of [b] is ranked: every parent has a smaller rank. *)
Definition ranked (rank : hash32 → nat) (b : hash32) : Prop :=
  ∀ x y, ancestor_of view b x → y ∈ edges x → rank y < rank x.

(** The number of paths up from [x]: the rounds that the search spends on it. *)
Fixpoint paths (n : nat) (x : hash32) : nat :=
  match n with
  | O => 1
  | Datatypes.S n => Datatypes.S (sum_list (paths n <$> edges x))
  end.

Lemma paths_rank rank b n x :
  ranked rank b → ancestor_of view b x → rank x ≤ n → paths n x = paths (rank x) x.
Proof.
  intros Hr. revert x. induction n as [n IH] using lt_wf_ind. intros x Hx Hn.
  assert (Hch : ∀ m k, m < n → k < n → rank x ≤ Datatypes.S m → rank x ≤ Datatypes.S k →
    paths m <$> edges x = paths k <$> edges x).
  { intros m k Hm Hk Hxm Hxk. apply list_fmap_ext. intros i y Hy%list_elem_of_lookup_2.
    pose proof (Hr x y Hx Hy). assert (ancestor_of view b y) by (by eapply rtc_r).
    rewrite (IH m), (IH k) by (done || lia). done. }
  destruct (decide (rank x = n)) as [->|Hne]; [done|].
  destruct n as [|n]; [lia|]. destruct (rank x) as [|r] eqn:Er.
  - assert (edges x = []) as E.
    { destruct (edges x) as [|y l] eqn:E; [done|]. pose proof (Hr x y Hx) as H.
      rewrite E, Er in H. specialize (H ltac:(left)). lia. }
    cbn [paths]. by rewrite E.
  - cbn [paths]. f_equal. f_equal. apply Hch; lia.
Qed.

Definition load (rank : hash32 → nat) (q : list (hash32 * N)) : nat :=
  sum_list ((λ e, paths (rank e.1) e.1) <$> q).

Lemma load_app rank p q : load rank (p ++ q) = load rank p + load rank q.
Proof. unfold load. induction p as [|e p IH]; [done|]. cbn. cbn in IH. lia. Qed.

(** A round replaces a node by its parents, and so takes one path away. *)
Lemma load_pop rank b h dh q d :
  ranked rank b → ancestor_of view b h →
  load rank (q ++ with_depth (edges h) d) < load rank ((h, dh) :: q).
Proof.
  intros Hr Hh. rewrite load_app. unfold load. cbn.
  assert (H : sum_list ((λ e, paths (rank e.1) e.1) <$> with_depth (edges h) d)
    < paths (rank h) h); [|lia].
  unfold with_depth. rewrite <- list_fmap_compose.
  rewrite <- (paths_rank rank b (Datatypes.S (rank h)) h) by (done || lia). cbn [paths].
  apply Nat.lt_succ_r. apply Nat.eq_le_incl. f_equal. apply list_fmap_ext.
  intros i y Hy%list_elem_of_lookup_2. cbn.
  pose proof (Hr h y Hh Hy). symmetry. apply (paths_rank rank b); [done| |lia].
  by eapply rtc_r.
Qed.

(** [best] is at most [t]. *)
Definition covers (best : option (hash32 * N)) (t : N) : Prop :=
  ∃ n t', best = Some (n, t') ∧ (t' ≤ t)%N.

Lemma better_covers m node depth best t : covers best t → covers (better m node depth best) t.
Proof.
  intros (n & t' & -> & Ht). unfold better. destruct (m !! node) as [da|]; [|by exists n, t'].
  destruct (N.ltb_spec (da + depth) t'); [|by exists n, t']. exists node, (da + depth)%N.
  split; [done|lia].
Qed.

Lemma better_covers_node (m : gmap hash32 N) node depth best da :
  m !! node = Some da → covers (better m node depth best) (da + depth).
Proof.
  intros Hm. unfold better. rewrite Hm. destruct best as [[n t]|].
  - destruct (N.ltb_spec (da + depth) t); [by exists node, (da + depth)%N|]. by exists n, t.
  - by exists node, (da + depth)%N.
Qed.

(** The candidate is a common ancestor with the total of two actual paths. *)
Definition candidate (m : gmap hash32 N) (b : hash32) (best : option (hash32 * N)) : Prop :=
  ∀ n t, best = Some (n, t) → ∃ da db, m !! n = Some da ∧ steps db b n ∧ t = (da + N.of_nat db)%N.

Record base_inv (m : gmap hash32 N) (b : hash32) (w : BaseWalk S) : Prop := {
  bi_source : I (bw_source w);
  bi_layers : ∃ lvl, layered lvl (bw_queue w);
  bi_path x d : (x, d) ∈ bw_queue w → steps (N.to_nat d) b x;
  bi_best : candidate m b (bw_best w);
  bi_cover x n da : steps n b x → m !! x = Some da →
    covers (bw_best w) (da + N.of_nat n) ∨
    ∃ z dz r, (z, dz) ∈ bw_queue w ∧ steps r z x ∧ N.to_nat dz + r ≤ n
}.

(** The common ancestor of least total depth, if there is any. *)
Definition is_merge_base (a b : hash32) (base : option hash32) : Prop :=
  match base with
  | Some n => ∃ da db, steps da a n ∧ steps db b n ∧
      ∀ x i j, steps i a x → steps j b x → da + db ≤ i + j
  | None => ∀ x, ancestor_of view a x → ¬ ancestor_of view b x
  end.

Definition base_post (a b : hash32) (out : result StoreError (option hash32) * S) : Prop :=
  I out.2 ∧
  match out.1 with
  | Ok base => is_merge_base a b base
  | Err e => walk_error a e ∨ walk_error b e
  end.

(** The search may stop once every common ancestor is covered. *)
Lemma best_is_base a b m best :
  distances a m → candidate m b best →
  (∀ x n da, steps n b x → m !! x = Some da → covers best (da + N.of_nat n)) →
  is_merge_base a b (fst <$> best).
Proof.
  intros [Hm1 Hm2] Hc Hcov. destruct best as [[n t]|]; cbn.
  - destruct (Hc n t eq_refl) as (da & db & Hda & Hdb & ->).
    exists (N.to_nat da), db. split_and!; [by apply Hm1|done|].
    intros x i j Hi Hj. destruct (Hm2 x i Hi) as (d & Hd & Hdi).
    destruct (Hcov x j d Hj Hd) as (n' & t' & [= <- <-] & Ht). lia.
  - intros x [i Hi]%ancestor_steps [j Hj]%ancestor_steps.
    destruct (Hm2 x i Hi) as (d & Hd & _). by destruct (Hcov x j d Hj Hd) as (? & ? & ? & _).
Qed.

(** One round: the node's own total is covered, and its parents are queued. *)
Lemma base_visit a b m w h dh q ps s :
  distances a m → base_inv m b w → bw_queue w = (h, dh) :: q → edges h = ps → I s →
  base_inv m b {| bw_queue := q ++ with_depth ps (dh + 1);
                  bw_best := better m h dh (bw_best w); bw_source := s |}.
Proof.
  intros [Hm1 _] [_ (lvl & Hl) Hp Hb Hc] Eq Hps HI. rewrite Eq in *.
  destruct (layered_pop _ _ _ _ (with_depth ps (dh + 1)) Hl) as (_ & _ & _ & Hq).
  assert (Hhead : steps (N.to_nat dh) b h) by (apply Hp; left).
  split; cbn; try done.
  - exists dh. apply Hq, with_depth_spec.
  - intros x d [Hx|[Hx ->]%elem_of_with_depth]%elem_of_app; [by apply Hp; right|].
    replace (N.to_nat (dh + 1)) with (N.to_nat dh + 1) by lia.
    eapply nsteps_trans; [exact Hhead|]. apply nsteps_once. unfold edge. by rewrite Hps.
  - intros n t. unfold better. destruct (m !! h) as [da|] eqn:Ed; [|apply Hb].
    assert (∃ da0 db, m !! h = Some da0 ∧ steps db b h ∧ (da + dh)%N = (da0 + N.of_nat db)%N)
      by (exists da, (N.to_nat dh); split_and!; [done|done|lia]).
    destruct (bw_best w) as [[n' t']|]; [|by intros [= <- <-]].
    destruct (N.ltb_spec (da + dh) t'); [by intros [= <- <-]|apply Hb].
  - intros x n da Hn Hda.
    destruct (Hc x n da Hn Hda) as [Hcov|(z & dz & r & Hz & Hr & Hle)]; [left; by apply better_covers|].
    apply elem_of_cons in Hz as [[= -> ->]|Hz].
    2:{ right. exists z, dz, r. split_and!; [apply elem_of_app; by left|done|done]. }
    destruct r as [|r]; inv Hr.
    + left. destruct (better_covers_node m x dh (bw_best w) da Hda) as (n' & t' & E & Ht).
      exists n', t'. split; [done|lia].
    + right. exists y, (dh + 1)%N, r. split_and!; [|done|lia].
      apply elem_of_app. right. by apply elem_of_with_depth.
Qed.

Lemma base_step_inv rank a b m w :
  ranked rank b → distances a m → base_inv m b w →
  match base_step m w with
  | inl w' => base_inv m b w' ∧ load rank (bw_queue w') < load rank (bw_queue w)
  | inr out => base_post a b out
  end.
Proof.
  intros Hr Hm Hi. pose proof Hi as [HI (lvl & Hl) Hp Hb Hc]. unfold base_step.
  destruct (bw_queue w) as [|[h dh] q] eqn:Eq.
  { split; [done|]. cbn. apply (best_is_base a b m); [done..|]. intros x n da Hn Hda.
    by destruct (Hc x n da Hn Hda) as [|(? & ? & ? & ?%not_elem_of_nil & _)]. }
  destruct (layered_pop _ _ _ _ [] Hl) as (_ & Hmin & _ & _).
  unfold beyond. destruct (match bw_best w with Some (_, t) => (t <? dh)%N | None => false end) eqn:Eb.
  { split; [done|]. cbn. apply (best_is_base a b m); [done..|]. intros x n da Hn Hda.
    destruct (bw_best w) as [[n' t']|] eqn:Ew; [|done]. apply N.ltb_lt in Eb.
    destruct (Hc x n da Hn Hda) as [|(z & dz & r & Hz & _ & Hle)]; [done|].
    exists n', t'. split; [done|].
    assert (dh ≤ dz)%N by (apply elem_of_cons in Hz as [[= -> ->]|Hz]; [lia|by eapply Hmin]). lia. }
  assert (Ha : ancestor_of view b h) by (apply ancestor_steps; exists (N.to_nat dh); apply Hp; left).
  destruct (read_parents_case b h (bw_source w) HI Ha) as [HI' Hrd].
  destruct (read_parents h (bw_source w)) as [[ps|e] s']; cbn in HI', Hrd; [|split; [done|by right]].
  destruct Hrd as [_ Hed]. split; [by apply (base_visit a b m w h dh q)|]. cbn. rewrite <- Hed.
  by apply (load_pop rank b h dh).
Qed.

(** C14: [find_merge_base] finds the best common ancestor. On a finite history of
    [a] and a ranked history of [b] (commits are acyclic) it returns for some
    amount of fuel and every larger one. The answer is a common ancestor whose
    distance from [a] plus distance from [b] is the least of all common ancestors
    over all paths, or [None] when the histories are disjoint; it fails only with
    a budget or an unreadable commit of either history. *)
Theorem find_merge_base_spec (U : gset hash32) (rank : hash32 → nat) (a b : hash32) (s : S)
    (Hs : I s) (HU : history_in U a) (Hr : ranked rank b) :
  ∃ fuel out, (∀ fuel', fuel ≤ fuel' → find_merge_base fuel' a b s = Some out) ∧
    base_post a b out.
Proof.
  unfold find_merge_base. case_bool_decide as He.
  { exists 0, (Ok (Some a), s). split; [done|]. split; [done|]. subst b. exists 0, 0.
    split_and!; [constructor..|lia]. }
  destruct (depth_spec U a s Hs HU) as (f1 & [[m|e] s'] & Hf1 & HI' & Hm); cbn in HI', Hm.
  2:{ exists f1, (Err e, s'). split; [|by split; [|left]]. intros f Hf. by rewrite Hf1. }
  set (w0 := {| bw_queue := [(b, 0%N)]; bw_best := None; bw_source := s' |}).
  destruct (loop_wf_rule (base_step m) (λ w' w, load rank (bw_queue w') < load rank (bw_queue w))
    (base_inv m b) (base_post a b)) with (s := w0) as (f2 & out & Hf2 & Hout).
  - apply (well_founded_ltof _ (λ w : BaseWalk S, load rank (bw_queue w))).
  - intros w Hw. by apply base_step_inv.
  - split; cbn; [done|exists 0%N; apply layered_init| |by intros ? ?|].
    + intros x d [= -> ->]%list_elem_of_singleton. constructor.
    + intros x n da Hn _. right. exists b, 0%N, n. split_and!; [left|done|done].
  - exists (f1 + f2), out. split; [|done]. intros f Hf. rewrite Hf1 by lia. apply Hf2. lia.
Qed.

(** ** Checking the hypotheses on a concrete store *)

Lemma history_in_ancestor U x y : history_in U x → ancestor_of view x y → y ∈ U.
Proof.
  intros [Hx HU] Hy. revert Hx. induction Hy as [|x z y Hxz _ IH]; [done|].
  intros Hx. apply IH. by apply (HU x).
Qed.

Lemma history_in_check U x :
  bool_decide (x ∈ U ∧ set_Forall (λ y, Forall (.∈ U) (edges y)) U) = true → history_in U x.
Proof.
  intros [Hx HU]%bool_decide_eq_true. split; [done|]. intros y z Hy Hz.
  specialize (HU y Hy). cbn in HU. by eapply list.Forall_forall in HU.
Qed.

Lemma ranked_check U rank x :
  history_in U x →
  bool_decide (set_Forall (λ y, Forall (λ z, rank z < rank y) (edges y)) U) = true →
  ranked rank x.
Proof.
  intros HU Hc%bool_decide_eq_true y z Hy Hz.
  assert (y ∈ U) as HyU by by eapply history_in_ancestor.
  specialize (Hc y HyU). cbn in Hc. by eapply list.Forall_forall in Hc.
Qed.
End facts.

(** ** Witnesses, with the computable stand-in hash *)

Import Toy.

(** Two children of one commit, in the store of the graph examples. *)
Definition ex_fork : hash32 * ObjectStore :=
  put_object (OCommit (ex_commit ex_tree_id [ex_c1] (b# "side"))) ex_objects.
Definition ex_c3 : hash32 := ex_fork.1.
Definition ex_history : gset hash32 := {[ ex_c2; ex_c3; ex_c1; ZERO ]}.
Definition ex_rank (h : hash32) : nat :=
  if bool_decide (h = ZERO) then 0 else if bool_decide (h = ex_c1) then 1 else 2.

Example merge_base_of_fork :
  fst <$> find_merge_base 20 ex_c2 ex_c3 ex_fork.2 = Some (Ok (Some ex_c1)).
Proof. vm_compute. reflexivity. Qed.

Lemma is_ancestor_spec_witness :
  ∃ fuel out, (∀ fuel', fuel ≤ fuel' → is_ancestor fuel' ex_c1 ex_c2 ex_fork.2 = Some out) ∧
    seen_post (eq ex_fork.2) (read ex_fork.2) ex_c1 ex_c2 out.
Proof.
  apply (is_ancestor_spec (eq ex_fork.2) (read ex_fork.2) ex_history).
  - exact eq_refl.
  - apply history_in_check. vm_compute. exact eq_refl.
Defined.

Lemma find_merge_base_spec_witness :
  ∃ fuel out, (∀ fuel', fuel ≤ fuel' → find_merge_base fuel' ex_c2 ex_c3 ex_fork.2 = Some out) ∧
    base_post (eq ex_fork.2) (read ex_fork.2) ex_c2 ex_c3 out.
Proof.
  apply (find_merge_base_spec (eq ex_fork.2) (read ex_fork.2) ex_history ex_rank).
  - exact eq_refl.
  - apply history_in_check. vm_compute. exact eq_refl.
  - apply (ranked_check _ ex_history).
    + apply history_in_check. vm_compute. exact eq_refl.
    + vm_compute. exact eq_refl.
Defined.
