(* ===== verification/Diff.v ===== *)
(** * Line diff, hunks and the three-way blob merge

    Models the text half of [rust/crates/mkit-core/src/ops/diff.rs]: splitting
    into lines, the greedy Myers diff with its V array and backtrack, hunk
    compaction, edit scripts, hunks and their partial application, and the
    line-level three-way merge. Indices are [nat]; the diagonals and offsets of
    the Myers core are signed, as in the source. *)

From S2P Require Import Prelude.

Local Open Scope nat_scope.

(** ** Lines *)

Inductive WhitespaceMode := Exact | IgnoreSpaceChange | IgnoreAllSpace.

(** [u8::is_ascii_whitespace] and vertical tab. *)
Definition is_ascii_whitespace (b : byte) : bool :=
  existsb (N.eqb (b2n b)) [9; 10; 12; 13; 32]%N.
Definition is_ws_byte (b : byte) : bool := is_ascii_whitespace b || (b2n b =? 11)%N.

Definition strip_all_ws (line : bytes) : bytes := List.filter (λ b, negb (is_ws_byte b)) line.

Fixpoint drop_ws (line : bytes) : bytes :=
  match line with
  | b :: l => if is_ws_byte b then drop_ws l else line
  | [] => []
  end.

(** The trailing whitespace of [collapse_ws] is cut first. *)
Definition trim_end_ws (line : bytes) : bytes := reverse (drop_ws (reverse line)).

(** Its loop: a run of whitespace becomes one space. [in_run]: the previous byte
    was whitespace. *)
Fixpoint collapse_runs (in_run : bool) (line : bytes) : bytes :=
  match line with
  | [] => []
  | b :: l =>
      if is_ws_byte b then if in_run then collapse_runs true l else Byte.x20 :: collapse_runs true l
      else b :: collapse_runs false l
  end.

Definition collapse_ws (line : bytes) : bytes := collapse_runs false (trim_end_ws line).

Definition ws_key (text : bytes) (mode : WhitespaceMode) : bytes :=
  match mode with
  | Exact => text
  | IgnoreAllSpace => strip_all_ws text
  | IgnoreSpaceChange => collapse_ws text
  end.

Record DiffLine := { text : bytes; has_newline : bool }.

#[export] Instance DiffLine_eq_dec : EqDecision DiffLine.
Proof. solve_decision. Defined.

Definition NL : byte := Byte.x0a.

(** The bytes before the first newline and those after it. *)
Fixpoint split_at_nl (l : bytes) : option (bytes * bytes) :=
  match l with
  | [] => None
  | b :: l =>
      if bool_decide (b = NL) then Some ([], l)
      else match split_at_nl l with Some (p, q) => Some (b :: p, q) | None => None end
  end.

Fixpoint split_lines_fuel (fuel : nat) (rest : bytes) : list DiffLine :=
  match fuel with
  | O => []
  | S fuel =>
      match rest with
      | [] => []
      | _ => match split_at_nl rest with
             | Some (p, q) => {| text := p; has_newline := true |} :: split_lines_fuel fuel q
             | None => [{| text := rest; has_newline := false |}]
             end
      end
  end.

(** Every round consumes a byte. *)
Definition split_lines (l : bytes) : list DiffLine := split_lines_fuel (S (length l)) l.

Definition BINARY_SNIFF_LEN : nat := N.to_nat 8000.

Definition is_binary (l : bytes) : bool :=
  existsb (λ b, bool_decide (b = Byte.x00)) (take BINARY_SNIFF_LEN l).

Definition lines_equal (mode : WhitespaceMode) (a b : DiffLine) : bool :=
  eqb (has_newline a) (has_newline b) && bytes_eqb (ws_key (text a) mode) (ws_key (text b) mode).

Definition no_line : DiffLine := {| text := []; has_newline := false |}.

(** ** The Myers core *)

Section myers.
Context (mode : WhitespaceMode) (old new : list DiffLine).

Abbreviation n := (Z.of_nat (length old)).
Abbreviation m := (Z.of_nat (length new)).

Definition max_d : nat := length old + length new.

(** [idx], and reads and writes of the V array. *)
Definition idx (k : Z) : nat := Z.to_nat (k + Z.of_nat max_d).
Definition vget (v : list Z) (k : Z) : Z := nth (idx k) v 0%Z.
Definition vset (v : list Z) (k x : Z) : list Z := <[ idx k := x ]> v.

(** [x as usize >= len]: a negative [isize] wraps to a huge [usize]. *)
Definition past (x len : Z) : bool := (x <? 0)%Z || (len <=? x)%Z.

(** The lines at [x] and [y] are both there and equal. *)
Definition eq_at (x y : Z) : bool :=
  negb (past x n) && negb (past y m) &&
  lines_equal mode (nth (Z.to_nat x) old no_line) (nth (Z.to_nat y) new no_line).

(** The greedy extension along a diagonal; [x] is bounded by the old length. *)
Fixpoint snake (fuel : nat) (x y : Z) : Z :=
  match fuel with
  | O => x
  | S fuel => if eq_at x y then snake fuel (x + 1) (y + 1) else x
  end.

(** Whether diagonal [k] of round [d] is entered by an insertion. *)
Definition goes_down (v : list Z) (d k : Z) : bool :=
  (k =? -d)%Z || (negb (k =? d)%Z && (vget v (k - 1) <? vget v (k + 1))%Z).

Definition furthest (v : list Z) (d k : Z) : Z :=
  let x := if goes_down v d k then vget v (k + 1) else (vget v (k - 1) + 1)%Z in
  snake (length old) x (x - k).

(** The loop over the diagonals [k], [k + 2], ... of round [d]: the V array, and
    whether the end was reached. *)
Fixpoint round (fuel : nat) (d k : Z) (v : list Z) : list Z * bool :=
  match fuel with
  | O => (v, false)
  | S fuel =>
      if (k <=? d)%Z then
        let x := furthest v d k in
        let v := vset v k x in
        if past x n && past (x - k) m then (v, true) else round fuel d (k + 2) v
      else (v, false)
  end.

(** The loop over [d]: the trace of V arrays and the round that found the end. *)
Fixpoint search (fuel : nat) (d : nat) (v : list Z) (trace : list (list Z)) : list (list Z) * nat :=
  match fuel with
  | O => (trace, max_d)
  | S fuel =>
      let trace := trace ++ [v] in
      let '(v, found) := round (S (S d)) (Z.of_nat d) (- Z.of_nat d) v in
      if found then (trace, d) else search fuel (S d) v trace
  end.

(** Walk back down the snake. *)
Fixpoint unsnake (fuel : nat) (prev_x prev_y x y : Z) : Z * Z :=
  match fuel with
  | O => (x, y)
  | S fuel =>
      if (prev_x <? x)%Z && (prev_y <? y)%Z then unsnake fuel prev_x prev_y (x - 1) (y - 1)
      else (x, y)
  end.

(** The backtrack for rounds [d], [d - 1], ..., [0], marking edits. *)
Fixpoint backtrack (trace : list (list Z)) (d : nat) (x y : Z) (oc nc : list bool)
    : list bool * list bool :=
  let vd := nth d trace [] in
  let k := (x - y)%Z in
  let down := goes_down vd (Z.of_nat d) k in
  let prev_k := if down then (k + 1)%Z else (k - 1)%Z in
  let prev_x := vget vd prev_k in
  let prev_y := (prev_x - prev_k)%Z in
  let '(x, y) := unsnake (length old) prev_x prev_y x y in
  match d with
  | O => (oc, nc)
  | S d' =>
      if down then backtrack trace d' x (y - 1) oc (<[ Z.to_nat (y - 1) := true ]> nc)
      else backtrack trace d' (x - 1) y (<[ Z.to_nat (x - 1) := true ]> oc) nc
  end.

Definition myers_changed_core : list bool * list bool :=
  let oc := replicate (length old) false in
  let nc := replicate (length new) false in
  if Nat.eqb (length old) 0 then (oc, replicate (length new) true)
  else if Nat.eqb (length new) 0 then (replicate (length old) true, nc)
  else
    let '(trace, found) := search (S max_d) 0 (replicate (2 * max_d + 1) 0%Z) [] in
    backtrack trace found n m oc nc.
End myers.

(** The length of the common leading run. *)
Fixpoint common_prefix (mode : WhitespaceMode) (old new : list DiffLine) : nat :=
  match old, new with
  | a :: old, b :: new => if lines_equal mode a b then S (common_prefix mode old new) else 0
  | _, _ => 0
  end.

Definition myers_changed (old new : list DiffLine) (mode : WhitespaceMode)
    : list bool * list bool :=
  let prefix := common_prefix mode old new in
  let '(oc, nc) := myers_changed_core mode (drop prefix old) (drop prefix new) in
  (replicate prefix false ++ oc, replicate prefix false ++ nc).

(** ** Compaction *)

Section compact.
Context (mode : WhitespaceMode) (lines : list DiffLine).

Fixpoint run_end (fuel e : nat) (changed : list bool) : nat :=
  match fuel with
  | O => e
  | S fuel => if (e <? length lines) && nth e changed false
              then run_end fuel (S e) changed else e
  end.

(** Slide the run [s .. e) down: the flags and where its end comes to lie. *)
Fixpoint slide (fuel s e : nat) (changed : list bool) : list bool * nat :=
  match fuel with
  | O => (changed, e)
  | S fuel =>
      if (e <? length lines) &&
         lines_equal mode (nth s lines no_line) (nth e lines no_line)
      then slide fuel (S s) (S e) (<[ e := true ]> (<[ s := false ]> changed))
      else (changed, e)
  end.

Fixpoint compact_from (fuel i : nat) (changed : list bool) : list bool :=
  match fuel with
  | O => changed
  | S fuel =>
      if i <? length lines then
        if nth i changed false then
          let e := run_end (length lines) i changed in
          let '(changed, i) := slide (length lines) i e changed in
          compact_from fuel i changed
        else compact_from fuel (S i) changed
      else changed
  end.

Definition compact_changes (changed : list bool) : list bool :=
  compact_from (S (length lines)) 0 changed.
End compact.

(** ** Edit scripts *)

Inductive DiffOp :=
  | OpEqual (i j : nat)
  | OpDelete (i : nat)
  | OpInsert (j : nat).

#[export] Instance DiffOp_eq_dec : EqDecision DiffOp.
Proof. solve_decision. Defined.

Section script.
Context (old new : list DiffLine) (old_changed new_changed : list bool).

Record Script := { sc_i : nat; sc_j : nat; sc_ops : list DiffOp }.

(** [while i < n && old_changed[i]]: the deletions, and [i] after them. *)
Fixpoint deletions (fuel i : nat) : list DiffOp * nat :=
  match fuel with
  | O => ([], i)
  | S fuel =>
      if (i <? length old) && nth i old_changed false
      then let '(ops, i') := deletions fuel (S i) in (OpDelete i :: ops, i')
      else ([], i)
  end.

Fixpoint insertions (fuel j : nat) : list DiffOp * nat :=
  match fuel with
  | O => ([], j)
  | S fuel =>
      if (j <? length new) && nth j new_changed false
      then let '(ops, j') := insertions fuel (S j) in (OpInsert j :: ops, j')
      else ([], j)
  end.

Definition script_step (s : Script) : Script + list DiffOp :=
  let i := sc_i s in
  let j := sc_j s in
  if (i <? length old) || (j <? length new) then
    if (i <? length old) && (j <? length new) &&
       negb (nth i old_changed false) && negb (nth j new_changed false)
    then inl {| sc_i := S i; sc_j := S j; sc_ops := sc_ops s ++ [OpEqual i j] |}
    else
      let '(del, i) := deletions (length old) i in
      let '(ins, j) := insertions (length new) j in
      inl {| sc_i := i; sc_j := j; sc_ops := sc_ops s ++ del ++ ins |}
  else inr (sc_ops s).

Definition script_from_flags : option (list DiffOp) :=
  loop (S (length old + length new)) script_step {| sc_i := 0; sc_j := 0; sc_ops := [] |}.
End script.

(** [edit_script]; the loop of [script_from_flags] ends on the flags it is given. *)
Definition edit_script (old new : list DiffLine) (mode : WhitespaceMode) : list DiffOp :=
  let '(oc, nc) := myers_changed old new mode in
  default [] (script_from_flags old new (compact_changes mode old oc) (compact_changes mode new nc)).

(** ** The three-way merge *)

Definition emit_raw_line (l : DiffLine) : bytes :=
  text l ++ (if has_newline l then [NL] else []).

(** The bytes of a sequence of lines. *)
Definition emit_lines (ls : list DiffLine) : bytes := concat (map emit_raw_line ls).

Record MergeRegion := { base_start : nat; base_len : nat; region_new : list DiffLine }.

(** The local variables of [changed_regions]. *)
Record Regions := { rg_done : list MergeRegion; rg_cur : option MergeRegion; rg_idx : nat }.

Definition close_region (r : Regions) : list MergeRegion :=
  rg_done r ++ option_list (rg_cur r).

(** [cur.get_or_insert(MergeRegion { base_start: base_idx, .. })]. *)
Definition cur_region (r : Regions) : MergeRegion :=
  default {| base_start := rg_idx r; base_len := 0; region_new := [] |} (rg_cur r).

Definition region_op (side : list DiffLine) (r : Regions) (op : DiffOp) : Regions :=
  let c := cur_region r in
  match op with
  | OpEqual bi _ =>
      {| rg_done := close_region r; rg_cur := None; rg_idx := S bi |}
  | OpDelete bi =>
      {| rg_done := rg_done r;
         rg_cur := Some {| base_start := base_start c; base_len := S (base_len c);
                           region_new := region_new c |};
         rg_idx := S bi |}
  | OpInsert si =>
      {| rg_done := rg_done r;
         rg_cur := Some {| base_start := base_start c; base_len := base_len c;
                           region_new := region_new c ++ [nth si side no_line] |};
         rg_idx := rg_idx r |}
  end.

Definition regions_of_script (side : list DiffLine) (ops : list DiffOp) : list MergeRegion :=
  close_region (foldl (region_op side) {| rg_done := []; rg_cur := None; rg_idx := 0 |} ops).

Definition changed_regions (base side : list DiffLine) : list MergeRegion :=
  regions_of_script side (edit_script base side Exact).

Definition region_overlap (a b : MergeRegion) : bool :=
  let a_s := base_start a in
  let a_e := base_start a + base_len a in
  let b_s := base_start b in
  let b_e := base_start b + base_len b in
  match Nat.eqb (base_len a) 0, Nat.eqb (base_len b) 0 with
  | true, true => Nat.eqb a_s b_s
  | true, false => (b_s <? a_s) && (a_s <? b_e)
  | false, true => (a_s <? b_s) && (b_s <? a_e)
  | false, false => (a_s <? b_e) && (b_s <? a_e)
  end.

Definition regions_overlap (ours theirs : list MergeRegion) : bool :=
  existsb (λ a, existsb (region_overlap a) theirs) ours.

(** The key order of [sort_by_key(|r| (r.base_start, r.base_len))]. *)
Definition region_leb (a b : MergeRegion) : bool :=
  (base_start a <? base_start b) ||
  (Nat.eqb (base_start a) (base_start b) && (base_len a <=? base_len b)).

(** A stable insertion sort: the first of equal keys stays first. *)
Fixpoint insert_region (r : MergeRegion) (l : list MergeRegion) : list MergeRegion :=
  match l with
  | [] => [r]
  | x :: l' => if region_leb r x then r :: l else x :: insert_region r l'
  end.
Definition sort_regions (l : list MergeRegion) : list MergeRegion := foldr insert_region [] l.

(** [&base[cursor..stop]]; [None]: the slice is out of range and the code panics. *)
Definition slice (base : list DiffLine) (cursor stop : nat) : option (list DiffLine) :=
  if (cursor <=? stop) && (stop <=? length base)
  then Some (take (stop - cursor) (drop cursor base)) else None.

Fixpoint splice (base : list DiffLine) (cursor : nat) (all : list MergeRegion)
    : option (list DiffLine) :=
  match all with
  | [] => slice base cursor (length base)
  | r :: all =>
      untouched ← slice base cursor (base_start r);
      rest ← splice base (base_start r + base_len r) all;
      Some (untouched ++ region_new r ++ rest)
  end.

Definition apply_merge_regions (base : list DiffLine) (ours theirs : list MergeRegion)
    : option bytes :=
  emit_lines <$> splice base 0 (sort_regions (ours ++ theirs)).

(** The splice of regions that do not overlap never leaves the base. *)
Definition merge_blob_3way (base ours theirs : bytes) : option bytes :=
  if bytes_eqb ours theirs then Some ours
  else if is_binary base || is_binary ours || is_binary theirs then None
  else
    let base_lines := split_lines base in
    let ours_regions := changed_regions base_lines (split_lines ours) in
    let theirs_regions := changed_regions base_lines (split_lines theirs) in
    if regions_overlap ours_regions theirs_regions then None
    else Some (default [] (apply_merge_regions base_lines ours_regions theirs_regions)).

Definition diff_line_counts (old_bytes new_bytes : bytes) : option (nat * nat) :=
  if is_binary old_bytes || is_binary new_bytes then None
  else
    let ops := edit_script (split_lines old_bytes) (split_lines new_bytes) Exact in
    Some (length (List.filter (λ op, match op with OpInsert _ => true | _ => false end) ops),
          length (List.filter (λ op, match op with OpDelete _ => true | _ => false end) ops)).

(** ** Hunks *)

Definition PATCH_CONTEXT : nat := 3.

Record Hunk := {
  old_start : nat;
  old_len : nat;
  new_start : nat;
  new_len : nat;
  hunk_ops : list DiffOp
}.

Definition is_change (op : DiffOp) : bool := match op with OpEqual _ _ => false | _ => true end.

Definition change_positions (ops : list DiffOp) : list nat :=
  List.filter (λ i, is_change (nth i ops (OpEqual 0 0))) (seq 0 (length ops)).

(** One change position joins the last range or opens a new one; the list is
    kept in reverse. *)
Definition add_range (context total : nat) (ranges : list (nat * nat)) (pos : nat)
    : list (nat * nat) :=
  let start := pos - context in
  let stop := Nat.min (pos + context + 1) total in
  match ranges with
  | (s, e) :: rest => if start <=? e then (s, Nat.max e stop) :: rest else (start, stop) :: ranges
  | [] => [(start, stop)]
  end.

Definition hunk_ranges (ops : list DiffOp) (context : nat) : list (nat * nat) :=
  reverse (foldl (add_range context (length ops)) [] (change_positions ops)).

Definition old_index (op : DiffOp) : option nat :=
  match op with OpEqual i _ | OpDelete i => Some i | OpInsert _ => None end.
Definition new_index (op : DiffOp) : option nat :=
  match op with OpEqual _ j | OpInsert j => Some j | OpDelete _ => None end.

(** [first.map_or(0, |s| s + 1)]. *)
Definition start_of (indices : list nat) : nat :=
  match indices with i :: _ => S i | [] => 0 end.

Definition build_hunk (slice : list DiffOp) : Hunk :=
  let olds := omap old_index slice in
  let news := omap new_index slice in
  {| old_start := start_of olds; old_len := length olds;
     new_start := start_of news; new_len := length news; hunk_ops := slice |}.

Definition group_hunks (ops : list DiffOp) (context : nat) : list Hunk :=
  map (λ r, build_hunk (take (r.2 - r.1) (drop r.1 ops))) (hunk_ranges ops context).

Inductive HunkLineKind := Context | Added | Removed.

Record HunkLine := { hl_kind : HunkLineKind; hl_line : DiffLine }.

Record PatchHunk := {
  ph_old_start : nat;
  ph_old_len : nat;
  ph_new_start : nat;
  ph_new_len : nat;
  ph_lines : list HunkLine
}.

Definition to_patch_hunk (old new : list DiffLine) (h : Hunk) : PatchHunk :=
  {| ph_old_start := old_start h; ph_old_len := old_len h;
     ph_new_start := new_start h; ph_new_len := new_len h;
     ph_lines := map (λ op, match op with
       | OpEqual i _ => {| hl_kind := Context; hl_line := nth i old no_line |}
       | OpDelete i => {| hl_kind := Removed; hl_line := nth i old no_line |}
       | OpInsert j => {| hl_kind := Added; hl_line := nth j new no_line |}
       end) (hunk_ops h) |}.

Definition enumerate_hunks (old_bytes new_bytes : bytes) : option (list PatchHunk) :=
  if is_binary old_bytes || is_binary new_bytes then None
  else
    let old := split_lines old_bytes in
    let new := split_lines new_bytes in
    Some (map (to_patch_hunk old new) (group_hunks (edit_script old new Exact) PATCH_CONTEXT)).

Definition is_removed (l : HunkLine) : bool :=
  match hl_kind l with Removed => true | _ => false end.

(** [old_start - 1], [None] where the subtraction overflows. *)
Definition region_start_of (h : PatchHunk) : option nat :=
  if Nat.eqb (ph_old_len h) 0 then Some (ph_old_start h)
  else match ph_old_start h with O => None | S i => Some i end.

Fixpoint apply_hunks (old : list DiffLine) (selected : list nat) (i cursor : nat)
    (hunks : list PatchHunk) : option (list DiffLine) :=
  match hunks with
  | [] => slice old cursor (length old)
  | h :: hunks =>
      start ← region_start_of h;
      let region_start := Nat.min start (length old) in
      let region_end := Nat.min (region_start + ph_old_len h) (length old) in
      untouched ← slice old cursor region_start;
      region ← (if existsb (Nat.eqb i) selected
                then Some (map hl_line (List.filter (λ l, negb (is_removed l)) (ph_lines h)))
                else slice old region_start region_end);
      rest ← apply_hunks old selected (S i) region_end hunks;
      Some (untouched ++ region ++ rest)
  end.

(** [None]: the hunks are out of order for the base and the code panics. *)
Definition apply_hunks_subset (base_bytes : bytes) (hunks : list PatchHunk) (selected : list nat)
    : option bytes :=
  emit_lines <$> apply_hunks (split_lines base_bytes) selected 0 0 hunks.

(** ** Rendering *)

(** The decimal digits of a number ([{}]). *)
Fixpoint decimal_fuel (fuel : nat) (n : nat) : bytes :=
  let digit := n2b (48 + N.of_nat (n mod 10)) in
  match fuel with
  | O => [digit]
  | S fuel => if n <? 10 then [digit] else decimal_fuel fuel (n / 10) ++ [digit]
  end.
Definition decimal (n : nat) : bytes := decimal_fuel n n.

Definition hunk_range (start len : nat) : bytes :=
  if Nat.eqb len 1 then decimal start else decimal start ++ b# "," ++ decimal len.

Definition emit_line (prefix : byte) (l : DiffLine) : bytes :=
  prefix :: text l ++ [NL] ++
  (if has_newline l then [] else b# "\ No newline at end of file" ++ [NL]).

Definition render_hunk (old new : list DiffLine) (h : Hunk) : bytes :=
  b# "@@ -" ++ hunk_range (old_start h) (old_len h) ++ b# " +" ++
  hunk_range (new_start h) (new_len h) ++ b# " @@" ++ [NL] ++
  concat (map (λ op, match op with
    | OpEqual i _ => emit_line Byte.x20 (nth i old no_line)
    | OpDelete i => emit_line Byte.x2d (nth i old no_line)
    | OpInsert j => emit_line Byte.x2b (nth j new no_line)
    end) (hunk_ops h)).

Definition unified_hunks_opts (old_bytes new_bytes : bytes) (context : nat) (mode : WhitespaceMode)
    : option bytes :=
  if is_binary old_bytes || is_binary new_bytes then None
  else
    let old := split_lines old_bytes in
    let new := split_lines new_bytes in
    Some (concat (map (render_hunk old new) (group_hunks (edit_script old new mode) context))).

Definition unified_hunks (old_bytes new_bytes : bytes) : option bytes :=
  unified_hunks_opts old_bytes new_bytes PATCH_CONTEXT Exact.

