(* ===== verification/Myers.v ===== *)
(** * Correctness of the Myers core

    The V array of [Diff.search] holds, for every diagonal, the furthest point
    that [d] edits can reach; so the search stops at the edit distance, and the
    backtrack marks the edits of one shortest path. The same fact shows that
    the compaction that follows never has anything to slide. *)

From S2P Require Import Prelude Diff.

Local Open Scope Z_scope.

(** ** Line equality *)

Lemma lines_equal_true mode a b :
  lines_equal mode a b = true ↔
  has_newline a = has_newline b ∧ ws_key (text a) mode = ws_key (text b) mode.
Proof.
  unfold lines_equal. by rewrite andb_true_iff, eqb_true_iff, bytes_eqb_eq.
Qed.

#[export] Instance lines_equal_equiv mode : Equivalence (λ a b, lines_equal mode a b = true).
Proof.
  split.
  - intros a. by apply lines_equal_true.
  - intros a b [? ?]%lines_equal_true. by apply lines_equal_true.
  - intros a b c [? ?]%lines_equal_true [? ?]%lines_equal_true. apply lines_equal_true.
    split; congruence.
Qed.

Lemma lines_equal_trans mode a b c :
  lines_equal mode a b = true → lines_equal mode b c = true → lines_equal mode a c = true.
Proof. apply (transitivity (R := λ a b, lines_equal mode a b = true)). Qed.

Lemma lines_equal_sym mode a b : lines_equal mode a b = true → lines_equal mode b a = true.
Proof. apply (symmetry (R := λ a b, lines_equal mode a b = true)). Qed.

Lemma lines_equal_exact a b : lines_equal Exact a b = true ↔ a = b.
Proof. rewrite lines_equal_true. destruct a, b. cbn. naive_solver. Qed.

Section myers.
Context (mode : WhitespaceMode) (old new : list DiffLine).

Abbreviation n := (Z.of_nat (length old)).
Abbreviation m := (Z.of_nat (length new)).
Abbreviation maxd := (Z.of_nat (max_d old new)).
Abbreviation eq_at := (eq_at mode old new).
Abbreviation snake := (snake mode old new).
Abbreviation vget := (vget old new).
Abbreviation goes_down := (goes_down old new).
Abbreviation furthest := (furthest mode old new).

(** ** Edit paths

    [reach d x y]: [d] edits lead from the origin to [(x, y)], moving freely off
    the grid of the two texts. *)
Inductive reach : nat → Z → Z → Prop :=
  | reach_start : reach 0 0 0
  | reach_diag d x y : reach d x y → eq_at x y = true → reach d (x + 1) (y + 1)
  | reach_del d x y : reach d x y → reach (S d) (x + 1) y
  | reach_ins d x y : reach d x y → reach (S d) x (y + 1).

Lemma eq_at_true x y :
  eq_at x y = true ↔ 0 ≤ x < n ∧ 0 ≤ y < m ∧
    lines_equal mode (nth (Z.to_nat x) old no_line) (nth (Z.to_nat y) new no_line) = true.
Proof.
  unfold Diff.eq_at, past.
  rewrite !andb_true_iff, !negb_true_iff, !orb_false_iff, !Z.ltb_ge, !Z.leb_gt. tauto.
Qed.

Lemma reach_bounds d x y :
  reach d x y → 0 ≤ x ∧ 0 ≤ y ∧ - Z.of_nat d ≤ x - y ≤ Z.of_nat d ∧
    ∃ z, x - y + Z.of_nat d = 2 * z.
Proof.
  induction 1 as [|d x y _ IH _|d x y _ IH|d x y _ IH].
  - split_and!; [lia..|by exists 0].
  - destruct IH as (? & ? & ? & z & ?). split_and!; [lia..|exists z; lia].
  - destruct IH as (? & ? & ? & z & ?). split_and!; [lia..|exists (z + 1); lia].
  - destruct IH as (? & ? & ? & z & ?). split_and!; [lia..|exists z; lia].
Qed.

Lemma reach_dels j : ∀ d x y, reach d x y → reach (d + j) (x + Z.of_nat j) y.
Proof.
  induction j as [|j IH]; intros d x y H.
  - by rewrite Nat.add_0_r, Z.add_0_r.
  - apply reach_del, IH in H. replace (d + S j)%nat with (S d + j)%nat by lia.
    by replace (x + Z.of_nat (S j)) with (x + 1 + Z.of_nat j) by lia.
Qed.

Lemma reach_inss j : ∀ d x y, reach d x y → reach (d + j) x (y + Z.of_nat j).
Proof.
  induction j as [|j IH]; intros d x y H.
  - by rewrite Nat.add_0_r, Z.add_0_r.
  - apply reach_ins, IH in H. replace (d + S j)%nat with (S d + j)%nat by lia.
    by replace (y + Z.of_nat (S j)) with (y + 1 + Z.of_nat j) by lia.
Qed.

(** The cells from [(x, y)] up a diagonal, [j] of them, are all equal. *)
Definition run (x y : Z) (j : nat) : Prop :=
  ∀ i, 0 ≤ i < Z.of_nat j → eq_at (x + i) (y + i) = true.

Lemma run_0 x y : run x y 0.
Proof. intros i Hi. lia. Qed.

Lemma run_S x y j : run x y (S j) ↔ run x y j ∧ eq_at (x + Z.of_nat j) (y + Z.of_nat j) = true.
Proof.
  split.
  - intros H. split; [intros i Hi|]; apply H; lia.
  - intros [H1 H2] i Hi. destruct (decide (i = Z.of_nat j)) as [->|]; [done|apply H1; lia].
Qed.

Lemma run_cons x y j : eq_at x y = true → run (x + 1) (y + 1) j → run x y (S j).
Proof.
  intros H1 H2 i Hi. destruct (decide (i = 0)) as [->|].
  - by rewrite !Z.add_0_r.
  - replace (x + i) with (x + 1 + (i - 1)) by lia. replace (y + i) with (y + 1 + (i - 1)) by lia.
    apply H2. lia.
Qed.

Lemma reach_run d x y j : reach d x y → run x y j → reach d (x + Z.of_nat j) (y + Z.of_nat j).
Proof.
  intros H. induction j as [|j IH]; intros Hr; [by rewrite !Z.add_0_r|].
  apply run_S in Hr as [Hr He].
  replace (x + Z.of_nat (S j)) with (x + Z.of_nat j + 1) by lia.
  replace (y + Z.of_nat (S j)) with (y + Z.of_nat j + 1) by lia.
  by apply reach_diag; [apply IH|].
Qed.

(** The last edit of a path, and the snake after it. *)
Lemma reach_S_inv d x y :
  reach (S d) x y → ∃ j : nat, run (x - Z.of_nat j) (y - Z.of_nat j) j ∧
    (reach d (x - Z.of_nat j - 1) (y - Z.of_nat j) ∨
     reach d (x - Z.of_nat j) (y - Z.of_nat j - 1)).
Proof.
  remember (S d) as d' eqn:E. intros H. revert E.
  induction H as [|d' x y H IH He|d' x y H IH|d' x y H IH]; intros E; [done| |injection E as ->..].
  - destruct (IH E) as (j & Hr & Hj). exists (S j).
    replace (x + 1 - Z.of_nat (S j)) with (x - Z.of_nat j) by lia.
    replace (y + 1 - Z.of_nat (S j)) with (y - Z.of_nat j) by lia.
    split; [|done]. apply run_S. split; [done|].
    by replace (x - Z.of_nat j + Z.of_nat j) with x by lia;
       replace (y - Z.of_nat j + Z.of_nat j) with y by lia.
  - exists 0%nat. split; [apply run_0|left]. by replace (x + 1 - Z.of_nat 0 - 1) with x by lia;
      replace (y - Z.of_nat 0) with y by lia.
  - exists 0%nat. split; [apply run_0|right]. by replace (y + 1 - Z.of_nat 0 - 1) with y by lia;
      replace (x - Z.of_nat 0) with x by lia.
Qed.

Lemma reach_0_inv d x y : reach d x y → d = 0%nat → ∃ j : nat, x = Z.of_nat j ∧ y = x ∧ run 0 0 j.
Proof.
  induction 1 as [|d x y H IH He| |]; intros E; [| |done..].
  - exists 0%nat. split_and!; [done..|apply run_0].
  - destruct (IH E) as (j & -> & -> & Hr). exists (S j). split_and!; [lia..|].
    apply run_S. split; [done|]. by rewrite !Z.add_0_l.
Qed.

(** Trimming a path to the grid saves the edits that it spends outside. *)
Lemma reach_clip d x y :
  reach d x y → ∃ d', (Z.of_nat d' + (x - Z.min x n) + (y - Z.min y m) ≤ Z.of_nat d) ∧
    reach d' (Z.min x n) (Z.min y m).
Proof.
  induction 1 as [|d x y H IH He|d x y H IH|d x y H IH].
  - exists 0%nat. rewrite !Z.min_l by lia. split; [lia|constructor].
  - apply eq_at_true in He as He'. destruct IH as (d' & Hd & H').
    rewrite !Z.min_l in * by lia. exists d'. split; [lia|by apply reach_diag].
  - destruct IH as (d' & Hd & H'). destruct (Z.lt_ge_cases x n).
    + rewrite (Z.min_l x), (Z.min_l (x + 1)) in * by lia. exists (S d'). split; [lia|by apply reach_del].
    + rewrite (Z.min_r x), (Z.min_r (x + 1)) in * by lia. exists d'. split; [lia|done].
  - destruct IH as (d' & Hd & H'). destruct (Z.lt_ge_cases y m).
    + rewrite (Z.min_l y), (Z.min_l (y + 1)) in * by lia. exists (S d'). split; [lia|by apply reach_ins].
    + rewrite (Z.min_r y), (Z.min_r (y + 1)) in * by lia. exists d'. split; [lia|done].
Qed.

(** ** The furthest point of a diagonal *)

Definition top (d : nat) (k x : Z) : Prop :=
  reach d x (x - k) ∧ ∀ x', reach d x' (x' - k) → x' ≤ x.

Lemma snake_spec fuel : ∀ x y, 0 ≤ x → n - x ≤ Z.of_nat fuel →
  ∃ j : nat, snake fuel x y = x + Z.of_nat j ∧ run x y j ∧
    eq_at (x + Z.of_nat j) (y + Z.of_nat j) = false.
Proof.
  induction fuel as [|fuel IH]; intros x y Hx Hf; cbn [Diff.snake].
  - exists 0%nat. rewrite !Z.add_0_r. split_and!; [done|apply run_0|].
    apply not_true_iff_false. rewrite eq_at_true. lia.
  - destruct (Diff.eq_at mode old new x y) eqn:E.
    + destruct (IH (x + 1) (y + 1)) as (j & -> & Hr & He); [lia..|].
      exists (S j). split_and!; [lia|by apply run_cons|].
      by replace (x + Z.of_nat (S j)) with (x + 1 + Z.of_nat j) by lia;
         replace (y + Z.of_nat (S j)) with (y + 1 + Z.of_nat j) by lia.
    + exists 0%nat. rewrite !Z.add_0_r. split_and!; [done|apply run_0|done].
Qed.

(** Extending a start that is no earlier than any last edit gives the furthest
    point of the diagonal. *)
Lemma snake_top d k x0 :
  0 ≤ x0 → reach d x0 (x0 - k) →
  (∀ x', reach d x' (x' - k) → ∃ j : nat, run (x' - Z.of_nat j) (x' - k - Z.of_nat j) j ∧
     x' - Z.of_nat j ≤ x0) →
  top d k (snake (length old) x0 (x0 - k)).
Proof.
  intros Hx Hr Hlast. destruct (snake_spec (length old) x0 (x0 - k)) as (j & -> & Hj & He); [lia..|].
  split.
  - replace (x0 + Z.of_nat j - k) with (x0 - k + Z.of_nat j) by lia. by apply reach_run.
  - intros x' Hx'. destruct (Hlast x' Hx') as (i & Hi & Hle).
    destruct (Z.le_gt_cases x' (x0 + Z.of_nat j)) as [|Hgt]; [done|].
    enough (Diff.eq_at mode old new (x0 + Z.of_nat j) (x0 - k + Z.of_nat j) = true) by congruence.
    specialize (Hi (x0 + Z.of_nat j - (x' - Z.of_nat i)) ltac:(lia)).
    replace (x' - Z.of_nat i + (x0 + Z.of_nat j - (x' - Z.of_nat i))) with (x0 + Z.of_nat j) in Hi by lia.
    by replace (x' - k - Z.of_nat i + (x0 + Z.of_nat j - (x' - Z.of_nat i)))
      with (x0 - k + Z.of_nat j) in Hi by lia.
Qed.

(** [v] holds the furthest points of [d] edits. *)
Definition on_round (d : nat) (k : Z) : Prop :=
  - Z.of_nat d ≤ k ≤ Z.of_nat d ∧ ∃ z, k + Z.of_nat d = 2 * z.

Definition vok (v : list Z) (d : nat) : Prop := ∀ k, on_round d k → top d k (vget v k).

(** What the array holds before round [d]. *)
Definition before (v : list Z) (d : nat) : Prop :=
  match d with O => vget v 1 = 0 | S d => vok v d end.

Lemma reach_on_round d x k : reach d x (x - k) → on_round d k.
Proof.
  intros (_ & _ & Hb & z & Hz)%reach_bounds. split; [lia|]. exists z. lia.
Qed.

(** How [goes_down] decides, in terms of paths. *)
Lemma goes_down_spec v d k :
  vok v d → on_round (S d) k →
  (goes_down v (Z.of_nat (S d)) k = true ∧ on_round d (k + 1) ∧
     ∀ x', reach d x' (x' - (k - 1)) → x' < vget v (k + 1)) ∨
  (goes_down v (Z.of_nat (S d)) k = false ∧ on_round d (k - 1) ∧
     ∀ x', reach d x' (x' - (k + 1)) → x' ≤ vget v (k - 1)).
Proof.
  intros Hv [Hk [z Hz]]. unfold Diff.goes_down.
  destruct (Z.eqb_spec k (- Z.of_nat (S d))) as [->|Hlo]; cbn [orb].
  - left. split_and!; [done|split; [lia|exists 0; lia]|].
    intros x' [Hr _]%reach_on_round. lia.
  - destruct (Z.eqb_spec k (Z.of_nat (S d))) as [->|Hhi]; cbn [negb andb].
    + right. split_and!; [done|split; [lia|exists (Z.of_nat d); lia]|].
      intros x' [Hr _]%reach_on_round. lia.
    + assert (on_round d (k - 1)) as H1 by (split; [lia|exists (z - 1); lia]).
      assert (on_round d (k + 1)) as H2 by (split; [lia|exists z; lia]).
      destruct (Z.ltb_spec (vget v (k - 1)) (vget v (k + 1))).
      * left. split_and!; [done..|]. intros x' Hx'. apply (Hv _ H1) in Hx'. lia.
      * right. split_and!; [done..|]. intros x' Hx'. apply (Hv _ H2) in Hx'. lia.
Qed.

Lemma furthest_0 v : before v 0 → top 0 0 (furthest v 0 0).
Proof.
  cbn. intros Hv. unfold Diff.furthest.
  assert (goes_down v 0 0 = true) as -> by done.
  replace (0 + 1) with 1 by lia. rewrite Hv.
  apply snake_top; [lia|constructor|]. intros x' Hx'.
  destruct (reach_0_inv _ _ _ Hx' eq_refl) as (j & -> & _ & Hr). exists j. split; [|lia].
  by replace (Z.of_nat j - Z.of_nat j) with 0 by lia;
     replace (Z.of_nat j - 0 - Z.of_nat j) with 0 by lia.
Qed.

Lemma furthest_S v d k :
  vok v d → on_round (S d) k → top (S d) k (furthest v (Z.of_nat (S d)) k).
Proof.
  intros Hv Hk. unfold Diff.furthest.
  destruct (goes_down_spec v d k Hv Hk) as [(-> & Hr & Hother)|(-> & Hr & Hother)];
    destruct (Hv _ Hr) as [Hreach Hmax]; pose proof (reach_bounds _ _ _ Hreach) as (? & ? & _ & _).
  - apply snake_top; [lia| |].
    + replace (vget v (k + 1) - k) with (vget v (k + 1) - (k + 1) + 1) by lia. by apply reach_ins.
    + intros x' (j & Hj & Hd)%reach_S_inv. exists j. split; [done|]. destruct Hd as [Hd|Hd].
      * replace (x' - k - Z.of_nat j) with (x' - Z.of_nat j - 1 - (k - 1)) in Hd by lia.
        apply Hother in Hd. lia.
      * replace (x' - k - Z.of_nat j - 1) with (x' - Z.of_nat j - (k + 1)) in Hd by lia.
        by apply Hmax.
  - apply snake_top; [lia| |].
    + replace (vget v (k - 1) + 1 - k) with (vget v (k - 1) - (k - 1)) by lia. by apply reach_del.
    + intros x' (j & Hj & Hd)%reach_S_inv. exists j. split; [done|]. destruct Hd as [Hd|Hd].
      * replace (x' - k - Z.of_nat j) with (x' - Z.of_nat j - 1 - (k - 1)) in Hd by lia.
        apply Hmax in Hd. lia.
      * replace (x' - k - Z.of_nat j - 1) with (x' - Z.of_nat j - (k + 1)) in Hd by lia.
        apply Hother in Hd. lia.
Qed.

Lemma furthest_top v d k :
  before v d → on_round d k → top d k (furthest v (Z.of_nat d) k).
Proof.
  destruct d as [|d]; [|apply furthest_S]. intros Hv [Hk _].
  replace k with 0 by lia. by apply furthest_0.
Qed.

(** ** The search *)

Definition in_range (k : Z) : Prop := - maxd ≤ k ≤ maxd.

Lemma vget_vset v k k' x :
  length v = (2 * max_d old new + 1)%nat → in_range k → in_range k' →
  vget (vset old new v k x) k' = if decide (k = k') then x else vget v k'.
Proof.
  unfold in_range, Diff.vget, vset, idx. intros Hv Hk Hk'. rewrite !nth_lookup.
  case_decide as E.
  - subst. by rewrite list_lookup_insert_eq by lia.
  - rewrite list_lookup_insert_ne; [done|]. lia.
Qed.

Lemma furthest_ext v w d k :
  (k ≠ - d → vget v (k - 1) = vget w (k - 1)) →
  (k ≠ d → vget v (k + 1) = vget w (k + 1)) →
  k ≠ d ∨ k ≠ - d → furthest v d k = furthest w d k.
Proof.
  intros H1 H2 Hne. unfold Diff.furthest, Diff.goes_down.
  destruct (Z.eqb_spec k (- d)) as [E1|E1]; cbn [orb].
  - assert (k ≠ d) by tauto. by rewrite H2.
  - rewrite H1 by done. destruct (Z.eqb_spec k d) as [E2|E2]; cbn [negb andb]; [done|].
    by rewrite H2.
Qed.

(** The end is out of reach of [d] edits. *)
Definition no_end (d : nat) : Prop := ∀ x y, reach d x y → ¬ (n ≤ x ∧ m ≤ y).

Definition at_end (d : nat) : Prop := ∃ k x, top d k x ∧ n ≤ x ∧ m ≤ x - k.

(** The part of round [d] before diagonal [k]. *)
Record round_inv (vb : list Z) (d : nat) (k : Z) (v : list Z) : Prop := {
  ro_len : length v = (2 * max_d old new + 1)%nat;
  ro_keep k' : in_range k' → ¬ (on_round d k' ∧ k' < k) → vget v k' = vget vb k';
  ro_done k' : on_round d k' → k' < k →
    top d k' (vget v k') ∧ ¬ (n ≤ vget v k' ∧ m ≤ vget v k' - k')
}.

Lemma furthest_0_ext v w : vget v 1 = vget w 1 → furthest v 0 0 = furthest w 0 0.
Proof.
  intros H. unfold Diff.furthest. assert (∀ u, goes_down u 0 0 = true) as Hg by done.
  rewrite !Hg. replace (0 + 1) with 1 by lia. by rewrite H.
Qed.

Lemma round_furthest vb d k v :
  (0 < max_d old new)%nat → (d ≤ max_d old new)%nat → round_inv vb d k v → on_round d k →
  furthest v (Z.of_nat d) k = furthest vb (Z.of_nat d) k.
Proof.
  intros Hpos Hd [_ Hkeep _] [Hk [z Hz]]. destruct d as [|d].
  - replace k with 0 by lia. apply furthest_0_ext, Hkeep; [unfold in_range; lia|].
    intros [[? ?] ?]. lia.
  - apply furthest_ext; [| |lia]; intros Hne; apply Hkeep; unfold in_range; try lia;
      intros [[_ [z' Hz']] _]; lia.
Qed.

Lemma round_spec vb d : (0 < max_d old new)%nat → (d ≤ max_d old new)%nat → before vb d →
  ∀ fuel k v, round_inv vb d k v → Z.of_nat d - k < 2 * Z.of_nat fuel →
  - Z.of_nat d ≤ k → (∃ z, k + Z.of_nat d = 2 * z) →
  let '(v', found) := round mode old new fuel (Z.of_nat d) k v in
  if found : bool then at_end d
  else length v' = (2 * max_d old new + 1)%nat ∧ vok v' d ∧ no_end d.
Proof.
  intros Hpos Hd Hb. induction fuel as [|fuel IH]; intros k v Hi Hf Hk [z Hz]; cbn [round].
  all: assert (Hend : Z.of_nat d < k → length v = (2 * max_d old new + 1)%nat ∧ vok v d ∧ no_end d).
  1, 3: intros Hlt; destruct Hi as [Hlen _ Hdone]; split_and!; [done| |].
  1, 3: by intros k' Hk'; apply Hdone; [|destruct Hk'; lia].
  1, 2: intros x y Hr [Hx Hy]; pose proof (reach_bounds _ _ _ Hr) as (_ & _ & Hxy & z' & Hz');
    destruct (Hdone (x - y)) as [[_ Htop] Hno]; [split; [lia|by exists z']|lia|];
    apply Hno; specialize (Htop x); replace (x - (x - y)) with y in Htop by lia;
    specialize (Htop Hr); lia.
  { apply Hend. lia. }
  destruct (Z.leb_spec k (Z.of_nat d)) as [Hle|Hgt]; [|by apply Hend].
  assert (Hon : on_round d k) by (split; [lia|by exists z]).
  rewrite (round_furthest vb d k v Hpos Hd Hi Hon).
  pose proof (furthest_top vb d k Hb Hon) as Htop.
  set (x := furthest vb (Z.of_nat d) k) in *.
  destruct (reach_bounds _ _ _ (proj1 Htop)) as (Hx0 & Hy0 & _).
  assert (past x n && past (x - k) m = (n <=? x) && (m <=? x - k)) as ->.
  { unfold past. by rewrite !(proj2 (Z.ltb_ge _ 0)) by lia. }
  destruct ((n <=? x) && (m <=? x - k)) eqn:E.
  { apply andb_true_iff in E as [?%Z.leb_le ?%Z.leb_le]. by exists k, x. }
  apply IH; [|lia|lia|exists (z + 1); lia]. destruct Hi as [Hlen Hkeep Hdone].
  assert (Hkr : in_range k) by (unfold in_range; lia). split.
  - unfold vset. by rewrite length_insert.
  - intros k' Hk' Hno. rewrite vget_vset by done. case_decide as Ek.
    + subst k'. destruct Hno. split; [done|lia].
    + apply Hkeep; [done|]. intros [? ?]. apply Hno. split; [done|lia].
  - intros k' Hk' Hlt. assert (in_range k') by (destruct Hk'; unfold in_range; lia).
    rewrite vget_vset by done. case_decide as Ek.
    + subst k'. split; [done|]. intros [?%Z.leb_le ?%Z.leb_le].
      apply andb_false_iff in E as [E|E]; congruence.
    + apply Hdone; [done|]. destruct Hk' as [_ [z' Hz']]. lia.
Qed.

(** The trace up to round [d]. *)
Definition trace_ok (trace : list (list Z)) (d : nat) : Prop :=
  length trace = d ∧ ∀ i, (i < d)%nat → before (nth i trace []) i.

Lemma trace_snoc trace d v : trace_ok trace d → before v d → trace_ok (trace ++ [v]) (S d).
Proof.
  intros [Hl Ht] Hv. split; [rewrite length_app, Hl; cbn; lia|]. intros i Hi.
  destruct (decide (i = d)) as [->|Hne].
  - rewrite app_nth2, Hl, Nat.sub_diag by lia. done.
  - rewrite app_nth1 by lia. apply Ht. lia.
Qed.

Lemma end_reached : reach (max_d old new) n m.
Proof.
  unfold max_d. replace n with (0 + n) by lia. replace m with (0 + m) by lia.
  apply (reach_inss (length new) (length old)), (reach_dels (length old) 0). constructor.
Qed.

Lemma search_spec : (0 < max_d old new)%nat → ∀ fuel d v trace,
  (fuel + d = S (max_d old new))%nat → length v = (2 * max_d old new + 1)%nat →
  before v d → trace_ok trace d → (∀ i, (i < d)%nat → no_end i) →
  let '(trace', found) := search mode old new fuel d v trace in
  trace_ok trace' (S found) ∧ (∀ i, (i < found)%nat → no_end i) ∧ at_end found.
Proof.
  intros Hpos. induction fuel as [|fuel IH]; intros d v trace Hf Hlen Hb Ht Hno; cbn [search].
  { exfalso. apply (Hno (max_d old new) ltac:(lia) _ _ end_reached). lia. }
  pose proof (round_spec v d Hpos ltac:(lia) Hb (S (S d)) (- Z.of_nat d) v) as Hr.
  destruct (round _ _ _ _ _ _ _) as [v' found].
  assert (Hi : round_inv v d (- Z.of_nat d) v).
  { split; [done|done|]. intros k' [? _] ?. lia. }
  specialize (Hr Hi ltac:(lia) ltac:(lia) ltac:(exists 0; lia)). destruct found.
  - split_and!; [by apply trace_snoc|done|done].
  - destruct Hr as (Hlen' & Hv' & Hn'). apply IH; [lia|done|done|by apply trace_snoc|].
    intros i Hi'. destruct (decide (i = d)) as [->|]; [done|apply Hno; lia].
Qed.

(** The round that finds the end finds it exactly, and no earlier one could. *)
Lemma found_exact d : at_end d → (∀ i, (i < d)%nat → no_end i) → top d (n - m) n.
Proof.
  intros (k & x & [Hr _] & Hx & Hy) Hno.
  assert (Hexact : ∀ x y, reach d x y → n ≤ x → m ≤ y → x = n ∧ y = m).
  { intros x' y' Hr' Hx' Hy'. destruct (reach_clip _ _ _ Hr') as (d' & Hd' & Hc).
    rewrite !Z.min_r in * by lia. destruct (decide (d' < d)%nat) as [Hlt|]; [|lia].
    exfalso. apply (Hno d' Hlt _ _ Hc). lia. }
  destruct (Hexact _ _ Hr Hx Hy) as [-> Hk]. split.
  - by replace (n - (n - m)) with (n - k) by lia.
  - intros x' Hx'. destruct (Z.le_gt_cases x' n) as [|Hgt]; [done|].
    destruct (Hexact _ _ Hx') as [? _]; lia.
Qed.

(** ** The backtrack

    [cpath d x y oc nc]: the path that the backtrack takes up to [(x, y)] has [d]
    edits and marks [oc] and [nc]. Every edit starts from the furthest point of
    its diagonal, and is preferred over the other way into the new diagonal:
    strictly for an insertion, weakly for a deletion. *)
Inductive cpath : nat → Z → Z → list bool → list bool → Prop :=
  | cpath_start : cpath 0 0 0 [] []
  | cpath_diag d x y oc nc :
      cpath d x y oc nc → eq_at x y = true →
      cpath d (x + 1) (y + 1) (oc ++ [false]) (nc ++ [false])
  | cpath_del d x y oc nc :
      cpath d x y oc nc → top d (x - y) x →
      (∀ x', reach d x' (x' - (x - y + 2)) → x' ≤ x) →
      cpath (S d) (x + 1) y (oc ++ [true]) nc
  | cpath_ins d x y oc nc :
      cpath d x y oc nc → top d (x - y) x →
      (∀ x', reach d x' (x' - (x - y - 2)) → x' < x) →
      cpath (S d) x (y + 1) oc (nc ++ [true]).

Lemma cpath_run d x y oc nc j :
  cpath d x y oc nc → run x y j →
  cpath d (x + Z.of_nat j) (y + Z.of_nat j) (oc ++ replicate j false) (nc ++ replicate j false).
Proof.
  intros H. induction j as [|j IH]; intros Hr; [by rewrite !Z.add_0_r, !app_nil_r|].
  apply run_S in Hr as [Hr He]. rewrite replicate_S_end, !app_assoc.
  replace (x + Z.of_nat (S j)) with (x + Z.of_nat j + 1) by lia.
  replace (y + Z.of_nat (S j)) with (y + Z.of_nat j + 1) by lia.
  apply cpath_diag; auto.
Qed.

Lemma cpath_reach d x y oc nc :
  cpath d x y oc nc → reach d x y ∧ length oc = Z.to_nat x ∧ length nc = Z.to_nat y.
Proof.
  induction 1 as [|d x y oc nc _ (Hr & Ho & Hn) He|d x y oc nc _ (Hr & Ho & Hn)|d x y oc nc _ (Hr & Ho & Hn)];
    [by repeat constructor|..]; pose proof (reach_bounds _ _ _ Hr) as (? & ? & _ & _);
    rewrite ?length_app; cbn [length]; (split; [by constructor|lia]).
Qed.

(** [unsnake] walks back to where one of the coordinates meets the previous point. *)
Lemma unsnake_spec px py fuel : ∀ x y, px ≤ x → py ≤ y → x - px ≤ Z.of_nat fuel →
  let j := Z.min (x - px) (y - py) in
  unsnake fuel px py x y = (x - j, y - j).
Proof.
  induction fuel as [|fuel IH]; intros x y Hx Hy Hf; cbn [unsnake]; cbn zeta.
  - replace (Z.min (x - px) (y - py)) with 0 by lia. f_equal; lia.
  - destruct (Z.ltb_spec px x); cbn [andb].
    + destruct (Z.ltb_spec py y).
      * rewrite IH by lia. cbn zeta. f_equal; lia.
      * replace (Z.min (x - px) (y - py)) with 0 by lia. f_equal; lia.
    + replace (Z.min (x - px) (y - py)) with 0 by lia. f_equal; lia.
Qed.

(** Marking the last position below [x]. *)
Lemma mark_last (x : Z) (j : nat) (so : list bool) : 0 ≤ x →
  <[ Z.to_nat x := true ]> (replicate (Z.to_nat (x + 1 + Z.of_nat j)) false ++ so) =
  replicate (Z.to_nat x) false ++ ([true] ++ replicate j false ++ so).
Proof.
  intros Hx. replace (Z.to_nat (x + 1 + Z.of_nat j)) with (Z.to_nat x + (1 + j))%nat by lia.
  rewrite replicate_add, <- app_assoc.
  rewrite insert_app_r_alt by (rewrite length_replicate; lia).
  by rewrite length_replicate, Nat.sub_diag.
Qed.

Lemma replicate_run (x : Z) (j : nat) (so : list bool) : 0 ≤ x →
  replicate (Z.to_nat (x + Z.of_nat j)) false ++ so =
  replicate (Z.to_nat x) false ++ (replicate j false ++ so).
Proof.
  intros Hx. replace (Z.to_nat (x + Z.of_nat j)) with (Z.to_nat x + j)%nat by lia.
  by rewrite replicate_add, app_assoc.
Qed.

(** A furthest point is the end of a snake from its last edit. *)
Lemma furthest_run v d k :
  let x0 := if goes_down v d k then vget v (k + 1) else vget v (k - 1) + 1 in
  0 ≤ x0 → ∃ j : nat, furthest v d k = x0 + Z.of_nat j ∧ run x0 (x0 - k) j.
Proof.
  intros x0 H. unfold Diff.furthest. fold x0.
  destruct (snake_spec (length old) x0 (x0 - k) H) as (j & E & Hr & _); [lia|].
  by exists j.
Qed.

Lemma top_unique d k x x' : top d k x → top d k x' → x = x'.
Proof. intros [H1 H2] [H3 H4]. apply H2 in H3. apply H4 in H1. lia. Qed.

Lemma backtrack_spec trace found : trace_ok trace (S found) → ∀ d x y so sn,
  (d ≤ found)%nat → x ≤ n → top d (x - y) x →
  ∃ oc nc, cpath d x y oc nc ∧
    backtrack old new trace d x y (replicate (Z.to_nat x) false ++ so)
      (replicate (Z.to_nat y) false ++ sn) = (oc ++ so, nc ++ sn).
Proof.
  intros [_ Htr]. induction d as [|d IH]; intros x y so sn Hd Hx Htop.
  - pose proof Htop as [Hr _]. replace (x - (x - y)) with y in Hr by lia.
    destruct (reach_0_inv _ _ _ Hr eq_refl) as (j & -> & -> & Hrun).
    pose proof (Htr 0%nat ltac:(lia)) as Hv. cbn in Hv. cbn [backtrack].
    replace (Z.of_nat j - Z.of_nat j) with 0 by lia.
    assert (∀ v, goes_down v (Z.of_nat 0) 0 = true) as -> by done.
    change (0 + 1) with 1. rewrite Hv, unsnake_spec by lia. cbn [fst snd].
    exists (replicate j false), (replicate j false). rewrite Nat2Z.id. split; [|done].
    apply (cpath_run 0 0 0 [] []); [constructor|done].
  - pose proof Htop as [Hr _]. pose proof (reach_on_round _ _ _ Hr) as Hon.
    pose proof (Htr (S d) ltac:(lia)) as Hv. cbn [before] in Hv.
    set (v := nth (S d) trace []) in *. set (k := x - y) in *.
    pose proof (top_unique _ _ _ _ Htop (furthest_S v d k Hv Hon)) as Ex.
    pose proof (furthest_run v (Z.of_nat (S d)) k) as Hrun. cbn zeta in Hrun.
    cbn [backtrack]. fold v. fold k.
    destruct (goes_down_spec v d k Hv Hon) as [(Hg & Hpr & Hother)|(Hg & Hpr & Hother)];
      rewrite Hg in *; destruct (Hv _ Hpr) as [Hpreach Hpmax];
      pose proof (reach_bounds _ _ _ Hpreach) as (? & ? & _ & _);
      (destruct Hrun as (j & Ej & Hj); [lia|]).
    + set (px := vget v (k + 1)) in *. rewrite unsnake_spec by lia.
      replace (Z.min (x - px) (y - (px - (k + 1)))) with (Z.of_nat j) by lia.
      replace (x - Z.of_nat j) with px by lia.
      replace (y - Z.of_nat j - 1) with (px - (k + 1)) by lia.
      assert (Exj : px + Z.of_nat j = x) by lia.
      assert (Eyj : px - (k + 1) + 1 + Z.of_nat j = y) by lia.
      rewrite <- Exj, <- Eyj, mark_last, replicate_run by lia. rewrite Exj, Eyj.
      destruct (IH px (px - (k + 1)) (replicate j false ++ so) ([true] ++ replicate j false ++ sn))
        as (oc & nc & Hc & ->); [lia|lia| |].
      { by replace (px - (px - (k + 1))) with (k + 1) by lia. }
      exists (oc ++ replicate j false), ((nc ++ [true]) ++ replicate j false).
      split; [|by rewrite <- !app_assoc].
      replace x with (px + Z.of_nat j) by lia. replace y with (px - k + Z.of_nat j) by lia.
      apply cpath_run; [|done]. replace (px - k) with (px - (k + 1) + 1) by lia.
      apply cpath_ins; [done|..].
      * by replace (px - (px - (k + 1))) with (k + 1) by lia.
      * intros x' Hx'. apply Hother. by replace (px - (px - (k + 1)) - 2) with (k - 1) in Hx' by lia.
    + set (px := vget v (k - 1)) in *. rewrite unsnake_spec by lia.
      replace (Z.min (x - px) (y - (px - (k - 1)))) with (Z.of_nat j) by lia.
      replace (x - Z.of_nat j - 1) with px by lia.
      replace (y - Z.of_nat j) with (px - (k - 1)) by lia.
      assert (Exj : px + 1 + Z.of_nat j = x) by lia.
      assert (Eyj : px - (k - 1) + Z.of_nat j = y) by lia.
      rewrite <- Exj, <- Eyj, mark_last, replicate_run by lia. rewrite Exj, Eyj.
      destruct (IH px (px - (k - 1)) ([true] ++ replicate j false ++ so) (replicate j false ++ sn))
        as (oc & nc & Hc & ->); [lia|lia| |].
      { by replace (px - (px - (k - 1))) with (k - 1) by lia. }
      exists ((oc ++ [true]) ++ replicate j false), (nc ++ replicate j false).
      split; [|by rewrite <- !app_assoc].
      replace x with (px + 1 + Z.of_nat j) by lia. replace y with (px - (k - 1) + Z.of_nat j) by lia.
      apply cpath_run; [|by replace (px - (k - 1)) with (px + 1 - k) by lia].
      apply cpath_del; [done|..].
      * by replace (px - (px - (k - 1))) with (k - 1) by lia.
      * intros x' Hx'. apply Hother. by replace (px - (px - (k - 1)) + 2) with (k + 1) in Hx' by lia.
Qed.

(** ** Runs of edits never slide *)

(** Where a run of marked lines starts. *)
Definition run_start (o : list bool) : Prop := o = [] ∨ ∃ o', o = o' ++ [false].

Lemma run_start_snoc_true o t oc : run_start o → oc ++ [true] = o ++ replicate t true →
  ∃ t', t = S t' ∧ oc = o ++ replicate t' true.
Proof.
  intros Ho E. destruct t as [|t].
  - rewrite app_nil_r in E. destruct Ho as [->|[o' ->]]; [by destruct oc|].
    by apply app_inj_tail in E as [_ ?].
  - exists t. split; [done|]. rewrite replicate_S_end, app_assoc in E.
    by apply app_inj_tail in E as [? _].
Qed.

Lemma run_start_snoc_false o t oc : oc ++ [false] = o ++ replicate t true → t = 0%nat.
Proof.
  destruct t as [|t]; [done|]. rewrite replicate_S_end, app_assoc. intros E.
  by apply app_inj_tail in E as [_ ?].
Qed.

(** Before a run of deletions the path was at its first line, and has only
    inserted since. *)
Lemma old_run d x y oc nc : cpath d x y oc nc → ∀ o t,
  oc = o ++ replicate t true → run_start o →
  ∃ da ya (i : nat), reach da (Z.of_nat (length o)) ya ∧ y = ya + Z.of_nat i ∧ (d = da + t + i)%nat.
Proof.
  induction 1 as [|d x y oc nc Hc IH He|d x y oc nc Hc IH _ _|d x y oc nc Hc IH _ _]; intros o t E Ho.
  - symmetry in E. apply app_nil in E as [-> E]. destruct t; [|done].
    exists 0%nat, 0, 0%nat. split_and!; [constructor|done..].
  - pose proof (run_start_snoc_false _ _ _ E) as ->. rewrite app_nil_r in E. subst o.
    destruct (cpath_reach _ _ _ _ _ Hc) as (Hr & Hl & _). pose proof (reach_bounds _ _ _ Hr).
    exists d, (y + 1), 0%nat. rewrite length_app, Hl. cbn [length].
    replace (Z.of_nat (Z.to_nat x + 1)) with (x + 1) by lia.
    split_and!; [by apply reach_diag|lia|lia].
  - apply run_start_snoc_true in E as (t' & -> & ->); [|done].
    destruct (IH o t' eq_refl Ho) as (da & ya & i & Hr & -> & ->). exists da, ya, i.
    split_and!; [done..|lia].
  - destruct (IH o t E Ho) as (da & ya & i & Hr & -> & ->). exists da, ya, (S i).
    split_and!; [done|lia..].
Qed.

Lemma new_run d x y oc nc : cpath d x y oc nc → ∀ o t,
  nc = o ++ replicate t true → run_start o →
  ∃ da xa (i : nat), reach da xa (Z.of_nat (length o)) ∧ x = xa + Z.of_nat i ∧ (d = da + t + i)%nat.
Proof.
  induction 1 as [|d x y oc nc Hc IH He|d x y oc nc Hc IH _ _|d x y oc nc Hc IH _ _]; intros o t E Ho.
  - symmetry in E. apply app_nil in E as [-> E]. destruct t; [|done].
    exists 0%nat, 0, 0%nat. split_and!; [constructor|done..].
  - pose proof (run_start_snoc_false _ _ _ E) as ->. rewrite app_nil_r in E. subst o.
    destruct (cpath_reach _ _ _ _ _ Hc) as (Hr & _ & Hl). pose proof (reach_bounds _ _ _ Hr).
    exists d, (x + 1), 0%nat. rewrite length_app, Hl. cbn [length].
    replace (Z.of_nat (Z.to_nat y + 1)) with (y + 1) by lia.
    split_and!; [by apply reach_diag|lia|lia].
  - destruct (IH o t E Ho) as (da & xa & i & Hr & -> & ->). exists da, xa, (S i).
    split_and!; [done|lia..].
  - apply run_start_snoc_true in E as (t' & -> & ->); [|done].
    destruct (IH o t' eq_refl Ho) as (da & xa & i & Hr & -> & ->). exists da, xa, i.
    split_and!; [done..|lia].
Qed.

(** A path that ends in an edit, by the flag that it ends with. *)
Lemma cpath_last_old d x y oc nc : cpath d x y (oc ++ [true]) nc → ∃ d', d = S d' ∧
  ((∀ x', reach d' x' (x' - (x - 1 - y)) → x' ≤ x - 1) ∨
   (∀ x', reach d' x' (x' - (x - (y - 1) - 2)) → x' < x)).
Proof.
  remember (oc ++ [true]) as oc1 eqn:E. intros H. revert E.
  destruct H as [|d x y oc' nc _ _|d x y oc' nc _ [_ Hmax] _|d x y oc' nc _ _ Hpref]; intros E.
  - by destruct oc.
  - by apply app_inj_tail in E as [_ ?].
  - exists d. split; [done|left]. intros x'. replace (x + 1 - 1 - y) with (x - y) by lia.
    intros ?%Hmax. lia.
  - exists d. split; [done|right]. intros x'. replace (x - (y + 1 - 1) - 2) with (x - y - 2) by lia.
    apply Hpref.
Qed.

Lemma cpath_last_new d x y oc nc : cpath d x y oc (nc ++ [true]) → ∃ d', d = S d' ∧
  ((∀ x', reach d' x' (x' - (x - (y - 1))) → x' ≤ x) ∨
   (∀ x', reach d' x' (x' - (x - 1 - y + 2)) → x' ≤ x - 1)).
Proof.
  remember (nc ++ [true]) as nc1 eqn:E. intros H. revert E.
  destruct H as [|d x y oc nc' _ _|d x y oc nc' _ _ Hpref|d x y oc nc' _ [_ Hmax] _]; intros E.
  - by destruct nc.
  - by apply app_inj_tail in E as [_ ?].
  - exists d. split; [done|right]. intros x'. replace (x + 1 - 1 - y + 2) with (x - y + 2) by lia.
    intros ?%Hpref. lia.
  - exists d. split; [done|left]. intros x'. replace (x - (y + 1 - 1)) with (x - y) by lia.
    apply Hmax.
Qed.

(** The line after a run of deletions differs from its first: otherwise keeping
    the first line would have gone further, or been preferred. *)
Lemma old_no_slide d x y oc nc o t :
  cpath d x y oc nc → oc = o ++ replicate (S t) true → run_start o → eq_at x y = true →
  lines_equal mode (nth (length o) old no_line) (nth (Z.to_nat x) old no_line) = false.
Proof.
  intros Hc E Ho He. apply not_true_iff_false. intros Hs.
  destruct (old_run _ _ _ _ _ Hc o (S t) E Ho) as (da & ya & i & Hr & Ey & Ed).
  destruct (cpath_reach _ _ _ _ _ Hc) as (Hxy & Hlo & _).
  pose proof (reach_bounds _ _ _ Hxy) as (Hx0 & Hy0 & _ & _).
  rewrite E, length_app, length_replicate in Hlo.
  apply eq_at_true in He as (Hxn & Hym & Hl).
  assert (Halt : reach (da + i + t) x (y + 1)).
  { replace x with (Z.of_nat (length o) + 1 + Z.of_nat t) by lia.
    apply reach_dels, reach_diag; [rewrite Ey; by apply reach_inss|].
    apply eq_at_true. rewrite Nat2Z.id. split_and!; [lia..|]. by eapply lines_equal_trans. }
  rewrite replicate_S_end, app_assoc in E. subst oc.
  destruct (cpath_last_old _ _ _ _ _ Hc) as (d' & Ed' & [Hmax|Hmax]);
    (assert (d' = da + i + t)%nat as -> by lia); specialize (Hmax x).
  - replace (x - (x - 1 - y)) with (y + 1) in Hmax by lia. apply Hmax in Halt. lia.
  - replace (x - (x - (y - 1) - 2)) with (y + 1) in Hmax by lia. apply Hmax in Halt. lia.
Qed.

Lemma new_no_slide d x y oc nc o t :
  cpath d x y oc nc → nc = o ++ replicate (S t) true → run_start o → eq_at x y = true →
  lines_equal mode (nth (length o) new no_line) (nth (Z.to_nat y) new no_line) = false.
Proof.
  intros Hc E Ho He. apply not_true_iff_false. intros Hs.
  destruct (new_run _ _ _ _ _ Hc o (S t) E Ho) as (da & xa & i & Hr & Ex & Ed).
  destruct (cpath_reach _ _ _ _ _ Hc) as (Hxy & _ & Hln).
  pose proof (reach_bounds _ _ _ Hxy) as (Hx0 & Hy0 & _ & _).
  rewrite E, length_app, length_replicate in Hln.
  apply eq_at_true in He as (Hxn & Hym & Hl).
  assert (Halt : reach (da + i + t) (x + 1) y).
  { replace y with (Z.of_nat (length o) + 1 + Z.of_nat t) by lia.
    apply reach_inss, reach_diag; [rewrite Ex; by apply reach_dels|].
    apply eq_at_true. rewrite Nat2Z.id. split_and!; [lia..|].
    eapply lines_equal_trans; [done|]. by apply lines_equal_sym. }
  rewrite replicate_S_end, app_assoc in E. subst nc.
  destruct (cpath_last_new _ _ _ _ _ Hc) as (d' & Ed' & [Hmax|Hmax]);
    (assert (d' = da + i + t)%nat as -> by lia); specialize (Hmax (x + 1)).
  - replace (x + 1 - (x - (y - 1))) with y in Hmax by lia. apply Hmax in Halt. lia.
  - replace (x + 1 - (x - 1 - y + 2)) with y in Hmax by lia. apply Hmax in Halt. lia.
Qed.
End myers.
