(* ===== verification/EditScript.v ===== *)
(** * Correctness of edit scripts

    From the flags of the Myers core to the script: the unmarked lines of the
    two sides are pairwise equal, the compaction changes nothing, the loop that
    builds the script ends, and the script is valid and shortest. *)

From S2P Require Import Prelude Diff Myers.

Local Open Scope nat_scope.

(** ** Flags *)

(** The lines that the flags leave unmarked. *)
Fixpoint kept (lines : list DiffLine) (flags : list bool) : list DiffLine :=
  match lines, flags with
  | l :: lines, f :: flags => if f : bool then kept lines flags else l :: kept lines flags
  | _, _ => []
  end.

Definition marked (flags : list bool) : nat := length (List.filter (λ b, b) flags).

Lemma kept_app l1 l2 f1 f2 :
  length l1 = length f1 → kept (l1 ++ l2) (f1 ++ f2) = kept l1 f1 ++ kept l2 f2.
Proof.
  revert f1. induction l1 as [|l l1 IH]; intros [|f f1] H; try done. injection H as H.
  cbn [app kept]. rewrite (IH f1 H). by destruct f.
Qed.

Lemma kept_unmarked l : kept l (replicate (length l) false) = l.
Proof. induction l as [|x l IH]; cbn; [done|]. by rewrite IH. Qed.

Lemma kept_marked l : kept l (replicate (length l) true) = [].
Proof. by induction l. Qed.

Lemma marked_app f g : marked (f ++ g) = marked f + marked g.
Proof. unfold marked. rewrite filter_app, length_app. done. Qed.

Lemma marked_replicate n b : marked (replicate n b) = if b then n else 0.
Proof. induction n as [|n IH]; [by destruct b|]. unfold marked in *. destruct b; cbn; lia. Qed.

Definition line_eq (mode : WhitespaceMode) (a b : DiffLine) : Prop := lines_equal mode a b = true.

(** No run of marked lines is followed by a line equal to its first. *)
Definition no_slide (mode : WhitespaceMode) (lines : list DiffLine) (flags : list bool) : Prop :=
  ∀ o t r, flags = o ++ replicate (S t) true ++ false :: r → run_start o →
    lines_equal mode (nth (length o) lines no_line) (nth (length o + S t) lines no_line) = false.

(** What the script builder needs of a pair of flags, and what makes them shortest. *)
Record good_flags (mode : WhitespaceMode) (old new : list DiffLine) (oc nc : list bool) : Prop := {
  gf_old : length oc = length old;
  gf_new : length nc = length new;
  gf_match : Forall2 (line_eq mode) (kept old oc) (kept new nc);
  gf_old_slide : no_slide mode old oc;
  gf_new_slide : no_slide mode new nc;
  gf_least d : reach mode old new d (Z.of_nat (length old)) (Z.of_nat (length new)) →
    marked oc + marked nc ≤ d
}.

Lemma no_slide_snoc_true mode lines f : no_slide mode lines f → no_slide mode lines (f ++ [true]).
Proof.
  intros H o t r E Ho. destruct r as [|b r _] using rev_ind.
  - rewrite app_assoc in E. by apply app_inj_tail in E as [_ ?].
  - apply (H o t r); [|done]. rewrite app_comm_cons, !app_assoc in E.
    apply app_inj_tail in E as [-> _]. by rewrite <- app_assoc.
Qed.

Lemma no_slide_snoc_false mode lines f :
  no_slide mode lines f →
  (∀ o t, f = o ++ replicate (S t) true → run_start o →
    lines_equal mode (nth (length o) lines no_line) (nth (length f) lines no_line) = false) →
  no_slide mode lines (f ++ [false]).
Proof.
  intros H Hf o t r E Ho. destruct r as [|b r _] using rev_ind.
  - rewrite app_assoc in E. apply app_inj_tail in E as [E _].
    specialize (Hf o t E Ho). by rewrite E, length_app, length_replicate in Hf.
  - apply (H o t r); [|done]. rewrite app_comm_cons, !app_assoc in E.
    apply app_inj_tail in E as [-> _]. by rewrite <- app_assoc.
Qed.

Lemma no_slide_nil mode lines : no_slide mode lines [].
Proof. intros [|b o] t r E; done. Qed.

(** A common prefix in front keeps runs from sliding. *)
Lemma no_slide_prefix mode lines p f :
  p ≤ length lines → no_slide mode (drop p lines) f →
  no_slide mode lines (replicate p false ++ f).
Proof.
  intros Hp H o t r E Ho.
  assert (Hsplit : ∃ o', o = replicate p false ++ o' ∧ f = o' ++ replicate (S t) true ++ false :: r).
  { clear Ho H. revert o E. clear Hp. induction p as [|p IH]; intros o E; [by exists o|].
    destruct o as [|b o]; [done|]. cbn in E. injection E as <- E.
    destruct (IH o E) as (o' & -> & ->). by exists o'. }
  destruct Hsplit as (o' & -> & Ef). specialize (H o' t r Ef).
  rewrite !nth_lookup, !lookup_drop, <- !nth_lookup in H.
  rewrite length_app, length_replicate, <- Nat.add_assoc. apply H.
  destruct Ho as [Ho|[o1 Ho]]; [left; by apply app_nil in Ho as [_ ?]|].
  destruct o' as [|b o2 _] using rev_ind; [by left|right; exists o2].
  rewrite app_assoc in Ho. by apply app_inj_tail in Ho as [_ ->].
Qed.

(** ** The Myers core gives good flags *)

Section core.
Context (mode : WhitespaceMode) (old new : list DiffLine).

Abbreviation n := (length old).
Abbreviation m := (length new).

Lemma cpath_kept d x y oc nc :
  cpath mode old new d x y oc nc → (x ≤ Z.of_nat n)%Z → (y ≤ Z.of_nat m)%Z →
  Forall2 (line_eq mode) (kept (take (Z.to_nat x) old) oc) (kept (take (Z.to_nat y) new) nc) ∧
  marked oc + marked nc = d.
Proof.
  induction 1 as [|d x y oc nc Hc IH He|d x y oc nc Hc IH _ _|d x y oc nc Hc IH _ _]; intros Hx Hy;
    [by split; [constructor|]|..]; destruct (cpath_reach _ _ _ _ _ _ _ _ Hc) as (Hr & Ho & Hn);
    pose proof (reach_bounds _ _ _ _ _ _ Hr) as (? & ? & _ & _);
    (destruct IH as [IH1 IH2]; [lia..|]); rewrite ?Z2Nat.inj_add by lia;
    change (Z.to_nat 1) with 1; rewrite ?Nat.add_1_r.
  - apply eq_at_true in He as (? & ? & He). rewrite !(take_S_nth _ no_line) by lia.
    rewrite !kept_app, !marked_app by (rewrite length_take; lia). cbn [kept marked].
    split; [apply Forall2_app; [done|by repeat constructor]|]. unfold marked in *. cbn. lia.
  - rewrite (take_S_nth _ no_line) by lia. rewrite kept_app, marked_app by (rewrite length_take; lia).
    cbn [kept]. rewrite app_nil_r. split; [done|]. unfold marked in *. cbn. lia.
  - rewrite (take_S_nth _ no_line) by lia. rewrite kept_app, marked_app by (rewrite length_take; lia).
    cbn [kept]. rewrite app_nil_r. split; [done|]. unfold marked in *. cbn. lia.
Qed.

Lemma cpath_no_slide d x y oc nc :
  cpath mode old new d x y oc nc → no_slide mode old oc ∧ no_slide mode new nc.
Proof.
  induction 1 as [|d x y oc nc Hc [IH1 IH2] He|d x y oc nc Hc [IH1 IH2] _ _|d x y oc nc Hc [IH1 IH2] _ _].
  - split; apply no_slide_nil.
  - destruct (cpath_reach _ _ _ _ _ _ _ _ Hc) as (_ & Ho & Hn).
    split; apply no_slide_snoc_false; try done; intros o t E Hs; rewrite ?Ho, ?Hn.
    + by eapply old_no_slide.
    + by eapply new_no_slide.
  - split; [by apply no_slide_snoc_true|done].
  - split; [done|by apply no_slide_snoc_true].
Qed.

Lemma no_slide_all (lines : list DiffLine) k b : no_slide mode lines (replicate k b).
Proof.
  intros o t r E _. exfalso. destruct b.
  - assert (false ∈ replicate k true) as H by (rewrite E; set_solver).
    by apply elem_of_replicate in H as [? _].
  - assert (true ∈ replicate k false) as H by (rewrite E; cbn; set_solver).
    by apply elem_of_replicate in H as [? _].
Qed.

Lemma core_good : let '(oc, nc) := myers_changed_core mode old new in good_flags mode old new oc nc.
Proof.
  unfold myers_changed_core. destruct (Nat.eqb_spec n 0) as [E|En].
  { apply length_zero_iff_nil in E. rewrite E. split; try (apply no_slide_all || done).
    - by rewrite length_replicate.
    - rewrite (kept_marked new). constructor.
    - intros d (_ & _ & Hb & _)%reach_bounds. rewrite !marked_replicate. cbn in Hb |- *. lia. }
  destruct (Nat.eqb_spec m 0) as [E|Em].
  { apply length_zero_iff_nil in E. rewrite E. split; try (apply no_slide_all || done).
    - by rewrite length_replicate.
    - rewrite (kept_marked old). constructor.
    - intros d (_ & _ & Hb & _)%reach_bounds. rewrite !marked_replicate. cbn in Hb |- *. lia. }
  set (v0 := replicate (2 * max_d old new + 1) 0%Z).
  assert (Hv0 : ∀ k, vget old new v0 k = 0%Z) 
    by (intros k; unfold vget, v0; rewrite nth_lookup;
        destruct (_ !! _) eqn:E; [by apply lookup_replicate in E as [-> _]|done]).
  pose proof (search_spec mode old new) as Hs.
  specialize (Hs ltac:(unfold max_d; lia) (S (max_d old new)) 0 v0 [] ltac:(lia)
    (length_replicate _ _) (Hv0 _)).
  specialize (Hs ltac:(split; [done|intros; lia]) ltac:(intros; lia)).
  destruct (search _ _ _ _ _ _ _) as [trace found]. destruct Hs as (Ht & Hno & He).
  pose proof (found_exact mode old new found He Hno) as Htop.
  destruct (backtrack_spec mode old new trace found Ht found (Z.of_nat n) (Z.of_nat m) [] [])
    as (oc & nc & Hc & Hb); [lia|lia|done|].
  rewrite !app_nil_r, !Nat2Z.id in Hb. rewrite Hb.
  destruct (cpath_reach _ _ _ _ _ _ _ _ Hc) as (_ & Ho & Hn). rewrite Nat2Z.id in Ho, Hn.
  destruct (cpath_kept _ _ _ _ _ Hc) as [Hk Hm]; [lia..|]. rewrite !Nat2Z.id, !firstn_all in Hk.
  destruct (cpath_no_slide _ _ _ _ _ Hc). split; try done.
  intros d Hd. rewrite Hm. apply Nat.le_ngt. intros Hlt. apply (Hno d Hlt _ _ Hd). lia.
Qed.
End core.

(** ** The common prefix *)

(** On texts with an equal first line, a path spends no fewer edits than one that
    starts by matching it. *)
Lemma reach_tail mode a b old new d x y :
  lines_equal mode a b = true → reach mode (a :: old) (b :: new) d x y →
  (x = 0 → Z.of_nat d = y)%Z ∧ (y = 0 → Z.of_nat d = x)%Z ∧
  (1 ≤ x → 1 ≤ y → ∃ d', (d' ≤ d)%nat ∧ reach mode old new d' (x - 1) (y - 1))%Z.
Proof.
  intros Hab. induction 1 as [|d x y H IH He|d x y H IH|d x y H IH]; [split_and!; lia|..];
    pose proof (reach_bounds _ _ _ _ _ _ H) as (Hx & Hy & _ & _); destruct IH as (I1 & I2 & I3).
  - split_and!; [lia..|]. intros _ _. apply eq_at_true in He as (Hxn & Hyn & He).
    replace (x + 1 - 1)%Z with x by lia. replace (y + 1 - 1)%Z with y by lia.
    destruct (decide (x = 0)%Z) as [->|Hx0]; [|destruct (decide (y = 0)%Z) as [->|Hy0]].
    + exists d. split; [done|]. rewrite <- I1 by done.
      apply (reach_inss mode old new d 0 0 0). constructor.
    + exists d. split; [done|]. rewrite <- I2 by done.
      apply (reach_dels mode old new d 0 0 0). constructor.
    + destruct I3 as (d' & Hd & Hr); [lia..|]. exists d'. split; [done|].
      replace x with (x - 1 + 1)%Z by lia. replace y with (y - 1 + 1)%Z by lia.
      apply reach_diag; [done|]. apply eq_at_true. cbn [length] in *.
      replace (Z.to_nat x) with (S (Z.to_nat (x - 1))) in He by lia.
      replace (Z.to_nat y) with (S (Z.to_nat (y - 1))) in He by lia.
      split_and!; [lia..|done].
  - split_and!; [lia|intros ->; rewrite Nat2Z.inj_succ, I2 by done; lia|]. intros _ Hy1.
    replace (x + 1 - 1)%Z with x by lia. destruct (decide (x = 0)%Z) as [->|Hx0].
    + exists (pred d). split; [lia|]. replace (y - 1)%Z with (0 + Z.of_nat (pred d))%Z by lia.
      apply (reach_inss mode old new (pred d) 0 0 0). constructor.
    + destruct I3 as (d' & Hd & Hr); [lia..|]. exists (S d'). split; [lia|].
      replace x with (x - 1 + 1)%Z by lia. by apply reach_del.
  - split_and!; [intros ->; rewrite Nat2Z.inj_succ, I1 by done; lia|lia|]. intros Hx1 _.
    replace (y + 1 - 1)%Z with y by lia. destruct (decide (y = 0)%Z) as [->|Hy0].
    + exists (pred d). split; [lia|]. replace (x - 1)%Z with (0 + Z.of_nat (pred d))%Z by lia.
      apply (reach_dels mode old new (pred d) 0 0 0). constructor.
    + destruct I3 as (d' & Hd & Hr); [lia..|]. exists (S d'). split; [lia|].
      replace y with (y - 1 + 1)%Z by lia. by apply reach_ins.
Qed.

Lemma common_prefix_least mode old new : ∀ d,
  reach mode old new d (Z.of_nat (length old)) (Z.of_nat (length new)) →
  let p := common_prefix mode old new in
  ∃ d', d' ≤ d ∧ reach mode (drop p old) (drop p new) d'
    (Z.of_nat (length (drop p old))) (Z.of_nat (length (drop p new))).
Proof.
  revert new. induction old as [|a old IH]; intros [|b new] d H; cbn [common_prefix];
    try by exists d. destruct (lines_equal mode a b) eqn:E; [|by exists d].
  destruct (reach_tail _ _ _ _ _ _ _ _ E H) as (_ & _ & H3). cbn [length] in H3.
  destruct H3 as (d1 & Hd1 & H1); [lia..|].
  replace (Z.of_nat (S (length old)) - 1)%Z with (Z.of_nat (length old)) in H1 by lia.
  replace (Z.of_nat (S (length new)) - 1)%Z with (Z.of_nat (length new)) in H1 by lia.
  destruct (IH new d1 H1) as (d2 & Hd2 & H2). exists d2. split; [lia|done].
Qed.

Lemma common_prefix_spec mode old new :
  let p := common_prefix mode old new in
  p ≤ length old ∧ p ≤ length new ∧ Forall2 (line_eq mode) (take p old) (take p new).
Proof.
  revert new. induction old as [|a old IH]; intros [|b new]; cbn [common_prefix];
    try (cbn; split_and!; [lia..|constructor]).
  destruct (lines_equal mode a b) eqn:E; [|cbn; split_and!; [lia..|constructor]].
  destruct (IH new) as (? & ? & ?). cbn. split_and!; [lia..|by constructor].
Qed.

Lemma myers_good old new mode :
  let '(oc, nc) := myers_changed old new mode in good_flags mode old new oc nc.
Proof.
  unfold myers_changed. set (p := common_prefix mode old new).
  destruct (common_prefix_spec mode old new) as (Ho & Hn & Hp). fold p in Ho, Hn, Hp.
  pose proof (core_good mode (drop p old) (drop p new)) as Hg.
  destruct (myers_changed_core _ _ _) as [oc nc].
  destruct Hg as [G1 G2 G3 G4 G5 G6]. rewrite length_drop in G1, G2. split.
  - rewrite length_app, length_replicate. lia.
  - rewrite length_app, length_replicate. lia.
  - rewrite <- (take_drop p old), <- (take_drop p new) at 1.
    assert (∀ l f, p ≤ length l → kept (take p l ++ drop p l) (replicate p false ++ f)
      = take p l ++ kept (drop p l) f) as Hk.
    { intros l f Hl. rewrite kept_app by (rewrite length_take, length_replicate; lia). f_equal.
      rewrite <- (kept_unmarked (take p l)) at 2. f_equal. rewrite length_take. f_equal. lia. }
    rewrite !Hk by done. by apply Forall2_app.
  - by apply no_slide_prefix.
  - by apply no_slide_prefix.
  - intros d Hd. destruct (common_prefix_least mode old new d Hd) as (d' & Hd' & Hr). fold p in Hr.
    apply G6 in Hr. rewrite !marked_app, !marked_replicate. lia.
Qed.

(** ** Compaction has nothing to slide *)

(** The rest of a run, and what follows it. *)
Lemma run_end_spec lines changed : length changed = length lines → ∀ fuel e,
  length lines ≤ fuel + e → ∃ t r, drop e changed = replicate t true ++ r ∧
    (r = [] ∨ ∃ r', r = false :: r') ∧ run_end lines fuel e changed = e + t.
Proof.
  intros Hl. induction fuel as [|fuel IH]; intros e Hf; cbn [run_end].
  - exists 0, []. rewrite drop_ge by lia. split_and!; [done|by left|lia].
  - destruct (Nat.ltb_spec e (length lines)) as [Hlt|]; cbn [andb].
    2:{ exists 0, []. rewrite drop_ge by lia. split_and!; [done|by left|lia]. }
    rewrite (drop_nth changed false e) by lia. destruct (nth e changed false) eqn:E.
    + destruct (IH (S e)) as (t & r & -> & Hr & ->); [lia|].
      exists (S t), r. split_and!; [done|done|lia].
    + exists 0, (false :: drop (S e) changed). split_and!; [done|right; eauto|lia].
Qed.

Lemma compact_from_id mode lines changed :
  length changed = length lines → no_slide mode lines changed → ∀ fuel i,
  run_start (take i changed) ∨ nth i changed false = false →
  compact_from mode lines fuel i changed = changed.
Proof.
  intros Hl Hns. induction fuel as [|fuel IH]; intros i Hi; cbn [compact_from]; [done|].
  destruct (Nat.ltb_spec i (length lines)) as [Hlt|]; [|done].
  destruct (nth i changed false) eqn:E.
  - destruct Hi as [Hs|]; [|done].
    destruct (run_end_spec lines changed Hl (length lines) i) as (t & r & Hd & Hr & ->); [lia|].
    destruct t as [|t].
    { rewrite (drop_nth changed false i), E in Hd by lia. destruct Hr as [->|[r' ->]]; done. }
    assert (Hsl : slide mode lines (length lines) i (i + S t) changed = (changed, i + S t)).
    { destruct lines as [|l lines']; [cbn in Hlt; lia|]. cbn [length slide].
      destruct (Nat.ltb_spec (i + S t) (S (length lines'))); [|done]. cbn [andb].
      destruct Hr as [->|[r' ->]].
      { apply (f_equal length) in Hd. rewrite length_drop, length_app, length_replicate in Hd.
        cbn [length] in *. lia. }
      pose proof (Hns (take i changed) t r') as H'. rewrite length_take_le in H' by lia.
      by rewrite H' by (rewrite <- ?Hd, ?take_drop; done). }
    rewrite Hsl. apply IH. right. rewrite nth_lookup.
    replace (changed !! (i + S t)) with (drop i changed !! S t) by apply lookup_drop.
    rewrite Hd, lookup_app_r, length_replicate, Nat.sub_diag by (rewrite length_replicate; lia).
    by destruct Hr as [->|[r' ->]].
  - apply IH. left. right. exists (take i changed).
    rewrite <- E. apply take_S_r. rewrite nth_lookup in E.
    destruct (lookup_lt_is_Some_2 changed i) as [b Hb]; [lia|]. by rewrite nth_lookup, Hb.
Qed.

Lemma compact_id mode lines changed :
  length changed = length lines → no_slide mode lines changed →
  compact_changes mode lines changed = changed.
Proof. intros Hl Hns. apply compact_from_id; [done..|]. left. by left. Qed.

(** The compaction pass never changes anything. On every pair of texts and in
    every whitespace mode, the flags of the Myers diff are already canonical: no
    run of marked lines can slide down, so [compact_changes] returns them as they
    are, on both sides. *)
Theorem compact_changes_noop (old new : list DiffLine) (mode : WhitespaceMode) :
  let '(oc, nc) := myers_changed old new mode in
  compact_changes mode old oc = oc ∧ compact_changes mode new nc = nc.
Proof.
  pose proof (myers_good old new mode) as H. destruct (myers_changed old new mode) as [oc nc].
  destruct H. by split; apply compact_id.
Qed.

(** ** The script *)

(** [valid_upto i j ops]: [ops] turns the first [i] old lines into the first [j]
    new ones, in order; equal operations pair equal lines. *)
Inductive valid_upto (mode : WhitespaceMode) (old new : list DiffLine)
    : nat → nat → list DiffOp → Prop :=
  | valid_nil : valid_upto mode old new 0 0 []
  | valid_equal i j ops :
      valid_upto mode old new i j ops → i < length old → j < length new →
      line_eq mode (nth i old no_line) (nth j new no_line) →
      valid_upto mode old new (S i) (S j) (ops ++ [OpEqual i j])
  | valid_delete i j ops :
      valid_upto mode old new i j ops → i < length old →
      valid_upto mode old new (S i) j (ops ++ [OpDelete i])
  | valid_insert i j ops :
      valid_upto mode old new i j ops → j < length new →
      valid_upto mode old new i (S j) (ops ++ [OpInsert j]).

Definition valid_script (mode : WhitespaceMode) (old new : list DiffLine) (ops : list DiffOp) : Prop :=
  valid_upto mode old new (length old) (length new) ops.

(** The number of edits of a script. *)
Definition changes (ops : list DiffOp) : nat := length (List.filter is_change ops).

Lemma changes_app a b : changes (a ++ b) = changes a + changes b.
Proof. unfold changes. by rewrite filter_app, length_app. Qed.

(** Every valid script is a path of the edit graph. *)
Lemma valid_reach mode old new i j ops :
  valid_upto mode old new i j ops →
  reach mode old new (changes ops) (Z.of_nat i) (Z.of_nat j).
Proof.
  induction 1 as [|i j ops H IH Hi Hj He|i j ops H IH Hi|i j ops H IH Hj];
    [constructor|..]; rewrite changes_app, ?Nat2Z.inj_succ; unfold changes at 2;
    cbn [List.filter is_change length]; rewrite ?Nat.add_0_r, ?Nat.add_1_r, <- ?Z.add_1_r.
  - apply reach_diag; [done|]. apply eq_at_true. rewrite !Nat2Z.id. split_and!; [lia..|done].
  - by apply reach_del.
  - by apply reach_ins.
Qed.

Section script.
Context (mode : WhitespaceMode) (old new : list DiffLine) (oc nc : list bool).
Hypothesis Ho : length oc = length old.
Hypothesis Hn : length nc = length new.

(** The deletions of the loop: a marked run, whole. *)
Lemma deletions_spec : ∀ fuel i j ops, length old ≤ fuel + i →
  valid_upto mode old new i j ops →
  ∃ dels t, deletions old oc fuel i = (dels, i + t) ∧ valid_upto mode old new (i + t) j (ops ++ dels) ∧
    drop i oc = replicate t true ++ drop (i + t) oc ∧ changes dels = t ∧
    nth (i + t) oc false = false.
Proof.
  induction fuel as [|fuel IH]; intros i j ops Hf Hv; cbn [deletions].
  - exists [], 0. rewrite Nat.add_0_r, app_nil_r. split_and!; [done..|]. apply nth_overflow. lia.
  - destruct (Nat.ltb_spec i (length old)) as [Hlt|]; cbn [andb].
    2:{ exists [], 0. rewrite Nat.add_0_r, app_nil_r. split_and!; [done..|]. apply nth_overflow. lia. }
    destruct (nth i oc false) eqn:E.
    2:{ exists [], 0. by rewrite Nat.add_0_r, app_nil_r. }
    destruct (IH (S i) j (ops ++ [OpDelete i])) as (dels & t & Hd & Hv' & Hdr & Hc & Hb);
      [lia|by apply valid_delete|].
    exists (OpDelete i :: dels), (S t). rewrite Hd. rewrite <- app_assoc in Hv'.
    replace (i + S t) with (S i + t) by lia. split_and!; [done|done| | |done].
    + rewrite (drop_nth oc false i), E, Hdr by lia. done.
    + unfold changes in *. cbn. by rewrite Hc.
Qed.

Lemma insertions_spec : ∀ fuel i j ops, length new ≤ fuel + j →
  valid_upto mode old new i j ops →
  ∃ ins t, insertions new nc fuel j = (ins, j + t) ∧ valid_upto mode old new i (j + t) (ops ++ ins) ∧
    drop j nc = replicate t true ++ drop (j + t) nc ∧ changes ins = t ∧
    nth (j + t) nc false = false.
Proof.
  induction fuel as [|fuel IH]; intros i j ops Hf Hv; cbn [insertions].
  - exists [], 0. rewrite Nat.add_0_r, app_nil_r. split_and!; [done..|]. apply nth_overflow. lia.
  - destruct (Nat.ltb_spec j (length new)) as [Hlt|]; cbn [andb].
    2:{ exists [], 0. rewrite Nat.add_0_r, app_nil_r. split_and!; [done..|]. apply nth_overflow. lia. }
    destruct (nth j nc false) eqn:E.
    2:{ exists [], 0. by rewrite Nat.add_0_r, app_nil_r. }
    destruct (IH i (S j) (ops ++ [OpInsert j])) as (ins & t & Hd & Hv' & Hdr & Hc & Hb);
      [lia|by apply valid_insert|].
    exists (OpInsert j :: ins), (S t). rewrite Hd. rewrite <- app_assoc in Hv'.
    replace (j + S t) with (S j + t) by lia. split_and!; [done|done| | |done].
    + rewrite (drop_nth nc false j), E, Hdr by lia. done.
    + unfold changes in *. cbn. by rewrite Hc.
Qed.

Lemma valid_bounds i j ops : valid_upto mode old new i j ops → i ≤ length old ∧ j ≤ length new.
Proof. induction 1; lia. Qed.

(** The lines kept after a marked run are the lines kept before it. *)
Lemma kept_skip lines flags i t :
  i + t ≤ length lines → drop i flags = replicate t true ++ drop (i + t) flags →
  kept (drop i lines) (drop i flags) = kept (drop (i + t) lines) (drop (i + t) flags).
Proof.
  intros Hl ->. rewrite <- (take_drop t (drop i lines)), drop_drop.
  assert (length (take t (drop i lines)) = t) as Ht by (rewrite length_take, length_drop; lia).
  rewrite kept_app by (by rewrite length_replicate). rewrite <- Ht at 2. by rewrite kept_marked.
Qed.

Lemma marked_skip flags i t :
  drop i flags = replicate t true ++ drop (i + t) flags →
  marked (drop i flags) = t + marked (drop (i + t) flags).
Proof. intros ->. by rewrite marked_app, marked_replicate. Qed.

(** The loop of [script_from_flags] at [(i, j)]. *)
Record script_inv (s : Script) : Prop := {
  sv_valid : valid_upto mode old new (sc_i s) (sc_j s) (sc_ops s);
  sv_rest : Forall2 (line_eq mode) (kept (drop (sc_i s) old) (drop (sc_i s) oc))
                                   (kept (drop (sc_j s) new) (drop (sc_j s) nc));
  sv_count : changes (sc_ops s) + marked (drop (sc_i s) oc) + marked (drop (sc_j s) nc) =
             marked oc + marked nc
}.

Definition script_left (s : Script) : nat := (length old - sc_i s) + (length new - sc_j s).

Lemma script_step_equal s :
  script_inv s → sc_i s < length old → sc_j s < length new →
  nth (sc_i s) oc false = false → nth (sc_j s) nc false = false →
  script_inv {| sc_i := S (sc_i s); sc_j := S (sc_j s);
                sc_ops := sc_ops s ++ [OpEqual (sc_i s) (sc_j s)] |}.
Proof.
  intros [Hv Hr Hc] Hi Hj Eo En.
  rewrite (drop_nth oc false _), (drop_nth nc false _), Eo, En in Hr, Hc by lia.
  rewrite (drop_nth old no_line), (drop_nth new no_line) in Hr by lia.
  cbn [kept] in Hr. inv Hr as [|? ? ? ? Hl Hrest].
  split; cbn [sc_i sc_j sc_ops]; [by apply valid_equal|done|].
  rewrite changes_app. unfold marked in *. cbn in Hc |- *. lia.
Qed.

Lemma script_step_edits s dels ins t1 t2 :
  script_inv s →
  valid_upto mode old new (sc_i s + t1) (sc_j s + t2) (sc_ops s ++ dels ++ ins) →
  drop (sc_i s) oc = replicate t1 true ++ drop (sc_i s + t1) oc →
  drop (sc_j s) nc = replicate t2 true ++ drop (sc_j s + t2) nc →
  changes dels = t1 → changes ins = t2 →
  script_inv {| sc_i := sc_i s + t1; sc_j := sc_j s + t2; sc_ops := sc_ops s ++ dels ++ ins |}.
Proof.
  intros [_ Hr Hc] Hv Hd Hi Cd Ci. destruct (valid_bounds _ _ _ Hv).
  split; cbn [sc_i sc_j sc_ops]; [done| |].
  - rewrite <- !kept_skip by done. done.
  - rewrite (marked_skip _ _ _ Hd), (marked_skip _ _ _ Hi) in Hc. rewrite !changes_app. lia.
Qed.

Lemma script_step_inv s :
  script_inv s →
  match script_step old new oc nc s with
  | inl s' => script_inv s' ∧ script_left s' < script_left s
  | inr ops => valid_script mode old new ops ∧ changes ops = marked oc + marked nc
  end.
Proof.
  intros Hs. pose proof Hs as [Hv Hr Hc]. destruct (valid_bounds _ _ _ Hv) as [Hi Hj].
  unfold script_step, script_left.
  destruct (Nat.ltb_spec (sc_i s) (length old)) as [Hi'|Hi'];
    destruct (Nat.ltb_spec (sc_j s) (length new)) as [Hj'|Hj']; cbn [andb orb].
  4:{ unfold valid_script. replace (length old) with (sc_i s) by lia.
      replace (length new) with (sc_j s) by lia. split; [done|].
      rewrite !drop_ge in Hc by lia. unfold marked in *. cbn in Hc. lia. }
  1: destruct (negb _ && negb _) eqn:E;
    [apply andb_true_iff in E as [Eo%negb_true_iff En%negb_true_iff];
     split; [by apply script_step_equal|cbn; lia]|].
  all: destruct (deletions_spec (length old) (sc_i s) (sc_j s) (sc_ops s))
      as (dels & t1 & -> & V1 & D1 & C1 & B1); [lia|done|];
    destruct (insertions_spec (length new) (sc_i s + t1) (sc_j s) (sc_ops s ++ dels))
      as (ins & t2 & -> & V2 & D2 & C2 & B2); [lia|done|];
    rewrite <- app_assoc in V2;
    (split; [by apply (script_step_edits s dels ins t1 t2)|]); cbn;
    destruct (valid_bounds _ _ _ V2).
  - apply andb_false_iff in E as [E%negb_false_iff|E%negb_false_iff].
    + destruct t1; [rewrite Nat.add_0_r in B1; congruence|lia].
    + destruct t2; [rewrite Nat.add_0_r in B2; congruence|lia].
  - destruct t1; [|lia]. rewrite Nat.add_0_r in B1.
    rewrite (drop_nth oc false), B1, (drop_nth old no_line), (drop_ge new) in Hr by lia.
    inv Hr.
  - destruct t2; [|lia]. rewrite Nat.add_0_r in B2.
    rewrite (drop_nth nc false), B2, (drop_nth new no_line), (drop_ge old) in Hr by lia.
    inv Hr.
Qed.

Lemma script_from_flags_spec :
  Forall2 (line_eq mode) (kept old oc) (kept new nc) →
  ∃ ops, script_from_flags old new oc nc = Some ops ∧
    valid_script mode old new ops ∧ changes ops = marked oc + marked nc.
Proof.
  intros Hm. apply (loop_rule _ script_left script_inv).
  - intros s. apply script_step_inv.
  - split; cbn; [constructor|done|done].
  - unfold script_left. cbn. lia.
Qed.
End script.

(** What [edit_script] promises. *)
Lemma edit_script_good mode old new :
  script_from_flags old new
    (compact_changes mode old (myers_changed old new mode).1)
    (compact_changes mode new (myers_changed old new mode).2) = Some (edit_script old new mode) ∧
  valid_script mode old new (edit_script old new mode) ∧
  ∀ ops, valid_script mode old new ops → changes (edit_script old new mode) ≤ changes ops.
Proof.
  unfold edit_script. pose proof (myers_good old new mode) as H.
  destruct (myers_changed old new mode) as [oc nc]. cbn [fst snd]. destruct H as [G1 G2 G3 G4 G5 G6].
  rewrite !compact_id by done.
  destruct (script_from_flags_spec mode old new oc nc G1 G2 G3) as (ops & E & Hv & Hc).
  rewrite E. cbn [from_option id]. split_and!; [done|done|]. intros ops' Hv'.
  rewrite Hc. apply G6. by apply valid_reach.
Qed.

(** C11: [edit_script] is a shortest edit script. For all texts and every
    whitespace mode the loop that builds it ends, the script walks both texts in
    order, consuming every line of each exactly once and pairing only equal lines,
    and no script that does so has fewer insertions and deletions. *)
Theorem edit_script_shortest (mode : WhitespaceMode) (old new : list DiffLine) :
  let '(oc, nc) := myers_changed old new mode in
  script_from_flags old new (compact_changes mode old oc) (compact_changes mode new nc)
    = Some (edit_script old new mode) ∧
  valid_script mode old new (edit_script old new mode) ∧
  ∀ ops, valid_script mode old new ops → changes (edit_script old new mode) ≤ changes ops.
Proof.
  pose proof (edit_script_good mode old new) as H. by destruct (myers_changed old new mode).
Qed.
