(* ===== verification/LineMerge.v ===== *)
(** * Correctness of the line-level three-way merge

    Splitting into lines and joining them again; the regions of an edit script
    reproduce its new side; and the merge is a three-way merge: both sides and the
    result are cut into the same parts, and each part of the result is the side
    that changed it. *)

From S2P Require Import Prelude Diff Myers EditScript.

Local Open Scope nat_scope.

(** ** Lines *)

Lemma split_at_nl_Some l p q : split_at_nl l = Some (p, q) → l = p ++ NL :: q ∧ NL ∉ p.
Proof.
  revert p q. induction l as [|b l IH]; intros p q H; cbn in H; [done|]. case_bool_decide.
  - injection H as <- <-. subst. split; [done|apply not_elem_of_nil].
  - destruct (split_at_nl l) as [[p' q']|]; [|done]. injection H as <- <-.
    destruct (IH p' q' eq_refl) as [-> Hn]. split; [done|]. apply not_elem_of_cons. done.
Qed.

Lemma split_at_nl_None l : split_at_nl l = None → NL ∉ l.
Proof.
  induction l as [|b l IH]; cbn; [intros _; apply not_elem_of_nil|]. case_bool_decide; [done|].
  destruct (split_at_nl l) as [[]|]; [done|]. intros _. apply not_elem_of_cons. auto.
Qed.

Lemma split_at_nl_app p q : NL ∉ p → split_at_nl (p ++ NL :: q) = Some (p, q).
Proof.
  induction p as [|b p IH]; cbn; intros H.
  - by rewrite bool_decide_true.
  - apply not_elem_of_cons in H as [H1 H2]. rewrite bool_decide_false by done. by rewrite IH.
Qed.

Lemma split_at_nl_none l : NL ∉ l → split_at_nl l = None.
Proof.
  intros H. destruct (split_at_nl l) as [[p q]|] eqn:E; [|done].
  apply split_at_nl_Some in E as [-> _]. destruct H. set_solver.
Qed.

(** The list is what [split_lines] yields: every line has its newline, the last
    one may lack it but is then not empty, and no text holds a newline. *)
Inductive proper_lines : list DiffLine → Prop :=
  | proper_nil : proper_lines []
  | proper_last t : NL ∉ t → t ≠ [] → proper_lines [{| text := t; has_newline := false |}]
  | proper_cons t ls :
      NL ∉ t → proper_lines ls → proper_lines ({| text := t; has_newline := true |} :: ls).

Lemma split_lines_fuel_spec fuel l :
  length l < fuel →
  proper_lines (split_lines_fuel fuel l) ∧ emit_lines (split_lines_fuel fuel l) = l.
Proof.
  revert l. induction fuel as [|fuel IH]; intros l Hl; [lia|].
  destruct l as [|b l]; cbn [split_lines_fuel]; [split; [constructor|done]|].
  destruct (split_at_nl (b :: l)) as [[p q]|] eqn:E.
  - apply split_at_nl_Some in E as [E Hn]. rewrite E in Hl |- *. rewrite length_app in Hl.
    cbn in Hl. destruct (IH q) as [Hp He]; [lia|]. split; [by constructor|].
    unfold emit_lines in *. cbn. rewrite He. by rewrite <- app_assoc.
  - apply split_at_nl_None in E. split; [by constructor|].
    unfold emit_lines. cbn. by rewrite !app_nil_r.
Qed.

Lemma split_lines_proper l : proper_lines (split_lines l).
Proof. apply split_lines_fuel_spec. lia. Qed.

Lemma emit_split_lines l : emit_lines (split_lines l) = l.
Proof. apply split_lines_fuel_spec. lia. Qed.

Lemma split_emit_fuel ls fuel :
  proper_lines ls → length (emit_lines ls) < fuel → split_lines_fuel fuel (emit_lines ls) = ls.
Proof.
  intros H. revert fuel. induction H as [|t Hn Ht|t ls Hn H IH]; intros [|fuel] Hf; try lia; [done|..].
  - unfold emit_lines in *. cbn in *. rewrite !app_nil_r in *.
    destruct t as [|b t]; [done|]. cbn [split_lines_fuel]. by rewrite split_at_nl_none.
  - unfold emit_lines in *. cbn in *. rewrite <- !app_assoc in *. cbn in *.
    rewrite length_app in Hf. cbn in Hf.
    destruct (t ++ _) as [|b r] eqn:E; [by destruct t|]. rewrite <- E.
    rewrite split_at_nl_app by done. rewrite IH by lia. done.
Qed.

Lemma split_emit_lines ls : proper_lines ls → split_lines (emit_lines ls) = ls.
Proof. intros H. apply split_emit_fuel; [done|lia]. Qed.

Lemma emit_lines_app a b : emit_lines (a ++ b) = emit_lines a ++ emit_lines b.
Proof. unfold emit_lines. by rewrite map_app, concat_app. Qed.

Lemma line_eq_Exact a b : line_eq Exact a b ↔ a = b.
Proof.
  unfold line_eq, lines_equal, ws_key. rewrite andb_true_iff, eqb_true_iff, bytes_eqb_eq.
  destruct a, b. cbn. naive_solver.
Qed.

(** ** Slices and splices *)

Lemma slice_Some base a b o :
  slice base a b = Some o ↔ a ≤ b ≤ length base ∧ o = take (b - a) (drop a base).
Proof.
  unfold slice. destruct (Nat.leb_spec a b); destruct (Nat.leb_spec b (length base));
    cbn [andb]; naive_solver lia.
Qed.

Lemma slice_ok base a b :
  a ≤ b → b ≤ length base → slice base a b = Some (take (b - a) (drop a base)).
Proof. intros. by apply slice_Some. Qed.

Lemma slice_split (base : list DiffLine) a b c :
  a ≤ b → b ≤ c → take (c - a) (drop a base) = take (b - a) (drop a base) ++ take (c - b) (drop b base).
Proof.
  intros Hb Hc. replace (c - a) with ((b - a) + (c - b)) by lia.
  rewrite <- take_take_drop, drop_drop. by replace (a + (b - a)) with b by lia.
Qed.

Lemma slice_tail (base : list DiffLine) a : take (length base - a) (drop a base) = drop a base.
Proof. apply take_ge. rewrite length_drop. lia. Qed.

Lemma splice_bound base c rs o : splice base c rs = Some o → c ≤ length base.
Proof.
  destruct rs as [|r rs]; cbn.
  - intros [? _]%slice_Some. lia.
  - destruct (slice base c (base_start r)) eqn:E; [|done]. apply slice_Some in E as [? _]. lia.
Qed.

Lemma splice_cons base c r rs o :
  splice base c (r :: rs) = Some o ↔
  c ≤ base_start r ∧ ∃ rest, splice base (base_start r + base_len r) rs = Some rest ∧
    o = take (base_start r - c) (drop c base) ++ region_new r ++ rest.
Proof.
  cbn. split.
  - destruct (slice base c (base_start r)) as [u|] eqn:E; [|done]. apply slice_Some in E as [? ->].
    destruct (splice base _ rs) as [rest|]; [|done]. intros [= <-]. split; [lia|]. by exists rest.
  - intros (H & rest & E & ->). rewrite E. pose proof (splice_bound _ _ _ _ E).
    rewrite slice_ok by lia. done.
Qed.

Lemma splice_nil base c : c ≤ length base → splice base c [] = Some (drop c base).
Proof. intros H. cbn. rewrite slice_ok by lia. by rewrite slice_tail. Qed.

(** More base lines after the last region. *)
Lemma splice_grow base c rs o more :
  splice base c rs = Some o → splice (base ++ more) c rs = Some (o ++ more).
Proof.
  revert c o. induction rs as [|r rs IH]; intros c o H.
  - pose proof (splice_bound _ _ _ _ H). rewrite splice_nil in H |- * by (rewrite ?length_app; lia).
    injection H as <-. f_equal. apply drop_app_le. done.
  - apply splice_cons in H as (Hc & rest & E & ->). apply splice_cons. split; [done|].
    exists (rest ++ more). split; [by apply IH|]. pose proof (splice_bound _ _ _ _ E).
    rewrite <- !app_assoc. f_equal. rewrite drop_app_le by lia. rewrite take_app_le; [done|].
    rewrite length_drop. lia.
Qed.

(** One more region, at the end of the base. *)
Lemma splice_last base c rs o r more :
  splice base c rs = Some o → base_start r = length base → base_len r = length more →
  splice (base ++ more) c (rs ++ [r]) = Some (o ++ region_new r).
Proof.
  intros H Hs Hl. revert c o H. induction rs as [|r' rs IH]; intros c o H.
  - pose proof (splice_bound _ _ _ _ H). rewrite splice_nil in H by lia. injection H as <-.
    apply splice_cons. split; [lia|]. exists []. rewrite splice_nil by (rewrite length_app; lia).
    rewrite drop_ge by (rewrite length_app; lia). split; [done|]. rewrite app_nil_r. f_equal.
    rewrite Hs, drop_app_le by lia. rewrite take_app_le by (rewrite length_drop; lia).
    by rewrite slice_tail.
  - apply splice_cons in H as (Hc & rest & E & ->). cbn [app]. apply splice_cons. split; [done|].
    exists (rest ++ region_new r). split; [by apply IH|]. pose proof (splice_bound _ _ _ _ E).
    rewrite <- !app_assoc. f_equal. rewrite drop_app_le by lia. rewrite take_app_le; [done|].
    rewrite length_drop. lia.
Qed.

(** ** The regions of an edit script *)

Section regions.
Context (base side : list DiffLine).

(** After the operations that turn [i] base lines into [j] lines of the side. *)
Definition regions_inv (i j : nat) (r : Regions) : Prop :=
  rg_idx r = i ∧
  let c := cur_region r in
  base_start c + base_len c = i ∧ i ≤ length base ∧
  ∃ o, splice (take (base_start c) base) 0 (rg_done r) = Some o ∧ take j side = o ++ region_new c.

Lemma regions_inv_close i j r :
  regions_inv i j r → splice (take i base) 0 (close_region r) = Some (take j side).
Proof.
  intros (Hi & Hs & Hl & o & Ho & ->). unfold close_region, cur_region in *.
  destruct (rg_cur r) as [c|]; cbn [from_option id option_list base_start base_len region_new] in *.
  - rewrite <- Hs at 1. replace (take (base_start c + base_len c) base)
      with (take (base_start c) base ++ take (base_len c) (drop (base_start c) base))
      by apply take_take_drop.
    apply splice_last; [done|rewrite length_take; lia|].
    rewrite length_take, length_drop. lia.
  - rewrite !app_nil_r. replace i with (rg_idx r) by lia. done.
Qed.

Lemma region_op_inv i j ops :
  valid_upto Exact base side i j ops →
  regions_inv i j (foldl (region_op side) {| rg_done := []; rg_cur := None; rg_idx := 0 |} ops).
Proof.
  induction 1 as [|i j ops Hv IH Hi Hj Hl|i j ops Hv IH Hi|i j ops Hv IH Hj];
    [|rewrite foldl_app; set (r := foldl _ _ ops) in *..].
  - repeat split; [lia|]. exists []. by rewrite take_0.
  - apply line_eq_Exact in Hl. cbn. pose proof (regions_inv_close _ _ _ IH) as Hc.
    split; [done|]. cbn. split; [lia|]. split; [lia|]. eexists. split.
    + rewrite (take_S_nth base no_line i) by lia.
      apply splice_grow. exact Hc.
    + rewrite app_nil_r, Hl.
      by rewrite (take_S_nth side no_line j) by lia.
  - destruct IH as (E & Hs & Hle & o & Ho & Ht). split; [done|]. cbn.
    split; [lia|]. split; [lia|]. exists o. done.
  - destruct IH as (E & Hs & Hle & o & Ho & Ht). split; [done|]. cbn.
    split; [lia|]. split; [lia|]. exists o. split; [done|].
    rewrite (take_S_nth side no_line j) by lia.
    by rewrite Ht, app_assoc.
Qed.
End regions.

Lemma changed_regions_splice base side :
  splice base 0 (changed_regions base side) = Some side.
Proof.
  destruct (edit_script_good Exact base side) as (_ & Hv & _).
  pose proof (regions_inv_close _ _ _ _ _ (region_op_inv _ _ _ _ _ Hv)) as H.
  by rewrite !take_ge in H by lia.
Qed.

(** Equal texts have no changed region. *)
Lemma script_of_equal base : Forall (λ op, is_change op = false) (edit_script base base Exact).
Proof.
  destruct (edit_script_good Exact base base) as (_ & _ & Hmin).
  assert (∀ i, i ≤ length base → ∃ ops, valid_upto Exact base base i i ops ∧ changes ops = 0) as H.
  { induction i as [|i IH]; intros Hi; [exists []; by split; [constructor|]|].
    destruct IH as (ops & Hv & Hc); [lia|]. exists (ops ++ [OpEqual i i]). split.
    - apply valid_equal; [done|lia..|]. by apply line_eq_Exact.
    - by rewrite changes_app, Hc. }
  destruct (H (length base)) as (ops & Hv & Hc); [done|].
  specialize (Hmin ops Hv). rewrite Hc in Hmin. unfold changes in Hmin.
  induction (edit_script base base Exact) as [|op l IH]; constructor.
  - destruct (is_change op) eqn:E; [|done]. cbn in Hmin. rewrite E in Hmin. cbn in Hmin. lia.
  - apply IH. cbn in Hmin. destruct (is_change op); cbn in Hmin; lia.
Qed.

Lemma changed_regions_self base : changed_regions base base = [].
Proof.
  unfold changed_regions, regions_of_script.
  assert (∀ ops i, Forall (λ op, is_change op = false) ops →
    close_region (foldl (region_op base) {| rg_done := []; rg_cur := None; rg_idx := i |} ops) = [])
    as H.
  { induction ops as [|op ops IH]; intros i Ha; [done|]. inv Ha.
    destruct op; try done. cbn. by apply IH. }
  apply H, script_of_equal.
Qed.

(** ** Merging two lists of regions *)

Definition apart (rs1 rs2 : list MergeRegion) : Prop :=
  ∀ a b, a ∈ rs1 → b ∈ rs2 → region_overlap a b = false.

Lemma regions_overlap_false rs1 rs2 : regions_overlap rs1 rs2 = false ↔ apart rs1 rs2.
Proof.
  unfold regions_overlap, apart. rewrite <- not_true_iff_false, existsb_exists. split.
  - intros H a b Ha Hb. apply not_true_iff_false. intros Ho. apply H. exists a.
    split; [by apply list_elem_of_In|]. apply existsb_exists. exists b.
    split; [by apply list_elem_of_In|done].
  - intros H (a & Ha & (b & Hb & Ho)%existsb_exists).
    rewrite H in Ho by (by apply list_elem_of_In). done.
Qed.

Lemma region_overlap_sym a b : region_overlap a b = region_overlap b a.
Proof.
  unfold region_overlap. destruct (Nat.eqb_spec (base_len a) 0), (Nat.eqb_spec (base_len b) 0);
    [apply Nat.eqb_sym|done..|apply andb_comm].
Qed.

Lemma region_leb_spec a b :
  region_leb a b = true ↔
  base_start a < base_start b ∨ base_start a = base_start b ∧ base_len a ≤ base_len b.
Proof.
  unfold region_leb. rewrite orb_true_iff, andb_true_iff, Nat.ltb_lt, Nat.eqb_eq, Nat.leb_le. done.
Qed.

(** Regions that do not overlap are strictly ordered, and the first ends before
    the second starts. *)
Lemma apart_order a b :
  region_overlap a b = false →
  (region_leb a b = true ∧ region_leb b a = false ∧ base_start a + base_len a ≤ base_start b) ∨
  (region_leb b a = true ∧ region_leb a b = false ∧ base_start b + base_len b ≤ base_start a).
Proof.
  unfold region_overlap, region_leb. intros H.
  destruct (Nat.eqb_spec (base_len a) 0), (Nat.eqb_spec (base_len b) 0);
    rewrite ?orb_true_iff, ?orb_false_iff, ?andb_true_iff, ?andb_false_iff, ?Nat.ltb_lt, ?Nat.ltb_ge,
      ?Nat.eqb_eq, ?Nat.eqb_neq, ?Nat.leb_le, ?Nat.leb_gt in *; lia.
Qed.

(** The regions of one side never go back. *)
Lemma splice_chain base c rs o :
  splice base c rs = Some o → Forall (λ r, c ≤ base_start r) rs.
Proof.
  revert c o. induction rs as [|r rs IH]; intros c o H; [constructor|].
  apply splice_cons in H as (Hc & rest & E & _). constructor; [done|].
  specialize (IH _ _ E). eapply list.Forall_impl; [exact IH|]. cbn. lia.
Qed.

Lemma leb_of_end a b : base_start a + base_len a ≤ base_start b → region_leb a b = true.
Proof. intros H. apply region_leb_spec. lia. Qed.

(** The head of two merged lists, when no region of the first list sorts before it. *)
Lemma sort_min r rs1 rs2 :
  Forall (λ r', region_leb r' r = false) rs1 →
  Forall (λ r', region_leb r r' = true) (rs1 ++ rs2) →
  sort_regions (rs1 ++ r :: rs2) = r :: sort_regions (rs1 ++ rs2).
Proof.
  induction rs1 as [|x rs1 IH]; intros H1 H2; cbn [app sort_regions foldr].
  - fold (sort_regions rs2). assert (∀ l, Forall (λ r', region_leb r r' = true) l →
      insert_region r l = r :: l) as Hi.
    { intros [|y l]; [done|]. intros Hf. inv Hf. cbn. by case_match. }
    apply Hi. clear -H2. cbn in H2. induction H2 as [|y l Hy H2 IH]; [constructor|]. cbn.
    assert (∀ z l', region_leb r z = true → Forall (λ r', region_leb r r' = true) l' →
      Forall (λ r', region_leb r r' = true) (insert_region z l')) as Hins.
    { clear. intros z l' Hz. induction 1 as [|w l' Hw Hl IH]; cbn; [by repeat constructor|].
      destruct (region_leb z w); by repeat constructor. }
    by apply Hins.
  - inv H1. inv H2. fold (sort_regions (rs1 ++ r :: rs2)). rewrite IH by done. cbn.
    case_match; [congruence|done].
Qed.

Lemma splice_starts base c r rs o :
  splice base c (r :: rs) = Some o →
  Forall (λ r', base_start r + base_len r ≤ base_start r') rs.
Proof. intros (_ & rest & E & _)%splice_cons. by eapply splice_chain. Qed.

Lemma sort_of_splice base c rs o : splice base c rs = Some o → sort_regions rs = rs.
Proof.
  revert c o. induction rs as [|r rs IH]; intros c o H; [done|].
  pose proof (splice_starts _ _ _ _ _ H) as Hs. apply splice_cons in H as (_ & rest & E & _).
  pose proof (sort_min r [] rs) as Hmin. cbn [app] in Hmin. rewrite Hmin; [|constructor|].
  - f_equal. by eapply IH.
  - eapply list.Forall_impl; [exact Hs|]. intros. by apply leb_of_end.
Qed.

(** ** Three-way parts *)

(** A part of the three texts: base, ours, theirs. *)
Definition part : Type := list DiffLine * list DiffLine * list DiffLine.
Definition part_base (p : part) : list DiffLine := p.1.1.
Definition part_ours (p : part) : list DiffLine := p.1.2.
Definition part_theirs (p : part) : list DiffLine := p.2.

(** The side that changed the part. *)
Definition part_pick (p : part) : list DiffLine :=
  if bool_decide (part_ours p = part_base p) then part_theirs p else part_ours p.

(** At most one side changed the part. *)
Definition one_side (p : part) : Prop := part_ours p = part_base p ∨ part_theirs p = part_base p.

Definition cut (base ours theirs merged : list DiffLine) (parts : list part) : Prop :=
  concat (map part_base parts) = base ∧ concat (map part_ours parts) = ours ∧
  concat (map part_theirs parts) = theirs ∧ concat (map part_pick parts) = merged ∧
  Forall one_side parts.

Lemma cut_app b1 o1 t1 m1 p1 b2 o2 t2 m2 p2 :
  cut b1 o1 t1 m1 p1 → cut b2 o2 t2 m2 p2 →
  cut (b1 ++ b2) (o1 ++ o2) (t1 ++ t2) (m1 ++ m2) (p1 ++ p2).
Proof.
  intros (<- & <- & <- & <- & H1) (<- & <- & <- & <- & H2).
  unfold cut. rewrite !map_app, !concat_app. split_and!; [done..|]. by apply Forall_app.
Qed.

Lemma cut_one b o t : o = b ∨ t = b → cut b o t (part_pick (b, o, t)) [(b, o, t)].
Proof. intros H. unfold cut. cbn. rewrite !app_nil_r. split_and!; [done..|].
  constructor; [exact H|constructor].
Qed.

Lemma pick_ours (b o : list DiffLine) : part_pick (b, o, b) = o.
Proof. unfold part_pick. cbn. by case_bool_decide. Qed.

Lemma pick_theirs (b t : list DiffLine) : part_pick (b, b, t) = t.
Proof. unfold part_pick. cbn. by rewrite bool_decide_true. Qed.

Lemma cut_ours b o : cut b o b o [(b, o, b)].
Proof. rewrite <- (pick_ours b o) at 2. apply cut_one. by right. Qed.

Lemma cut_theirs b t : cut b b t t [(b, b, t)].
Proof. rewrite <- (pick_theirs b t) at 2. apply cut_one. by left. Qed.

Lemma splice_skip base c e rs o :
  splice base c rs = Some o → c ≤ e ≤ length base → Forall (λ r, e ≤ base_start r) rs →
  ∃ o', splice base e rs = Some o' ∧ o = take (e - c) (drop c base) ++ o'.
Proof.
  intros H He Hf. destruct rs as [|r rs].
  - rewrite splice_nil in H |- * by lia. injection H as <-. eexists. split; [done|].
    pose proof (slice_split base c e (length base)) as Hs. rewrite !slice_tail in Hs.
    apply Hs; lia.
  - inv Hf. apply splice_cons in H as (Hc & rest & E & ->).
    exists (take (base_start r - e) (drop e base) ++ region_new r ++ rest).
    split; [apply splice_cons; eauto|]. rewrite (slice_split _ c e) by lia. by rewrite <- !app_assoc.
Qed.

(** One region [r] of one side is next; the other side has nothing before its end. *)
Lemma splice_next base c r rs o rs' o' :
  splice base c (r :: rs) = Some o → splice base c rs' = Some o' →
  Forall (λ r', base_start r + base_len r ≤ base_start r') rs' →
  let e := base_start r + base_len r in
  ∃ gap seg o1 o1', splice base e rs = Some o1 ∧ splice base e rs' = Some o1' ∧
    o = gap ++ region_new r ++ o1 ∧ o' = gap ++ seg ++ o1' ∧
    drop c base = gap ++ seg ++ drop e base ∧
    ∀ rest m, splice base e rest = Some m → splice base c (r :: rest) = Some (gap ++ region_new r ++ m).
Proof.
  intros H1 H2 Hf e. set (gap := take (base_start r - c) (drop c base)).
  set (seg := take (base_len r) (drop (base_start r) base)). apply splice_cons in H1 as (Hc & o1 & E1 & ->).
  pose proof (splice_bound _ _ _ _ E1).
  destruct (splice_skip _ _ e _ _ H2) as (o1' & E1' & ->); [lia|done|].
  assert (take (e - c) (drop c base) = gap ++ seg) as Eg.
  { rewrite (slice_split _ c (base_start r) e) by lia. unfold gap, seg. do 2 f_equal. lia. }
  exists gap, seg, o1, o1'. split_and!; [done..| | |].
  - by rewrite Eg, <- app_assoc.
  - pose proof (slice_split base c e (length base)) as Hs. rewrite !slice_tail, Eg in Hs.
    rewrite Hs by lia. by rewrite <- app_assoc.
  - intros rest m Hm. apply splice_cons. eauto.
Qed.

Section merge.
Context (base : list DiffLine).

(** The regions from [c] on merge into parts, in whichever order they are given. *)
Definition merges (c : nat) (rs1 rs2 : list MergeRegion) (o t : list DiffLine) : Prop :=
  sort_regions (rs1 ++ rs2) = sort_regions (rs2 ++ rs1) ∧
  ∃ parts m, splice base c (sort_regions (rs1 ++ rs2)) = Some m ∧ cut (drop c base) o t m parts.

Definition part_swap (p : part) : part := (p.1.1, p.2, p.1.2).

Lemma merges_sym c rs1 rs2 o t : merges c rs1 rs2 o t → merges c rs2 rs1 t o.
Proof.
  intros (E & parts & m & Em & Hb & Ho & Ht & Hm & Hf). split; [done|].
  exists (map part_swap parts), m. rewrite <- E. split; [done|]. unfold cut.
  rewrite !map_map. split_and!; [done..| |].
  - rewrite <- Hm. f_equal. apply map_ext_Forall. eapply list.Forall_impl; [done|].
    intros [[b o'] t'] [H|H]; unfold part_pick; cbn in *; repeat case_bool_decide; congruence.
  - apply Forall_map. eapply list.Forall_impl; [done|]. intros [[b o'] t'] [H|H]; [by right|by left].
Qed.

Lemma merges_step c a rs1 rs2 o t :
  splice base c (a :: rs1) = Some o → splice base c rs2 = Some t →
  Forall (λ r, base_start a + base_len a ≤ base_start r) rs2 →
  Forall (λ r, region_leb r a = false) rs2 →
  (∀ o1 t1, splice base (base_start a + base_len a) rs1 = Some o1 →
     splice base (base_start a + base_len a) rs2 = Some t1 →
     merges (base_start a + base_len a) rs1 rs2 o1 t1) →
  merges c (a :: rs1) rs2 o t.
Proof.
  intros H1 H2 Hf Hl IH. pose proof (splice_starts _ _ _ _ _ H1) as Hs.
  destruct (splice_next _ _ _ _ _ _ _ H1 H2 Hf) as (g & e & o1 & t1 & E1 & E2 & -> & -> & Hd & Hm).
  destruct (IH o1 t1 E1 E2) as (Es & parts & m & Em & Hc).
  assert (∀ l, Forall (λ r, base_start a + base_len a ≤ base_start r) l →
    Forall (λ r, region_leb a r = true) l) as Hle.
  { intros l Hall. eapply list.Forall_impl; [exact Hall|]. intros. by apply leb_of_end. }
  assert (sort_regions ((a :: rs1) ++ rs2) = a :: sort_regions (rs1 ++ rs2)) as Ea.
  { apply (sort_min a []); [constructor|]. cbn [app]. apply Hle, Forall_app. done. }
  split.
  - rewrite Ea, Es, sort_min; [done..|]. apply Hle, Forall_app. done.
  - rewrite Ea. exists ((g, g, g) :: (e, region_new a, e) :: parts), (g ++ region_new a ++ m).
    split; [by apply Hm|]. rewrite Hd.
    apply (cut_app g g g g [(g, g, g)] _ _ _ _ (_ :: parts)); [apply cut_ours|].
    apply (cut_app e _ e _ [(e, region_new a, e)]); [apply cut_ours|done].
Qed.

(** What starts after the end of [a], and does not overlap it. *)
Lemma all_after c a b rs o :
  splice base c (b :: rs) = Some o → base_start a + base_len a ≤ base_start b →
  (∀ y, y ∈ b :: rs → region_overlap a y = false) →
  Forall (λ r, base_start a + base_len a ≤ base_start r) (b :: rs) ∧
  Forall (λ r, region_leb r a = false) (b :: rs).
Proof.
  intros H He Ha.
  assert (Forall (λ r, base_start a + base_len a ≤ base_start r) (b :: rs)) as Hf.
  { constructor; [done|]. eapply list.Forall_impl; [by eapply splice_starts|]. cbn. lia. }
  split; [done|]. rewrite list.Forall_forall in Hf |- *. intros y Hy. specialize (Hf y Hy). cbn in Hf.
  destruct (apart_order a y (Ha y Hy)) as [(_ & E & _)|(_ & E & _)]; [done|].
  rewrite leb_of_end in E; done.
Qed.

Lemma merge_parts : ∀ n c rs1 rs2 o t,
  length rs1 + length rs2 ≤ n →
  splice base c rs1 = Some o → splice base c rs2 = Some t → apart rs1 rs2 → merges c rs1 rs2 o t.
Proof.
  induction n as [|n IH]; intros c rs1 rs2 o t Hn H1 H2 Ha;
    destruct rs1 as [|a rs1], rs2 as [|b rs2]; cbn in Hn; try lia.
  1, 2: pose proof (splice_bound _ _ _ _ H1); rewrite splice_nil in H1, H2 by done; simplify_eq;
    split; [done|]; exists [(drop c base, drop c base, drop c base)], (drop c base);
    (split; [by apply splice_nil|]); apply cut_ours.
  - apply merges_sym, merges_step; [done..|]. intros. apply IH; [cbn; lia|done..|].
    intros ??? []%not_elem_of_nil.
  - apply merges_step; [done..|]. intros. apply IH; [cbn; lia|done..|]. intros ???[]%not_elem_of_nil.
  - destruct (apart_order a b) as [(_ & _ & He)|(_ & _ & He)]; [apply Ha; constructor|..].
    + destruct (all_after _ _ _ _ _ H2 He) as [Hf Hl]; [intros; apply Ha; [constructor|done]|].
      apply merges_step; [done..|]. intros. apply IH; [cbn; lia|done..|].
      intros x y Hx Hy. apply Ha; [by constructor|done].
    + destruct (all_after _ _ _ _ _ H1 He) as [Hf Hl];
        [intros; rewrite region_overlap_sym; apply Ha; [done|constructor]|].
      apply merges_sym, merges_step; [done..|]. intros. apply IH; [cbn; lia|done..|].
      intros x y Hx Hy. rewrite region_overlap_sym. apply Ha; [done|by constructor].
Qed.
End merge.

Lemma merge_regions_parts base ours theirs :
  apart (changed_regions base ours) (changed_regions base theirs) →
  merges base 0 (changed_regions base ours) (changed_regions base theirs) ours theirs.
Proof. intros H. eapply merge_parts; [done|apply changed_regions_splice..|done]. Qed.

Lemma proper_no_newline ls : proper_lines ls → Forall (λ l, NL ∉ text l) ls.
Proof. induction 1; by repeat constructor. Qed.

Lemma proper_of_newlines ls :
  Forall (λ l, has_newline l = true) ls → Forall (λ l, NL ∉ text l) ls → proper_lines ls.
Proof.
  induction 1 as [|[t n] ls Hn H IH]; intros Hf; [constructor|]. inv Hf. cbn in *. subst.
  constructor; auto.
Qed.

(** A property of the lines of the inputs holds of the merged lines. *)
Lemma cut_Forall (Q : DiffLine → Prop) b o t m parts :
  cut b o t m parts → Forall Q o → Forall Q t → Forall Q m.
Proof.
  intros (_ & <- & <- & <- & _). rewrite !Forall_concat, !Forall_map.
  rewrite !list.Forall_forall. intros Ho Ht p Hp. unfold part_pick.
  case_bool_decide; [by apply Ht|by apply Ho].
Qed.

(** ** The merge *)

(** C12: [merge_blob_3way] is a three-way merge and conflicts only when it must. When it
    returns a text and the sides differ, the splice stayed within the base, and base,
    ours, theirs and the result are cut into the same parts, at most one side differs
    from the base in each, and the part of the result is that side's; the result
    splits into just these lines when the lines of both sides all end in a newline.
    It returns a
    conflict exactly when the sides differ and an input is binary or two changed
    regions overlap. *)
Theorem merge_blob_3way_spec (base ours theirs : bytes) :
  let b := split_lines base in
  let o := split_lines ours in
  let t := split_lines theirs in
  match merge_blob_3way base ours theirs with
  | Some merged =>
      (ours = theirs ∧ merged = ours) ∨
      ∃ parts m, cut b o t m parts ∧ merged = emit_lines m ∧
        apply_merge_regions b (changed_regions b o) (changed_regions b t) = Some merged ∧
        (Forall (λ l, has_newline l = true) (o ++ t) → split_lines merged = m)
  | None =>
      ours ≠ theirs ∧
      (is_binary base = true ∨ is_binary ours = true ∨ is_binary theirs = true ∨
       ∃ x y, x ∈ changed_regions b o ∧ y ∈ changed_regions b t ∧ region_overlap x y = true)
  end.
Proof.
  cbn zeta. unfold merge_blob_3way. destruct (bytes_eqb ours theirs) eqn:E.
  { apply bytes_eqb_eq in E. by left. }
  assert (ours ≠ theirs) as Hne by (intros ->; by rewrite (proj2 (bytes_eqb_eq _ _)) in E).
  destruct (is_binary base) eqn:B1, (is_binary ours) eqn:B2, (is_binary theirs) eqn:B3;
    cbn [orb]; try (split; [done|tauto]).
  destruct (regions_overlap _ _) eqn:Eo.
  - split; [done|]. do 3 right. apply existsb_exists in Eo as (x & Hx & (y & Hy & Ho)%existsb_exists).
    exists x, y. by rewrite !list_elem_of_In.
  - apply regions_overlap_false in Eo. right.
    destruct (merge_regions_parts _ _ _ Eo) as (_ & parts & m & Em & Hc).
    exists parts, m. unfold apply_merge_regions. rewrite Em. split_and!; [done..|].
    intros [Ho Ht]%Forall_app. apply split_emit_lines, proper_of_newlines;
      eapply cut_Forall; try done; apply proper_no_newline, split_lines_proper.
Qed.

(** The merge does not depend on which side is called ours. *)
Theorem merge_blob_3way_comm (base ours theirs : bytes) :
  merge_blob_3way base ours theirs = merge_blob_3way base theirs ours.
Proof.
  unfold merge_blob_3way. rewrite (bytes_eqb_sym theirs ours).
  destruct (bytes_eqb ours theirs) eqn:E; [by apply bytes_eqb_eq in E as ->|].
  rewrite <- !orb_assoc, (orb_comm (is_binary theirs)), !orb_assoc.
  destruct (_ || _ || _); [done|].
  set (x := changed_regions _ _). set (y := changed_regions _ _).
  assert (regions_overlap y x = regions_overlap x y) as ->.
  { apply eq_true_iff_eq. rewrite <- !not_false_iff_true, !regions_overlap_false. unfold apart.
    setoid_rewrite region_overlap_sym at 1. naive_solver. }
  destruct (regions_overlap x y) eqn:Eo; [done|]. apply regions_overlap_false in Eo.
  destruct (merge_regions_parts _ _ _ Eo) as (Es & _). unfold apply_merge_regions, x, y.
  by rewrite Es.
Qed.

(** A side that did not change the base does not change the other: merging a text
    with the unchanged base gives that text, byte for byte, unless the content is
    binary and really changed. *)
Theorem merge_blob_3way_one_side (base side : bytes) :
  merge_blob_3way base side base =
  if bytes_eqb side base || negb (is_binary base || is_binary side) then Some side else None.
Proof.
  unfold merge_blob_3way. destruct (bytes_eqb side base) eqn:E; [done|]. cbn [orb].
  rewrite (orb_comm (_ || _)), orb_assoc, orb_diag.
  destruct (_ || _); [done|]. cbn [negb]. rewrite changed_regions_self.
  assert (∀ rs, regions_overlap rs [] = false) as -> by (intros rs; by induction rs).
  pose proof (changed_regions_splice (split_lines base) (split_lines side)) as Hs.
  unfold apply_merge_regions. rewrite app_nil_r, (sort_of_splice _ _ _ _ Hs), Hs.
  cbn [fmap option_fmap option_map from_option id]. by rewrite emit_split_lines.
Qed.

(** The merge can glue two lines together. When ours appends a line after a last
    line that theirs strips of its newline, the changed regions touch but do not
    overlap, and the merged text is neither side's: the appended line continues the
    stripped one. *)
Theorem merge_blob_3way_glues :
  merge_blob_3way (b# "a" ++ [NL]) (b# "a" ++ [NL] ++ b# "b" ++ [NL]) (b# "a")
  = Some (b# "ab" ++ [NL]).
Proof. vm_compute. exact eq_refl. Qed.
