(* ===== verification/Hunks.v ===== *)
(** * Hunks and their partial application

    The hunks of an edit script cut it into unchanged gaps and hunks; applying a
    selection of the hunks to the old text takes the new lines of the selected
    hunks and the old lines everywhere else. *)

From S2P Require Import Prelude Diff Myers EditScript LineMerge.

Local Open Scope nat_scope.

(** ** Ranges *)

Section ranges.
Context (ops : list DiffOp) (context : nat).
Hypothesis Hcontext : 0 < context.

Definition changed_at (i : nat) : bool := is_change (nth i ops (OpEqual 0 0)).

Definition end_of (ranges : list (nat * nat)) : nat :=
  match ranges with [] => 0 | (_, e) :: _ => e end.

(** The ranges so far, last first: every change before [bound] is in one, they are
    apart, and each starts at the start of the script or at an unchanged line. *)
Fixpoint ranges_inv (bound : nat) (ranges : list (nat * nat)) : Prop :=
  (∀ i, end_of ranges ≤ i < bound → changed_at i = false) ∧
  match ranges with
  | [] => True
  | (s, e) :: rest =>
      s < e ≤ length ops ∧ (s = 0 ∨ changed_at s = false) ∧ end_of rest ≤ s ∧ ranges_inv s rest
  end.

Lemma add_range_inv bound p ranges :
  ranges_inv bound ranges → bound ≤ p < length ops →
  (∀ i, bound ≤ i < p → changed_at i = false) →
  ranges_inv (S p) (add_range context (length ops) ranges p).
Proof.
  intros Hr Hp Hb.
  assert (∀ i, end_of ranges ≤ i < p → changed_at i = false) as Hu.
  { intros i Hi. destruct (decide (i < bound)); [|apply Hb; lia].
    destruct ranges; apply Hr; lia. }
  assert (∀ start, start = p - context → end_of ranges ≤ start →
    ranges_inv (S p) ((start, Nat.min (p + context + 1) (length ops)) :: ranges)) as Hnew.
  { intros start -> Hs. cbn [ranges_inv end_of]. split; [intros; lia|]. split; [lia|]. split.
    - destruct (decide (p = 0)); [left; lia|right]. apply Hu. lia.
    - split; [done|]. destruct ranges as [|[s e] rest]; cbn [ranges_inv] in *;
        (split; [intros; apply Hu; lia|apply Hr]). }
  unfold add_range. destruct ranges as [|[s e] rest]; [apply Hnew; cbn; lia|].
  destruct (Nat.leb_spec (p - context) e) as [Hle|Hgt].
  - destruct Hr as (_ & Hse & Hs & He & Hrest). cbn [ranges_inv end_of].
    split; [intros; lia|]. split; [lia|]. done.
  - apply Hnew; [done|]. cbn. lia.
Qed.

Lemma hunk_ranges_inv_fold l bound ranges :
  ranges_inv bound ranges → bound + l ≤ length ops →
  ranges_inv (bound + l)
    (foldl (add_range context (length ops)) ranges (List.filter changed_at (seq bound l))).
Proof.
  revert bound ranges. induction l as [|l IH]; intros bound ranges Hr Hl.
  - by rewrite Nat.add_0_r.
  - rewrite <- Nat.add_succ_comm. cbn [seq List.filter].
    destruct (changed_at bound) eqn:E; cbn [foldl]; (apply IH; [|lia]).
    + apply (add_range_inv bound); [done|lia|intros; lia].
    + assert (∀ i, end_of ranges ≤ i < S bound → changed_at i = false) as Hu.
      { intros i Hi. destruct (decide (i = bound)) as [->|]; [done|].
        destruct ranges; apply Hr; lia. }
      destruct ranges as [|[s e] rest]; (split; [done|apply Hr]).
Qed.

(** ** Segments *)

Abbreviation unchanged := (λ op, is_change op = false).

(** The script cut into gaps and hunks: gaps hold no change, and a hunk that is not
    at the start of the script opens with an unchanged line. *)
Fixpoint segments_ok (first : bool) (segs : list (list DiffOp * list DiffOp)) : Prop :=
  match segs with
  | [] => True
  | (g, h) :: segs =>
      Forall unchanged g ∧ ((first = true ∧ g = []) ∨ ∃ op h', h = op :: h' ∧ unchanged op) ∧
      segments_ok false segs
  end.

Lemma segments_ok_snoc first segs g h :
  segments_ok first segs → Forall unchanged g →
  ((first = true ∧ segs = [] ∧ g = []) ∨ ∃ op h', h = op :: h' ∧ unchanged op) →
  segments_ok first (segs ++ [(g, h)]).
Proof.
  revert first. induction segs as [|[g' h'] segs IH]; intros first Hs Hg Hh; cbn in *.
  - split; [done|]. split; [|done]. naive_solver.
  - destruct Hs as (H1 & H2 & H3). split; [done|]. split; [done|]. apply IH; [done..|].
    destruct Hh as [(_ & ? & _)|]; [done|]. by right.
Qed.

Definition flat (segs : list (list DiffOp * list DiffOp)) : list DiffOp :=
  concat (map (λ s, s.1 ++ s.2) segs).

Definition range_slice (r : nat * nat) : list DiffOp := take (r.2 - r.1) (drop r.1 ops).

Lemma unchanged_slice a b :
  b ≤ length ops → (∀ i, a ≤ i < b → changed_at i = false) →
  Forall unchanged (take (b - a) (drop a ops)).
Proof.
  intros Hb H. apply list.Forall_lookup. intros i op Hi.
  apply lookup_take_Some in Hi as [Hi Hlt]. rewrite lookup_drop in Hi.
  specialize (H (a + i)). unfold changed_at in H. erewrite nth_lookup_Some in H by done.
  apply H. lia.
Qed.

Lemma ranges_segments bound ranges :
  ranges_inv bound ranges →
  ∃ segs, take (end_of ranges) ops = flat segs ∧
    map range_slice (reverse ranges) = map snd segs ∧ segments_ok true segs.
Proof.
  revert bound. induction ranges as [|[s e] rest IH]; intros bound H.
  { exists []. by rewrite take_0. }
  destruct H as (_ & Hse & Hs & He & Hrest). destruct (IH s Hrest) as (segs & Et & Em & Hok).
  assert (∀ i, end_of rest ≤ i < s → changed_at i = false) as Hgap by (by destruct rest; apply Hrest).
  exists (segs ++ [(take (s - end_of rest) (drop (end_of rest) ops), range_slice (s, e))]).
  split_and!.
  - unfold flat in *. rewrite map_app, concat_app, <- Et. cbn. rewrite app_nil_r.
    unfold range_slice. cbn. rewrite app_assoc.
    replace (take (end_of rest) ops ++ take (s - end_of rest) (drop (end_of rest) ops))
      with (take s ops) by (rewrite take_take_drop; f_equal; lia).
    rewrite take_take_drop. f_equal. lia.
  - rewrite reverse_cons, !map_app, Em. done.
  - apply segments_ok_snoc; [done|apply unchanged_slice; [lia|done]|].
    destruct Hs as [->|Hs].
    + left. split; [done|]. assert (end_of rest = 0) as E by lia. rewrite E. split; [|done].
      destruct rest as [|[s' e'] rest]; [|cbn in E; destruct Hrest as (_ & ? & _); lia].
      by destruct segs.
    + right. unfold range_slice. cbn. rewrite (drop_nth ops (OpEqual 0 0)) by lia.
      destruct (e - s) eqn:E; [lia|]. cbn. eauto.
Qed.

(** The hunks of a script. *)
Lemma group_hunks_segments :
  ∃ segs tail, ops = flat segs ++ tail ∧ Forall unchanged tail ∧ segments_ok true segs ∧
    group_hunks ops context = map (λ s, build_hunk s.2) segs.
Proof.
  pose proof (hunk_ranges_inv_fold (length ops) 0 []) as H. cbn [Nat.add] in H.
  destruct (ranges_segments (length ops)
    (foldl (add_range context (length ops)) [] (List.filter changed_at (seq 0 (length ops)))))
    as (segs & Et & Em & Hok).
  { apply H; [|lia]. split; [intros; cbn in *; lia|done]. }
  set (ranges := foldl _ _ _) in *.
  assert (ranges_inv (length ops) ranges) as Hr by (apply H; [split; [intros; cbn in *; lia|done]|lia]).
  exists segs, (drop (end_of ranges) ops). split_and!.
  - by rewrite <- Et, take_drop.
  - rewrite <- (take_ge (drop (end_of ranges) ops) (length ops - end_of ranges))
      by (rewrite length_drop; lia).
    apply unchanged_slice; [done|]. intros i Hi. destruct ranges; by apply Hr.
  - done.
  - unfold group_hunks, hunk_ranges, change_positions. fold changed_at. fold ranges.
    rewrite <- (map_map snd build_hunk), <- Em, map_map. done.
Qed.
End ranges.

(** ** The lines of a stretch of a script *)

Section apply.
Context (old new : list DiffLine).

Definition old_lines (ops : list DiffOp) : list DiffLine :=
  map (λ i, nth i old no_line) (omap old_index ops).

Definition new_line (op : DiffOp) : option DiffLine :=
  match op with
  | OpEqual i _ => Some (nth i old no_line)
  | OpDelete _ => None
  | OpInsert j => Some (nth j new no_line)
  end.
Definition new_lines (ops : list DiffOp) : list DiffLine := omap new_line ops.

Lemma old_lines_app a b : old_lines (a ++ b) = old_lines a ++ old_lines b.
Proof. unfold old_lines. by rewrite omap_app, map_app. Qed.

Lemma new_lines_app a b : new_lines (a ++ b) = new_lines a ++ new_lines b.
Proof. apply omap_app. Qed.

Lemma unchanged_lines ops : Forall (λ op, is_change op = false) ops → new_lines ops = old_lines ops.
Proof.
  induction 1 as [|op ops Hop Hops IH]; [done|]. destruct op; try done.
  unfold new_lines, old_lines in *. cbn. by rewrite IH.
Qed.

Lemma valid_indices i j ops :
  valid_upto Exact old new i j ops →
  omap old_index ops = seq 0 i ∧ new_lines ops = take j new.
Proof.
  induction 1 as [|i j ops H [IH1 IH2] Hi Hj Hl|i j ops H [IH1 IH2] Hi|i j ops H [IH1 IH2] Hj];
    [split; [done|by rewrite take_0]|..]; rewrite new_lines_app, IH2, omap_app, IH1; rewrite ?seq_S, ?(take_S_nth _ no_line) by done;
    cbn; rewrite ?app_nil_r; [|done..].
  apply line_eq_Exact in Hl. by rewrite Hl.
Qed.

Lemma lines_of_indices ops i k :
  omap old_index ops = seq i k → i + k ≤ length old → old_lines ops = take k (drop i old).
Proof.
  intros E Hk. unfold old_lines. rewrite E. clear E. revert i Hk.
  induction k as [|k IH]; intros i Hk; [by rewrite take_0|]. cbn.
  rewrite (drop_nth old no_line) by lia. cbn. f_equal. apply IH. lia.
Qed.

Lemma patch_lines h :
  map hl_line (List.filter (λ l, negb (is_removed l)) (ph_lines (to_patch_hunk old new (build_hunk h))))
  = new_lines h.
Proof.
  cbn. induction h as [|op h IH]; [done|]. unfold new_lines in *. destruct op; cbn; by rewrite IH.
Qed.

(** The gap, the old lines and the new lines of a segment. *)
Definition piece : Type := list DiffLine * list DiffLine * list DiffLine.
Definition piece_of (s : list DiffOp * list DiffOp) : piece :=
  (old_lines s.1, old_lines s.2, new_lines s.2).
Definition piece_old (p : piece) : list DiffLine := p.1.1 ++ p.1.2.
Definition piece_new (p : piece) : list DiffLine := p.1.1 ++ p.2.

(** The pieces with the new lines of the selected ones, counting from [k]. *)
Fixpoint selected_lines (selected : list nat) (k : nat) (pieces : list piece) : list DiffLine :=
  match pieces with
  | [] => []
  | p :: pieces =>
      (if existsb (Nat.eqb k) selected then piece_new p else piece_old p) ++
      selected_lines selected (S k) pieces
  end.

Lemma slice_indices ops i k rest_k :
  omap old_index ops = seq i k → i + k + rest_k = length old →
  slice old i (i + k) = Some (old_lines ops).
Proof.
  intros E Hk. rewrite (lines_of_indices ops i k) by (done || lia).
  rewrite slice_ok by lia. do 2 f_equal. lia.
Qed.

Lemma seq_app_inv (l1 l2 : list nat) i k :
  l1 ++ l2 = seq i k →
  length l1 ≤ k ∧ l1 = seq i (length l1) ∧ l2 = seq (i + length l1) (k - length l1).
Proof.
  intros E. assert (length l1 + length l2 = k) as Hk by (by rewrite <- length_app, E, length_seq).
  split; [lia|]. rewrite <- Hk in E. rewrite seq_app in E.
  apply app_inj_1 in E as [E1 E2]; [|by rewrite length_seq].
  split; [done|]. rewrite E2 at 1. f_equal. lia.
Qed.

Lemma apply_hunks_segments selected tail : ∀ segs first k i,
  segments_ok first segs → (first = true → i = 0) →
  omap old_index (flat segs ++ tail) = seq i (length old - i) → i ≤ length old →
  apply_hunks old selected k i (map (λ s, to_patch_hunk old new (build_hunk s.2)) segs) =
  Some (selected_lines selected k (map piece_of segs) ++ old_lines tail).
Proof.
  induction segs as [|[g h] segs IH]; intros first k i Hok Hfirst Hi Hle.
  - cbn [map apply_hunks flat concat app selected_lines] in *.
    rewrite <- (slice_indices tail i (length old - i) 0 Hi) by lia. f_equal. lia.
  - destruct Hok as (Hg & Hh & Hok). unfold flat in Hi. cbn [map concat fst snd] in Hi.
    fold (flat segs) in Hi. rewrite <- !app_assoc, omap_app in Hi.
    apply seq_app_inv in Hi as (Hgl & Eg & Hi). rewrite omap_app in Hi.
    apply seq_app_inv in Hi as (Hhl & Eh & Hi).
    set (lg := length (omap old_index g)) in *. set (lh := length (omap old_index h)) in *.
    cbn [map apply_hunks snd].
    assert (region_start_of (to_patch_hunk old new (build_hunk h)) = Some (i + lg)) as ->.
    { unfold region_start_of. cbn. fold lh. destruct Hh as [[Hf ->]|(op & h' & -> & Hop)].
      - rewrite (Hfirst Hf) in *. cbn in lg. subst lg. rewrite Eh. fold lh.
        destruct lh; done.
      - destruct op as [a b| |]; try done. cbn in lh. cbn. cbn in Eh. subst lh.
        injection Eh as Ea _. by rewrite Ea. }
    cbn [mbind option_bind]. change (ph_old_len _) with lh.
    rewrite !Nat.min_l by lia.
    rewrite (slice_indices g i lg (length old - i - lg)) by (done || lia). cbn [mbind option_bind].
    rewrite patch_lines.
    rewrite (slice_indices h (i + lg) lh (length old - i - lg - lh)) by (done || lia).
    assert ((if existsb (Nat.eqb k) selected then Some (new_lines h) else Some (old_lines h)) =
      Some (if existsb (Nat.eqb k) selected then new_lines h else old_lines h)) as -> by by case_match.
    cbn [mbind option_bind].
    rewrite (IH false (S k) (i + lg + lh)); [|done|done| |lia].
    + cbn [mbind option_bind map selected_lines]. f_equal.
      unfold piece_new, piece_old, piece_of. cbn. case_match; by rewrite <- !app_assoc.
    + rewrite Hi. f_equal. lia.
Qed.

Lemma pieces_lines segs :
  segments_ok true segs → ∀ tail, Forall (λ op, is_change op = false) tail →
  old_lines (flat segs ++ tail) = concat (map piece_old (map piece_of segs)) ++ old_lines tail ∧
  new_lines (flat segs ++ tail) = concat (map piece_new (map piece_of segs)) ++ old_lines tail.
Proof.
  intros Hok tail Ht. rewrite old_lines_app, new_lines_app, (unchanged_lines tail) by done.
  assert (∀ first, segments_ok first segs →
    old_lines (flat segs) = concat (map piece_old (map piece_of segs)) ∧
    new_lines (flat segs) = concat (map piece_new (map piece_of segs))) as H.
  { clear Hok. induction segs as [|[g h] segs IH]; intros first Hok; [done|].
    destruct Hok as (Hg & _ & Hok). destruct (IH _ Hok) as [IH1 IH2]. unfold flat in *.
    cbn [map concat fst snd]. rewrite !old_lines_app, !new_lines_app, IH1, IH2.
    by rewrite (unchanged_lines g). }
  destruct (H true Hok) as [-> ->]. done.
Qed.
End apply.

Lemma selected_all pieces k selected :
  (∀ i, k ≤ i < k + length pieces → existsb (Nat.eqb i) selected = true) →
  selected_lines selected k pieces = concat (map piece_new pieces).
Proof.
  revert k. induction pieces as [|p pieces IH]; intros k H; [done|]. cbn in *.
  rewrite H by lia. by rewrite IH by (intros; apply H; lia).
Qed.

Lemma selected_none pieces k : selected_lines [] k pieces = concat (map piece_old pieces).
Proof. revert k. induction pieces as [|p pieces IH]; intros k; [done|]. cbn. by rewrite IH. Qed.

(** C13: applying a selection of hunks to the old text stages exactly these hunks. The
    hunks of two texts cut the old and the new text into unchanged gaps and one piece
    per hunk; for every selection, in whatever order and with whatever indices out of
    range, [apply_hunks_subset] does not panic and gives the new lines of the selected
    pieces and the old lines of the others. All hunks give the new text, none the old.
    There are no hunks only when a text is binary. *)
Theorem apply_hunks_subset_spec (old_bytes new_bytes : bytes) :
  match enumerate_hunks old_bytes new_bytes with
  | None => is_binary old_bytes = true ∨ is_binary new_bytes = true
  | Some hunks =>
      (∃ pieces tail, length pieces = length hunks ∧
        split_lines old_bytes = concat (map piece_old pieces) ++ tail ∧
        split_lines new_bytes = concat (map piece_new pieces) ++ tail ∧
        ∀ selected, apply_hunks_subset old_bytes hunks selected =
          Some (emit_lines (selected_lines selected 0 pieces ++ tail))) ∧
      apply_hunks_subset old_bytes hunks (seq 0 (length hunks)) = Some new_bytes ∧
      apply_hunks_subset old_bytes hunks [] = Some old_bytes
  end.
Proof.
  unfold enumerate_hunks. destruct (is_binary old_bytes), (is_binary new_bytes); cbn [orb]; auto.
  set (old := split_lines old_bytes). set (new := split_lines new_bytes).
  destruct (edit_script_good Exact old new) as (_ & Hv & _).
  destruct (valid_indices _ _ _ _ _ Hv) as [Ei En].
  destruct (group_hunks_segments (edit_script old new Exact) PATCH_CONTEXT)
    as (segs & tail & Eops & Ht & Hok & Eg); [unfold PATCH_CONTEXT; lia|].
  rewrite Eg, map_map, length_map. rewrite Eops in Ei, En.
  destruct (pieces_lines old new segs Hok tail Ht) as [Eo Enw].
  rewrite (lines_of_indices old _ 0 (length old)), drop_0, take_ge in Eo by (done || lia).
  rewrite En, take_ge in Enw by done.
  assert (∀ selected, apply_hunks_subset old_bytes
      (map (λ s, to_patch_hunk old new (build_hunk s.2)) segs) selected =
    Some (emit_lines (selected_lines selected 0 (map (piece_of old new) segs) ++ old_lines old tail)))
    as Ha.
  { intros selected. unfold apply_hunks_subset. fold old.
    rewrite (apply_hunks_segments old new selected tail segs true); [done|done|done| |lia].
    by rewrite Nat.sub_0_r. }
  split; [exists (map (piece_of old new) segs), (old_lines old tail)|].
  - by rewrite length_map.
  - rewrite !Ha, selected_none, <- Eo, selected_all, <- Enw.
    + unfold old, new. by rewrite !emit_split_lines.
    + intros i Hi. rewrite length_map in Hi. apply existsb_exists. exists i.
      split; [apply in_seq; lia|by apply Nat.eqb_eq].
Qed.

(** Without context lines a pure insertion has no old line to be numbered by, so its
    header says that it follows line 0 of the old text, wherever it is. *)
Theorem hunk_without_context_loses_its_place :
  unified_hunks_opts (b# "a" ++ [NL] ++ b# "b" ++ [NL])
    (b# "a" ++ [NL] ++ b# "x" ++ [NL] ++ b# "b" ++ [NL]) 0 Exact
  = Some (b# "@@ -0,0 +2 @@" ++ [NL] ++ b# "+x" ++ [NL]).
Proof. vm_compute. exact eq_refl. Qed.
