(* ===== verification/Content.v ===== *)
(** * File content

    Models [rust/crates/mkit-core/src/worktree/blob.rs]: a file's content is a
    blob or a chunked blob over blobs; reading it back, its fingerprint, and its
    comparison by two cursors, by aligned chunks, and with bytes in hand. The
    loops read as they go, so they are loops over the source; they end because
    every round consumes a chunk or, with no chunk consumed, buffered bytes. *)

From S2P Require Import Prelude Hash Object Serialize ObjectId Store.

(** [WorktreeError], its variants that these functions return. *)
Inductive WorktreeError :=
  | WtStore (e : StoreError)
  | WtIo (e : io_error)
  | WtObject (e : MkitError)
  | WtFileTooLarge (path : bytes)
  | WtChunkBatchLengthMismatch (expected actual : nat).

(** A computation with errors [E] that reads through a source [S]. *)
Definition ME (E S A : Type) : Type := S → result E A * S.

Definition me_bind {E S A B} (m : ME E S A) (f : A → ME E S B) : ME E S B := λ s,
  match m s with
  | (Ok a, s) => f a s
  | (Err e, s) => (Err e, s)
  end.
Definition me_lift {E S A} (r : result E A) : ME E S A := λ s, (r, s).
(** [?] with [From<StoreError> for WorktreeError]. *)
Definition wt {S A} (m : M S A) : ME WorktreeError S A := λ s,
  let '(r, s) := m s in
  (match r with Ok a => Ok a | Err e => Err (WtStore e) end, s).

(** [checked_add] on [u64]. *)
Definition checked_add (a b : N) : option N :=
  if (a + b <? 2 ^ 64)%N then Some (a + b)%N else None.

Definition no_blob : io_error := OtherError (b# "content object is not a Blob or ChunkedBlob").

(** [not_a_blob]. *)
Definition not_a_blob (what : bytes) (h : hash32) (got : Object) : WorktreeError :=
  WtIo (OtherError (what ++ b# " " ++ to_hex h ++ b# " is not a blob (got " ++
                    ObjectType.name (object_type got) ++ b# ")")).

Section content.
Context `{B : Blake3} {S : Type} `{!ObjectSource S}.

(** ** Reading content back *)

Inductive LoadedBlob :=
  | Inline (data : bytes)
  | Chunked (manifest : ChunkedBlob).

Definition load (h : hash32) : ME WorktreeError S LoadedBlob :=
  me_bind (wt (src_read_object h)) (λ o, me_lift
    match o with
    | OBlob b => Ok (Inline (blob_data b))
    | OChunkedBlob manifest => Ok (Chunked manifest)
    | other => Err (not_a_blob (b# "object") h other)
    end).

Definition loaded_len (l : LoadedBlob) : N :=
  match l with
  | Inline data => lenN data
  | Chunked manifest => cb_total_size manifest
  end.

Definition loaded_is_empty (l : LoadedBlob) : bool := (loaded_len l =? 0)%N.

Definition loaded_empty : LoadedBlob := Inline [].

Definition read_chunk (chunk : hash32) : ME WorktreeError S bytes :=
  me_bind (wt (src_read_object chunk)) (λ o, me_lift
    match o with
    | OBlob b => Ok (blob_data b)
    | other => Err (not_a_blob (b# "chunk") chunk other)
    end).

(** The loop of [prefix]: [data] has been gathered. *)
Fixpoint prefix_chunks (max_len : nat) (data : bytes) (chunks : list hash32)
    : ME WorktreeError S bytes :=
  match chunks with
  | [] => me_lift (Ok data)
  | chunk :: chunks =>
      if max_len <=? length data then me_lift (Ok data)
      else me_bind (read_chunk chunk) (λ d, prefix_chunks max_len (data ++ d) chunks)
  end.

Definition loaded_prefix (l : LoadedBlob) (max_len : nat) : ME WorktreeError S bytes :=
  match l with
  | Inline data => me_lift (Ok (take (Nat.min (length data) max_len) data))
  | Chunked manifest =>
      me_bind (prefix_chunks max_len [] (cb_chunks manifest)) (λ data,
        me_lift (Ok (take max_len data)))
  end.

Fixpoint append_chunks (data : bytes) (chunks : list hash32) : ME WorktreeError S bytes :=
  match chunks with
  | [] => me_lift (Ok data)
  | chunk :: chunks => me_bind (read_chunk chunk) (λ d, append_chunks (data ++ d) chunks)
  end.

Definition into_content (l : LoadedBlob) : ME WorktreeError S bytes :=
  match l with
  | Inline data => me_lift (Ok data)
  | Chunked manifest =>
      me_bind (append_chunks [] (cb_chunks manifest)) (λ data, me_lift
        match check_reassembled_size manifest (lenN data) with
        | Ok _ => Ok data
        | Err e => Err (WtObject e)
        end)
  end.

Definition read_blob (h : hash32) : ME WorktreeError S bytes := me_bind (load h) into_content.

(** ** Fingerprints *)

Definition read_blob_chunk (chunk : hash32) : M S bytes :=
  m_bind (src_read_object chunk) (λ o, m_lift
    match o with
    | OBlob b => Ok (blob_data b)
    | _ => Err (Io (OtherError (b# "manifest chunk is not a Blob")))
    end).

Fixpoint fingerprint_chunks (size : N) (hasher : b3_state) (chunks : list hash32)
    : M S (N * b3_state) :=
  match chunks with
  | [] => m_ret (size, hasher)
  | chunk :: chunks =>
      m_bind (read_blob_chunk chunk) (λ data,
      m_bind (m_lift (ok_or (checked_add size (lenN data)) ObjectTooLarge)) (λ size,
      fingerprint_chunks size (Hasher_update hasher data) chunks))
  end.

Definition content_fingerprint (h : hash32) : M S (N * hash32) :=
  m_bind (src_read_object h) (λ o,
    match o with
    | OBlob b => m_ret (lenN (blob_data b), Hasher_finalize (Hasher_update Hasher_new (blob_data b)))
    | OChunkedBlob manifest =>
        m_bind (fingerprint_chunks 0 Hasher_new (cb_chunks manifest)) (λ '(size, hasher),
        m_bind (m_lift (decode_err (check_reassembled_size manifest size))) (λ _,
        m_ret (size, Hasher_finalize hasher)))
    | _ => m_lift (Err (Io no_blob))
    end).

(** ** Content cursors *)

Record ContentCursor := {
  cc_data : bytes;
  cc_offset : nat;
  cc_chunks : list hash32;
  cc_expected : N;
  cc_loaded : N
}.

Definition cursor_from_object (o : Object) : result StoreError ContentCursor :=
  match o with
  | OBlob b =>
      Ok {| cc_data := blob_data b; cc_offset := 0; cc_chunks := [];
            cc_expected := lenN (blob_data b); cc_loaded := lenN (blob_data b) |}
  | OChunkedBlob m =>
      Ok {| cc_data := []; cc_offset := 0; cc_chunks := cb_chunks m;
            cc_expected := cb_total_size m; cc_loaded := 0 |}
  | _ => Err (Io no_blob)
  end.

Definition cursor_load (h : hash32) : M S ContentCursor :=
  m_bind (src_read_object h) (λ o, m_lift (cursor_from_object o)).

(** [remaining]: the loop over the chunks not yet read. *)
Fixpoint remaining_from (chunks : list hash32) (data : bytes) (offset : nat) (expected loaded : N)
    : M S (bytes * ContentCursor) :=
  let cursor := {| cc_data := data; cc_offset := offset; cc_chunks := chunks;
                   cc_expected := expected; cc_loaded := loaded |} in
  if Nat.eqb offset (length data) then
    match chunks with
    | [] =>
        if negb (loaded =? expected)%N
        then m_lift (Err (Decode (ChunkedBlobSizeMismatch expected loaded)))
        else m_ret ([], cursor)
    | chunk :: chunks =>
        m_bind (read_blob_chunk chunk) (λ data,
        m_bind (m_lift (ok_or (checked_add loaded (lenN data)) ObjectTooLarge)) (λ loaded,
        remaining_from chunks data 0 expected loaded))
    end
  else m_ret (drop offset data, cursor).

Definition remaining (c : ContentCursor) : M S (bytes * ContentCursor) :=
  remaining_from (cc_chunks c) (cc_data c) (cc_offset c) (cc_expected c) (cc_loaded c).

Definition advance (c : ContentCursor) (n : nat) : ContentCursor :=
  {| cc_data := cc_data c; cc_offset := cc_offset c + n; cc_chunks := cc_chunks c;
     cc_expected := cc_expected c; cc_loaded := cc_loaded c |}.

(** Bytes read and not yet passed. *)
Definition buffered (c : ContentCursor) : nat := length (cc_data c) - cc_offset c.

(** ** [content_eq] *)

(** The local variables of the loop of [content_eq]. *)
Record EqWalk := {
  ew_left : ContentCursor;
  ew_right : ContentCursor;
  ew_equal : bool;
  ew_source : S
}.

Definition eq_step (w : EqWalk) : EqWalk + result StoreError bool * S :=
  match remaining (ew_left w) (ew_source w) with
  | (Err e, s) => inr (Err e, s)
  | (Ok (a, lc), s) =>
      match remaining (ew_right w) s with
      | (Err e, s) => inr (Err e, s)
      | (Ok (b, rc), s) =>
          match a, b with
          | [], [] => inr (Ok (ew_equal w), s)
          | [], _ | _, [] =>
              inl {| ew_left := advance lc (length a); ew_right := advance rc (length b);
                     ew_equal := false; ew_source := s |}
          | _, _ =>
              let count := Nat.min (length a) (length b) in
              inl {| ew_left := advance lc count; ew_right := advance rc count;
                     ew_equal := ew_equal w && bytes_eqb (take count a) (take count b);
                     ew_source := s |}
          end
      end
  end.

Definition eq_chunks_left (w : EqWalk) : nat :=
  length (cc_chunks (ew_left w)) + length (cc_chunks (ew_right w)).
Definition eq_buffered (w : EqWalk) : nat := buffered (ew_left w) + buffered (ew_right w).

Definition cursors_eq (lc rc : ContentCursor) : M S bool := λ s,
  let w := {| ew_left := lc; ew_right := rc; ew_equal := true; ew_source := s |} in
  default (Err ObjectTooLarge, s)
    (loop_refuel (Datatypes.S (eq_chunks_left w)) (λ w, Datatypes.S (eq_buffered w)) eq_step w).

(** ** [chunked_content_eq] *)

(** One side of the walk: the index of the next chunk, the buffered chunk and the
    position in it, the bytes read, and whether a chunk was skipped by its id. *)
Record ChunkSide := {
  cs_next : nat;
  cs_buf : bytes;
  cs_pos : nat;
  cs_read : N;
  cs_skipped : bool
}.

Definition side_new : ChunkSide :=
  {| cs_next := 0; cs_buf := []; cs_pos := 0; cs_read := 0; cs_skipped := false |}.

Definition at_boundary (c : ChunkSide) : bool := Nat.eqb (cs_pos c) (length (cs_buf c)).

Definition skip_one (c : ChunkSide) : ChunkSide :=
  {| cs_next := Datatypes.S (cs_next c); cs_buf := cs_buf c; cs_pos := cs_pos c;
     cs_read := cs_read c; cs_skipped := true |}.

(** The inner loop: a run of chunks with equal ids; [fuel]: the chunks of one side. *)
Fixpoint skip_run (fuel : nat) (ca cb : list hash32) (a b : ChunkSide) : ChunkSide * ChunkSide :=
  match fuel with
  | O => (a, b)
  | Datatypes.S fuel =>
      match ca !! cs_next a, cb !! cs_next b with
      | Some x, Some y =>
          if at_boundary a && at_boundary b && bool_decide (x = y)
          then skip_run fuel ca cb (skip_one a) (skip_one b)
          else (a, b)
      | _, _ => (a, b)
      end
  end.

(** [if pos == buf.len() { buf = match chunks.get(i) .. }]. *)
Definition fill (chunks : list hash32) (c : ChunkSide) : M S ChunkSide :=
  if at_boundary c then
    match chunks !! cs_next c with
    | Some h =>
        m_bind (read_blob_chunk h) (λ data,
        m_bind (m_lift (ok_or (checked_add (cs_read c) (lenN data)) ObjectTooLarge)) (λ total,
        m_ret {| cs_next := Datatypes.S (cs_next c); cs_buf := data; cs_pos := 0;
                 cs_read := total; cs_skipped := cs_skipped c |}))
    | None =>
        m_ret {| cs_next := cs_next c; cs_buf := []; cs_pos := 0; cs_read := cs_read c;
                 cs_skipped := cs_skipped c |}
    end
  else m_ret c.

Definition side_rest (c : ChunkSide) : bytes := drop (cs_pos c) (cs_buf c).

Definition move_to (c : ChunkSide) (pos : nat) : ChunkSide :=
  {| cs_next := cs_next c; cs_buf := cs_buf c; cs_pos := pos; cs_read := cs_read c;
     cs_skipped := cs_skipped c |}.

(** The check of a side none of whose chunks was skipped. *)
Definition check_read (m : ChunkedBlob) (c : ChunkSide) : result StoreError () :=
  if negb (cs_skipped c) && negb (cs_read c =? cb_total_size m)%N
  then Err (Decode (ChunkedBlobSizeMismatch (cb_total_size m) (cs_read c)))
  else Ok tt.

Record ChunkWalk := {
  cw_a : ChunkSide;
  cw_b : ChunkSide;
  cw_equal : bool;
  cw_source : S
}.

Definition chunk_step (ma mb : ChunkedBlob) (w : ChunkWalk)
    : ChunkWalk + result StoreError bool * S :=
  let '(a, b) := skip_run (length (cb_chunks ma)) (cb_chunks ma) (cb_chunks mb)
                   (cw_a w) (cw_b w) in
  match m_bind (fill (cb_chunks ma) a) (λ a,
        m_bind (fill (cb_chunks mb) b) (λ b, m_ret (a, b))) (cw_source w) with
  | (Err e, s) => inr (Err e, s)
  | (Ok (a, b), s) =>
      let a_rest := side_rest a in
      let b_rest := side_rest b in
      if Nat.eqb (length a_rest) 0 && Nat.eqb (length b_rest) 0 then
        if (length (cb_chunks ma) <=? cs_next a) && (length (cb_chunks mb) <=? cs_next b)
        then inr ((_ ← check_read ma a; _ ← check_read mb b; Ok (cw_equal w)), s)
        else inl {| cw_a := a; cw_b := b; cw_equal := cw_equal w; cw_source := s |}
      else
        let count := Nat.min (length a_rest) (length b_rest) in
        if Nat.eqb count 0 then
          inl {| cw_a := move_to a (length (cs_buf a)); cw_b := move_to b (length (cs_buf b));
                 cw_equal := false; cw_source := s |}
        else
          inl {| cw_a := move_to a (cs_pos a + count); cw_b := move_to b (cs_pos b + count);
                 cw_equal := cw_equal w && bytes_eqb (take count a_rest) (take count b_rest);
                 cw_source := s |}
  end.

Definition chunks_unread (ma mb : ChunkedBlob) (w : ChunkWalk) : nat :=
  (length (cb_chunks ma) - cs_next (cw_a w)) + (length (cb_chunks mb) - cs_next (cw_b w)).
Definition chunks_buffered (w : ChunkWalk) : nat :=
  length (side_rest (cw_a w)) + length (side_rest (cw_b w)).

Definition chunked_content_eq (ma mb : ChunkedBlob) : M S bool := λ s,
  if negb (cb_total_size ma =? cb_total_size mb)%N then (Ok false, s)
  else
    let w := {| cw_a := side_new; cw_b := side_new; cw_equal := true; cw_source := s |} in
    default (Err ObjectTooLarge, s)
      (loop_refuel (Datatypes.S (chunks_unread ma mb w)) (λ w, Datatypes.S (chunks_buffered w))
         (chunk_step ma mb) w).

Definition content_eq (a b : hash32) : M S bool :=
  if bool_decide (a = b) then m_ret true
  else
    m_bind (src_read_object a) (λ obj_a,
    m_bind (src_read_object b) (λ obj_b,
    match obj_a, obj_b with
    | OChunkedBlob ma, OChunkedBlob mb => chunked_content_eq ma mb
    | _, _ =>
        m_bind (m_lift (cursor_from_object obj_a)) (λ lc,
        m_bind (m_lift (cursor_from_object obj_b)) (λ rc, cursors_eq lc rc))
    end)).

(** ** [content_eq_bytes] *)

Record BytesWalk := {
  bw_cursor : ContentCursor;
  bw_offset : N;
  bw_equal : bool;
  bw_source : S
}.

(** [bytes.get(offset..end) == Some(chunk)]. *)
Definition range_is (bs : bytes) (offset stop : N) (chunk : bytes) : bool :=
  (stop <=? lenN bs)%N &&
  bytes_eqb (take (length chunk) (drop (N.to_nat offset) bs)) chunk.

Definition bytes_step (bs : bytes) (w : BytesWalk) : BytesWalk + result StoreError bool * S :=
  match remaining (bw_cursor w) (bw_source w) with
  | (Err e, s) => inr (Err e, s)
  | (Ok ([], _), s) => inr (Ok (bw_equal w && (bw_offset w =? lenN bs)%N), s)
  | (Ok (chunk, c), s) =>
      match checked_add (bw_offset w) (lenN chunk) with
      | None => inr (Err ObjectTooLarge, s)
      | Some stop =>
          inl {| bw_cursor := advance c (length chunk); bw_offset := stop;
                 bw_equal := bw_equal w && range_is bs (bw_offset w) stop chunk;
                 bw_source := s |}
      end
  end.

Definition content_eq_bytes (h : hash32) (bs : bytes) : M S bool :=
  m_bind (cursor_load h) (λ c s,
    let w := {| bw_cursor := c; bw_offset := 0; bw_equal := true; bw_source := s |} in
    default (Err ObjectTooLarge, s)
      (loop_refuel (Datatypes.S (length (cc_chunks c)))
         (λ w, Datatypes.S (buffered (bw_cursor w))) (bytes_step bs) w)).
End content.
