(* ===== verification/ContentFacts.v ===== *)
(** * Content is what comparison and fingerprint say

    Against any source with a view: reading back, the fingerprint and the two
    comparisons agree with the content that the view denotes, whatever the chunk
    layout; the comparison of two chunked blobs needs that no chunk is empty, and
    fails without it. *)

From S2P Require Import Prelude Hash Object Serialize ObjectId Store StoreFacts Content.

(** ** Computations that follow a view *)

Section follows.
Context {S : Type} (I : S → Prop).

(** The computation gives what [r] says, or runs out of a budget. *)
Definition follows {A} (m : M S A) (r : result StoreError A) : Prop :=
  ∀ s, I s → I (m s).2 ∧ ((m s).1 = r ∨ out_of_budget (m s).1).

Lemma follows_lift {A} (r : result StoreError A) : follows (m_lift r) r.
Proof. intros s Hs. split; [done|by left]. Qed.

Lemma follows_ret {A} (a : A) : follows (m_ret a) (Ok a).
Proof. apply (follows_lift (Ok a)). Qed.

Lemma follows_bind {A C} (m : M S A) r (f : A → M S C) (g : A → result StoreError C) :
  follows m r → (∀ a, r = Ok a → follows (f a) (g a)) → follows (m_bind m f) (r ≫= g).
Proof.
  intros Hm Hf s Hs. unfold m_bind. destruct (Hm s Hs) as [Hs' Hr].
  destruct (m s) as [[a|e] s']; cbn in *.
  - destruct Hr as [<-|[name ?]]; [|done]. by apply Hf.
  - split; [done|]. destruct Hr as [<-|[name [= ->]]]; [by left|right; by exists name].
Qed.
End follows.

Lemma take_min_differ (p a b : bytes) x y n :
  n = Nat.min (length a) (length b) → take n a ≠ take n b →
  p ++ a ++ x ≠ p ++ b ++ y.
Proof.
  intros -> Hne E. apply Hne. apply app_inv_head in E.
  apply (f_equal (take (Nat.min (length a) (length b)))) in E.
  by rewrite !take_app_le in E by lia.
Qed.

Section content.
Context `{B : Blake3} {S : Type} `{!ObjectSource S} (I : S → Prop)
  (view : hash32 → result StoreError bytes) `{V : !SourceView S I view}.

(** ** The content that a view denotes *)

Definition chunk_view (h : hash32) : result StoreError bytes :=
  o ← view_object view h;
  match o with
  | OBlob b => Ok (blob_data b)
  | _ => Err (Io (OtherError (b# "manifest chunk is not a Blob")))
  end.

(** The data of a run of chunks, [size] bytes having come before. *)
Fixpoint chunk_list (size : N) (chunks : list hash32) : result StoreError (list bytes) :=
  match chunks with
  | [] => Ok []
  | chunk :: chunks =>
      data ← chunk_view chunk;
      size ← ok_or (checked_add size (lenN data)) ObjectTooLarge;
      rest ← chunk_list size chunks;
      Ok (data :: rest)
  end.

Definition object_content (o : Object) : result StoreError bytes :=
  match o with
  | OBlob b => Ok (blob_data b)
  | OChunkedBlob m =>
      ds ← chunk_list 0 (cb_chunks m);
      _ ← decode_err (check_reassembled_size m (lenN (concat ds)));
      Ok (concat ds)
  | _ => Err (Io no_blob)
  end.

Definition content_view (h : hash32) : result StoreError bytes :=
  o ← view_object view h; object_content o.

Lemma follows_read_object h : follows I (src_read_object h) (view_object view h).
Proof. intros s Hs. by apply view_read_object. Qed.

Lemma read_blob_chunk_follows h : follows I (read_blob_chunk h) (chunk_view h).
Proof.
  apply follows_bind; [apply follows_read_object|]. intros o _. apply follows_lift.
Qed.

(** ** Fingerprints *)

Lemma checked_add_Some a b c : checked_add a b = Some c ↔ (c = a + b ∧ a + b < 2 ^ 64)%N.
Proof. unfold checked_add. case_match; reflect; naive_solver lia. Qed.

Lemma fingerprint_chunks_follows chunks : ∀ size hasher,
  follows I (fingerprint_chunks size hasher chunks)
    (ds ← chunk_list size chunks;
     Ok ((size + lenN (concat ds))%N, foldl b3_update hasher ds)).
Proof.
  induction chunks as [|chunk chunks IH]; intros size hasher; cbn [fingerprint_chunks chunk_list].
  { cbn. rewrite N.add_0_r. apply follows_ret. }
  intros s Hs. pose proof (follows_bind I (read_blob_chunk chunk) (chunk_view chunk)
    (λ data, m_bind (m_lift (ok_or (checked_add size (lenN data)) ObjectTooLarge))
      (λ size, fingerprint_chunks size (Hasher_update hasher data) chunks))
    (λ data, size ← ok_or (checked_add size (lenN data)) ObjectTooLarge;
       ds ← chunk_list size chunks;
       Ok ((size + lenN (concat ds))%N, foldl b3_update (Hasher_update hasher data) ds))) as H.
  specialize (H (read_blob_chunk_follows chunk)).
  destruct (H) with (s := s) as [H1 H2]; [|done|].
  { intros d _. apply follows_bind; [apply follows_lift|]. intros n _. apply IH. }
  split; [done|]. destruct H2 as [H2|H2]; [left|by right]. rewrite H2.
  destruct (chunk_view chunk) as [d|e]; [|done]. cbn [mbind result_bind].
  destruct (ok_or _ _) as [n|e] eqn:En; [|done]. cbn [mbind result_bind].
  apply ok_or_Ok, checked_add_Some in En as [-> _].
  destruct (chunk_list _ chunks) as [ds|e]; [|done]. cbn.
  rewrite lenN_app. by rewrite N.add_assoc.
Qed.

Lemma content_fingerprint_ok `{!Blake3Incremental} (h : hash32) (s : S) :
  I s →
  let r := content_fingerprint h s in
  I r.2 ∧
  (r.1 = (x ← content_view h; Ok (lenN x, b3_hash x)) ∨ out_of_budget r.1).
Proof.
  intros Hs.
  cbn zeta. unfold content_fingerprint, content_view.
  assert (∀ o, follows I
    match o with
    | OBlob b => m_ret (lenN (blob_data b), Hasher_finalize (Hasher_update Hasher_new (blob_data b)))
    | OChunkedBlob manifest =>
        m_bind (fingerprint_chunks 0 Hasher_new (cb_chunks manifest)) (λ '(size, hasher),
        m_bind (m_lift (decode_err (check_reassembled_size manifest size))) (λ _,
        m_ret (size, Hasher_finalize hasher)))
    | _ => m_lift (Err (Io no_blob))
    end (x ← object_content o; Ok (lenN x, b3_hash x))) as Ho.
  { intros o. destruct o as [b|t|c|r|m|d|t]; cbn [object_content];
      try apply (follows_lift I (Err _)).
    - pose proof (b3_incremental [blob_data b]) as E. cbn in E. rewrite app_nil_r in E.
      cbn. rewrite <- E. apply follows_ret.
    - pose proof (follows_bind I _ _ (λ '(size, hasher),
        m_bind (m_lift (decode_err (check_reassembled_size m size))) (λ _,
        m_ret (size, Hasher_finalize hasher)))
        (λ '(size, hasher), _ ← decode_err (check_reassembled_size m size);
           Ok (size, Hasher_finalize hasher))
        (fingerprint_chunks_follows (cb_chunks m) 0 Hasher_new)) as Hfol.
      destruct (chunk_list 0 (cb_chunks m)) as [ds|e]; cbn in Hfol |- *.
      + rewrite N.add_0_l in Hfol.
        destruct (decode_err (check_reassembled_size m (lenN (concat ds)))) as [[]|e] eqn:Ec;
          cbn in Hfol |- *.
        * pose proof (b3_incremental ds) as E. cbn in E. rewrite <- E. apply Hfol.
          intros [? ?] [= <- <-]. cbn. apply follows_bind; [apply follows_lift|].
          intros [] _. apply follows_ret.
        * apply Hfol. intros [? ?] [= <- <-]. apply follows_bind; [apply follows_lift|].
          intros [] _. apply follows_ret.
      + apply Hfol. intros ? [=]. }
  assert (follows I (content_fingerprint h)
    (o ← view_object view h; x ← object_content o; Ok (lenN x, b3_hash x))) as Hfol.
  { apply follows_bind; [apply follows_read_object|]. intros o _. apply Ho. }
  destruct (Hfol s Hs) as [H1 H2]. split; [done|].
  destruct H2 as [H2|H2]; [left|by right]. fold (content_fingerprint h). rewrite H2.
  by destruct (view_object view h).
Qed.

(** [content_fingerprint] is the length and the BLAKE3 of the content, whatever its
    layout: over any source with a view, for a blob as for a chunked blob of any
    chunking, it gives the length and the hash of the bytes that the view denotes,
    refuses what they refuse, with the same error, or runs out of a budget. *)
Theorem content_fingerprint_spec `{!Blake3Incremental} (h : hash32) (s : S) (Hs : I s) :
  let r := content_fingerprint h s in
  I r.2 ∧
  (r.1 = (x ← content_view h; Ok (lenN x, b3_hash x)) ∨ out_of_budget r.1).
Proof. exact (content_fingerprint_ok h s Hs). Qed.

(** ** Two chunked blobs *)

(** A side of the walk over the chunks [chunks] with data [ds]: [p] bytes have been
    passed. *)
Record side_ok (chunks : list hash32) (ds : list bytes) (p : bytes) (c : ChunkSide) : Prop := {
  so_next : cs_next c ≤ length chunks;
  so_pos : cs_pos c ≤ length (cs_buf c);
  so_data : p ++ side_rest c ++ concat (drop (cs_next c) ds) = concat ds;
  so_read : (cs_read c + lenN (concat (drop (cs_next c) ds)) <= lenN (concat ds))%N;
  so_all : cs_skipped c = false →
    (cs_read c + lenN (concat (drop (cs_next c) ds)) = lenN (concat ds))%N
}.

Lemma move_all c : cs_pos c ≤ length (cs_buf c) → length (cs_buf c) = cs_pos c + length (side_rest c).
Proof. intros H. unfold side_rest. rewrite length_drop. lia. Qed.

Section chunks.
Context (chunks : list hash32) (ds : list bytes).
Hypothesis Hds : Forall2 (λ h d, chunk_view h = Ok d) chunks ds.
Hypothesis Hlen : (lenN (concat ds) < 2 ^ 64)%N.

Lemma side_new_ok : side_ok chunks ds [] side_new.
Proof. split; cbn; rewrite ?drop_0; (done || lia). Qed.

Lemma boundary_rest c : at_boundary c = true → side_rest c = [].
Proof. unfold at_boundary, side_rest. reflect. intros ->. by apply drop_ge. Qed.

Lemma next_data c p h :
  side_ok chunks ds p c → chunks !! cs_next c = Some h →
  ∃ d, chunk_view h = Ok d ∧ ds !! cs_next c = Some d ∧
    drop (cs_next c) ds = d :: drop (Datatypes.S (cs_next c)) ds ∧
    Datatypes.S (cs_next c) ≤ length chunks.
Proof.
  intros Hc Hh. destruct (Forall2_lookup_l _ _ _ _ _ Hds Hh) as (d & Hd & Hv).
  exists d. split_and!; [done..|by apply drop_S|]. by apply lookup_lt_Some in Hh.
Qed.

Lemma skip_one_ok c p h d :
  side_ok chunks ds p c → at_boundary c = true → chunks !! cs_next c = Some h →
  chunk_view h = Ok d → side_ok chunks ds (p ++ d) (skip_one c).
Proof.
  intros Hc Hb Hh Hv. destruct (next_data c p h Hc Hh) as (d' & Hv' & _ & Hd & Hn).
  assert (d' = d) as -> by congruence. pose proof (boundary_rest _ Hb) as Hr.
  destruct Hc as [_ H2 H3 H4 _]. rewrite Hd in H3, H4. unfold side_rest in *.
  split; cbn [skip_one cs_next cs_pos cs_buf cs_read cs_skipped concat] in *; try done.
  - unfold side_rest. cbn. rewrite Hr in H3 |- *. by rewrite <- app_assoc.
  - rewrite lenN_app in H4. lia.
Qed.

Lemma end_data c p :
  side_ok chunks ds p c → side_rest c = [] → length chunks ≤ cs_next c → concat ds = p.
Proof.
  intros [_ _ H3 _ _] Hr Hn. rewrite Hr, (drop_ge ds) in H3.
  - cbn in H3. by rewrite app_nil_r in H3.
  - apply Forall2_length in Hds. lia.
Qed.

(** Reading the next chunk when the buffer is used up. *)
Lemma fill_ok c p s :
  side_ok chunks ds p c → I s →
  I (fill chunks c s).2 ∧
  (out_of_budget (fill chunks c s).1 ∨
   ∃ c', (fill chunks c s).1 = Ok c' ∧ side_ok chunks ds p c' ∧
     (side_rest c' = [] → Forall (λ d, d ≠ []) ds → length chunks ≤ cs_next c' ∧ concat ds = p) ∧
     (cs_next c < cs_next c' ∨ cs_next c = cs_next c' ∧ side_rest c' = side_rest c)).
Proof.
  intros Hc Hs. unfold fill. destruct (at_boundary c) eqn:Eb.
  2:{ split; [done|]. right. exists c. split_and!; [done..| |by right].
      intros Hr. unfold at_boundary, side_rest in *. reflect.
      apply (f_equal length) in Hr. rewrite length_drop in Hr. cbn in Hr. destruct Hc. lia. }
  pose proof (boundary_rest c Eb) as Hr.
  destruct (chunks !! cs_next c) as [h|] eqn:Eh.
  - destruct (next_data c p h Hc Eh) as (d & Hv & Hd0 & Hd & Hn).
    unfold m_bind. destruct (read_blob_chunk_follows h s Hs) as [HI Hres].
    destruct (read_blob_chunk h s) as [[d'|e] s']; cbn in *.
    + destruct Hres as [Hres|[? ?]]; [|done]. rewrite Hv in Hres. injection Hres as ->.
      destruct Hc as [H1 H2 H3 H4 H5]. rewrite Hr in H3. rewrite Hd in H3, H4, H5. cbn in H3, H4, H5.
      rewrite lenN_app in H4, H5.
      assert (checked_add (cs_read c) (lenN d) = Some (cs_read c + lenN d)%N) as ->
        by (apply checked_add_Some; split; [done|lia]).
      cbn. split; [done|]. right. eexists. split; [done|].
      assert (side_rest {| cs_next := Datatypes.S (cs_next c); cs_buf := d; cs_pos := 0;
        cs_read := (cs_read c + lenN d)%N; cs_skipped := cs_skipped c |} = d) as Hsr by done.
      rewrite Hsr. split; [split; cbn [cs_next cs_pos cs_read cs_skipped]; try lia|].
      * by rewrite Hsr.
      * split; [|left; cbn; lia]. intros -> Hne. by destruct (Forall_lookup_1 _ _ _ _ Hne Hd0).
    + split; [done|]. left. destruct Hres as [Hres|[name ?]]; [congruence|]. exists name. congruence.
  - cbn. split; [done|]. right. eexists. split; [done|].
    apply lookup_ge_None in Eh. destruct Hc as [H1 H2 H3 H4 H5].
    assert (drop (cs_next c) ds = []) as Hd.
    { apply drop_ge. apply Forall2_length in Hds. lia. }
    split_and!; [split; cbn; try done; by rewrite Hr in H3| |right; split; [done|]].
    + intros _ _. split; [done|]. rewrite Hr, Hd in H3. cbn in H3. by rewrite app_nil_r in H3.
    + by rewrite Hr.
Qed.

(** Passing [n] buffered bytes. *)
Lemma move_ok c p n :
  side_ok chunks ds p c → n ≤ length (side_rest c) →
  side_ok chunks ds (p ++ take n (side_rest c)) (move_to c (cs_pos c + n)) ∧
  side_rest (move_to c (cs_pos c + n)) = drop n (side_rest c).
Proof.
  intros [H1 H2 H3 H4 H5] Hn. unfold side_rest in *. rewrite length_drop in Hn.
  assert (drop (cs_pos c + n) (cs_buf c) = drop n (drop (cs_pos c) (cs_buf c))) as Hd
    by by rewrite drop_drop.
  split; [|done]. split; cbn; try done; [lia|]. unfold side_rest. cbn. rewrite Hd.
  rewrite <- app_assoc, (app_assoc (take _ _)), take_drop. done.
Qed.
End chunks.

Section pair.
Context (ma mb : ChunkedBlob) (dsa dsb : list bytes).
Hypothesis Ha : Forall2 (λ h d, chunk_view h = Ok d) (cb_chunks ma) dsa.
Hypothesis Hb : Forall2 (λ h d, chunk_view h = Ok d) (cb_chunks mb) dsb.
Hypothesis Hla : (lenN (concat dsa) < 2 ^ 64)%N.
Hypothesis Hlb : (lenN (concat dsb) < 2 ^ 64)%N.
Hypothesis Hsa : lenN (concat dsa) = cb_total_size ma.
Hypothesis Hsb : lenN (concat dsb) = cb_total_size mb.

Abbreviation sa := (side_ok (cb_chunks ma) dsa).
Abbreviation sb := (side_ok (cb_chunks mb) dsb).

Lemma skip_run_ok fuel : ∀ a b pa pb, sa pa a → sb pb b →
  ∃ d a' b', skip_run fuel (cb_chunks ma) (cb_chunks mb) a b = (a', b') ∧
    sa (pa ++ d) a' ∧ sb (pb ++ d) b' ∧
    (a' = a ∧ b' = b ∨ cs_next a < cs_next a' ∧ cs_next b < cs_next b').
Proof.
  induction fuel as [|fuel IH]; intros a b pa pb Sa Sb; cbn [skip_run].
  { exists [], a, b. rewrite !app_nil_r. split_and!; [done..|by left]. }
  assert (∃ d a' b', (a, b) = (a', b') ∧ sa (pa ++ d) a' ∧ sb (pb ++ d) b' ∧
    (a' = a ∧ b' = b ∨ cs_next a < cs_next a' ∧ cs_next b < cs_next b')) as Hstay.
  { exists [], a, b. rewrite !app_nil_r. split_and!; [done..|by left]. }
  destruct (cb_chunks ma !! cs_next a) as [x|] eqn:Ex; [|done].
  destruct (cb_chunks mb !! cs_next b) as [y|] eqn:Ey; [|done].
  destruct (_ && _) eqn:E; [|done]. reflect. destruct E as [[Ba Bb] <-].
  destruct (next_data _ _ Ha a pa x Sa Ex) as (d & Hv & _).
  destruct (IH (skip_one a) (skip_one b) (pa ++ d) (pb ++ d)) as (d' & a' & b' & E & Sa' & Sb' & Hp).
  { by apply (skip_one_ok _ _ Ha Hla a pa x d). }
  { by apply (skip_one_ok _ _ Hb Hlb b pb x d). }
  exists (d ++ d'), a', b'. rewrite !app_assoc. split_and!; [done..|]. right.
  cbn in Hp. destruct Hp as [[-> ->]|]; cbn; lia.
Qed.

(** No chunk of either side is empty. *)
Definition both_full : Prop := Forall (λ d, d ≠ []) dsa ∧ Forall (λ d, d ≠ []) dsb.

(** What the flag says once [pa] and [pb] have been passed. *)
Definition flag_ok (equal : bool) (pa pb : bytes) : Prop :=
  if equal then pa = pb else both_full → concat dsa ≠ concat dsb.

Definition chunk_walk_ok (w : ChunkWalk) : Prop :=
  I (cw_source w) ∧ ∃ pa pb, sa pa (cw_a w) ∧ sb pb (cw_b w) ∧ flag_ok (cw_equal w) pa pb.

(** [true] is right, and so is [false] under [full]. *)
Definition eq_post (full : Prop) (x y : bytes) (out : result StoreError bool * S) : Prop :=
  I out.2 ∧ (out_of_budget out.1 ∨
    ∃ v, out.1 = Ok v ∧ if v : bool then x = y else full → x ≠ y).

Lemma check_read_ok m chunks ds p c :
  side_ok chunks ds p c → drop (cs_next c) ds = [] → lenN (concat ds) = cb_total_size m →
  check_read m c = Ok tt.
Proof.
  intros [_ _ _ _ H] Hd Hs. unfold check_read. destruct (cs_skipped c); [done|].
  specialize (H eq_refl). rewrite Hd in H. change (lenN (concat [])) with 0%N in H.
  rewrite N.add_0_r in H. rewrite H, Hs, N.eqb_refl. done.
Qed.

(** After reading: the walk with both buffers filled. *)
Lemma filled a b pa pb s :
  sa pa a → sb pb b → I s →
  let r := m_bind (fill (cb_chunks ma) a) (λ a,
           m_bind (fill (cb_chunks mb) b) (λ b, m_ret (a, b))) s in
  I r.2 ∧
  (out_of_budget r.1 ∨ ∃ a' b', r.1 = Ok (a', b') ∧ sa pa a' ∧ sb pb b' ∧
     (side_rest a' = [] → Forall (λ d, d ≠ []) dsa →
        length (cb_chunks ma) ≤ cs_next a' ∧ concat dsa = pa) ∧
     (side_rest b' = [] → Forall (λ d, d ≠ []) dsb →
        length (cb_chunks mb) ≤ cs_next b' ∧ concat dsb = pb) ∧
     (cs_next a < cs_next a' ∨ cs_next a = cs_next a' ∧ side_rest a' = side_rest a) ∧
     (cs_next b < cs_next b' ∨ cs_next b = cs_next b' ∧ side_rest b' = side_rest b)).
Proof.
  intros Sa Sb Hs. cbn zeta. unfold m_bind.
  destruct (fill_ok _ _ Ha Hla a pa s Sa Hs) as [HI Hr].
  destruct (fill (cb_chunks ma) a s) as [[a'|e] s']; cbn in *.
  2:{ split; [done|]. left. destruct Hr as [[name ?]|(? & ? & _)]; [|done]. exists name. congruence. }
  destruct Hr as [[name ?]|(? & [= <-] & Sa' & Ra & Pa)]; [done|].
  destruct (fill_ok _ _ Hb Hlb b pb s' Sb HI) as [HI' Hr].
  destruct (fill (cb_chunks mb) b s') as [[b'|e] s'']; cbn in *.
  2:{ split; [done|]. left. destruct Hr as [[name ?]|(? & ? & _)]; [|done]. exists name. congruence. }
  destruct Hr as [[name ?]|(? & [= <-] & Sb' & Rb & Pb)]; [done|].
  split; [done|]. right. exists a', b'. done.
Qed.

(** Moving on: some buffered bytes have been passed. *)
Lemma move_walk a b pa pb na nb (equal : bool) s :
  sa pa a → sb pb b → I s → na ≤ length (side_rest a) → nb ≤ length (side_rest b) →
  flag_ok equal (pa ++ take na (side_rest a)) (pb ++ take nb (side_rest b)) →
  chunk_walk_ok {| cw_a := move_to a (cs_pos a + na); cw_b := move_to b (cs_pos b + nb);
                   cw_equal := equal; cw_source := s |}.
Proof.
  intros Sa Sb Hs Hna Hnb He. split; [done|].
  destruct (move_ok _ _ Hla a pa na Sa Hna) as [Sa' _].
  destruct (move_ok _ _ Hlb b pb nb Sb Hnb) as [Sb' _].
  eexists _, _. split; [exact Sa'|]. split; [exact Sb'|done].
Qed.

Lemma chunk_step_ok w :
  chunk_walk_ok w →
  match chunk_step ma mb w with
  | inl w' => chunk_walk_ok w'
  | inr out => eq_post both_full (concat dsa) (concat dsb) out
  end.
Proof.
  intros (Hs & pa0 & pb0 & Sa0 & Sb0 & He0). unfold chunk_step.
  destruct (skip_run_ok (length (cb_chunks ma)) _ _ _ _ Sa0 Sb0) as (d & a0 & b0 & -> & Sa & Sb & _).
  assert (flag_ok (cw_equal w) (pa0 ++ d) (pb0 ++ d)) as He
    by (unfold flag_ok in *; destruct (cw_equal w); [congruence|done]).
  revert Sa Sb He. generalize (pa0 ++ d) as pa, (pb0 ++ d) as pb. intros pa pb Sa Sb He.
  clear Sa0 Sb0 He0. destruct (filled a0 b0 pa pb (cw_source w) Sa Sb Hs) as [HI Hr].
  destruct (m_bind _ _ _) as [[[a b]|e] s]; cbn in HI, Hr.
  2:{ destruct Hr as [[name Hr]|(? & ? & ? & _)]; [|done]. split; [done|]. left. exists name.
      cbn. congruence. }
  destruct Hr as [[name ?]|(? & ? & [= <- <-] & Sa' & Sb' & Ra & Rb & _)]; [done|].
  pose proof (λ na nb equal, move_walk a b pa pb na nb equal s Sa' Sb' HI) as Hmove.
  destruct (decide (length (side_rest a) = 0 ∧ length (side_rest b) = 0)) as [[La Lb]|Hne].
  - (* both used up *)
    rewrite La, Lb. cbn [Nat.eqb andb]. apply nil_length_inv in La, Lb.
    destruct (Nat.leb_spec (length (cb_chunks ma)) (cs_next a)) as [Na|];
      [|by split; [done|exists pa, pb]].
    destruct (Nat.leb_spec (length (cb_chunks mb)) (cs_next b)) as [Nb|];
      [|by split; [done|exists pa, pb]].
    pose proof (end_data _ _ Ha Hla a pa Sa' La Na) as Ea. pose proof (end_data _ _ Hb Hlb b pb Sb' Lb Nb) as Eb.
    cbn [andb]. pose proof Ha as LenA. pose proof Hb as LenB. apply Forall2_length in LenA, LenB.
    rewrite (check_read_ok ma _ _ _ _ Sa') by first [exact Hsa|apply drop_ge; lia].
    rewrite (check_read_ok mb _ _ _ _ Sb') by first [exact Hsb|apply drop_ge; lia].
    split; [done|]. right. exists (cw_equal w). split; [done|]. unfold flag_ok in He.
    destruct (cw_equal w); [congruence|done].
  - assert (Nat.eqb (length (side_rest a)) 0 && Nat.eqb (length (side_rest b)) 0 = false) as ->.
    { reflect. destruct (decide (length (side_rest a) = 0)); [right|left]; lia. }
    set (count := Nat.min _ _).
    destruct (Nat.eqb_spec count 0) as [Hc|Hc].
    + rewrite (move_all a), (move_all b) by first [apply Sa'|apply Sb'].
      apply (Hmove _ _ false); [lia..|]. intros [Fa Fb] E.
      unfold flag_ok in He. destruct (cw_equal w); [subst pb|by apply He].
      destruct (so_data _ _ _ _ Sa'), (so_data _ _ _ _ Sb').
      destruct (decide (length (side_rest a) = 0)) as [La|La].
      * apply nil_length_inv in La as La'. destruct (Ra La' Fa) as [_ Ea].
        apply (f_equal length) in Ea, E. rewrite !length_app in *. lia.
      * assert (side_rest b = []) as Lb by (apply nil_length_inv; lia).
        destruct (Rb Lb Fb) as [_ Eb]. apply (f_equal length) in Eb, E. rewrite !length_app in *. lia.
    + apply Hmove; [lia..|]. unfold flag_ok in *. destruct (cw_equal w); cbn [andb]; [subst pb|done].
      destruct (bytes_eqb _ _) eqn:Et; [by apply bytes_eqb_eq in Et as ->|]. intros _.
      rewrite <- (so_data _ _ _ _ Sa'), <- (so_data _ _ _ _ Sb').
      apply (take_min_differ pa _ _ _ _ count eq_refl). intros E. by rewrite E, (proj2 (bytes_eqb_eq _ _)) in Et.
Qed.
End pair.

Lemma chunk_list_spec chunks : ∀ size ds, chunk_list size chunks = Ok ds →
  Forall2 (λ h d, chunk_view h = Ok d) chunks ds ∧
  (chunks = [] ∨ (size + lenN (concat ds) < 2 ^ 64)%N).
Proof.
  induction chunks as [|h chunks IH]; intros size ds H; cbn [chunk_list] in H; inv_ok.
  { subst. split; [constructor|by left]. }
  apply checked_add_Some in H1 as [-> Hlt]. destruct (IH _ _ H2) as [Hf Hl]. subst.
  split; [by constructor|]. right. cbn. rewrite lenN_app.
  destruct Hl as [->|Hl]; [|lia]. inv Hf. cbn. rewrite lenN_nil. lia.
Qed.

(** The content of a chunked blob: the data of its chunks. *)
Lemma manifest_content m x :
  object_content (OChunkedBlob m) = Ok x ↔
  ∃ ds, chunk_list 0 (cb_chunks m) = Ok ds ∧ concat ds = x ∧ lenN x = cb_total_size m.
Proof.
  cbn [object_content]. rewrite bind_Ok. setoid_rewrite bind_Ok.
  unfold check_reassembled_size. split.
  - intros (ds & Hd & [] & Hc & [= <-]). exists ds. split_and!; [done..|].
    destruct (negb _) eqn:E; [done|]. reflect. done.
  - intros (ds & Hd & <- & Hl). exists ds. split; [done|]. exists tt.
    by rewrite Hl, N.eqb_refl.
Qed.

Definition no_empty_chunk (m : ChunkedBlob) : Prop :=
  ∀ h, h ∈ cb_chunks m → chunk_view h ≠ Ok [].

(** ** Two cursors *)

Definition cursor_view (c : ContentCursor) : result StoreError bytes :=
  ds ← chunk_list (cc_loaded c) (cc_chunks c);
  let total := (cc_loaded c + lenN (concat ds))%N in
  _ ← ensure (total =? cc_expected c)%N (Decode (ChunkedBlobSizeMismatch (cc_expected c) total));
  Ok (drop (cc_offset c) (cc_data c) ++ concat ds).

Lemma cursor_from_object_view o :
  match cursor_from_object o with
  | Ok c => cursor_view c = object_content o ∧ cc_offset c ≤ length (cc_data c)
  | Err e => object_content o = Err e
  end.
Proof.
  destruct o as [b|t|c|r|m|d|t]; try done; unfold cursor_view; cbn.
  - rewrite lenN_nil, N.add_0_r, N.eqb_refl, app_nil_r, drop_0. cbn. split; [done|lia].
  - split; [|lia]. destruct (chunk_list 0 (cb_chunks m)) as [ds|]; [|done]. cbn.
    unfold check_reassembled_size, ensure. rewrite N.add_0_l. by destruct (_ =? _)%N.
Qed.

Definition remaining_post (c0 : ContentCursor) (r : result StoreError (bytes * ContentCursor)) : Prop :=
  match r with
  | Ok (chunk, c) =>
      cursor_view c = cursor_view c0 ∧ chunk = drop (cc_offset c) (cc_data c) ∧
      cc_offset c ≤ length (cc_data c) ∧ (chunk = [] → cursor_view c0 = Ok []) ∧
      (c = c0 ∨ length (cc_chunks c) < length (cc_chunks c0))
  | Err e => cursor_view c0 = Err e
  end.

Lemma remaining_ok c s :
  cc_offset c ≤ length (cc_data c) → I s →
  I (remaining c s).2 ∧ (out_of_budget (remaining c s).1 ∨ remaining_post c (remaining c s).1).
Proof.
  unfold remaining. destruct c as [data offset chunks expected loaded]. cbn [cc_data cc_offset cc_chunks cc_expected cc_loaded].
  revert data offset loaded s. induction chunks as [|h chunks IH]; intros data offset loaded s Ho Hs;
    cbn [remaining_from]; destruct (Nat.eqb_spec offset (length data)) as [Ee|Ee].
  2, 4: split; [done|right]; cbn; split_and!; [done..| |by left];
    intros E; apply (f_equal length) in E; rewrite length_drop in E; cbn in E; lia.
  - unfold remaining_post, cursor_view. cbn. rewrite ?lenN_nil, ?N.add_0_r.
    destruct (N.eqb_spec loaded expected) as [->|Hne]; cbn.
    + split; [done|]. right. rewrite drop_ge by lia. rewrite lenN_nil, N.add_0_r, N.eqb_refl.
      cbn. split_and!; [done..|lia|done|by left].
    + split; [done|]. by right.
  - unfold m_bind. destruct (read_blob_chunk_follows h s Hs) as [HI Hr].
    unfold cursor_view. cbn [cc_loaded cc_chunks cc_expected cc_offset cc_data chunk_list].
    destruct (read_blob_chunk h s) as [[d|e] s']; cbn in HI, Hr.
    2:{ split; [done|]. cbn. destruct Hr as [Hr|[name ?]]; [right|left; exists name; congruence].
        unfold cursor_view. cbn. by rewrite <- Hr. }
    destruct Hr as [Hr|[? ?]]; [|done]. cbn [m_lift].
    destruct (checked_add loaded (lenN d)) as [n|] eqn:En; cbn [ok_or].
    2:{ split; [done|]. right. unfold remaining_post, cursor_view. cbn. rewrite <- Hr. cbn.
        by rewrite En. }
    destruct (IH d 0 n s') as [HI' Hp]; [lia|done|]. split; [done|]. destruct Hp as [Hp|Hp]; [by left|right].
    apply checked_add_Some in En as En'. destruct En' as [-> _].
    assert (cursor_view {| cc_data := d; cc_offset := 0; cc_chunks := chunks; cc_expected := expected;
        cc_loaded := loaded + lenN d |} =
      cursor_view {| cc_data := data; cc_offset := offset; cc_chunks := h :: chunks;
        cc_expected := expected; cc_loaded := loaded |}) as Ev.
    { unfold cursor_view. cbn. rewrite <- Hr. cbn. rewrite En. cbn.
      destruct (chunk_list _ chunks) as [ds|]; [|done]. cbn. rewrite lenN_app, N.add_assoc.
      destruct (ensure _ _); [|done]. cbn. rewrite drop_0, (drop_ge data) by lia. done. }
    unfold remaining_post in *. rewrite Ev in Hp.
    destruct (remaining_from chunks d 0 expected (loaded + lenN d) s') as [[[chunk c]|e] s'']; [|done].
    cbn in Hp |- *. destruct Hp as (H1 & H2 & H3 & H4 & H5). split_and!; [done..|].
    right. destruct H5 as [->|H5]; cbn in *; lia.
Qed.

(** The loop over two cursors, [L] and [R] at the start: [pa] and [pb] have been
    passed, and were equal as long as the flag says so. *)
Definition cursors_inv (L R : ContentCursor) (w : EqWalk) : Prop :=
  I (ew_source w) ∧ cc_offset (ew_left w) ≤ length (cc_data (ew_left w)) ∧
  cc_offset (ew_right w) ≤ length (cc_data (ew_right w)) ∧
  ∃ pa pb, cursor_view L = fmap (M := result StoreError) (app pa) (cursor_view (ew_left w)) ∧
    cursor_view R = fmap (M := result StoreError) (app pb) (cursor_view (ew_right w)) ∧
    if ew_equal w then pa = pb
    else ∀ x y, cursor_view L = Ok x → cursor_view R = Ok y → x ≠ y.

Definition cursors_post (L R : ContentCursor) (out : result StoreError bool * S) : Prop :=
  I out.2 ∧ (out_of_budget out.1 ∨
    match out.1 with
    | Ok r => ∃ x y, cursor_view L = Ok x ∧ cursor_view R = Ok y ∧ r = bytes_eqb x y
    | Err e => cursor_view L = Err e ∨ cursor_view R = Err e
    end).

Lemma advance_view c n :
  cc_offset c ≤ length (cc_data c) → n ≤ length (drop (cc_offset c) (cc_data c)) →
  cursor_view c = fmap (M := result StoreError) (app (take n (drop (cc_offset c) (cc_data c))))
    (cursor_view (advance c n)) ∧
  cc_offset (advance c n) ≤ length (cc_data (advance c n)) ∧
  buffered (advance c n) = buffered c - n.
Proof.
  intros Ho Hn. rewrite length_drop in Hn. unfold buffered. cbn. split_and!; [|lia..].
  unfold cursor_view. cbn. destruct (chunk_list _ _) as [ds|]; [|done]. cbn.
  destruct (ensure _ _); [|done]. cbn.
  assert (drop (cc_offset c + n) (cc_data c) = drop n (drop (cc_offset c) (cc_data c))) as ->
    by by rewrite drop_drop.
  by rewrite app_assoc, take_drop.
Qed.

(** A whole content starts with what was passed and what is buffered. *)
Lemma cursor_prefix p C c z :
  cursor_view C = fmap (M := result StoreError) (app p) (cursor_view c) → cursor_view C = Ok z →
  (∃ k, z = p ++ drop (cc_offset c) (cc_data c) ++ k) ∧ (cursor_view c = Ok [] → z = p).
Proof.
  intros E Hz. rewrite E in Hz. apply fmap_Ok in Hz as (x & Hx & ->). split.
  - unfold cursor_view in Hx. inv_ok. subst. by eexists.
  - intros Hn. rewrite Hn in Hx. injection Hx as <-. apply app_nil_r.
Qed.

(** Passing [na] and [nb] buffered bytes of the cursors [lc] and [rc] that the two
    sides of [w] became by reading. *)
Lemma cursors_move L R w lc rc pa pb na nb (equal : bool) s :
  I s → cc_offset lc ≤ length (cc_data lc) → cc_offset rc ≤ length (cc_data rc) →
  cursor_view L = fmap (M := result StoreError) (app pa) (cursor_view lc) →
  cursor_view R = fmap (M := result StoreError) (app pb) (cursor_view rc) →
  lc = ew_left w ∨ length (cc_chunks lc) < length (cc_chunks (ew_left w)) →
  rc = ew_right w ∨ length (cc_chunks rc) < length (cc_chunks (ew_right w)) →
  let a := drop (cc_offset lc) (cc_data lc) in
  let b := drop (cc_offset rc) (cc_data rc) in
  na ≤ length a → nb ≤ length b → 0 < na + nb →
  (if equal then pa ++ take na a = pb ++ take nb b
   else ∀ x y, cursor_view L = Ok x → cursor_view R = Ok y → x ≠ y) →
  let w' := {| ew_left := advance lc na; ew_right := advance rc nb; ew_equal := equal;
               ew_source := s |} in
  cursors_inv L R w' ∧ lex2 eq_chunks_left eq_buffered w' w.
Proof.
  intros Hs Oa Ob EL ER Pa Pb a b Hna Hnb Hpos He w'.
  destruct (advance_view lc na Oa Hna) as (Ca & Oa' & Ba).
  destruct (advance_view rc nb Ob Hnb) as (Cb & Ob' & Bb). split.
  - split_and!; [done..|]. exists (pa ++ take na a), (pb ++ take nb b).
    cbn [ew_left ew_right ew_equal w']. split_and!; [| |done].
    + rewrite EL, Ca. fold a. destruct (cursor_view (advance lc na)); [|done].
      cbn. by rewrite app_assoc.
    + rewrite ER, Cb. fold b. destruct (cursor_view (advance rc nb)); [|done].
      cbn. by rewrite app_assoc.
  - unfold lex2, eq_chunks_left, eq_buffered. cbn [ew_left ew_right w']. rewrite Ba, Bb.
    unfold a, b in Hna, Hnb. rewrite length_drop in Hna, Hnb. fold (buffered lc) in Hna.
    fold (buffered rc) in Hnb. cbn [advance cc_chunks]. destruct Pa as [->|Pa], Pb as [->|Pb]; lia.
Qed.

(** One side is at its end and the other is not. *)
Lemma cursors_uneven L R lc rc p :
  cursor_view L = fmap (M := result StoreError) (app p) (cursor_view lc) →
  cursor_view R = fmap (M := result StoreError) (app p) (cursor_view rc) →
  cursor_view lc = Ok [] → drop (cc_offset rc) (cc_data rc) ≠ [] →
  ∀ x y, cursor_view L = Ok x → cursor_view R = Ok y → x ≠ y.
Proof.
  intros EL ER Hn Hne x y Hx Hy ->. destruct (cursor_prefix p L lc y EL Hx) as [_ H].
  destruct (cursor_prefix p R rc y ER Hy) as [[k Hk] _]. apply Hne.
  rewrite (H Hn) in Hk. apply (f_equal length) in Hk. rewrite !length_app in Hk.
  apply nil_length_inv. lia.
Qed.

Lemma eq_step_ok L R w :
  cursors_inv L R w →
  match eq_step w with
  | inl w' => cursors_inv L R w' ∧ lex2 eq_chunks_left eq_buffered w' w
  | inr out => cursors_post L R out
  end.
Proof.
  intros (Hs & Hl & Hr & pa & pb & EL & ER & Heq). unfold eq_step.
  destruct (remaining_ok _ _ Hl Hs) as [HI Hp].
  destruct (remaining (ew_left w) (ew_source w)) as [[[a lc]|e] s]; cbn in HI, Hp.
  2:{ split; [done|]. destruct Hp as [[name [= ->]]|Hp]; [left; by exists name|right; left].
      by rewrite EL, Hp. }
  destruct Hp as [[? ?]|(Va & -> & Oa & Na & Pa)]; [done|].
  destruct (remaining_ok _ _ Hr HI) as [HI' Hp].
  destruct (remaining (ew_right w) s) as [[[b rc]|e] s']; cbn in HI', Hp.
  2:{ split; [done|]. destruct Hp as [[name [= ->]]|Hp]; [left; by exists name|right; right].
      by rewrite ER, Hp. }
  destruct Hp as [[? ?]|(Vb & -> & Ob & Nb & Pb)]; [done|].
  rewrite <- Va in EL, Na. rewrite <- Vb in ER, Nb.
  pose proof (λ na nb equal, cursors_move L R w lc rc pa pb na nb equal s' HI' Oa Ob EL ER Pa Pb)
    as Hmove.
  pose proof (λ z, cursor_prefix pa L lc z EL) as PL. pose proof (λ z, cursor_prefix pb R rc z ER) as PR.
  destruct (drop (cc_offset lc) (cc_data lc)) as [|a0 a] eqn:Ea;
    destruct (drop (cc_offset rc) (cc_data rc)) as [|b0 b] eqn:Eb.
  - (* both at the end *)
    split; [done|]. right. cbn. rewrite (Na eq_refl) in EL. rewrite (Nb eq_refl) in ER.
    cbn in EL, ER. rewrite app_nil_r in EL, ER. exists pa, pb. split_and!; [done..|].
    destruct (ew_equal w); symmetry; [by apply bytes_eqb_eq|].
    apply not_true_iff_false. rewrite bytes_eqb_eq. by apply Heq.
  - apply Hmove; [cbn; lia..|]. destruct (ew_equal w); [subst pb|done].
    apply (cursors_uneven L R lc rc pa); auto. by rewrite Eb.
  - apply Hmove; [cbn; lia..|]. destruct (ew_equal w); [subst pb|done]. intros x y Hx Hy E.
    apply (cursors_uneven R L rc lc pa ER EL (Nb eq_refl)) with (x := y) (y := x); [by rewrite Ea|done..].
  - apply Hmove; [cbn; lia..|]. destruct (ew_equal w); cbn [andb]; [|done]. subst pb.
    destruct (bytes_eqb _ _) eqn:Et; [by apply bytes_eqb_eq in Et as ->|].
    intros x y Hx Hy. destruct (PL x Hx) as [[ka ->] _]. destruct (PR y Hy) as [[kb ->] _].
    apply (take_min_differ pa (a0 :: a) (b0 :: b) _ _ _ eq_refl). intros E.
    by rewrite E, (proj2 (bytes_eqb_eq _ _)) in Et.
Qed.

Lemma cursors_eq_ok L R s :
  cc_offset L ≤ length (cc_data L) → cc_offset R ≤ length (cc_data R) → I s →
  cursors_post L R (cursors_eq L R s).
Proof.
  intros HL HR Hs. unfold cursors_eq.
  set (w := {| ew_left := L; ew_right := R; ew_equal := true; ew_source := s |}).
  destruct (loop_refuel_rule eq_step eq_chunks_left eq_buffered (cursors_inv L R)
    (cursors_post L R)) with (s := w) as (out & E & Hout).
  - intros w'. apply eq_step_ok.
  - split_and!; [done..|]. exists [], []. cbn. by destruct (cursor_view L), (cursor_view R).
  - by rewrite E.
Qed.

(** ** Termination on any content *)

Definition side_wf (c : ChunkSide) : Prop := cs_pos c ≤ length (cs_buf c).

(** Reading uses up a chunk, or leaves the unread bytes as they are. *)
Lemma fill_progress chunks c s c' s' :
  side_wf c → fill chunks c s = (Ok c', s') →
  side_wf c' ∧ (length chunks - cs_next c' < length chunks - cs_next c ∨
    length chunks - cs_next c' = length chunks - cs_next c ∧ side_rest c' = side_rest c ∧
    (side_rest c' = [] → length chunks ≤ cs_next c')).
Proof.
  intros Hw. unfold fill. destruct (at_boundary c) eqn:Eb.
  - destruct (chunks !! cs_next c) as [h|] eqn:Eh.
    + unfold m_bind. destruct (read_blob_chunk h s) as [[d|e] s0]; [|done]. cbn.
      destruct (checked_add _ _) as [n|]; [|done]. intros [= <- <-]. apply lookup_lt_Some in Eh.
      split; [unfold side_wf; cbn; lia|]. left. cbn. lia.
    + intros [= <- <-]. apply lookup_ge_None in Eh. split; [unfold side_wf; done|]. right. cbn.
      split_and!; [done| |done]. by rewrite (boundary_rest c Eb).
  - intros [= <- <-]. split; [done|]. right. split_and!; [done..|]. intros Hr.
    unfold side_wf, at_boundary, side_rest in *. reflect. apply (f_equal length) in Hr.
    rewrite length_drop in Hr. cbn in Hr. lia.
Qed.

Lemma move_rest c n :
  side_wf c → n ≤ length (side_rest c) →
  side_wf (move_to c (cs_pos c + n)) ∧
  length (side_rest (move_to c (cs_pos c + n))) = length (side_rest c) - n.
Proof. unfold side_wf, side_rest. cbn. rewrite !length_drop. lia. Qed.

Lemma skip_run_progress ca cb fuel : ∀ a b a' b',
  side_wf a → side_wf b → skip_run fuel ca cb a b = (a', b') →
  side_wf a' ∧ side_wf b' ∧ side_rest a' = side_rest a ∧ side_rest b' = side_rest b ∧
  length ca - cs_next a' ≤ length ca - cs_next a ∧ length cb - cs_next b' ≤ length cb - cs_next b.
Proof.
  induction fuel as [|fuel IH]; intros a b a' b' Wa Wb; cbn [skip_run].
  { intros [= <- <-]. split_and!; done || lia. }
  assert ((a, b) = (a', b') → side_wf a' ∧ side_wf b' ∧ side_rest a' = side_rest a ∧
    side_rest b' = side_rest b ∧ length ca - cs_next a' ≤ length ca - cs_next a ∧
    length cb - cs_next b' ≤ length cb - cs_next b) as Hstay
    by (intros [= <- <-]; split_and!; done || lia).
  destruct (ca !! cs_next a); [|done]. destruct (cb !! cs_next b); [|done].
  destruct (_ && _); [|done]. intros E. destruct (IH (skip_one a) (skip_one b) _ _ Wa Wb E) as (? & ? & ? & ? & ? & ?).
  cbn in *. split_and!; done || lia.
Qed.

Lemma chunk_step_progress ma mb w w' :
  side_wf (cw_a w) ∧ side_wf (cw_b w) → chunk_step ma mb w = inl w' →
  (side_wf (cw_a w') ∧ side_wf (cw_b w')) ∧ lex2 (chunks_unread ma mb) chunks_buffered w' w.
Proof.
  intros [Wa Wb]. unfold chunk_step. destruct (skip_run _ _ _ _ _) as [a0 b0] eqn:Es.
  destruct (skip_run_progress _ _ _ _ _ _ _ Wa Wb Es) as (Wa0 & Wb0 & Ra0 & Rb0 & La0 & Lb0).
  unfold m_bind. destruct (fill (cb_chunks ma) a0 _) as [[a|e] s1] eqn:Ea; [|done].
  destruct (fill (cb_chunks mb) b0 s1) as [[b|e] s2] eqn:Ebf; [|done]. cbn.
  destruct (fill_progress _ _ _ _ _ Wa0 Ea) as [Wa1 Pa].
  destruct (fill_progress _ _ _ _ _ Wb0 Ebf) as [Wb1 Pb]. rewrite Ra0 in Pa. rewrite Rb0 in Pb.
  assert (∀ na nb equal s, na ≤ length (side_rest a) → nb ≤ length (side_rest b) → 0 < na + nb →
    let w' := {| cw_a := move_to a (cs_pos a + na); cw_b := move_to b (cs_pos b + nb);
                 cw_equal := equal; cw_source := s |} in
    (side_wf (cw_a w') ∧ side_wf (cw_b w')) ∧
    lex2 (chunks_unread ma mb) chunks_buffered w' w) as Hmove.
  { intros na nb equal s Hna Hnb Hpos. destruct (move_rest a na Wa1 Hna) as [Wa2 Ma].
    destruct (move_rest b nb Wb1 Hnb) as [Wb2 Mb]. split; [done|].
    unfold lex2, chunks_unread, chunks_buffered. cbn [cw_a cw_b].
    rewrite Ma, Mb. cbn [move_to cs_next]. clear - Pa Pb La0 Lb0 Hna Hnb Hpos.
    destruct Pa as [Pa|(Pa & Ea & _)], Pb as [Pb|(Pb & Eb & _)];
      rewrite ?Ea, ?Eb in *; lia. }
  destruct (Nat.eqb_spec (length (side_rest a)) 0) as [La|La];
    destruct (Nat.eqb_spec (length (side_rest b)) 0) as [Lb|Lb]; cbn [andb].
  1:{ apply nil_length_inv in La, Lb. destruct (_ && _) eqn:E; [done|]. intros [= <-].
      split; [done|]. unfold lex2, chunks_unread, chunks_buffered. cbn. reflect.
      destruct Pa as [?|(? & ? & Pa)], Pb as [?|(? & ? & Pb)]; lia. }
  all: destruct (Nat.eqb _ 0) eqn:E; reflect; intros [= <-];
    [rewrite (move_all a), (move_all b) by done|]; apply Hmove; lia.
Qed.

(** The loop of [chunked_content_eq] returns for all manifests whatever the store
    answers, also when chunks are missing, empty or no blobs: its result is never
    the default. *)
Lemma chunked_content_eq_ok ma mb x y s :
  object_content (OChunkedBlob ma) = Ok x → object_content (OChunkedBlob mb) = Ok y → I s →
  eq_post (no_empty_chunk ma ∧ no_empty_chunk mb) x y (chunked_content_eq ma mb s).
Proof.
  intros (dsa & Ha & <- & La)%manifest_content (dsb & Hb & <- & Lb)%manifest_content Hs.
  unfold chunked_content_eq. destruct (N.eqb_spec (cb_total_size ma) (cb_total_size mb)) as [E|E].
  2:{ split; [done|]. right. exists false. split; [done|]. intros _ Ec. congruence. }
  apply chunk_list_spec in Ha as [Ha Wa], Hb as [Hb Wb].
  assert (∀ m ds, Forall2 (λ h d, chunk_view h = Ok d) (cb_chunks m) ds → no_empty_chunk m →
    Forall (λ d, d ≠ []) ds) as Hne.
  { intros m ds Hf Hn. apply list.Forall_forall. intros d Hd ->.
    apply list_elem_of_lookup in Hd as [i Hi].
    destruct (Forall2_lookup_r _ _ _ _ _ Hf Hi) as (h & Hh & Hv).
    apply (Hn h); [by eapply list_elem_of_lookup_2|done]. }
  assert (∀ m ds, Forall2 (λ h d, chunk_view h = Ok d) (cb_chunks m) ds →
    cb_chunks m = [] ∨ (0 + lenN (concat ds) < 2 ^ 64)%N → (lenN (concat ds) < 2 ^ 64)%N) as Hlt.
  { intros m ds Hf [Em|Hl]; [|lia]. rewrite Em in Hf. inv Hf. done. }
  cbn [negb]. set (w := {| cw_a := side_new; cw_b := side_new; cw_equal := true; cw_source := s |}).
  destruct (loop_refuel_rule (chunk_step ma mb) (chunks_unread ma mb) chunks_buffered
    (λ w, (side_wf (cw_a w) ∧ side_wf (cw_b w)) ∧ chunk_walk_ok ma mb dsa dsb w)
    (eq_post (both_full dsa dsb) (concat dsa) (concat dsb))) with (s := w) as (out & E' & Hout).
  - intros w' [Hw Hok]. pose proof (chunk_step_ok ma mb dsa dsb Ha Hb (Hlt _ _ Ha Wa)
      (Hlt _ _ Hb Wb) La Lb w' Hok) as Hstep. pose proof (chunk_step_progress ma mb w') as Hp.
    destruct (chunk_step ma mb w'); [|done]. by destruct (Hp _ Hw eq_refl).
  - split; [by split; apply le_n|]. split; [done|]. exists [], [].
    split_and!; [eapply side_new_ok; eauto..|done].
  - unfold chunks_unread in E' |- *. rewrite E'. destruct Hout as [HI Hv]. split; [done|].
    destruct Hv as [?|(v & Hv & Hb')]; [by left|right]. exists v. split; [done|].
    destruct v; [done|]. intros [Fa Fb]. apply Hb'. by split; eapply Hne.
Qed.

Lemma chunked_loop_total (ma mb : ChunkedBlob) (w : ChunkWalk) :
  side_wf (cw_a w) → side_wf (cw_b w) →
  ∃ out, loop_refuel (Datatypes.S (chunks_unread ma mb w)) (λ w, Datatypes.S (chunks_buffered w))
    (chunk_step ma mb) w = Some out.
Proof.
  intros Wa Wb. destruct (loop_refuel_rule (chunk_step ma mb) (chunks_unread ma mb) chunks_buffered
    (λ w, side_wf (cw_a w) ∧ side_wf (cw_b w)) (λ _, True)) with (s := w) as (out & E & _).
  - intros w' Hw. destruct (chunk_step ma mb w') as [w''|] eqn:E; [|done].
    by apply chunk_step_progress.
  - done.
  - by exists out.
Qed.

(** What [content_eq] promises of its result. *)
Definition content_eq_post (a b : hash32) (out : result StoreError bool * S) : Prop :=
  I out.2 ∧
  (out_of_budget out.1 ∨
   if bool_decide (a = b) then out.1 = Ok true
   else
     match view_object view a, view_object view b with
     | Ok (OChunkedBlob ma), Ok (OChunkedBlob mb) =>
         (out.1 = Ok true → cb_total_size ma = cb_total_size mb) ∧
         ∀ x y, content_view a = Ok x → content_view b = Ok y →
           ∃ v, out.1 = Ok v ∧ (v = true → x = y) ∧
             (no_empty_chunk ma → no_empty_chunk mb → x = y → v = true)
     | _, _ =>
         match out.1 with
         | Ok v => ∃ x y, content_view a = Ok x ∧ content_view b = Ok y ∧ v = bytes_eqb x y
         | Err e => content_view a = Err e ∨ content_view b = Err e
         end
     end).

Lemma fill_keeps chunks c s : I s → I (fill chunks c s).2.
Proof.
  intros Hs. unfold fill, m_bind. destruct (at_boundary c); [|done].
  destruct (chunks !! _) as [h|]; [|done].
  destruct (read_blob_chunk_follows h s Hs) as [HI _].
  destruct (read_blob_chunk h s) as [[d|e] s']; [|done]. cbn in *. by destruct (checked_add _ _).
Qed.

Lemma chunked_content_eq_keeps ma mb s : I s → I (chunked_content_eq ma mb s).2.
Proof.
  intros Hs. unfold chunked_content_eq. destruct (negb _); [done|].
  set (w := {| cw_a := side_new; cw_b := side_new; cw_equal := true; cw_source := s |}).
  destruct (loop_refuel_rule (chunk_step ma mb) (chunks_unread ma mb) chunks_buffered
    (λ w, (side_wf (cw_a w) ∧ side_wf (cw_b w)) ∧ I (cw_source w)) (λ out, I out.2))
    with (s := w) as (out & E & HI); [|split; [split; apply le_n|done]|by rewrite E].
  intros w' [Hw HI]. pose proof (chunk_step_progress ma mb w') as Hp.
  unfold chunk_step in *. destruct (skip_run _ _ _ _ _) as [a0 b0]. unfold m_bind in *.
  pose proof (fill_keeps (cb_chunks ma) a0 _ HI) as H1.
  destruct (fill (cb_chunks ma) a0 _) as [[a|e] s1]; [|done].
  pose proof (fill_keeps (cb_chunks mb) b0 s1 H1) as H2.
  destruct (fill (cb_chunks mb) b0 s1) as [[b|e] s2]; [|done]. cbn in *.
  repeat case_match; try done; destruct (Hp _ Hw eq_refl); done.
Qed.

Lemma m_bind_Ok {A C} (m : M S A) (f : A → M S C) a s s' :
  m s = (Ok a, s') → m_bind m f s = f a s'.
Proof. unfold m_bind. by intros ->. Qed.

Lemma m_bind_Err {A C} (m : M S A) (f : A → M S C) e s s' :
  m s = (Err e, s') → m_bind m f s = (Err e, s').
Proof. unfold m_bind. by intros ->. Qed.

Lemma content_eq_ok (a b : hash32) (s : S) : I s → content_eq_post a b (content_eq a b s).
Proof.
  intros Hs. unfold content_eq. destruct (bool_decide (a = b)) eqn:Hab.
  { unfold content_eq_post. rewrite Hab. split; [done|by right]. }
  assert (∀ out, I out.2 → out_of_budget out.1 → content_eq_post a b out) as Hbudget
    by (intros out ??; split; [done|by left]).
  destruct (follows_read_object a s Hs) as [Ia Ra].
  destruct (src_read_object a s) as [[oa|ea] s1] eqn:Era; cbn in Ia, Ra.
  2:{ rewrite (m_bind_Err _ _ _ _ _ Era). destruct Ra as [Ra|[name [= ->]]];
        [|apply Hbudget; [done|by exists name]].
      split; [done|]. right. rewrite Hab, <- Ra. left. unfold content_view. by rewrite <- Ra. }
  destruct Ra as [Ra|[? ?]]; [|done]. rewrite (m_bind_Ok _ _ _ _ _ Era).
  destruct (follows_read_object b s1 Ia) as [Ib Rb].
  destruct (src_read_object b s1) as [[ob|eb] s2] eqn:Erb; cbn in Ib, Rb.
  2:{ rewrite (m_bind_Err _ _ _ _ _ Erb). destruct Rb as [Rb|[name [= ->]]];
        [|apply Hbudget; [done|by exists name]].
      split; [done|]. right. rewrite Hab, <- Ra, <- Rb.
      assert (content_view b = Err eb) as Eb by (unfold content_view; by rewrite <- Rb).
      destruct oa; by right. }
  destruct Rb as [Rb|[? ?]]; [|done]. rewrite (m_bind_Ok _ _ _ _ _ Erb).
  unfold content_eq_post. rewrite Hab, <- Ra, <- Rb.
  assert (content_view a = object_content oa) as -> by (unfold content_view; by rewrite <- Ra).
  assert (content_view b = object_content ob) as -> by (unfold content_view; by rewrite <- Rb).
  assert (let r := m_bind (m_lift (cursor_from_object oa)) (λ lc,
      m_bind (m_lift (cursor_from_object ob)) (λ rc, cursors_eq lc rc)) s2 in
    I r.2 ∧ (out_of_budget r.1 ∨
      match r.1 with
      | Ok v => ∃ x y, object_content oa = Ok x ∧ object_content ob = Ok y ∧ v = bytes_eqb x y
      | Err e => object_content oa = Err e ∨ object_content ob = Err e
      end)) as Hmixed.
  { cbn zeta. unfold m_bind, m_lift. pose proof (cursor_from_object_view oa) as Va.
    pose proof (cursor_from_object_view ob) as Vb.
    destruct (cursor_from_object oa) as [lc|e]; [|split; [done|]; right; by left].
    destruct (cursor_from_object ob) as [rc|e]; [|split; [done|]; right; by right].
    destruct Va as [<- Oa], Vb as [<- Ob]. by apply cursors_eq_ok. }
  destruct oa as [| | | |ma| |]; try exact Hmixed. destruct ob as [| | | |mb| |]; try exact Hmixed.
  split; [by apply chunked_content_eq_keeps|].
  destruct (chunked_content_eq ma mb s2) as [r s3] eqn:Ec.
  assert (r = Ok true → cb_total_size ma = cb_total_size mb) as Hsize.
  { intros ->. unfold chunked_content_eq in Ec.
    by destruct (N.eqb_spec (cb_total_size ma) (cb_total_size mb)). }
  destruct (object_content (OChunkedBlob ma)) as [x|] eqn:Ex; [|by right; split; [|intros ?? [=]]].
  destruct (object_content (OChunkedBlob mb)) as [y|] eqn:Ey; [|by right; split; [|intros ??? [=]]].
  destruct (chunked_content_eq_ok ma mb x y s2 Ex Ey Ib) as [_ Hr]. rewrite Ec in Hr.
  destruct Hr as [Hr|(v & Hr & Hv)]; [by left|right]. split; [done|].
  intros ?? [= <-] [= <-]. exists v.
  split; [done|]. destruct v; [done|]. split; [done|]. intros Na Nb ->. by destruct (Hv (conj Na Nb)).
Qed.

(** C16: [content_eq] decides equality of contents, not of layouts. Over any source with
    a view, unless a budget runs out: equal ids are equal; two objects that are not
    both chunked blobs are equal exactly when both contents are valid and the same
    bytes, and an invalid content is its error. Of two chunked blobs the claim is only
    for valid contents (every chunk a readable blob, the sizes as declared), since
    chunks with equal ids are skipped unread (an answer [true] then only says that the
    declared sizes are equal): for valid contents the answer [true] means that the
    contents are the same bytes, whatever the chunk boundaries; and if, besides, no
    chunk of either is empty, contents that are the same bytes are answered [true].
    With an empty chunk they may be answered [false]. *)
Theorem content_eq_spec (a b : hash32) (s : S) (Hs : I s) :
  content_eq_post a b (content_eq a b s).
Proof. exact (content_eq_ok a b s Hs). Qed.
End content.

(** ** A view that grows *)

(** What the first view reads, the second reads too. *)
Definition extends (v v' : hash32 → result StoreError bytes) : Prop :=
  ∀ h x, v h = Ok x → v' h = Ok x.

#[export] Instance extends_preorder : PreOrder extends.
Proof. split; [by intros v h x|]. intros v1 v2 v3 H12 H23 h x Hx. by apply H23, H12. Qed.

Section grows.
Context `{B : Blake3} (v v' : hash32 → result StoreError bytes) (Hv : extends v v').

Lemma view_object_mono h o : view_object v h = Ok o → view_object v' h = Ok o.
Proof.
  unfold view_object. intros (bs & Hbs%Hv & Hd)%bind_Ok. apply bind_Ok. by exists bs.
Qed.

Lemma chunk_view_mono h d : chunk_view v h = Ok d → chunk_view v' h = Ok d.
Proof.
  unfold chunk_view. intros (o & Ho%view_object_mono & Hd)%bind_Ok. apply bind_Ok. by exists o.
Qed.

Lemma chunk_list_mono chunks : ∀ size ds,
  chunk_list v size chunks = Ok ds → chunk_list v' size chunks = Ok ds.
Proof.
  induction chunks as [|h chunks IH]; intros size ds; cbn [chunk_list]; [done|].
  intros (d & Hd%chunk_view_mono & (n & Hn & (rest & Hr%IH & H)%bind_Ok)%bind_Ok)%bind_Ok.
  rewrite Hd. cbn. rewrite Hn. cbn. by rewrite Hr.
Qed.

Lemma content_view_mono h x : content_view v h = Ok x → content_view v' h = Ok x.
Proof.
  unfold content_view. intros (o & Ho%view_object_mono & Hx)%bind_Ok. rewrite Ho. cbn.
  destruct o; try done. cbn [object_content] in *.
  apply bind_Ok in Hx as (ds & Hds%chunk_list_mono & Hx). by rewrite Hds.
Qed.

(** The chunks of a valid content stay what they are. *)
Lemma no_empty_chunk_mono h x m :
  content_view v h = Ok x → view_object v h = Ok (OChunkedBlob m) →
  no_empty_chunk v m → no_empty_chunk v' m.
Proof.
  unfold content_view. intros Hx Hm Hn c Hc He. rewrite Hm in Hx. cbn in Hx.
  apply bind_Ok in Hx as (ds & [Hf _]%chunk_list_spec & _).
  apply list_elem_of_lookup in Hc as [i Hi].
  destruct (Forall2_lookup_l _ _ _ _ _ Hf Hi) as (d & _ & Hd).
  rewrite (chunk_view_mono _ _ Hd) in He. injection He as ->.
  apply (Hn c); [by eapply list_elem_of_lookup_2|done].
Qed.
End grows.

(** ** An example store *)

Import Toy.

Definition store_object (o : Object) (st : ObjectStore) : hash32 * ObjectStore :=
  let bs := default [] (to_option (serialize o)) in
  (object_id_from_bytes bs, (write None bs st).2).

(** The content ["ab"] as one chunk, as two chunks, and as an empty chunk and one more. *)
Definition ex_layouts : hash32 * hash32 * hash32 * ObjectStore :=
  let blob s st := store_object (OBlob {| blob_data := s |}) st in
  let chunked chunks st := store_object (OChunkedBlob
    {| cb_total_size := 2; cb_chunk_size := 0; cb_chunks := chunks |}) st in
  let '(ab, st) := blob (b# "ab") {| disk := ∅ |} in
  let '(a, st) := blob (b# "a") st in
  let '(b, st) := blob (b# "b") st in
  let '(e, st) := blob [] st in
  let '(one, st) := chunked [ab] st in
  let '(two, st) := chunked [a; b] st in
  let '(empty, st) := chunked [e; ab] st in
  (one, two, empty, st).
Definition ex_one : hash32 := ex_layouts.1.1.1.
Definition ex_two : hash32 := ex_layouts.1.1.2.
Definition ex_empty : hash32 := ex_layouts.1.2.
Definition ex_store : ObjectStore := ex_layouts.2.

Definition same_fingerprint (r1 r2 : result StoreError (N * hash32)) : bool :=
  match r1, r2 with Ok f1, Ok f2 => bool_decide (f1 = f2) | _, _ => false end.

(** An empty chunk makes [content_eq] deny equal contents. Two manifests of the same
    two bytes, one of them with an empty first chunk, have equal fingerprints and both
    equal the bytes by [content_eq_bytes]; [content_eq] takes the empty chunk for the
    end of its side and answers that they differ. *)
Theorem content_eq_empty_chunk :
  (content_eq_bytes ex_one (b# "ab") ex_store).1 = Ok true ∧
  (content_eq_bytes ex_empty (b# "ab") ex_store).1 = Ok true ∧
  same_fingerprint (content_fingerprint ex_one ex_store).1
    (content_fingerprint ex_empty ex_store).1 = true ∧
  (content_eq ex_one ex_two ex_store).1 = Ok true ∧
  (content_eq ex_one ex_empty ex_store).1 = Ok false.
Proof. vm_compute. exact (conj eq_refl (conj eq_refl (conj eq_refl (conj eq_refl eq_refl)))). Qed.

Lemma content_eq_spec_witness :
  content_eq_post (eq ex_store) (read ex_store) ex_one ex_two (content_eq ex_one ex_two ex_store).
Proof.
  apply (content_eq_spec (eq ex_store) (read ex_store) ex_one ex_two ex_store). reflexivity.
Defined.

Lemma content_fingerprint_spec_witness :
  let r := content_fingerprint ex_two ex_store in
  ex_store = r.2 ∧
  (r.1 = (x ← content_view (read ex_store) ex_two; Ok (lenN x, b3_hash x)) ∨ out_of_budget r.1).
Proof.
  apply (content_fingerprint_spec (eq ex_store) (read ex_store) ex_two ex_store). reflexivity.
Defined.
