(* ===== verification/Utf8.v ===== *)
(** * UTF-8

    [String::from_utf8_lossy] of the standard library, which the path joiners of
    the merge and the diff call: well-formed sequences are kept, and every maximal
    ill-formed prefix becomes U+FFFD. *)

From S2P Require Import Prelude.

Definition in_range (lo hi : N) (b : byte) : bool := (lo <=? b2n b)%N && (b2n b <=? hi)%N.
Definition is_continuation (b : byte) : bool := in_range 128 191 b.

(** The second byte that a first byte of a sequence of three or four admits. *)
Definition second_of_3 (b : byte) : option (N * N) :=
  if (b2n b =? 224)%N then Some (160, 191)%N
  else if in_range 225 236 b then Some (128, 191)%N
  else if (b2n b =? 237)%N then Some (128, 159)%N
  else if in_range 238 239 b then Some (128, 191)%N
  else None.

Definition second_of_4 (b : byte) : option (N * N) :=
  if (b2n b =? 240)%N then Some (144, 191)%N
  else if in_range 241 243 b then Some (128, 191)%N
  else if (b2n b =? 244)%N then Some (128, 143)%N
  else None.

(** The first sequence of a text: whether it is well formed, and its length; of an
    ill-formed one, the length of its maximal prefix. *)
Definition utf8_head (l : bytes) : bool * nat :=
  let at_pos i := nth i l Byte.x00 in
  let b := at_pos 0 in
  let within r c := match r with Some (lo, hi) => in_range lo hi c | None => false end in
  if (b2n b <? 128)%N then (true, 1)
  else if in_range 194 223 b then
    if is_continuation (at_pos 1) then (true, 2) else (false, 1)
  else if in_range 224 239 b then
    if within (second_of_3 b) (at_pos 1) then
      if is_continuation (at_pos 2) then (true, 3) else (false, 2)
    else (false, 1)
  else if in_range 240 244 b then
    if within (second_of_4 b) (at_pos 1) then
      if is_continuation (at_pos 2) then
        if is_continuation (at_pos 3) then (true, 4) else (false, 3)
      else (false, 2)
    else (false, 1)
  else (false, 1).

(** [str::from_utf8(l).is_ok()]. *)
Fixpoint from_utf8_fuel (fuel : nat) (l : bytes) : bool :=
  match fuel, l with
  | S fuel, _ :: _ =>
      let '(ok, n) := utf8_head l in
      (ok : bool) && from_utf8_fuel fuel (drop n l)
  | _, _ => true
  end.

Definition from_utf8 (l : bytes) : bool := from_utf8_fuel (length l) l.

Definition replacement : bytes := [Byte.xef; Byte.xbf; Byte.xbd].

Fixpoint from_utf8_lossy_fuel (fuel : nat) (l : bytes) : bytes :=
  match fuel, l with
  | S fuel, _ :: _ =>
      let '(ok, n) := utf8_head l in
      (if ok : bool then take n l else replacement) ++ from_utf8_lossy_fuel fuel (drop n l)
  | _, _ => []
  end.

(** Every round consumes a byte. *)
Definition from_utf8_lossy (l : bytes) : bytes := from_utf8_lossy_fuel (length l) l.

(** Names of ASCII bytes are kept as they are. *)
Lemma from_utf8_lossy_ascii l :
  Forall (λ b, b2n b < 128)%N l → from_utf8_lossy l = l.
Proof.
  unfold from_utf8_lossy. induction 1 as [|b l Hb Hl IH]; [done|]. cbn [length from_utf8_lossy_fuel].
  unfold utf8_head. cbn [nth]. rewrite (proj2 (N.ltb_lt _ _)) by done.
  rewrite skipn_cons, drop_0, IH. done.
Qed.

Example lossy_keeps_two_bytes :
  from_utf8_lossy [Byte.xc3; Byte.xa9] = [Byte.xc3; Byte.xa9].
Proof. reflexivity. Qed.

Example lossy_replaces :
  from_utf8_lossy [Byte.x61; Byte.xe2; Byte.x82; Byte.x62] = [Byte.x61] ++ replacement ++ [Byte.x62].
Proof. reflexivity. Qed.
