(* ===== verification/MergeTrees.v ===== *)
(** * The three-way merge of trees

    Models the tree half of [rust/crates/mkit-core/src/ops/merge.rs]. The walk is
    over the three sorted entry lists in lockstep; a name in all sides as a tree is
    merged one level down. [levels] counts the levels that [MAX_TREE_DEPTH] still
    allows, so the recursion needs no other fuel. *)

From S2P Require Import Prelude Hash Object Serialize ObjectId Store Diff Content Utf8.

Notation "'do!' x ← m ; f" := (m_bind m (λ x, f))
  (at level 100, x binder, f at level 200, right associativity).

Inductive ConflictKind := ModifyModify | DeleteModify | AddAdd.

Record Conflict := {
  cf_path : bytes;
  cf_kind : ConflictKind;
  cf_base_hash : option hash32;
  cf_ours_hash : option hash32;
  cf_theirs_hash : option hash32;
  cf_ours_mode : option EntryMode.t;
  cf_theirs_mode : option EntryMode.t
}.

Record MergeResult := { mr_tree_hash : hash32; mr_conflicts : list Conflict }.

Definition has_conflicts (r : MergeResult) : bool :=
  match mr_conflicts r with [] => false | _ => true end.

Definition join_path (prefix name : bytes) : bytes :=
  match prefix with
  | [] => from_utf8_lossy name
  | _ => prefix ++ b# "/" ++ from_utf8_lossy name
  end.

(** [min_of_three], of the names that are left. *)
Definition min2 (r x : option bytes) : option bytes :=
  match x with
  | None => r
  | Some xv => match r with
               | Some rv => if bytes_leb rv xv then Some rv else Some xv
               | None => Some xv
               end
  end.
Definition min_of_three (a b c : option bytes) : option bytes := min2 (min2 a b) c.

Definition entry_of (name : bytes) (mode : EntryMode.t) (h : hash32) : TreeEntry :=
  {| te_name := name; te_mode := mode; te_hash := h |}.

Section merge.
Context `{B : Blake3} {S : Type} `{!ObjectSource S, !ObjectSink S}.

Definition load_entries (h : option hash32) : M S (list TreeEntry) :=
  match h with
  | Some h =>
      do! o ← src_read_object h;
      m_lift match o with
             | OTree t => Ok (tree_entries t)
             | other => Err (Decode (InvalidObjectType (ObjectType.to_u8 (object_type other))))
             end
  | None => m_ret []
  end.

Definition put_object (o : Object) : M S hash32 :=
  do! bs ← m_lift (decode_err (serialize o));
  sink_put bs.

Definition put_tree (entries : list TreeEntry) : M S hash32 :=
  put_object (OTree {| tree_entries := entries |}).

Definition single_blob_bytes (h : hash32) : M S (option bytes) :=
  do! o ← src_read_object h;
  m_ret match o with OBlob b => Some (blob_data b) | _ => None end.

Definition try_text_merge (base_h ours_h theirs_h : hash32) : M S (option hash32) :=
  do! base ← single_blob_bytes base_h;
  do! ours ← single_blob_bytes ours_h;
  do! theirs ← single_blob_bytes theirs_h;
  match base, ours, theirs with
  | Some base, Some ours, Some theirs =>
      match merge_blob_3way base ours theirs with
      | Some merged => do! h ← put_object (OBlob {| blob_data := merged |}); m_ret (Some h)
      | None => m_ret None
      end
  | _, _, _ => m_ret None
  end.

Definition is_tree (e : TreeEntry) : bool := bool_decide (te_mode e = EntryMode.Tree).

Definition hash_and_mode_eq (a b : TreeEntry) : M S bool :=
  if bool_decide (te_mode a = te_mode b) then
    if bool_decide (te_hash a = te_hash b) then m_ret true
    else if negb (is_tree a) then content_eq (te_hash a) (te_hash b)
    else m_ret false
  else m_ret false.

(** [merged] and [conflicts], which the walk appends to. *)
Record Merged := { mg_entries : list TreeEntry; mg_conflicts : list Conflict }.

Definition add_entry (name : bytes) (mode : EntryMode.t) (h : hash32) (out : Merged) : Merged :=
  {| mg_entries := mg_entries out ++ [entry_of name mode h]; mg_conflicts := mg_conflicts out |}.

Definition push_conflict (c : Conflict) (out : Merged) : Merged :=
  {| mg_entries := mg_entries out; mg_conflicts := mg_conflicts out ++ [c] |}.

Definition conflict_of (prefix name : bytes) (kind : ConflictKind) (b o t : option TreeEntry)
    : Conflict :=
  {| cf_path := join_path prefix name; cf_kind := kind;
     cf_base_hash := te_hash <$> b; cf_ours_hash := te_hash <$> o; cf_theirs_hash := te_hash <$> t;
     cf_ours_mode := te_mode <$> o; cf_theirs_mode := te_mode <$> t |}.

(** One level of the walk: [sub] merges the entries of three subtrees under a longer
    path, one level down. *)
Section level.
Context (sub : list TreeEntry → list TreeEntry → list TreeEntry → bytes → list Conflict →
               M S Merged).
Context (prefix : bytes).

Definition recurse_subtree_merge (base_sub ours_sub theirs_sub : option hash32) (name : bytes)
    (out : Merged) : M S Merged :=
  do! base_entries ← load_entries base_sub;
  do! ours_entries ← load_entries ours_sub;
  do! theirs_entries ← load_entries theirs_sub;
  do! sub_out ← sub base_entries ours_entries theirs_entries (join_path prefix name)
                  (mg_conflicts out);
  do! sub_hash ← put_tree (mg_entries sub_out);
  m_ret {| mg_entries := mg_entries out ++ [entry_of name EntryMode.Tree sub_hash];
           mg_conflicts := mg_conflicts sub_out |}.

Definition is_file (e : TreeEntry) : bool :=
  match te_mode e with EntryMode.Blob | EntryMode.Executable => true | _ => false end.

(** All three sides have the name. *)
Definition merge_three (name : bytes) (b o t : TreeEntry) (out : Merged) : M S Merged :=
  let recurse b o t := recurse_subtree_merge (Some (te_hash b)) (Some (te_hash o))
                         (Some (te_hash t)) name out in
  let take_entry e := m_ret (add_entry name (te_mode e) (te_hash e) out) in
  do! b_eq_o ← hash_and_mode_eq b o;
  do! b_eq_t ← hash_and_mode_eq b t;
  do! o_eq_t ← hash_and_mode_eq o t;
  if b_eq_o && b_eq_t then take_entry b
  else if b_eq_t && negb b_eq_o then
    if is_tree b && is_tree o then recurse b o b else take_entry o
  else if b_eq_o && negb b_eq_t then
    if is_tree b && is_tree t then recurse b b t else take_entry t
  else if o_eq_t then
    if is_tree b && is_tree o then recurse b o t else take_entry o
  else if is_tree b && is_tree o && is_tree t then recurse b o t
  else
    do! text ← (if bool_decide (te_mode o = te_mode t) && is_file o
                then try_text_merge (te_hash b) (te_hash o) (te_hash t) else m_ret None);
    match text with
    | Some merged_hash => m_ret (add_entry name (te_mode o) merged_hash out)
    | None =>
        m_ret (add_entry name (te_mode o) (te_hash o)
          (push_conflict (conflict_of prefix name ModifyModify (Some b) (Some o) (Some t)) out))
    end.

(** The [match] on the entries of the three sides. *)
Definition merge_name (name : bytes) (b o t : option TreeEntry) (out : Merged) : M S Merged :=
  let take_entry e out := add_entry name (te_mode e) (te_hash e) out in
  match b, o, t with
  | Some b, Some o, Some t => merge_three name b o t out
  | None, Some o, None => m_ret (take_entry o out)
  | None, None, Some t => m_ret (take_entry t out)
  | None, Some o, Some t =>
      do! eq ← hash_and_mode_eq o t;
      if eq then m_ret (take_entry o out)
      else if is_tree o && is_tree t then
        recurse_subtree_merge None (Some (te_hash o)) (Some (te_hash t)) name out
      else m_ret (take_entry o
        (push_conflict (conflict_of prefix name AddAdd None (Some o) (Some t)) out))
  | Some b, Some o, None =>
      do! eq ← hash_and_mode_eq b o;
      if eq then m_ret out
      else m_ret (take_entry o
        (push_conflict (conflict_of prefix name DeleteModify (Some b) (Some o) None) out))
  | Some b, None, Some t =>
      do! eq ← hash_and_mode_eq b t;
      if eq then m_ret out
      else m_ret (take_entry t
        (push_conflict (conflict_of prefix name DeleteModify (Some b) None (Some t)) out))
  | Some _, None, None => m_ret out
  | None, None, None => m_ret out
  end.

(** The head of a list when it has the name, and the list after it. *)
Definition pop (name : bytes) (l : list TreeEntry) : option TreeEntry * list TreeEntry :=
  match l with
  | e :: l' => if bytes_eqb (te_name e) name then (Some e, l') else (None, l)
  | [] => (None, [])
  end.

Definition head_name (l : list TreeEntry) : option bytes := te_name <$> head l.

(** The [while] loop over the three lists; every round takes an entry off one. *)
Fixpoint merge_walk (fuel : nat) (bs os ts : list TreeEntry) (out : Merged) : M S Merged :=
  match fuel with
  | O => m_ret out
  | Datatypes.S fuel =>
      match min_of_three (head_name bs) (head_name os) (head_name ts) with
      | None => m_ret out
      | Some name =>
          let '(b, bs) := pop name bs in
          let '(o, os) := pop name os in
          let '(t, ts) := pop name ts in
          do! out ← merge_name name b o t out;
          merge_walk fuel bs os ts out
      end
  end.
End level.

(** [merge_entries_recursive]; [levels]: [MAX_TREE_DEPTH + 1 - depth]. *)
Fixpoint merge_entries_recursive (levels : nat) (bs os ts : list TreeEntry) (prefix : bytes)
    (conflicts : list Conflict) : M S Merged :=
  match levels with
  | O => m_lift (Err TreeTooDeep)
  | Datatypes.S levels =>
      merge_walk (merge_entries_recursive levels) prefix (length bs + length os + length ts)
        bs os ts {| mg_entries := []; mg_conflicts := conflicts |}
  end.

Definition ALL_LEVELS : nat := Datatypes.S (N.to_nat MAX_TREE_DEPTH).

Definition merge_trees (base_hash ours_hash theirs_hash : option hash32) : M S MergeResult :=
  do! base_entries ← load_entries base_hash;
  do! ours_entries ← load_entries ours_hash;
  do! theirs_entries ← load_entries theirs_hash;
  do! out ← merge_entries_recursive ALL_LEVELS base_entries ours_entries theirs_entries [] [];
  do! tree_hash ← put_tree (mg_entries out);
  m_ret {| mr_tree_hash := tree_hash; mr_conflicts := mg_conflicts out |}.
End merge.
