(* ===== verification/MergeTreesFacts.v ===== *)
(** * The tree merge decides every name once, as specified

    The lockstep walk is the fold of the per-name decision over the sorted union of
    names; what it gives is the relation [merges], which says for each name, at every
    depth, which entry is taken or merged and which conflict is reported; merged trees
    are sorted; a side that equals another one causes no conflict, and the merge is
    then the other side: its entries, down to the content of the files. *)

From S2P Require Import Prelude Hash Object Serialize SerializeFacts ObjectId Store StoreFacts Diff Content ContentFacts Utf8 MergeTrees.

Abbreviation ascending := (StronglySorted (λ a b : bytes, bytes_ltb a b = true)).

Definition names (l : list TreeEntry) : list bytes := te_name <$> l.

(** The entry of a name. *)
Definition find_name (n : bytes) (l : list TreeEntry) : option TreeEntry :=
  List.find (λ e, bytes_eqb (te_name e) n) l.

(** ** The least of three sorted lists *)

(** [n] is no greater than any name of the list. *)
Definition least (n : bytes) (l : list TreeEntry) : Prop :=
  ∀ x, x ∈ names l → n = x ∨ bytes_ltb n x = true.

Lemma bytes_leb_spec a b : bytes_leb a b = true ↔ a = b ∨ bytes_ltb a b = true.
Proof.
  rewrite bytes_leb_ltb, negb_true_iff. destruct (ltb_tot (ltb := bytes_ltb) a b) as [H|[->|H]].
  - split; [by right|]. intros _. apply not_true_iff_false. intros H'.
    by apply (ltb_irr (ltb := bytes_ltb) a), (ltb_tr (ltb := bytes_ltb) _ b).
  - split; [by left|]. intros _. apply not_true_iff_false, ltb_irr.
  - rewrite H. split; [done|]. intros [->|H']; [by apply ltb_irr in H|].
    by destruct (ltb_irr (ltb := bytes_ltb) a), (ltb_tr (ltb := bytes_ltb) a b a).
Qed.

Lemma least_head e l : ascending (names (e :: l)) → least (te_name e) (e :: l).
Proof.
  intros H x [->|Hx]%elem_of_cons; [by left|right]. inv H as [|? ? _ Hf].
  rewrite list.Forall_forall in Hf. by apply Hf.
Qed.

(** The least name of two lists, and of three. *)
Definition least_of (n : option bytes) (ls : list (list TreeEntry)) : Prop :=
  match n with
  | None => Forall (λ l, l = []) ls
  | Some n => Forall (least n) ls ∧ Exists (λ l, n ∈ names l) ls
  end.

Lemma least_trans n m l : n = m ∨ bytes_ltb n m = true → least m l → least n l.
Proof.
  intros [->|Hn] Hm; [done|]. intros x Hx. right. destruct (Hm x Hx) as [->|?]; [done|].
  by apply (ltb_tr (ltb := bytes_ltb) _ m).
Qed.

Lemma min2_least r ls l :
  least_of r ls → ascending (names l) → least_of (min2 r (head_name l)) (ls ++ [l]).
Proof.
  intros Hr Hl. destruct l as [|e l]; cbn [head_name head fmap option_fmap option_map min2].
  - destruct r as [n|]; cbn in *.
    + destruct Hr as [H1 H2]. split; [|apply Exists_app; by left].
      apply Forall_app. split; [done|]. constructor; [|constructor]. intros x Hx. inv Hx.
    + apply Forall_app. by repeat constructor.
  - pose proof (least_head e l Hl) as Hle. assert (te_name e ∈ names (e :: l)) as Hin by left.
    destruct r as [n|]; cbn in *.
    + destruct Hr as [H1 H2]. destruct (bytes_leb n (te_name e)) eqn:E.
      * apply bytes_leb_spec in E. split; [|apply Exists_app; by left].
        apply Forall_app. split; [done|]. constructor; [|constructor]. by eapply least_trans.
      * rewrite bytes_leb_ltb, negb_false_iff in E. split.
        -- apply Forall_app. split; [|by apply list.Forall_singleton].
           eapply list.Forall_impl; [exact H1|]. intros k. apply least_trans. by right.
        -- apply Exists_app. right. by constructor.
    + split; [|apply Exists_app; right; by constructor]. apply Forall_app.
      split; [|by apply list.Forall_singleton]. eapply list.Forall_impl; [exact Hr|].
      intros k -> x Hx. inv Hx.
Qed.

Lemma min_of_three_least bs os ts :
  ascending (names bs) → ascending (names os) → ascending (names ts) →
  least_of (min_of_three (head_name bs) (head_name os) (head_name ts)) [bs; os; ts].
Proof.
  intros Hb Ho Ht. unfold min_of_three.
  assert (least_of (head_name bs) [bs]) as H.
  { pose proof (min2_least None [] bs) as H. cbn in H. destruct (head_name bs); by apply H. }
  apply (min2_least _ [bs; os]); [|done]. by apply (min2_least _ [bs]).
Qed.

(** ** Taking the least name off a list *)

Lemma find_name_None n l : n ∉ names l → find_name n l = None.
Proof.
  induction l as [|e l IH]; [done|]. unfold names. rewrite fmap_cons.
  intros [Hne Hn]%not_elem_of_cons. cbn. destruct (bytes_eqb (te_name e) n) eqn:E.
  - apply bytes_eqb_eq in E. congruence.
  - by apply IH.
Qed.

Lemma ascending_head_notin n l : ascending (n :: l) → n ∉ l.
Proof.
  intros H Hin. inv H as [|? ? _ Hf]. rewrite list.Forall_forall in Hf.
  by apply (ltb_irr (ltb := bytes_ltb) n), Hf.
Qed.

Lemma ascending_head_least n l x : ascending (n :: l) → x ∈ l → bytes_ltb n x = true.
Proof. intros H Hx. inv H as [|? ? _ Hf]. rewrite list.Forall_forall in Hf. by apply Hf. Qed.

Lemma sublist_ascending (l k : list bytes) : l `sublist_of` k → ascending k → ascending l.
Proof.
  induction 1 as [|x l k Hs IH|x l k Hs IH]; intros Hk; [done|inv Hk..]; [|auto].
  constructor; [auto|]. apply list.Forall_forall. intros y Hy.
  rewrite list.Forall_forall in *. eauto using elem_of_sublist.
Qed.

(** Of two ascending lists, one that has the elements of the other contains it. *)
Lemma ascending_sublist (l k : list bytes) :
  ascending l → ascending k → (∀ x, x ∈ l → x ∈ k) → l `sublist_of` k.
Proof.
  revert l. induction k as [|y k IH]; intros [|x l] Hl Hk Hin.
  - done.
  - specialize (Hin x (list_elem_of_here _ _)). inv Hin.
  - apply sublist_nil_l.
  - assert (ascending l ∧ ascending k) as [Hl' Hk'] by (by inv Hl; inv Hk).
    destruct (decide (x = y)) as [->|Hxy].
    + apply sublist_skip, IH; [done..|]. intros z Hz.
      assert (z ≠ y) by (intros ->; by apply (ascending_head_notin y l)).
      assert (z ∈ y :: k) as Hk2 by (apply Hin; by right). by inv Hk2.
    + assert (x ∈ k) as Hx.
      { assert (x ∈ y :: k) as Hk2 by (apply Hin; by left). by inv Hk2. }
      apply sublist_cons, IH; [done..|]. intros z Hz.
      destruct (proj1 (elem_of_cons k z y) (Hin z Hz)) as [->|?]; [|done].
      pose proof (ascending_head_least _ _ _ Hk Hx) as Hlt.
      apply elem_of_cons in Hz as [->|Hz]; [done|].
      apply (ascending_head_least _ _ _ Hl) in Hz.
      by destruct (ltb_irr (ltb := bytes_ltb) y), (ltb_tr (ltb := bytes_ltb) y x y).
Qed.

Lemma pop_spec n l :
  ascending (names l) → least n l →
  ∃ l', pop n l = (find_name n l, l') ∧ ascending (names l') ∧
    length l' + (if bool_decide (n ∈ names l) then 1 else 0) = length l ∧
    (∀ x, x ∈ names l' ↔ x ∈ names l ∧ x ≠ n) ∧
    (∀ x, x ≠ n → find_name x l' = find_name x l).
Proof.
  intros Hl Hn. destruct l as [|e l].
  { exists []. cbn. split_and!; [done..|set_solver|done]. }
  cbn [pop find_name List.find]. destruct (bytes_eqb (te_name e) n) eqn:E.
  - apply bytes_eqb_eq in E as <-. exists l. pose proof (ascending_head_notin _ _ Hl) as Hni.
    inv Hl as [|? ? Hl' _]. split_and!; [done..| | |].
    + rewrite bool_decide_true by left. cbn. lia.
    + intros x. unfold names at 2. rewrite fmap_cons, elem_of_cons. unfold names in *.
      split; [|naive_solver]. intros Hx. split; [by right|]. by intros ->.
    + intros x Hx. cbn. case_match eqn:Ex; [|done]. apply bytes_eqb_eq in Ex. congruence.
  - assert (n ∉ names (e :: l)) as Hni.
    { unfold names. rewrite fmap_cons. intros [->|Hin]%elem_of_cons.
      - by rewrite (proj2 (bytes_eqb_eq _ _)) in E.
      - assert (te_name e = n ∨ bytes_ltb (te_name e) n = true) as [He|He].
        { apply (least_head e l Hl). by right. }
        + by rewrite (proj2 (bytes_eqb_eq _ _)) in E.
        + destruct (Hn (te_name e)) as [->|Hlt]; [left|by apply ltb_irr in He|].
          by apply (ltb_irr (ltb := bytes_ltb) n), (ltb_tr (ltb := bytes_ltb) _ (te_name e)). }
    exists (e :: l). rewrite bool_decide_false by done. split_and!; [|done|lia| |done].
    + f_equal. symmetry. unfold names in Hni. rewrite fmap_cons in Hni.
      apply find_name_None. by apply not_elem_of_cons in Hni as [_ ?].
    + intros x. split; [|naive_solver]. intros Hx. split; [done|]. by intros ->.
Qed.

Lemma find_name_name n l e : find_name n l = Some e → te_name e = n.
Proof. intros [_ H]%List.find_some. by apply bytes_eqb_eq in H. Qed.

Lemma omap_find_ext l l' (ns : list bytes) :
  (∀ n, n ∈ ns → find_name n l = find_name n l') →
  omap (λ n, find_name n l) ns = omap (λ n, find_name n l') ns.
Proof.
  induction ns as [|n ns IH]; intros H; [done|]. cbn. rewrite (H n) by left.
  rewrite IH; [done|]. intros x Hx. apply H. by right.
Qed.

(** Looking every name of a sorted superset up gives the list back. *)
Lemma find_names (ns : list bytes) : ∀ l,
  ascending ns → ascending (names l) → names l `sublist_of` ns →
  omap (λ n, find_name n l) ns = l.
Proof.
  induction ns as [|n ns IH]; intros l Hns Hl Hsub.
  { apply sublist_nil_r in Hsub. by apply fmap_nil_inv in Hsub as ->. }
  assert (∀ x, x ∈ ns → x ≠ n) as Hne by (intros x Hx ->; by apply (ascending_head_notin n ns)).
  assert (ascending ns) as Hns' by by inv Hns.
  destruct l as [|e l]; [apply (IH []); [done|constructor|apply sublist_nil_l]|].
  unfold names in Hsub. rewrite fmap_cons in Hsub. cbn [omap list_omap].
  change (find_name n (e :: l))
    with (if bytes_eqb (te_name e) n then Some e else find_name n l).
  destruct (bytes_eqb (te_name e) n) eqn:E.
  - apply bytes_eqb_eq in E. subst n. cbn. f_equal. rewrite (omap_find_ext (e :: l) l).
    + apply IH; [done|by inv Hl|]. inv Hsub; [done|]. etrans; [|done]. by apply sublist_cons.
    + intros x Hx. cbn. case_match eqn:Ex; [|done].
      apply bytes_eqb_eq in Ex. by destruct (Hne x Hx).
  - assert (te_name e ≠ n) as Hn by (intros <-; by rewrite (proj2 (bytes_eqb_eq _ _)) in E).
    assert (te_name e :: names l `sublist_of` ns) as Hs by (inv Hsub; done).
    rewrite find_name_None; cbn; [by apply (IH (e :: l))|].
    intros Hin. apply (Hne n); [|done]. eapply elem_of_sublist; [|exact Hs]. by right.
Qed.

(** ** The walk is the fold over the union of names *)

Section walk.
Context `{B : Blake3} {S : Type} `{!ObjectSource S, !ObjectSink S}.
Context (sub : list TreeEntry → list TreeEntry → list TreeEntry → bytes → list Conflict →
               M S Merged) (prefix : bytes).

Fixpoint fold_names (ns : list bytes) (bs os ts : list TreeEntry) (out : Merged) : M S Merged :=
  match ns with
  | [] => m_ret out
  | n :: ns =>
      do! out ← merge_name sub prefix n (find_name n bs) (find_name n os) (find_name n ts) out;
      fold_names ns bs os ts out
  end.

Lemma fold_names_ext ns bs os ts bs' os' ts' : ∀ out s,
  (∀ n, n ∈ ns → find_name n bs' = find_name n bs ∧ find_name n os' = find_name n os ∧
                 find_name n ts' = find_name n ts) →
  fold_names ns bs' os' ts' out s = fold_names ns bs os ts out s.
Proof.
  induction ns as [|n ns IH]; intros out s H; [done|]. cbn [fold_names].
  destruct (H n) as (-> & -> & ->); [left|]. unfold m_bind.
  destruct (merge_name _ _ _ _ _ _ _ s) as [[out'|e] s']; [|done].
  apply IH. intros x Hx. apply H. by right.
Qed.

Definition union_names (bs os ts : list TreeEntry) : list bytes :=
  bt_collect bytes_ltb (names (bs ++ os ++ ts)).

Lemma elem_of_names_app x l k : x ∈ names (l ++ k) ↔ x ∈ names l ∨ x ∈ names k.
Proof. unfold names. by rewrite fmap_app, elem_of_app. Qed.

Lemma merge_walk_fold fuel : ∀ ns bs os ts out s,
  length bs + length os + length ts ≤ fuel →
  ascending (names bs) → ascending (names os) → ascending (names ts) → ascending ns →
  (∀ x, x ∈ ns ↔ x ∈ names bs ∨ x ∈ names os ∨ x ∈ names ts) →
  merge_walk sub prefix fuel bs os ts out s = fold_names ns bs os ts out s.
Proof.
  induction fuel as [|fuel IH]; intros ns bs os ts out s Hf Hb Ho Ht Hns Hel.
  { destruct bs, os, ts; cbn in Hf; try lia. destruct ns as [|n ns]; [done|].
    destruct (proj1 (Hel n)) as [H|[H|H]]; [left|inv H..]. }
  cbn [merge_walk]. pose proof (min_of_three_least bs os ts Hb Ho Ht) as Hmin.
  destruct (min_of_three _ _ _) as [n|]; cbn in Hmin.
  2:{ inv Hmin as [|? ? -> H1]. inv H1 as [|? ? -> H2]. inv H2 as [|? ? -> _].
      destruct ns as [|n ns]; [done|]. destruct (proj1 (Hel n)) as [H|[H|H]]; [left|inv H..]. }
  destruct Hmin as [Hl He]. inv Hl as [|? ? Lb H1]. inv H1 as [|? ? Lo H2]. inv H2 as [|? ? Lt _].
  assert (n ∈ names bs ∨ n ∈ names os ∨ n ∈ names ts) as Hin.
  { inv He as [|? ? He']; [auto|]. inv He' as [|? ? He'']; [auto|]. inv He'' as [|? ? He3]; [auto|].
    inv He3. }
  destruct (pop_spec n bs Hb Lb) as (bs' & -> & Hb' & Cb & Eb & Fb).
  destruct (pop_spec n os Ho Lo) as (os' & -> & Ho' & Co & Eo & Fo).
  destruct (pop_spec n ts Ht Lt) as (ts' & -> & Ht' & Ct & Et & Ft).
  destruct ns as [|n' ns]; [by apply Hel in Hin; inv Hin|].
  assert (n' = n) as ->.
  { assert (n' = n ∨ bytes_ltb n' n = true) as [|H1]; [|done|].
    { inv Hns as [|? ? _ Hall]. rewrite list.Forall_forall in Hall.
      apply Hel in Hin. apply elem_of_cons in Hin as [->|Hin]; [by left|right; by apply Hall]. }
    assert (n = n' ∨ bytes_ltb n n' = true) as [|H2]; [|done|].
    { destruct (proj1 (Hel n')) as [H|[H|H]]; [left|by apply Lb|by apply Lo|by apply Lt]. }
    by destruct (ltb_irr (ltb := bytes_ltb) n), (ltb_tr (ltb := bytes_ltb) n n' n). }
  cbn [fold_names]. unfold m_bind. destruct (merge_name _ _ _ _ _ _ _ s) as [[out'|e] s']; [|done].
  pose proof (ascending_head_notin _ _ Hns) as Hni.
  rewrite (IH ns); [apply fold_names_ext| |done..| |].
  - intros x Hx. assert (x ≠ n) by congruence. auto.
  - destruct Hin as [Hin|[Hin|Hin]]; rewrite (bool_decide_true _ Hin) in *; lia.
  - by inv Hns.
  - intros x. rewrite Eb, Eo, Et. specialize (Hel x). rewrite elem_of_cons in Hel.
    assert (x ∈ ns → x ≠ n) as Hne by congruence. clear -Hel Hne. tauto.
Qed.
End walk.

(** ** The store of a merge

    What [merge_trees] is promised by the store it reads from and writes to. *)
Class StoreView {S} `{!ObjectSource S, !ObjectSink S} `{!Blake3} (I : S → Prop)
    (view : S → hash32 → result StoreError bytes) : Prop := {
  store_read s0 : I s0 → SourceView S (λ s, I s ∧ view s = view s0) (view s0);
  store_put bs s : I s → I (sink_put bs s).2 ∧ extends (view s) (view (sink_put bs s).2) ∧
    ∀ id, (sink_put bs s).1 = Ok id → id = object_id_from_bytes bs
}.

Lemma ObjectStore_store_view `{B : Blake3} (now : option N) :
  @StoreView ObjectStore _ (ObjectStore_sink now) B (λ _, True) read.
Proof.
  split.
  - intros s0 _. split; cbn; intros h s [_ Hs]; (split; [done|]); left; [by rewrite <- Hs|].
    rewrite <- Hs. apply read_object_default.
  - intros bs s _. split; [done|]. cbn. unfold write. destruct (_ <? _)%N; [by split|].
    destruct (contains s _) eqn:Ec; cbn; [by split; [|intros id [= <-]]|].
    split; [|by intros id [= <-]]. intros h x Hx. rewrite <- Hx. unfold read, read_raw, open_object.
    cbn. rewrite lookup_insert_ne; [done|]. intros E%object_path_inj. subst h.
    unfold contains in Ec. rewrite bool_decide_eq_false in Ec. apply Ec.
    unfold read, read_raw, open_object in Hx. destruct (disk s !! _); [by eexists|done].
Qed.

(** An overlay keeps what can be read, unless the source holds other bytes under the
    id of what is written. *)
Lemma MemoryOverlay_store_view `{B : Blake3, BI : !Blake3Incremental} {S}
    `{!ObjectSource S} (I : S → Prop) view `{V : !SourceView S I view}
    (Hids : ∀ bs x, view (object_id_from_bytes bs) = Ok x → x = bs) :
  StoreView (S := MemoryOverlay S) (λ o, I (ov_source o)) (λ o, overlay_view (ov_objects o) view).
Proof.
  split.
  - intros o0 Ho0.
    assert (∀ o : MemoryOverlay S, I (ov_source o) →
      SourceView (MemoryOverlay S) (λ o', I (ov_source o') ∧ ov_objects o' = ov_objects o)
        (overlay_view (ov_objects o) view)) as Ho by (intros o _; apply _).
    split; intros h o [HI <-]; specialize (Ho o HI).
    + destruct (view_read h o (conj HI eq_refl)) as [[HI' E] Hr]. by rewrite E.
    + destruct (view_read_object h o (conj HI eq_refl)) as [[HI' E] Hr]. by rewrite E.
  - intros bs o Ho. cbn. unfold overlay_put. pose proof (overlay_put_cases [bs] o) as Hc.
    cbn [concat] in Hc. rewrite app_nil_r in Hc.
    destruct Hc as [(e & ->)|[(bs' & _ & ->)|(Hn & _ & _ & ->)]]; (split; [done|]);
      [by split|by split; [|intros id [=]]|]. split; [|by intros id [=]].
    intros h x. unfold overlay_view. cbn. destruct (decide (h = object_id_from_bytes bs)) as [->|Hne].
    + rewrite lookup_insert_eq, Hn. by intros ->%Hids.
    + by rewrite lookup_insert_ne.
Qed.

(** ** Sameness of entries *)

(** The content [a] stands for the content [b]: the two are the same bytes wherever the
    view [vi] has both; and in the view [v] both are read and the same, or both are
    chunked blobs of one size, of which chunks with equal ids are not read. *)
Definition same_file `{B : Blake3} (vi v : hash32 → result StoreError bytes) (a b : hash32) : Prop :=
  (∀ x y, content_view vi a = Ok x → content_view vi b = Ok y → x = y) ∧
  ((∃ x, content_view v a = Ok x ∧ content_view v b = Ok x) ∨
   ∃ ma mb, view_object v a = Ok (OChunkedBlob ma) ∧ view_object v b = Ok (OChunkedBlob mb) ∧
     cb_total_size ma = cb_total_size mb).

(** The merged entry [e] is the entry [p] of a side: the same id, the same content of
    a file, or a written tree of entries that are those of the subtree of the side. *)
Inductive same_entry `{B : Blake3} (vi v : hash32 → result StoreError bytes) : TreeEntry → TreeEntry → Prop :=
  | same_id e p :
      te_name e = te_name p → te_mode e = te_mode p → te_hash e = te_hash p → same_entry vi v e p
  | same_content e p :
      te_name e = te_name p → te_mode e = te_mode p → is_tree e = false →
      same_file vi v (te_hash e) (te_hash p) → same_entry vi v e p
  | same_subtree e p es bs ps :
      te_name e = te_name p → te_mode e = EntryMode.Tree → te_mode p = EntryMode.Tree →
      serialize (OTree {| tree_entries := es |}) = Ok bs → te_hash e = object_id_from_bytes bs →
      view_object v (te_hash p) = Ok (OTree {| tree_entries := ps |}) →
      Forall2 (same_entry vi v) es ps → same_entry vi v e p.

(** The entry [x] of one side taken for the entry [p] of another. *)
Definition taken_for `{B : Blake3} (vi v : hash32 → result StoreError bytes) (x p : TreeEntry) : Prop :=
  te_mode x = te_mode p ∧
  (te_hash x = te_hash p ∨ is_tree x = false ∧ same_file vi v (te_hash x) (te_hash p)).

(** The entries of a side, in a view. *)
Definition loaded `{B : Blake3} (v : hash32 → result StoreError bytes) (h : option hash32)
    (es : list TreeEntry) : Prop :=
  match h with
  | Some h => view_object v h = Ok (OTree {| tree_entries := es |})
  | None => es = []
  end.

(** ** What a merge gives, name by name *)

(** The two contents differ, unless both are chunked with an empty chunk in one, which
    the comparison may take for different. *)
Definition differ_file `{B : Blake3} (vi : hash32 → result StoreError bytes) (a b : hash32) : Prop :=
  ∀ x, content_view vi a = Ok x → content_view vi b = Ok x →
  ∃ ma mb, view_object vi a = Ok (OChunkedBlob ma) ∧ view_object vi b = Ok (OChunkedBlob mb) ∧
    ¬ (no_empty_chunk vi ma ∧ no_empty_chunk vi mb).

Definition differ_entry `{B : Blake3} (vi : hash32 → result StoreError bytes) (a b : TreeEntry) : Prop :=
  te_mode a ≠ te_mode b ∨
  te_hash a ≠ te_hash b ∧ (is_tree a = false → differ_file vi (te_hash a) (te_hash b)).

Definition all_trees (b o t : option TreeEntry) : bool :=
  match o, t with
  | Some o, Some t => is_tree o && is_tree t && from_option is_tree true b
  | _, _ => false
  end.

Definition conflict_kind (b o t : option TreeEntry) : ConflictKind :=
  match b, o, t with
  | Some _, Some _, Some _ => ModifyModify
  | None, _, _ => AddAdd
  | _, _, _ => DeleteModify
  end.

(** The content that the text merge reads, and the merge of three. *)
Definition blob_of (o : Object) : option bytes := match o with OBlob b => Some (blob_data b) | _ => None end.
Definition text_of (b o t : Object) : option bytes :=
  match blob_of b, blob_of o, blob_of t with
  | Some x, Some y, Some z => merge_blob_3way x y z
  | _, _, _ => None
  end.

Section spec.
Context `{B : Blake3} (vi v : hash32 → result StoreError bytes).

Definition agree (a b : option TreeEntry) : Prop :=
  match a, b with
  | Some a, Some b => taken_for vi v a b
  | None, None => True
  | _, _ => False
  end.
Definition differ (a b : option TreeEntry) : Prop :=
  match a, b with
  | Some a, Some b => differ_entry vi a b
  | None, None => False
  | _, _ => True
  end.

(** Two of the three agree, and [p] is the one that is not one of them. *)
Definition taken (b o t p : option TreeEntry) : Prop :=
  agree o t ∧ p = o ∨ agree b t ∧ p = o ∨ agree b o ∧ p = t.

(** [e] is [p], or is for it. *)
Definition stands (n : bytes) (e p : option TreeEntry) : Prop :=
  match e, p with
  | Some e, Some p => te_name e = n ∧ taken_for vi v e p
  | None, None => True
  | _, _ => False
  end.

(** What the text merge gives: nothing unless ours and theirs are files of one mode. *)
Definition blob_text (b o t : TreeEntry) (r : option bytes) : Prop :=
  if bool_decide (te_mode o = te_mode t) && is_file o then
    ∃ ob oo ot, view_object v (te_hash b) = Ok ob ∧ view_object v (te_hash o) = Ok oo ∧
      view_object v (te_hash t) = Ok ot ∧ r = text_of ob oo ot
  else r = None.

(** The merge of three lists of entries, over the names of a list in order, is what the
    merge at each name gives: the entries, and the conflicts. At a name of which two
    sides agree (both have no entry, or entries of one mode and one id or content), it
    is the entry of the third, or none. Trees on both sides, and in the base if it has
    the name, are merged in turn. Files of one mode that a text merge can join give the
    joined file. All else is one conflict, and the entry of ours; what a merged tree
    holds at a conflict where ours has no entry is left open. *)
Inductive merges : bytes → list bytes → list TreeEntry → list TreeEntry → list TreeEntry →
    list TreeEntry → list Conflict → Prop :=
  | merges_nil prefix bs os ts : merges prefix [] bs os ts [] []
  | merges_cons prefix n ns bs os ts e c es cs :
      merges_at prefix n (find_name n bs) (find_name n os) (find_name n ts) e c →
      merges prefix ns bs os ts es cs →
      merges prefix (n :: ns) bs os ts (option_list e ++ es) (c ++ cs)
with merges_at : bytes → bytes → option TreeEntry → option TreeEntry → option TreeEntry →
    option TreeEntry → list Conflict → Prop :=
  | at_taken prefix n b o t p e :
      taken b o t p → stands n e p → merges_at prefix n b o t e []
  | at_subtree prefix n b o t bs os ts es cs bytes :
      all_trees b o t = true →
      loaded v (te_hash <$> b) bs → loaded v (te_hash <$> o) os → loaded v (te_hash <$> t) ts →
      merges (join_path prefix n) (union_names bs os ts) bs os ts es cs →
      serialize (OTree {| tree_entries := es |}) = Ok bytes →
      merges_at prefix n b o t (Some (entry_of n EntryMode.Tree (object_id_from_bytes bytes))) cs
  | at_text prefix n b o t m bytes :
      differ_entry vi b o → differ_entry vi b t → differ_entry vi o t → blob_text b o t (Some m) →
      serialize (OBlob {| blob_data := m |}) = Ok bytes →
      merges_at prefix n (Some b) (Some o) (Some t)
        (Some (entry_of n (te_mode o) (object_id_from_bytes bytes))) []
  | at_conflict prefix n b o t e :
      differ b o → differ b t → differ o t → all_trees b o t = false →
      match b, o, t with Some b, Some o, Some t => blob_text b o t None | _, _, _ => True end →
      match o with
      | Some o => e = Some (entry_of n (te_mode o) (te_hash o))
      | None => from_option (λ x, te_name x = n) True e
      end →
      merges_at prefix n b o t e
        [conflict_of prefix n (conflict_kind b o t) b o t].

Lemma merges_at_name prefix n b o t e cs x :
  merges_at prefix n b o t e cs → e = Some x → te_name x = n.
Proof.
  intros H ->. inversion H as [? ? ? ? ? p ? _ Hs| | |? ? ? o' ? ? _ _ _ _ _ He]; subst; try done.
  - by destruct p; [destruct Hs|].
  - destruct o; [by injection He as ->|done].
Qed.
End spec.

Scheme merges_sub := Minimality for merges Sort Prop
with merges_at_sub := Minimality for merges_at Sort Prop.
Combined Scheme merges_mutind from merges_sub, merges_at_sub.

Section mono.
Context `{B : Blake3} (vi v v' : hash32 → result StoreError bytes) (Hv : extends v v').

Lemma same_file_mono a b : same_file vi v a b → same_file vi v' a b.
Proof.
  intros [H1 H2]. split; [done|]. destruct H2 as [(x & Ha & Hb)|(ma & mb & Ha & Hb & Hs)].
  - left. exists x. by split; eapply content_view_mono.
  - right. exists ma, mb. by split_and!; [eapply view_object_mono..|].
Qed.

Lemma taken_for_mono x p : taken_for vi v x p → taken_for vi v' x p.
Proof. intros [Hm [Hh|[Ht Hf]]]; split; [done|by left|done|right]. by split; [|apply same_file_mono]. Qed.

Lemma same_entry_mono : ∀ e p, same_entry vi v e p → same_entry vi v' e p.
Proof.
  fix IH 3. intros e p [e1 p1 H1 H2 H3|e1 p1 H1 H2 H3 H4|e1 p1 es bs ps H1 H2 H3 H4 H5 H6 H7].
  - by apply same_id.
  - by apply same_content; [..|apply same_file_mono].
  - apply (same_subtree _ _ _ _ es bs ps); try done; [by eapply view_object_mono|].
    clear - H7 IH. induction H7 as [|x y es ps Hx _ IHes]; constructor; [by apply IH|done].
Qed.

Lemma same_entries_mono es ps :
  Forall2 (same_entry vi v) es ps → Forall2 (same_entry vi v') es ps.
Proof. induction 1; constructor; [by apply same_entry_mono|done]. Qed.

Lemma agree_mono a b : agree vi v a b → agree vi v' a b.
Proof. destruct a, b; try done. apply taken_for_mono. Qed.

Lemma taken_mono b o t p : taken vi v b o t p → taken vi v' b o t p.
Proof. unfold taken. intros [[H ->]|[[H ->]|[H ->]]]; apply agree_mono in H; auto. Qed.

Lemma stands_mono n e p : stands vi v n e p → stands vi v' n e p.
Proof. destruct e, p; try done. intros [? ?]. by split; [|apply taken_for_mono]. Qed.

Lemma loaded_mono h es : loaded v h es → loaded v' h es.
Proof. destruct h; [|done]. by apply view_object_mono. Qed.

Lemma blob_text_mono b o t r : blob_text v b o t r → blob_text v' b o t r.
Proof.
  unfold blob_text. case_match; [|done]. intros (ob & oo & ot & ? & ? & ? & ->).
  exists ob, oo, ot. by split_and!; [eapply view_object_mono..|].
Qed.

Lemma merges_mono_both :
  (∀ prefix ns bs os ts es cs, merges vi v prefix ns bs os ts es cs → merges vi v' prefix ns bs os ts es cs) ∧
  (∀ prefix n b o t e cs, merges_at vi v prefix n b o t e cs → merges_at vi v' prefix n b o t e cs).
Proof.
  apply merges_mutind.
  - constructor.
  - intros. by constructor.
  - intros. eapply at_taken; [by apply taken_mono|by apply stands_mono].
  - intros. eapply at_subtree; [done|by apply loaded_mono..|done|done].
  - intros. eapply at_text; [done..|by apply blob_text_mono|done].
  - intros. eapply at_conflict; try done. destruct b, o, t; try done. by apply blob_text_mono.
Qed.

Lemma merges_mono prefix ns bs os ts es cs :
  merges vi v prefix ns bs os ts es cs → merges vi v' prefix ns bs os ts es cs.
Proof. apply merges_mono_both. Qed.
Lemma merges_at_mono prefix n b o t e cs :
  merges_at vi v prefix n b o t e cs → merges_at vi v' prefix n b o t e cs.
Proof. apply merges_mono_both. Qed.
End mono.

Lemma taken_entry `{B : Blake3} vi v n x p :
  taken_for vi v x p → te_name p = n → same_entry vi v (entry_of n (te_mode x) (te_hash x)) p.
Proof. intros [Hm [Hh|[Ht Hf]]] Hn; [by apply same_id|by apply same_content]. Qed.

(** ** Triples

    With the view before and after: a merge only adds to what can be read. *)

Section merge.
Context `{B : Blake3} {S : Type} `{!ObjectSource S, !ObjectSink S} (I : S → Prop)
  (view : S → hash32 → result StoreError bytes) `{V : !StoreView I view}.

(** From a good state whose view has [v0], the computation ends in one that has what
    the first one has, and what it returns satisfies [Q] there. *)
Definition vtriple {A} (v0 : hash32 → result StoreError bytes) (m : M S A)
    (Q : A → (hash32 → result StoreError bytes) → Prop) : Prop :=
  ∀ s, I s → extends v0 (view s) →
    I (m s).2 ∧ extends (view s) (view (m s).2) ∧ ∀ a, (m s).1 = Ok a → Q a (view (m s).2).

Lemma vtriple_bind {A C} v0 (m : M S A) (f : A → M S C) Q R :
  vtriple v0 m Q → (∀ a v1, extends v0 v1 → Q a v1 → vtriple v1 (f a) R) →
  vtriple v0 (m_bind m f) R.
Proof.
  intros Hm Hf s Hs Hv. unfold m_bind. destruct (Hm s Hs Hv) as (Hs' & Hv' & Hq).
  destruct (m s) as [[a|e] s']; cbn in *; [|done].
  destruct (Hf a (view s') ltac:(by etrans) (Hq a eq_refl) s' Hs' (reflexivity _)) as (? & ? & ?).
  split_and!; [done|by etrans|done].
Qed.

Lemma vtriple_ret {A} v0 (a : A) (Q : A → _ → Prop) :
  (∀ v, extends v0 v → Q a v) → vtriple v0 (m_ret a) Q.
Proof. intros HQ s Hs Hv. split_and!; [done..|]. intros ? [= <-]. by apply HQ. Qed.

Lemma vtriple_lift {A} v0 (r : result StoreError A) (Q : A → _ → Prop) :
  (∀ a v, r = Ok a → extends v0 v → Q a v) → vtriple v0 (m_lift r) Q.
Proof. intros HQ s Hs Hv. split_and!; [done..|]. intros a Ha. by apply HQ. Qed.

Lemma vtriple_weaken {A} v0 v1 (m : M S A) (Q R : A → _ → Prop) :
  vtriple v0 m Q → extends v0 v1 → (∀ a v, extends v1 v → Q a v → R a v) → vtriple v1 m R.
Proof.
  intros Hm H01 HQ s Hs Hv. destruct (Hm s Hs) as (? & ? & Hq); [by etrans|].
  split_and!; [done..|]. intros a Ha. apply HQ; [by etrans|by apply Hq].
Qed.

Lemma vtriple_read v0 h : vtriple v0 (src_read_object h) (λ o v, view_object v h = Ok o).
Proof.
  intros s Hs _. destruct (store_read s Hs) as [_ Hr].
  destruct (Hr h s (conj Hs eq_refl)) as [[? Hv] Ho]. rewrite Hv. split_and!; [done..|].
  intros o Ho'. destruct Ho as [<-|[? ?]]; [done|congruence].
Qed.

Lemma vtriple_put v0 bs : vtriple v0 (sink_put bs) (λ id _, id = object_id_from_bytes bs).
Proof. intros s Hs _. by apply store_put. Qed.

Lemma vtriple_put_object v0 o :
  vtriple v0 (put_object o) (λ id _, ∃ bs, serialize o = Ok bs ∧ id = object_id_from_bytes bs).
Proof.
  eapply vtriple_bind; [apply (vtriple_lift _ _ (λ bs _, serialize o = Ok bs))|].
  - intros bs v Hbs _. by apply decode_err_Ok.
  - intros bs v1 _ Hbs. eapply vtriple_weaken; [apply (vtriple_put v1)|done|]. naive_solver.
Qed.

Lemma vtriple_single_blob v0 h :
  vtriple v0 (single_blob_bytes h) (λ r v, ∃ o, view_object v h = Ok o ∧ r = blob_of o).
Proof.
  eapply vtriple_bind; [apply vtriple_read|]. intros o v1 _ Ho. apply vtriple_ret. intros v Hv.
  exists o. split; [by eapply view_object_mono|by destruct o].
Qed.

Definition written_text (v : hash32 → result StoreError bytes) (b o t : TreeEntry)
    (h : option hash32) : Prop :=
  ∃ r, blob_text v b o t r ∧
    match h, r with
    | Some h, Some m => ∃ bs, serialize (OBlob {| blob_data := m |}) = Ok bs ∧ h = object_id_from_bytes bs
    | None, None => True
    | _, _ => False
    end.

Lemma vtriple_text v0 b o t :
  vtriple v0 (if bool_decide (te_mode o = te_mode t) && is_file o
              then try_text_merge (te_hash b) (te_hash o) (te_hash t) else m_ret None)
    (λ h v, written_text v b o t h).
Proof.
  unfold written_text, blob_text. destruct (_ && _); [|apply vtriple_ret; intros v _; by exists None].
  unfold try_text_merge.
  eapply vtriple_bind; [apply vtriple_single_blob|]. intros x v1 _ (ob & Hb & ->).
  eapply vtriple_bind; [apply vtriple_single_blob|]. intros y v2 Hv2 (oo & Ho & ->).
  eapply vtriple_bind; [apply vtriple_single_blob|]. intros z v3 Hv3 (ot & Ht & ->).
  assert (∀ v, extends v3 v → ∃ ob' oo' ot', view_object v (te_hash b) = Ok ob' ∧
    view_object v (te_hash o) = Ok oo' ∧ view_object v (te_hash t) = Ok ot' ∧
    text_of ob oo ot = text_of ob' oo' ot') as Hr.
  { intros v Hv. exists ob, oo, ot. split_and!; [| |by eapply view_object_mono|done];
      (eapply view_object_mono; [|eassumption]); [|by etrans]. etrans; [exact Hv2|by etrans]. }
  assert (text_of ob oo ot = None → ∀ v, extends v3 v → ∃ r, (∃ ob' oo' ot',
    view_object v (te_hash b) = Ok ob' ∧ view_object v (te_hash o) = Ok oo' ∧
    view_object v (te_hash t) = Ok ot' ∧ r = text_of ob' oo' ot') ∧
    match r with Some _ => False | None => True end) as Hnone.
  { intros E v Hv. exists None. split; [|done]. destruct (Hr v Hv) as (? & ? & ? & ? & ? & ? & Heq).
    rewrite E in Heq. naive_solver. }
  unfold text_of in Hr, Hnone.
  destruct (blob_of ob), (blob_of oo), (blob_of ot); try (apply vtriple_ret; by apply Hnone).
  destruct (merge_blob_3way _ _ _) as [m|]; [|apply vtriple_ret; by apply Hnone].
  eapply vtriple_bind; [apply vtriple_put_object|]. intros h v4 Hv4 (bs & Hbs & ->).
  apply vtriple_ret. intros v Hv. exists (Some m). split; [|by exists bs].
  apply Hr. by etrans.
Qed.

Section level.
(** The view that the merge starts from. *)
Context (vi : hash32 → result StoreError bytes).

Lemma view_object_first a x o v :
  extends vi v → content_view vi a = Ok x → view_object v a = Ok o → view_object vi a = Ok o.
Proof.
  intros Hi Hx Ho. apply bind_Ok in Hx as (o' & Ho' & _).
  by rewrite (view_object_mono _ _ Hi _ _ Ho') in Ho; injection Ho as <-.
Qed.

Lemma vtriple_content_eq v0 a b :
  extends vi v0 → a ≠ b →
  vtriple v0 (content_eq a b) (λ r v, if r : bool then same_file vi v a b else differ_file vi a b).
Proof.
  intros Hi Hab s Hs Hv. pose proof (store_read s Hs) as Vs.
  destruct (content_eq_ok (λ s', I s' ∧ view s' = view s) (view s) a b s (conj Hs eq_refl))
    as [[? ->] H]. split_and!; [done..|]. intros r Hr. rewrite Hr in H.
  destruct H as [[? ?]|H]; [done|]. rewrite bool_decide_eq_false_2 in H by done.
  assert (Hvi : extends vi (view s)) by by etrans.
  assert (Hc : ∀ h x, content_view vi h = Ok x → content_view (view s) h = Ok x)
    by (intros h x; by apply content_view_mono).
  assert (Hboth : (∃ x y, content_view (view s) a = Ok x ∧ content_view (view s) b = Ok y ∧
    r = bytes_eqb x y) → if r then same_file vi (view s) a b else differ_file vi a b).
  { intros (x & y & Ha & Hb & Hxy). destruct r; symmetry in Hxy.
    - apply bytes_eqb_eq in Hxy as ->. split; [|left; by exists y].
      intros x' y' Hx'%Hc Hy'%Hc. congruence.
    - intros z Hza%Hc Hzb%Hc. assert (x = y) as Heq by congruence.
      apply bytes_eqb_eq in Heq. congruence. }
  destruct (view_object (view s) a) as [[]|] eqn:Ea; try exact (Hboth H).
  destruct (view_object (view s) b) as [[]|] eqn:Eb; try exact (Hboth H).
  destruct H as [Hsz Hxy]. destruct r.
  - split.
    + intros x y Hx%Hc Hy%Hc. destruct (Hxy x y Hx Hy) as (v & [= <-] & Hq & _). by apply Hq.
    + right. eexists _, _. split_and!; [done..|]. by apply Hsz.
  - intros x Hxa Hxb.
    apply (view_object_first a x) in Ea; [|done..]. apply (view_object_first b x) in Eb; [|done..].
    eexists _, _. split_and!; [done..|]. intros [Hna Hnb].
    apply (no_empty_chunk_mono vi (view s) Hvi a x) in Hna; [|done..].
    apply (no_empty_chunk_mono vi (view s) Hvi b x) in Hnb; [|done..]. destruct (Hxy x x (Hc _ _ Hxa) (Hc _ _ Hxb)) as (v & [= <-] & _ & He).
    by discriminate He.
Qed.

Lemma vtriple_hash_and_mode_eq v0 a b :
  extends vi v0 →
  vtriple v0 (hash_and_mode_eq a b) (λ r v, if r : bool then taken_for vi v a b else differ_entry vi a b).
Proof.
  intros Hi. unfold hash_and_mode_eq. case_bool_decide as Em; [|apply vtriple_ret; by left].
  case_bool_decide as Eh; [apply vtriple_ret; unfold taken_for; naive_solver|].
  destruct (is_tree a) eqn:Et; cbn [negb].
  { apply vtriple_ret. intros v _. right. split; [done|congruence]. }
  eapply vtriple_weaken; [by apply (vtriple_content_eq v0)|done|]. intros [] v _ Hr.
  - split; [done|]. auto.
  - right. auto.
Qed.

Lemma differ_ne a b : differ_entry vi a b → a ≠ b.
Proof. intros [H|[H _]] ->; by apply H. Qed.

(** Trees that are read are well formed. *)
Definition good_entries (es : list TreeEntry) : Prop := wf_tree {| tree_entries := es |} = true.

Lemma load_entries_view h s :
  I s → I (load_entries h s).2 ∧ view (load_entries h s).2 = view s ∧
  (∀ es, (load_entries h s).1 = Ok es →
    match h with
    | Some h => view_object (view s) h = Ok (OTree {| tree_entries := es |})
    | None => es = []
    end).
Proof.
  intros Hs. destruct h as [h|]; [|split_and!; [done..|by intros ? [= <-]]]. cbn.
  unfold m_bind. destruct (store_read s Hs) as [_ Hr].
  destruct (Hr h s (conj Hs eq_refl)) as [[HI Hv] Ho].
  destruct (src_read_object h s) as [[o|e] s']; cbn in *; [|done].
  split_and!; [done..|]. intros es. destruct Ho as [<-|[? ?]]; [|done].
  destruct o; try done. by intros [= <-]; destruct t.
Qed.

Lemma good_empty : good_entries [].
Proof. reflexivity. Qed.

Lemma view_object_good v h es :
  view_object v h = Ok (OTree {| tree_entries := es |}) → good_entries es.
Proof.
  unfold view_object. intros (bs & _ & H)%bind_Ok. apply decode_err_Ok in H as [Hw _]%deserialize_inv.
  exact Hw.
Qed.

Lemma loaded_good v h es : loaded v h es → good_entries es.
Proof. destruct h; cbn; [apply view_object_good|]. intros ->. apply good_empty. Qed.

Lemma loaded_fun v h es es' : loaded v h es → loaded v h es' → es = es'.
Proof. destruct h; cbn; congruence. Qed.

(** Two of the three sides are the same, and [p] is the side that a merge takes. *)
Definition picks {A} (b o t p : A) : Prop :=
  (o = t ∧ p = o) ∨ (t = b ∧ p = o) ∨ (o = b ∧ p = t).

Lemma picks_map {A C} (f : A → C) b o t p : picks b o t p → picks (f b) (f o) (f t) (f p).
Proof. unfold picks. intros [[-> ->]|[[-> ->]|[-> ->]]]; auto. Qed.

Lemma picks_loaded v b o t p bs os ts :
  picks b o t p → loaded v b bs → loaded v o os → loaded v t ts →
  ∃ ps, loaded v p ps ∧ picks bs os ts ps.
Proof.
  intros Hp Hb Ho Ht. unfold picks in *.
  destruct Hp as [[-> ->]|[[-> ->]|[-> ->]]].
  - exists os. split; [done|left]. by rewrite (loaded_fun v t os ts).
  - exists os. split; [done|right; left]. by rewrite (loaded_fun v b ts bs).
  - exists ts. split; [done|right; right]. by rewrite (loaded_fun v b os bs).
Qed.

(** Loading the three sides, one after the other. *)
Lemma load3 {C} b o t (f : list TreeEntry → list TreeEntry → list TreeEntry → M S C) R s :
  I s →
  (∀ bs os ts, loaded (view s) b bs → loaded (view s) o os → loaded (view s) t ts →
     vtriple (view s) (f bs os ts) R) →
  let r := (do! bs ← load_entries b; do! os ← load_entries o; do! ts ← load_entries t; f bs os ts) s in
  I r.2 ∧ extends (view s) (view r.2) ∧ ∀ a, r.1 = Ok a → R a (view r.2).
Proof.
  intros Hs Hf. cbv zeta. unfold m_bind.
  destruct (load_entries_view b s Hs) as (I1 & V1 & R1).
  destruct (load_entries b s) as [[bs|e] s1]; cbn in *; [|by rewrite V1]. specialize (R1 bs eq_refl).
  destruct (load_entries_view o s1 I1) as (I2 & V2 & R2).
  destruct (load_entries o s1) as [[os|e] s2]; cbn in *; [|by rewrite V2, V1]. specialize (R2 os eq_refl).
  destruct (load_entries_view t s2 I2) as (I3 & V3 & R3).
  destruct (load_entries t s2) as [[ts|e] s3]; cbn in *; [|by rewrite V3, V2, V1].
  specialize (R3 ts eq_refl). rewrite V1 in R2. rewrite V2, V1 in R3.
  assert (view s3 = view s) as E by congruence.
  destruct (Hf bs os ts R1 R2 R3 s3 I3) as (? & ? & ?); [by rewrite E|]. by rewrite <- E.
Qed.

(** ** What one name adds *)

(** The merge of a name appends nothing or one entry, and appends conflicts, as
    specified; when two sides are the same, no conflict, and the entry is down to
    every subtree that of the side that is taken. *)
Definition name_post (prefix n : bytes) (b o t : option TreeEntry) (out out' : Merged)
    (v : hash32 → result StoreError bytes) : Prop :=
  ∃ e cs, mg_entries out' = mg_entries out ++ option_list e ∧
    mg_conflicts out' = mg_conflicts out ++ cs ∧ merges_at vi v prefix n b o t e cs ∧
    ∀ p, picks b o t p → cs = [] ∧
      match p with
      | None => e = None
      | Some p => te_name p = n → ∃ x, e = Some x ∧ same_entry vi v x p
      end.

(** What the merge of three lists gives. *)
Definition merged_post (prefix : bytes) (bs os ts : list TreeEntry) (conflicts : list Conflict)
    (out : Merged) (v : hash32 → result StoreError bytes) : Prop :=
  ∃ cs, mg_conflicts out = conflicts ++ cs ∧ names (mg_entries out) `sublist_of` union_names bs os ts ∧
    merges vi v prefix (union_names bs os ts) bs os ts (mg_entries out) cs ∧
    ∀ p, picks bs os ts p → cs = [] ∧ Forall2 (same_entry vi v) (mg_entries out) p.

Section sub.
Context (sub : list TreeEntry → list TreeEntry → list TreeEntry → bytes → list Conflict →
               M S Merged).
Context (Hsub : ∀ v0 bs os ts prefix cs, extends vi v0 →
  good_entries bs → good_entries os → good_entries ts →
  vtriple v0 (sub bs os ts prefix cs) (merged_post prefix bs os ts cs)).
Context (prefix : bytes).

Lemma post_entry n b o t out e cs v :
  merges_at vi v prefix n b o t (Some e) cs →
  (∀ p, picks b o t p → cs = [] ∧ ∃ p', p = Some p' ∧ (te_name p' = n → same_entry vi v e p')) →
  name_post prefix n b o t out
    {| mg_entries := mg_entries out ++ [e]; mg_conflicts := mg_conflicts out ++ cs |} v.
Proof.
  intros Hm Hp. exists (Some e), cs. split_and!; [done..|].
  intros p Hpp. destruct (Hp p Hpp) as (-> & p' & -> & He). split; [done|]. intros Hn. eauto.
Qed.

Lemma post_take n b o t out x q v :
  taken vi v b o t (Some q) → taken_for vi v x q →
  (∀ p, picks b o t p → ∃ p', p = Some p' ∧ taken_for vi v x p') →
  name_post prefix n b o t out (add_entry n (te_mode x) (te_hash x) out) v.
Proof.
  intros Ht Hx Hp. unfold add_entry. rewrite <- (app_nil_r (mg_conflicts out)).
  apply post_entry; [by apply (at_taken _ _ _ _ _ _ _ (Some q))|].
  intros p Hpp. split; [done|]. destruct (Hp p Hpp) as (p' & -> & Hf).
  exists p'. split; [done|]. by apply taken_entry.
Qed.

Lemma differ_irrefl a : ¬ differ vi a a.
Proof. destruct a as [a|]; cbn; [|tauto]. intros H. by apply differ_ne in H. Qed.

Lemma differ_picks b o t p : differ vi b o → differ vi b t → differ vi o t → ¬ picks b o t p.
Proof. intros H1 H2 H3 [[-> _]|[[-> _]|[-> _]]]; by eapply differ_irrefl. Qed.

Lemma post_conflict n b o t out x v :
  differ vi b o → differ vi b t → differ vi o t → all_trees b o t = false →
  match b, o, t with Some b, Some o, Some t => blob_text v b o t None | _, _, _ => True end →
  match o with Some o => x = o | None => t = Some x end →
  name_post prefix n b o t out
    (add_entry n (te_mode x) (te_hash x)
      (push_conflict (conflict_of prefix n (conflict_kind b o t) b o t) out)) v.
Proof.
  intros H1 H2 H3 Ha Ht Hx. unfold add_entry, push_conflict. cbn. apply post_entry.
  - apply at_conflict; try done. destruct o; [by subst|done].
  - intros p Hp. by eapply differ_picks in Hp.
Qed.

Lemma post_keep n b o t out v :
  taken vi v b o t None → (∀ p, picks b o t p → p = None) → name_post prefix n b o t out out v.
Proof.
  intros Ht Hp. exists None, []. cbn. rewrite !app_nil_r. split_and!; [done..| |].
  - by apply (at_taken _ _ _ _ _ _ _ None).
  - by intros p ->%Hp.
Qed.

Lemma is_tree_mode e : is_tree e = true ↔ te_mode e = EntryMode.Tree.
Proof. unfold is_tree. apply bool_decide_eq_true. Qed.

(** The side that is taken among trees is a tree. *)
Lemma all_trees_picks b o t p :
  all_trees b o t = true → picks b o t p → ∃ p', p = Some p' ∧ te_mode p' = EntryMode.Tree.
Proof.
  unfold all_trees. intros Ha Hp. destruct o as [o|], t as [t|]; try done.
  apply andb_true_iff in Ha as [[Ho%is_tree_mode Ht%is_tree_mode]%andb_true_iff _].
  destruct Hp as [[_ ->]|[[_ ->]|[_ ->]]]; eauto.
Qed.

Lemma recurse_post v0 n b o t hb ho ht out :
  extends vi v0 → all_trees b o t = true →
  hb = te_hash <$> b → ho = te_hash <$> o → ht = te_hash <$> t →
  vtriple v0 (recurse_subtree_merge sub prefix hb ho ht n out) (name_post prefix n b o t out).
Proof.
  intros Hi Ha -> -> -> s Hs Hv. apply load3; [done|]. intros bs os ts Hb Ho Ht.
  assert (Hvi : extends vi (view s)) by by etrans.
  eapply vtriple_bind; [apply Hsub; [done|eapply loaded_good; eassumption..]|].
  intros so v1 Hv1 (cs & Hc & _ & Hm & Hn).
  eapply vtriple_bind; [apply vtriple_put_object|]. intros sh v2 Hv2 (bytes & Hbs & ->).
  apply vtriple_ret. intros v3 Hv3. rewrite Hc.
  assert (extends v1 v3) as H13 by by etrans. assert (extends (view s) v3) as Hs3 by by etrans.
  apply post_entry.
  - apply (at_subtree _ _ _ _ _ _ _ bs os ts (mg_entries so)); try done.
    1-3: by apply (loaded_mono (view s)). by apply (merges_mono vi v1).
  - intros p Hpp. destruct (all_trees_picks _ _ _ _ Ha Hpp) as (p' & -> & Hmode).
    destruct (picks_loaded (view s) _ _ _ _ _ _ _ (picks_map (fmap te_hash) _ _ _ _ Hpp) Hb Ho Ht)
      as (ps & Hps & Hpl).
    destruct (Hn ps Hpl) as [-> Hsame]. split; [done|]. exists p'. split; [done|]. intros Hname.
    apply (same_subtree _ _ _ _ (mg_entries so) bytes ps); try done.
    + by apply (view_object_mono (view s)).
    + eapply same_entries_mono; [|exact Hsame]. done.
Qed.

Lemma picks_Some {A} (b o t : A) p :
  picks (Some b) (Some o) (Some t) p → ∃ p', p = Some p' ∧ picks b o t p'.
Proof. unfold picks. naive_solver. Qed.

Lemma taken_self v x : taken_for vi v x x.
Proof. by split; [|left]. Qed.

Lemma taken_tree v a b :
  taken_for vi v a b → is_tree a = true → is_tree b = true ∧ te_hash a = te_hash b.
Proof.
  rewrite !is_tree_mode. intros [Hm [Hh|[Ht _]]] Ha; [by rewrite <- Hm|].
  apply is_tree_mode in Ha. congruence.
Qed.

(** An answer of the comparison, in a later view. *)
Lemma answer_mono v v' (r : bool) a b :
  extends v v' → (if r then taken_for vi v a b else differ_entry vi a b) →
  if r then taken_for vi v' a b else differ_entry vi a b.
Proof. intros Hv. destruct r; [by apply taken_for_mono|done]. Qed.

Lemma merge_three_post v0 n b o t out :
  extends vi v0 →
  vtriple v0 (merge_three sub prefix n b o t out)
    (name_post prefix n (Some b) (Some o) (Some t) out).
Proof.
  intros Hi.
  assert (Htake : ∀ v1 x, (∃ q, taken vi v1 (Some b) (Some o) (Some t) (Some q) ∧ taken_for vi v1 x q) →
    (∀ p, picks b o t p → taken_for vi v1 x p) →
    vtriple v1 (m_ret (add_entry n (te_mode x) (te_hash x) out))
      (name_post prefix n (Some b) (Some o) (Some t) out)).
  { intros v1 x (q & Ht & Hq) Hx. apply vtriple_ret. intros v Hv. apply (post_take _ _ _ _ _ _ q).
    - by apply (taken_mono vi v1).
    - by apply (taken_for_mono vi v1).
    - intros p (p' & -> & Hp)%picks_Some. exists p'. split; [done|].
      eapply taken_for_mono; [exact Hv|by apply Hx]. }
  unfold merge_three.
  eapply vtriple_bind; [by apply vtriple_hash_and_mode_eq|]. intros bo v1 Hv1 Hbo.
  eapply vtriple_bind; [apply vtriple_hash_and_mode_eq; by etrans|]. intros bt v2 Hv2 Hbt.
  assert (extends vi v2) as Hi2 by (etrans; [exact Hi|by etrans]).
  eapply vtriple_bind; [by apply vtriple_hash_and_mode_eq|]. intros ot v3 Hv3 Hot.
  assert (extends vi v3) as Hi3 by by etrans.
  apply (answer_mono v1 v3) in Hbo; [|by etrans]. apply (answer_mono v2 v3) in Hbt; [|done].
  pose proof (taken_self v3) as Hself. unfold taken in Htake. cbn [agree] in Htake.
  destruct bo, bt; cbn [andb negb].
  - apply Htake; [exists o; auto|]. by intros p [[_ ->]|[[_ ->]|[_ ->]]].
  - apply differ_ne in Hbt. destruct (is_tree b && is_tree t) eqn:E.
    + apply andb_true_iff in E as [Eb Et]. destruct (taken_tree _ _ _ Hbo Eb) as [Eo Hh].
      apply recurse_post; [done|by cbn; rewrite Eo, Et|done|by cbn; rewrite <- Hh|done].
    + apply Htake; [exists t; auto|]. by intros p [[-> ->]|[[? _]|[_ ->]]].
  - apply differ_ne in Hbo. destruct (is_tree b && is_tree o) eqn:E.
    + apply andb_true_iff in E as [Eb Eo]. destruct (taken_tree _ _ _ Hbt Eb) as [Et Hh].
      apply recurse_post; [done|by cbn; rewrite Eo, Et|done|done|by cbn; rewrite <- Hh].
    + apply Htake; [exists o; auto|]. by intros p [[_ ->]|[[_ ->]|[? _]]].
  - destruct ot; cbn [andb].
    { apply differ_ne in Hbo, Hbt. destruct (is_tree b && is_tree o) eqn:E.
      - apply andb_true_iff in E as [Eb Eo]. destruct (taken_tree _ _ _ Hot Eo) as [Et Hh].
        by apply recurse_post; [done|cbn; rewrite Eo, Et|..].
      - apply Htake; [exists o; auto|]. by intros p [[-> ->]|[[? _]|[? _]]]. }
    destruct (_ && _ && _) eqn:E.
    { apply andb_true_iff in E as [[Eb Eo]%andb_true_iff Et].
      by apply recurse_post; [done|cbn; rewrite Eo, Et|..]. }
    eapply vtriple_bind; [apply (vtriple_text _ b o t)|]. intros h v4 Hv4 (r & Hr & Hh).
    assert (∀ p, ¬ picks (Some b) (Some o) (Some t) p) as Hno by (intros p; by apply differ_picks).
    destruct h as [h|], r as [m|]; try done; apply vtriple_ret; intros v Hv;
      apply (blob_text_mono _ _ Hv) in Hr.
    + destruct Hh as (bs & Hbs & ->). unfold add_entry. rewrite <- (app_nil_r (mg_conflicts out)).
      apply post_entry; [by eapply at_text|]. intros p Hp. by apply Hno in Hp.
    + apply post_conflict; try done. cbn. rewrite <- andb_assoc, andb_comm in E. exact E.
Qed.

Lemma picks_options {A} (b o t p : option A) :
  picks b o t p →
  match b, o, t with
  | None, None, None => p = None
  | Some _, None, None => p = None
  | None, Some o, None => p = Some o
  | None, None, Some t => p = Some t
  | Some b, Some o, None => b = o ∧ p = None
  | Some b, None, Some t => b = t ∧ p = None
  | None, Some o, Some t => o = t ∧ p = Some o
  | Some _, Some _, Some _ => True
  end.
Proof. unfold picks. destruct b, o, t; naive_solver. Qed.

Lemma merge_name_post v0 n b o t out :
  extends vi v0 →
  vtriple v0 (merge_name sub prefix n b o t out) (name_post prefix n b o t out).
Proof.
  intros Hi. pose proof (@picks_options TreeEntry) as Hp. pose proof taken_self as Hself.
  destruct b as [b|], o as [o|], t as [t|]; cbn [merge_name].
  - by apply merge_three_post.
  - eapply vtriple_bind; [by apply vtriple_hash_and_mode_eq|]. intros [] v1 _ He;
      apply vtriple_ret; intros v Hv.
    + apply post_keep; [|by intros p [_ ?]%Hp]. do 2 right. split; [|done]. by apply (taken_for_mono vi v1).
    + by apply (post_conflict n (Some b) (Some o) None out o).
  - eapply vtriple_bind; [by apply vtriple_hash_and_mode_eq|]. intros [] v1 _ He;
      apply vtriple_ret; intros v Hv.
    + apply post_keep; [|by intros p [_ ?]%Hp]. right; left. split; [|done]. by apply (taken_for_mono vi v1).
    + by apply (post_conflict n (Some b) None (Some t) out t).
  - apply vtriple_ret. intros v _. apply post_keep; [by left|]. by intros p ?%Hp.
  - eapply vtriple_bind; [by apply vtriple_hash_and_mode_eq|]. intros [] v1 Hv1 He.
    { apply vtriple_ret. intros v Hv. apply (post_take _ _ _ _ _ _ o); [|done|].
      - left. split; [|done]. by apply (taken_for_mono vi v1).
      - intros p [_ ->]%Hp. eauto. }
    destruct (is_tree o && is_tree t) eqn:E.
    + apply recurse_post; [by etrans|by cbn; rewrite E|done..].
    + apply vtriple_ret. intros v _. apply (post_conflict n None (Some o) (Some t) out o); try done.
      cbn. by rewrite E.
  - apply vtriple_ret. intros v _. apply (post_take _ _ _ _ _ _ o); [|done|].
    + right; by left.
    + intros p ->%Hp. eauto.
  - apply vtriple_ret. intros v _. apply (post_take _ _ _ _ _ _ t); [|done|].
    + by do 2 right.
    + intros p ->%Hp. eauto.
  - apply vtriple_ret. intros v _. apply post_keep; [by left|]. by intros p ->%Hp.
Qed.

Lemma fold_names_post bs os ts ns : ∀ v0 out, extends vi v0 →
  vtriple v0 (fold_names sub prefix ns bs os ts out) (λ out' v, ∃ es cs,
    mg_entries out' = mg_entries out ++ es ∧ mg_conflicts out' = mg_conflicts out ++ cs ∧
    names es `sublist_of` ns ∧ merges vi v prefix ns bs os ts es cs ∧
    ∀ p, picks bs os ts p → cs = [] ∧
      Forall2 (same_entry vi v) es (omap (λ n, find_name n p) ns)).
Proof.
  induction ns as [|n ns IH]; intros v0 out Hi; cbn [fold_names].
  { apply vtriple_ret. intros v _. exists [], []. rewrite !app_nil_r.
    split_and!; [done..|constructor|constructor|]. intros p _. by split; [|constructor]. }
  eapply vtriple_bind; [by apply merge_name_post|].
  intros out1 v1 Hv1 (e & cs1 & E1 & C1 & M1 & P1).
  eapply (vtriple_weaken v1); [apply IH; by etrans|done|].
  intros out2 v Hv (es & cs & E2 & C2 & N2 & M2 & P2).
  exists (option_list e ++ es), (cs1 ++ cs). rewrite E2, C2, E1, C1, <- !app_assoc.
  split_and!; [done..| | |].
  - unfold names in *. rewrite fmap_app. destruct e as [e|]; cbn; [|by constructor].
    rewrite (merges_at_name _ _ _ _ _ _ _ _ _ _ M1 eq_refl). by constructor.
  - constructor; [|done]. by apply (merges_at_mono vi v1).
  - intros p Hp. destruct (P2 p Hp) as [-> H2].
    assert (picks (find_name n bs) (find_name n os) (find_name n ts) (find_name n p)) as Hn
      by exact (picks_map (find_name n) _ _ _ _ Hp).
    destruct (P1 _ Hn) as [-> H1]. split; [done|]. cbn [omap list_omap].
    destruct (find_name n p) as [q|] eqn:Eq; [|by subst e].
    destruct H1 as (x & -> & He); [by eapply find_name_name|]. constructor; [|done].
    eapply same_entry_mono; [|exact He]. done.
Qed.

End sub.

Lemma elem_of_union x bs os ts :
  x ∈ union_names bs os ts ↔ x ∈ names bs ∨ x ∈ names os ∨ x ∈ names ts.
Proof. unfold union_names. by rewrite (bt_collect_elem bytes_ltb), !elem_of_names_app. Qed.

Lemma union_ascending bs os ts : ascending (union_names bs os ts).
Proof. apply (bt_collect_sorted bytes_ltb). Qed.

Lemma good_ascending es : good_entries es → ascending (names es).
Proof.
  intros [_ H]%andb_true_iff. apply Tree_is_sorted_spec in H. cbn in H. unfold names.
  induction H as [|e l _ IH Hf]; [constructor|]. rewrite fmap_cons. constructor; [done|].
  apply Forall_map. eapply list.Forall_impl; [exact Hf|]. by intros x Hx.
Qed.

Lemma merge_entries_post levels : ∀ v0 bs os ts prefix cs, extends vi v0 →
  good_entries bs → good_entries os → good_entries ts →
  vtriple v0 (merge_entries_recursive levels bs os ts prefix cs) (merged_post prefix bs os ts cs).
Proof.
  induction levels as [|levels IH]; intros v0 bs os ts prefix cs Hi Hb Ho Ht;
    cbn [merge_entries_recursive].
  { by apply vtriple_lift. }
  assert (vtriple v0 (fold_names (merge_entries_recursive levels) prefix (union_names bs os ts) bs os ts
    {| mg_entries := []; mg_conflicts := cs |}) (merged_post prefix bs os ts cs)) as Hf.
  { eapply vtriple_weaken; [by apply fold_names_post|done|].
    intros out v _ (es & cs' & He & Hc & Hs & Hm & Hp).
    cbn in He. subst es. exists cs'. split_and!; [done..|]. intros p Hpp.
    destruct (Hp p Hpp) as [-> H]. split; [done|]. unfold picks in Hpp.
    rewrite find_names in H; [done|apply union_ascending|apply good_ascending; naive_solver|].
    apply ascending_sublist; [apply good_ascending; naive_solver|apply union_ascending|].
    intros x Hx. apply elem_of_union. naive_solver. }
  intros s Hs Hv. specialize (Hf s Hs Hv).
  rewrite (merge_walk_fold _ _ _ (union_names bs os ts));
    [done|lia|by apply good_ascending..|apply union_ascending|]. intros x. apply elem_of_union.
Qed.

End level.

(** What [merge_trees] promises of a result, with the views before and after: the
    merged tree is sorted, its names are valid and each occurs on a side; its entries
    and the conflicts are those of the specification by names; when two of the three
    trees are the same, there is no conflict, and the entries of the merged
    tree are those of the tree taken, at every depth. *)
Definition merge_result_post (v v' : hash32 → result StoreError bytes) (b o t : option hash32)
    (r : MergeResult) : Prop :=
  ∃ bs os ts es bytes,
    loaded v b bs ∧ loaded v o os ∧ loaded v t ts ∧
    serialize (OTree {| tree_entries := es |}) = Ok bytes ∧
    mr_tree_hash r = object_id_from_bytes bytes ∧
    Tree_is_sorted {| tree_entries := es |} = true ∧
    forallb (λ e, validate_name (te_name e)) es = true ∧
    (∀ n, n ∈ names es → n ∈ names bs ∨ n ∈ names os ∨ n ∈ names ts) ∧
    merges v v' [] (union_names bs os ts) bs os ts es (mr_conflicts r) ∧
    ∀ p, picks b o t p →
      has_conflicts r = false ∧ ∃ ps, loaded v p ps ∧ Forall2 (same_entry v v') es ps.

Definition merge_trees_post (b o t : option hash32) (s : S)
    (out : result StoreError MergeResult * S) : Prop :=
  I out.2 ∧ extends (view s) (view out.2) ∧
  ∀ r, out.1 = Ok r → merge_result_post (view s) (view out.2) b o t r.

Lemma ascending_sorted es : ascending (names es) → Tree_is_sorted {| tree_entries := es |} = true.
Proof.
  intros H. apply Tree_is_sorted_spec. cbn. unfold names in H.
  induction es as [|e es IH]; [constructor|]. rewrite fmap_cons in H. inv H as [|? ? H' Hf].
  constructor; [by apply IH|]. by apply Forall_map in Hf.
Qed.

Lemma good_valid es n : good_entries es → n ∈ names es → validate_name n = true.
Proof.
  intros [[_ H]%andb_true_iff _]%andb_true_iff (e & -> & He)%list_elem_of_fmap.
  cbn in H. rewrite forallb_forall in H. apply H. by apply list_elem_of_In.
Qed.

Lemma merged_valid bs os ts es :
  good_entries bs → good_entries os → good_entries ts →
  names es `sublist_of` union_names bs os ts →
  Tree_is_sorted {| tree_entries := es |} = true ∧
  forallb (λ e, validate_name (te_name e)) es = true ∧
  ∀ n, n ∈ names es → n ∈ names bs ∨ n ∈ names os ∨ n ∈ names ts.
Proof.
  intros Hb Ho Ht Hs.
  assert (∀ n, n ∈ names es → n ∈ names bs ∨ n ∈ names os ∨ n ∈ names ts) as Hin.
  { intros n Hn. by eapply elem_of_union, elem_of_sublist. }
  split_and!; [| |done].
  - apply ascending_sorted. eapply sublist_ascending; [exact Hs|apply union_ascending].
  - rewrite forallb_forall. intros e He%list_elem_of_In.
    assert (te_name e ∈ names es) as [Hn|[Hn|Hn]]%Hin by (by apply list_elem_of_fmap_2);
      by (eapply good_valid; [|exact Hn]).
Qed.

Lemma merge_trees_ok b o t s : I s → merge_trees_post b o t s (merge_trees b o t s).
Proof.
  intros Hs.
  pose proof (λ C f R, load3 (C := C) b o t f R s Hs) as Hl.
  unfold merge_trees_post, merge_trees.
  apply (Hl _ _ (λ r v, merge_result_post (view s) v b o t r)). intros bs os ts Hb Ho Ht.
  eapply vtriple_bind.
  { apply (merge_entries_post (view s)); [done|eapply loaded_good; eassumption..]. }
  intros out v1 _ (cs & Hc & Hn & Hm & Hp). eapply vtriple_bind; [apply vtriple_put_object|].
  intros id v2 Hv2 (bytes & Hbs & ->). apply vtriple_ret. intros v3 Hv3.
  exists bs, os, ts, (mg_entries out), bytes.
  destruct (merged_valid bs os ts (mg_entries out)) as (H1 & H2 & H3);
    [eapply loaded_good; eassumption..|done|].
  assert (extends v1 v3) as H13 by by etrans.
  split_and!; [done..|cbn; rewrite Hc; by apply (merges_mono (view s) v1)|]. intros p Hpp.
  destruct (picks_loaded _ _ _ _ _ _ _ _ Hpp Hb Ho Ht) as (ps & Hps & Hpick).
  destruct (Hp ps Hpick) as [-> Hsame]. split; [unfold has_conflicts; cbn; by rewrite Hc|].
  exists ps. split; [done|]. by eapply same_entries_mono; [|exact Hsame].
Qed.

(** C15: the merge of three trees, over any store that a merge may use. What could be
    read can still be read, the merged tree is written under its own id, and its
    entries are sorted and have valid names that occur on a side. Its entries and the
    list of conflicts are, over the union of the names in order and at every depth,
    what [merges] says of each name: where two sides agree the third is taken, added,
    deleted or changed, down to the content of a file; trees are merged in turn; ours
    and theirs that differ from the base and from each other are joined by the text
    merge if they are files of one mode that it can join; all else is exactly one
    conflict, with the path, the kind and the three sides, and the entry of ours. (What
    a merged tree holds at a conflict where ours has no entry is left open: see
    [merge_keeps_theirs_over_deletion].) A merge of which two sides are the same tree
    has no conflict at any depth and gives the entries of the other side, at every
    depth: each has the name and the mode of that side and its id, or another id for
    the same content of a file, or it is a directory that is written anew with such
    entries. *)
Theorem merge_trees_spec (b o t : option hash32) (s : S) (Hs : I s) :
  merge_trees_post b o t s (merge_trees b o t s).
Proof. exact (merge_trees_ok b o t s Hs). Qed.
End merge.

(** The lockstep walk over three sorted lists is the fold of the decision for one
    name over the union of the names in order, every name decided once, whatever the
    merge of the subtrees does; its number of rounds is the number of entries. *)
Theorem merge_walk_by_name `{B : Blake3} {S : Type} `{!ObjectSource S, !ObjectSink S}
    (sub : list TreeEntry → list TreeEntry → list TreeEntry → bytes → list Conflict → M S Merged)
    (prefix : bytes) (bs os ts : list TreeEntry) (out : Merged) (s : S)
    (Hb : good_entries bs) (Ho : good_entries os) (Ht : good_entries ts) :
  merge_walk sub prefix (length bs + length os + length ts) bs os ts out s =
  fold_names sub prefix (union_names bs os ts) bs os ts out s.
Proof.
  apply merge_walk_fold; [lia|by apply good_ascending..|apply union_ascending|].
  intros x. apply elem_of_union.
Qed.

(** ** Examples *)

Import Toy.

(** A base with the files [a] and [b]; a side that deletes [a]; a side that changes [a]. *)
Definition ex_trees : hash32 * hash32 * hash32 * ObjectStore :=
  let put o st := store_object o st in
  let file n h := entry_of n EntryMode.Blob h in
  let '(x, st) := put (OBlob {| blob_data := b# "x" |}) {| disk := ∅ |} in
  let '(y, st) := put (OBlob {| blob_data := b# "y" |}) st in
  let '(base, st) := put (OTree {| tree_entries := [file (b# "a") x; file (b# "b") x] |}) st in
  let '(deleted, st) := put (OTree {| tree_entries := [file (b# "b") x] |}) st in
  let '(changed, st) := put (OTree {| tree_entries := [file (b# "a") y; file (b# "b") x] |}) st in
  (base, deleted, changed, st).
Definition ex_base : hash32 := ex_trees.1.1.1.
Definition ex_deleted : hash32 := ex_trees.1.1.2.
Definition ex_changed : hash32 := ex_trees.1.2.
Definition ex_trees_store : ObjectStore := ex_trees.2.

#[local] Instance ex_sink : ObjectSink ObjectStore := ObjectStore_sink None.

(** A delete/modify conflict without an ours side. *)
Definition ours_deleted (r : result StoreError MergeResult) : bool :=
  match r with
  | Ok {| mr_conflicts := [c] |} =>
      match cf_kind c, cf_ours_hash c with DeleteModify, None => true | _, _ => false end
  | _ => false
  end.

Definition merged_is (r : result StoreError MergeResult) (h : hash32) : bool :=
  match r with Ok r => bool_decide (mr_tree_hash r = h) | Err _ => false end.

(** The merged tree does not hold ours at every conflicting path. Ours deletes a file
    that theirs changes: the one conflict has no ours side, and the merged tree is
    the tree of theirs, the deleted file included. With the sides swapped the file is
    kept too. *)
Theorem merge_keeps_theirs_over_deletion :
  let r := (merge_trees (Some ex_base) (Some ex_deleted) (Some ex_changed) ex_trees_store).1 in
  let r' := (merge_trees (Some ex_base) (Some ex_changed) (Some ex_deleted) ex_trees_store).1 in
  ours_deleted r = true ∧ merged_is r ex_changed = true ∧ merged_is r' ex_changed = true.
Proof. vm_compute. exact (conj eq_refl (conj eq_refl eq_refl)). Qed.

(** Ours changes the content of a file of the base, theirs does not: the merged tree
    is ours, and not the base, although the two have the same names and modes. *)
Lemma merge_trees_spec_witness :
  let out := merge_trees (Some ex_base) (Some ex_changed) (Some ex_base) ex_trees_store in
  merged_is out.1 ex_changed = true ∧ merged_is out.1 ex_base = false ∧
  merge_trees_post (λ _ : ObjectStore, True) read (Some ex_base) (Some ex_changed) (Some ex_base)
    ex_trees_store out.
Proof.
  split; [vm_compute; exact eq_refl|]. split; [vm_compute; exact eq_refl|].
  apply (merge_trees_spec (λ _ : ObjectStore, True) read (V := ObjectStore_store_view None)
    (Some ex_base) (Some ex_changed) (Some ex_base) ex_trees_store). exact Logic.I.
Defined.

Definition ex_side : list TreeEntry := [entry_of (b# "a") EntryMode.Blob ZERO].

Lemma merge_walk_by_name_witness :
  let sub := merge_entries_recursive (S := ObjectStore) 1 in
  let out := {| mg_entries := []; mg_conflicts := [] |} in
  merge_walk sub [] 2 ex_side [] ex_side out ex_trees_store =
  fold_names sub [] (union_names ex_side [] ex_side) ex_side [] ex_side out ex_trees_store.
Proof.
  apply (merge_walk_by_name (merge_entries_recursive (S := ObjectStore) 1) [] ex_side [] ex_side);
    reflexivity.
Defined.
