(* ===== verification/Chunker.v ===== *)
(** * Content-defined chunking

    Models [rust/crates/mkit-core/src/chunker.rs]: the gear table, the cut-point
    search, the iterator over a slice and the reader over a stream with its window. A
    [u64] is an [N] that every operation wraps; positions are [nat]. *)

From S2P Require Import Prelude Hash Object.

Definition SEED : N := 0x4D4B495446434443.
Definition MIN_SIZE : nat := N.to_nat 0x4000.
Definition AVG_SIZE : nat := N.to_nat 0x10000.
Definition MAX_SIZE : nat := N.to_nat 0x40000.
Definition MASK_S : N := 0x1FFFF.
Definition MASK_L : N := 0x7FFF.

(** ** The gear table *)

Definition splitmix_step (state : N) : N := wrapping_add state 0x9e3779b97f4a7c15.

Definition splitmix_entry (state : N) : N :=
  let z := state in
  let z := wrapping_mul (N.lxor z (N.shiftr z 30)) 0xbf58476d1ce4e5b9 in
  let z := wrapping_mul (N.lxor z (N.shiftr z 27)) 0x94d049bb133111eb in
  N.lxor z (N.shiftr z 31).

Fixpoint gear_entries (n : nat) (state : N) : list N :=
  match n with
  | O => []
  | S n => let state := splitmix_step state in splitmix_entry state :: gear_entries n state
  end.

Definition build_gear_table : list N := gear_entries 256 SEED.
Definition gear_table : list N := Eval vm_compute in build_gear_table.
Definition gear (b : byte) : N := nth (N.to_nat (b2n b)) gear_table 0%N.

Definition gear_table_digest `{Blake3} : hash32 := b3_hash (concat (le_bytes 8 <$> gear_table)).

(** ** Cut points *)

Record ChunkBoundary := { cbd_offset : nat; cbd_length : nat }.

Record FastCdc := {
  min_size : nat;
  avg_size : nat;
  max_size : nat;
  mask_s : N;
  mask_l : N
}.

Definition v1 : FastCdc :=
  {| min_size := MIN_SIZE; avg_size := AVG_SIZE; max_size := MAX_SIZE;
     mask_s := MASK_S; mask_l := MASK_L |}.

(** [usize::is_power_of_two]. *)
Definition is_power_of_two (n : N) : bool :=
  negb (n =? 0)%N && (n =? 2 ^ N.log2 n)%N.

(** [None]: one of the assertions fails. *)
Definition custom (min avg max : nat) : option FastCdc :=
  if (min <? avg) && (avg <? max) then
    if is_power_of_two (N.of_nat avg) then
      let mask := N.ones (N.log2 (N.of_nat avg)) in
      Some {| min_size := min; avg_size := avg; max_size := max;
              mask_s := N.lor mask (wrap64 (N.shiftl mask 1));
              mask_l := N.shiftr mask 1 |}
    else None
  else None.

(** [(hash << 1).wrapping_add(table[data[i] as usize])]. *)
Definition roll (hash : N) (b : byte) : N := wrapping_add (wrap64 (N.shiftl hash 1)) (gear b).

(** One of the two [while] loops of [cut], from [i] over the bytes that are left before
    its end: [inl i] returns [i], [inr] leaves with [i] and the hash. *)
Fixpoint cut_loop (mask hash : N) (i : nat) (window : bytes) : nat + nat * N :=
  match window with
  | [] => inr (i, hash)
  | b :: window =>
      let hash := roll hash b in
      if (N.land hash mask =? 0)%N then inl i else cut_loop mask hash (S i) window
  end.

Section cdc.
Context (self : FastCdc).

Definition cut (data : bytes) : nat :=
  if length data <=? min_size self then length data
  else
    let avg_end := Nat.min (avg_size self) (length data) in
    match cut_loop (mask_s self) 0 (min_size self) (slice (min_size self) (avg_end - min_size self) data) with
    | inl i => i
    | inr (i, hash) =>
        let max_end := Nat.min (max_size self) (length data) in
        match cut_loop (mask_l self) hash i (slice i (max_end - i) data) with
        | inl i => i
        | inr _ => max_end
        end
    end.

(** [ChunkIterator::next] over [data], from the offset it keeps. *)
Definition next (data : bytes) (offset : nat) : option (ChunkBoundary * nat) :=
  if length data <=? offset then None
  else
    let length := cut (drop offset data) in
    Some ({| cbd_offset := offset; cbd_length := length |}, offset + length).

(** The boundaries that the iterator yields until it is exhausted. *)
Definition iter_step (data : bytes) (s : nat * list ChunkBoundary)
    : (nat * list ChunkBoundary) + list ChunkBoundary :=
  match next data s.1 with
  | None => inr s.2
  | Some (b, offset) => inl (offset, s.2 ++ [b])
  end.

Definition chunks (data : bytes) : option (list ChunkBoundary) :=
  loop (S (length data)) (iter_step data) (0, []).
End cdc.

Definition boundaries_step (data : bytes) (s : nat * list nat) : (nat * list nat) + list nat :=
  if s.1 <? length data then
    let offset := s.1 + cut v1 (drop s.1 data) in inl (offset, s.2 ++ [offset])
  else inr s.2.

Definition chunk_boundaries (data : bytes) : option (list nat) :=
  loop (S (length data)) (boundaries_step data) (0, []).

(** ** The streaming reader *)

(** [std::io::Read]: one call with room for [n] bytes. *)
Class Read (R E : Type) := read_some : R → nat → result E bytes * R.

Definition WINDOW_MULTIPLE : nat := 4.

Section reader.
Context {R E : Type} `{!Read R E} (cdc : FastCdc).

Record ChunkReader := {
  cr_reader : R;
  cr_buf : bytes;
  cr_start : nat;
  cr_end : nat;
  cr_eof : bool
}.

Definition ChunkReader_new (reader : R) : ChunkReader :=
  {| cr_reader := reader; cr_buf := replicate (max_size cdc * WINDOW_MULTIPLE) (n2b 0);
     cr_start := 0; cr_end := 0; cr_eof := false |}.

(** [buf.copy_within(a..b, 0)]. *)
Definition copy_to_front (a b : nat) (buf : bytes) : bytes :=
  slice a (b - a) buf ++ drop (b - a) buf.

(** The bytes that a read puts at [pos]. *)
Definition overwrite (pos : nat) (bs buf : bytes) : bytes :=
  take pos buf ++ bs ++ drop (pos + length bs) buf.

Definition compact (self : ChunkReader) : ChunkReader :=
  if length (cr_buf self) - cr_end self <? max_size cdc then
    {| cr_reader := cr_reader self;
       cr_buf := copy_to_front (cr_start self) (cr_end self) (cr_buf self);
       cr_start := 0; cr_end := cr_end self - cr_start self; cr_eof := cr_eof self |}
  else self.

(** One round of [fill]. *)
Definition fill_step (self : ChunkReader) : ChunkReader + result E unit * ChunkReader :=
  if negb (cr_eof self) && (cr_end self - cr_start self <? max_size cdc) then
    let self := compact self in
    let '(n, reader) := read_some (cr_reader self) (length (cr_buf self) - cr_end self) in
    match n with
    | Err e => inr (Err e, {| cr_reader := reader; cr_buf := cr_buf self;
                 cr_start := cr_start self; cr_end := cr_end self; cr_eof := cr_eof self |})
    | Ok [] => inl {| cr_reader := reader; cr_buf := cr_buf self;
                 cr_start := cr_start self; cr_end := cr_end self; cr_eof := true |}
    | Ok bs => inl {| cr_reader := reader; cr_buf := overwrite (cr_end self) bs (cr_buf self);
                 cr_start := cr_start self; cr_end := cr_end self + length bs;
                 cr_eof := cr_eof self |}
    end
  else inr (Ok tt, self).

(** A round reads a byte or finds the end, so [max_size + 2] rounds are enough. *)
Definition fill (self : ChunkReader) : option (result E unit * ChunkReader) :=
  loop (S (S (max_size cdc))) fill_step self.

(** [next_chunk_ref]: the bytes that the returned slice shows. *)
Definition next_chunk_ref (self : ChunkReader) : option (result E (option bytes) * ChunkReader) :=
  '(filled, self) ← fill self;
  match filled with
  | Err e => Some (Err e, self)
  | Ok _ =>
      if cr_start self =? cr_end self then Some (Ok None, self)
      else
        let length := cut cdc (slice (cr_start self) (cr_end self - cr_start self) (cr_buf self)) in
        let chunk_start := cr_start self in
        let self := {| cr_reader := cr_reader self; cr_buf := cr_buf self;
                       cr_start := cr_start self + length; cr_end := cr_end self;
                       cr_eof := cr_eof self |} in
        Some (Ok (Some (slice chunk_start length (cr_buf self))), self)
  end.

Definition next_chunk : ChunkReader → option (result E (option bytes) * ChunkReader) :=
  next_chunk_ref.

(** A caller that reads chunks to the end of the stream. *)
Definition read_step (s : ChunkReader * list bytes)
    : (ChunkReader * list bytes) + option (result E (list bytes)) :=
  match next_chunk s.1 with
  | None => inr None
  | Some (Err e, _) => inr (Some (Err e))
  | Some (Ok None, _) => inr (Some (Ok s.2))
  | Some (Ok (Some c), self) => inl (self, s.2 ++ [c])
  end.
End reader.
Arguments ChunkReader R : clear implicits.

Definition read_chunks {R E} `{!Read R E} (cdc : FastCdc) (fuel : nat) (reader : R)
    : option (result E (list bytes)) :=
  m ← loop fuel (read_step cdc) (ChunkReader_new cdc reader, []); m.
