(* ===== verification/ChunkerFacts.v ===== *)
(** * Chunks cover the input, are bounded, and do not depend on how it is read

    The iterator cuts the data into consecutive chunks within the size bounds, and the
    reader cuts a stream at the same places, however short its reads are. *)

From S2P Require Import Prelude Hash Object Chunker.

(** ** The cut point *)

Lemma cut_loop_spec mask w : ∀ hash i,
  match cut_loop mask hash i w with
  | inl j => i ≤ j < i + length w
  | inr (j, _) => j = i + length w
  end.
Proof.
  induction w as [|b w IH]; intros hash i; cbn; [lia|].
  destruct (_ =? _)%N; [lia|]. specialize (IH (roll hash b) (S i)).
  destruct (cut_loop _ _ _ w) as [j|[j h]]; lia.
Qed.

(** What [v1] and [custom] guarantee. *)
Definition cdc_ok (cdc : FastCdc) : Prop := min_size cdc < avg_size cdc < max_size cdc.

Lemma cdc_ok_v1 : cdc_ok v1.
Proof. unfold cdc_ok, v1, MIN_SIZE, AVG_SIZE, MAX_SIZE. cbn [min_size avg_size max_size]. lia. Qed.

Lemma cdc_ok_custom min avg max cdc :
  custom min avg max = Some cdc → cdc_ok cdc ∧ min_size cdc = min ∧ max_size cdc = max.
Proof.
  unfold custom. destruct (_ && _) eqn:E; [|done]. apply andb_true_iff in E as [H1 H2].
  apply Nat.ltb_lt in H1, H2. destruct (is_power_of_two _); [|done]. by intros [= <-].
Qed.

Section cdc.
Context (cdc : FastCdc) (Hok : cdc_ok cdc).

Lemma cut_bounds data :
  (length data ≤ min_size cdc ∧ cut cdc data = length data) ∨
  (min_size cdc < length data ∧ min_size cdc ≤ cut cdc data ≤ Nat.min (max_size cdc) (length data)).
Proof.
  unfold cdc_ok in Hok. unfold cut. destruct (Nat.leb_spec (length data) (min_size cdc)); [by left|].
  right. split; [done|].
  set (a := Nat.min (avg_size cdc) (length data)).
  pose proof (cut_loop_spec (mask_s cdc) (slice (min_size cdc) (a - min_size cdc) data) 0 (min_size cdc)) as H1.
  rewrite slice_length in H1 by lia.
  destruct (cut_loop _ _ _ _) as [j|[j h]]; [lia|].
  set (m := Nat.min (max_size cdc) (length data)).
  pose proof (cut_loop_spec (mask_l cdc) (slice j (m - j) data) h j) as H2.
  rewrite slice_length in H2 by lia.
  destruct (cut_loop _ _ _ _) as [k|[k h']]; lia.
Qed.

Lemma slice_take i k n (l : bytes) : i + k ≤ n → slice i k (take n l) = slice i k l.
Proof.
  intros H. unfold slice. rewrite skipn_firstn_comm, take_take. f_equal. lia.
Qed.

(** [cut] looks at no more than [max_size] bytes. *)
Lemma cut_prefix n data : max_size cdc ≤ n → cut cdc (take n data) = cut cdc data.
Proof.
  intros Hn. destruct (decide (length data ≤ n)) as [Hl|Hl]; [by rewrite take_ge|].
  unfold cdc_ok in Hok. unfold cut. rewrite length_take.
  destruct (Nat.leb_spec (Nat.min n (length data)) (min_size cdc)); [lia|].
  destruct (Nat.leb_spec (length data) (min_size cdc)); [lia|].
  replace (Nat.min (avg_size cdc) (Nat.min n (length data))) with (avg_size cdc) by lia.
  replace (Nat.min (avg_size cdc) (length data)) with (avg_size cdc) by lia.
  replace (Nat.min (max_size cdc) (Nat.min n (length data))) with (max_size cdc) by lia.
  replace (Nat.min (max_size cdc) (length data)) with (max_size cdc) by lia.
  rewrite slice_take by lia.
  pose proof (cut_loop_spec (mask_s cdc)
    (slice (min_size cdc) (avg_size cdc - min_size cdc) data) 0 (min_size cdc)) as H1.
  rewrite slice_length in H1 by lia.
  destruct (cut_loop _ _ _ _) as [j|[j h]]; [done|]. by rewrite slice_take by lia.
Qed.

(** The data cut up: the reference that the iterator and the reader are compared with. *)
Inductive cuts : bytes → list bytes → Prop :=
  | cuts_nil : cuts [] []
  | cuts_cons data cs :
      data ≠ [] → cuts (drop (cut cdc data) data) cs →
      cuts data (take (cut cdc data) data :: cs).

Lemma cuts_concat data cs : cuts data cs → concat cs = data.
Proof. induction 1 as [|data cs _ _ IH]; [done|]. cbn. by rewrite IH, take_drop. Qed.

Lemma cuts_fun data cs : cuts data cs → ∀ cs', cuts data cs' → cs = cs'.
Proof.
  induction 1 as [|data cs Hne _ IH]; intros cs' H'; inv H'; try done. f_equal. by apply IH.
Qed.

Context (Hmin : 0 < min_size cdc).

Lemma cut_pos data : data ≠ [] → 0 < cut cdc data ≤ length data.
Proof.
  intros Hne. destruct data as [|b data]; [done|]. clear Hne.
  pose proof (cut_bounds (b :: data)) as H. cbn [length] in *. lia.
Qed.

(** Sizes: no chunk is empty or longer than the maximum, and none but the last is
    shorter than the minimum. *)
Definition sizes_ok (cs : list bytes) : Prop :=
  (∀ c, c ∈ cs → 0 < length c ≤ max_size cdc) ∧
  ∀ c, c ∈ removelast cs → min_size cdc ≤ length c.

Lemma cuts_sizes data cs : cuts data cs → sizes_ok cs.
Proof.
  induction 1 as [|data cs Hne Hc [H1 H2]].
  { split; intros c Hc; cbn in Hc; inv Hc. }
  pose proof (cut_pos data Hne) as Hp. pose proof (cut_bounds data) as Hb.
  assert (length (take (cut cdc data) data) = cut cdc data) as Hlen by (rewrite length_take; lia).
  unfold cdc_ok in Hok. split.
  - intros c [->|Hin]%elem_of_cons; [lia|auto].
  - intros c Hin. destruct cs as [|c' cs]; [cbn in Hin; inv Hin|].
    change (removelast (?x :: c' :: cs)) with (x :: removelast (c' :: cs)) in Hin.
    apply elem_of_cons in Hin as [->|Hin]; [|auto].
    destruct Hb as [[Hle He]|?]; [|lia]. rewrite He, drop_all in Hc. inv Hc; done.
Qed.

(** ** The iterator *)

(** The bytes of a boundary. *)
Definition piece (data : bytes) (b : ChunkBoundary) : bytes :=
  slice (cbd_offset b) (cbd_length b) data.

(** Every boundary starts where the one before it ends. *)
Fixpoint contiguous (offset : nat) (bs : list ChunkBoundary) : Prop :=
  match bs with
  | [] => True
  | b :: bs => cbd_offset b = offset ∧ contiguous (offset + cbd_length b) bs
  end.

(** The iteration from an offset on. *)
Lemma iter_spec fuel : ∀ data offset out,
  length data - offset < fuel → offset ≤ length data →
  ∃ bs, loop fuel (iter_step cdc data) (offset, out) = Some (out ++ bs) ∧
    contiguous offset bs ∧ cuts (drop offset data) (piece data <$> bs).
Proof.
  induction fuel as [|fuel IH]; intros data offset out Hf Ho; [lia|].
  cbn [loop]. unfold iter_step, next. cbn [fst snd].
  destruct (Nat.leb_spec (length data) offset).
  { exists []. rewrite app_nil_r, drop_ge by lia. repeat constructor. }
  set (rest := drop offset data). assert (length rest = length data - offset) as Hr
    by (unfold rest; apply length_drop).
  assert (rest ≠ []) as Hne by (intros E; rewrite E in Hr; cbn in Hr; lia).
  pose proof (cut_pos rest Hne). destruct (IH data (offset + cut cdc rest)
    (out ++ [{| cbd_offset := offset; cbd_length := cut cdc rest |}])) as (bs & Hl & Hc & Hcuts); [lia..|].
  exists ({| cbd_offset := offset; cbd_length := cut cdc rest |} :: bs).
  rewrite <- app_assoc in Hl. split_and!; [exact Hl|done|].
  cbn. unfold piece at 1. cbn. apply cuts_cons; [done|]. unfold rest in *. by rewrite drop_drop.
Qed.

Lemma chunks_cuts data :
  ∃ bs, chunks cdc data = Some bs ∧ contiguous 0 bs ∧ cuts data (piece data <$> bs).
Proof. unfold chunks. by destruct (iter_spec (S (length data)) data 0 []) as (bs & ? & ? & ?); [lia..|exists bs]. Qed.
End cdc.

(** C17: The chunks of a slice are the slice. For the frozen parameters, and for custom
    ones with a positive minimum, the iteration ends; its chunks are consecutive
    from 0, their bytes concatenated are the data, no chunk is empty or longer than
    the maximum, and only the last one may be shorter than the minimum. *)
Theorem chunks_spec (cdc : FastCdc) (data : bytes)
    (Hok : cdc_ok cdc) (Hmin : 0 < min_size cdc) :
  ∃ bs, chunks cdc data = Some bs ∧ contiguous 0 bs ∧
    concat (piece data <$> bs) = data ∧ sizes_ok cdc (piece data <$> bs).
Proof.
  destruct (chunks_cuts cdc Hok Hmin data) as (bs & Hc & Hb & Hcuts). exists bs.
  split_and!; [done|done|by eapply cuts_concat|by eapply cuts_sizes].
Qed.

(** [chunk_boundaries] are the ends of the chunks of [v1]. *)
Lemma boundaries_ends fuel data : ∀ offset out bs,
  loop fuel (iter_step v1 data) (offset, out) = Some bs →
  loop fuel (boundaries_step data) (offset, (λ b, cbd_offset b + cbd_length b) <$> out) =
  Some ((λ b, cbd_offset b + cbd_length b) <$> bs).
Proof.
  induction fuel as [|fuel IH]; intros offset out bs; [done|]. cbn [loop].
  unfold iter_step at 1, boundaries_step at 1, next. cbn [fst snd].
  rewrite Nat.ltb_antisym. destruct (length data <=? offset); cbn [negb].
  - by intros [= ->].
  - intros H. apply IH in H. by rewrite fmap_app in H.
Qed.

Lemma chunk_boundaries_ends data :
  ∃ bs, chunks v1 data = Some bs ∧
    chunk_boundaries data = Some ((λ b, cbd_offset b + cbd_length b) <$> bs).
Proof.
  destruct (chunks_cuts v1 cdc_ok_v1) with (data := data) as (bs & Hc & _).
  { unfold v1, MIN_SIZE. cbn [min_size]. lia. }
  exists bs. split; [done|]. by apply (boundaries_ends _ _ 0 []).
Qed.

(** ** The reader *)

(** A reader of a stream: [left] is what it has still to give. A read gives a prefix
    of it, no longer than there is room for, and nothing only when there is no room
    or nothing left, as [std::io::Read] documents. *)
Class ReadsStream {R E} `{!Read R E} (left : R → bytes) : Prop :=
  read_law r n : match read_some r n with
    | (Ok bs, r') => left r = bs ++ left r' ∧ length bs ≤ n ∧ (bs = [] → n = 0 ∨ left r = [])
    | (Err _, _) => True
    end.

Section reader.
Context {R E : Type} `{!Read R E} (left : R → bytes) `{!ReadsStream left}.
Context (cdc : FastCdc) (Hok : cdc_ok cdc).

(** The valid bytes of the window. *)
Definition window (cr : ChunkReader R) : bytes :=
  slice (cr_start cr) (cr_end cr - cr_start cr) (cr_buf cr).

Record reader_ok (data : bytes) (cr : ChunkReader R) : Prop := {
  ro_range : cr_start cr ≤ cr_end cr ≤ length (cr_buf cr);
  ro_buf : length (cr_buf cr) = max_size cdc * WINDOW_MULTIPLE;
  ro_eof : cr_eof cr = true → left (cr_reader cr) = [];
  ro_data : data = window cr ++ left (cr_reader cr)
}.

Lemma length_window cr data : reader_ok data cr → length (window cr) = cr_end cr - cr_start cr.
Proof. intros [? ? ? ?]. apply slice_length. lia. Qed.

Lemma new_ok reader : reader_ok (left reader) (ChunkReader_new cdc reader).
Proof. split; cbn; [lia|by rewrite length_replicate|done|done]. Qed.

Lemma length_copy_to_front a b (buf : bytes) :
  a ≤ b ≤ length buf → length (copy_to_front a b buf) = length buf.
Proof.
  intros H. unfold copy_to_front. rewrite length_app, slice_length, length_drop by lia. lia.
Qed.

Lemma length_overwrite pos (bs buf : bytes) :
  pos + length bs ≤ length buf → length (overwrite pos bs buf) = length buf.
Proof. intros H. unfold overwrite. rewrite !length_app, length_take, length_drop. lia. Qed.

(** Making room keeps the window, and leaves room. *)
Lemma compact_ok data cr :
  reader_ok data cr → cr_end cr - cr_start cr < max_size cdc →
  let cr' := compact cdc cr in
  reader_ok data cr' ∧ cr_reader cr' = cr_reader cr ∧ cr_eof cr' = cr_eof cr ∧
  cr_end cr' - cr_start cr' = cr_end cr - cr_start cr ∧ cr_end cr' < length (cr_buf cr').
Proof.
  intros [Hr Hb He Hd] Hlt. cbv zeta. unfold compact.
  destruct (Nat.ltb_spec (length (cr_buf cr) - cr_end cr) (max_size cdc)).
  - cbn. rewrite length_copy_to_front by lia. unfold WINDOW_MULTIPLE in *.
    split_and!; [|done|done|lia|lia]. split; cbn; rewrite ?length_copy_to_front by lia; [lia|done|done|].
    rewrite Hd. f_equal. unfold window. cbn. rewrite Nat.sub_0_r. unfold copy_to_front.
    assert (length (slice (cr_start cr) (cr_end cr - cr_start cr) (cr_buf cr)) =
      cr_end cr - cr_start cr) as Hl by (apply slice_length; lia).
    change (slice 0 ?n ?l) with (take n l). symmetry. by apply take_app_length'.
  - split_and!; [by split|done|done|done|lia].
Qed.

Lemma slice_overwrite a pos (bs buf : bytes) :
  a ≤ pos → pos + length bs ≤ length buf →
  slice a (pos + length bs - a) (overwrite pos bs buf) = slice a (pos - a) buf ++ bs.
Proof.
  intros Ha Hp. unfold slice, overwrite.
  rewrite drop_app_le by (rewrite length_take; lia).
  rewrite skipn_firstn_comm, take_app_ge by (rewrite length_take, length_drop; lia).
  f_equal. rewrite length_take, length_drop, take_app_le by lia. apply take_ge. lia.
Qed.

(** An error that the reader gave. *)
Definition read_error (e : E) : Prop := ∃ r n, (read_some r n).1 = Err e.

Lemma fill_step_ok data cr :
  reader_ok data cr →
  let m cr := (max_size cdc - (cr_end cr - cr_start cr)) + (if cr_eof cr then 0 else 1) in
  match fill_step cdc cr with
  | inl cr' => reader_ok data cr' ∧ m cr' < m cr
  | inr (Ok _, cr') => reader_ok data cr' ∧
      (left (cr_reader cr') = [] ∨ max_size cdc ≤ cr_end cr' - cr_start cr')
  | inr (Err e, _) => read_error e
  end.
Proof.
  intros Hcr. cbv zeta. unfold fill_step. destruct (cr_eof cr) eqn:Eeof; cbn [negb andb].
  { split; [done|left]. by apply (ro_eof data). }
  destruct (Nat.ltb_spec (cr_end cr - cr_start cr) (max_size cdc)) as [Hlt|Hge]; [|by auto].
  destruct (compact_ok data cr Hcr Hlt) as ([Hr Hb He Hd] & _ & Ee & Es & Hroom).
  set (cr1 := compact cdc cr) in *.
  pose proof (read_law (cr_reader cr1) (length (cr_buf cr1) - cr_end cr1)) as Hl.
  destruct (read_some _ _) as [[bs|e] reader] eqn:Er; [|by repeat eexists; rewrite Er].
  destruct Hl as (Hleft & Hlen & Hnil).
  destruct bs as [|b bs]; cbn [cr_eof cr_end cr_start].
  - assert (left reader = []) as Hz by (rewrite Hleft in Hnil; destruct Hnil; [done|lia|done]).
    split; [|lia]. split; cbn; [done|done|done|]. rewrite Hd, Hleft. by rewrite Hz.
  - split; [|cbn [length] in *; rewrite Ee, Eeof; lia].
    split; cbn [cr_eof cr_end cr_start cr_buf cr_reader].
    + rewrite length_overwrite by lia. lia.
    + by rewrite length_overwrite by lia.
    + intros H. by rewrite Ee, Eeof in H.
    + rewrite Hd, Hleft, app_assoc. f_equal. unfold window.
      cbn [cr_eof cr_end cr_start cr_buf cr_reader]. by rewrite slice_overwrite by lia.
Qed.

Lemma window_fill_ok data cr :
  reader_ok data cr →
  ∃ r cr', fill cdc cr = Some (r, cr') ∧
    match r with
    | Ok _ => reader_ok data cr' ∧
        (left (cr_reader cr') = [] ∨ max_size cdc ≤ cr_end cr' - cr_start cr')
    | Err e => read_error e
    end.
Proof.
  intros Hcr.
  destruct (loop_rule (fill_step cdc)
    (λ cr, (max_size cdc - (cr_end cr - cr_start cr)) + (if cr_eof cr then 0 else 1))
    (reader_ok data)
    (λ '(r, cr'), match r with
       | Ok _ => reader_ok data cr' ∧
           (left (cr_reader cr') = [] ∨ max_size cdc ≤ cr_end cr' - cr_start cr')
       | Err e => read_error e
       end)) with (fuel := S (S (max_size cdc))) (s := cr) as ([r cr'] & Hl & Hq); [|done|..].
  - intros cr1 H1. pose proof (fill_step_ok data cr1 H1) as H. cbv zeta in H.
    by destruct (fill_step cdc cr1) as [?|[[] ?]].
  - destruct (cr_eof cr); lia.
  - by exists r, cr'.
Qed.

Lemma slice_prefix a k n (l : bytes) : k ≤ n → slice a k l = take k (slice a n l).
Proof. intros H. unfold slice. rewrite take_take. f_equal. lia. Qed.

Lemma slice_suffix a k n (l : bytes) : slice (a + k) (n - k) l = drop k (slice a n l).
Proof. unfold slice. rewrite skipn_firstn_comm, drop_drop. done. Qed.

Lemma next_chunk_ok data cr :
  reader_ok data cr →
  ∃ r cr', next_chunk cdc cr = Some (r, cr') ∧
    match r with
    | Ok None => data = []
    | Ok (Some c) => data ≠ [] ∧ c = take (cut cdc data) data ∧
        reader_ok (drop (cut cdc data) data) cr'
    | Err e => read_error e
    end.
Proof.
  intros Hcr. unfold next_chunk, next_chunk_ref.
  destruct (window_fill_ok data cr Hcr) as (r & cr1 & -> & Hq). cbn [mbind option_bind].
  destruct r as [[]|e]; [|by eexists _, _].
  destruct Hq as [H1 Hfull]. pose proof (length_window cr1 data H1) as Hw.
  pose proof H1 as [Hr Hb He Hd].
  destruct (Nat.eqb_spec (cr_start cr1) (cr_end cr1)) as [Heq|Hne].
  { eexists _, _. split; [done|]. destruct Hfull as [Hz|?]; [|unfold cdc_ok in Hok; lia].
    rewrite Hd, Hz, app_nil_r. apply length_zero_iff_nil. lia. }
  fold (window cr1). set (w := window cr1) in *.
  assert (cut cdc w = cut cdc data) as Hcut.
  { destruct Hfull as [Hz|Hge]; [by rewrite Hd, Hz, app_nil_r|].
    rewrite Hd, <- (cut_prefix cdc Hok (length w) (w ++ _)) by lia. by rewrite take_app_length. }
  assert (cut cdc w ≤ length w) as Hle by (pose proof (cut_bounds cdc Hok w); lia).
  eexists _, _. split; [done|]. cbn [cr_start cr_end cr_buf cr_reader cr_eof].
  rewrite (slice_prefix _ _ (cr_end cr1 - cr_start cr1)) by lia. fold (window cr1). fold w.
  rewrite <- Hcut. split_and!.
  - intros E0. rewrite E0 in Hd. symmetry in Hd. apply app_eq_nil in Hd as [Hd _].
    rewrite Hd in Hw. cbn in Hw. lia.
  - by rewrite Hd, take_app_le.
  - split; cbn [cr_start cr_end cr_buf cr_reader cr_eof]; [lia|done|done|].
    rewrite Hd, drop_app_le by done. f_equal. unfold window.
    cbn [cr_start cr_end cr_buf cr_reader cr_eof].
    by rewrite Nat.sub_add_distr, slice_suffix.
Qed.

Context (Hmin : 0 < min_size cdc).

Lemma read_loop_ok fuel : ∀ data cr out,
  reader_ok data cr → length data < fuel →
  ∃ r, loop fuel (read_step cdc) (cr, out) = Some (Some r) ∧
    match r with
    | Ok cs => ∃ cs', cs = out ++ cs' ∧ cuts cdc data cs'
    | Err e => read_error e
    end.
Proof.
  induction fuel as [|fuel IH]; intros data cr out Hcr Hf; [lia|].
  cbn [loop]. unfold read_step at 1. cbn [fst snd].
  destruct (next_chunk_ok data cr Hcr) as (r & cr' & -> & Hq).
  destruct r as [[c|]|e].
  - destruct Hq as (Hne & -> & Hcr'). pose proof (cut_pos cdc Hok Hmin data Hne).
    destruct (IH _ cr' (out ++ [take (cut cdc data) data]) Hcr') as (r & Hl & Hq);
      [rewrite length_drop; lia|].
    exists r. split; [exact Hl|]. destruct r as [cs|e]; [|done].
    destruct Hq as (cs' & -> & Hc). eexists (_ :: cs'). rewrite <- app_assoc. split; [done|].
    by constructor.
  - subst data. eexists (Ok out). split; [done|]. exists []. rewrite app_nil_r. repeat constructor.
  - by exists (Err e).
Qed.
End reader.

(** C18: The reader finds the chunks of the slice. Over every reader that keeps the
    documented contract of [std::io::Read], however short its reads are, the window
    never runs out of room or range, the reading ends, and it gives an error of the
    reader or exactly the chunks that the iterator cuts the whole stream into. *)
Theorem stream_chunks_spec {R E} `{!Read R E} (left : R → bytes) `{!ReadsStream left}
    (cdc : FastCdc) (reader : R) (fuel : nat)
    (Hok : cdc_ok cdc) (Hmin : 0 < min_size cdc) (Hfuel : length (left reader) < fuel) :
  ∃ r, read_chunks cdc fuel reader = Some r ∧
    match r with
    | Ok cs => ∃ bs, chunks cdc (left reader) = Some bs ∧ cs = piece (left reader) <$> bs
    | Err e => ∃ r n, (read_some r n).1 = Err e
    end.
Proof.
  unfold read_chunks.
  destruct (read_loop_ok left cdc Hok Hmin fuel (left reader) (ChunkReader_new cdc reader) [])
    as (r & -> & Hq); [by apply new_ok|done|].
  exists r. split; [done|]. destruct r as [cs|e]; [|done].
  destruct Hq as (cs' & -> & Hc). destruct (chunks_cuts cdc Hok Hmin (left reader)) as (bs & Hb & _ & Hc').
  exists bs. split; [done|]. cbn. by eapply cuts_fun.
Qed.

(** [custom] accepts a minimum of 0, and then the chunks of a non-empty slice never
    end: with an average of 1 every mask is 0, so the first chunk is empty and the
    iterator gives it forever. *)
Theorem custom_zero_min_stuck (b : byte) (data : bytes) (fuel : nat) :
  ∃ cdc, custom 0 1 2 = Some cdc ∧
    next cdc (b :: data) 0 = Some ({| cbd_offset := 0; cbd_length := 0 |}, 0) ∧
    loop fuel (iter_step cdc (b :: data)) (0, []) = None.
Proof.
  eexists. split; [reflexivity|].
  assert (∀ cdc, custom 0 1 2 = Some cdc →
    next cdc (b :: data) 0 = Some ({| cbd_offset := 0; cbd_length := 0 |}, 0)) as Hn.
  { intros cdc [= <-]. unfold next, cut. cbn. by rewrite N.land_0_r. }
  split; [by apply Hn|]. generalize (@nil ChunkBoundary) as out.
  induction fuel as [|fuel IH]; intros out; [done|]. cbn [loop]. unfold iter_step at 1. cbn [fst snd].
  rewrite Hn by reflexivity. apply IH.
Qed.

(** ** Examples *)

(** A reader over bytes that gives at most two of them at a time. *)
#[local] Instance slow_read : Read bytes unit := λ bs n, (Ok (take (Nat.min n 2) bs), drop (Nat.min n 2) bs).

#[local] Instance slow_stream : ReadsStream (R := bytes) id.
Proof.
  intros bs n. cbn. split_and!; [by rewrite take_drop|rewrite length_take; lia|].
  destruct bs, n; cbn; auto. by destruct n.
Qed.

Definition ex_cdc : FastCdc :=
  {| min_size := 2; avg_size := 4; max_size := 8; mask_s := 7; mask_l := 1 |}.

Lemma chunks_spec_witness :
  ∃ bs, chunks v1 (b# "abc") = Some bs ∧ contiguous 0 bs ∧
    concat (piece (b# "abc") <$> bs) = b# "abc" ∧ sizes_ok v1 (piece (b# "abc") <$> bs).
Proof. apply (chunks_spec v1 (b# "abc")); [apply cdc_ok_v1|unfold v1, MIN_SIZE; cbn [min_size]; lia]. Defined.

Lemma stream_chunks_spec_witness :
  custom 2 4 8 = Some ex_cdc ∧
  ∃ r, read_chunks ex_cdc 20 (b# "chunked content") = Some r ∧
    match r with
    | Ok cs => ∃ bs, chunks ex_cdc (b# "chunked content") = Some bs ∧
        cs = piece (b# "chunked content") <$> bs
    | Err e => ∃ (r : bytes) n, (read_some r n).1 = Err e
    end.
Proof.
  split; [reflexivity|].
  apply (stream_chunks_spec (R := bytes) id ex_cdc (b# "chunked content") 20);
    [unfold cdc_ok; cbn; lia|cbn; lia|cbn; lia].
Defined.
