(* ===== verification/Replay.v ===== *)
(** * Cherry-pick and revert

    Models [rust/crates/mkit-core/src/ops/cherry_pick.rs] and [ops/revert.rs]: both
    replay the change of one commit as a three-way merge of trees. *)

From S2P Require Import Prelude Hash Object Serialize ObjectId Store StoreFacts GraphFacts Content ContentFacts Utf8 MergeTrees MergeTreesFacts.

Inductive CherryPickError :=
  | CpNotACommit
  | CpParentNotACommit
  | MergeNeedsMainline
  | MainlineForNonMerge
  | BadMainline (given parents : nat)
  | CpStore (e : StoreError).

Record CherryPickResult := {
  cp_tree_hash : hash32;
  cp_conflicts : list Conflict;
  cp_original_message : bytes
}.

Inductive RevertError :=
  | RvNotACommit
  | RvParentNotACommit
  | IsMergeCommit (parents : nat)
  | RvStore (e : StoreError).

Record RevertResult := {
  rv_tree_hash : hash32;
  rv_conflicts : list Conflict;
  rv_message : bytes
}.

(** The parent that the change is taken against. *)
Definition base_parent (parents : list hash32) (mainline : option nat)
    : result CherryPickError (option hash32) :=
  match length parents, mainline with
  | 0, None => Ok None
  | 0, Some _ | 1, Some _ => Err MainlineForNonMerge
  | 1, None => Ok (head parents)
  | _, None => Err MergeNeedsMainline
  | n, Some m =>
      if (1 <=? m) && (m <=? n) then Ok (parents !! (m - 1)) else Err (BadMainline m n)
  end.

(** [text.lines().next().unwrap_or("")]: to the first newline, a carriage return before
    it not included. *)
Fixpoint first_line (text : bytes) : bytes :=
  match text with
  | [] => []
  | b :: text =>
      if bool_decide (b = n2b 10) then []
      else if bool_decide (b = n2b 13) && starts_with [n2b 10] text then []
      else b :: first_line text
  end.

Definition revert_message (original_message : bytes) (target : hash32) : bytes :=
  let subject := first_line (from_utf8_lossy original_message) in
  b# "Revert " ++ [n2b 34] ++ subject ++ [n2b 34; n2b 10; n2b 10] ++
  b# "This reverts commit " ++ to_hex target ++ b# "." ++ [n2b 10].

Section replay.
Context `{B : Blake3} {S : Type} `{!ObjectSource S, !ObjectSink S}.

(** [let Object::Commit(c) = store.read_object(&h)? else { return Err(other) }]. *)
Definition read_commit_or {E} (inj : StoreError → E) (other : E) (h : hash32) : ME E S Commit :=
  λ s,
    match src_read_object h s with
    | (Ok (OCommit c), s) => (Ok c, s)
    | (Ok _, s) => (Err other, s)
    | (Err e, s) => (Err (inj e), s)
    end.

(** [?] with the error of the store wrapped. *)
Definition me_store {E A} (inj : StoreError → E) (m : M S A) : ME E S A := λ s,
  let '(r, s) := m s in
  (match r with Ok a => Ok a | Err e => Err (inj e) end, s).

(** The tree of the parent; [None] for a root commit. *)
Definition parent_tree {E} (inj : StoreError → E) (other : E) (parent : option hash32)
    : ME E S (option hash32) :=
  match parent with
  | None => me_lift (Ok None)
  | Some h => me_bind (read_commit_or inj other h) (λ c, me_lift (Ok (Some (c_tree_hash c))))
  end.

Definition cherry_pick (target_hash ours_tree : hash32) (mainline : option nat)
    : ME CherryPickError S CherryPickResult :=
  me_bind (read_commit_or CpStore CpNotACommit target_hash) (λ target,
  me_bind (me_lift (base_parent (c_parents target) mainline)) (λ parent,
  me_bind (parent_tree CpStore CpParentNotACommit parent) (λ tree,
  me_bind (me_store CpStore
    (merge_trees tree (Some ours_tree) (Some (c_tree_hash target)))) (λ r,
  me_lift (Ok {| cp_tree_hash := mr_tree_hash r; cp_conflicts := mr_conflicts r;
                 cp_original_message := c_message target |}))))).

Definition revert (target_hash ours_tree : hash32) : ME RevertError S RevertResult :=
  me_bind (read_commit_or RvStore RvNotACommit target_hash) (λ target,
  me_bind (me_lift (if 1 <? length (c_parents target)
                    then Err (IsMergeCommit (length (c_parents target))) else Ok tt)) (λ _,
  me_bind (parent_tree RvStore RvParentNotACommit (head (c_parents target))) (λ tree,
  me_bind (me_store RvStore
    (merge_trees (Some (c_tree_hash target)) (Some ours_tree) tree)) (λ r,
  me_lift (Ok {| rv_tree_hash := mr_tree_hash r; rv_conflicts := mr_conflicts r;
                 rv_message := revert_message (c_message target) target_hash |}))))).
End replay.

(** ** What a replay gives *)

Section facts.
Context `{B : Blake3} {S : Type} `{!ObjectSource S, !ObjectSink S} (I : S → Prop)
  (view : S → hash32 → result StoreError bytes) `{V : !StoreView I view}.

(** The commit of an id and the tree of a parent, in a view. *)
Definition commit_at (v : hash32 → result StoreError bytes) (h : hash32) (c : Commit) : Prop :=
  view_object v h = Ok (OCommit c).

Definition tree_of_parent (v : hash32 → result StoreError bytes) (parent tree : option hash32)
    : Prop :=
  match parent with
  | None => tree = None
  | Some h => ∃ c, commit_at v h c ∧ tree = Some (c_tree_hash c)
  end.

(** A computation that only reads: the state stays good and the view is the same. *)
Definition reads {E A} (m : ME E S A) (Q : (hash32 → result StoreError bytes) → A → Prop) : Prop :=
  ∀ s, I s → I (m s).2 ∧ view (m s).2 = view s ∧ ∀ a, (m s).1 = Ok a → Q (view s) a.

Lemma read_commit_reads {E} (inj : StoreError → E) other h :
  reads (read_commit_or inj other h) (λ v, commit_at v h).
Proof.
  intros s Hs. destruct (store_read s Hs) as [_ Hr]. unfold read_commit_or, commit_at.
  destruct (Hr h s (conj Hs eq_refl)) as [[HI Hv] Ho].
  destruct (src_read_object h s) as [[o|e] s']; cbn in *; [|done].
  destruct Ho as [<-|[? ?]]; [|done]. destruct o; cbn; (split_and!; [done..|]); naive_solver.
Qed.

Lemma parent_tree_reads {E} (inj : StoreError → E) other parent :
  reads (parent_tree inj other parent) (λ v, tree_of_parent v parent).
Proof.
  intros s Hs. destruct parent as [h|]; cbn; [|by split_and!; [..|intros ? [= <-]]].
  unfold me_bind. destruct (read_commit_reads inj other h s Hs) as (HI & Hv & Hc).
  destruct (read_commit_or inj other h s) as [[c|e] s']; cbn in *; [|done].
  split_and!; [done..|]. intros a [= <-]. eauto.
Qed.

(** Reading first, then going on from a good state with the view unchanged; [R] may
    speak of the view at the end. *)
Lemma after_reads {E A C} (m : ME E S A) Q (f : A → ME E S C)
    (R : C → (hash32 → result StoreError bytes) → Prop) s :
  reads m Q → I s →
  (∀ a s', Q (view s) a → I s' → view s' = view s →
     I (f a s').2 ∧ ∀ c, (f a s').1 = Ok c → R c (view (f a s').2)) →
  I (me_bind m f s).2 ∧ ∀ c, (me_bind m f s).1 = Ok c → R c (view (me_bind m f s).2).
Proof.
  intros Hm Hs Hf. unfold me_bind. destruct (Hm s Hs) as (HI & Hv & Hq).
  destruct (m s) as [[a|e] s']; cbn in *; [|done]. by apply Hf; [apply Hq|..].
Qed.

Lemma lift_reads {E A} (r : result E A) : reads (me_lift r) (λ _ a, r = Ok a).
Proof. intros s Hs. by split_and!. Qed.

Lemma after_merge {E C} (inj : StoreError → E) b o t (g : MergeResult → C) s :
  I s →
  let m := me_bind (me_store inj (merge_trees b o t)) (λ r, me_lift (Ok (g r))) s in
  I m.2 ∧ ∀ c, m.1 = Ok c → ∃ r, c = g r ∧ merge_result_post (view s) (view m.2) b o t r.
Proof.
  intros Hs. cbv zeta. unfold me_bind, me_store, me_lift.
  destruct (merge_trees_ok I view b o t s Hs) as (HI & _ & Hr).
  destruct (merge_trees b o t s) as [[r|e] s']; cbn in *; [|done].
  split; [done|]. intros c [= <-]. eauto.
Qed.

(** What a pick and a revert promise of a result, with the views before and after. *)
Definition cherry_pick_post (target ours : hash32) (mainline : option nat)
    (v : hash32 → result StoreError bytes) (r : CherryPickResult)
    (v' : hash32 → result StoreError bytes) : Prop :=
  ∃ c parent tree m, commit_at v target c ∧
    base_parent (c_parents c) mainline = Ok parent ∧ tree_of_parent v parent tree ∧
    cp_tree_hash r = mr_tree_hash m ∧ cp_conflicts r = mr_conflicts m ∧
    cp_original_message r = c_message c ∧
    merge_result_post v v' tree (Some ours) (Some (c_tree_hash c)) m.

Definition revert_post (target ours : hash32) (v : hash32 → result StoreError bytes)
    (r : RevertResult) (v' : hash32 → result StoreError bytes) : Prop :=
  ∃ c tree m, commit_at v target c ∧ length (c_parents c) ≤ 1 ∧
    tree_of_parent v (head (c_parents c)) tree ∧
    rv_tree_hash r = mr_tree_hash m ∧ rv_conflicts r = mr_conflicts m ∧
    rv_message r = revert_message (c_message c) target ∧
    merge_result_post v v' (Some (c_tree_hash c)) (Some ours) tree m.

Lemma cherry_pick_ok target ours mainline s :
  I s →
  I (cherry_pick target ours mainline s).2 ∧
  ∀ r, (cherry_pick target ours mainline s).1 = Ok r →
    cherry_pick_post target ours mainline (view s) r (view (cherry_pick target ours mainline s).2).
Proof.
  intros Hs. set (R := cherry_pick_post target ours mainline (view s)).
  apply (after_reads _ _ _ R _ (read_commit_reads _ _ _) Hs). intros c s1 Hc I1 V1.
  apply (after_reads _ _ _ R _ (lift_reads _) I1). intros parent s2 Hp I2 V2.
  apply (after_reads _ _ _ R _ (parent_tree_reads _ _ _) I2). intros tree s3 Ht I3 V3.
  destruct (after_merge CpStore tree (Some ours) (Some (c_tree_hash c))
    (λ r, {| cp_tree_hash := mr_tree_hash r; cp_conflicts := mr_conflicts r;
             cp_original_message := c_message c |}) s3 I3) as [HI Hr].
  split; [exact HI|]. intros r Hr'. apply Hr in Hr' as (m & -> & Hm).
  rewrite V2, V1 in Ht. rewrite V3, V2, V1 in Hm. exists c, parent, tree, m. done.
Qed.

Lemma revert_ok target ours s :
  I s →
  I (revert target ours s).2 ∧
  ∀ r, (revert target ours s).1 = Ok r →
    revert_post target ours (view s) r (view (revert target ours s).2).
Proof.
  intros Hs. set (R := revert_post target ours (view s)).
  apply (after_reads _ _ _ R _ (read_commit_reads _ _ _) Hs). intros c s1 Hc I1 V1.
  apply (after_reads _ _ _ R _ (lift_reads _) I1). intros [] s2 Hp I2 V2.
  apply (after_reads _ _ _ R _ (parent_tree_reads _ _ _) I2). intros tree s3 Ht I3 V3.
  destruct (after_merge RvStore (Some (c_tree_hash c)) (Some ours) tree
    (λ r, {| rv_tree_hash := mr_tree_hash r; rv_conflicts := mr_conflicts r;
             rv_message := revert_message (c_message c) target |}) s3 I3) as [HI Hr].
  split; [exact HI|]. intros r Hr'. apply Hr in Hr' as (m & -> & Hm).
  rewrite V2, V1 in Ht. rewrite V3, V2, V1 in Hm. exists c, tree, m.
  destruct (Nat.ltb_spec 1 (length (c_parents c))); [done|]. done.
Qed.

(** The result is the tree of [side]: no conflict, and the same entries at every depth,
    with the same ids or, for files, the same contents. [v] is what could be read
    before, [v'] after. *)
Definition gives_tree (v v' : hash32 → result StoreError bytes) (tree_hash : hash32)
    (conflicts : list Conflict) (side : option hash32) : Prop :=
  conflicts = [] ∧ ∃ es bs ps,
    serialize (OTree {| tree_entries := es |}) = Ok bs ∧ tree_hash = object_id_from_bytes bs ∧
    loaded v side ps ∧ Forall2 (same_entry v v') es ps.

Lemma merge_gives v v' b o t p m :
  merge_result_post v v' b o t m → picks b o t p →
  gives_tree v v' (mr_tree_hash m) (mr_conflicts m) p.
Proof.
  intros (? & ? & ? & es & bs & _ & _ & _ & Hs & Hh & _ & _ & _ & _ & Hp) Hpick.
  destruct (Hp p Hpick) as (Hc & ps & Hl & Hsh). split.
  - unfold has_conflicts in Hc. by destruct (mr_conflicts m).
  - by exists es, bs, ps.
Qed.

(** C19: Picking a commit onto the tree of the parent it is taken against gives the tree
    of the commit, and reverting it from its own tree gives the tree of its parent,
    the empty tree for a root commit: no conflict, and the entries of that tree at
    every depth, each with its name, its mode, and its id or the same content. So a
    pick brings the changes of the commit and a revert undoes them. The message of a
    pick is the message of the commit. Over any store that a merge may use. *)
Theorem replay_inverse (target ours : hash32) (c : Commit) (mainline : option nat)
    (parent tree : option hash32) (s : S)
    (Hs : I s) (Hc : commit_at (view s) target c)
    (Hp : base_parent (c_parents c) mainline = Ok parent)
    (Ht : tree_of_parent (view s) parent tree) :
  (tree = Some ours →
     let out := cherry_pick target ours mainline s in
     ∀ r, out.1 = Ok r →
       cp_original_message r = c_message c ∧
       gives_tree (view s) (view out.2) (cp_tree_hash r) (cp_conflicts r) (Some (c_tree_hash c))) ∧
  (mainline = None →
     let out := revert target (c_tree_hash c) s in
     ∀ r, out.1 = Ok r →
       rv_message r = revert_message (c_message c) target ∧
       gives_tree (view s) (view out.2) (rv_tree_hash r) (rv_conflicts r) tree).
Proof.
  assert (∀ p t t', tree_of_parent (view s) p t → tree_of_parent (view s) p t' → t = t') as Hfun.
  { intros [h|] t t'; cbn; [|congruence]. unfold commit_at.
    intros (c1 & H1 & ->) (c2 & H2 & ->). congruence. }
  assert (∀ c', commit_at (view s) target c' → c' = c) as Hcfun
    by (unfold commit_at in *; intros; congruence).
  split.
  - intros -> out r Hr. apply (cherry_pick_ok target ours mainline s Hs)
      in Hr as (c' & p' & t' & m & ->%Hcfun & Hp' & Ht' & -> & -> & -> & Hm).
    split; [done|]. assert (p' = parent) as -> by congruence.
    rewrite <- (Hfun _ _ _ Ht Ht') in Hm. eapply merge_gives; [exact Hm|]. by right; right.
  - intros -> out r Hr. apply (revert_ok target (c_tree_hash c) s Hs)
      in Hr as (c' & t' & m & ->%Hcfun & Hlen & Ht' & -> & -> & -> & Hm).
    split; [done|]. assert (parent = head (c_parents c)) as ->.
    { unfold base_parent in Hp. destruct (c_parents c) as [|x [|y l]]; cbn in *; [congruence..|lia]. }
    rewrite <- (Hfun _ _ _ Ht Ht') in Hm. eapply merge_gives; [exact Hm|]. by right; right.
Qed.

(** Which commits are refused, and as what: [base_parent] takes the sole parent of a
    commit without [-m], the numbered parent of a merge with it, and nothing else. *)
Theorem base_parent_spec (parents : list hash32) (mainline : option nat) :
  base_parent parents mainline =
    match mainline, parents with
    | None, [] => Ok None
    | None, [p] => Ok (Some p)
    | None, _ :: _ :: _ => Err MergeNeedsMainline
    | Some _, [] | Some _, [_] => Err MainlineForNonMerge
    | Some m, _ :: _ :: _ =>
        match m with
        | O => Err (BadMainline 0 (length parents))
        | Datatypes.S i => match parents !! i with
                 | Some p => Ok (Some p)
                 | None => Err (BadMainline m (length parents))
                 end
        end
    end.
Proof.
  destruct parents as [|p [|q l]]; [by destruct mainline..|]. destruct mainline as [m|]; [|done].
  unfold base_parent. cbn [length]. destruct m as [|i]; [done|]. cbn [Nat.leb andb].
  replace (Datatypes.S i - 1) with i by lia.
  destruct (Nat.leb_spec i (Datatypes.S (length l))).
  - destruct (lookup_lt_is_Some_2 (p :: q :: l) i) as [x Hx]; [cbn; lia|]. by rewrite Hx.
  - rewrite lookup_ge_None_2 by (cbn; lia). done.
Qed.
End facts.

(** ** An example history *)

Import Toy.

#[local] Instance ex_sink : ObjectSink ObjectStore := ObjectStore_sink None.

(** A root commit of the base tree, and a commit that changes a file. *)
Definition ex_root : Commit := ex_commit ex_base [] (b# "one").
Definition ex_stored_root : hash32 * ObjectStore := store_object (OCommit ex_root) ex_trees_store.
Definition ex_pick : Commit := ex_commit ex_changed [ex_stored_root.1] (b# "two").
Definition ex_stored_pick : hash32 * ObjectStore := store_object (OCommit ex_pick) ex_stored_root.2.

(** The commit changes the content of a file: picking it onto its parent's tree gives
    its tree and not the parent's, and reverting it the parent's and not its own. *)
Lemma replay_inverse_witness :
  let st := ex_stored_pick.2 in
  let target := ex_stored_pick.1 in
  let picked := cherry_pick target ex_base None st in
  let reverted := revert target ex_changed st in
  (cp_tree_hash <$> to_option picked.1) = Some ex_changed ∧
  (rv_tree_hash <$> to_option reverted.1) = Some ex_base ∧ ex_base ≠ ex_changed ∧
  (Some ex_base = Some ex_base → ∀ r, picked.1 = Ok r →
     cp_original_message r = c_message ex_pick ∧
     gives_tree (read st) (read picked.2) (cp_tree_hash r) (cp_conflicts r)
       (Some (c_tree_hash ex_pick))) ∧
  (None = @None nat → ∀ r, reverted.1 = Ok r →
     rv_message r = revert_message (c_message ex_pick) target ∧
     gives_tree (read st) (read reverted.2) (rv_tree_hash r) (rv_conflicts r) (Some ex_base)).
Proof.
  cbv zeta. split; [vm_compute; exact eq_refl|]. split; [vm_compute; exact eq_refl|].
  split; [vm_compute; discriminate|].
  apply (replay_inverse (λ _ : ObjectStore, True) read (V := ObjectStore_store_view None)
    ex_stored_pick.1 ex_base ex_pick None (Some ex_stored_root.1) (Some ex_base) ex_stored_pick.2).
  - exact Logic.I.
  - unfold commit_at. vm_compute. exact eq_refl.
  - exact eq_refl.
  - exists ex_root. split; [unfold commit_at; vm_compute; exact eq_refl|exact eq_refl].
Defined.
