(* ===== verification/TreeDiff.v ===== *)
(** * The structural diff of trees

    Models the tree half of [rust/crates/mkit-core/src/ops/diff.rs]: the lockstep walk
    that lists the changed leaves, and the pairing of removed and added content into
    renames. [levels] counts the levels that [MAX_TREE_DEPTH] still allows. *)

From S2P Require Import Prelude Hash Object Serialize ObjectId Store Content MergeTrees.

Inductive DiffKind := Added | Removed | Modified | ModeChanged | Renamed.

Record DiffEntry := {
  de_path : bytes;
  de_kind : DiffKind;
  de_old_hash : option hash32;
  de_new_hash : option hash32;
  de_old_mode : option EntryMode.t;
  de_new_mode : option EntryMode.t;
  de_old_path : option bytes
}.

Record DiffResult := { dr_entries : list DiffEntry }.

Definition is_empty (r : DiffResult) : bool := match dr_entries r with [] => true | _ => false end.
Definition len (r : DiffResult) : nat := length (dr_entries r).

Definition added_entry (path : bytes) (mode : EntryMode.t) (h : hash32) : DiffEntry :=
  {| de_path := path; de_kind := Added; de_old_hash := None; de_new_hash := Some h;
     de_old_mode := None; de_new_mode := Some mode; de_old_path := None |}.

Definition removed_entry (path : bytes) (mode : EntryMode.t) (h : hash32) : DiffEntry :=
  {| de_path := path; de_kind := Removed; de_old_hash := Some h; de_new_hash := None;
     de_old_mode := Some mode; de_new_mode := None; de_old_path := None |}.

(** A leaf on both sides. *)
Definition both_entry (path : bytes) (kind : DiffKind) (m : EntryMode.t) (h : hash32)
    (m' : EntryMode.t) (h' : hash32) : DiffEntry :=
  {| de_path := path; de_kind := kind; de_old_hash := Some h; de_new_hash := Some h';
     de_old_mode := Some m; de_new_mode := Some m'; de_old_path := None |}.

Definition regular_executable_pair (a b : EntryMode.t) : bool :=
  match a, b with
  | EntryMode.Blob, EntryMode.Executable | EntryMode.Executable, EntryMode.Blob => true
  | _, _ => false
  end.

(** [out.sort_by(|a, b| a.path.cmp(&b.path))]. *)
Definition path_leb (a b : DiffEntry) : bool := bytes_leb (de_path a) (de_path b).
Definition sort_by_path : list DiffEntry → list DiffEntry := stable_sort path_leb.

Section diff.
Context `{B : Blake3} {S : Type} `{!ObjectSource S}.

Definition load_tree (h : hash32) : M S (list TreeEntry) :=
  do! o ← src_read_object h;
  m_lift match o with
         | OTree t => Ok (tree_entries t)
         | other => Err (Decode (InvalidObjectType (ObjectType.to_u8 (object_type other))))
         end.

Definition load_side (h : option hash32) : M S (list TreeEntry) :=
  match h with Some h => load_tree h | None => m_ret [] end.

(** [for x in l { f(x, &mut out)?; }]. *)
Fixpoint m_each {A} (f : A → list DiffEntry → M S (list DiffEntry)) (l : list A)
    (out : list DiffEntry) : M S (list DiffEntry) :=
  match l with
  | [] => m_ret out
  | x :: l => do! out ← f x out; m_each f l out
  end.

(** [add_removed_entries] and [add_added_entries], which differ in the entry they push
    for a leaf. *)
Fixpoint add_entries (leaf : bytes → EntryMode.t → hash32 → DiffEntry) (levels : nat)
    (prefix : bytes) (entry : TreeEntry) (out : list DiffEntry) : M S (list DiffEntry) :=
  match levels with
  | O => m_lift (Err TreeTooDeep)
  | Datatypes.S levels =>
      if is_tree entry then
        let sub_prefix := join_path prefix (te_name entry) in
        do! sub ← load_tree (te_hash entry);
        m_each (add_entries leaf levels sub_prefix) sub out
      else
        m_ret (out ++ [leaf (join_path prefix (te_name entry)) (te_mode entry) (te_hash entry)])
  end.

Definition add_removed_entries := add_entries removed_entry.
Definition add_added_entries := add_entries added_entry.

(** One level of the walk: [sub] compares the entries of two subtrees under a longer
    prefix, one level down; [levels] are the levels of this one. *)
Section level.
Context (sub : list TreeEntry → list TreeEntry → bytes → list DiffEntry → M S (list DiffEntry)).
Context (ignore_regular_executable_mode : bool) (levels : nat) (prefix : bytes).

(** The arm of two entries with the same name. *)
Definition diff_pair (o n : TreeEntry) (out : list DiffEntry) : M S (list DiffEntry) :=
  let path := join_path prefix (te_name o) in
  let push kind :=
    m_ret (out ++ [both_entry path kind (te_mode o) (te_hash o) (te_mode n) (te_hash n)]) in
  if is_tree o && is_tree n then
    if bool_decide (te_hash o = te_hash n) then m_ret out
    else
      do! old_sub ← load_tree (te_hash o);
      do! new_sub ← load_tree (te_hash n);
      sub old_sub new_sub path out
  else if is_tree o || is_tree n then
    do! out ← add_removed_entries levels prefix o out;
    add_added_entries levels prefix n out
  else
    do! eq ← content_eq (te_hash o) (te_hash n);
    if eq then
      if bool_decide (te_mode o = te_mode n) then m_ret out
      else if negb ignore_regular_executable_mode
              || negb (regular_executable_pair (te_mode o) (te_mode n)) then push ModeChanged
      else m_ret out
    else if negb (bool_decide (te_hash o = te_hash n)) || negb (bool_decide (te_mode o = te_mode n))
    then push Modified
    else m_ret out.

(** The three [while] loops; every round of the first takes an entry off a list. *)
Fixpoint diff_walk (fuel : nat) (old new : list TreeEntry) (out : list DiffEntry)
    : M S (list DiffEntry) :=
  match fuel, old, new with
  | Datatypes.S fuel, o :: old', n :: new' =>
      match bytes_cmp (te_name o) (te_name n) with
      | Lt => do! out ← add_removed_entries levels prefix o out; diff_walk fuel old' new out
      | Gt => do! out ← add_added_entries levels prefix n out; diff_walk fuel old new' out
      | Eq => do! out ← diff_pair o n out; diff_walk fuel old' new' out
      end
  | _, _, _ =>
      do! out ← m_each (add_removed_entries levels prefix) old out;
      m_each (add_added_entries levels prefix) new out
  end.
End level.

Fixpoint diff_entries_recursive (ignore : bool) (levels : nat) (old new : list TreeEntry)
    (prefix : bytes) (out : list DiffEntry) : M S (list DiffEntry) :=
  match levels with
  | O => m_lift (Err TreeTooDeep)
  | Datatypes.S levels' =>
      diff_walk (diff_entries_recursive ignore levels') ignore levels prefix
        (length old + length new) old new out
  end.

Definition diff_trees_inner (old_hash new_hash : option hash32)
    (ignore_regular_executable_mode : bool) : M S DiffResult :=
  match old_hash, new_hash with
  | None, None => m_ret {| dr_entries := [] |}
  | _, _ =>
      if bool_decide (old_hash = new_hash) then m_ret {| dr_entries := [] |}
      else
        do! old_entries ← load_side old_hash;
        do! new_entries ← load_side new_hash;
        do! out ← diff_entries_recursive ignore_regular_executable_mode ALL_LEVELS
                    old_entries new_entries [] [];
        m_ret {| dr_entries := sort_by_path out |}
  end.

Definition diff_trees (old_hash new_hash : option hash32) : M S DiffResult :=
  diff_trees_inner old_hash new_hash false.
End diff.

(** ** Renames *)

(** An index of [entries], with the entry it stands for. *)
Abbreviation indexed := (nat * DiffEntry)%type.
Definition index (entries : list DiffEntry) : list indexed := zip (seq 0 (length entries)) entries.

Section pair.
Context {K : Type} `{!EqDecision K} (key : hash32 → K).

(** The key under which the entry is in [removed], and in [added]. *)
Definition removed_key (e : DiffEntry) : option K :=
  match de_kind e with Removed => key <$> de_old_hash e | _ => None end.
Definition added_key (e : DiffEntry) : option K :=
  match de_kind e with Added => key <$> de_new_hash e | _ => None end.

(** The indices that a map holds under a key, in sorted-path order. *)
Definition under (f : DiffEntry → option K) (k : K) (l : list indexed) : list indexed :=
  filter (λ x, f x.2 = Some k) l.
Definition sort_indices : list indexed → list indexed :=
  stable_sort (λ x y, bytes_leb (de_path x.2) (de_path y.2)).

Definition rename_of (p : DiffEntry * DiffEntry) : DiffEntry :=
  let '(r, a) := p in
  {| de_path := de_path a; de_kind := Renamed; de_old_hash := de_old_hash r;
     de_new_hash := de_new_hash a; de_old_mode := de_old_mode r; de_new_mode := de_new_mode a;
     de_old_path := Some (de_path r) |}.

(** [order] is the order in which the hash map [removed] gives its keys. *)
Context (order : list K → list K).

Definition pairs_of (l : list indexed) (k : K) : list (indexed * indexed) :=
  zip (sort_indices (under removed_key k l)) (sort_indices (under added_key k l)).

Definition pair_up (l : list indexed) : list (indexed * indexed) :=
  concat (pairs_of l <$> order (remove_dups (omap (λ x, removed_key x.2) l))).

Definition consumed (pairs : list (indexed * indexed)) : list indexed := pairs.*1 ++ pairs.*2.

Definition pair_renames (entries : list DiffEntry) : list DiffEntry :=
  let l := index entries in
  match pair_up l with
  | [] => entries
  | pairs =>
      sort_by_path
        ((filter (λ x, x.1 ∉ (consumed pairs).*1) l).*2 ++
         ((λ p, rename_of (p.1.2, p.2.2)) <$> pairs))
  end.
End pair.

Section detect.
Context `{B : Blake3} {S : Type} `{!ObjectSource S}.

Definition content_hash (e : DiffEntry) : option hash32 :=
  match de_kind e with Removed => de_old_hash e | Added => de_new_hash e | _ => None end.

(** The loop that fills [memo]. *)
Fixpoint fingerprints (entries : list DiffEntry) (memo : gmap hash32 (N * hash32))
    : M S (gmap hash32 (N * hash32)) :=
  match entries with
  | [] => m_ret memo
  | e :: entries =>
      match content_hash e with
      | Some h =>
          if bool_decide (is_Some (memo !! h)) then fingerprints entries memo
          else do! f ← content_fingerprint h; fingerprints entries (<[h := f]> memo)
      | None => fingerprints entries memo
      end
  end.

(** The loop that verifies the renames. *)
Fixpoint verify_renames (candidate : list DiffEntry) : M S unit :=
  match candidate with
  | [] => m_ret tt
  | e :: candidate =>
      match de_kind e, de_old_hash e, de_new_hash e with
      | Renamed, Some a, Some b =>
          do! eq ← content_eq a b;
          if eq then verify_renames candidate
          else m_lift (Err (Io (OtherError (b# "content fingerprint collision"))))
      | _, _, _ => verify_renames candidate
      end
  end.

(** [memo[&h]] is there for every key that [pair_renames] asks for. *)
Definition detect_content_renames
    (order : list (option (N * hash32)) → list (option (N * hash32)))
    (entries : list DiffEntry) : M S (list DiffEntry) :=
  do! memo ← fingerprints entries ∅;
  let candidate := pair_renames (λ h, memo !! h) order entries in
  do! _ ← verify_renames candidate;
  m_ret candidate.
End detect.
