(* ===== verification/TreeDiffFacts.v ===== *)
(** * The tree diff lists exactly the changed leaves

    A tree is the set of its leaves, by the names on the way to them. The diff lists
    every path whose leaf differs between the two trees, once, sorted; what it says
    of a leaf on both sides is what the content comparison of the source says. *)

From S2P Require Import Prelude Hash Object Serialize SerializeFacts ObjectId Store StoreFacts Content ContentFacts MergeTrees MergeTreesFacts TreeDiff.

(** ** Leaves *)

Section leaves.
Context `{B : Blake3} (v : hash32 → result StoreError bytes).

(** Below an entry, at a path of names, is a leaf with a mode and an id. *)
Inductive leaf : TreeEntry → list bytes → EntryMode.t → hash32 → Prop :=
  | leaf_file e : is_tree e = false → leaf e [] (te_mode e) (te_hash e)
  | leaf_dir e es e' p m k :
      is_tree e = true → view_object v (te_hash e) = Ok (OTree {| tree_entries := es |}) →
      e' ∈ es → leaf e' p m k → leaf e (te_name e' :: p) m k.

(** The same, below the entries of a tree, and below a tree. *)
Definition leaf_of (es : list TreeEntry) (p : list bytes) (m : EntryMode.t) (k : hash32) : Prop :=
  ∃ e p', e ∈ es ∧ p = te_name e :: p' ∧ leaf e p' m k.

Definition leaf_of_tree (h : option hash32) (p : list bytes) (m : EntryMode.t) (k : hash32) : Prop :=
  ∃ es, loaded v h es ∧ leaf_of es p m k.

Lemma leaf_tree e es p m k :
  is_tree e = true → view_object v (te_hash e) = Ok (OTree {| tree_entries := es |}) →
  leaf e p m k ↔ leaf_of es p m k.
Proof.
  intros Ht Hv. split.
  - intros H. inv H as [|? es' e' p' ? ? _ Hv' Hin Hl]; [congruence|].
    assert (es' = es) as -> by congruence. by exists e', p'.
  - intros (e' & p' & Hin & -> & Hl). by eapply leaf_dir.
Qed.

Lemma leaf_not_tree e p m k :
  is_tree e = false → leaf e p m k ↔ p = [] ∧ m = te_mode e ∧ k = te_hash e.
Proof.
  intros Ht. split.
  - intros H. inv H; [done|congruence].
  - intros (-> & -> & ->). by constructor.
Qed.

Lemma leaf_nil_tree e m k : is_tree e = true → ¬ leaf e [] m k.
Proof. intros Ht H. inv H. congruence. Qed.

(** Names are unique, so a path leads to one leaf. *)
Lemma names_unique es e e' :
  good_entries es → e ∈ es → e' ∈ es → te_name e = te_name e' → e = e'.
Proof.
  intros [_ H]%andb_true_iff. apply sorted_names_NoDup in H. cbn in H.
  induction es as [|x es IH]; [by intros ?%elem_of_nil|]. rewrite fmap_cons in H. inv H as [|? ? Hx Hn].
  assert (∀ y, y ∈ es → te_name y ∈ te_name <$> es) as Hf by (intros; by apply list_elem_of_fmap_2).
  intros [->|H1]%elem_of_cons [->|H2]%elem_of_cons E; [done|..|by apply IH].
  - destruct Hx. rewrite E. auto.
  - destruct Hx. rewrite <- E. auto.
Qed.

Lemma leaf_fun e p m k : leaf e p m k → ∀ m' k', leaf e p m' k' → m = m' ∧ k = k'.
Proof.
  induction 1 as [e He|e es e' p m k He Hv Hin Hl IH]; intros m' k' H'.
  - apply leaf_not_tree in H' as (_ & -> & ->); done.
  - rewrite leaf_tree in H' by done. destruct H' as (e2 & p2 & Hin2 & [= Hn ->] & Hl2).
    apply view_object_good in Hv. rewrite (names_unique es e' e2) in IH by done. by apply IH.
Qed.

Lemma leaf_of_fun es p m k m' k' :
  good_entries es → leaf_of es p m k → leaf_of es p m' k' → m = m' ∧ k = k'.
Proof.
  intros Hg (e & q & Hin & -> & Hl) (e' & q' & Hin' & [= Hn ->] & Hl').
  rewrite (names_unique es e e') in Hl by done. by eapply leaf_fun.
Qed.

(** ** Changes *)

(** What the comparison of contents says, and whether mode changes between regular and
    executable files are left out. *)
Context (same : hash32 → hash32 → bool) (ignore : bool).

(** A leaf that is there on one side only, or on both with a difference. *)
Inductive changed (A N : EntryMode.t → hash32 → Prop) (path : bytes) : DiffEntry → Prop :=
  | changed_removed m k : A m k → (∀ m' k', ¬ N m' k') → changed A N path (removed_entry path m k)
  | changed_added m k : N m k → (∀ m' k', ¬ A m' k') → changed A N path (added_entry path m k)
  | changed_mode m k m' k' :
      A m k → N m' k' → same k k' = true → m ≠ m' →
      ignore && regular_executable_pair m m' = false →
      changed A N path (both_entry path ModeChanged m k m' k')
  | changed_content m k m' k' :
      A m k → N m' k' → same k k' = false → changed A N path (both_entry path Modified m k m' k').

Lemma changed_iff A N A' N' path d :
  (∀ m k, A m k ↔ A' m k) → (∀ m k, N m k ↔ N' m k) → changed A N path d ↔ changed A' N' path d.
Proof.
  intros HA HN. split; intros H; inv H; econstructor; naive_solver.
Qed.

(** The path as it is printed. *)
Definition render (prefix : bytes) (p : list bytes) : bytes := foldl join_path prefix p.

(** Two sides: the leaf at every path of names. *)
Abbreviation side := (list bytes → EntryMode.t → hash32 → Prop).

Definition no_leaf (A : EntryMode.t → hash32 → Prop) : Prop := ∀ m k, ¬ A m k.
Definition none : side := λ _ _ _, False.

(** [cs] are the changes between two sides, with the paths of names, below a prefix. *)
Definition diffs (A N : side) (prefix : bytes) (cs : list (list bytes * DiffEntry)) : Prop :=
  NoDup cs.*1 ∧ ∀ p d, (p, d) ∈ cs ↔ changed (A p) (N p) (render prefix p) d.

Lemma changed_some A N path d : changed A N path d → ¬ (no_leaf A ∧ no_leaf N).
Proof. intros H [HA HN]. inv H; first [eapply HA; eassumption | eapply HN; eassumption]. Qed.

Lemma diffs_nil (A N : side) prefix :
  (∀ p d, ¬ changed (A p) (N p) (render prefix p) d) → diffs A N prefix [].
Proof.
  intros H. split; [constructor|]. intros p d. split; [by intros ?%elem_of_nil|].
  by intros ?%H.
Qed.

Lemma diffs_iff (A N A' N' : side) prefix cs :
  (∀ p m k, A p m k ↔ A' p m k) → (∀ p m k, N p m k ↔ N' p m k) →
  diffs A N prefix cs → diffs A' N' prefix cs.
Proof.
  intros HA HN [Hd Hin]. split; [done|]. intros p d. rewrite Hin. by apply changed_iff.
Qed.

(** Two lists of changes at different paths. *)
Lemma diffs_app (A1 N1 A2 N2 A N : side) prefix cs1 cs2 :
  (∀ p m k, A p m k ↔ A1 p m k ∨ A2 p m k) → (∀ p m k, N p m k ↔ N1 p m k ∨ N2 p m k) →
  (∀ p, (no_leaf (A1 p) ∧ no_leaf (N1 p)) ∨ (no_leaf (A2 p) ∧ no_leaf (N2 p))) →
  diffs A1 N1 prefix cs1 → diffs A2 N2 prefix cs2 → diffs A N prefix (cs1 ++ cs2).
Proof.
  intros HA HN Hdis [D1 I1] [D2 I2].
  assert (∀ p d1 d2, (p, d1) ∈ cs1 → (p, d2) ∈ cs2 → False) as Hno.
  { intros p d1 d2 H1%I1%changed_some H2%I2%changed_some. by destruct (Hdis p). }
  split.
  - rewrite fmap_app. apply list.NoDup_app. split_and!; [done| |done].
    intros p ([? d1] & -> & H1)%list_elem_of_fmap ([p2 d2] & E & H2)%list_elem_of_fmap.
    cbn in *. subst p2. by eapply Hno.
  - intros p d. rewrite elem_of_app, I1, I2. destruct (Hdis p) as [[HA1 HN1]|[HA2 HN2]].
    + rewrite (changed_iff (A p) (N p) (A2 p) (N2 p));
        [|intros m k; rewrite HA; specialize (HA1 m k); tauto|intros m k; rewrite HN; specialize (HN1 m k); tauto].
      split; [|by right]. intros [H%changed_some|H]; [by destruct H|done].
    + rewrite (changed_iff (A p) (N p) (A1 p) (N1 p));
        [|intros m k; rewrite HA; specialize (HA2 m k); tauto|intros m k; rewrite HN; specialize (HN2 m k); tauto].
      split; [|by left]. intros [H|H%changed_some]; [done|by destruct H].
Qed.

(** ** Going into a directory *)

(** A side below a name. *)
Definition below (n : bytes) (A : side) : side := λ p m k, ∃ p', p = n :: p' ∧ A p' m k.

Definition shift (n : bytes) : list (list bytes * DiffEntry) → list (list bytes * DiffEntry) :=
  fmap (λ c, (n :: c.1, c.2)).

Lemma shift_entries n cs : (shift n cs).*2 = cs.*2.
Proof. unfold shift. by rewrite <- list_fmap_compose. Qed.

Lemma below_cons n A p m k : below n A (n :: p) m k ↔ A p m k.
Proof. unfold below. naive_solver. Qed.

Lemma diffs_below n A N prefix cs :
  diffs A N (join_path prefix n) cs → diffs (below n A) (below n N) prefix (shift n cs).
Proof.
  intros [Hd Hin]. split.
  - unfold shift. rewrite <- list_fmap_compose.
    change (NoDup ((cons n ∘ fst) <$> cs)). rewrite list_fmap_compose.
    apply NoDup_fmap_2; [|done]. by intros ? ? [= ->].
  - intros p d. split.
    + intros ([q d'] & [= -> ->] & Hq%Hin)%list_elem_of_fmap.
      eapply changed_iff; [| |exact Hq]; intros; apply below_cons.
    + intros H. destruct p as [|n' p].
      { exfalso. apply changed_some in H. apply H. by split; intros ? ? (? & ? & _). }
      destruct (decide (n' = n)) as [->|Hn].
      2:{ exfalso. apply changed_some in H. apply H. split; intros ? ? (? & [= ? _] & _); done. }
      apply list_elem_of_fmap. exists (p, d). split; [done|]. apply Hin.
      eapply changed_iff; [| |exact H]; intros; symmetry; apply below_cons.
Qed.

(** ** The walk *)

Section walk.
Context {S : Type} `{!ObjectSource S} (I : S → Prop) `{V : !SourceView S I v}.
Context (Hsame : ∀ a b s r, I s → (content_eq a b s).1 = Ok r → r = same a b).

Lemma same_refl s k : I s → same k k = true.
Proof.
  intros Hs. symmetry. apply (Hsame k k s); [done|]. unfold content_eq. by rewrite bool_decide_true.
Qed.

Lemma triple_load_tree h :
  triple I (load_tree h) (λ es, view_object v h = Ok (OTree {| tree_entries := es |})).
Proof.
  intros s Hs. unfold load_tree, m_bind. destruct (view_read_object h s Hs) as [HI Ho].
  destruct (src_read_object h s) as [[o|e] s']; cbn in *; [|done].
  split; [done|]. intros es. destruct Ho as [<-|[? ?]]; [|done].
  destruct o; try done. by intros [= <-]; destruct t.
Qed.

Lemma source_content_eq a b s : I s → I (content_eq a b s).2.
Proof. intros Hs. by destruct (content_eq_ok I v a b s Hs). Qed.

(** An entry's own side, and what a computation adds to the output. *)
Definition own (e : TreeEntry) : side := below (te_name e) (leaf e).

Definition adds (A N : side) (prefix : bytes) (out out' : list DiffEntry) : Prop :=
  ∃ cs, out' = out ++ cs.*2 ∧ diffs A N prefix cs.

Lemma adds_nil A N prefix out :
  (∀ p d, ¬ changed (A p) (N p) (render prefix p) d) → adds A N prefix out out.
Proof. intros H. exists []. rewrite app_nil_r. split; [done|]. by apply diffs_nil. Qed.

Lemma adds_below n A N prefix out out' :
  adds A N (join_path prefix n) out out' → adds (below n A) (below n N) prefix out out'.
Proof.
  intros (cs & -> & H). exists (shift n cs). rewrite shift_entries. split; [done|]. by apply diffs_below.
Qed.

Lemma adds_app A1 N1 A2 N2 A N prefix out out1 out2 :
  (∀ p m k, A p m k ↔ A1 p m k ∨ A2 p m k) → (∀ p m k, N p m k ↔ N1 p m k ∨ N2 p m k) →
  (∀ p, (no_leaf (A1 p) ∧ no_leaf (N1 p)) ∨ (no_leaf (A2 p) ∧ no_leaf (N2 p))) →
  adds A1 N1 prefix out out1 → adds A2 N2 prefix out1 out2 → adds A N prefix out out2.
Proof.
  intros HA HN Hd (cs1 & -> & H1) (cs2 & -> & H2). exists (cs1 ++ cs2).
  rewrite fmap_app, app_assoc. split; [done|]. by eapply diffs_app.
Qed.

(** Names of a sorted tree: an entry's paths are no paths of the entries after it. *)
Lemma leaf_of_cons e es p m k : leaf_of (e :: es) p m k ↔ own e p m k ∨ leaf_of es p m k.
Proof.
  unfold leaf_of, own, below. split.
  - intros (x & p' & [->|Hin]%elem_of_cons & -> & H); [left; eauto|right; eauto].
  - intros [(p' & -> & H)|(x & p' & Hin & -> & H)].
    + exists e, p'. split; [by left|done].
    + exists x, p'. split; [by right|done].
Qed.

Lemma leaf_of_name es p m k : leaf_of es p m k → ∃ n p', p = n :: p' ∧ n ∈ names es.
Proof.
  intros (e & p' & Hin & -> & _). exists (te_name e), p'. split; [done|].
  by apply list_elem_of_fmap_2.
Qed.

Lemma own_apart e es p :
  te_name e ∉ names es → no_leaf (own e p) ∨ no_leaf (leaf_of es p).
Proof.
  intros Hn. destruct p as [|n p].
  { left. by intros m k (? & ? & _). }
  destruct (decide (n = te_name e)) as [->|Hne].
  - right. intros m k H%leaf_of_name. by destruct H as (? & ? & [= <- <-] & ?).
  - left. intros m k (? & [= ? _] & _). done.
Qed.

(** A changed leaf that is on one side only. *)
Lemma changed_none_r (A : EntryMode.t → hash32 → Prop) path d :
  changed A (λ _ _, False) path d ↔ ∃ m k, A m k ∧ d = removed_entry path m k.
Proof.
  split.
  - intros H. inv H; naive_solver.
  - intros (m & k & HA & ->). by apply changed_removed; [|intros ? ? ?].
Qed.

Lemma changed_none_l (N : EntryMode.t → hash32 → Prop) path d :
  changed (λ _ _, False) N path d ↔ ∃ m k, N m k ∧ d = added_entry path m k.
Proof.
  split.
  - intros H. inv H; naive_solver.
  - intros (m & k & HN & ->). by apply changed_added; [|intros ? ? ?].
Qed.

(** One leaf of a file entry. *)
Lemma diffs_file e prefix (removed : bool) :
  is_tree e = false →
  let mk := if removed then removed_entry else added_entry in
  diffs (if removed then own e else none) (if removed then none else own e) prefix
    [([te_name e], mk (join_path prefix (te_name e)) (te_mode e) (te_hash e))].
Proof.
  intros Hf mk. split; [apply NoDup_singleton|]. intros p d. rewrite list_elem_of_singleton.
  assert (∀ m k, own e p m k ↔ p = [te_name e] ∧ m = te_mode e ∧ k = te_hash e) as Ho.
  { intros m k. unfold own, below. setoid_rewrite leaf_not_tree; [|done]. naive_solver. }
  destruct removed; unfold mk, none.
  - rewrite changed_none_r. setoid_rewrite Ho. cbn. naive_solver.
  - rewrite changed_none_l. setoid_rewrite Ho. cbn. naive_solver.
Qed.

Lemma adds_iff A N A' N' prefix out out' :
  (∀ p m k, A p m k ↔ A' p m k) → (∀ p m k, N p m k ↔ N' p m k) →
  adds A N prefix out out' → adds A' N' prefix out out'.
Proof. intros HA HN (cs & -> & H). exists cs. split; [done|]. by eapply diffs_iff. Qed.

(** The sides when a tree is there on one side only. *)
Definition old_side (removed : bool) (X : side) : side := if removed then X else none.
Definition new_side (removed : bool) (X : side) : side := if removed then none else X.
Definition leaf_entry (removed : bool) := if removed then removed_entry else added_entry.

Definition adds_one (removed : bool) (X : side) : bytes → list DiffEntry → list DiffEntry → Prop :=
  adds (old_side removed X) (new_side removed X).

Lemma each_ok removed prefix f es :
  ascending (names es) →
  (∀ e out, e ∈ es → triple I (f e out) (adds_one removed (own e) prefix out)) →
  ∀ out, triple I (m_each f es out) (adds_one removed (leaf_of es) prefix out).
Proof.
  intros Hg. induction es as [|e es IH]; intros Hf out; cbn [m_each].
  { apply triple_ret, adds_nil. intros p d H%changed_some. apply H.
    assert (∀ p, no_leaf (leaf_of [] p)) as Hno
      by (intros ? ? ? (? & ? & ?%elem_of_nil & _); done).
    split; destruct removed; first [apply Hno | intros ? ? []]. }
  pose proof (ascending_head_notin _ _ Hg) as Hni.
  eapply triple_bind; [by apply Hf; left|]. intros out1 H1.
  eapply triple_weaken; [apply IH; [by inv Hg|]|]; [intros; apply Hf; by right|].
  intros out2 H2. eapply adds_app; [..|exact H1|exact H2].
  - intros p m k. destruct removed; cbn; [apply leaf_of_cons|unfold none; tauto].
  - intros p m k. destruct removed; cbn; [unfold none; tauto|apply leaf_of_cons].
  - intros p. destruct (own_apart e es p Hni) as [H|H]; destruct removed; cbn; unfold none, no_leaf in *; tauto.
Qed.

Lemma add_entries_ok removed levels : ∀ prefix e out,
  triple I (add_entries (leaf_entry removed) levels prefix e out)
    (adds_one removed (own e) prefix out).
Proof.
  induction levels as [|levels IH]; intros prefix e out; cbn [add_entries]; [by apply triple_lift|].
  destruct (is_tree e) eqn:Et.
  - eapply triple_bind; [apply triple_load_tree|]. intros sub Hsub.
    eapply triple_weaken; [apply (each_ok removed); [eapply good_ascending, view_object_good; exact Hsub|intros; apply IH]|].
    pose proof (λ p m k, leaf_tree e sub p m k Et Hsub) as Hl.
    intros out' H. apply adds_below in H. eapply adds_iff; [| |exact H].
    + intros p m k. destruct removed; cbn; unfold own, below, none;
        [by setoid_rewrite Hl|naive_solver].
    + intros p m k. destruct removed; cbn; unfold own, below, none;
        [naive_solver|by setoid_rewrite Hl].
  - apply triple_ret. eexists. split; [|apply (diffs_file e prefix removed Et)].
    by destruct removed.
Qed.

(** ** Two entries with the same name *)

Lemma leaf_same e e' p m k :
  is_tree e = true → is_tree e' = true → te_hash e = te_hash e' → leaf e p m k → leaf e' p m k.
Proof.
  intros He He' Hh H. inv H as [|? es x q ? ? _ Hv Hin Hl]; [congruence|].
  rewrite Hh in Hv. by eapply leaf_dir.
Qed.

Lemma own_fun e p m k m' k' : own e p m k → own e p m' k' → m = m' ∧ k = k'.
Proof. intros (q & -> & H) (q' & [= <-] & H'). by eapply leaf_fun. Qed.

Lemma own_file e p m k :
  is_tree e = false → own e p m k ↔ p = [te_name e] ∧ m = te_mode e ∧ k = te_hash e.
Proof. intros Hf. unfold own, below. setoid_rewrite leaf_not_tree; [|done]. naive_solver. Qed.

Lemma unchanged (A N : EntryMode.t → hash32 → Prop) path d :
  (∀ k, same k k = true) → (∀ m k m' k', A m k → A m' k' → m = m' ∧ k = k') →
  (∀ m k, A m k ↔ N m k) → ¬ changed A N path d.
Proof.
  intros Hr Hf HAN H. inv H as [m k HA HN|m k HN HA|m k m' k' HA HN Hs Hm|m k m' k' HA HN Hs].
  - by apply (HN m k), HAN.
  - by apply (HA m k), HAN.
  - apply HAN in HN. by destruct (Hf _ _ _ _ HA HN).
  - apply HAN in HN. destruct (Hf _ _ _ _ HA HN) as [_ ->]. by rewrite Hr in Hs.
Qed.

(** The change of a file that both sides have. *)
Lemma changed_both (o n : TreeEntry) path d :
  changed (λ m k, m = te_mode o ∧ k = te_hash o) (λ m k, m = te_mode n ∧ k = te_hash n) path d ↔
  if same (te_hash o) (te_hash n) then
    te_mode o ≠ te_mode n ∧ ignore && regular_executable_pair (te_mode o) (te_mode n) = false ∧
    d = both_entry path ModeChanged (te_mode o) (te_hash o) (te_mode n) (te_hash n)
  else d = both_entry path Modified (te_mode o) (te_hash o) (te_mode n) (te_hash n).
Proof.
  split.
  - intros H. inv H as [m k HA HN|m k HN HA|m k m' k' [-> ->] [-> ->] -> ? ?|m k m' k' [-> ->] [-> ->] ->];
      [by destruct (HN (te_mode n) (te_hash n))|by destruct (HA (te_mode o) (te_hash o))|done|done].
  - destruct (same _ _) eqn:E; [intros (? & ? & ->)|intros ->].
    + by apply changed_mode.
    + by apply changed_content.
Qed.

Lemma files_changed o n prefix p d :
  is_tree o = false → is_tree n = false → te_name o = te_name n →
  changed (own o p) (own n p) (render prefix p) d ↔
  p = [te_name o] ∧
  changed (λ m k, m = te_mode o ∧ k = te_hash o) (λ m k, m = te_mode n ∧ k = te_hash n)
    (join_path prefix (te_name o)) d.
Proof.
  intros Ho Hn Hname. destruct (decide (p = [te_name o])) as [->|Hp].
  - rewrite (changed_iff _ _ (λ m k, m = te_mode o ∧ k = te_hash o) (λ m k, m = te_mode n ∧ k = te_hash n)).
    + cbn. naive_solver.
    + intros m k. rewrite own_file by done. naive_solver.
    + intros m k. rewrite own_file by done. rewrite Hname. naive_solver.
  - split; [|naive_solver]. intros H%changed_some. destruct H.
    split; intros m k (-> & _)%own_file; try done. by rewrite Hname in Hp.
Qed.

Lemma own_dir_file o n p :
  is_tree o = true → is_tree n = false → no_leaf (own o p) ∨ no_leaf (own n p).
Proof.
  intros Ho Hn. destruct (decide (p = [te_name n])) as [->|Hp].
  - left. intros m k (q & [= _ <-] & H). by eapply leaf_nil_tree.
  - right. by intros m k (-> & _)%own_file.
Qed.

Lemma none_or (X : side) p m k : X p m k ↔ none p m k ∨ X p m k.
Proof. unfold none. tauto. Qed.
Lemma or_none (X : side) p m k : X p m k ↔ X p m k ∨ none p m k.
Proof. unfold none. tauto. Qed.

Section pair.
Context (sub : list TreeEntry → list TreeEntry → bytes → list DiffEntry → M S (list DiffEntry)).
Context (Hsub : ∀ old new prefix out, ascending (names old) → ascending (names new) →
  triple I (sub old new prefix out) (adds (leaf_of old) (leaf_of new) prefix out)).
Context (levels : nat) (prefix : bytes).

Lemma diff_pair_ok o n out :
  te_name o = te_name n →
  triple I (diff_pair sub ignore levels prefix o n out) (adds (own o) (own n) prefix out).
Proof.
  intros Hname. unfold diff_pair. destruct (is_tree o) eqn:Eo, (is_tree n) eqn:En; cbn [andb orb].
  - case_bool_decide as Hh.
    + intros s Hs. pose proof (λ k, same_refl s k Hs) as Hr. revert s Hs.
      change (triple I (m_ret out) (adds (own o) (own n) prefix out)).
      apply triple_ret, adds_nil. intros p d. apply unchanged; [done|apply own_fun|].
      intros m k. unfold own. rewrite Hname. split; intros (q & -> & H); exists q;
        (split; [done|]); [by apply (leaf_same o)|by apply (leaf_same n)].
    + eapply triple_bind; [apply triple_load_tree|]. intros os Hos.
      eapply triple_bind; [apply triple_load_tree|]. intros ns Hns.
      eapply triple_weaken; [apply Hsub; eapply good_ascending, view_object_good; [exact Hos|exact Hns]|].
      intros out' H%adds_below. eapply adds_iff; [| |exact H]; intros p m k; unfold own, below.
      * by setoid_rewrite (leaf_tree o os); [|done..].
      * rewrite Hname. by setoid_rewrite (leaf_tree n ns); [|done..].
  - eapply triple_bind; [apply (add_entries_ok true)|]. intros out1 H1.
    eapply triple_weaken; [apply (add_entries_ok false)|]. intros out2 H2.
    eapply adds_app; [intros; apply or_none|intros; apply none_or| |exact H1|exact H2].
    intros p. destruct (own_dir_file o n p Eo En); [left|right]; (split; first [assumption|intros ? ? []]).
  - eapply triple_bind; [apply (add_entries_ok true)|]. intros out1 H1.
    eapply triple_weaken; [apply (add_entries_ok false)|]. intros out2 H2.
    eapply adds_app; [intros; apply or_none|intros; apply none_or| |exact H1|exact H2].
    intros p. destruct (own_dir_file n o p En Eo); [right|left]; (split; first [assumption|intros ? ? []]).
  - intros s Hs. pose proof (λ k, same_refl s k Hs) as Hr. revert s Hs.
    apply (triple_bind I _ _ (λ eq, eq = same (te_hash o) (te_hash n))).
    { intros s Hs. split; [by apply source_content_eq|]. intros r. by apply Hsame. }
    assert (∀ p d, changed (own o p) (own n p) (render prefix p) d ↔ _) as Hc
      by (intros p d; by apply files_changed).
    setoid_rewrite changed_both in Hc.
    assert (∀ d, (∀ p d', changed (own o p) (own n p) (render prefix p) d' ↔ p = [te_name o] ∧ d' = d) →
      triple I (m_ret (out ++ [d])) (adds (own o) (own n) prefix out)) as Hone.
    { intros d Hd. apply triple_ret. exists [([te_name o], d)]. split; [done|].
      split; [apply NoDup_singleton|]. intros p d'. rewrite list_elem_of_singleton, Hd. naive_solver. }
    assert ((∀ p d', ¬ changed (own o p) (own n p) (render prefix p) d') →
      triple I (m_ret out) (adds (own o) (own n) prefix out)) as Hnone
      by (intros Hd; by apply triple_ret, adds_nil).
    intros eq ->. destruct (same (te_hash o) (te_hash n)) eqn:Es.
    + case_bool_decide as Em; [apply Hnone; intros p d' (_ & ? & _)%Hc; done|].
      rewrite <- negb_andb. destruct (ignore && _) eqn:Ei; cbn [negb].
      * apply Hnone. intros p d' (_ & _ & ? & _)%Hc. congruence.
      * apply Hone. intros p d'. rewrite Hc. naive_solver.
    + rewrite bool_decide_false by (intros Hh; by rewrite Hh, Hr in Es). cbn [negb orb].
      apply Hone. intros p d'. by rewrite Hc.
Qed.

Lemma leaf_of_nil p : no_leaf (leaf_of [] p).
Proof. by intros m k (e & q & ?%elem_of_nil & _). Qed.

(** The rest of one list, and then of the other. *)
Lemma tail_ok old new out :
  ascending (names old) → ascending (names new) → old = [] ∨ new = [] →
  triple I (m_bind (m_each (add_removed_entries levels prefix) old out)
    (m_each (add_added_entries levels prefix) new)) (adds (leaf_of old) (leaf_of new) prefix out).
Proof.
  intros Ho Hn Hnil.
  eapply triple_bind; [apply (each_ok true); [done|intros; apply (add_entries_ok true)]|].
  intros out1 H1.
  eapply triple_weaken; [apply (each_ok false); [done|intros; apply (add_entries_ok false)]|].
  intros out2 H2. eapply adds_app; [intros; apply or_none|intros; apply none_or| |exact H1|exact H2].
  intros p. destruct Hnil as [-> | ->]; [left|right];
    (split; first [apply leaf_of_nil|intros ? ? []]).
Qed.

Lemma names_cons e es : names (e :: es) = te_name e :: names es.
Proof. done. Qed.

Lemma smaller_notin e es f fs :
  ascending (names (e :: es)) → ascending (names (f :: fs)) →
  bytes_ltb (te_name e) (te_name f) = true →
  (te_name e ∉ names es) ∧ (te_name e ∉ names (f :: fs)).
Proof.
  intros He Hf Hlt. split; [by apply ascending_head_notin|].
  rewrite names_cons. intros [E|Hin]%elem_of_cons.
  - rewrite E in Hlt. by apply (ltb_irr (ltb := bytes_ltb)) in Hlt.
  - apply (ascending_head_least _ _ _ Hf) in Hin.
    by apply (ltb_irr (ltb := bytes_ltb) (te_name e)), (ltb_tr (ltb := bytes_ltb) _ (te_name f)).
Qed.

Lemma diff_walk_ok fuel : ∀ old new out,
  length old + length new ≤ fuel → ascending (names old) → ascending (names new) →
  triple I (diff_walk sub ignore levels prefix fuel old new out)
    (adds (leaf_of old) (leaf_of new) prefix out).
Proof.
  induction fuel as [|fuel IH]; intros old new out Hf Ho Hn.
  { cbn in *. apply tail_ok; [done..|]. destruct old; [by left|cbn in *; lia]. }
  destruct old as [|o old]; [by apply tail_ok; [..|left]|].
  destruct new as [|n new]; [by apply tail_ok; [..|right]|]. cbn [length] in Hf. cbn [diff_walk].
  assert (ascending (names old) ∧ ascending (names new)) as [Ho' Hn'] by (by inv Ho; inv Hn).
  destruct (bytes_cmp (te_name o) (te_name n)) eqn:Ec.
  - apply bytes_cmp_eq in Ec. eapply triple_bind; [by apply diff_pair_ok|]. intros out1 H1.
    eapply triple_weaken; [apply IH; [lia|done..]|]. intros out2 H2.
    eapply adds_app; [intros; apply leaf_of_cons..| |exact H1|exact H2].
    intros p. pose proof (ascending_head_notin _ _ Ho) as No.
    pose proof (ascending_head_notin _ _ Hn) as Nn.
    destruct p as [|x p]; [left; by split; intros ? ? (? & ? & _)|].
    destruct (decide (x = te_name o)) as [->|Hx]; [right|left].
    + split; intros m k (? & ? & [= <- <-] & ?)%leaf_of_name;
        [by apply No|apply Nn; by rewrite <- Ec].
    + split; intros m k (? & [= ? _] & _); congruence.
  - apply bytes_ltb_lt in Ec. destruct (smaller_notin _ _ _ _ Ho Hn Ec) as [N1 N2].
    eapply triple_bind; [apply (add_entries_ok true)|]. intros out1 H1.
    eapply triple_weaken; [apply IH; [cbn; lia|done..]|]. intros out2 H2.
    eapply adds_app; [intros; apply leaf_of_cons|intros; apply none_or| |exact H1|exact H2].
    intros p. pose proof (own_apart o old p N1). pose proof (own_apart o (n :: new) p N2).
    assert (no_leaf (none p)) by (intros ? ? []). unfold old_side, new_side. tauto.
  - assert (bytes_ltb (te_name n) (te_name o) = true) as Hlt.
    { apply bytes_ltb_lt. rewrite bytes_cmp_antisym, Ec. done. }
    destruct (smaller_notin _ _ _ _ Hn Ho Hlt) as [N1 N2].
    eapply triple_bind; [apply (add_entries_ok false)|]. intros out1 H1.
    eapply triple_weaken; [apply IH; [cbn; lia|done..]|]. intros out2 H2.
    eapply adds_app; [intros; apply none_or|intros; apply leaf_of_cons| |exact H1|exact H2].
    intros p. pose proof (own_apart n new p N1). pose proof (own_apart n (o :: old) p N2).
    assert (no_leaf (none p)) by (intros ? ? []). unfold old_side, new_side. tauto.
Qed.
End pair.

Lemma diff_entries_ok levels : ∀ old new prefix out,
  ascending (names old) → ascending (names new) →
  triple I (diff_entries_recursive ignore levels old new prefix out)
    (adds (leaf_of old) (leaf_of new) prefix out).
Proof.
  induction levels as [|levels IH]; intros old new prefix out Ho Hn; cbn [diff_entries_recursive].
  - by apply triple_lift.
  - by apply diff_walk_ok.
Qed.

Lemma triple_load_side h : triple I (load_side h) (loaded v h).
Proof. destruct h as [h|]; [apply triple_load_tree|by apply triple_ret]. Qed.

Lemma leaf_of_loaded h es p m k : loaded v h es → leaf_of es p m k ↔ leaf_of_tree h p m k.
Proof.
  intros H. split; [intros Hl; by exists es|]. intros (es' & H' & Hl).
  by rewrite (loaded_fun v h es es').
Qed.

Lemma path_leb_total x y : path_leb x y = true ∨ path_leb y x = true.
Proof.
  unfold path_leb. rewrite !bytes_leb_spec.
  destruct (ltb_tot (ltb := bytes_ltb) (de_path x) (de_path y)) as [?|[?|?]]; auto.
Qed.

(** The entries are the changed leaves of the two trees, each path of names once,
    sorted by the printed path. *)
Definition diff_post (old new : option hash32) (r : DiffResult) : Prop :=
  ∃ cs : list (list bytes * DiffEntry),
    NoDup cs.*1 ∧ dr_entries r ≡ₚ cs.*2 ∧
    Sorted (λ a b, path_leb a b = true) (dr_entries r) ∧
    ∀ p d, (p, d) ∈ cs ↔ changed (leaf_of_tree old p) (leaf_of_tree new p) (render [] p) d.

Lemma diff_trees_ok old new :
  triple I (diff_trees_inner old new ignore) (diff_post old new).
Proof.
  assert (∀ h : option hash32, old = h → new = h →
    triple I (m_ret {| dr_entries := [] |}) (diff_post old new)) as Hsm.
  { intros h -> -> s Hs. split; [done|]. intros r [= <-]. exists [].
    split_and!; [constructor|done|constructor|]. intros p d. split; [by intros ?%elem_of_nil|].
    intros Hc. exfalso. revert Hc. apply unchanged; [intros; by eapply same_refl| |done].
    intros m k m' k' (es & Hl & H) H'. rewrite <- leaf_of_loaded in H' by exact Hl.
    eapply leaf_of_fun; [by eapply loaded_good|done..]. }
  unfold diff_trees_inner. destruct old as [a|], new as [b|]; [| | |by apply (Hsm None)];
    (case_bool_decide as E; [by eapply Hsm|]);
    (eapply triple_bind; [apply triple_load_side|]; intros os Ho;
     eapply triple_bind; [apply triple_load_side|]; intros ns Hn;
     eapply triple_bind; [apply diff_entries_ok; eapply good_ascending, loaded_good; eassumption|];
     intros out (cs & -> & Hd & Hin); apply triple_ret; exists cs;
     split_and!; [done|apply stable_sort_perm|apply stable_sort_sorted, path_leb_total|];
     intros p d; rewrite Hin; apply changed_iff; intros; by apply leaf_of_loaded).
Qed.
End walk.
End leaves.

(** C20: The diff of two trees lists exactly their changed leaves. Over any source with a
    view whose content comparison answers [same]: every path of names whose leaf is on
    one side only, has another mode, or compares unequal is listed once, with its kind
    and both sides, and nothing else is; the list is sorted by path. Skipping subtrees
    with equal ids loses nothing, and a directory in place of a file is a removal
    and additions. *)
Theorem diff_trees_spec `{B : Blake3} {S : Type} `{!ObjectSource S} (I : S → Prop)
    (v : hash32 → result StoreError bytes) `{V : !SourceView S I v}
    (same : hash32 → hash32 → bool) (ignore : bool) (old new : option hash32) (s : S)
    (Hsame : ∀ a b s r, I s → (content_eq a b s).1 = Ok r → r = same a b) (Hs : I s) :
  let out := diff_trees_inner old new ignore s in
  I out.2 ∧ ∀ r, out.1 = Ok r → diff_post v same ignore old new r.
Proof. exact (diff_trees_ok v same ignore I Hsame old new s Hs). Qed.

(** ** An example *)

Import Toy.

Definition ex_same (a b : hash32) : bool :=
  match (content_eq a b ex_trees_store).1 with Ok r => r | Err _ => false end.

Definition one_modified (r : result StoreError DiffResult) : bool :=
  match r with
  | Ok {| dr_entries := [d] |} =>
      match de_kind d with Modified => bytes_eqb (de_path d) (b# "a") | _ => false end
  | _ => false
  end.

Lemma diff_trees_spec_witness :
  one_modified (diff_trees (Some ex_base) (Some ex_changed) ex_trees_store).1 = true ∧
  let out := diff_trees_inner (Some ex_base) (Some ex_changed) false ex_trees_store in
  ex_trees_store = out.2 ∧
  ∀ r, out.1 = Ok r →
    diff_post (read ex_trees_store) ex_same false (Some ex_base) (Some ex_changed) r.
Proof.
  split; [vm_compute; exact eq_refl|].
  apply (diff_trees_spec (eq ex_trees_store) (read ex_trees_store) ex_same false
    (Some ex_base) (Some ex_changed) ex_trees_store); [|reflexivity].
  intros a b s r <- H. unfold ex_same. by rewrite H.
Defined.
