(* ===== verification/RenameFacts.v ===== *)
(** * Renames pair removed and added content

    Detection takes removed and added entries apart into disjoint pairs with equal
    contents, as many as there are, and keeps every other entry. *)

From S2P Require Import Prelude Hash Object ObjectId Store StoreFacts Content ContentFacts MergeTrees MergeTreesFacts TreeDiff TreeDiffFacts.

(** ** Indices *)

Lemma index_snd (l : list DiffEntry) : (index l).*2 = l.
Proof. unfold index. apply snd_zip. by rewrite length_seq. Qed.

Lemma index_fst (l : list DiffEntry) : (index l).*1 = seq 0 (length l).
Proof. unfold index. apply fst_zip. by rewrite length_seq. Qed.

Lemma index_NoDup (l : list DiffEntry) : NoDup (index l).
Proof. apply (NoDup_fmap_1 fst). rewrite index_fst. apply NoDup_seq. Qed.

Lemma index_inj (l : list DiffEntry) x y : x ∈ index l → y ∈ index l → x.1 = y.1 → x = y.
Proof.
  intros Hx Hy E. assert (NoDup (index l).*1) as Hn by (rewrite index_fst; apply NoDup_seq).
  apply list_elem_of_lookup in Hx as [i Hi], Hy as [j Hj].
  assert (i = j) as ->; [|congruence].
  eapply NoDup_lookup; [exact Hn|by rewrite list_lookup_fmap, Hi|by rewrite list_lookup_fmap, Hj, E].
Qed.

(** The prefixes that [zip] keeps. *)
Lemma zip_fst_take {A C} (l : list A) (k : list C) : (zip l k).*1 = take (length k) l.
Proof. revert k. induction l as [|x l IH]; intros [|y k]; cbn; by rewrite ?IH. Qed.
Lemma zip_snd_take {A C} (l : list A) (k : list C) : (zip l k).*2 = take (length l) k.
Proof. revert k. induction l as [|x l IH]; intros [|y k]; cbn; by rewrite ?IH. Qed.

Section pair.
Context {K : Type} `{!EqDecision K} (key : hash32 → K) (order : list K → list K)
  (Horder : ∀ l, order l ≡ₚ l).

Lemma under_perm f k l : sort_indices (under f k l) ≡ₚ under (K := K) f k l.
Proof. apply stable_sort_perm. Qed.

Lemma elem_of_groups {A} (g : K → list A) ks x :
  x ∈ concat (g <$> ks) ↔ ∃ k, k ∈ ks ∧ x ∈ g k.
Proof.
  induction ks as [|k ks IH]; cbn; [set_solver|]. rewrite elem_of_app, IH. set_solver.
Qed.

(** Groups of different keys have nothing in common. *)
Lemma groups_NoDup (f : DiffEntry → option K) (g : K → list indexed) ks :
  NoDup ks → (∀ k, NoDup (g k)) → (∀ k x, x ∈ g k → f x.2 = Some k) →
  NoDup (concat (g <$> ks)).
Proof.
  induction 1 as [|k ks Hk _ IH]; intros Hg Hf; cbn; [constructor|].
  apply list.NoDup_app. split_and!; [done| |by apply IH].
  intros x Hx (k' & Hk' & Hx')%elem_of_groups. apply Hf in Hx, Hx'. congruence.
Qed.

(** The removed and the added indices under a key, in order. *)
Definition removed_in (l : list indexed) (k : K) := sort_indices (under (removed_key key) k l).
Definition added_in (l : list indexed) (k : K) := sort_indices (under (added_key key) k l).
Definition keys (l : list indexed) : list K :=
  order (remove_dups (omap (λ x : indexed, removed_key key x.2) l)).

Lemma elem_of_in f k l x :
  x ∈ sort_indices (under (K := K) f k l) ↔ f x.2 = Some k ∧ x ∈ l.
Proof. rewrite under_perm. unfold under. by rewrite list_elem_of_filter. Qed.

Lemma in_NoDup f k l : NoDup l → NoDup (sort_indices (under (K := K) f k l)).
Proof. intros H. rewrite under_perm. by apply list.NoDup_filter. Qed.

Lemma keys_NoDup l : NoDup (keys l).
Proof. unfold keys. rewrite Horder. apply NoDup_remove_dups. Qed.

Lemma elem_of_keys l k : k ∈ keys l ↔ ∃ x, x ∈ l ∧ removed_key key x.2 = Some k.
Proof.
  unfold keys. rewrite Horder, elem_of_remove_dups, list_elem_of_omap. naive_solver.
Qed.

Lemma pair_up_fst l :
  (pair_up key order l).*1 =
  concat ((λ k, take (length (added_in l k)) (removed_in l k)) <$> keys l).
Proof.
  unfold pair_up. fold (keys l). induction (keys l) as [|k ks IH]; [done|]. cbn.
  rewrite fmap_app, IH. f_equal. apply zip_fst_take.
Qed.

Lemma pair_up_snd l :
  (pair_up key order l).*2 =
  concat ((λ k, take (length (removed_in l k)) (added_in l k)) <$> keys l).
Proof.
  unfold pair_up. fold (keys l). induction (keys l) as [|k ks IH]; [done|]. cbn.
  rewrite fmap_app, IH. f_equal. apply zip_snd_take.
Qed.

Lemma elem_of_prefix {A} n (l : list A) x : x ∈ take n l → x ∈ l.
Proof. intros H. rewrite <- (take_drop n l). apply elem_of_app. by left. Qed.

Lemma NoDup_prefix {A} n (l : list A) : NoDup l → NoDup (take n l).
Proof. intros H. rewrite <- (take_drop n l) in H. by apply list.NoDup_app in H as [? _]. Qed.

Lemma consumed_ok l :
  NoDup l → NoDup (consumed (pair_up key order l)) ∧ ∀ x, x ∈ consumed (pair_up key order l) → x ∈ l.
Proof.
  intros Hl. unfold consumed. rewrite pair_up_fst, pair_up_snd.
  assert (∀ f n k x, x ∈ take n (sort_indices (under (K := K) f k l)) → f x.2 = Some k ∧ x ∈ l)
    as Hin by (intros f n k x Hx; eapply elem_of_in, elem_of_prefix, Hx).
  split.
  - apply list.NoDup_app. split_and!.
    + apply (groups_NoDup (removed_key key)); [apply keys_NoDup| |].
      * intros k. by apply NoDup_prefix, in_NoDup.
      * intros k x Hx. by apply Hin in Hx as [? _].
    + intros x (k & _ & Hx)%elem_of_groups (k' & _ & Hx')%elem_of_groups.
      apply Hin in Hx as [Hx _], Hx' as [Hx' _]. unfold removed_key, added_key in *.
      by destruct (de_kind x.2).
    + apply (groups_NoDup (added_key key)); [apply keys_NoDup| |].
      * intros k. by apply NoDup_prefix, in_NoDup.
      * intros k x Hx. by apply Hin in Hx as [? _].
  - intros x [(k & _ & Hx)%elem_of_groups|(k & _ & Hx)%elem_of_groups]%elem_of_app;
      by apply Hin in Hx as [_ ?].
Qed.

(** Of a removed and an added index with the same key, one is taken. *)
Lemma consumed_maximal l x y k :
  x ∈ l → y ∈ l → removed_key key x.2 = Some k → added_key key y.2 = Some k →
  x ∈ consumed (pair_up key order l) ∨ y ∈ consumed (pair_up key order l).
Proof.
  intros Hx Hy Kx Ky. unfold consumed. rewrite pair_up_fst, pair_up_snd, !elem_of_app.
  rewrite !elem_of_groups.
  assert (k ∈ keys l) as Hk by (apply elem_of_keys; eauto).
  assert (x ∈ removed_in l k ∧ y ∈ added_in l k) as [Rx Ay] by (split; by apply elem_of_in).
  destruct (decide (length (removed_in l k) ≤ length (added_in l k))) as [Hle|Hgt].
  - left. left. exists k. by rewrite take_ge.
  - right. right. exists k. rewrite take_ge by lia. done.
Qed.

Lemma pair_up_keys l x y :
  (x, y) ∈ pair_up key order l →
  ∃ k, removed_key key x.2 = Some k ∧ added_key key y.2 = Some k ∧ x ∈ l ∧ y ∈ l.
Proof.
  unfold pair_up. intros (k & _ & H)%elem_of_groups. unfold pairs_of in H. exists k.
  pose proof (elem_of_zip_l _ _ _ _ H) as Hx%elem_of_in.
  pose proof (elem_of_zip_r _ _ _ _ H) as Hy%elem_of_in. naive_solver.
Qed.

Lemma unconsumed_perm entries :
  let l := index entries in
  let c := consumed (pair_up key order l) in
  l ≡ₚ filter (λ x : indexed, x.1 ∉ c.*1) l ++ c.
Proof.
  cbv zeta. set (l := index entries). set (c := consumed (pair_up key order l)).
  destruct (consumed_ok l (index_NoDup entries)) as [Hd Hin]. fold c in Hd, Hin.
  apply NoDup_Permutation; [apply index_NoDup| |].
  - apply list.NoDup_app. split_and!; [apply list.NoDup_filter, index_NoDup| |done].
    intros x [Hx _]%list_elem_of_filter Hc. by apply Hx, list_elem_of_fmap_2.
  - intros x. rewrite elem_of_app, list_elem_of_filter. split; [|naive_solver].
    intros Hx. destruct (decide (x.1 ∈ c.*1)) as [Hc|Hc]; [right|by left].
    apply list_elem_of_fmap in Hc as (y & E & Hy).
    by rewrite (index_inj entries x y); [|done|apply Hin|].
Qed.

(** What the pairing does: it takes pairs with equal keys out, every pair it can. *)
Definition paired (entries out : list DiffEntry) : Prop :=
  ∃ pairs rest,
    entries ≡ₚ rest ++ pairs.*1 ++ pairs.*2 ∧ out ≡ₚ rest ++ (rename_of <$> pairs) ∧
    (pairs = [] → out = entries) ∧
    (pairs ≠ [] → Sorted (λ a b, path_leb a b = true) out) ∧
    (∀ r a, (r, a) ∈ pairs → ∃ k, removed_key key r = Some k ∧ added_key key a = Some k) ∧
    (∀ r a k, r ∈ rest → a ∈ rest → removed_key key r = Some k → added_key key a ≠ Some k).

Lemma pair_renames_ok entries : paired entries (pair_renames key order entries).
Proof.
  pose proof (unconsumed_perm entries) as Hp. cbv zeta in Hp.
  set (l := index entries) in *. set (P := pair_up key order l) in *.
  set (rest := filter (λ x : indexed, x.1 ∉ (consumed P).*1) l) in *.
  exists ((λ p : indexed * indexed, (p.1.2, p.2.2)) <$> P), rest.*2.
  split_and!.
  - rewrite <- (index_snd entries) at 1. fold l. rewrite Hp at 1. unfold consumed.
    rewrite !fmap_app, <- !list_fmap_compose. done.
  - unfold pair_renames. fold l. fold P. destruct P as [|p P'] eqn:EP.
    + cbn. rewrite app_nil_r. unfold consumed in Hp. cbn in Hp. rewrite app_nil_r in Hp.
      rewrite <- (index_snd entries) at 1. by apply fmap_Permutation.
    + etrans; [apply stable_sort_perm|]. by rewrite <- list_fmap_compose.
  - intros HP%fmap_nil_inv. unfold pair_renames. fold l. fold P. by rewrite HP.
  - intros HP. unfold pair_renames. fold l. fold P. destruct P; [done|].
    apply stable_sort_sorted, path_leb_total.
  - intros r a ([x y] & [= -> ->] & Hxy)%list_elem_of_fmap. apply pair_up_keys in Hxy. naive_solver.
  - intros r a k (x & -> & Hx)%list_elem_of_fmap (y & -> & Hy)%list_elem_of_fmap Kx Ky.
    apply list_elem_of_filter in Hx as [Nx Hx], Hy as [Ny Hy].
    destruct (consumed_maximal l x y k) as [H|H]; try done; by apply (list_elem_of_fmap_2 fst) in H.
Qed.
End pair.

(** ** Detection over a source *)

Section detect.
Context `{B : Blake3, BI : !Blake3Incremental} {S : Type} `{!ObjectSource S} (I : S → Prop)
  (v : hash32 → result StoreError bytes) `{V : !SourceView S I v}.

(** The fingerprint of a content in the view. *)
Definition has_fingerprint (h : hash32) (f : N * hash32) : Prop :=
  ∃ x, content_view v h = Ok x ∧ f = (lenN x, b3_hash x).

Lemma triple_fingerprint h : triple I (content_fingerprint h) (has_fingerprint h).
Proof.
  intros s Hs. destruct (content_fingerprint_ok I v h s Hs) as [HI Hr]. split; [done|].
  intros f Hf. rewrite Hf in Hr. destruct Hr as [Hr|[? ?]]; [|done].
  symmetry in Hr. apply bind_Ok in Hr as (x & Hx & [= <-]). by exists x.
Qed.

Definition memo_ok (memo : gmap hash32 (N * hash32)) : Prop :=
  ∀ h f, memo !! h = Some f → has_fingerprint h f.

Lemma fingerprints_ok entries : ∀ memo,
  memo_ok memo →
  triple I (fingerprints entries memo) (λ memo', memo_ok memo' ∧
    (∀ h, is_Some (memo !! h) → is_Some (memo' !! h)) ∧
    ∀ e h, e ∈ entries → content_hash e = Some h → is_Some (memo' !! h)).
Proof.
  induction entries as [|e entries IH]; intros memo Hm; cbn [fingerprints].
  { apply triple_ret. split_and!; [done..|]. by intros ? ? ?%elem_of_nil. }
  assert (∀ memo1, memo_ok memo1 → (∀ h, is_Some (memo !! h) → is_Some (memo1 !! h)) →
    (∀ h, content_hash e = Some h → is_Some (memo1 !! h)) →
    triple I (fingerprints entries memo1) (λ memo', memo_ok memo' ∧
      (∀ h, is_Some (memo !! h) → is_Some (memo' !! h)) ∧
      ∀ e' h, e' ∈ e :: entries → content_hash e' = Some h → is_Some (memo' !! h))) as Hgo.
  { intros memo1 H1 Hsub He. eapply triple_weaken; [by apply IH|].
    intros memo' (Hok & Hk & Hin). split_and!; [done|auto|].
    intros e' h [->|Hin']%elem_of_cons Hh; [auto|by eapply Hin]. }
  destruct (content_hash e) as [h|]; [|by apply Hgo].
  case_bool_decide as Hh.
  { apply Hgo; [done|done|]. by intros ? [= <-]. }
  eapply triple_bind; [apply triple_fingerprint|]. intros f Hf. apply Hgo.
  - intros h' f'. rewrite lookup_insert_Some. intros [[<- <-]|[_ H]]; [done|by apply Hm].
  - intros h' H. destruct (decide (h = h')) as [->|Hne]; [by rewrite lookup_insert_eq|].
    by rewrite lookup_insert_ne.
  - intros ? [= <-]. by rewrite lookup_insert_eq.
Qed.

(** The comparison has confirmed that two contents are the same. *)
Definition confirmed (a b : hash32) : Prop := ∃ s, I s ∧ (content_eq a b s).1 = Ok true.

Lemma triple_confirm a b : triple I (content_eq a b) (λ r, r = true → confirmed a b).
Proof.
  intros s Hs. split; [by apply (source_content_eq v I)|]. intros r Hr ->. by exists s.
Qed.

Lemma verify_renames_ok candidate :
  triple I (verify_renames candidate) (λ _, ∀ e a b, e ∈ candidate → de_kind e = Renamed →
    de_old_hash e = Some a → de_new_hash e = Some b → confirmed a b).
Proof.
  induction candidate as [|e c IH]; cbn [verify_renames].
  { apply triple_ret. by intros ? ? ? ?%elem_of_nil. }
  assert (∀ (Q : Prop), Q → triple I (verify_renames c) (λ _,
    Q ∧ ∀ e a b, e ∈ c → de_kind e = Renamed → de_old_hash e = Some a →
      de_new_hash e = Some b → confirmed a b)) as Hgo.
  { intros Q HQ. eapply triple_weaken; [exact IH|]. done. }
  destruct (de_kind e) eqn:Ek; [..|destruct (de_old_hash e) as [a|] eqn:Ea;
    [destruct (de_new_hash e) as [b|] eqn:Eb|]].
  5: { eapply triple_bind; [apply triple_confirm|]. intros eq Heq. destruct eq; [|by apply triple_lift].
       eapply triple_weaken; [apply (Hgo (confirmed a b)); auto|].
       intros _ [Hc Hall] e' a' b' [->|Hin]%elem_of_cons; [congruence|by apply Hall]. }
  all: eapply triple_weaken; [apply (Hgo True); done|];
    intros _ [_ Hall] e' a' b' [->|Hin]%elem_of_cons; [congruence|by apply Hall].
Qed.

(** A removed and an added entry whose contents have one length and one hash, and that
    the comparison has confirmed. *)
Definition same_content (r a : DiffEntry) : Prop :=
  de_kind r = Removed ∧ de_kind a = Added ∧
  ∃ hr ha x y, de_old_hash r = Some hr ∧ de_new_hash a = Some ha ∧
    content_view v hr = Ok x ∧ content_view v ha = Ok y ∧
    lenN x = lenN y ∧ b3_hash x = b3_hash y ∧ confirmed hr ha.

(** What detection promises: disjoint pairs of same content are taken out and become
    renames, the rest is kept, and no pair of equal contents is left over. *)
Definition renames_post (entries out : list DiffEntry) : Prop :=
  ∃ pairs rest,
    entries ≡ₚ rest ++ pairs.*1 ++ pairs.*2 ∧ out ≡ₚ rest ++ (rename_of <$> pairs) ∧
    (pairs = [] → out = entries) ∧
    (pairs ≠ [] → Sorted (λ a b, path_leb a b = true) out) ∧
    (∀ r a, (r, a) ∈ pairs → same_content r a) ∧
    ∀ r a hr ha x y, r ∈ rest → a ∈ rest → de_kind r = Removed → de_kind a = Added →
      de_old_hash r = Some hr → de_new_hash a = Some ha →
      content_view v hr = Ok x → content_view v ha = Ok y → x ≠ y.

Lemma removed_key_Some {K} (key : hash32 → K) e k :
  removed_key key e = Some k ↔ de_kind e = Removed ∧ ∃ h, de_old_hash e = Some h ∧ k = key h.
Proof.
  unfold removed_key. destruct (de_kind e); try naive_solver.
  rewrite fmap_Some. naive_solver.
Qed.

Lemma added_key_Some {K} (key : hash32 → K) e k :
  added_key key e = Some k ↔ de_kind e = Added ∧ ∃ h, de_new_hash e = Some h ∧ k = key h.
Proof.
  unfold added_key. destruct (de_kind e); try naive_solver.
  rewrite fmap_Some. naive_solver.
Qed.

Lemma detect_ok order entries :
  (∀ l, order l ≡ₚ l) →
  triple I (detect_content_renames order entries) (renames_post entries).
Proof.
  intros Horder. eapply triple_bind; [apply (fingerprints_ok entries ∅)|].
  { intros h f H. by rewrite lookup_empty in H. }
  intros memo (Hm & _ & Hall). set (key h := memo !! h).
  eapply triple_bind; [apply verify_renames_ok|]. intros [] Hv. apply triple_ret.
  destruct (pair_renames_ok key order Horder entries) as (pairs & rest & Hp & Ho & Hn & Hs & Hk & Hx).
  fold key in Hv. exists pairs, rest. split_and!; [done..| |].
  - intros r a Hra. destruct (Hk r a Hra) as (k & Kr & Ka).
    apply removed_key_Some in Kr as (Er & hr & Hr & Kr). apply added_key_Some in Ka as (Ea & ha & Ha & Ka).
    assert (is_Some (key hr)) as [f Hf].
    { apply (Hall r); [|unfold content_hash; by rewrite Er]. rewrite Hp, !elem_of_app.
      right. left. by apply (list_elem_of_fmap_2 fst) in Hra. }
    destruct (Hm hr f Hf) as (x & Vx & Fx). destruct (Hm ha f) as (y & Vy & Fy).
    { fold (key ha). congruence. }
    split_and!; [done..|]. exists hr, ha, x, y. split_and!; [done..| | |]; try congruence.
    apply (Hv (rename_of (r, a))); [|done..]. rewrite Ho. apply elem_of_app. right.
    by apply list_elem_of_fmap_2.
  - intros r a hr ha x y Hr Ha Er Ea Dr Da Vx Vy ->.
    assert (is_Some (key hr)) as [f Hf].
    { apply (Hall r); [|unfold content_hash; by rewrite Er]. rewrite Hp, !elem_of_app. by left. }
    assert (is_Some (key ha)) as [g Hg].
    { apply (Hall a); [|unfold content_hash; by rewrite Ea]. rewrite Hp, !elem_of_app. by left. }
    destruct (Hm hr f Hf) as (x' & Vx' & Fx). destruct (Hm ha g Hg) as (y' & Vy' & Fy).
    apply (Hx r a (key hr) Hr Ha); [apply removed_key_Some; eauto|].
    apply added_key_Some. split; [done|]. exists ha. split; [done|]. congruence.
Qed.

(** Rename detection pairs removed with added entries of the same content. For every
    order in which the hash map gives its keys: the pairs are disjoint and become
    renames from the old path to the new one, everything else is kept, the result
    is sorted if there is a rename and unchanged if there is none; the contents of a pair
    have the same length and hash and compare equal; and of the entries left over no
    removed one has the content of an added one. *)
Theorem detect_content_renames_spec (order : list (option (N * hash32)) → list (option (N * hash32)))
    (entries : list DiffEntry) (s : S) (Horder : ∀ l, order l ≡ₚ l) (Hs : I s) :
  let out := detect_content_renames order entries s in
  I out.2 ∧ ∀ r, out.1 = Ok r → renames_post entries r.
Proof. exact (detect_ok order entries Horder s Hs). Qed.
End detect.

(** ** An example: the same content in two layouts, under two names *)

Import Toy.

Definition ex_moved : list DiffEntry :=
  [removed_entry (b# "old") EntryMode.Blob ex_one; added_entry (b# "new") EntryMode.Blob ex_two].

Definition is_rename (r : result StoreError (list DiffEntry)) : bool :=
  match r with
  | Ok [d] => match de_kind d, de_old_path d with
              | Renamed, Some p => bytes_eqb p (b# "old") && bytes_eqb (de_path d) (b# "new")
              | _, _ => false
              end
  | _ => false
  end.

Lemma detect_content_renames_spec_witness :
  is_rename (detect_content_renames id ex_moved ex_store).1 = true ∧
  let out := detect_content_renames id ex_moved ex_store in
  ex_store = out.2 ∧
  ∀ r, out.1 = Ok r → renames_post (eq ex_store) (read ex_store) ex_moved r.
Proof.
  split; [vm_compute; exact eq_refl|].
  apply (detect_content_renames_spec (eq ex_store) (read ex_store) id ex_moved ex_store);
    [intros l; reflexivity|reflexivity].
Defined.
