(* ===== verification/Ingest.v ===== *)
(** * Storing file content

    Models the ingest half of [rust/crates/mkit-core/src/worktree.rs]: small content
    as one blob, large content as chunks and a manifest, from a slice or streamed,
    one chunk or one batch at a time, with the cutter in the same thread or in its own;
    and the id that content would have. Opening files is left out: the functions get
    the bytes, or a reader of them. *)

From S2P Require Import Prelude Hash Object Serialize Merkle ObjectId Store Content Chunker.

Definition CHUNK_THRESHOLD : N := 1024 * 1024.
Definition MAX_FILE_BYTES : N := 1024 * 1024 * 1024.
Definition STREAM_HASH_BATCH : nat := 64.

(** [?] on a [MkitError], in a [WorktreeResult]. *)
Definition wt_object {A} (r : result MkitError A) : result WorktreeError A :=
  match r with Ok a => Ok a | Err e => Err (WtObject e) end.

Definition manifest_of (total_size : N) (chunks : list hash32) : ChunkedBlob :=
  {| cb_total_size := total_size; cb_chunk_size := 0; cb_chunks := chunks |}.

(** The chunks of a slice, cut by [v1]. *)
Definition slice_chunks (data : bytes) : list bytes :=
  match chunks v1 data with
  | Some bs => (λ b, slice (cbd_offset b) (cbd_length b) data) <$> bs
  | None => []
  end.

(** The running total with its bound. *)
Definition add_size (path : bytes) (total : N) (chunk : bytes) : result WorktreeError N :=
  match checked_add total (lenN chunk) with
  | Some t => if (t <=? MAX_FILE_BYTES)%N then Ok t else Err (WtFileTooLarge path)
  | None => Err (WtFileTooLarge path)
  end.

Section ingest.
Context `{B : Blake3} {S : Type} `{!ObjectSource S, !ObjectSink S}.

Abbreviation W := (ME WorktreeError S).

Definition store_chunk_blob (chunk : bytes) : W hash32 :=
  me_bind (me_lift (wt_object (blob_prologue (lenN chunk)))) (λ prologue,
  wt (sink_put_parts [prologue; chunk])).

Definition store_chunk_manifest (total_size : N) (chunks : list hash32) : W hash32 :=
  me_bind (me_lift (wt_object (serialize (OChunkedBlob (manifest_of total_size chunks)))))
    (λ manifest_bytes, wt (sink_put manifest_bytes)).

(** Chunks stored in order, their ids collected. *)
Fixpoint store_chunks (chunks : list bytes) (ids : list hash32) : W (list hash32) :=
  match chunks with
  | [] => me_lift (Ok ids)
  | chunk :: chunks => me_bind (store_chunk_blob chunk) (λ id, store_chunks chunks (ids ++ [id]))
  end.

Definition store_file_object (data : bytes) : W hash32 :=
  if (lenN data <=? CHUNK_THRESHOLD)%N then store_chunk_blob data
  else me_bind (store_chunks (slice_chunks data) []) (store_chunk_manifest (lenN data)).

(** ** Ids without storing *)

Definition chunk_id (chunk : bytes) : result WorktreeError hash32 :=
  prologue ← wt_object (blob_prologue (lenN chunk));
  Ok (Hasher_finalize (Hasher_update (Hasher_update Hasher_new prologue) chunk)).

Fixpoint chunk_ids (chunks : list bytes) : result WorktreeError (list hash32) :=
  match chunks with
  | [] => Ok []
  | chunk :: chunks => id ← chunk_id chunk; ids ← chunk_ids chunks; Ok (id :: ids)
  end.

Definition chunked_blob_from_bytes (data : bytes) : result WorktreeError ChunkedBlob :=
  ids ← chunk_ids (slice_chunks data); Ok (manifest_of (lenN data) ids).

Definition hash_file_object (data : bytes) : result WorktreeError hash32 :=
  if (lenN data <=? CHUNK_THRESHOLD)%N then chunk_id data
  else m ← chunked_blob_from_bytes data; Ok (compute_chunked_id m).

(** ** Streaming *)

Section stream.
Context {R : Type} `{!Read R io_error} (path : bytes).

Record StreamState := {
  ss_chunker : ChunkReader R;
  ss_total : N;
  ss_chunks : list hash32;
  ss_sink : S
}.

(** One round of [store_large_file_streaming]; [None]: the window reader did not return. *)
Definition stream_step (s : StreamState)
    : StreamState + option (result WorktreeError (N * list hash32) * S) :=
  match next_chunk v1 (ss_chunker s) with
  | None => inr None
  | Some (Err e, _) => inr (Some (Err (WtIo e), ss_sink s))
  | Some (Ok None, _) => inr (Some (Ok (ss_total s, ss_chunks s), ss_sink s))
  | Some (Ok (Some chunk), chunker) =>
      match add_size path (ss_total s) chunk with
      | Err e => inr (Some (Err e, ss_sink s))
      | Ok total =>
          match store_chunk_blob chunk (ss_sink s) with
          | (Ok id, sink) =>
              inl {| ss_chunker := chunker; ss_total := total;
                     ss_chunks := ss_chunks s ++ [id]; ss_sink := sink |}
          | (Err e, sink) => inr (Some (Err e, sink))
          end
      end
  end.

(** [fuel]: more rounds than the reader has bytes. *)
Definition store_large_file_streaming (fuel : nat) (reader : R) (sink : S)
    : option (result WorktreeError hash32 * S) :=
  out ← loop fuel stream_step
    {| ss_chunker := ChunkReader_new v1 reader; ss_total := 0; ss_chunks := []; ss_sink := sink |};
  '(r, sink) ← out;
  Some match r with
       | Ok (total, ids) => store_chunk_manifest total ids sink
       | Err e => (Err e, sink)
       end.

(** ** Batches *)

Context (hash_chunks : list bytes → W (list hash32)).

Definition checked_hash_chunks (batch : list bytes) : W (list hash32) :=
  me_bind (hash_chunks batch) (λ hashes, me_lift
    (if length hashes =? length batch then Ok hashes
     else Err (WtChunkBatchLengthMismatch (length batch) (length hashes)))).

Record BatchState := {
  bs_chunker : ChunkReader R;
  bs_total : N;
  bs_batch : list bytes;
  bs_chunks : list hash32;
  bs_sink : S
}.

Definition batched_step (s : BatchState)
    : BatchState + option (result WorktreeError (N * list hash32) * S) :=
  let finish r := inr (Some r) in
  match next_chunk v1 (bs_chunker s) with
  | None => inr None
  | Some (Err e, _) => finish (Err (WtIo e), bs_sink s)
  | Some (Ok None, _) =>
      match bs_batch s with
      | [] => finish (Ok (bs_total s, bs_chunks s), bs_sink s)
      | batch =>
          match checked_hash_chunks batch (bs_sink s) with
          | (Ok hashes, sink) => finish (Ok (bs_total s, bs_chunks s ++ hashes), sink)
          | (Err e, sink) => finish (Err e, sink)
          end
      end
  | Some (Ok (Some chunk), chunker) =>
      match add_size path (bs_total s) chunk with
      | Err e => finish (Err e, bs_sink s)
      | Ok total =>
          let batch := bs_batch s ++ [chunk] in
          if length batch =? STREAM_HASH_BATCH then
            match checked_hash_chunks batch (bs_sink s) with
            | (Ok hashes, sink) =>
                inl {| bs_chunker := chunker; bs_total := total; bs_batch := [];
                       bs_chunks := bs_chunks s ++ hashes; bs_sink := sink |}
            | (Err e, sink) => finish (Err e, sink)
            end
          else
            inl {| bs_chunker := chunker; bs_total := total; bs_batch := batch;
                   bs_chunks := bs_chunks s; bs_sink := bs_sink s |}
      end
  end.

Definition store_large_file_streaming_batched (fuel : nat) (reader : R) (sink : S)
    : option (result WorktreeError hash32 * S) :=
  out ← loop fuel batched_step
    {| bs_chunker := ChunkReader_new v1 reader; bs_total := 0; bs_batch := [];
       bs_chunks := []; bs_sink := sink |};
  '(r, sink) ← out;
  Some match r with
       | Ok (total, ids) => store_chunk_manifest total ids sink
       | Err e => (Err e, sink)
       end.

(** ** The pipeline

    The channel hands every message over in order, and the receiver takes all of
    them, so the two threads together are: the messages that the cutter sends, then
    the loop of the receiver over them. *)

Abbreviation message := (result WorktreeError (list bytes)).

Record CutterState := {
  cs_chunker : ChunkReader R;
  cs_running : N;
  cs_batch : list bytes;
  cs_sent : list message
}.

(** One round of the cutter's [loop], with what it has sent. *)
Definition cutter_step (s : CutterState) : CutterState + option (list message) :=
  match next_chunk v1 (cs_chunker s) with
  | None => inr None
  | Some (Err e, _) => inr (Some (cs_sent s ++ [Err (WtIo e)]))
  | Some (Ok None, _) =>
      inr (Some (match cs_batch s with [] => cs_sent s | batch => cs_sent s ++ [Ok batch] end))
  | Some (Ok (Some chunk), chunker) =>
      match add_size path (cs_running s) chunk with
      | Err e => inr (Some (cs_sent s ++ [Err e]))
      | Ok running =>
          let batch := cs_batch s ++ [chunk] in
          if length batch =? STREAM_HASH_BATCH then
            inl {| cs_chunker := chunker; cs_running := running; cs_batch := [];
                   cs_sent := cs_sent s ++ [Ok batch] |}
          else
            inl {| cs_chunker := chunker; cs_running := running; cs_batch := batch;
                   cs_sent := cs_sent s |}
      end
  end.

Record ReceiverState := {
  rs_total : N;
  rs_chunks : list hash32;
  rs_first_err : option WorktreeError;
  rs_sink : S
}.

(** The body of [while let Ok(received) = rx.recv()]. *)
Definition receive (s : ReceiverState) (received : message) : ReceiverState :=
  match rs_first_err s with
  | Some _ => s
  | None =>
      let failed e total sink :=
        {| rs_total := total; rs_chunks := rs_chunks s; rs_first_err := Some e; rs_sink := sink |} in
      match received with
      | Err e => failed e (rs_total s) (rs_sink s)
      | Ok batch =>
          let total := foldl (λ t c, (t + lenN c)%N) (rs_total s) batch in
          match checked_hash_chunks batch (rs_sink s) with
          | (Ok hashes, sink) =>
              {| rs_total := total; rs_chunks := rs_chunks s ++ hashes; rs_first_err := None;
                 rs_sink := sink |}
          | (Err e, sink) => failed e total sink
          end
      end
  end.

Definition store_large_file_streaming_pipelined (fuel : nat) (reader : R) (sink : S)
    : option (result WorktreeError hash32 * S) :=
  sent ← loop fuel cutter_step
    {| cs_chunker := ChunkReader_new v1 reader; cs_running := 0; cs_batch := []; cs_sent := [] |};
  sent ← sent;
  let s := foldl receive
    {| rs_total := 0; rs_chunks := []; rs_first_err := None; rs_sink := sink |} sent in
  Some match rs_first_err s with
       | Some e => (Err e, rs_sink s)
       | None => store_chunk_manifest (rs_total s) (rs_chunks s) (rs_sink s)
       end.
End stream.
End ingest.
