(* ===== verification/IngestFacts.v ===== *)
(** * Stored content reads back, under one id, however it was stored

    Over any store that keeps what it is given: storing a file and reading its content
    gives the file, its id is the one computed without storing, and streaming, with or
    without batches and a second thread, gives the same id. *)

From S2P Require Import Prelude Hash Object Serialize SerializeFacts Merkle ObjectId Store StoreFacts Content ContentFacts Chunker ChunkerFacts Ingest.

(** ** The store of an ingest

    Reads are of the requested id, nothing readable becomes unreadable, and what a put
    gave the id of can be read under it. *)
Class Keeper {S} `{!ObjectSource S, !ObjectSink S} `{!Blake3} (I : S → Prop)
    (view : S → hash32 → result StoreError bytes) : Prop := {
  keep_verified s h bs : I s → view s h = Ok bs → object_id_from_bytes bs = h;
  keep_parts parts s : I s → head parts ≠ Some [] → let r := sink_put_parts parts s in
    I r.2 ∧ (∀ h, is_ok (view s h) = true → is_ok (view r.2 h) = true) ∧
    ∀ id, r.1 = Ok id → id = object_id_from_bytes (concat parts) ∧ is_ok (view r.2 id) = true;
  keep_put bs s : I s → let r := sink_put bs s in
    I r.2 ∧ (∀ h, is_ok (view s h) = true → is_ok (view r.2 h) = true) ∧
    ∀ id, r.1 = Ok id → id = object_id_from_bytes bs ∧ is_ok (view r.2 id) = true
}.

(** ** Chunks of a slice *)

Lemma v1_min : 0 < min_size v1.
Proof. unfold v1, MIN_SIZE. cbn [min_size]. lia. Qed.

Lemma v1_max : N.of_nat (max_size v1) = 0x40000%N.
Proof. exact (N2Nat.id 0x40000). Qed.

Lemma slice_chunks_cuts data : cuts v1 data (slice_chunks data).
Proof.
  destruct (chunks_cuts v1 cdc_ok_v1 v1_min data) as (bs & Hc & _ & Hcuts).
  unfold slice_chunks. by rewrite Hc.
Qed.

Lemma lenN_concat_ge (n : N) (cs : list bytes) :
  (∀ c, c ∈ cs → (n <= lenN c)%N) → (n * lenN cs <= lenN (concat cs))%N.
Proof.
  induction cs as [|c cs IH]; intros H; cbn [concat]; [rewrite !lenN_nil; lia|].
  rewrite lenN_cons, lenN_app. specialize (IH (λ c' Hc, H c' (list_elem_of_further _ _ _ Hc))).
  specialize (H c (list_elem_of_here _ _)). lia.
Qed.

Lemma removelast_snoc {A} (l : list A) : l ≠ [] → ∃ x, l = removelast l ++ [x].
Proof. intros H. destruct (exists_last H) as (l' & x & ->). exists x. by rewrite removelast_last. Qed.

(** Chunks but the last are long, so there are few. *)
Lemma cuts_length data cs :
  cuts v1 data cs → (16384 * lenN cs <= lenN data + 16384)%N.
Proof.
  intros Hc. pose proof (cuts_concat _ _ _ Hc) as <-.
  destruct (cuts_sizes v1 cdc_ok_v1 v1_min _ _ Hc) as [_ Hs].
  destruct (decide (cs = [])) as [->|Hne]; [change (lenN (@nil bytes)) with 0%N; lia|].
  destruct (removelast_snoc cs Hne) as [x E]. set (init := removelast cs) in *.
  rewrite E. rewrite concat_app, lenN_app.
  assert (16384 * lenN init <= lenN (concat init))%N as Hi.
  { apply lenN_concat_ge. intros c Hin. specialize (Hs c Hin).
    unfold v1, MIN_SIZE in Hs. cbn [min_size] in Hs. unfold lenN. lia. }
  rewrite lenN_app, lenN_cons, lenN_nil. lia.
Qed.

(** A file within the bound has few chunks. *)
Lemma few_chunks data cs :
  cuts v1 data cs → (lenN data <= MAX_FILE_BYTES)%N → (lenN cs <= MAX_CHUNKS)%N.
Proof.
  intros Hc Hl. pose proof (cuts_length _ _ Hc). unfold MAX_FILE_BYTES, MAX_CHUNKS in *. lia.
Qed.

Lemma manifest_wf total ids :
  (lenN ids <= MAX_CHUNKS)%N → (total <= MAX_FILE_BYTES)%N →
  wf (OChunkedBlob (manifest_of total ids)) = true.
Proof.
  intros Hn Ht.
  unfold wf, wf_chunked_blob, u64_bounded, u32_bounded. cbn. unfold MAX_FILE_BYTES in Ht.
  rewrite !andb_true_iff, !N.leb_le. unfold U64_MAX, U32_MAX. lia.
Qed.

(** ** Storing *)

Section store.
Context `{B : Blake3, BI : !Blake3Incremental} {S : Type} `{!ObjectSource S, !ObjectSink S}
  (I : S → Prop) (view : S → hash32 → result StoreError bytes) `{V : !Keeper I view}.

(** Good, and everything that could be read still can be. *)
Definition grows (s s' : S) : Prop :=
  I s' ∧ ∀ h, is_ok (view s h) = true → is_ok (view s' h) = true.

Lemma grows_refl s : I s → grows s s.
Proof. by split. Qed.

Lemma grows_trans s1 s2 s3 : grows s1 s2 → grows s2 s3 → grows s1 s3.
Proof. intros [_ H1] [I3 H2]. split; [done|auto]. Qed.

Definition readable (s : S) (id : hash32) : Prop := is_ok (view s id) = true.

Lemma readable_all_grows s s' ids : grows s s' → Forall (readable s) ids → Forall (readable s') ids.
Proof. intros [_ H] Hf. eapply list.Forall_impl; [exact Hf|]. auto. Qed.

Lemma chunk_id_serialize chunk id :
  chunk_id chunk = Ok id ↔
  ∃ bs, serialize (OBlob {| blob_data := chunk |}) = Ok bs ∧ id = object_id_from_bytes bs.
Proof.
  unfold chunk_id. pose proof (blob_prologue_spec {| blob_data := chunk |}) as Hp. cbn [blob_data] in Hp. rewrite Hp.
  destruct (blob_prologue (lenN chunk)) as [p|e] eqn:E; cbn; [|by split; [|intros (? & ? & _)]].
  rewrite hasher_two.
  assert (object_id_from_bytes (p ++ chunk) = hash (p ++ chunk)) as Hid.
  { cbn [mbind result_bind] in Hp.
    apply (object_id_from_bytes_object (OBlob {| blob_data := chunk |})); [|done].
    unfold wf, wf_blob. cbn. unfold blob_prologue in E. apply bind_Ok in E as (n & Hn & _).
    by apply checked_u32_Ok in Hn as [? _]. }
  split; [intros [= <-]; eexists; by split|]. intros (bs & [= <-] & ->). by rewrite Hid.
Qed.

Lemma chunk_ids_length cs : ∀ ids, chunk_ids cs = Ok ids → lenN ids = lenN cs.
Proof.
  induction cs as [|c cs IH]; cbn; [by intros ? [= <-]|].
  intros ids (id & _ & (new & Hnew & [= <-])%bind_Ok)%bind_Ok. rewrite !lenN_cons. by rewrite (IH new).
Qed.

Lemma chunk_ids_app cs1 cs2 ids1 ids2 :
  chunk_ids cs1 = Ok ids1 → chunk_ids cs2 = Ok ids2 → chunk_ids (cs1 ++ cs2) = Ok (ids1 ++ ids2).
Proof.
  revert ids1. induction cs1 as [|c cs1 IH]; intros ids1; cbn; [by intros [= <-]|].
  intros (id & -> & (new & Hn & [= <-])%bind_Ok)%bind_Ok H2. cbn. by rewrite (IH new).
Qed.

Lemma store_chunk_blob_ok chunk s :
  I s →
  let r := store_chunk_blob chunk s in
  grows s r.2 ∧ ∀ id, r.1 = Ok id → chunk_id chunk = Ok id ∧ readable r.2 id.
Proof.
  intros Hs. cbv zeta. unfold store_chunk_blob, me_bind, me_lift.
  pose proof (chunk_id_serialize chunk) as Hid.
  pose proof (blob_prologue_spec {| blob_data := chunk |}) as Hp. cbn [blob_data] in Hp. rewrite Hp in Hid.
  destruct (blob_prologue (lenN chunk)) as [p|e] eqn:E; cbn [wt_object]; [|by split; [apply grows_refl|]].
  assert (p ≠ []) as Hne.
  { unfold blob_prologue in E. apply bind_Ok in E as (n & _ & [= <-]). done. }
  unfold wt. destruct (keep_parts [p; chunk] s Hs) as (HI & Hg & Hput).
  { cbn. by intros [=]. }
  destruct (sink_put_parts [p; chunk] s) as [[id|err] s']; cbn in *; [|by split].
  split; [done|]. intros id' [= <-]. destruct (Hput id eq_refl) as [-> Hr]. rewrite app_nil_r in *.
  split; [|done]. apply Hid. eauto.
Qed.

Lemma store_chunks_ok cs : ∀ ids s,
  I s →
  let r := store_chunks cs ids s in
  grows s r.2 ∧ ∀ ids', r.1 = Ok ids' →
    ∃ new, ids' = ids ++ new ∧ chunk_ids cs = Ok new ∧ Forall (readable r.2) new.
Proof.
  induction cs as [|c cs IH]; intros ids s Hs; cbn [store_chunks chunk_ids].
  { split; [by apply grows_refl|]. intros ids' [= <-]. exists []. by rewrite app_nil_r. }
  cbv zeta. unfold me_bind. destruct (store_chunk_blob_ok c s Hs) as [Hg Hid].
  destruct (store_chunk_blob c s) as [[id|e] s1]; cbn in *; [|done].
  destruct (Hid id eq_refl) as [-> Hr]. destruct (IH (ids ++ [id]) s1) as [Hg2 Hids]; [by destruct Hg|].
  split; [by eapply grows_trans|]. intros ids' E. destruct (Hids ids' E) as (new & -> & -> & Hf).
  exists (id :: new). rewrite <- app_assoc. split_and!; [done|done|].
  constructor; [|done]. by apply Hg2.
Qed.

Lemma store_chunk_manifest_ok total ids s :
  I s → (lenN ids <= MAX_CHUNKS)%N → (total <= MAX_FILE_BYTES)%N →
  let r := store_chunk_manifest total ids s in
  grows s r.2 ∧ ∀ id, r.1 = Ok id → id = compute_chunked_id (manifest_of total ids) ∧ readable r.2 id.
Proof.
  intros Hs Hn Ht. cbv zeta. unfold store_chunk_manifest, me_bind, me_lift.
  destruct (serialize _) as [bs|e] eqn:E; cbn [wt_object]; [|by split; [apply grows_refl|]].
  unfold wt. destruct (keep_put bs s Hs) as (HI & Hg & Hput).
  destruct (sink_put bs s) as [[id|err] s']; cbn in *; [|by split].
  split; [done|]. intros id' [= <-]. destruct (Hput id eq_refl) as [-> Hr]. split; [|done].
  rewrite (object_id_from_bytes_object (OChunkedBlob (manifest_of total ids))); [done| |done].
  by apply manifest_wf.
Qed.

(** ** Reading back *)

Definition encoded (o : Object) : bytes := default [] (to_option (serialize o)).
Definition encoded_chunk (c : bytes) : bytes := encoded (OBlob {| blob_data := c |}).

(** The objects that storing [data] writes. *)
Definition written (data : bytes) : list bytes :=
  if (lenN data <=? CHUNK_THRESHOLD)%N then [encoded_chunk data]
  else
    (encoded_chunk <$> slice_chunks data) ++
    match chunked_blob_from_bytes data with Ok m => [encoded (OChunkedBlob m)] | Err _ => [] end.

(** An explicit collision: the store holds other bytes for the id of one of these. *)
Definition clash (v : hash32 → result StoreError bytes) (ws : list bytes) : Prop :=
  ∃ w b, w ∈ ws ∧ b ≠ w ∧ object_id_from_bytes b = object_id_from_bytes w ∧
    v (object_id_from_bytes w) = Ok b.

Lemma clash_sub v ws ws' : (∀ w, w ∈ ws → w ∈ ws') → clash v ws → clash v ws'.
Proof. intros H (w & b & Hw & Hr). exists w, b. split; [auto|done]. Qed.

Lemma encoded_Ok o bs : serialize o = Ok bs → encoded o = bs.
Proof. unfold encoded. by intros ->. Qed.

Lemma read_written s o w :
  I s → wf o = true → serialize o = Ok w → readable s (object_id_from_bytes w) →
  view_object (view s) (object_id_from_bytes w) = Ok o ∨ clash (view s) [w].
Proof.
  intros Hs Hw Hser Hr. unfold readable in Hr.
  destruct (view s (object_id_from_bytes w)) as [b|e] eqn:Ev; [|done].
  destruct (decide (b = w)) as [->|Hne].
  - left. unfold view_object. rewrite Ev. cbn. apply decode_err_Ok. by apply serialize_deserialize.
  - right. exists w, b. split_and!; [by left|done| |done]. by apply (keep_verified s).
Qed.

Lemma chunk_wf c bs : serialize (OBlob {| blob_data := c |}) = Ok bs → wf (OBlob {| blob_data := c |}) = true.
Proof.
  pose proof (blob_prologue_spec {| blob_data := c |}) as Hp. cbn [blob_data] in Hp. rewrite Hp.
  intros (p & Hpro & _)%bind_Ok. unfold blob_prologue in Hpro.
  apply bind_Ok in Hpro as (n & Hn & _). by apply checked_u32_Ok in Hn as [? _].
Qed.

Lemma read_chunk_back s c id :
  I s → chunk_id c = Ok id → readable s id →
  view_object (view s) id = Ok (OBlob {| blob_data := c |}) ∨ clash (view s) [encoded_chunk c].
Proof.
  intros Hs (bs & Hbs & ->)%chunk_id_serialize Hr. unfold encoded_chunk. rewrite (encoded_Ok _ bs Hbs).
  apply read_written; [done|by eapply chunk_wf|done|done].
Qed.

Lemma read_chunks_back s cs : ∀ size ids,
  I s → chunk_ids cs = Ok ids → Forall (readable s) ids → (size + lenN (concat cs) < 2 ^ 64)%N →
  chunk_list (view s) size ids = Ok cs ∨ clash (view s) (encoded_chunk <$> cs).
Proof.
  induction cs as [|c cs IH]; intros size ids Hs Hids Hf Hsz; cbn [chunk_ids] in Hids.
  { left. by injection Hids as <-. }
  apply bind_Ok in Hids as (id & Hid & (new & Hnew & [= <-])%bind_Ok).
  inv Hf as [|? ? Hr Hf']. cbn [concat] in Hsz. rewrite lenN_app in Hsz.
  destruct (read_chunk_back s c id Hs Hid Hr) as [Hv|Hc].
  2:{ right. eapply clash_sub; [|exact Hc]. intros w ->%list_elem_of_singleton. by left. }
  destruct (IH (size + lenN c)%N new Hs Hnew Hf') as [Hl|Hc]; [lia| |].
  2:{ right. eapply clash_sub; [|exact Hc]. intros w Hw. by right. }
  left. cbn [chunk_list]. unfold chunk_view at 1. rewrite Hv. cbn.
  assert (checked_add size (lenN c) = Some (size + lenN c)%N) as -> by (apply checked_add_Some; lia).
  cbn. by rewrite Hl.
Qed.

(** What storing promises of the id and the state it gives. *)
Definition stored_as (data : bytes) (s : S) (id : hash32) : Prop :=
  content_view (view s) id = Ok data ∨ clash (view s) (written data).

Lemma read_small_back data s id :
  I s → (lenN data <= CHUNK_THRESHOLD)%N → chunk_id data = Ok id → readable s id →
  stored_as data s id.
Proof.
  intros Hs Hl Hid Hr. unfold stored_as, written. rewrite (proj2 (N.leb_le _ _) Hl).
  destruct (read_chunk_back s data id Hs Hid Hr) as [Hv|?]; [left|by right].
  unfold content_view. by rewrite Hv.
Qed.

Lemma read_large_back data s ids :
  I s → (CHUNK_THRESHOLD < lenN data)%N → (lenN data <= MAX_FILE_BYTES)%N →
  chunk_ids (slice_chunks data) = Ok ids → Forall (readable s) ids →
  let id := compute_chunked_id (manifest_of (lenN data) ids) in
  readable s id → hash_file_object data = Ok id ∧ stored_as data s id.
Proof.
  intros Hs Hl Hmax Hids Hf id Hr.
  pose proof (slice_chunks_cuts data) as Hcuts. pose proof (cuts_concat _ _ _ Hcuts) as Hcat.
  pose proof (few_chunks _ _ Hcuts Hmax) as Hfew.
  assert (chunked_blob_from_bytes data = Ok (manifest_of (lenN data) ids)) as Hm
    by (unfold chunked_blob_from_bytes; by rewrite Hids).
  assert ((lenN data <=? CHUNK_THRESHOLD)%N = false) as Hth by (by apply N.leb_gt).
  split; [unfold hash_file_object; by rewrite Hth, Hm|].
  unfold stored_as, written. rewrite Hth, Hm.
  destruct (read_chunks_back s (slice_chunks data) 0 ids Hs Hids Hf) as [Hc|Hc].
  { rewrite Hcat. unfold MAX_FILE_BYTES in Hmax. lia. }
  2:{ right. eapply clash_sub; [|exact Hc]. intros w Hw. apply elem_of_app. by left. }
  assert (lenN ids = lenN (slice_chunks data)) as Hlen by (by apply chunk_ids_length).
  set (m := manifest_of (lenN data) ids) in *.
  assert (wf (OChunkedBlob m) = true) as Hw by (apply manifest_wf; [lia|done]).
  destruct (body_parse (OChunkedBlob m) Hw) as (body & Hbody & _).
  assert (serialize (OChunkedBlob m) = Ok (write_prologue (object_type (OChunkedBlob m)) ++ body))
    as Hbs by (unfold serialize; by rewrite Hbody).
  set (bs := write_prologue _ ++ body) in Hbs.
  assert (object_id_from_bytes bs = id) as Hid
    by (by rewrite (object_id_from_bytes_object _ _ Hw Hbs)).
  rewrite <- Hid in Hr |- *.
  destruct (read_written s _ bs Hs Hw Hbs Hr) as [Hv|Hcl].
  - left. unfold content_view. rewrite Hv. cbn [mbind result_bind object_content]. 
    change (cb_chunks m) with ids. rewrite Hc. cbn [mbind result_bind].
    rewrite Hcat. unfold check_reassembled_size. change (cb_total_size m) with (lenN data).
    by rewrite N.eqb_refl.
  - right. eapply clash_sub; [|exact Hcl]. intros w ->%list_elem_of_singleton.
    apply elem_of_app. right. rewrite (encoded_Ok _ _ Hbs). by left.
Qed.

Lemma store_file_object_ok data s :
  I s → (lenN data <= MAX_FILE_BYTES)%N →
  let r := store_file_object data s in
  grows s r.2 ∧ ∀ id, r.1 = Ok id → hash_file_object data = Ok id ∧ stored_as data r.2 id.
Proof.
  intros Hs Hmax. cbv zeta. unfold store_file_object.
  destruct (N.leb_spec (lenN data) CHUNK_THRESHOLD) as [Hl|Hl].
  - destruct (store_chunk_blob_ok data s Hs) as [Hg Hid]. split; [done|].
    intros id E. destruct (Hid id E) as [Hc Hr]. unfold hash_file_object.
    rewrite (proj2 (N.leb_le _ _) Hl). split; [done|]. apply read_small_back; [by destruct Hg|done..].
  - unfold me_bind. destruct (store_chunks_ok (slice_chunks data) [] s Hs) as [Hg Hids].
    destruct (store_chunks (slice_chunks data) [] s) as [[ids|e] s1]; cbn in *; [|done].
    destruct (Hids ids eq_refl) as (new & -> & Hnew & Hf). cbn in *.
    pose proof (few_chunks _ _ (slice_chunks_cuts data) Hmax) as Hfew.
    rewrite <- (chunk_ids_length _ _ Hnew) in Hfew.
    destruct (store_chunk_manifest_ok (lenN data) new s1) as [Hg2 Hid]; [by destruct Hg|done..|].
    split; [by eapply grows_trans|]. intros id E. destruct (Hid id E) as [-> Hr].
    apply read_large_back; [by destruct Hg2|done..| |done].
    by eapply readable_all_grows.
Qed.
(** ** Storing succeeds *)

Definition ROOM : N := 4 * 1024 * 1024.

(** The store takes every object of at most [ROOM] bytes. *)
Definition roomy : Prop := ∀ s, I s →
  (∀ parts, head parts ≠ Some [] → (lenN (concat parts) <= ROOM)%N →
     is_ok (sink_put_parts parts s).1 = true) ∧
  (∀ bs, (lenN bs <= ROOM)%N → is_ok (sink_put bs s).1 = true).

Lemma blob_prologue_small n : (n <= CHUNK_THRESHOLD)%N →
  ∃ p, blob_prologue n = Ok p ∧ lenN p = 10%N ∧ p ≠ [].
Proof.
  intros H. unfold blob_prologue. rewrite checked_u32_bounded.
  2:{ unfold u32_bounded, U32_MAX. apply N.leb_le. unfold CHUNK_THRESHOLD in H. lia. }
  cbn [mbind result_bind]. eexists. split; [done|]. split; [|done].
  rewrite lenN_cons, lenN_app, lenN_cons, lenN_le_bytes. reflexivity.
Qed.

Lemma chunk_id_small c : (lenN c <= CHUNK_THRESHOLD)%N → is_ok (chunk_id c) = true.
Proof. intros H. unfold chunk_id. by destruct (blob_prologue_small _ H) as (p & -> & _). Qed.

Lemma store_chunk_blob_total c s :
  roomy → I s → (lenN c <= CHUNK_THRESHOLD)%N → is_ok (store_chunk_blob c s).1 = true.
Proof.
  intros Hroom Hs Hc. destruct (blob_prologue_small _ Hc) as (p & Hp & Hlen & Hne).
  unfold store_chunk_blob, me_bind, me_lift. rewrite Hp. cbn [wt_object]. unfold wt.
  destruct (Hroom s Hs) as [Hparts _]. specialize (Hparts [p; c]).
  destruct (sink_put_parts [p; c] s) as [[id|e] s']; [done|]. apply Hparts; cbn.
  - by intros [=].
  - rewrite app_nil_r, lenN_app, Hlen. unfold ROOM. unfold CHUNK_THRESHOLD in Hc. lia.
Qed.

Definition small_chunks (cs : list bytes) : Prop := Forall (λ c, (lenN c <= CHUNK_THRESHOLD)%N) cs.

Lemma cuts_small data cs : cuts v1 data cs → small_chunks cs.
Proof.
  intros Hc. apply list.Forall_forall. intros c Hin.
  destruct (cuts_sizes v1 cdc_ok_v1 v1_min _ _ Hc) as [H _]. specialize (H c Hin).
  pose proof v1_max as Hm. unfold lenN. remember (max_size v1) as m eqn:E. clear E.
  unfold CHUNK_THRESHOLD. lia.
Qed.

Lemma store_chunks_total cs : roomy → small_chunks cs → ∀ ids s,
  I s → is_ok (store_chunks cs ids s).1 = true.
Proof.
  intros Hroom. induction 1 as [|c cs Hc _ IH]; intros ids s Hs; [done|]. cbn [store_chunks].
  unfold me_bind. pose proof (store_chunk_blob_total c s Hroom Hs Hc) as Hok.
  destruct (store_chunk_blob_ok c s Hs) as [[Hs' _] _].
  destruct (store_chunk_blob c s) as [[id|e] s1]; [|done]. by apply IH.
Qed.

Lemma store_chunk_manifest_total total ids s :
  roomy → I s → (lenN ids <= 65537)%N → (total <= MAX_FILE_BYTES)%N →
  is_ok (store_chunk_manifest total ids s).1 = true.
Proof.
  intros Hroom Hs Hn Ht.
  destruct (body_parse (OChunkedBlob (manifest_of total ids))) as (body & Hb & _).
  { apply manifest_wf; [unfold MAX_CHUNKS; lia|done]. }
  unfold store_chunk_manifest, me_bind, me_lift.
  destruct (serialize _) as [bs|e] eqn:E; [|unfold serialize in E; by rewrite Hb in E].
  pose proof (serialize_len _ _ E) as Hlen. cbn in Hlen. cbn [wt_object]. unfold wt.
  destruct (Hroom s Hs) as [_ Hput]. specialize (Hput bs).
  destruct (sink_put bs s) as [[id|err] s']; [done|]. apply Hput.
  rewrite Hlen. unfold PROLOGUE_LEN, ROOM. lia.
Qed.

Lemma few_cuts data cs :
  cuts v1 data cs → (lenN data <= MAX_FILE_BYTES)%N → (lenN cs <= 65537)%N.
Proof.
  intros Hc Hl. pose proof (cuts_length _ _ Hc) as H. unfold MAX_FILE_BYTES in Hl. lia.
Qed.

Lemma store_file_object_total data s :
  roomy → I s → (lenN data <= MAX_FILE_BYTES)%N → is_ok (store_file_object data s).1 = true.
Proof.
  intros Hroom Hs Hmax. unfold store_file_object.
  destruct (N.leb_spec (lenN data) CHUNK_THRESHOLD); [by apply store_chunk_blob_total|].
  pose proof (slice_chunks_cuts data) as Hcuts. unfold me_bind.
  pose proof (store_chunks_total _ Hroom (cuts_small _ _ Hcuts) [] s Hs) as Hok.
  destruct (store_chunks_ok (slice_chunks data) [] s Hs) as [[Hs' _] Hids].
  destruct (store_chunks (slice_chunks data) [] s) as [[ids|e] s1]; [|done].
  destruct (Hids ids eq_refl) as (new & -> & Hnew & _).
  apply store_chunk_manifest_total; [done..| |done]. cbn.
  rewrite (chunk_ids_length _ _ Hnew). by eapply few_cuts.
Qed.
End store.

(** ** The stores of the program keep what they are given *)

Section keepers.
Context `{B : Blake3, BI : !Blake3Incremental}.

Lemma read_verified st h bs : read st h = Ok bs → object_id_from_bytes bs = h.
Proof. by intros [_ ?]%read_Ok. Qed.

Lemma write_keeps now bs st :
  intact st →
  let r := write now bs st in
  intact r.2 ∧ (∀ h, is_ok (read st h) = true → is_ok (read r.2 h) = true) ∧
  ∀ id, r.1 = Ok id → id = object_id_from_bytes bs ∧ is_ok (read r.2 id) = true.
Proof.
  intros Hi. cbv zeta. pose proof (write_ok now bs st Hi) as H. cbv zeta in H.
  destruct (_ <? _)%N; [by rewrite H|]. destruct H as (st' & -> & Hi' & Hr & Ho). cbn.
  assert (is_ok (read st' (object_id_from_bytes bs)) = true) as Hid.
  { destruct Hr as [->|(bs' & _ & _ & -> & _)]; done. }
  split_and!; [done| |by intros ? [= <-]]. intros h Hh.
  destruct (decide (h = object_id_from_bytes bs)) as [->|Hne]; [done|]. by rewrite Ho.
Qed.

Lemma ObjectStore_keeper (now : option N) :
  @Keeper ObjectStore _ (ObjectStore_sink now) B intact read.
Proof.
  split.
  - intros st h bs _. apply read_verified.
  - intros parts st Hi _. by apply write_keeps.
  - intros bs st Hi. by apply write_keeps.
Qed.

Lemma lookup_ok (objs : gmap hash32 bytes) v h :
  is_ok (overlay_view objs v h) = true ↔ is_Some (objs !! h) ∨ is_ok (v h) = true.
Proof.
  unfold overlay_view. destruct (objs !! h); cbn; [naive_solver|].
  split; [by right|]. intros [[? ?]|?]; done.
Qed.

Lemma overlay_put_keeps {S} `{!ObjectSource S} (I : S → Prop) v parts (o : MemoryOverlay S) :
  let ok (o : MemoryOverlay S) := I (ov_source o) ∧
    ∀ id bs, ov_objects o !! id = Some bs → object_id_from_bytes bs = id in
  ok o →
  let r := overlay_put_parts parts o in
  ok r.2 ∧
  (∀ h, is_ok (overlay_view (ov_objects o) v h) = true →
        is_ok (overlay_view (ov_objects r.2) v h) = true) ∧
  ∀ id, r.1 = Ok id → id = object_id_from_bytes (concat parts) ∧
        is_ok (overlay_view (ov_objects r.2) v id) = true.
Proof.
  cbv zeta. intros [HI Ho].
  destruct (overlay_put_cases parts o) as [(e & ->)|[(bs & Hl & ->)|(Hn & _ & _ & ->)]]; cbn.
  - done.
  - split_and!; [done..|done|]. intros id [= <-]. split; [done|]. apply lookup_ok. eauto.
  - split_and!; [done| | |].
    + intros id bs [[<- <-]|[_ H]]%lookup_insert_Some; [done|by apply Ho].
    + intros h [Hs|Hs]%lookup_ok; apply lookup_ok; [left|by right].
      rewrite lookup_insert_is_Some. destruct (decide (object_id_from_bytes (concat parts) = h)); auto.
    + intros id [= <-]. split; [done|]. apply lookup_ok. left. rewrite lookup_insert_eq. eauto.
Qed.

(** An overlay, over a source whose view verifies. *)
Lemma MemoryOverlay_keeper {S} `{!ObjectSource S} (I : S → Prop) v :
  (∀ h bs, v h = Ok bs → object_id_from_bytes bs = h) →
  Keeper (S := MemoryOverlay S)
    (λ o, I (ov_source o) ∧ ∀ id bs, ov_objects o !! id = Some bs → object_id_from_bytes bs = id)
    (λ o, overlay_view (ov_objects o) v).
Proof.
  intros Hv. split.
  - intros o h bs [_ Ho]. unfold overlay_view. destruct (ov_objects o !! h) eqn:E; [|apply Hv].
    intros [= <-]. by apply Ho.
  - intros parts o Hok _. by apply overlay_put_keeps.
  - intros bs o Hok. pose proof (overlay_put_keeps I v [bs] o Hok) as H. cbn in H.
    rewrite app_nil_r in H. exact H.
Qed.
End keepers.

(** ** Streaming *)

Section streaming.
Context `{B : Blake3, BI : !Blake3Incremental} {S : Type} `{!ObjectSource S, !ObjectSink S}
  (I : S → Prop) (view : S → hash32 → result StoreError bytes) `{V : !Keeper I view}.
Context {R : Type} `{!Read R io_error} (left : R → bytes) `{!ReadsStream left} (path : bytes).

Lemma add_size_Ok total c t :
  add_size path total c = Ok t ↔ (t = total + lenN c)%N ∧ (t <= MAX_FILE_BYTES)%N.
Proof.
  unfold add_size. destruct (checked_add total (lenN c)) as [x|] eqn:E.
  - apply checked_add_Some in E as [-> _]. destruct (N.leb_spec (total + lenN c) MAX_FILE_BYTES);
      naive_solver lia.
  - split; [done|]. intros [-> H]. unfold checked_add in E.
    destruct (N.ltb_spec (total + lenN c) (2 ^ 64)); [done|]. unfold MAX_FILE_BYTES in H. lia.
Qed.

Lemma add_size_Err total c e :
  add_size path total c = Err e → e = WtFileTooLarge path ∧ (MAX_FILE_BYTES < total + lenN c)%N.
Proof.
  intros E. split.
  - unfold add_size in E. destruct (checked_add _ _); [destruct (_ <=? _)%N|]; congruence.
  - apply N.lt_nge. intros H.
    assert (add_size path total c = Ok (total + lenN c)%N) by (by apply add_size_Ok). congruence.
Qed.

(** Why a run over a stream of [size] bytes fails, over a store that takes everything:
    the reader failed, or the stream is too long. *)
Definition stream_error (size : N) (e : WorktreeError) : Prop :=
  (∃ e', read_error (R := R) e' ∧ e = WtIo e') ∨ ((MAX_FILE_BYTES < size)%N ∧ e = WtFileTooLarge path).

(** The sizes and ids that a run over the rest of a stream has added. *)
Definition streamed (data : bytes) (pending : list bytes) (total : N) (ids : list hash32)
    (s s' : S) (r : result WorktreeError (N * list hash32)) : Prop :=
  grows I view s s' ∧
  match r with
  | Ok (total', ids') =>
      (total' = total + lenN data)%N ∧ (data ≠ [] → (total' <= MAX_FILE_BYTES)%N) ∧
      ∃ cs new, cuts v1 data cs ∧ ids' = ids ++ new ∧ chunk_ids (pending ++ cs) = Ok new ∧
        Forall (readable view s') new
  | Err e => roomy I → stream_error (total + lenN data) e
  end.

Lemma length_rest data : data ≠ [] → length (drop (cut v1 data) data) < length data.
Proof. intros Hne. pose proof (cut_pos v1 cdc_ok_v1 v1_min data Hne). rewrite length_drop. lia. Qed.

Lemma lenN_rest data : (lenN data = lenN (take (cut v1 data) data) + lenN (drop (cut v1 data) data))%N.
Proof. by rewrite <- lenN_app, take_drop. Qed.

Lemma cut_small data : (lenN (take (cut v1 data) data) <= CHUNK_THRESHOLD)%N.
Proof.
  destruct (slice_chunks_cuts data) as [|data cs Hne Hcs]; [by rewrite take_nil|].
  assert (cuts v1 data (take (cut v1 data) data :: cs)) as Hc by by constructor.
  pose proof (cuts_small data _ Hc) as Hs. by inv Hs.
Qed.

Lemma streamed_nil pending total ids ids' new s s' :
  grows I view s s' → ids' = ids ++ new → chunk_ids pending = Ok new →
  Forall (readable view s') new →
  streamed [] pending total ids s s' (Ok (total, ids')).
Proof.
  intros Hg -> Hnew Hf. split; [done|]. rewrite lenN_nil, N.add_0_r. split_and!; [done|done|].
  exists [], new. rewrite app_nil_r. split_and!; [constructor|done..].
Qed.

Lemma streamed_large data pending total ids s e :
  I s → add_size path total (take (cut v1 data) data) = Err e →
  streamed data pending total ids s s (Err e).
Proof.
  intros Hs [-> Hl]%add_size_Err. split; [by apply grows_refl|]. intros _. right.
  split; [|done]. pose proof (lenN_rest data). lia.
Qed.

(** One chunk, then the rest: the round goes on in the state [s1] with the batch
    [pending1], having added the ids [hs]. *)
Lemma streamed_chunk data pending pending1 total ids hs s s1 s' r :
  let c := take (cut v1 data) data in
  data ≠ [] → (total + lenN c <= MAX_FILE_BYTES)%N → grows I view s s1 →
  (∀ cs new, chunk_ids (pending1 ++ cs) = Ok new → chunk_ids (pending ++ c :: cs) = Ok (hs ++ new)) →
  Forall (readable view s1) hs →
  streamed (drop (cut v1 data) data) pending1 (total + lenN c) (ids ++ hs) s1 s' r →
  streamed data pending total ids s s' r.
Proof.
  intros c Hne Ht Hg Hids Hhs [Hg2 Hq]. pose proof (lenN_rest data) as Hlen. fold c in Hlen.
  split; [by eapply grows_trans|]. destruct r as [[total' ids']|e].
  2:{ intros Hroom. specialize (Hq Hroom). by replace (total + lenN data)%N
        with (total + lenN c + lenN (drop (cut v1 data) data))%N by lia. }
  destruct Hq as (-> & Hb & cs & new & Hcuts & -> & Hnew & Hf'). split; [lia|]. split.
  { intros _. destruct (decide (drop (cut v1 data) data = [])) as [E|E]; [rewrite E, lenN_nil; lia|auto]. }
  exists (c :: cs), (hs ++ new). rewrite <- app_assoc.
  split_and!; [by constructor|done|by apply Hids|].
  apply Forall_app. split; [by eapply readable_all_grows|done].
Qed.

Lemma stream_loop_ok fuel : ∀ data cr total ids s,
  reader_ok left v1 data cr → I s → length data < fuel →
  ∃ r s', loop fuel (stream_step path)
      {| ss_chunker := cr; ss_total := total; ss_chunks := ids; ss_sink := s |} = Some (Some (r, s')) ∧
    streamed data [] total ids s s' r.
Proof.
  induction fuel as [|fuel IH]; intros data cr total ids s Hcr Hs Hf; [lia|].
  cbn [loop]. unfold stream_step at 1. cbn [ss_chunker ss_total ss_chunks ss_sink].
  destruct (next_chunk_ok left v1 cdc_ok_v1 data cr Hcr) as (r & cr' & -> & Hq).
  destruct r as [[c|]|e]; [| |eexists _, _; split; [done|]; split; [by apply grows_refl|]; left; eauto].
  2:{ subst data. eexists _, _. split; [done|].
      apply (streamed_nil _ _ _ _ []); [by apply grows_refl|by rewrite app_nil_r|done|constructor]. }
  destruct Hq as (Hne & -> & Hcr'). set (c := take (cut v1 data) data) in *.
  pose proof (lenN_rest data) as Hlen. fold c in Hlen.
  destruct (add_size path total c) as [t|e] eqn:Et; [|eexists _, _; split; [done|]; by eapply streamed_large].
  apply add_size_Ok in Et as [-> Ht].
  destruct (store_chunk_blob_ok I view c s Hs) as [Hg Hid].
  pose proof (λ Hroom, store_chunk_blob_total I c s Hroom Hs (cut_small data)) as Htot.
  destruct (store_chunk_blob c s) as [[id|e] s1]; cbn in Hg, Hid, Htot;
    [|eexists _, _; split; [done|]; split; [done|]; by intros ?%Htot].
  destruct (Hid id eq_refl) as [Hc Hr]. pose proof (length_rest data Hne).
  destruct (IH (drop (cut v1 data) data) cr' (total + lenN c)%N (ids ++ [id]) s1 Hcr') as
    (r & s' & Hl & Hq); [by destruct Hg|lia|].
  exists r, s'. split; [exact Hl|]. eapply (streamed_chunk data [] [] total ids [id]); try done.
  - intros cs new Hnew. apply (chunk_ids_app [c] cs [id]); [|done]. cbn. by rewrite Hc.
  - by constructor.
Qed.

(** What streaming promises: it ends; an id that it gives is the id of the chunked
    content, and reads back; and it gives one unless the reader fails, the content is
    too long, or the store refuses an object. *)
Definition streaming_post (data : bytes) (s : S)
    (out : option (result WorktreeError hash32 * S)) : Prop :=
  ∃ r s', out = Some (r, s') ∧ grows I view s s' ∧
    match r with
    | Ok id =>
      (lenN data <= MAX_FILE_BYTES)%N ∧
      (∃ m, chunked_blob_from_bytes data = Ok m ∧ id = compute_chunked_id m) ∧
      ((CHUNK_THRESHOLD < lenN data)%N →
         hash_file_object data = Ok id ∧ stored_as view data s' id)
    | Err e => roomy I → stream_error (lenN data) e
    end.

Lemma streamed_manifest data r s s' :
  streamed data [] 0 [] s s' r →
  streaming_post data s (Some match r with
                              | Ok (total, ids) => store_chunk_manifest total ids s'
                              | Err e => (Err e, s')
                              end).
Proof.
  intros [Hg Hr]. destruct r as [[total ids]|e]; [|by exists (Err e), s'].
  rewrite N.add_0_l in Hr. destruct Hr as (-> & Hb & cs & new & Hcuts & -> & Hnew & Hf). cbn in Hnew.
  assert (lenN data <= MAX_FILE_BYTES)%N as Hmax.
  { destruct (decide (data = [])) as [->|Hne]; [rewrite lenN_nil; unfold MAX_FILE_BYTES; lia|auto]. }
  pose proof (cuts_fun v1 data cs Hcuts _ (slice_chunks_cuts data)) as ->.
  pose proof (few_chunks _ _ Hcuts Hmax) as Hfew. pose proof (few_cuts _ _ Hcuts Hmax) as Hfew'.
  rewrite <- (chunk_ids_length _ _ Hnew) in Hfew, Hfew'.
  destruct (store_chunk_manifest_ok I view (lenN data) new s') as [Hg2 Hid]; [by destruct Hg|done..|].
  pose proof (λ Hroom, store_chunk_manifest_total I (lenN data) new s' Hroom (proj1 Hg) Hfew' Hmax) as Htot.
  cbn [app]. destruct (store_chunk_manifest (lenN data) new s') as [r s2]. cbn in Hg2, Hid, Htot.
  exists r, s2. split; [done|]. split; [by eapply grows_trans|].
  destruct r as [id|e]; [|by intros ?%Htot].
  destruct (Hid id eq_refl) as [-> Hread].
  split; [done|]. split.
  - exists (manifest_of (lenN data) new). split; [|done]. unfold chunked_blob_from_bytes. by rewrite Hnew.
  - intros Hl. apply (read_large_back I view); [by destruct Hg2|done..| |done].
    by eapply readable_all_grows.
Qed.

Lemma streaming_ok fuel reader s :
  I s → length (left reader) < fuel →
  streaming_post (left reader) s (store_large_file_streaming path fuel reader s).
Proof.
  intros Hs Hf. unfold store_large_file_streaming.
  destruct (stream_loop_ok fuel (left reader) (ChunkReader_new v1 reader) 0 [] s)
    as (r & s' & -> & Hq); [by apply new_ok|done|done|].
  by apply (streamed_manifest _ r s s').
Qed.

(** ** Batches *)

Context (hash_chunks : list bytes → ME WorktreeError S (list hash32)).

(** The contract of the callback: of a batch it stores every chunk, in order, when
    it gives one hash for each; and it does, if the store takes everything. *)
Definition hashes_batches : Prop := ∀ batch s, I s →
  grows I view s (hash_chunks batch s).2 ∧
  (∀ hs, (hash_chunks batch s).1 = Ok hs → length hs = length batch →
     chunk_ids batch = Ok hs ∧ Forall (readable view (hash_chunks batch s).2) hs) ∧
  (roomy I → small_chunks batch →
     ∃ hs, (hash_chunks batch s).1 = Ok hs ∧ length hs = length batch).

Lemma checked_hash_chunks_ok batch s :
  hashes_batches → I s →
  let r := checked_hash_chunks hash_chunks batch s in
  grows I view s r.2 ∧
  (∀ hs, r.1 = Ok hs → chunk_ids batch = Ok hs ∧ Forall (readable view r.2) hs) ∧
  (roomy I → small_chunks batch → is_ok r.1 = true).
Proof.
  intros Hlaw Hs. cbv zeta. unfold checked_hash_chunks, me_bind, me_lift.
  destruct (Hlaw batch s Hs) as (Hg & Hh & Htot).
  destruct (hash_chunks batch s) as [[hs|e] s']; cbn in *.
  2:{ split_and!; [done|done|]. intros Hr Hsm. by destruct (Htot Hr Hsm) as (hs & ? & _). }
  destruct (Nat.eqb_spec (length hs) (length batch)) as [E|E].
  - split_and!; [done| |done]. intros ? [= <-]. by apply Hh.
  - split_and!; [done|done|]. intros Hr Hsm. by destruct (Htot Hr Hsm) as (hs' & [= <-] & ?).
Qed.

Lemma batched_loop_ok fuel : hashes_batches → ∀ data cr total batch ids s,
  reader_ok left v1 data cr → I s → small_chunks batch → length data < fuel →
  ∃ r s', loop fuel (batched_step path hash_chunks)
      {| bs_chunker := cr; bs_total := total; bs_batch := batch; bs_chunks := ids; bs_sink := s |}
      = Some (Some (r, s')) ∧
    streamed data batch total ids s s' r.
Proof.
  intros Hlaw. induction fuel as [|fuel IH]; intros data cr total batch ids s Hcr Hs Hsm Hf; [lia|].
  cbn [loop]. unfold batched_step at 1. cbn [bs_chunker bs_total bs_batch bs_chunks bs_sink].
  destruct (next_chunk_ok left v1 cdc_ok_v1 data cr Hcr) as (r & cr' & -> & Hq).
  destruct r as [[c|]|e]; [| |eexists _, _; split; [done|]; split; [by apply grows_refl|]; left; eauto].
  2:{ subst data. destruct batch as [|b batch].
      - eexists _, _. split; [done|].
        apply (streamed_nil _ _ _ _ []); [by apply grows_refl|by rewrite app_nil_r|done|constructor].
      - destruct (checked_hash_chunks_ok (b :: batch) s Hlaw Hs) as (Hg & Hh & Htot).
        destruct (checked_hash_chunks hash_chunks (b :: batch) s) as [[hs|e] s1]; cbn in Hg, Hh, Htot;
          [|eexists _, _; split; [done|]; split; [done|]; intros Hr; by specialize (Htot Hr Hsm)].
        destruct (Hh hs eq_refl). eexists _, _. split; [done|]. by eapply streamed_nil. }
  destruct Hq as (Hne & -> & Hcr'). pose proof (cut_small data) as Hc1.
  set (c := take (cut v1 data) data) in *.
  destruct (add_size path total c) as [t|e] eqn:Et;
    [|eexists _, _; split; [done|]; by apply streamed_large].
  apply add_size_Ok in Et as [-> Ht]. pose proof (length_rest data Hne).
  assert (small_chunks (batch ++ [c])) as Hsm1 by (apply Forall_app; split; [done|by constructor]).
  destruct (_ =? _).
  - destruct (checked_hash_chunks_ok (batch ++ [c]) s Hlaw Hs) as (Hg & Hh & Htot).
    destruct (checked_hash_chunks hash_chunks (batch ++ [c]) s) as [[hs|e] s1]; cbn in Hg, Hh, Htot.
    + destruct (Hh hs eq_refl) as [Hc Hr].
      destruct (IH (drop (cut v1 data) data) cr' (total + lenN c)%N [] (ids ++ hs) s1 Hcr') as
        (r & s' & Hl & Hq); [by destruct Hg|constructor|lia|].
      exists r, s'. split; [exact Hl|].
      apply (streamed_chunk data batch [] total ids hs s s1); [done..| |done|done].
      intros cs new Hnew. rewrite cons_middle, app_assoc. by apply chunk_ids_app.
    + eexists _, _. split; [done|]. split; [done|]. intros Hr. by specialize (Htot Hr Hsm1).
  - destruct (IH (drop (cut v1 data) data) cr' (total + lenN c)%N (batch ++ [c]) ids s Hcr' Hs Hsm1) as
      (r & s' & Hl & Hq); [lia|].
    exists r, s'. split; [exact Hl|].
    apply (streamed_chunk data batch (batch ++ [c]) total ids [] s s);
      [done..|by apply grows_refl| |constructor|by rewrite app_nil_r].
    intros cs new. by rewrite <- app_assoc.
Qed.

Lemma batched_ok fuel reader s :
  hashes_batches → I s → length (left reader) < fuel →
  streaming_post (left reader) s
    (store_large_file_streaming_batched path hash_chunks fuel reader s).
Proof.
  intros Hlaw Hs Hf. unfold store_large_file_streaming_batched.
  destruct (batched_loop_ok fuel Hlaw (left reader) (ChunkReader_new v1 reader) 0 [] [] s)
    as (r & s' & -> & Hq); [by apply new_ok|done|constructor|done|].
  by apply (streamed_manifest _ r s s').
Qed.

(** ** The pipeline *)

(** What the receiver ends with. *)
Definition outcome (s : ReceiverState) : result WorktreeError (N * list hash32) * S :=
  (match rs_first_err s with Some e => Err e | None => Ok (rs_total s, rs_chunks s) end, rs_sink s).

Lemma receive_failed (s : ReceiverState) e msgs :
  rs_first_err s = Some e → foldl (receive hash_chunks) s msgs = s.
Proof.
  intros He. induction msgs as [|m msgs IH]; [done|]. cbn. unfold receive at 2. by rewrite He.
Qed.

Definition batch_size (batch : list bytes) : N := foldl (λ t c, (t + lenN c)%N) 0%N batch.

Lemma foldl_size batch : ∀ t, foldl (λ t c, (t + lenN c)%N) t batch = (t + batch_size batch)%N.
Proof.
  unfold batch_size. induction batch as [|c batch IH]; intros t; cbn [foldl]; [lia|].
  rewrite (IH (t + lenN c)%N), (IH (0 + lenN c)%N). lia.
Qed.

Lemma batch_size_snoc batch c : batch_size (batch ++ [c]) = (batch_size batch + lenN c)%N.
Proof. unfold batch_size. by rewrite foldl_app. Qed.

Lemma receive_ok total ids batch s :
  receive hash_chunks {| rs_total := total; rs_chunks := ids; rs_first_err := None; rs_sink := s |}
    (Ok batch) =
  match checked_hash_chunks hash_chunks batch s with
  | (Ok hs, s') =>
      {| rs_total := (total + batch_size batch)%N; rs_chunks := ids ++ hs; rs_first_err := None;
         rs_sink := s' |}
  | (Err e, s') =>
      {| rs_total := (total + batch_size batch)%N; rs_chunks := ids; rs_first_err := Some e;
         rs_sink := s' |}
  end.
Proof. unfold receive. cbn. by rewrite foldl_size. Qed.

(** The cutter's messages from a state on, received, give what the loop in one thread
    gives from the same state. *)
Lemma cutter_batched fuel : ∀ cr batch sent msgs running total ids s,
  running = (total + batch_size batch)%N →
  loop fuel (cutter_step path)
    {| cs_chunker := cr; cs_running := running; cs_batch := batch; cs_sent := sent |}
    = Some (Some msgs) →
  ∃ new, msgs = sent ++ new ∧
    loop fuel (batched_step path hash_chunks)
      {| bs_chunker := cr; bs_total := running; bs_batch := batch; bs_chunks := ids; bs_sink := s |}
    = Some (Some (outcome (foldl (receive hash_chunks)
        {| rs_total := total; rs_chunks := ids; rs_first_err := None; rs_sink := s |} new))).
Proof.
  induction fuel as [|fuel IH]; intros cr batch sent msgs running total ids s Hrun; [done|].
  cbn [loop]. unfold cutter_step at 1, batched_step at 1.
  cbn [cs_chunker cs_running cs_batch cs_sent bs_chunker bs_total bs_batch bs_chunks bs_sink].
  destruct (next_chunk v1 cr) as [[[[c|]|e] cr']|]; [| | |done].
  - destruct (add_size path running c) as [t|e] eqn:Et.
    2:{ intros [= <-]. by exists [Err e]. }
    apply add_size_Ok in Et as [-> _]. destruct (_ =? _).
    + intros Hl. pose proof (receive_ok total ids (batch ++ [c]) s) as Hr.
      destruct (checked_hash_chunks hash_chunks (batch ++ [c]) s) as [[hs|e] s1].
      * destruct (IH _ [] _ _ _ (running + lenN c)%N (ids ++ hs) s1 (eq_sym (N.add_0_r _)) Hl)
          as (new & -> & Hb).
        exists (Ok (batch ++ [c]) :: new). rewrite <- app_assoc. split; [done|].
        rewrite Hb. cbn [foldl]. rewrite Hr, batch_size_snoc, Hrun. by rewrite N.add_assoc.
      * destruct (IH _ [] _ _ _ (running + lenN c)%N ids s1 (eq_sym (N.add_0_r _)) Hl)
          as (new & -> & _).
        exists (Ok (batch ++ [c]) :: new). rewrite <- app_assoc. split; [done|].
        cbn [foldl]. rewrite Hr. by erewrite receive_failed.
    + intros Hl. apply (IH _ _ _ _ _ total ids s); [|done]. rewrite batch_size_snoc. lia.
  - intros [= <-]. destruct batch as [|b batch].
    + exists []. rewrite app_nil_r. split; [done|]. cbn. unfold outcome. cbn.
      assert (running = total) as -> by (rewrite Hrun; apply N.add_0_r). done.
    + exists [Ok (b :: batch)]. split; [done|]. cbn [foldl]. rewrite receive_ok.
      destruct (checked_hash_chunks hash_chunks (b :: batch) s) as [[hs|e] s1]; [|done].
      unfold outcome. cbn [rs_first_err rs_total rs_chunks rs_sink]. by rewrite Hrun.
  - intros [= <-]. by exists [Err (WtIo e)].
Qed.

Lemma cutter_total fuel : ∀ data cr running batch sent,
  reader_ok left v1 data cr → length data < fuel →
  ∃ msgs, loop fuel (cutter_step path)
    {| cs_chunker := cr; cs_running := running; cs_batch := batch; cs_sent := sent |}
    = Some (Some msgs).
Proof.
  induction fuel as [|fuel IH]; intros data cr running batch sent Hcr Hf; [lia|].
  cbn [loop]. unfold cutter_step at 1. cbn [cs_chunker cs_running cs_batch cs_sent].
  destruct (next_chunk_ok left v1 cdc_ok_v1 data cr Hcr) as (r & cr' & -> & Hq).
  destruct r as [[c|]|e]; [|by eexists..]. destruct Hq as (Hne & _ & Hcr').
  pose proof (length_rest data Hne). destruct (add_size path running c); [|by eexists].
  destruct (_ =? _); (eapply IH; [exact Hcr'|lia]).
Qed.

Lemma pipelined_ok fuel reader s :
  length (left reader) < fuel →
  store_large_file_streaming_pipelined path hash_chunks fuel reader s =
  store_large_file_streaming_batched path hash_chunks fuel reader s.
Proof.
  intros Hf. unfold store_large_file_streaming_pipelined, store_large_file_streaming_batched.
  destruct (cutter_total fuel (left reader) (ChunkReader_new v1 reader) 0 [] []) as [msgs Hm];
    [by apply new_ok|done|]. rewrite Hm.
  destruct (cutter_batched fuel _ [] _ _ 0 0 [] s eq_refl Hm) as (new & -> & ->).
  cbn [mbind option_bind app]. unfold outcome.
  by destruct (rs_first_err (foldl _ _ _)).
Qed.
End streaming.

(** ** The theorems *)

Section theorems.
Context `{B : Blake3, BI : !Blake3Incremental}.

Lemma ObjectStore_roomy (now : option N) : roomy (ObjectSink0 := ObjectStore_sink now) intact.
Proof.
  intros st Hi.
  assert (∀ bs, (lenN bs <= ROOM)%N → is_ok (write now bs st).1 = true) as Hw.
  { intros bs Hl. pose proof (write_ok now bs st Hi) as H. cbv zeta in H.
    destruct (N.ltb_spec MAX_RAW_OBJECT_SIZE (lenN bs)) as [Hm|_].
    - unfold ROOM in Hl. unfold MAX_RAW_OBJECT_SIZE in Hm. lia.
    - by destruct H as (st' & -> & _). }
  split; [intros parts _|intros bs]; apply Hw.
Qed.

Lemma store_chunks_batches {S} `{!ObjectSource S, !ObjectSink S} I view `{!Keeper I view} :
  hashes_batches I view (λ batch, store_chunks batch []).
Proof.
  intros batch s Hs. destruct (store_chunks_ok I view batch [] s Hs) as [Hg Hh]. split; [done|]. split.
  - intros hs E _. by destruct (Hh hs E) as (new & -> & ? & ?).
  - intros Hroom Hsm. pose proof (store_chunks_total I view batch Hroom Hsm [] s Hs) as Hok.
    destruct (store_chunks batch [] s) as [[hs|e] s']; [|done]. exists hs. split; [done|].
    destruct (Hh hs eq_refl) as (new & -> & Hn & _). apply chunk_ids_length in Hn.
    unfold lenN in Hn. cbn. lia.
Qed.

(** C21: Storing a file of at most [MAX_FILE_BYTES] in an object store whose files are intact
    succeeds, whether as one blob or as chunks and a manifest; the id it gives is
    the one that [hash_file_object] computes without storing; the store stays
    intact, what could be read still can be; and reading the content under the id
    gives the file back, unless the store already held other bytes with the id of
    one of the objects written (an explicit hash collision). *)
Theorem store_file_object_spec (now : option N) (data : bytes) (st : ObjectStore)
    (Hi : intact st) (Hmax : (lenN data <= MAX_FILE_BYTES)%N) :
  ∃ id st', store_file_object (ObjectSink0 := ObjectStore_sink now) data st = (Ok id, st') ∧
    hash_file_object data = Ok id ∧ grows intact read st st' ∧ stored_as read data st' id.
Proof.
  pose proof (ObjectStore_keeper now). pose proof (ObjectStore_roomy now) as Hroom.
  pose proof (store_file_object_total (ObjectSink0 := ObjectStore_sink now) intact read data st Hroom Hi Hmax) as Hok.
  destruct (store_file_object_ok (ObjectSink0 := ObjectStore_sink now) intact read data st Hi Hmax) as [Hg Hid].
  destruct (store_file_object data st) as [[id|e] st']; [|done].
  exists id, st'. by destruct (Hid id eq_refl).
Qed.

(** C22: Streaming large content into a store that keeps what it is given, chunk by
    chunk, by batches through a callback, or with the cutter and the callback as two
    ends of a channel, ends; an id that it gives is that of the manifest of the whole
    content, the one [hash_file_object] computes for large content, and the content
    reads back under it (or there is an explicit collision); and into a store with
    room for the objects it fails only when the reader does or the content exceeds
    [MAX_FILE_BYTES]. *)
Theorem streaming_ingest_spec {S} `{!ObjectSource S, !ObjectSink S} (I : S → Prop)
    (view : S → hash32 → result StoreError bytes) `{V : !Keeper I view}
    {R} `{!Read R io_error} (left : R → bytes) `{!ReadsStream left} (path : bytes)
    (hash_chunks : list bytes → ME WorktreeError S (list hash32)) (fuel : nat) (reader : R) (s : S)
    (Hlaw : hashes_batches I view hash_chunks) (Hs : I s) (Hf : length (left reader) < fuel) :
  streaming_post I view (R := R) path (left reader) s (store_large_file_streaming path fuel reader s) ∧
  streaming_post I view (R := R) path (left reader) s
    (store_large_file_streaming_batched path hash_chunks fuel reader s) ∧
  streaming_post I view (R := R) path (left reader) s
    (store_large_file_streaming_pipelined path hash_chunks fuel reader s).
Proof.
  rewrite (pipelined_ok left) by done.
  split_and!; [by apply streaming_ok|by apply batched_ok|by apply batched_ok].
Qed.

(** Whatever the callback does, the pipelined streaming gives exactly the result
    and the final store that the batched loop in one thread gives: same ids, same
    manifest, same first error. *)
Theorem pipelined_is_batched {S} `{!ObjectSource S, !ObjectSink S}
    {R} `{!Read R io_error} (left : R → bytes) `{!ReadsStream left} (path : bytes)
    (hash_chunks : list bytes → ME WorktreeError S (list hash32)) (fuel : nat) (reader : R) (s : S)
    (Hf : length (left reader) < fuel) :
  store_large_file_streaming_pipelined path hash_chunks fuel reader s =
  store_large_file_streaming_batched path hash_chunks fuel reader s.
Proof. by apply (pipelined_ok left). Qed.
End theorems.

(** ** Examples *)

Import Toy.

(** A reader that gives at most five bytes at a time. *)
#[local] Instance five_read : Read bytes io_error :=
  λ bs n, (Ok (take (Nat.min n 5) bs), drop (Nat.min n 5) bs).

#[local] Instance five_stream : ReadsStream (R := bytes) id.
Proof.
  intros bs n. cbn. split_and!; [by rewrite take_drop|rewrite length_take; lia|].
  destruct bs, n; cbn; auto. by destruct n.
Qed.

Definition ex_disk : ObjectStore := {| disk := ∅ |}.
Definition ex_text : bytes := b# "some file content".

Lemma ex_disk_intact : intact ex_disk.
Proof. intros p f H. cbn in H. by rewrite lookup_empty in H. Qed.

#[local] Instance ex_keeper : @Keeper ObjectStore _ (ObjectStore_sink (Some 5%N)) toy_blake3 intact read :=
  ObjectStore_keeper (Some 5%N).

Lemma store_file_object_spec_witness :
  ∃ id st', store_file_object (ObjectSink0 := ObjectStore_sink (Some 5%N)) ex_text ex_disk = (Ok id, st') ∧
    hash_file_object ex_text = Ok id ∧ grows intact read ex_disk st' ∧ stored_as read ex_text st' id.
Proof.
  apply (store_file_object_spec (Some 5%N) ex_text ex_disk ex_disk_intact).
  vm_compute. congruence.
Defined.

Lemma streaming_ingest_spec_witness :
  let sink := ObjectStore_sink (Some 5%N) in
  let cb := λ batch, store_chunks (ObjectSink0 := sink) batch [] in
  streaming_post (ObjectSink0 := sink) intact read (R := bytes) (b# "f") ex_text ex_disk
    (store_large_file_streaming (ObjectSink0 := sink) (b# "f") 20 ex_text ex_disk) ∧
  streaming_post (ObjectSink0 := sink) intact read (R := bytes) (b# "f") ex_text ex_disk
    (store_large_file_streaming_batched (ObjectSink0 := sink) (b# "f") cb 20 ex_text ex_disk) ∧
  streaming_post (ObjectSink0 := sink) intact read (R := bytes) (b# "f") ex_text ex_disk
    (store_large_file_streaming_pipelined (ObjectSink0 := sink) (b# "f") cb 20 ex_text ex_disk).
Proof.
  apply (streaming_ingest_spec intact read (R := bytes) id (b# "f"));
    [apply (store_chunks_batches intact read)|exact ex_disk_intact|cbn; lia].
Defined.

(** A callback that drops a hash, so that the check of the length fails. *)
Lemma pipelined_is_batched_witness :
  let sink := ObjectStore_sink (Some 5%N) in
  let cb := λ batch, store_chunks (ObjectSink0 := sink) (tail batch) [] in
  store_large_file_streaming_pipelined (ObjectSink0 := sink) (b# "f") cb 20 ex_text ex_disk =
  store_large_file_streaming_batched (ObjectSink0 := sink) (b# "f") cb 20 ex_text ex_disk.
Proof. apply (pipelined_is_batched (R := bytes) id). cbn. lia. Defined.
