(* ===== verification/Index.v ===== *)
(** * The staging index

    Models [rust/crates/mkit-core/src/index.rs]: the entries with the map from paths to
    their positions, every mutation of both, the file format with its checksum, the
    racy-clean rule of reading, and the index of a committed tree. A path is the bytes
    of a [String]. A method that indexes [entries] gives [None] where the code panics. *)

From S2P Require Import Prelude Hash Object Store Utf8.

Definition MAGIC : bytes := b# "MKIX".
Definition FORMAT_VERSION : byte := Byte.x03.
Definition MAX_INDEX_BYTES : N := 64 * 1024 * 1024.
Definition MAX_PATH_LEN : N := 4096.

Module EntryStatus.
Inductive t := Removed | Blob | Tree | Symlink | Executable.

#[global] Instance t_eq_dec : EqDecision t.
Proof. solve_decision. Defined.

(** [status as u8]. *)
Definition to_byte (s : t) : byte :=
  match s with
  | Removed => Byte.x00
  | Blob => Byte.x01
  | Tree => Byte.x02
  | Symlink => Byte.x03
  | Executable => Byte.x04
  end.

Definition from_byte (b : byte) : option t :=
  match b with
  | Byte.x00 => Some Removed
  | Byte.x01 => Some Blob
  | Byte.x02 => Some Tree
  | Byte.x03 => Some Symlink
  | Byte.x04 => Some Executable
  | _ => None
  end.
End EntryStatus.

Record IndexEntry := {
  ie_path : bytes;
  ie_status : EntryStatus.t;
  ie_object_hash : hash32;
  ie_mtime_ns : N;
  ie_size : N;
  ie_ino : N;
  ie_ctime_ns : N
}.

Record Index := {
  idx_entries : list IndexEntry;
  by_path : gmap bytes nat
}.

Definition Index_new : Index := {| idx_entries := []; by_path := ∅ |}.

(** ** Paths *)

Definition SLASH : byte := Byte.x2f.

(** [path.split('/')]. *)
Fixpoint split_slash (path : bytes) : list bytes :=
  match path with
  | [] => [[]]
  | c :: path =>
      if bool_decide (c = SLASH) then [] :: split_slash path
      else match split_slash path with
           | s :: rest => (c :: s) :: rest
           | [] => [[c]]
           end
  end.

(** [segs.join("/")]. *)
Fixpoint join_slash (segs : list bytes) : bytes :=
  match segs with
  | [] => []
  | [s] => s
  | s :: segs => s ++ b# "/" ++ join_slash segs
  end.

(** The positions of [match_indices('/')], counted from [i]. *)
Fixpoint slash_indices (i : nat) (path : bytes) : list nat :=
  match path with
  | [] => []
  | c :: path =>
      if bool_decide (c = SLASH) then i :: slash_indices (S i) path
      else slash_indices (S i) path
  end.

Definition ancestor_prefixes (path : bytes) : list bytes :=
  (λ i, take i path) <$> slash_indices 0 path.

Definition path_descends_from (path base : bytes) : bool :=
  (length base <? length path) && starts_with base path
  && bool_decide (path !! length base = Some SLASH).

Definition bad_segment (part : bytes) : bool :=
  bool_decide (part = []) || bytes_eqb part (b# ".") || bytes_eqb part (b# "..")
  || existsb (λ c, match c with Byte.x00 | Byte.x5c => true | _ => false end) part.

Definition validate_index_path (path : bytes) : bool :=
  if bool_decide (path = []) then false
  else if starts_with (b# "/") path then false
  else if (MAX_PATH_LEN <? lenN path)%N then false
  else if bytes_eqb path (b# ".mkit") || bytes_eqb path (b# ".git") then false
  else if starts_with (b# ".mkit/") path || starts_with (b# ".git/") path then false
  else negb (existsb bad_segment (split_slash path)).

(** ** The map of paths *)

(** [by_path] cleared and filled again, position after position. *)
Fixpoint index_paths (i : nat) (es : list IndexEntry) (m : gmap bytes nat) : gmap bytes nat :=
  match es with
  | [] => m
  | e :: es => index_paths (S i) es (<[ie_path e := i]> m)
  end.

Definition rebuild_path_index (es : list IndexEntry) : Index :=
  {| idx_entries := es; by_path := index_paths 0 es ∅ |}.

Definition from_entries (es : list IndexEntry) : Index := rebuild_path_index es.

(** What [debug_assert_consistent] asserts. *)
Definition debug_assert_consistent (idx : Index) : bool :=
  (size (by_path idx) =? length (idx_entries idx))
  && forallb (λ '(i, e), bool_decide (by_path idx !! ie_path e = Some i))
       (imap (λ i e, (i, e)) (idx_entries idx)).

Fixpoint take_while {A} (f : A → bool) (l : list A) : list A :=
  match l with
  | [] => []
  | x :: l => if f x then x :: take_while f l else []
  end.

(** [by_path.range(from..)]: the items in order, from a key on. *)
Definition items (m : gmap bytes nat) : list (bytes * nat) :=
  stable_sort (λ a b, bytes_leb a.1 b.1) (map_to_list m).
Definition range_from (from : bytes) (m : gmap bytes nat) : list (bytes * nat) :=
  List.filter (λ kv, bytes_leb from kv.1) (items m).

Definition is_live (e : IndexEntry) : bool := negb (bool_decide (ie_status e = EntryStatus.Removed)).

(** [self.entries[pos].status != Removed]. *)
Definition live_at (idx : Index) (pos : nat) : option bool := is_live <$> idx_entries idx !! pos.

Definition find_entry (idx : Index) (path : bytes) : option nat := by_path idx !! path.

(** [.any(..)] of positions. *)
Fixpoint any_live (idx : Index) (ps : list nat) : option bool :=
  match ps with
  | [] => Some false
  | pos :: ps => live ← live_at idx pos; if live : bool then Some true else any_live idx ps
  end.

Definition tracks_path_or_descendant (idx : Index) (path : bytes) : option bool :=
  here ← match by_path idx !! path with
         | Some pos => live_at idx pos
         | None => Some false
         end;
  if here : bool then Some true
  else
    let prefix := path ++ b# "/" in
    any_live idx
      (take_while (λ kv, starts_with prefix kv.1) (range_from prefix (by_path idx))).*2.

Definition has_tracked_file_at (idx : Index) (path : bytes) : option bool :=
  match find_entry idx path with
  | Some i => live_at idx i
  | None => Some false
  end.

Definition staged_count (idx : Index) : nat := length (List.filter is_live (idx_entries idx)).

(** ** Mutation *)

Definition upsert_entry (idx : Index) (entry : IndexEntry) : option Index :=
  match by_path idx !! ie_path entry with
  | Some pos =>
      if pos <? length (idx_entries idx) then
        Some {| idx_entries := <[pos := entry]> (idx_entries idx); by_path := by_path idx |}
      else None
  | None =>
      let pos := length (idx_entries idx) in
      Some {| idx_entries := idx_entries idx ++ [entry];
              by_path := <[ie_path entry := pos]> (by_path idx) |}
  end.

Definition remove_entry_at (idx : Index) (pos : nat) : option (IndexEntry * Index) :=
  removed ← idx_entries idx !! pos;
  Some (removed, rebuild_path_index (delete pos (idx_entries idx))).

(** The outer option is a panic, the inner one the result. *)
Definition remove_path (idx : Index) (path : bytes) : option (option IndexEntry * Index) :=
  match find_entry idx path with
  | Some pos => '(removed, idx) ← remove_entry_at idx pos; Some (Some removed, idx)
  | None => Some (None, idx)
  end.

Definition retain_entries (keep : IndexEntry → bool) (idx : Index) : Index :=
  rebuild_path_index (List.filter keep (idx_entries idx)).

Definition keeps_beside (path : bytes) (entry : IndexEntry) : bool :=
  bytes_eqb (ie_path entry) path
  || negb (path_descends_from (ie_path entry) path || path_descends_from path (ie_path entry)).

Definition remove_directory_conflicts (idx : Index) (path : bytes) : Index :=
  let has_ancestor_conflict :=
    existsb (λ anc, bool_decide (is_Some (by_path idx !! anc))) (ancestor_prefixes path) in
  let descendant_prefix := path ++ b# "/" in
  let has_descendant_conflict :=
    match range_from descendant_prefix (by_path idx) with
    | kv :: _ => starts_with descendant_prefix kv.1
    | [] => false
    end in
  if negb has_ancestor_conflict && negb has_descendant_conflict then idx
  else rebuild_path_index (List.filter (keeps_beside path) (idx_entries idx)).

(** ** The file *)

Inductive IndexError :=
  | IxBadMagic
  | IxUnsupportedVersion (version : byte)
  | IxBadStatus (status : byte)
  | IxCorrupt
  | IxTooLarge
  | IxInvalidPath (path : bytes)
  | IxDuplicatePath (path : bytes)
  | IxRemovedHasHash (path : bytes)
  | IxInvalidPathEncoding
  | IxIo (e : io_error)
  | IxStore (e : StoreError)
  | IxNotTree
  | IxTreeTooDeep.

(** Status, object hash, four stat-cache fields and the path length. *)
Definition MIN_ENTRY_LEN : N := 67.

Definition entry_bytes (e : IndexEntry) : option bytes :=
  if (lenN (ie_path e) <=? U16_MAX)%N then
    Some (EntryStatus.to_byte (ie_status e) :: arr_bytes (ie_object_hash e)
      ++ le_bytes 8 (ie_mtime_ns e) ++ le_bytes 8 (ie_size e) ++ le_bytes 8 (ie_ino e)
      ++ le_bytes 8 (ie_ctime_ns e) ++ le_bytes 2 (lenN (ie_path e)) ++ ie_path e)
  else None.

Fixpoint entries_bytes (es : list IndexEntry) : option bytes :=
  match es with
  | [] => Some []
  | e :: es => b ← entry_bytes e; bs ← entries_bytes es; Some (b ++ bs)
  end.

Section file.
Context `{B : Blake3}.

Definition index_serialize (idx : Index) : option bytes :=
  let count := lenN (idx_entries idx) in
  if (count <=? U32_MAX)%N then
    body ← entries_bytes (idx_entries idx);
    let out := MAGIC ++ [FORMAT_VERSION] ++ le_bytes 4 count ++ body in
    Some (out ++ arr_bytes (hash out))
  else None.

(** One entry at the front of the rest of the data. *)
Definition read_entry (seen : gset bytes) (rest : bytes) : result IndexError (IndexEntry * bytes) :=
  let byte_at := nth 0 rest Byte.x00 in
  _ ← ensure (MIN_ENTRY_LEN <=? lenN rest)%N IxCorrupt;
  status ← ok_or (EntryStatus.from_byte byte_at) (IxBadStatus byte_at);
  let object_hash := arr_of 32 (slice 1 32 rest) in
  let path_len := le_val (slice 65 2 rest) in
  _ ← ensure (path_len <=? MAX_PATH_LEN)%N IxCorrupt;
  _ ← ensure (MIN_ENTRY_LEN + path_len <=? lenN rest)%N IxCorrupt;
  let path := slice 67 (N.to_nat path_len) rest in
  _ ← ensure (from_utf8 path) IxInvalidPathEncoding;
  _ ← ensure (validate_index_path path) (IxInvalidPath path);
  _ ← ensure (negb (bool_decide (path ∈ seen))) (IxDuplicatePath path);
  _ ← ensure (negb (bool_decide (status = EntryStatus.Removed) && negb (bool_decide (object_hash = ZERO))))
        (IxRemovedHasHash path);
  Ok ({| ie_path := path; ie_status := status; ie_object_hash := object_hash;
         ie_mtime_ns := le_val (slice 33 8 rest); ie_size := le_val (slice 41 8 rest);
         ie_ino := le_val (slice 49 8 rest); ie_ctime_ns := le_val (slice 57 8 rest) |},
      drop (67 + N.to_nat path_len) rest).

Fixpoint read_entries (count : nat) (seen : gset bytes) (rest : bytes)
    : result IndexError (list IndexEntry * bytes) :=
  match count with
  | 0 => Ok ([], rest)
  | S count =>
      '(e, rest) ← read_entry seen rest;
      '(es, rest) ← read_entries count ({[ie_path e]} ∪ seen) rest;
      Ok (e :: es, rest)
  end.

Definition index_deserialize (data : bytes) : result IndexError Index :=
  _ ← ensure (lenN data <=? MAX_INDEX_BYTES)%N IxTooLarge;
  _ ← ensure (9 <=? lenN data)%N IxCorrupt;
  _ ← ensure (bytes_eqb (take 4 data) MAGIC) IxBadMagic;
  let version := nth 4 data Byte.x00 in
  _ ← ensure (bool_decide (version = FORMAT_VERSION)) (IxUnsupportedVersion version);
  _ ← ensure (9 + 32 <=? lenN data)%N IxCorrupt;
  let checksum := drop (length data - 32) data in
  let data := take (length data - 32) data in
  _ ← ensure (bytes_eqb (arr_bytes (hash data)) checksum) IxCorrupt;
  let count := le_val (slice 5 4 data) in
  _ ← ensure (N.min (count * MIN_ENTRY_LEN) U64_MAX <=? lenN data)%N IxCorrupt;
  '(es, rest) ← read_entries (N.to_nat count) ∅ (drop 9 data);
  _ ← ensure (bool_decide (rest = [])) IxCorrupt;
  Ok (from_entries es).

(** ** Reading and writing the file *)

(** The file as it is opened: its bytes, and its modification time in nanoseconds
    since the epoch, if there is one. *)
Record IndexFile := {
  if_bytes : bytes;
  if_mtime : option N
}.

Definition RACY_WINDOW_NS : N := 1000000000.

(** [worktree::mtime_nanos]. *)
Definition mtime_nanos (mtime : option N) : N :=
  match mtime with Some ns => N.min ns U64_MAX | None => 0 end.

Definition is_multiple_of (a b : N) : bool := (a mod b =? 0)%N.

Definition racy_clean (index_mtime_ns : N) (e : IndexEntry) : IndexEntry :=
  let index_ns_precise := negb (is_multiple_of index_mtime_ns 1000000000) in
  if (ie_mtime_ns e =? 0)%N then e
  else
    let window :=
      if index_ns_precise && negb (is_multiple_of (ie_mtime_ns e) 1000000000)
      then (RACY_WINDOW_NS / 100)%N else RACY_WINDOW_NS in
    if (index_mtime_ns - window <=? ie_mtime_ns e)%N then
      {| ie_path := ie_path e; ie_status := ie_status e; ie_object_hash := ie_object_hash e;
         ie_mtime_ns := 0; ie_size := 0; ie_ino := 0; ie_ctime_ns := 0 |}
    else e.

(** [Ok None]: there is no file. *)
Definition read_index (file : result io_error (option IndexFile)) : result IndexError Index :=
  match file with
  | Err e => Err (IxIo e)
  | Ok None => Ok Index_new
  | Ok (Some f) =>
      _ ← ensure (negb (lenN (if_bytes f) =? 0)%N) IxCorrupt;
      _ ← ensure (lenN (if_bytes f) <=? MAX_INDEX_BYTES)%N IxTooLarge;
      idx ← index_deserialize (if_bytes f);
      Ok {| idx_entries := racy_clean (mtime_nanos (if_mtime f)) <$> idx_entries idx;
            by_path := by_path idx |}
  end.

(** The bytes that are written atomically. *)
Definition write_index (idx : Index) : option (result IndexError bytes) :=
  data ← index_serialize idx;
  Some (if (MAX_INDEX_BYTES <? lenN data)%N then Err IxTooLarge else Ok data).

(** ** The index of a tree *)

Definition ix_store {A} (r : result StoreError A) : result IndexError A :=
  match r with Ok a => Ok a | Err e => Err (IxStore e) end.

Definition status_of_mode (m : EntryMode.t) : EntryStatus.t :=
  match m with
  | EntryMode.Executable => EntryStatus.Executable
  | EntryMode.Symlink => EntryStatus.Symlink
  | _ => EntryStatus.Blob
  end.

(** [format!("{prefix}/{name}")], without the prefix when there is none. *)
Definition under_prefix (prefix name : bytes) : bytes :=
  match prefix with [] => name | _ => prefix ++ b# "/" ++ name end.

(** One entry of a tree; [sub] is the walk of a subtree. *)
Definition push_entry (sub : hash32 → bytes → list IndexEntry → result IndexError (list IndexEntry))
    (prefix : bytes) (entry : TreeEntry) (entries : list IndexEntry)
    : result IndexError (list IndexEntry) :=
  _ ← ensure (from_utf8 (te_name entry)) IxInvalidPathEncoding;
  let path := under_prefix prefix (te_name entry) in
  match te_mode entry with
  | EntryMode.Tree => sub (te_hash entry) path entries
  | mode =>
      _ ← ensure (validate_index_path path) (IxInvalidPath path);
      Ok (entries ++ [{| ie_path := path; ie_status := status_of_mode mode;
                         ie_object_hash := te_hash entry; ie_mtime_ns := 0; ie_size := 0;
                         ie_ino := 0; ie_ctime_ns := 0 |}])
  end.

Fixpoint push_entries (sub : hash32 → bytes → list IndexEntry → result IndexError (list IndexEntry))
    (prefix : bytes) (es : list TreeEntry) (entries : list IndexEntry)
    : result IndexError (list IndexEntry) :=
  match es with
  | [] => Ok entries
  | e :: es => entries ← push_entry sub prefix e entries; push_entries sub prefix es entries
  end.

(** [levels]: [MAX_TREE_DEPTH + 1 - depth]. *)
Fixpoint push_tree_entries (st : ObjectStore) (levels : nat) (tree_hash : hash32) (prefix : bytes)
    (entries : list IndexEntry) : result IndexError (list IndexEntry) :=
  match levels with
  | 0 => Err IxTreeTooDeep
  | S levels =>
      o ← ix_store (read_object st tree_hash);
      match o with
      | OTree tree => push_entries (push_tree_entries st levels) prefix (tree_entries tree) entries
      | _ => Err IxNotTree
      end
  end.

Definition from_tree (st : ObjectStore) (tree_hash : hash32) : result IndexError Index :=
  entries ← push_tree_entries st (S (N.to_nat MAX_TREE_DEPTH)) tree_hash [] [];
  Ok (from_entries entries).
End file.
