(* ===== verification/IndexFacts.v ===== *)
(** * The index keeps its map, and its file round-trips

    The entries and the map of paths always agree, so every operation is the one of a
    finite map from paths to entries; the file format is a bijection between well-formed
    entry lists and the files that are accepted; the racy-clean rule never trusts a
    recent stat. *)

From S2P Require Import Prelude Hash Object Store Utf8 Index.

(** ** Order of paths *)

Lemma bytes_cmp_cons x a y b :
  bytes_cmp (x :: a) (y :: b) = match (b2n x ?= b2n y)%N with Eq => bytes_cmp a b | c => c end.
Proof. done. Qed.

(** What lies between a prefix and something that starts with it starts with it. *)
Lemma starts_with_between p a b :
  bytes_leb p a = true → bytes_leb a b = true → starts_with p b = true → starts_with p a = true.
Proof.
  unfold bytes_leb. revert a b. induction p as [|x p IH]; intros [|y a] [|z b]; try done.
  rewrite !bytes_cmp_cons. cbn [starts_with]. intros H1 H2 [->%bool_decide_eq_true H3]%andb_true_iff.
  destruct (N.compare_spec (b2n z) (b2n y)) as [E|E|E]; [|..].
  - apply b2n_inj in E as ->. rewrite N.compare_refl in H2. rewrite bool_decide_eq_true_2 by done.
    by apply (IH a b).
  - destruct (N.compare_spec (b2n y) (b2n z)); [lia|lia|done].
  - done.
Qed.

Lemma starts_with_leb p a : starts_with p a = true → bytes_leb p a = true.
Proof.
  unfold bytes_leb. revert a. induction p as [|x p IH]; intros [|y a]; try done.
  cbn [starts_with]. intros [->%bool_decide_eq_true H]%andb_true_iff.
  rewrite bytes_cmp_cons, N.compare_refl. by apply IH.
Qed.

Lemma elem_of_filter_list {A} (f : A → bool) l x : x ∈ List.filter f l ↔ f x = true ∧ x ∈ l.
Proof. rewrite !list_elem_of_In, filter_In. tauto. Qed.

Lemma elem_of_items m k v : (k, v) ∈ items m ↔ m !! k = Some v.
Proof. unfold items. rewrite (stable_sort_perm _ _). by rewrite elem_of_map_to_list. Qed.

Lemma elem_of_range_from from m k v :
  (k, v) ∈ range_from from m ↔ bytes_leb from k = true ∧ m !! k = Some v.
Proof. unfold range_from. rewrite elem_of_filter_list, elem_of_items. done. Qed.

Definition key_le (a b : bytes * nat) : Prop := bytes_leb a.1 b.1 = true.

Lemma range_from_sorted from m : StronglySorted key_le (range_from from m).
Proof.
  assert (Transitive key_le) as Htr.
  { intros a b c. unfold key_le, bytes_leb.
    destruct (bytes_cmp a.1 b.1) eqn:E1; [apply bytes_cmp_eq in E1 as ->; auto| |done].
    destruct (bytes_cmp b.1 c.1) eqn:E2; [apply bytes_cmp_eq in E2 as <-; by rewrite E1| |done].
    by rewrite (bytes_cmp_lt_trans _ _ _ E1 E2). }
  assert (StronglySorted key_le (items m)) as Hs.
  { apply Sorted_StronglySorted; [exact Htr|]. apply stable_sort_sorted.
    intros a b. unfold bytes_leb. rewrite (bytes_cmp_antisym a.1 b.1).
    destruct (bytes_cmp a.1 b.1); auto. }
  unfold range_from. induction Hs as [|x l Hl IH Hx]; [constructor|]. cbn.
  destruct (bytes_leb from x.1); [|done]. constructor; [done|].
  apply list.Forall_forall. intros y [_ Hy]%elem_of_filter_list.
  eapply list.Forall_forall in Hx; [exact Hx|done].
Qed.

(** Scanning a sorted range while the keys start with the prefix finds all that do. *)
Lemma take_while_prefix p l k v :
  StronglySorted key_le l → (∀ kv, kv ∈ l → bytes_leb p kv.1 = true) →
  (k, v) ∈ take_while (λ kv, starts_with p kv.1) l ↔ (k, v) ∈ l ∧ starts_with p k = true.
Proof.
  intros Hs. induction Hs as [|x l Hl IH Hx]; intros Hp; cbn [take_while].
  { by rewrite elem_of_nil; split; [|intros [? _]]. }
  destruct (starts_with p x.1) eqn:E.
  - rewrite !elem_of_cons, IH by (intros; apply Hp; by right). split; [|naive_solver].
    intros [<-|[? ?]]; [split; [by left|done]|split; [by right|done]].
  - split; [by intros ?%elem_of_nil|]. intros [[<-|Hin]%elem_of_cons Hk]; [cbn in E; congruence|].
    eapply list.Forall_forall in Hx; [|exact Hin].
    assert (starts_with p x.1 = true); [|congruence].
    apply (starts_with_between p x.1 k); [|exact Hx|done]. apply Hp. by left.
Qed.

Lemma range_prefix p m k v :
  (k, v) ∈ take_while (λ kv, starts_with p kv.1) (range_from p m) ↔
  m !! k = Some v ∧ starts_with p k = true.
Proof.
  rewrite take_while_prefix; [|apply range_from_sorted|].
  - rewrite elem_of_range_from. split; [tauto|]. intros [? ?]. split_and!; [|done..].
    by apply starts_with_leb.
  - intros [k' v'] [? _]%elem_of_range_from. done.
Qed.

(** The first key of the range tells whether any key has the prefix. *)
Lemma range_first p m :
  match range_from p m with kv :: _ => starts_with p kv.1 | [] => false end = true ↔
  ∃ k, is_Some (m !! k) ∧ starts_with p k = true.
Proof.
  pose proof (range_prefix p m) as Hr.
  destruct (range_from p m) as [|[k v] l] eqn:E; cbn [take_while] in Hr.
  - split; [done|]. intros (k & [v Hv] & Hk). by pose proof (proj2 (Hr k v) (conj Hv Hk)) as ?%elem_of_nil.
  - cbn [fst] in *. split.
    + intros Hk. exists k. split; [|done]. rewrite Hk in Hr. destruct (proj1 (Hr k v)); [by left|eauto].
    + intros (k' & [v' Hv] & Hk'). destruct (starts_with p k); [done|].
      by pose proof (proj2 (Hr k' v') (conj Hv Hk')) as ?%elem_of_nil.
Qed.

(** ** The map agrees with the entries *)

Definition paths (es : list IndexEntry) : list bytes := ie_path <$> es.

Lemma elem_of_paths p es : p ∈ paths es ↔ ∃ i e, es !! i = Some e ∧ ie_path e = p.
Proof.
  unfold paths. rewrite list_elem_of_fmap. split.
  - intros (e & -> & [i Hi]%list_elem_of_lookup). eauto.
  - intros (i & e & Hi & <-). exists e. split; [done|]. apply list_elem_of_lookup. eauto.
Qed.

(** A path is in the map exactly with the position of its entry. *)
Definition wf_index (idx : Index) : Prop :=
  ∀ p i, by_path idx !! p = Some i ↔ ∃ e, idx_entries idx !! i = Some e ∧ ie_path e = p.

Lemma wf_index_NoDup idx : wf_index idx → NoDup (paths (idx_entries idx)).
Proof.
  intros Hw. apply NoDup_alt. intros i j p Hi Hj. unfold paths in *. rewrite list_lookup_fmap in Hi, Hj.
  destruct (idx_entries idx !! i) as [e|] eqn:Ei; [|done].
  destruct (idx_entries idx !! j) as [e'|] eqn:Ej; [|done].
  injection Hi as Hi. injection Hj as Hj.
  assert (by_path idx !! p = Some i) as H1 by (apply Hw; eauto).
  assert (by_path idx !! p = Some j) as H2 by (apply Hw; eauto). congruence.
Qed.

Lemma index_paths_lookup es : ∀ i m p j,
  NoDup (paths es) →
  index_paths i es m !! p = Some j ↔
  (∃ k e, j = i + k ∧ es !! k = Some e ∧ ie_path e = p) ∨ (p ∉ paths es) ∧ (m !! p = Some j).
Proof.
  induction es as [|e es IH]; intros i m p j Hnd; cbn [index_paths].
  { split; [intros; right; split; [apply not_elem_of_nil|done]|].
    intros [(k & e & _ & Hk & _)|[_ H]]; [by rewrite lookup_nil in Hk|done]. }
  unfold paths in *. rewrite fmap_cons in *. inv Hnd as [|? ? Hn Hnd']. rewrite IH by done.
  rewrite not_elem_of_cons. split.
  - intros [(k & e' & -> & Hk & Hp)|[Hp Hm]].
    + left. exists (S k), e'. split; [lia|done].
    + apply lookup_insert_Some in Hm as [[<- <-]|[Hne Hm]]; [left; exists 0, e; split; [lia|done]|].
      right. split; [split; [congruence|done]|done].
  - intros [([|k] & e' & -> & Hk & Hp)|[[Hne Hp] Hm]].
    + injection Hk as ->. right. subst p. split; [done|]. rewrite lookup_insert_eq. f_equal. lia.
    + left. exists k, e'. split; [lia|done].
    + right. split; [done|]. by rewrite lookup_insert_ne by congruence.
Qed.

Lemma rebuild_wf es : NoDup (paths es) → wf_index (rebuild_path_index es).
Proof.
  intros Hnd p i. cbn. rewrite index_paths_lookup by done. rewrite lookup_empty. split.
  - intros [(k & e & -> & H)|[_ H]]; [eauto|done].
  - intros (e & H). left. by exists i, e.
Qed.

(** What the debug assertion checks is the same. *)
Lemma debug_assert_consistent_spec idx :
  debug_assert_consistent idx = true ↔ wf_index idx.
Proof.
  unfold debug_assert_consistent, wf_index. rewrite andb_true_iff, Nat.eqb_eq, forallb_forall.
  destruct idx as [es m]. cbn [idx_entries by_path].
  assert ((∀ x, In x (imap (λ i e, (i, e)) es) → (let '(i, e) := x in bool_decide (m !! ie_path e = Some i)) = true)
    ↔ ∀ i e, es !! i = Some e → m !! ie_path e = Some i) as ->.
  { split.
    - intros H i e He. specialize (H (i, e)). apply bool_decide_eq_true in H; [done|].
      apply list_elem_of_In, elem_of_lookup_imap. eauto.
    - intros H [i e] Hin%list_elem_of_In. apply elem_of_lookup_imap in Hin as (j & e' & [= -> ->] & He).
      apply bool_decide_eq_true. auto. }
  split.
  - intros [Hsz H]. assert (NoDup (paths es)) as Hnd.
    { apply NoDup_alt. intros i j p. unfold paths. rewrite !list_lookup_fmap, !fmap_Some.
      intros (e & He & ->) (e' & He' & E). apply H in He, He'. rewrite E in He. congruence. }
    assert (dom m = list_to_set (paths es)) as Hd.
    { symmetry. apply set_subseteq_size_eq.
      - intros p Hp%elem_of_list_to_set. apply elem_of_paths in Hp as (i & e & He & <-).
        apply elem_of_dom. eauto.
      - rewrite size_dom, size_list_to_set by done. unfold paths. rewrite length_fmap. lia. }
    intros p i. split.
    + intros Hp. assert (p ∈ paths es) as Hin.
      { apply (elem_of_list_to_set (C := gset bytes)). rewrite <- Hd. apply elem_of_dom. eauto. }
      apply elem_of_paths in Hin as (j & e & He & <-).
      exists e. split; [|done]. pose proof (H j e He). congruence.
    + intros (e & He & <-). by apply H.
  - intros Hw. split; [|intros i e He; apply Hw; eauto].
    pose proof (wf_index_NoDup {| idx_entries := es; by_path := m |} Hw) as Hnd. cbn in Hnd.
    rewrite <- size_dom. assert (dom m = list_to_set (paths es)) as ->.
    { apply set_eq. intros p. rewrite elem_of_dom, elem_of_list_to_set, elem_of_paths. split.
      - intros [i Hi%Hw]. eauto.
      - intros (i & e & He & <-). exists i. apply Hw. eauto. }
    rewrite size_list_to_set by done. unfold paths. by rewrite length_fmap.
Qed.

(** ** The index as a finite map *)

Definition contents_of (es : list IndexEntry) : gmap bytes IndexEntry :=
  list_to_map ((λ e, (ie_path e, e)) <$> es).
Definition contents (idx : Index) : gmap bytes IndexEntry := contents_of (idx_entries idx).

Lemma contents_lookup es p e :
  NoDup (paths es) → contents_of es !! p = Some e ↔ e ∈ es ∧ ie_path e = p.
Proof.
  intros Hnd. unfold contents_of.
  rewrite <- elem_of_list_to_map by (rewrite <- list_fmap_compose; exact Hnd).
  rewrite list_elem_of_fmap. naive_solver.
Qed.

Lemma position_contents idx p i :
  wf_index idx → by_path idx !! p = Some i →
  ∃ e, idx_entries idx !! i = Some e ∧ ie_path e = p ∧ contents idx !! p = Some e.
Proof.
  intros Hw (e & He & Hp)%Hw. exists e. split_and!; [done..|].
  apply contents_lookup; [by apply wf_index_NoDup|]. split; [|done].
  apply list_elem_of_lookup. eauto.
Qed.

Lemma no_position_contents idx p :
  wf_index idx → by_path idx !! p = None → contents idx !! p = None.
Proof.
  intros Hw Hp. apply eq_None_not_Some. intros [e [[i He]%list_elem_of_lookup <-]%contents_lookup].
  - assert (by_path idx !! ie_path e = Some i) by (apply Hw; eauto). congruence.
  - by apply wf_index_NoDup.
Qed.

Lemma filter_paths_NoDup f es : NoDup (paths es) → NoDup (paths (List.filter f es)).
Proof.
  unfold paths. induction es as [|e es IH]; [done|]. rewrite fmap_cons. intros H. inv H as [|? ? Hn H'].
  cbn [List.filter]. destruct (f e); [|by apply IH]. rewrite fmap_cons. constructor; [|by apply IH].
  intros (e' & Ee & [_ Hin]%elem_of_filter_list)%list_elem_of_fmap. apply Hn.
  apply list_elem_of_fmap. eauto.
Qed.

Lemma contents_filter f es :
  NoDup (paths es) → contents_of (List.filter f es) = filter (λ kv, f kv.2 = true) (contents_of es).
Proof.
  intros Hnd. apply map_eq. intros p. apply option_eq. intros e.
  rewrite contents_lookup by (by apply filter_paths_NoDup).
  rewrite map_lookup_filter_Some, contents_lookup, elem_of_filter_list by done. cbn. tauto.
Qed.

Lemma retain_ok keep idx :
  wf_index idx →
  wf_index (retain_entries keep idx) ∧
  contents (retain_entries keep idx) = filter (λ kv, keep kv.2 = true) (contents idx).
Proof.
  intros Hw%wf_index_NoDup. split; [by apply rebuild_wf, filter_paths_NoDup|by apply contents_filter].
Qed.

Lemma delete_filter es i e :
  NoDup (paths es) → es !! i = Some e →
  delete i es = List.filter (λ e', negb (bytes_eqb (ie_path e') (ie_path e))) es.
Proof.
  unfold paths. revert i. induction es as [|x es IH]; intros [|i]; try done; cbn [lookup list_lookup];
    rewrite fmap_cons; intros H; inv H as [|? ? Hn Hnd].
  - intros [= ->]. cbn. rewrite (proj2 (bytes_eqb_eq _ _) eq_refl). cbn.
    clear IH. induction es as [|y es IH]; [done|]. rewrite fmap_cons in *. inv Hnd as [|? ? Hy Hnd'].
    apply not_elem_of_cons in Hn as [Hne Hn]. cbn.
    destruct (bytes_eqb (ie_path y) (ie_path e)) eqn:E; [by apply bytes_eqb_eq in E|].
    cbn. by rewrite <- IH.
  - intros He. change (delete (S i) (x :: es)) with (x :: delete i es). cbn [List.filter].
    rewrite (IH i) by done.
    destruct (bytes_eqb (ie_path x) (ie_path e)) eqn:E; [|done]. apply bytes_eqb_eq in E.
    destruct Hn. rewrite E. apply list_elem_of_fmap. exists e. split; [done|].
    apply list_elem_of_lookup. eauto.
Qed.

Lemma remove_path_ok idx p :
  wf_index idx →
  ∃ idx', remove_path idx p = Some (contents idx !! p, idx') ∧ wf_index idx' ∧
    contents idx' = delete p (contents idx).
Proof.
  intros Hw. unfold remove_path, find_entry. destruct (by_path idx !! p) as [i|] eqn:Hp.
  - destruct (position_contents idx p i Hw Hp) as (e & He & <- & ->).
    unfold remove_entry_at. rewrite He. cbn [mbind option_bind]. eexists. split; [done|].
    pose proof (wf_index_NoDup idx Hw) as Hnd. unfold contents. cbn [rebuild_path_index idx_entries].
    rewrite (delete_filter _ i e Hnd He). split; [by apply rebuild_wf, filter_paths_NoDup|].
    rewrite contents_filter by done. apply map_eq. intros q. apply option_eq. intros e'.
    rewrite map_lookup_filter_Some, lookup_delete_Some, (contents_lookup _ _ _ Hnd). cbn.
    rewrite negb_true_iff, <- not_true_iff_false, bytes_eqb_eq. naive_solver.
  - rewrite (no_position_contents idx p Hw Hp). eexists. split; [done|]. split; [done|].
    symmetry. by apply delete_id, no_position_contents.
Qed.

Lemma upsert_ok idx e :
  wf_index idx →
  ∃ idx', upsert_entry idx e = Some idx' ∧ wf_index idx' ∧
    contents idx' = <[ie_path e := e]> (contents idx).
Proof.
  intros Hw. pose proof (wf_index_NoDup idx Hw) as Hnd. unfold upsert_entry.
  destruct (by_path idx !! ie_path e) as [i|] eqn:Hp.
  - destruct (position_contents idx _ i Hw Hp) as (e0 & He & Hpath & _).
    pose proof (lookup_lt_Some _ _ _ He) as Hlt. rewrite (proj2 (Nat.ltb_lt _ _)) by done.
    eexists. split; [done|].
    assert (paths (<[i:=e]> (idx_entries idx)) = paths (idx_entries idx)) as Hps.
    { unfold paths. rewrite list_fmap_insert. apply list_insert_id.
      rewrite list_lookup_fmap, He. cbn. by rewrite Hpath. }
    split.
    + intros p j. cbn. rewrite (Hw p j). split.
      * intros (e' & He' & Hp'). destruct (decide (i = j)) as [<-|Hne].
        -- exists e. rewrite list_lookup_insert_eq by done. split; [done|]. congruence.
        -- exists e'. by rewrite list_lookup_insert_ne.
      * intros (e' & He' & Hp'). destruct (decide (i = j)) as [<-|Hne].
        -- rewrite list_lookup_insert_eq in He' by done. injection He' as <-. exists e0.
           split; [done|]. congruence.
        -- rewrite list_lookup_insert_ne in He' by done. eauto.
    + unfold contents. cbn [idx_entries]. apply map_eq. intros p. apply option_eq. intros e'.
      rewrite contents_lookup by (by rewrite Hps). rewrite lookup_insert_Some, contents_lookup by done.
      split.
      * intros [[j Hj]%list_elem_of_lookup Hp']. destruct (decide (i = j)) as [<-|Hne].
        -- rewrite list_lookup_insert_eq in Hj by done. injection Hj as <-. auto.
        -- rewrite list_lookup_insert_ne in Hj by done. right. split.
           ++ intros Heq. assert (by_path idx !! p = Some j) by (apply Hw; eauto). congruence.
           ++ split; [|done]. apply list_elem_of_lookup. eauto.
      * intros [[<- <-]|[Hne [[j Hj]%list_elem_of_lookup Hp']]].
        -- split; [|done]. apply list_elem_of_lookup. exists i. by apply list_lookup_insert_eq.
        -- split; [|done]. apply list_elem_of_lookup. exists j.
           rewrite list_lookup_insert_ne; [done|]. intros <-. congruence.
  - eexists. split; [done|].
    assert (ie_path e ∉ paths (idx_entries idx)) as Hnew.
    { intros (i & e' & He & Hpe)%elem_of_paths.
      assert (by_path idx !! ie_path e = Some i) by (apply Hw; eauto). congruence. }
    split.
    + intros p j. cbn. rewrite lookup_insert_Some, (Hw p j). split.
      * intros [[<- <-]|[Hne (e' & He & Hpe)]].
        -- exists e. split; [|done]. rewrite lookup_app_r by done. by rewrite Nat.sub_diag.
        -- exists e'. split; [|done]. by apply lookup_app_l_Some.
      * intros (e' & [He|[Hl He]]%lookup_app_Some & Hpe).
        -- right. split; [|eauto]. intros <-. apply Hnew, elem_of_paths. eauto.
        -- apply list_lookup_singleton_Some in He as [Hj <-]. left. split; [done|lia].
    + unfold contents. cbn [idx_entries]. apply map_eq. intros p. apply option_eq. intros e'.
      rewrite contents_lookup.
      2:{ unfold paths in *. rewrite fmap_app. apply list.NoDup_app. split_and!; [done| |].
          - intros q Hq ->%list_elem_of_singleton. done.
          - apply NoDup_singleton. }
      rewrite lookup_insert_Some, contents_lookup, elem_of_app, list_elem_of_singleton by done.
      split; [|naive_solver]. intros [[Hin| ->] Hpe]; [|auto]. right. split; [|done].
      intros Heq. apply Hnew. rewrite Heq, <- Hpe. unfold paths. by apply list_elem_of_fmap_2.
Qed.

(** ** Queries *)

Lemma live_ok idx p i :
  wf_index idx → by_path idx !! p = Some i →
  ∃ e, contents idx !! p = Some e ∧ live_at idx i = Some (is_live e).
Proof.
  intros Hw Hp. destruct (position_contents idx p i Hw Hp) as (e & He & _ & Hc).
  exists e. split; [done|]. unfold live_at. by rewrite He.
Qed.

Lemma has_tracked_ok idx p :
  wf_index idx →
  has_tracked_file_at idx p =
    Some (match contents idx !! p with Some e => is_live e | None => false end).
Proof.
  intros Hw. unfold has_tracked_file_at, find_entry. destruct (by_path idx !! p) as [i|] eqn:Hp.
  - by destruct (live_ok idx p i Hw Hp) as (e & -> & ->).
  - by rewrite (no_position_contents idx p Hw Hp).
Qed.

Lemma any_live_ok idx ps :
  (∀ i, i ∈ ps → is_Some (live_at idx i)) →
  ∃ b, any_live idx ps = Some b ∧ (b = true ↔ ∃ i, i ∈ ps ∧ live_at idx i = Some true).
Proof.
  induction ps as [|i ps IH]; intros H; cbn [any_live].
  { exists false. split; [done|]. split; [done|]. by intros (i & ?%elem_of_nil & _). }
  destruct (H i) as [live Hi]; [by left|]. rewrite Hi. cbn [mbind option_bind].
  destruct live.
  - exists true. split; [done|]. split; [|done]. intros _. exists i. split; [by left|done].
  - destruct IH as (b & -> & Hb); [intros; apply H; by right|]. exists b. split; [done|].
    rewrite Hb. split; intros (j & Hj & Hl); exists j; (split; [|done]); [by right|].
    apply elem_of_cons in Hj as [->|?]; [congruence|done].
Qed.

(** A path at or below a directory. *)
Definition at_or_below (base path : bytes) : Prop :=
  path = base ∨ ∃ rest, path = base ++ b# "/" ++ rest.

Lemma tracks_ok idx p :
  wf_index idx →
  ∃ b, tracks_path_or_descendant idx p = Some b ∧
    (b = true ↔ ∃ q e, contents idx !! q = Some e ∧ is_live e = true ∧ at_or_below p q).
Proof.
  intros Hw. unfold tracks_path_or_descendant.
  set (ps := (take_while _ _).*2).
  assert (∀ i, i ∈ ps ↔ ∃ q, by_path idx !! q = Some i ∧ starts_with (p ++ b# "/") q = true) as Hps.
  { intros i. unfold ps. rewrite list_elem_of_fmap. split.
    - intros ([q j] & -> & Hq%range_prefix). eauto.
    - intros (q & Hq). exists (q, i). split; [done|]. by apply range_prefix. }
  destruct (any_live_ok idx ps) as (below & Hbelow & Hb).
  { intros i (q & Hq & _)%Hps. destruct (live_ok idx q i Hw Hq) as (e & _ & ->). eauto. }
  assert (below = true ↔ ∃ q e, contents idx !! q = Some e ∧ is_live e = true ∧
            ∃ rest, q = p ++ b# "/" ++ rest) as Hbelow'.
  { rewrite Hb. split.
    - intros (i & (q & Hq & (rest & ->)%starts_with_spec)%Hps & Hl).
      destruct (live_ok idx _ i Hw Hq) as (e & He & Hl'). exists (p ++ b# "/" ++ rest), e.
      rewrite <- app_assoc in He. split_and!; [done|congruence|eauto].
    - intros (q & e & He & Hlive & rest & ->).
      destruct (by_path idx !! (p ++ b# "/" ++ rest)) as [i|] eqn:Hq.
      + destruct (live_ok idx _ i Hw Hq) as (e' & He' & Hl). exists i.
        split; [|by rewrite Hl; congruence]. apply Hps. exists (p ++ b# "/" ++ rest). split; [done|].
        apply starts_with_spec. exists rest. by rewrite <- app_assoc.
      + by rewrite (no_position_contents idx _ Hw Hq) in He. }
  assert (∃ here, match by_path idx !! p with Some pos => live_at idx pos | None => Some false end
            = Some here ∧ (here = true ↔ ∃ e, contents idx !! p = Some e ∧ is_live e = true))
    as (here & -> & Hhere).
  { destruct (by_path idx !! p) as [i|] eqn:Hp.
    - destruct (live_ok idx p i Hw Hp) as (e & He & ->). exists (is_live e). split; [done|].
      rewrite He. naive_solver.
    - exists false. split; [done|]. rewrite (no_position_contents idx p Hw Hp). naive_solver. }
  cbn [mbind option_bind]. exists (here || below). split; [by destruct here|].
  rewrite orb_true_iff, Hhere, Hbelow'. unfold at_or_below. naive_solver.
Qed.

(** ** Conflicts between files and directories *)

Lemma path_descends_from_spec path base :
  path_descends_from path base = true ↔ ∃ rest, path = base ++ b# "/" ++ rest.
Proof.
  unfold path_descends_from. rewrite !andb_true_iff, Nat.ltb_lt, bool_decide_eq_true, starts_with_spec.
  split.
  - intros [[Hlt (k & ->)] Hk]. rewrite lookup_app_r in Hk by lia. rewrite Nat.sub_diag in Hk.
    destruct k as [|c rest]; [done|]. injection Hk as ->. by exists rest.
  - intros (rest & ->). split_and!; [|eauto|].
    + rewrite length_app. cbn. lia.
    + rewrite lookup_app_r by lia. by rewrite Nat.sub_diag.
Qed.

Lemma elem_of_slash_indices path : ∀ i j,
  j ∈ slash_indices i path ↔ ∃ k, j = i + k ∧ path !! k = Some SLASH.
Proof.
  induction path as [|c path IH]; intros i j; cbn [slash_indices].
  { rewrite elem_of_nil. split; [done|]. intros (k & _ & Hk). by rewrite lookup_nil in Hk. }
  assert (j ∈ slash_indices (S i) path ↔ ∃ k, j = i + S k ∧ (c :: path) !! S k = Some SLASH) as IH'.
  { rewrite IH. cbn. setoid_rewrite Nat.add_succ_r. done. }
  case_bool_decide as Hc; [rewrite elem_of_cons|]; rewrite IH'; split.
  - intros [->|(k & H)]; [|eauto]. exists 0. rewrite Hc. split; [lia|done].
  - intros ([|k] & -> & Hk); [left; lia|right; eauto].
  - intros (k & H). eauto.
  - intros ([|k] & -> & Hk); [by injection Hk as ->|eauto].
Qed.

Lemma elem_of_ancestor_prefixes path anc :
  anc ∈ ancestor_prefixes path ↔ ∃ rest, path = anc ++ b# "/" ++ rest.
Proof.
  unfold ancestor_prefixes. rewrite list_elem_of_fmap. split.
  - intros (i & -> & (k & -> & Hk)%elem_of_slash_indices). cbn [plus].
    exists (drop (S k) path). rewrite <- (take_drop_middle _ _ _ Hk) at 1. done.
  - intros (rest & ->). exists (length anc). rewrite take_app_length. split; [done|].
    apply elem_of_slash_indices. exists (length anc). split; [done|].
    rewrite lookup_app_r by lia. by rewrite Nat.sub_diag.
Qed.

Lemma filter_all {A} (f : A → bool) l : (∀ x, x ∈ l → f x = true) → List.filter f l = l.
Proof.
  induction l as [|x l IH]; intros H; [done|]. cbn. rewrite H by by left.
  rewrite IH; [done|]. intros. apply H. by right.
Qed.

Lemma keeps_beside_spec path e :
  keeps_beside path e = true ↔ ¬ (∃ rest, ie_path e = path ++ b# "/" ++ rest) ∧
                               ¬ (∃ rest, path = ie_path e ++ b# "/" ++ rest).
Proof.
  unfold keeps_beside. rewrite orb_true_iff, negb_true_iff, orb_false_iff, bytes_eqb_eq.
  rewrite <- !path_descends_from_spec, !not_true_iff_false. split; [|tauto].
  intros [->|?]; [|done]. unfold path_descends_from. by rewrite Nat.ltb_irrefl.
Qed.

(** The check before the scan is right: without a conflict the scan would keep all. *)
Lemma remove_directory_conflicts_ok idx path :
  wf_index idx →
  let idx' := remove_directory_conflicts idx path in
  idx_entries idx' = List.filter (keeps_beside path) (idx_entries idx) ∧ wf_index idx' ∧
  contents idx' = filter (λ kv, keeps_beside path kv.2 = true) (contents idx).
Proof.
  intros Hw. pose proof (wf_index_NoDup idx Hw) as Hnd. cbv zeta.
  assert (wf_index (rebuild_path_index (List.filter (keeps_beside path) (idx_entries idx))) ∧
    contents_of (List.filter (keeps_beside path) (idx_entries idx)) =
      filter (λ kv, keeps_beside path kv.2 = true) (contents idx)) as [Hw' Hc]
    by (split; [by apply rebuild_wf, filter_paths_NoDup|by apply contents_filter]).
  unfold remove_directory_conflicts.
  destruct (negb _ && negb _) eqn:E; [|done].
  apply andb_true_iff in E as [Ha%negb_true_iff Hd%negb_true_iff].
  rewrite <- Hc.
  assert (List.filter (keeps_beside path) (idx_entries idx) = idx_entries idx) as ->; [|done].
  apply filter_all. intros e Hin. apply keeps_beside_spec.
  assert (is_Some (by_path idx !! ie_path e)) as Hp.
  { apply list_elem_of_lookup in Hin as [i Hi]. exists i. apply Hw. eauto. }
  split.
  - intros (rest & Hr). apply not_true_iff_false in Hd. apply Hd. apply range_first.
    exists (ie_path e). split; [done|]. apply starts_with_spec. exists rest. by rewrite <- app_assoc.
  - intros (rest & Hr). apply not_true_iff_false in Ha. apply Ha. apply existsb_exists.
    exists (ie_path e). split; [|by apply bool_decide_eq_true].
    apply list_elem_of_In, elem_of_ancestor_prefixes. eauto.
Qed.

(** ** The file *)

Lemma status_from_to_byte s : EntryStatus.from_byte (EntryStatus.to_byte s) = Some s.
Proof. by destruct s. Qed.

Lemma status_from_byte_Some b s : EntryStatus.from_byte b = Some s → b = EntryStatus.to_byte s.
Proof. destruct b; intros [= <-]; done. Qed.

Definition u64 (n : N) : Prop := (n <= U64_MAX)%N.

(** What an entry of a file satisfies. *)
Record wf_entry (e : IndexEntry) : Prop := {
  entry_utf8 : from_utf8 (ie_path e) = true;
  entry_path : validate_index_path (ie_path e) = true;
  entry_removed : ie_status e = EntryStatus.Removed → ie_object_hash e = ZERO;
  entry_mtime : u64 (ie_mtime_ns e);
  entry_size : u64 (ie_size e);
  entry_ino : u64 (ie_ino e);
  entry_ctime : u64 (ie_ctime_ns e)
}.

Lemma validate_index_path_len p : validate_index_path p = true → (lenN p <= MAX_PATH_LEN)%N.
Proof.
  unfold validate_index_path. case_bool_decide; [done|]. destruct (starts_with _ _); [done|].
  by destruct (N.ltb_spec MAX_PATH_LEN (lenN p)).
Qed.

Lemma slice_at pre x post pos n (l : bytes) :
  l = pre ++ x ++ post → length pre = pos → length x = n → slice pos n l = x.
Proof. intros -> <- <-. unfold slice. by rewrite drop_app_length, take_app_length. Qed.

Lemma le_u64 n : u64 n → le_val (le_bytes 8 n) = n.
Proof. intros H. apply le_val_le_bytes. unfold u64, U64_MAX in H. cbn. lia. Qed.

Lemma read_entry_complete seen e b rest :
  wf_entry e → ie_path e ∉ seen → entry_bytes e = Some b →
  read_entry seen (b ++ rest) = Ok (e, rest).
Proof.
  intros [Hutf Hval Hrem Hm Hs Hi Hc] Hseen. pose proof (validate_index_path_len _ Hval) as Hlen.
  unfold entry_bytes. destruct (N.leb_spec (lenN (ie_path e)) U16_MAX); [|done]. intros [= <-].
  destruct e as [p s h m z i c]. cbn [ie_path ie_status ie_object_hash ie_mtime_ns ie_size ie_ino ie_ctime_ns] in *.
  set (bm := le_bytes 8 m). set (bz := le_bytes 8 z). set (bi := le_bytes 8 i). set (bc := le_bytes 8 c).
  set (bl := le_bytes 2 (lenN p)). set (l := _ ++ rest).
  assert (l = [EntryStatus.to_byte s] ++ arr_bytes h ++ bm ++ bz ++ bi ++ bc ++ bl ++ p ++ rest) as El.
  { unfold l. cbn. by rewrite <- !app_assoc. }
  assert (length (arr_bytes h) = 32 ∧ length bm = 8 ∧ length bz = 8 ∧ length bi = 8 ∧ length bc = 8
    ∧ length bl = 2) as (Lh & Lm & Lz & Li & Lc & Ll)
    by (split; [apply arr_length|split_and!; apply length_le_bytes]).
  assert (slice 1 32 l = arr_bytes h) as Sh.
  { eapply (slice_at [_]); [exact El|done|done]. }
  assert (slice 33 8 l = bm) as Sm.
  { eapply (slice_at ([_] ++ arr_bytes h)); [rewrite El, <- !app_assoc; done|rewrite !length_app; cbn; lia|done]. }
  assert (slice 41 8 l = bz) as Sz.
  { eapply (slice_at ([_] ++ arr_bytes h ++ bm));
      [rewrite El, <- !app_assoc; done|rewrite !length_app; cbn; lia|done]. }
  assert (slice 49 8 l = bi) as Si.
  { eapply (slice_at ([_] ++ arr_bytes h ++ bm ++ bz));
      [rewrite El, <- !app_assoc; done|rewrite !length_app; cbn; lia|done]. }
  assert (slice 57 8 l = bc) as Sc.
  { eapply (slice_at ([_] ++ arr_bytes h ++ bm ++ bz ++ bi));
      [rewrite El, <- !app_assoc; done|rewrite !length_app; cbn; lia|done]. }
  assert (slice 65 2 l = bl) as Sl.
  { eapply (slice_at ([_] ++ arr_bytes h ++ bm ++ bz ++ bi ++ bc));
      [rewrite El, <- !app_assoc; done|rewrite !length_app; cbn; lia|done]. }
  assert (le_val bl = lenN p) as Vl.
  { apply le_val_le_bytes. unfold U16_MAX in *. cbn. lia. }
  assert (length ([EntryStatus.to_byte s] ++ arr_bytes h ++ bm ++ bz ++ bi ++ bc ++ bl) = 67) as Lpre
    by (rewrite !length_app; cbn; lia).
  assert (l = ([EntryStatus.to_byte s] ++ arr_bytes h ++ bm ++ bz ++ bi ++ bc ++ bl) ++ p ++ rest) as El'
    by (rewrite El, <- !app_assoc; done).
  assert (N.to_nat (lenN p) = length p) as Np by (unfold lenN; lia).
  assert (slice 67 (length p) l = p) as Sp by (eapply slice_at; [exact El'|exact Lpre|done]).
  assert (drop (67 + length p) l = rest) as Dr.
  { rewrite El', app_assoc, drop_app_length'; [done|]. rewrite length_app, Lpre. lia. }
  assert (lenN l = 67 + lenN p + lenN rest)%N as Ln.
  { unfold lenN. rewrite El', length_app, Lpre, length_app. lia. }
  assert (nth 0 l Byte.x00 = EntryStatus.to_byte s) as Hb by (by rewrite El).
  clearbody l. unfold read_entry. rewrite Hb, Sh, Sm, Sz, Si, Sc, Sl, Vl, Np, Sp, Dr, Ln.
  unfold MIN_ENTRY_LEN. rewrite status_from_to_byte, arr_of_bytes, Hutf, Hval.
  rewrite !ensure_bind by (try apply N.leb_le; try lia; try done). cbn [ok_or mbind result_bind].
  rewrite !ensure_bind by (try apply N.leb_le; try lia; try done).
  rewrite ensure_bind by (by rewrite bool_decide_eq_false_2).
  rewrite ensure_bind.
  2:{ case_bool_decide as Hs'; [|done]. by rewrite (Hrem Hs'), bool_decide_eq_true_2. }
  unfold bm, bz, bi, bc. by rewrite !le_u64.
Qed.

Lemma le_slice n pos (l : bytes) : pos + n <= length l → le_bytes n (le_val (slice pos n l)) = slice pos n l.
Proof.
  intros H. pose proof (slice_length pos n l H) as Hlen.
  rewrite <- (le_bytes_le_val (slice pos n l)) at 2. by rewrite Hlen.
Qed.

Lemma u64_slice pos (l : bytes) : u64 (le_val (slice pos 8 l)).
Proof.
  pose proof (le_val_bound (slice pos 8 l)) as H. unfold u64, U64_MAX.
  assert (lenN (slice pos 8 l) <= 8)%N as Hl.
  { unfold lenN, slice. rewrite length_take. lia. }
  assert (256 ^ lenN (slice pos 8 l) <= 256 ^ 8)%N by (by apply N.pow_le_mono_r).
  change (256 ^ 8)%N with 18446744073709551616%N in *. lia.
Qed.

Lemma read_entry_sound seen rest e rest' :
  read_entry seen rest = Ok (e, rest') →
  wf_entry e ∧ (ie_path e ∉ seen) ∧ ∃ b, entry_bytes e = Some b ∧ rest = b ++ rest'.
Proof.
  unfold read_entry. cbv zeta.
  intros ([] & H1%ensure_Ok%N.leb_le & H)%bind_Ok.
  apply bind_Ok in H as (s & Hs%ok_or_Ok & H).
  apply bind_Ok in H as ([] & Hn%ensure_Ok%N.leb_le & H).
  apply bind_Ok in H as ([] & H2%ensure_Ok%N.leb_le & H).
  apply bind_Ok in H as ([] & Hutf%ensure_Ok & H).
  apply bind_Ok in H as ([] & Hval%ensure_Ok & H).
  apply bind_Ok in H as ([] & Hseen%ensure_Ok & H).
  apply bind_Ok in H as ([] & Hrem%ensure_Ok & H).
  set (n := le_val (slice 65 2 rest)) in *. injection H as <- <-.
  cbn [ie_path ie_status ie_object_hash ie_mtime_ns ie_size ie_ino ie_ctime_ns].
  apply negb_true_iff, bool_decide_eq_false in Hseen.
  unfold MIN_ENTRY_LEN, lenN in H1, H2.
  assert (67 + N.to_nat n <= length rest) as Hl by lia.
  assert (lenN (slice 67 (N.to_nat n) rest) = n) as Np.
  { unfold lenN. rewrite slice_length by lia. lia. }
  split.
  { constructor; cbn; try apply u64_slice; [done|done|].
    intros ->. rewrite bool_decide_eq_true_2 in Hrem by done. cbn in Hrem.
    by apply negb_true_iff, negb_false_iff, bool_decide_eq_true in Hrem. }
  split; [done|]. unfold entry_bytes. cbn. rewrite Np.
  assert (n <= U16_MAX)%N as -> %N.leb_le by (unfold MAX_PATH_LEN, U16_MAX in *; lia).
  eexists. split; [done|].
  rewrite !le_slice by lia. rewrite arr_bytes_of by (apply slice_length; lia).
  assert (le_bytes 2 n = slice 65 2 rest) as -> by (unfold n; apply le_slice; lia).
  destruct rest as [|x rest]; [cbn in H1; lia|]. cbn [nth] in Hs.
  apply status_from_byte_Some in Hs as ->. rewrite <- !app_comm_cons. f_equal.
  change rest with (drop 1 (EntryStatus.to_byte s :: rest)) at 1.
  set (l := EntryStatus.to_byte s :: rest) in *.
  rewrite (slice_drop 1 32 l) at 1. rewrite (slice_drop (1 + 32) 8 l) at 1.
  rewrite (slice_drop (1 + 32 + 8) 8 l) at 1. rewrite (slice_drop (1 + 32 + 8 + 8) 8 l) at 1.
  rewrite (slice_drop (1 + 32 + 8 + 8 + 8) 8 l) at 1. rewrite (slice_drop (1 + 32 + 8 + 8 + 8 + 8) 2 l) at 1.
  rewrite (slice_drop (1 + 32 + 8 + 8 + 8 + 8 + 2) (N.to_nat n) l) at 1. cbn [plus].
  by rewrite <- !app_assoc.
Qed.

Lemma read_entry_iff seen rest e rest' :
  read_entry seen rest = Ok (e, rest') ↔
  wf_entry e ∧ (ie_path e ∉ seen) ∧ ∃ b, entry_bytes e = Some b ∧ rest = b ++ rest'.
Proof.
  split; [apply read_entry_sound|]. intros (Hw & Hs & b & Hb & ->). by apply read_entry_complete.
Qed.

Lemma read_entries_iff count : ∀ seen rest es rest',
  read_entries count seen rest = Ok (es, rest') ↔
  length es = count ∧ Forall wf_entry es ∧ NoDup (paths es) ∧ (∀ p, p ∈ paths es → p ∉ seen) ∧
  ∃ b, entries_bytes es = Some b ∧ rest = b ++ rest'.
Proof.
  unfold paths. induction count as [|count IH]; intros seen rest es rest'; cbn [read_entries].
  { split.
    - intros [= <- <-]. split_and!; [done|constructor|constructor|by intros p ?%elem_of_nil|].
      by exists [].
    - intros (Hl & _ & _ & _ & b & Hb & ->). destruct es; [|done]. by injection Hb as <-. }
  rewrite bind_Ok. split.
  - intros ([e r] & (Hw & Hs & b & Hb & ->)%read_entry_iff & ([es' r'] & H & [= <- <-])%bind_Ok).
    apply IH in H as (Hl & Hws & Hnd & Hseen & b' & Hb' & ->). rewrite fmap_cons. split_and!.
    + cbn. by rewrite Hl.
    + by constructor.
    + constructor; [|done]. intros Hin. apply (Hseen _ Hin). set_solver.
    + intros p [->|Hp]%elem_of_cons; [done|]. specialize (Hseen p Hp). set_solver.
    + exists (b ++ b'). cbn. rewrite Hb, Hb'. cbn. by rewrite <- app_assoc.
  - intros (Hl & Hws & Hnd & Hseen & b & Hb & ->). destruct es as [|e es]; [done|].
    cbn in Hb. destruct (entry_bytes e) as [b1|] eqn:E1; [|done]. cbn in Hb.
    destruct (entries_bytes es) as [b2|] eqn:E2; [|done]. injection Hb as <-.
    rewrite fmap_cons in *. inv Hws as [|? ? Hw Hws']. inv Hnd as [|? ? Hn Hnd'].
    exists (e, b2 ++ rest'). split.
    + apply read_entry_iff. split_and!; [done|apply Hseen; by left|].
      exists b1. by rewrite <- app_assoc.
    + apply bind_Ok. exists (es, rest'). split; [|done]. apply IH.
      split_and!; [by injection Hl|done|done| |eauto].
      intros p Hp. specialize (Hseen p (list_elem_of_further _ _ _ Hp)).
      assert (p ≠ ie_path e) by (intros ->; done). set_solver.
Qed.

Lemma index_entry_len e b : entry_bytes e = Some b → (lenN b = MIN_ENTRY_LEN + lenN (ie_path e))%N.
Proof.
  unfold entry_bytes. destruct (_ <=? _)%N; [|done]. intros <-%(inj Some).
  assert (∀ n v, lenN (le_bytes n v) = N.of_nat n) as Hle by (intros; unfold lenN; by rewrite length_le_bytes).
  rewrite lenN_cons, !lenN_app, lenN_arr, !Hle. unfold MIN_ENTRY_LEN. lia.
Qed.

Lemma index_entries_len es : ∀ b, entries_bytes es = Some b → (MIN_ENTRY_LEN * lenN es <= lenN b)%N.
Proof.
  induction es as [|e es IH]; intros b; cbn; [intros [= <-]; done|].
  destruct (entry_bytes e) as [b1|] eqn:E1; [|done]. cbn.
  destruct (entries_bytes es) as [b2|] eqn:E2; [|done]. intros [= <-].
  rewrite lenN_cons, lenN_app, (index_entry_len e b1 E1). specialize (IH b2 eq_refl). lia.
Qed.

Section file.
Context `{B : Blake3}.

Lemma deserialize_sound data idx :
  index_deserialize data = Ok idx →
  ∃ es, idx = from_entries es ∧ Forall wf_entry es ∧ NoDup (paths es) ∧
    index_serialize (from_entries es) = Some data ∧ (lenN data <= MAX_INDEX_BYTES)%N.
Proof.
  unfold index_deserialize. intros ([] & Hmax%ensure_Ok%N.leb_le & H)%bind_Ok.
  apply bind_Ok in H as ([] & _ & H).
  apply bind_Ok in H as ([] & Hmagic%ensure_Ok%bytes_eqb_eq & H).
  apply bind_Ok in H as ([] & Hv%ensure_Ok%bool_decide_eq_true & H).
  apply bind_Ok in H as ([] & Hlen%ensure_Ok%N.leb_le & H). cbv zeta in H.
  set (body := take (length data - 32) data) in *.
  apply bind_Ok in H as ([] & Hsum%ensure_Ok%bytes_eqb_eq & H).
  apply bind_Ok in H as ([] & _ & H).
  apply bind_Ok in H as ([es rest] & H & H').
  apply bind_Ok in H' as ([] & ->%ensure_Ok%bool_decide_eq_true & [= <-]).
  apply read_entries_iff in H as (Hc & Hw & Hnd & _ & b & Hb & Hbody). rewrite app_nil_r in Hbody.
  exists es. split_and!; [done..| |done]. unfold index_serialize. cbn [from_entries rebuild_path_index idx_entries].
  assert (length body = length data - 32) as Lb by (unfold body; rewrite length_take; lia).
  unfold lenN in Hlen. set (count := le_val (slice 5 4 body)) in *.
  assert (count < 2 ^ 32)%N as Hcount.
  { pose proof (le_val_bound (slice 5 4 body)) as Hbd. fold count in Hbd.
    unfold lenN in Hbd. rewrite slice_length in Hbd by lia. exact Hbd. }
  assert (lenN es = count) as Hes by (unfold lenN; lia). rewrite Hes.
  assert (count <= U32_MAX)%N as -> %N.leb_le by (unfold U32_MAX; lia).
  rewrite Hb. cbn [mbind option_bind]. f_equal.
  assert (MAGIC ++ [FORMAT_VERSION] ++ le_bytes 4 count ++ b = body) as ->.
  { rewrite <- Hbody. unfold count. rewrite le_slice by lia.
    rewrite <- (take_drop 4 body) at 3.
    assert (take 4 body = MAGIC) as ->.
    { unfold body. rewrite take_take, Nat.min_l by lia. done. }
    f_equal. rewrite (slice_drop 4 1 body), (slice_drop (4 + 1) 4 body). cbn [plus]. f_equal.
    assert (slice 4 1 body = [nth 4 data Byte.x00]) as ->; [|by rewrite Hv].
    rewrite <- (take_drop (length data - 32) data) at 1. fold body.
    rewrite app_nth1 by lia. unfold slice.
    assert (is_Some (body !! 4)) as [x Hx] by (apply lookup_lt_is_Some; lia).
    rewrite (drop_S _ _ _ Hx). cbn. rewrite take_0. f_equal. symmetry. by apply nth_lookup_Some. }
  rewrite Hsum. unfold body. by rewrite take_drop.
Qed.

Lemma deserialize_complete es data :
  Forall wf_entry es → NoDup (paths es) →
  index_serialize (from_entries es) = Some data → (lenN data <= MAX_INDEX_BYTES)%N →
  index_deserialize data = Ok (from_entries es).
Proof.
  intros Hw Hnd. unfold index_serialize. cbn [from_entries rebuild_path_index idx_entries].
  destruct (N.leb_spec (lenN es) U32_MAX) as [Hcount|]; [|done].
  destruct (entries_bytes es) as [b|] eqn:Eb; [|done]. cbn [mbind option_bind]. intros <-%(inj Some) Hmax.
  set (count := lenN es) in *. set (out := MAGIC ++ [FORMAT_VERSION] ++ le_bytes 4 count ++ b) in *.
  set (data := out ++ arr_bytes (hash out)) in *.
  assert (length out = 9 + length b) as Lo.
  { unfold out. rewrite !length_app, length_le_bytes. change (length MAGIC) with 4. cbn [length]. lia. }
  assert (length data = length out + 32) as Ld by (unfold data; rewrite length_app, arr_length; lia).
  assert (take (length data - 32) data = out) as Ht.
  { rewrite Ld. replace (length out + 32 - 32) with (length out) by lia. unfold data. apply take_app_length. }
  assert (drop (length data - 32) data = arr_bytes (hash out)) as Hd.
  { rewrite Ld. replace (length out + 32 - 32) with (length out) by lia. unfold data. apply drop_app_length. }
  assert (slice 5 4 out = le_bytes 4 count) as Sc.
  { eapply (slice_at (MAGIC ++ [FORMAT_VERSION])); [unfold out; by rewrite <- app_assoc|done|apply length_le_bytes]. }
  assert (le_val (le_bytes 4 count) = count) as Vc.
  { apply le_val_le_bytes. unfold U32_MAX in Hcount. cbn. lia. }
  assert (drop 9 out = b) as Db.
  { assert (out = (MAGIC ++ [FORMAT_VERSION] ++ le_bytes 4 count) ++ b) as -> by (unfold out; by rewrite <- !app_assoc).
    apply drop_app_length'. rewrite !length_app, length_le_bytes. done. }
  pose proof (index_entries_len es b Eb) as Hlen.
  unfold index_deserialize. rewrite ensure_bind by by apply N.leb_le.
  rewrite ensure_bind by (apply N.leb_le; unfold lenN; lia).
  rewrite ensure_bind by (apply bytes_eqb_eq; unfold data, out; reflexivity).
  rewrite ensure_bind by (apply bool_decide_eq_true; unfold data, out; reflexivity).
  rewrite ensure_bind by (apply N.leb_le; unfold lenN; lia). cbv zeta. rewrite Ht, Hd.
  rewrite ensure_bind by by apply bytes_eqb_eq. rewrite Sc, Vc.
  rewrite ensure_bind.
  2:{ apply N.leb_le. unfold lenN at 1. rewrite Lo. fold count in Hlen. unfold lenN in Hlen. lia. }
  rewrite Db. assert (read_entries (N.to_nat count) ∅ b = Ok (es, [])) as ->.
  { apply read_entries_iff. split_and!; [unfold count, lenN; lia|done|done|set_solver|].
    exists b. by rewrite app_nil_r. }
  done.
Qed.
End file.

(** ** Validity of paths *)

Definition good_segment (s : bytes) : Prop :=
  s ≠ [] ∧ s ≠ b# "." ∧ s ≠ b# ".." ∧ (Byte.x00 ∉ s) ∧ (Byte.x5c ∉ s).

Lemma split_slash_ne p : split_slash p ≠ [].
Proof.
  destruct p as [|c p]; [done|]. cbn. case_bool_decide; [done|]. by destruct (split_slash p).
Qed.

(** The segments have no slash and join to the path. *)
Lemma join_split_slash p : join_slash (split_slash p) = p.
Proof.
  induction p as [|c p IH]; [done|]. cbn [split_slash]. pose proof (split_slash_ne p) as Hne.
  case_bool_decide as Hc.
  - destruct (split_slash p) as [|s segs]; [done|]. cbn [join_slash app] in *. rewrite IH. by rewrite Hc.
  - destruct (split_slash p) as [|s [|s' segs]]; [done|..]; cbn [join_slash app] in *; by rewrite IH.
Qed.

Lemma split_join_slash segs :
  segs ≠ [] → Forall (λ s, SLASH ∉ s) segs → split_slash (join_slash segs) = segs.
Proof.
  intros Hne Hf. induction Hf as [|s segs Hs Hf IH]; [done|].
  assert (∀ r, split_slash (s ++ b# "/" ++ r) = s :: split_slash r) as Hcons.
  { intros r. clear -Hs. induction s as [|c s IHs]; [done|].
    apply not_elem_of_cons in Hs as [Hc Hs]. cbn [app split_slash].
    rewrite bool_decide_eq_false_2 by congruence. by rewrite (IHs Hs). }
  destruct segs as [|s' segs].
  - cbn [join_slash]. clear -Hs. induction s as [|c s IHs]; [done|].
    apply not_elem_of_cons in Hs as [Hc Hs]. cbn [split_slash].
    rewrite bool_decide_eq_false_2 by congruence. by rewrite (IHs Hs).
  - change (join_slash (s :: s' :: segs)) with (s ++ b# "/" ++ join_slash (s' :: segs)).
    rewrite Hcons, IH by done. done.
Qed.

Lemma split_slash_no_slash p : Forall (λ s, SLASH ∉ s) (split_slash p).
Proof.
  induction p as [|c p IH]; cbn [split_slash]; [repeat constructor; apply not_elem_of_nil|].
  case_bool_decide as Hc; [constructor; [apply not_elem_of_nil|done]|].
  destruct IH as [|s segs Hs Hf]; [repeat constructor|].
  - intros E%list_elem_of_singleton. by rewrite E in Hc.
  - constructor; [|done]. intros [E|?]%elem_of_cons; [by rewrite E in Hc|done].
Qed.

Lemma bad_segment_spec s : bad_segment s = false ↔ good_segment s.
Proof.
  unfold bad_segment, good_segment. rewrite !orb_false_iff, bool_decide_eq_false.
  rewrite <- !not_true_iff_false, !bytes_eqb_eq, existsb_exists. split.
  - intros [[[H1 H2] H3] H4]. split_and!; [done..| |];
      intros Hin%list_elem_of_In; apply H4; by eexists.
  - intros (H1 & H2 & H3 & H4 & H5). split_and!; [done..|].
    intros (c & Hin%list_elem_of_In & Hc). destruct c; done.
Qed.

(** [.mkit] or [.git], or a path below one of them, is a path whose first segment is. *)
Lemma under_first_segment (d p : bytes) :
  SLASH ∉ d → (p = d ∨ starts_with (d ++ b# "/") p = true ↔ head (split_slash p) = Some d).
Proof.
  intros Hd. rewrite starts_with_spec. split.
  - intros [->|(k & ->)].
    + pose proof (split_join_slash [d]) as H. cbn [join_slash] in H. rewrite H; [done|done|by repeat constructor].
    + rewrite <- app_assoc. pose proof (join_split_slash k) as Hk.
      pose proof (split_slash_ne k). pose proof (split_slash_no_slash k) as Hf.
      assert (d ++ b# "/" ++ k = join_slash (d :: split_slash k)) as ->.
      { destruct (split_slash k) as [|s l]; [done|]. by rewrite <- Hk. }
      rewrite split_join_slash; [done|done|by constructor].
  - intros H. pose proof (join_split_slash p) as Hp. destruct (split_slash p) as [|s [|s' l]]; [done|..].
    + injection H as ->. by left.
    + injection H as ->. right. exists (join_slash (s' :: l)). rewrite <- Hp, <- app_assoc. done.
Qed.

Lemma validate_index_path_spec p :
  validate_index_path p = true ↔
  (lenN p <= MAX_PATH_LEN)%N ∧ Forall good_segment (split_slash p) ∧
  head (split_slash p) ≠ Some (b# ".mkit") ∧ head (split_slash p) ≠ Some (b# ".git").
Proof.
  rewrite <- (under_first_segment (b# ".mkit") p) by (cbn; set_solver).
  rewrite <- (under_first_segment (b# ".git") p) by (cbn; set_solver).
  unfold validate_index_path.
  assert (negb (existsb bad_segment (split_slash p)) = true ↔ Forall good_segment (split_slash p)) as Hseg.
  { rewrite negb_true_iff, <- not_true_iff_false, existsb_exists, list.Forall_forall. split.
    - intros H s Hs. apply bad_segment_spec, not_true_iff_false. intros Hb. apply H.
      exists s. by rewrite <- list_elem_of_In.
    - intros H (s & Hs%list_elem_of_In & Hb). apply H, bad_segment_spec in Hs. congruence. }
  case_bool_decide as Hne.
  { subst p. split; [done|]. intros (_ & Hf & _). apply Forall_inv in Hf as [? _]. done. }
  destruct (starts_with (b# "/") p) eqn:Hs.
  { apply starts_with_spec in Hs as (k & ->). split; [done|]. intros (_ & Hf & _).
    apply Forall_inv in Hf as [? _]. done. }
  destruct (N.ltb_spec MAX_PATH_LEN (lenN p)); [split; [done|intros [? _]; lia]|].
  destruct (bytes_eqb p (b# ".mkit") || bytes_eqb p (b# ".git")) eqn:E1.
  { apply orb_true_iff in E1. rewrite !bytes_eqb_eq in E1. split; [done|]. intros (_ & _ & H1 & H2).
    destruct E1; [destruct H1|destruct H2]; by left. }
  destruct (starts_with (b# ".mkit/") p || starts_with (b# ".git/") p) eqn:E2.
  { apply orb_true_iff in E2. split; [done|]. intros (_ & _ & H1 & H2).
    destruct E2; [destruct H1|destruct H2]; by right. }
  apply orb_false_iff in E1 as [E1 E1'], E2 as [E2 E2']. rewrite Hseg.
  rewrite <- not_true_iff_false in E1, E1'. rewrite bytes_eqb_eq in E1, E1'.
  change (b# ".mkit" ++ b# "/") with (b# ".mkit/"). change (b# ".git" ++ b# "/") with (b# ".git/").
  rewrite E2, E2'. naive_solver.
Qed.

(** ** Stat caches that are read *)

(** The cache of an entry is older than the index file, by the window that the
    precision of the two times asks for. *)
Definition safely_older (mtime index_mtime : N) : Prop :=
  (mtime + 10000000 < index_mtime)%N ∧
  (is_multiple_of mtime 1000000000 || is_multiple_of index_mtime 1000000000 = true →
   (mtime + RACY_WINDOW_NS < index_mtime)%N).

Lemma racy_clean_safe index_mtime e :
  let e' := racy_clean index_mtime e in
  ie_path e' = ie_path e ∧ ie_status e' = ie_status e ∧ ie_object_hash e' = ie_object_hash e ∧
  (ie_mtime_ns e' = 0%N ∨ e' = e ∧ safely_older (ie_mtime_ns e) index_mtime).
Proof.
  cbv zeta. unfold racy_clean, safely_older.
  destruct (N.eqb_spec (ie_mtime_ns e) 0) as [E|E]; [by split_and!; [..|left]|].
  destruct (is_multiple_of index_mtime 1000000000), (is_multiple_of (ie_mtime_ns e) 1000000000);
    cbn [negb andb orb]; change (RACY_WINDOW_NS / 100)%N with 10000000%N; unfold RACY_WINDOW_NS;
    (match goal with |- context [(?a <=? ?b)%N] => destruct (N.leb_spec a b) as [|Hlt] end;
      [by split_and!; [..|left]|]);
    (split_and!; [done..|]; right; split; [done|]; split; [lia|intros; lia || done]).
Qed.

Lemma paths_racy_clean m es : paths (racy_clean m <$> es) = paths es.
Proof.
  unfold paths. induction es as [|e es IH]; [done|]. rewrite !fmap_cons, IH. f_equal.
  by destruct (racy_clean_safe m e) as [? _].
Qed.

Lemma entries_bytes_total es :
  Forall (λ e : IndexEntry, lenN (ie_path e) <= U16_MAX)%N es → is_Some (entries_bytes es).
Proof.
  induction 1 as [|e es He _ [bs Hbs]]; [by eexists|]. cbn. unfold entry_bytes.
  rewrite (proj2 (N.leb_le _ _) He). cbn. rewrite Hbs. by eexists.
Qed.

(** ** The theorems *)

(** C23: While its map of paths agrees with its entries, as the debug assertion checks and
    as every constructor and every mutation keeps it, the index is a finite map from
    paths to entries: no access of [entries] is out of bounds, [upsert_entry] inserts,
    [remove_path] deletes and returns what was there, [retain_entries] filters,
    [remove_directory_conflicts], which scans only when a lookup found a conflict,
    removes exactly the entries that lie above or below the path, and the queries
    answer for the map. *)
Theorem index_refines_map (idx : Index) (Hw : debug_assert_consistent idx = true) :
  (∀ e, ∃ idx', upsert_entry idx e = Some idx' ∧ debug_assert_consistent idx' = true ∧
     contents idx' = <[ie_path e := e]> (contents idx)) ∧
  (∀ p, ∃ idx', remove_path idx p = Some (contents idx !! p, idx') ∧
     debug_assert_consistent idx' = true ∧ contents idx' = delete p (contents idx)) ∧
  (∀ keep, let idx' := retain_entries keep idx in debug_assert_consistent idx' = true ∧
     contents idx' = filter (λ kv, keep kv.2 = true) (contents idx)) ∧
  (∀ p, let idx' := remove_directory_conflicts idx p in debug_assert_consistent idx' = true ∧
     ∀ q e, contents idx' !! q = Some e ↔ contents idx !! q = Some e ∧
       ¬ (∃ rest, q = p ++ b# "/" ++ rest) ∧ ¬ (∃ rest, p = q ++ b# "/" ++ rest)) ∧
  (∀ p, has_tracked_file_at idx p =
     Some (match contents idx !! p with Some e => is_live e | None => false end)) ∧
  (∀ p, ∃ b, tracks_path_or_descendant idx p = Some b ∧
     (b = true ↔ ∃ q e, contents idx !! q = Some e ∧ is_live e = true ∧ at_or_below p q)).
Proof.
  apply debug_assert_consistent_spec in Hw. repeat setoid_rewrite debug_assert_consistent_spec.
  split_and!.
  - intros e. by apply upsert_ok.
  - intros p. by apply remove_path_ok.
  - intros keep. cbv zeta. rewrite debug_assert_consistent_spec. by apply retain_ok.
  - intros p. cbv zeta. rewrite debug_assert_consistent_spec.
    destruct (remove_directory_conflicts_ok idx p Hw) as (_ & Hw' & ->). split; [done|].
    intros q e. rewrite map_lookup_filter_Some. cbn. rewrite keeps_beside_spec.
    split; intros [Hq H]; (split; [done|]);
      by apply contents_lookup in Hq as [_ <-]; [|by apply wf_index_NoDup].
  - intros p. by apply has_tracked_ok.
  - intros p. by apply tracks_ok.
Qed.

(** C24: A file is accepted exactly when it is the serialization of an index of distinct
    valid paths, whose removed entries carry the zero hash, within the size bound; and
    the index read is that one. So serializing and reading are inverse, a file has one
    reading, and nothing is accepted after a flipped byte, a truncation or an appended
    byte, unless the checksum collides. *)
Theorem index_deserialize_iff `{B : Blake3} (data : bytes) (idx : Index) :
  index_deserialize data = Ok idx ↔
  ∃ es, idx = from_entries es ∧ Forall wf_entry es ∧ NoDup (paths es) ∧
    index_serialize idx = Some data ∧ (lenN data <= MAX_INDEX_BYTES)%N.
Proof.
  split.
  - intros (es & -> & H)%deserialize_sound. by exists es.
  - intros (es & -> & Hw & Hnd & Hs & Hl). by apply deserialize_complete.
Qed.

(** C25: Writing a consistent index of valid entries does not panic; and if it fits, the
    file that is written is read back, whatever its modification time, with the same
    entries in the same order, except that a stat cache survives only if its time is
    older than the file's by 10 ms, or by a full second where one of the two times
    is a whole second. *)
Theorem read_index_after_write `{B : Blake3} (idx : Index) (mtime : option N)
    (Hw : debug_assert_consistent idx = true) (He : Forall wf_entry (idx_entries idx))
    (Hc : (lenN (idx_entries idx) <= U32_MAX)%N) :
  ∃ r, write_index idx = Some r ∧
  ∀ data, r = Ok data →
    ∃ idx', read_index (Ok (Some {| if_bytes := data; if_mtime := mtime |})) = Ok idx' ∧
      debug_assert_consistent idx' = true ∧
      Forall2 (λ e e', ie_path e' = ie_path e ∧ ie_status e' = ie_status e ∧
        ie_object_hash e' = ie_object_hash e ∧
        (ie_mtime_ns e' = 0%N ∨ e' = e ∧ safely_older (ie_mtime_ns e) (mtime_nanos mtime)))
        (idx_entries idx) (idx_entries idx').
Proof.
  apply debug_assert_consistent_spec in Hw. pose proof (wf_index_NoDup idx Hw) as Hnd.
  destruct (entries_bytes_total (idx_entries idx)) as [body Hb].
  { eapply list.Forall_impl; [exact He|]. intros e Hv%entry_path%validate_index_path_len. unfold MAX_PATH_LEN, U16_MAX in *. lia. }
  unfold write_index. destruct (index_serialize idx) as [data|] eqn:Es.
  2:{ unfold index_serialize in Es. rewrite (proj2 (N.leb_le _ _) Hc), Hb in Es. done. }
  eexists. split; [done|]. intros d. destruct (N.ltb_spec MAX_INDEX_BYTES (lenN data)) as [|Hl]; [done|].
  intros [= <-].
  assert (lenN data ≠ 0)%N as Hne.
  { unfold index_serialize in Es. rewrite (proj2 (N.leb_le _ _) Hc), Hb in Es.
    apply (inj Some) in Es as <-. rewrite !lenN_app, lenN_arr. lia. }
  unfold read_index. cbn [if_bytes if_mtime].
  rewrite ensure_bind by (by apply negb_true_iff, N.eqb_neq). rewrite ensure_bind by by apply N.leb_le.
  rewrite (deserialize_complete (idx_entries idx) data He Hnd Es Hl). cbn [mbind result_bind].
  eexists. split; [done|]. split.
  - apply debug_assert_consistent_spec. pose proof (rebuild_wf (idx_entries idx) Hnd) as Hr.
    intros p i. rewrite (Hr p i). cbn. setoid_rewrite list_lookup_fmap.
    split; intros (e & H & <-).
    + rewrite H. eexists. split; [done|]. by destruct (racy_clean_safe (mtime_nanos mtime) e) as [? _].
    + destruct (idx_entries idx !! i) as [e0|]; [|done]. injection H as <-. exists e0. split; [done|].
      by destruct (racy_clean_safe (mtime_nanos mtime) e0) as [? _].
  - cbn. apply Forall2_fmap_r, Forall_Forall2_diag, Forall_true. intros e. apply racy_clean_safe.
Qed.

(** ** Examples *)

Import Toy.

Definition ex_entry (p : bytes) (m : N) : IndexEntry :=
  {| ie_path := p; ie_status := EntryStatus.Blob; ie_object_hash := hash p; ie_mtime_ns := m;
     ie_size := 3; ie_ino := 7; ie_ctime_ns := m |}.

Definition ex_index : Index := from_entries [ex_entry (b# "a/b") 5; ex_entry (b# "c") 900].

Lemma ex_index_entries : Forall wf_entry (idx_entries ex_index).
Proof. repeat constructor; cbn; try done; unfold u64, U64_MAX; lia. Defined.

Lemma index_refines_map_witness :
  debug_assert_consistent ex_index = true ∧
  has_tracked_file_at ex_index (b# "c") =
    Some (match contents ex_index !! (b# "c") with Some e => is_live e | None => false end).
Proof. split; [reflexivity|]. by apply (index_refines_map ex_index eq_refl). Defined.

Lemma read_index_after_write_witness :
  debug_assert_consistent ex_index = true ∧ Forall wf_entry (idx_entries ex_index) ∧
  ∃ r, write_index ex_index = Some r ∧
  ∀ data, r = Ok data →
    ∃ idx', read_index (Ok (Some {| if_bytes := data; if_mtime := Some 1000%N |})) = Ok idx' ∧
      debug_assert_consistent idx' = true ∧
      Forall2 (λ e e', ie_path e' = ie_path e ∧ ie_status e' = ie_status e ∧
        ie_object_hash e' = ie_object_hash e ∧
        (ie_mtime_ns e' = 0%N ∨ e' = e ∧ safely_older (ie_mtime_ns e) (mtime_nanos (Some 1000%N))))
        (idx_entries ex_index) (idx_entries idx').
Proof.
  split; [reflexivity|]. split; [exact ex_index_entries|].
  apply (read_index_after_write ex_index (Some 1000%N) eq_refl ex_index_entries). vm_compute. congruence.
Defined.
