(* ===== verification/IndexTree.v ===== *)
(** * The tree of an index

    Models [build_tree_from_index_with] of [rust/crates/mkit-core/src/worktree.rs]: the
    entries are selected, their objects are probed (in order, or by contiguous chunks in
    threads), sorted into a tree of directories, and written from the leaves up. The
    [Debug] formatting of a name in an error message depends on the tables of Unicode
    and is a parameter. *)

From S2P Require Import Prelude Hash Object Serialize Store Content Ingest Index.

(** ** Sorted maps *)

(** [BTreeMap<String, V>], as its items in order. *)
Section btree_map.
Context {V : Type}.

Fixpoint bm_get (k : bytes) (m : list (bytes * V)) : option V :=
  match m with
  | [] => None
  | (k', v) :: m => if bool_decide (k = k') then Some v else bm_get k m
  end.

Fixpoint bm_insert (k : bytes) (v : V) (m : list (bytes * V)) : list (bytes * V) :=
  match m with
  | [] => [(k, v)]
  | (k', v') :: m =>
      if bytes_ltb k k' then (k, v) :: (k', v') :: m
      else if bytes_ltb k' k then (k', v') :: bm_insert k v m
      else (k, v) :: m
  end.
End btree_map.

Definition has_key {V} (k : bytes) (m : list (bytes * V)) : bool := bool_decide (is_Some (bm_get k m)).

(** ** Fan-out *)

(** What one thread gives for its chunk: the results before the first error, and the
    error. *)
Fixpoint chunk_worker {T U E} (f : T → result E U) (chunk : list T) : list U * option E :=
  match chunk with
  | [] => ([], None)
  | it :: chunk =>
      match f it with
      | Ok u => let '(results, e) := chunk_worker f chunk in (u :: results, e)
      | Err e => ([], Some e)
      end
  end.

(** [items.chunks(size)], for a positive size; [fuel]: the number of items. *)
Fixpoint chunks_of {T} (fuel size : nat) (items : list T) : list (list T) :=
  match fuel, items with
  | S fuel, _ :: _ => take size items :: chunks_of fuel size (drop size items)
  | _, _ => []
  end.

(** [out[base + i] = Some(u)]. *)
Fixpoint fill_slots {U} (base : nat) (results : list U) (out : list (option U)) : list (option U) :=
  match results with
  | [] => out
  | u :: results => fill_slots (S base) results (<[base := Some u]> out)
  end.

(** The loop over the handles: every chunk is joined, in the order of the chunks. *)
Fixpoint join_chunks {T U E} (f : T → result E U) (chunk_size idx : nat) (chunks : list (list T))
    (out : list (option U)) (first_err : option E) : list (option U) * option E :=
  match chunks with
  | [] => (out, first_err)
  | chunk :: chunks =>
      let '(results, err) := chunk_worker f chunk in
      let first_err := match first_err with Some e => Some e | None => err end in
      join_chunks f chunk_size (S idx) chunks (fill_slots (idx * chunk_size) results out) first_err
  end.

Fixpoint all_slots {U} (out : list (option U)) : option (list U) :=
  match out with
  | [] => Some []
  | o :: out => u ← o; us ← all_slots out; Some (u :: us)
  end.

(** [None]: a slot was not filled. [threads] is positive. *)
Definition chunked_scoped_map {T U E} (items : list T) (threads : nat) (f : T → result E U)
    : option (result E (list U)) :=
  let chunk_size := Nat.max ((length items + threads - 1) / threads) 1 in
  let '(out, first_err) :=
    join_chunks f chunk_size 0 (chunks_of (length items) chunk_size items)
      (replicate (length items) None) None in
  match first_err with
  | Some e => Some (Err e)
  | None => us ← all_slots out; Some (Ok us)
  end.

(** ** Staged objects *)

Definition wt_store {A} (r : result StoreError A) : result WorktreeError A :=
  match r with Ok a => Ok a | Err e => Err (WtStore e) end.

(** [WorktreeError::Io(io::Error::other(..))]. *)
Definition other (msg : bytes) : WorktreeError := WtIo (OtherError msg).

Abbreviation staged := (bytes * EntryMode.t * hash32)%type.

Section build.
Context `{B : Blake3} (fmt_debug : bytes → bytes).

Definition check_one_staged_object (st : ObjectStore) (verify : bool) (e : staged)
    : result WorktreeError unit :=
  let '(path, mode, h) := e in
  object_type ← wt_store (if verify then verify_object_type st h else store_object_type st h);
  match object_type with
  | ObjectType.Blob => Ok tt
  | t =>
      if bool_decide (t = ObjectType.ChunkedBlob) && negb (bool_decide (mode = EntryMode.Symlink))
      then Ok tt
      else Err (other (b# "index entry '" ++ path ++ b# "' points to a non-blob object (got "
                       ++ ObjectType.name t ++ b# ")"))
  end.

(** [try_for_each]. *)
Fixpoint try_for_each {T E} (f : T → result E unit) (items : list T) : result E unit :=
  match items with
  | [] => Ok tt
  | it :: items => _ ← f it; try_for_each f items
  end.

Definition probe_staged_objects (threads : nat) (st : ObjectStore) (verify : bool)
    (entries : list staged) : option (result WorktreeError unit) :=
  if (1 <? threads) && (32 * threads <=? length entries) then
    r ← chunked_scoped_map entries threads (check_one_staged_object st verify);
    Some (_ ← r; Ok tt)
  else Some (try_for_each (check_one_staged_object st verify) entries).

(** ** Pass 1 *)

Definition duplicate_path (path : bytes) : WorktreeError :=
  other (b# "duplicate index path: '" ++ path ++ b# "'").

(** The entries that are kept, and the error that ended the pass. *)
Fixpoint keep_entries (seen : gset bytes) (kept : list staged) (es : list IndexEntry)
    : list staged * option WorktreeError :=
  match es with
  | [] => (kept, None)
  | e :: es =>
      let path := ie_path e in
      if bool_decide (path ∈ seen) then (kept, Some (duplicate_path path))
      else
        let seen := {[path]} ∪ seen in
        let keep mode := keep_entries seen (kept ++ [(path, mode, ie_object_hash e)]) es in
        match ie_status e with
        | EntryStatus.Removed => keep_entries seen kept es
        | EntryStatus.Blob => keep EntryMode.Blob
        | EntryStatus.Executable => keep EntryMode.Executable
        | EntryStatus.Symlink => keep EntryMode.Symlink
        | EntryStatus.Tree =>
            (kept, Some (other (b# "index entry uses reserved Tree status (subtree staging not implemented)")))
        end
  end.

(** ** Pass 3 *)

#[local] Unset Elimination Schemes.
(** A directory: subdirectories and leaves, by name. *)
Inductive Node :=
  | MkNode (children : list (bytes * Node)) (leaves : list (bytes * (EntryMode.t * hash32))).
#[local] Set Elimination Schemes.

Definition Node_default : Node := MkNode [] [].
Definition children (n : Node) : list (bytes * Node) := let 'MkNode c _ := n in c.
Definition leaves (n : Node) : list (bytes * (EntryMode.t * hash32)) := let 'MkNode _ l := n in l.

Definition path_conflict (conflicting : bytes) : WorktreeError :=
  other (b# "index path conflict: '" ++ conflicting ++ b# "' is staged as both a file and a directory").

(** One entry, from a node that [walked] leads to down its directories. *)
Fixpoint insert_leaf (dirs : list bytes) (leaf : bytes) (v : EntryMode.t * hash32) (walked : bytes)
    (node : Node) : result WorktreeError Node :=
  match dirs with
  | [] =>
      if has_key leaf (children node) then Err (path_conflict (under_prefix walked leaf))
      else if has_key leaf (leaves node) then Err (duplicate_path (under_prefix walked leaf))
      else Ok (MkNode (children node) (bm_insert leaf v (leaves node)))
  | seg :: dirs =>
      _ ← ensure (negb (bool_decide (seg = []))) (other (b# "empty path segment in index"));
      _ ← ensure (negb (has_key seg (leaves node))) (path_conflict (under_prefix walked seg));
      let child := default Node_default (bm_get seg (children node)) in
      child ← insert_leaf dirs leaf v (under_prefix walked seg) child;
      Ok (MkNode (bm_insert seg child (children node)) (leaves node))
  end.

(** [split_last]. *)
Definition split_last (segments : list bytes) : option (bytes * list bytes) :=
  match list.last segments with
  | Some leaf => Some (leaf, removelast segments)
  | None => None
  end.

Definition insert_entry (root : Node) (e : staged) : result WorktreeError Node :=
  let '(path, mode, h) := e in
  match split_last (split_slash path) with
  | None => Err (other (b# "empty index path"))
  | Some (leaf, dirs) =>
      _ ← ensure (negb (bool_decide (leaf = []))) (other (b# "trailing slash in index path"));
      insert_leaf dirs leaf (mode, h) [] root
  end.

Fixpoint insert_entries (root : Node) (es : list staged) : result WorktreeError Node :=
  match es with
  | [] => Ok root
  | e :: es => root ← insert_entry root e; insert_entries root es
  end.

(** ** Writing *)

Definition node_entry (name : bytes) (mode : EntryMode.t) (h : hash32)
    : result WorktreeError TreeEntry :=
  _ ← ensure (validate_name name) (other (b# "invalid tree entry name: " ++ fmt_debug name));
  Ok {| te_name := name; te_mode := mode; te_hash := h |}.

Fixpoint leaf_entries (ls : list (bytes * (EntryMode.t * hash32))) (entries : list TreeEntry)
    : result WorktreeError (list TreeEntry) :=
  match ls with
  | [] => Ok entries
  | (name, (mode, h)) :: ls => e ← node_entry name mode h; leaf_entries ls (entries ++ [e])
  end.

Definition sort_entries (es : list TreeEntry) : list TreeEntry :=
  stable_sort (λ a b, bytes_leb (te_name a) (te_name b)) es.

Context {S : Type} `{!ObjectSink S}.

(** The loop over the subdirectories; [rec] writes one. *)
Section write_children.
Context (rec : Node → ME WorktreeError S hash32).

Fixpoint write_children (cs : list (bytes * Node)) (entries : list TreeEntry)
    : ME WorktreeError S (list TreeEntry) :=
  match cs with
  | [] => me_lift (Ok entries)
  | (name, child) :: cs =>
      me_bind (rec child) (λ h,
      me_bind (me_lift (node_entry name EntryMode.Tree h)) (λ e,
      write_children cs (entries ++ [e])))
  end.
End write_children.

Fixpoint write_node (node : Node) : ME WorktreeError S hash32 :=
  let 'MkNode children leaves := node in
  me_bind (write_children write_node children []) (λ entries,
  me_bind (me_lift (leaf_entries leaves entries)) (λ entries,
  me_bind (me_lift (wt_object (serialize (OTree {| tree_entries := sort_entries entries |}))))
    (λ bs, wt (sink_put bs)))).

(** [st]: the store that is probed; the outer option is a panic. *)
Definition build_tree_from_index_with (threads : nat) (st : ObjectStore) (idx : Index)
    (verify : bool) (sink : S) : option (result WorktreeError hash32 * S) :=
  let '(kept, deferred_status_err) := keep_entries ∅ [] (idx_entries idx) in
  probed ← probe_staged_objects threads st verify kept;
  Some match (_ ← probed;
              _ ← match deferred_status_err with Some e => Err e | None => Ok tt end;
              insert_entries Node_default kept) with
       | Ok root => write_node root sink
       | Err e => (Err e, sink)
       end.
End build.

Definition build_tree_from_index `{B : Blake3} (fmt_debug : bytes → bytes) (now : option N)
    (threads : nat) (idx : Index) (store : ObjectStore)
    : option (result WorktreeError hash32 * ObjectStore) :=
  build_tree_from_index_with (ObjectSink0 := ObjectStore_sink now) fmt_debug threads store idx true store.
