(* ===== verification/IndexTreeFacts.v ===== *)
(** * The tree of an index holds exactly its entries

    The fan-out over threads gives what the loop gives; the directories that are built
    hold the live entries, each at its path; the trees that are written read back with
    these leaves; and the index of a tree lists its leaves. *)

From S2P Require Import Prelude Hash Object Serialize SerializeFacts ObjectId Store StoreFacts Content ContentFacts MergeTrees MergeTreesFacts TreeDiffFacts Chunker Ingest IngestFacts Utf8 Index IndexFacts IndexTree.

(** ** Fan-out *)

(** The loop over the items, stopping at the first error. *)
Fixpoint seq_map {T U E} (f : T → result E U) (items : list T) : result E (list U) :=
  match items with
  | [] => Ok []
  | it :: items => u ← f it; us ← seq_map f items; Ok (u :: us)
  end.

Section fanout.
Context {T U E : Type} (f : T → result E U).

Lemma seq_map_app xs ys :
  seq_map f (xs ++ ys) = us ← seq_map f xs; vs ← seq_map f ys; Ok (us ++ vs).
Proof.
  induction xs as [|x xs IH]; cbn [seq_map app mbind result_bind].
  { by destruct (seq_map f ys). }
  destruct (f x) as [u|e]; [|done]. cbn [mbind result_bind]. rewrite IH.
  destruct (seq_map f xs) as [us|e]; [|done]. cbn [mbind result_bind]. by destruct (seq_map f ys).
Qed.

Lemma seq_map_length items us : seq_map f items = Ok us → length us = length items.
Proof.
  revert us. induction items as [|x items IH]; intros us; cbn; [by intros [= <-]|].
  intros (u & _ & (us' & H & [= <-])%bind_Ok)%bind_Ok. cbn. by rewrite (IH us').
Qed.

Lemma chunk_worker_spec chunk :
  match chunk_worker f chunk with
  | (us, None) => seq_map f chunk = Ok us
  | (_, Some e) => seq_map f chunk = Err e
  end.
Proof.
  induction chunk as [|x chunk IH]; [done|]. cbn. destruct (f x) as [u|e]; [|done].
  destruct (chunk_worker f chunk) as [us [e|]]; by rewrite IH.
Qed.

Lemma join_chunks_failed size chunks e : ∀ idx out,
  (join_chunks f size idx chunks out (Some e)).2 = Some e.
Proof.
  induction chunks as [|c chunks IH]; intros idx out; [done|]. cbn [join_chunks].
  destruct (chunk_worker f c). apply IH.
Qed.

Lemma fill_slots_app base (us vs : list U) : ∀ out,
  fill_slots base (us ++ vs) out = fill_slots (base + length us) vs (fill_slots base us out).
Proof.
  revert base. induction us as [|u us IH]; intros base out; cbn [fill_slots app length].
  { by rewrite Nat.add_0_r. }
  rewrite IH. f_equal. lia.
Qed.

(** Every chunk but the last has the size of a chunk. *)
Fixpoint full_chunks (size : nat) (chunks : list (list T)) : Prop :=
  match chunks with
  | [] => True
  | c :: chunks => (length c = size ∨ chunks = []) ∧ full_chunks size chunks
  end.

Lemma join_chunks_spec size chunks : ∀ idx out,
  full_chunks size chunks →
  match seq_map f (concat chunks) with
  | Ok us => join_chunks f size idx chunks out None = (fill_slots (idx * size) us out, None)
  | Err e => (join_chunks f size idx chunks out None).2 = Some e
  end.
Proof.
  induction chunks as [|c chunks IH]; intros idx out Hf; [done|]. destruct Hf as [Hc Hf].
  cbn [join_chunks concat]. rewrite seq_map_app. pose proof (chunk_worker_spec c) as Hw.
  destruct (chunk_worker f c) as [us [e|]]; rewrite Hw; cbn [mbind result_bind];
    [apply join_chunks_failed|].
  specialize (IH (S idx) (fill_slots (idx * size) us out) Hf).
  destruct (seq_map f (concat chunks)) as [vs|e] eqn:Ev; cbn [mbind result_bind]; [|done].
  rewrite IH, fill_slots_app. apply seq_map_length in Hw. f_equal.
  destruct Hc as [Hc| ->]; [f_equal; lia|]. by injection Ev as <-.
Qed.

Lemma chunks_of_spec fuel size : ∀ items : list T,
  0 < size → length items ≤ fuel →
  concat (chunks_of fuel size items) = items ∧ full_chunks size (chunks_of fuel size items).
Proof.
  induction fuel as [|fuel IH]; intros [|x items] Hs Hl; try done; [cbn in Hl; lia|].
  cbn [chunks_of]. set (l := x :: items) in *.
  destruct (IH (drop size l) Hs) as [Hc Hf].
  { rewrite length_drop. unfold l in *. cbn [length] in *. lia. }
  cbn [concat full_chunks]. rewrite Hc, take_drop. split; [done|]. split; [|done].
  destruct (decide (size ≤ length l)) as [Hle|Hgt]; [left; rewrite length_take; lia|right].
  rewrite (drop_ge l size) by lia. by destruct fuel.
Qed.

Lemma fill_slots_all (us : list U) : ∀ pre,
  fill_slots (length pre) us (pre ++ replicate (length us) None) = pre ++ (Some <$> us).
Proof.
  induction us as [|u us IH]; intros pre; [done|]. cbn [fill_slots length replicate].
  rewrite insert_app_r_alt, Nat.sub_diag by lia. cbn. specialize (IH (pre ++ [Some u])). rewrite length_app, <- !app_assoc in IH. cbn in IH.
  by rewrite Nat.add_1_r in IH.
Qed.

Lemma all_slots_some (us : list U) : all_slots (Some <$> us) = Some us.
Proof. induction us as [|u us IH]; [done|]. rewrite fmap_cons. cbn. by rewrite IH. Qed.

Lemma chunked_map_ok items threads :
  chunked_scoped_map items threads f = Some (seq_map f items).
Proof.
  unfold chunked_scoped_map. set (size := Nat.max _ 1).
  destruct (chunks_of_spec (length items) size items) as [Hc Hf]; [lia|done|].
  pose proof (join_chunks_spec size _ 0 (replicate (length items) None) Hf) as H. rewrite Hc in H.
  destruct (seq_map f items) as [us|e] eqn:Es.
  - rewrite H. cbn [Nat.mul]. apply seq_map_length in Es. rewrite <- Es.
    pose proof (fill_slots_all us []) as Hs. cbn [length app] in Hs. rewrite Hs.
    cbn [mbind option_bind]. by rewrite all_slots_some.
  - destruct (join_chunks f size 0 _ _ None) as [out first_err]. cbn in H. by rewrite H.
Qed.
End fanout.

(** ** Probing *)

Lemma try_for_each_seq {T E} (f : T → result E unit) items :
  try_for_each f items = _ ← seq_map f items; Ok tt.
Proof.
  induction items as [|x items IH]; [done|]. cbn. destruct (f x); [|done].
  cbn. rewrite IH. by destruct (seq_map f items).
Qed.

(** However many threads there are, probing is the loop in order. *)
Lemma probe_ok `{B : Blake3} threads st verify entries :
  probe_staged_objects threads st verify entries =
  Some (try_for_each (check_one_staged_object st verify) entries).
Proof.
  unfold probe_staged_objects. destruct (_ && _); [|done].
  by rewrite chunked_map_ok, try_for_each_seq.
Qed.

(** ** Sorted maps *)

Section btree_map.
Context {V : Type}.

Definition bm_sorted (m : list (bytes * V)) : Prop :=
  StronglySorted (λ a b, bytes_ltb a.1 b.1 = true) m.

Lemma bm_get_insert k k' v (m : list (bytes * V)) :
  bm_get k (bm_insert k' v m) = if bool_decide (k = k') then Some v else bm_get k m.
Proof.
  induction m as [|[k0 v0] m IH]; cbn [bm_insert bm_get]; [done|].
  destruct (bytes_ltb k' k0) eqn:E1; [done|].
  destruct (bytes_ltb k0 k') eqn:E2; cbn [bm_get].
  - rewrite IH. case_bool_decide as H0; [|done].
    rewrite bool_decide_eq_false_2; [done|]. intros ->. subst. by apply bytes_lt_irrefl in E2.
  - destruct (bytes_lt_total k0 k') as [H|[->|H]]; unfold bytes_lt in *; [congruence| |congruence].
    repeat case_bool_decide; congruence.
Qed.

Lemma bm_insert_elem k v (m : list (bytes * V)) x : x ∈ bm_insert k v m → x = (k, v) ∨ x ∈ m.
Proof.
  induction m as [|[k0 v0] m IH]; cbn [bm_insert]; [set_solver|].
  destruct (bytes_ltb k k0); [set_solver|]. destruct (bytes_ltb k0 k); [|set_solver].
  intros [->|H]%elem_of_cons; [right; by left|]. destruct (IH H); [by left|right; by right].
Qed.

Lemma bm_insert_sorted k v (m : list (bytes * V)) : bm_sorted m → bm_sorted (bm_insert k v m).
Proof.
  induction 1 as [|[k0 v0] m Hm IH Hall]; cbn [bm_insert]; [repeat constructor|].
  destruct (bytes_ltb k k0) eqn:E1.
  - constructor; [by constructor|]. constructor; [done|].
    eapply list.Forall_impl; [exact Hall|]. intros [k1 v1] H1. cbn in *.
    apply (transitivity (R := bytes_lt) E1 H1).
  - destruct (bytes_ltb k0 k) eqn:E2.
    + constructor; [done|]. apply list.Forall_forall. intros x [->|Hx]%bm_insert_elem; [done|].
      eapply list.Forall_forall in Hall; [exact Hall|done].
    + destruct (bytes_lt_total k0 k) as [H|[->|H]]; unfold bytes_lt in *; [congruence| |congruence].
      by constructor.
Qed.

Lemma bm_insert_length k v (m : list (bytes * V)) : length (bm_insert k v m) ≤ S (length m).
Proof.
  induction m as [|[k0 v0] m IH]; cbn [bm_insert length]; [lia|].
  destruct (bytes_ltb k k0); [cbn; lia|]. destruct (bytes_ltb k0 k); cbn [length]; lia.
Qed.

Lemma bm_get_in k v (m : list (bytes * V)) : bm_get k m = Some v → (k, v) ∈ m.
Proof.
  induction m as [|[k0 v0] m IH]; [done|]. cbn. case_bool_decide as Hk.
  - intros [= ->]. subst. by left.
  - intros H%IH. by right.
Qed.

Lemma bm_get_elem k v (m : list (bytes * V)) : bm_sorted m → bm_get k m = Some v ↔ (k, v) ∈ m.
Proof.
  induction 1 as [|[k0 v0] m Hm IH Hall]; cbn [bm_get]; [by rewrite elem_of_nil|].
  rewrite elem_of_cons. case_bool_decide as Hk.
  - subst k0. split; [intros [= ->]; by left|]. intros [[= ->]|Hin]; [done|].
    eapply list.Forall_forall in Hall; [|exact Hin]. cbn in Hall. by apply bytes_lt_irrefl in Hall.
  - rewrite IH. naive_solver.
Qed.

Lemma has_key_spec k (m : list (bytes * V)) : has_key k m = true ↔ is_Some (bm_get k m).
Proof. apply bool_decide_eq_true. Qed.

Lemma has_key_false k (m : list (bytes * V)) : has_key k m = false ↔ bm_get k m = None.
Proof. unfold has_key. rewrite bool_decide_eq_false. by rewrite eq_None_not_Some. Qed.
End btree_map.

(** ** Directories *)

(** Names are in order, a name is a directory or a leaf, and leaves are no trees. *)
Inductive wf_node : Node → Prop :=
  | wf_MkNode cs ls :
      bm_sorted cs → bm_sorted ls →
      (∀ k, is_Some (bm_get k cs) → bm_get k ls = None) →
      (∀ k v, (k, v) ∈ ls → v.1 ≠ EntryMode.Tree) →
      (∀ k c, (k, c) ∈ cs → wf_node c) → wf_node (MkNode cs ls).

Fixpoint node_get (p : list bytes) (n : Node) : option (EntryMode.t * hash32) :=
  match p with
  | [] => None
  | x :: p =>
      match p with
      | [] => bm_get x (leaves n)
      | _ => c ← bm_get x (children n); node_get p c
      end
  end.

Lemma node_get_deep x y p n :
  node_get (x :: y :: p) n = c ← bm_get x (children n); node_get (y :: p) c.
Proof. done. Qed.

Lemma node_get_default p : node_get p Node_default = None.
Proof. by destruct p as [|x [|y p]]. Qed.

Lemma wf_default : wf_node Node_default.
Proof. constructor; try constructor; intros; set_solver. Qed.

Lemma wf_child n k c : wf_node n → bm_get k (children n) = Some c → wf_node c.
Proof. intros Hw. inv Hw as [cs ls Hc Hl Hd Hm Hs]. intros H%bm_get_elem; [by apply (Hs k)|done]. Qed.

Lemma insert_leaf_ok dirs leaf v : ∀ walked n n',
  v.1 ≠ EntryMode.Tree → wf_node n → insert_leaf dirs leaf v walked n = Ok n' →
  wf_node n' ∧
  ∀ p, node_get p n' = if bool_decide (p = dirs ++ [leaf]) then Some v else node_get p n.
Proof.
  induction dirs as [|seg dirs IH]; intros walked n n' Hv Hw; cbn [insert_leaf].
  - destruct (has_key leaf (children n)) eqn:Ec; [done|].
    destruct (has_key leaf (leaves n)) eqn:El; [done|]. intros [= <-].
    apply has_key_false in Ec, El. inv Hw as [cs ls Hc Hl Hd Hm Hs]. cbn in *. split.
    + constructor; [done|by apply bm_insert_sorted| | |done].
      * intros k Hk. rewrite bm_get_insert. case_bool_decide as E; [|by apply Hd].
        subst. destruct Hk. congruence.
      * intros k v' [[= -> ->]|Hin]%bm_insert_elem; [done|by apply (Hm k)].
    + intros p. cbn [app]. destruct p as [|x [|y p]]; cbn [node_get leaves children].
      * by rewrite bool_decide_eq_false_2.
      * rewrite bm_get_insert. repeat case_bool_decide; congruence.
      * by rewrite bool_decide_eq_false_2.
  - intros ([] & _ & ([] & Hl%ensure_Ok%negb_true_iff%has_key_false & (c & Hc & [= <-])%bind_Ok)%bind_Ok)%bind_Ok.
    assert (wf_node (default Node_default (bm_get seg (children n)))) as Hwc.
    { destruct (bm_get seg (children n)) as [c0|] eqn:E; [by eapply wf_child|apply wf_default]. }
    destruct (IH _ _ _ Hv Hwc Hc) as [Hwc' Hg].
    inv Hw as [cs ls Hcs Hls Hd Hm Hs]. cbn [children leaves] in *. split.
    + constructor; [by apply bm_insert_sorted|done| |done|].
      * intros k. rewrite bm_get_insert. case_bool_decide as E; [by subst|apply Hd].
      * intros k c' [[= -> ->]|Hin]%bm_insert_elem; [done|by apply (Hs k)].
    + intros p. cbn [app]. destruct p as [|x [|y p]]; [by rewrite bool_decide_eq_false_2|..].
      * rewrite bool_decide_eq_false_2; [done|]. intros [= _ E]. by destruct dirs.
      * rewrite !node_get_deep. cbn [children]. rewrite bm_get_insert. case_bool_decide as E.
        -- subst x. cbn [mbind option_bind]. rewrite Hg.
           assert (node_get (y :: p) (default Node_default (bm_get seg cs)) =
             (c0 ← bm_get seg cs; node_get (y :: p) c0)) as ->.
           { destruct (bm_get seg cs); [done|]. apply node_get_default. }
           repeat case_bool_decide; congruence.
        -- rewrite (bool_decide_eq_false_2 (x :: y :: p = _)); [done|congruence].
Qed.

(** No directory has more than [n] entries. *)
Inductive narrow (n : nat) : Node → Prop :=
  | narrow_MkNode cs ls :
      length cs + length ls ≤ n → (∀ k c, (k, c) ∈ cs → narrow n c) → narrow n (MkNode cs ls).

Lemma narrow_mono n m node : narrow n node → n ≤ m → narrow m node.
Proof. induction 1 as [cs ls Hl _ IH]; intros Hm. constructor; [lia|]. eauto. Qed.

Lemma narrow_default n : narrow n Node_default.
Proof. constructor; [cbn; lia|]. set_solver. Qed.

Lemma insert_leaf_narrow dirs leaf v m : ∀ walked n n',
  narrow m n → insert_leaf dirs leaf v walked n = Ok n' → narrow (S m) n'.
Proof.
  induction dirs as [|seg dirs IH]; intros walked n n' Hn; cbn [insert_leaf].
  - destruct (has_key leaf (children n)); [done|]. destruct (has_key leaf (leaves n)); [done|].
    intros [= <-]. inv Hn as [cs ls Hl Hs]. cbn in *.
    pose proof (bm_insert_length leaf v ls). constructor; [lia|].
    intros k c Hc. eapply narrow_mono; [by eapply Hs|lia].
  - intros ([] & _ & ([] & _ & (c & Hc & [= <-])%bind_Ok)%bind_Ok)%bind_Ok.
    inv Hn as [cs ls Hl Hs]. cbn [children leaves] in *.
    pose proof (bm_insert_length seg c cs). constructor; [lia|].
    intros k c' [[= -> ->]|Hin]%bm_insert_elem; [|eapply narrow_mono; [by eapply Hs|lia]].
    eapply IH; [|exact Hc]. destruct (bm_get seg cs) as [c0|] eqn:E; [|apply narrow_default].
    cbn. by eapply Hs, bm_get_in.
Qed.

(** ** The entries that are kept *)

Definition mode_of_status (s : EntryStatus.t) : option EntryMode.t :=
  match s with
  | EntryStatus.Blob => Some EntryMode.Blob
  | EntryStatus.Executable => Some EntryMode.Executable
  | EntryStatus.Symlink => Some EntryMode.Symlink
  | _ => None
  end.

Definition stage (e : IndexEntry) : option staged :=
  m ← mode_of_status (ie_status e); Some (ie_path e, m, ie_object_hash e).

Lemma keep_entries_ok es : ∀ seen kept kept',
  keep_entries seen kept es = (kept', None) →
  kept' = kept ++ omap stage es ∧ NoDup (paths es) ∧ (∀ p, p ∈ paths es → p ∉ seen) ∧
  Forall (λ e, ie_status e ≠ EntryStatus.Tree) es.
Proof.
  unfold paths. induction es as [|e es IH]; intros seen kept kept'; cbn [keep_entries].
  { intros [= <-]. rewrite app_nil_r. split_and!; [done|constructor|set_solver|constructor]. }
  case_bool_decide as Hs; [done|]. rewrite fmap_cons.
  assert (∀ k k0, keep_entries ({[ie_path e]} ∪ seen) k es = (kept', None) →
    k = kept ++ k0 → omap stage (e :: es) = k0 ++ omap stage es → ie_status e ≠ EntryStatus.Tree →
    kept' = kept ++ omap stage (e :: es) ∧ NoDup (ie_path e :: (ie_path <$> es)) ∧
    (∀ p, p ∈ ie_path e :: (ie_path <$> es) → p ∉ seen) ∧
    Forall (λ e, ie_status e ≠ EntryStatus.Tree) (e :: es)) as Hgo.
  { intros k k0 (-> & Hnd & Hsn & Hf)%IH -> -> Hst. rewrite <- app_assoc. split_and!.
    - done.
    - constructor; [|done]. intros Hin%Hsn. set_solver.
    - intros p [->|Hp]%elem_of_cons; [done|]. apply Hsn in Hp. set_solver.
    - by constructor. }
  assert (∀ m, mode_of_status (ie_status e) = Some m →
    omap stage (e :: es) = [(ie_path e, m, ie_object_hash e)] ++ omap stage es) as Hm.
  { intros m E. cbn. unfold stage at 1. by rewrite E. }
  destruct (ie_status e) eqn:Es; intros H; try done.
  - apply (Hgo kept []); [done|by rewrite app_nil_r| |done]. cbn. unfold stage at 1. by rewrite Es.
  - eapply Hgo; [exact H|done| |done]. by apply Hm.
  - eapply Hgo; [exact H|done| |done]. by apply Hm.
  - eapply Hgo; [exact H|done| |done]. by apply Hm.
Qed.

Lemma stage_mode e p m k : stage e = Some (p, m, k) → m ≠ EntryMode.Tree.
Proof. unfold stage. destruct (ie_status e); by intros [= <- <- <-]. Qed.

Lemma split_last_app dirs leaf : split_last (dirs ++ [leaf]) = Some (leaf, dirs).
Proof. unfold split_last. by rewrite last_snoc, removelast_last. Qed.

Lemma split_last_Some segs leaf dirs : split_last segs = Some (leaf, dirs) → segs = dirs ++ [leaf].
Proof.
  unfold split_last. destruct (list.last segs) as [x|] eqn:E; [|done]. intros [= <- <-].
  apply last_Some in E as (l & ->). by rewrite removelast_last.
Qed.

Lemma split_slash_inj p q : split_slash p = split_slash q → p = q.
Proof. intros E. by rewrite <- (join_split_slash p), E, join_split_slash. Qed.

Definition staged_paths (es : list staged) : list bytes := (λ e, e.1.1) <$> es.

(** After the entries are inserted, the directories hold them. *)
Lemma insert_entries_ok es : ∀ root root',
  wf_node root → NoDup (staged_paths es) → (∀ p m k, (p, m, k) ∈ es → m ≠ EntryMode.Tree) →
  insert_entries root es = Ok root' →
  wf_node root' ∧ (∀ n, narrow n root → narrow (n + length es) root') ∧
  ∀ p v, node_get p root' = Some v ↔
    (∃ path, (path, v.1, v.2) ∈ es ∧ p = split_slash path) ∨
    (∀ path, path ∈ staged_paths es → p ≠ split_slash path) ∧ node_get p root = Some v.
Proof.
  unfold staged_paths. induction es as [|[[path m] k] es IH]; intros root root' Hw Hnd Hmode; cbn [insert_entries].
  { intros [= <-]. split; [done|]. split; [intros; cbn; by rewrite Nat.add_0_r|].
    intros p v. split; [intros; right; split; [set_solver|done]|]. intros [(? & ?%elem_of_nil & _)|[_ ?]]; done. }
  rewrite fmap_cons in *. cbn [fst] in *. inv Hnd as [|? ? Hn Hnd'].
  intros (r1 & H1 & H)%bind_Ok. unfold insert_entry in H1.
  destruct (split_last (split_slash path)) as [[leaf dirs]|] eqn:Es; [|done].
  apply split_last_Some in Es. apply bind_Ok in H1 as ([] & _ & H1).
  assert (m ≠ EntryMode.Tree) as Hm by (eapply Hmode; by left).
  destruct (insert_leaf_ok dirs leaf (m, k) [] root r1 Hm Hw H1) as [Hw1 Hg1].
  destruct (IH r1 root' Hw1 Hnd') as (Hw' & Hnar & Hg); [intros; eapply Hmode; by right|done|].
  split; [done|]. split.
  { intros n Hroot. cbn [length]. rewrite Nat.add_succ_r. apply (Hnar (S n)).
    by eapply insert_leaf_narrow. }
  intros p v. rewrite Hg. setoid_rewrite Hg1. rewrite <- Es. split.
  - intros [(q & Hq & ->)|[Hne Hp]]; [left; exists q; split; [by right|done]|].
    case_bool_decide as E.
    + injection Hp as <-. left. exists path. split; [by left|done].
    + right. split; [|done]. intros q [->|Hq]%elem_of_cons; [done|by apply Hne].
  - intros [(q & [[= -> <- <-]|Hq]%elem_of_cons & ->)|[Hne Hp]].
    + right. split.
      * intros q Hq E%split_slash_inj. congruence.
      * rewrite bool_decide_eq_true_2 by done. by destruct v.
    + left. eauto.
    + right. split; [intros q Hq; apply Hne; by right|].
      rewrite bool_decide_eq_false_2; [done|]. apply Hne. by left.
Qed.

(** ** The trees of a directory *)

Lemma Node_nested_ind (P : Node → Prop) :
  (∀ cs ls, Forall (λ c, P c.2) cs → P (MkNode cs ls)) → ∀ n, P n.
Proof.
  intros H. fix IH 1. intros [cs ls]. apply H.
  induction cs as [|[k c] cs IHcs]; constructor; [apply IH|exact IHcs].
Qed.

Section trees.
Context `{B : Blake3, BI : !Blake3Incremental} (fmt_debug : bytes → bytes).

(** The entries of the subdirectories, from their encodings. *)
Section children_entries.
Context (rec : Node → result WorktreeError bytes).

Fixpoint children_entries (cs : list (bytes * Node)) (es : list TreeEntry)
    : result WorktreeError (list TreeEntry) :=
  match cs with
  | [] => Ok es
  | (name, child) :: cs =>
      bs ← rec child;
      e ← node_entry fmt_debug name EntryMode.Tree (object_id_from_bytes bs);
      children_entries cs (es ++ [e])
  end.
End children_entries.

(** The encoding of the tree of a directory, and of every tree that is written for it. *)
Fixpoint node_bytes (n : Node) : result WorktreeError bytes :=
  let 'MkNode cs ls := n in
  es ← children_entries node_bytes cs [];
  es ← leaf_entries fmt_debug ls es;
  wt_object (serialize (OTree {| tree_entries := sort_entries es |})).

Fixpoint trees_of (n : Node) : list bytes :=
  let 'MkNode cs ls := n in
  concat (map (λ c, trees_of c.2) cs) ++
  match node_bytes (MkNode cs ls) with Ok bs => [bs] | Err _ => [] end.

Abbreviation ids_of ws := (object_id_from_bytes <$> ws).

Section writing.
Context {S : Type} `{!ObjectSource S, !ObjectSink S}
  (I : S → Prop) (view : S → hash32 → result StoreError bytes) `{V : !Keeper I view}.

(** What writing a node promises. *)
Definition node_written (n : Node) : Prop := ∀ s, I s →
  let r := write_node fmt_debug n s in
  grows I view s r.2 ∧ ∀ h, r.1 = Ok h →
    ∃ bs, node_bytes n = Ok bs ∧ h = object_id_from_bytes bs ∧
      Forall (readable view r.2) (ids_of (trees_of n)).

Lemma write_children_ok cs : Forall (λ c, node_written c.2) cs → ∀ es s, I s →
  let r := write_children fmt_debug (write_node fmt_debug) cs es s in
  grows I view s r.2 ∧ ∀ es', r.1 = Ok es' →
    children_entries node_bytes cs es = Ok es' ∧
    Forall (readable view r.2) (ids_of (concat (map (λ c, trees_of c.2) cs))).
Proof.
  induction 1 as [|[name c] cs Hc _ IH]; intros es s Hs; cbn [write_children children_entries].
  { split; [by apply grows_refl|]. intros es' [= <-]. split; [done|constructor]. }
  cbv zeta. unfold me_bind, me_lift. destruct (Hc s Hs) as [Hg Hh]. cbn [snd] in Hg, Hh.
  destruct (write_node fmt_debug c s) as [[h|e] s1]; cbn in Hg, Hh; [|done].
  destruct (Hh h eq_refl) as (bs & -> & -> & Hr). cbn [mbind result_bind].
  destruct (node_entry fmt_debug name EntryMode.Tree (object_id_from_bytes bs)) as [e|err]; [|done].
  cbn [mbind result_bind]. destruct (IH (es ++ [e]) s1) as [Hg2 Hes]; [by destruct Hg|].
  split; [by eapply grows_trans|]. intros es' E. destruct (Hes es' E) as [-> Hr2].
  split; [done|]. cbn [map concat snd]. rewrite fmap_app. apply Forall_app.
  split; [by eapply readable_all_grows|done].
Qed.

Lemma write_node_ok n : node_written n.
Proof.
  induction n as [cs ls Hcs] using Node_nested_ind. intros s Hs. cbv zeta.
  assert (write_node fmt_debug (MkNode cs ls) =
    me_bind (write_children fmt_debug (write_node fmt_debug) cs []) (λ entries,
    me_bind (me_lift (leaf_entries fmt_debug ls entries)) (λ entries,
    me_bind (me_lift (wt_object (serialize (OTree {| tree_entries := sort_entries entries |}))))
      (λ bs, wt (sink_put bs))))) as -> by done.
  destruct (write_children_ok cs Hcs [] s Hs) as [Hg Hes]. unfold me_bind, me_lift.
  destruct (write_children fmt_debug (write_node fmt_debug) cs [] s) as [[es|e] s1]; cbn in Hg, Hes; [|simpl; split; [exact Hg|done]].
  destruct (Hes es eq_refl) as [Hce Hr].
  assert (node_bytes (MkNode cs ls) =
    es' ← leaf_entries fmt_debug ls es; wt_object (serialize (OTree {| tree_entries := sort_entries es' |}))) as Hn.
  { cbn [node_bytes]. by rewrite Hce. }
  cbn [trees_of]. rewrite Hn.
  destruct (leaf_entries fmt_debug ls es) as [es'|e]; [|simpl; split; [exact Hg|done]].
  cbn [mbind result_bind]. destruct (wt_object _) as [bs|e]; [|simpl; split; [exact Hg|done]]. unfold wt.
  destruct (keep_put bs s1 (proj1 Hg)) as (HI & Hg2 & Hput).
  destruct (sink_put bs s1) as [[id|e] s2]; cbn in *; [|split; [|done]; by eapply grows_trans].
  assert (grows I view s s2) as Hg3 by (by eapply grows_trans). split; [done|].
  intros h [= <-]. destruct (Hput id eq_refl) as [-> Hid]. exists bs. split_and!; [done..|].
  rewrite fmap_app. apply Forall_app. split; [|by constructor].
  eapply readable_all_grows; [|exact Hr]. by split.
Qed.
End writing.

(** ** Reading the trees back *)

Lemma node_entry_Ok name mode h e :
  node_entry fmt_debug name mode h = Ok e ↔
  validate_name name = true ∧ e = {| te_name := name; te_mode := mode; te_hash := h |}.
Proof.
  unfold node_entry. split.
  - intros ([] & Hv%ensure_Ok & [= <-])%bind_Ok. done.
  - intros [Hv ->]. by rewrite Hv.
Qed.

(** The entry of a subdirectory. *)
Definition child_entry (c : bytes * Node) (e : TreeEntry) : Prop :=
  te_name e = c.1 ∧ te_mode e = EntryMode.Tree ∧ validate_name c.1 = true ∧
  ∃ bs, node_bytes c.2 = Ok bs ∧ te_hash e = object_id_from_bytes bs.

Lemma children_entries_Ok cs : ∀ es es',
  children_entries node_bytes cs es = Ok es' → ∃ ces, es' = es ++ ces ∧ Forall2 child_entry cs ces.
Proof.
  induction cs as [|[name c] cs IH]; intros es es'; cbn [children_entries].
  { intros [= <-]. exists []. rewrite app_nil_r. split; [done|constructor]. }
  intros (bs & Hbs & (e & [Hv ->]%node_entry_Ok & (ces & -> & Hf)%IH)%bind_Ok)%bind_Ok.
  eexists (_ :: ces). rewrite <- app_assoc. split; [done|]. constructor; [|done].
  split_and!; [done..|]. exists bs. done.
Qed.

(** The entry of a leaf. *)
Definition leaf_entry (l : bytes * (EntryMode.t * hash32)) (e : TreeEntry) : Prop :=
  validate_name l.1 = true ∧ e = {| te_name := l.1; te_mode := l.2.1; te_hash := l.2.2 |}.

Lemma leaf_entries_Ok ls : ∀ es es',
  leaf_entries fmt_debug ls es = Ok es' → ∃ les, es' = es ++ les ∧ Forall2 leaf_entry ls les.
Proof.
  induction ls as [|[name [m h]] ls IH]; intros es es'; cbn [leaf_entries].
  { intros [= <-]. exists []. rewrite app_nil_r. split; [done|constructor]. }
  intros (e & [Hv ->]%node_entry_Ok & (les & -> & Hf)%IH)%bind_Ok.
  eexists (_ :: les). rewrite <- app_assoc. split; [done|]. by constructor.
Qed.

Lemma child_names cs ces : Forall2 child_entry cs ces → names ces = cs.*1.
Proof.
  unfold names. induction 1 as [|c e cs ces [Hn _] _ IH]; [done|]. by rewrite !fmap_cons, IH, Hn.
Qed.

Lemma leaf_names ls les : Forall2 leaf_entry ls les → names les = ls.*1.
Proof.
  unfold names. induction 1 as [|l e ls les [_ ->] _ IH]; [done|]. by rewrite !fmap_cons, IH.
Qed.

Lemma bm_sorted_ascending {W} (m : list (bytes * W)) : bm_sorted m → ascending m.*1.
Proof.
  induction 1 as [|x m Hm IH Hall]; [constructor|]. rewrite fmap_cons. constructor; [done|].
  by apply Forall_map.
Qed.

Lemma ascending_NoDup (l : list bytes) : ascending l → NoDup l.
Proof.
  induction 1 as [|x l Hl IH Hall]; constructor; [|done]. intros Hin.
  eapply list.Forall_forall in Hall; [|exact Hin]. by apply bytes_lt_irrefl in Hall.
Qed.

(** Sorting distinct names makes them ascend. *)
Lemma sort_entries_ascending es : NoDup (names es) → ascending (names (sort_entries es)).
Proof.
  intros Hnd. assert (names (sort_entries es) ≡ₚ names es) as Hp
    by (apply fmap_Permutation, stable_sort_perm).
  rewrite <- Hp in Hnd.
  assert (Sorted (λ a b, bytes_leb (te_name a) (te_name b) = true) (sort_entries es)) as Hs.
  { apply stable_sort_sorted. intros a b. rewrite !bytes_leb_ltb.
    destruct (bytes_lt_total (te_name a) (te_name b)) as [H|[->|H]]; unfold bytes_lt in *.
    - left. destruct (bytes_ltb (te_name b) (te_name a)) eqn:E; [|done].
      by destruct (bytes_lt_irrefl (te_name a)); apply (transitivity (R := bytes_lt) H E).
    - left. destruct (bytes_ltb (te_name b) (te_name b)) eqn:E; [|done]. by apply bytes_lt_irrefl in E.
    - right. destruct (bytes_ltb (te_name a) (te_name b)) eqn:E; [|done].
      by destruct (bytes_lt_irrefl (te_name a)); apply (transitivity (R := bytes_lt) E H). }
  revert Hnd Hs. generalize (sort_entries es) as l. clear. intros l Hnd Hs.
  apply Sorted_StronglySorted; [intros x y z; apply (transitivity (R := bytes_lt))|].
  induction Hs as [|e l Hs IH Hhd]; [constructor|]. unfold names in *. rewrite fmap_cons in *.
  inv Hnd as [|? ? Hn Hnd']. constructor; [by apply IH|].
  destruct Hhd as [|e' l Hle]; [constructor|]. rewrite fmap_cons in *. constructor.
  rewrite bytes_leb_ltb in Hle. apply negb_true_iff in Hle.
  destruct (bytes_lt_total (te_name e) (te_name e')) as [H|[H|H]]; unfold bytes_lt in *; [done| |congruence].
  destruct Hn. rewrite H. by left.
Qed.

Lemma node_names_NoDup cs ls : wf_node (MkNode cs ls) → NoDup (cs.*1 ++ ls.*1).
Proof.
  intros Hw. inv Hw as [? ? Hcs Hls Hd _ _].
  apply list.NoDup_app. split_and!; [by apply ascending_NoDup, bm_sorted_ascending| |by apply ascending_NoDup, bm_sorted_ascending].
  intros k ([k1 c] & -> & Hk1)%list_elem_of_fmap ([k2 v] & Ek & Hk2)%list_elem_of_fmap. cbn in Ek. subst k2.
  apply bm_get_elem in Hk1, Hk2; [|done..]. rewrite (Hd k1) in Hk2 by eauto. done.
Qed.

Lemma node_tree_wf cs ls ces les :
  wf_node (MkNode cs ls) → narrow (N.to_nat MAX_TREE_ENTRIES) (MkNode cs ls) →
  Forall2 child_entry cs ces → Forall2 leaf_entry ls les →
  wf_tree {| tree_entries := sort_entries (ces ++ les) |} = true.
Proof.
  intros Hw Hn Hc Hl. inv Hn as [? ? Hlen _]. unfold wf_tree. rewrite !andb_true_iff. split_and!; cbn [tree_entries].
  - apply N.leb_le. unfold lenN, sort_entries. rewrite (Permutation_length (stable_sort_perm _ _)), length_app.
    apply Forall2_length in Hc, Hl. lia.
  - apply forallb_forall. intros e Hin%list_elem_of_In. unfold sort_entries in Hin.
    rewrite (stable_sort_perm _ _) in Hin. apply elem_of_app in Hin as [Hin|Hin].
    + apply list_elem_of_lookup in Hin as [i Hi].
      destruct (Forall2_lookup_r _ _ _ _ _ Hc Hi) as (c & _ & -> & _ & ? & _). done.
    + apply list_elem_of_lookup in Hin as [i Hi].
      destruct (Forall2_lookup_r _ _ _ _ _ Hl Hi) as (l & _ & ? & ->). done.
  - apply ascending_sorted, sort_entries_ascending. unfold names. rewrite fmap_app. fold (names ces) (names les).
    rewrite (child_names cs) by done. rewrite (leaf_names ls) by done.
    by apply node_names_NoDup.
Qed.

Lemma Forall_or {A} (P : A → Prop) (Q : Prop) l : Forall (λ x, P x ∨ Q) l → Forall P l ∨ Q.
Proof.
  induction 1 as [|x l [Hx|Hq] _ [IH|IH]]; [left; constructor|left; by constructor|by right..].
Qed.

Lemma Forall2_elem_l {A C} (R : A → C → Prop) l k x :
  Forall2 R l k → x ∈ l → ∃ y, y ∈ k ∧ R x y.
Proof.
  intros Hf [i Hi]%list_elem_of_lookup. destruct (Forall2_lookup_l _ _ _ _ _ Hf Hi) as (y & Hy & Hr).
  exists y. split; [|done]. apply list_elem_of_lookup. eauto.
Qed.

Lemma Forall2_elem_r {A C} (R : A → C → Prop) l k y :
  Forall2 R l k → y ∈ k → ∃ x, x ∈ l ∧ R x y.
Proof. intros Hf%Forall2_flip Hy. by apply (Forall2_elem_l _ k l y Hf). Qed.

Section reading.
Context (v : hash32 → result StoreError bytes).

(** The tree [h] is there and its leaves are those of the node. *)
Definition holds_node (n : Node) (h : hash32) : Prop :=
  ∃ es, view_object v h = Ok (OTree {| tree_entries := es |}) ∧
    ∀ p m k, leaf_of v es p m k ↔ node_get p n = Some (m, k).

Lemma holds_leaves cs ls ces les :
  wf_node (MkNode cs ls) → Forall2 child_entry cs ces → Forall2 leaf_entry ls les →
  (∀ c e, c ∈ cs → child_entry c e → holds_node c.2 (te_hash e)) →
  ∀ p m k, leaf_of v (sort_entries (ces ++ les)) p m k ↔ node_get p (MkNode cs ls) = Some (m, k).
Proof.
  intros Hw Hc Hl Hh p m k. inv Hw as [? ? Hcs Hls _ Hm _].
  assert (∀ e, e ∈ sort_entries (ces ++ les) ↔ e ∈ ces ∨ e ∈ les) as Hin.
  { intros e. unfold sort_entries. by rewrite (stable_sort_perm _ _), elem_of_app. }
  assert (∀ c e, child_entry c e → is_tree e = true) as Htree.
  { intros c e (_ & Hmode & _). unfold is_tree. by rewrite Hmode. }
  assert (∀ l e, l ∈ ls → leaf_entry l e → is_tree e = false) as Hfile.
  { intros [n [m' k']] e Hin' [_ ->]. apply bool_decide_eq_false, (Hm n (m', k') Hin'). }
  split.
  - intros (e & p' & [He|He]%Hin & -> & Hleaf).
    + destruct (Forall2_elem_r _ _ _ _ Hc He) as ([n c] & Hin' & Hce).
      pose proof Hce as (Hn & _). cbn in Hn. rewrite Hn.
      destruct (Hh _ _ Hin' Hce) as (es & Hv & Hiff).
      rewrite leaf_tree in Hleaf by eauto. apply Hiff in Hleaf.
      destruct p' as [|x p']; [done|]. rewrite node_get_deep. cbn [children].
      apply bm_get_elem in Hin' as ->; done.
    + destruct (Forall2_elem_r _ _ _ _ Hl He) as ([n [m' k']] & Hin' & Hle).
      apply leaf_not_tree in Hleaf as (-> & -> & ->); [|by eapply Hfile].
      destruct Hle as [_ ->]. cbn. by apply bm_get_elem.
  - destruct p as [|x [|y p]]; [done|..].
    + cbn [node_get leaves]. intros Hg%bm_get_elem; [|done].
      destruct (Forall2_elem_l _ _ _ _ Hl Hg) as (e & He & Hle). pose proof (Hfile _ _ Hg Hle) as Hf.
      destruct Hle as [_ ->]. eexists _, []. split; [apply Hin; right; exact He|]. split; [done|].
      by apply leaf_not_tree.
    + rewrite node_get_deep. cbn [children]. destruct (bm_get x cs) as [c|] eqn:Hg; [|done].
      cbn [mbind option_bind]. intros Hnode. apply bm_get_elem in Hg; [|done].
      destruct (Forall2_elem_l _ _ _ _ Hc Hg) as (e & He & Hce).
      destruct (Hh _ _ Hg Hce) as (es & Hv & Hiff). pose proof (Htree _ _ Hce) as Ht.
      exists e, (y :: p). split; [apply Hin; by left|]. split; [by destruct Hce as (-> & _)|].
      eapply leaf_tree; [done|exact Hv|]. by apply Hiff.
Qed.
End reading.

Lemma trees_of_child cs ls n c : (n, c) ∈ cs → ∀ w, w ∈ trees_of c → w ∈ trees_of (MkNode cs ls).
Proof.
  intros Hin w Hw. cbn [trees_of]. apply elem_of_app. left. apply list_elem_of_In, in_concat.
  exists (trees_of c). split; [|by apply list_elem_of_In]. apply in_map_iff. exists (n, c).
  split; [done|by apply list_elem_of_In].
Qed.

Section view.
Context {S : Type} `{!ObjectSource S, !ObjectSink S}
  (I : S → Prop) (view : S → hash32 → result StoreError bytes) `{V : !Keeper I view}.

Lemma view_node n : ∀ bs s,
  I s → wf_node n → narrow (N.to_nat MAX_TREE_ENTRIES) n → node_bytes n = Ok bs →
  Forall (readable view s) (ids_of (trees_of n)) →
  holds_node (view s) n (object_id_from_bytes bs) ∨ clash (view s) (trees_of n).
Proof.
  induction n as [cs ls IH] using Node_nested_ind. intros bs s Hs Hw Hn Hbs Hr.
  pose proof Hbs as Hbs'. cbn [node_bytes] in Hbs'.
  apply bind_Ok in Hbs' as (es & (ces & -> & Hc)%children_entries_Ok & Hbs').
  apply bind_Ok in Hbs' as (es & (les & -> & Hl)%leaf_entries_Ok & Hbs'). cbn [app] in Hbs'.
  destruct (serialize _) as [bs'|] eqn:Hser; [|done]. injection Hbs' as ->.
  assert (∀ w, w ∈ trees_of (MkNode cs ls) → readable view s (object_id_from_bytes w)) as Hread.
  { intros w Hin. eapply list.Forall_forall in Hr; [exact Hr|]. by apply list_elem_of_fmap_2. }
  assert (bs ∈ trees_of (MkNode cs ls)) as Hself.
  { cbn [trees_of]. apply elem_of_app. right. rewrite Hbs. by left. }
  assert (Forall (λ c, (∀ e, child_entry c e → holds_node (view s) c.2 (te_hash e)) ∨
                       clash (view s) (trees_of (MkNode cs ls))) cs) as Hcs.
  { apply list.Forall_forall. intros [name c] Hin. eapply list.Forall_forall in IH; [|exact Hin].
    destruct (Forall2_elem_l _ _ _ _ Hc Hin) as (e0 & _ & _ & _ & _ & bs0 & Hbs0 & _).
    cbn in Hbs0. destruct (IH bs0 s Hs) as [Hh|Hcl].
    - inv Hw as [? ? ? ? ? ? Hsub]. by apply (Hsub name).
    - inv Hn as [? ? ? Hsub]. by apply (Hsub name).
    - done.
    - apply list.Forall_forall. intros h (w & -> & Hin')%list_elem_of_fmap. apply Hread.
      by eapply trees_of_child.
    - left. intros e (_ & _ & _ & bs1 & Hbs1 & ->). cbn in *. congruence.
    - right. eapply clash_sub; [|exact Hcl]. by eapply trees_of_child. }
  apply Forall_or in Hcs as [Hcs|Hcl]; [|by right].
  destruct (read_written I view s (OTree {| tree_entries := sort_entries (ces ++ les) |}) bs Hs
      (node_tree_wf cs ls ces les Hw Hn Hc Hl) Hser (Hread bs Hself))
    as [Hv|Hcl].
  - left. eexists. split; [exact Hv|]. apply (holds_leaves (view s) cs ls ces les Hw Hc Hl).
    intros c e Hin. eapply list.Forall_forall in Hcs; [|exact Hin]. apply Hcs.
  - right. eapply clash_sub; [|exact Hcl]. by intros w ->%list_elem_of_singleton.
Qed.
End view.
End trees.

(** ** The index of a tree *)

Definition path_of (prefix : bytes) (p : list bytes) : bytes := foldl under_prefix prefix p.

Lemma path_of_prefix p : ∀ prefix, prefix ≠ [] →
  path_of prefix p = prefix ++ match p with [] => [] | _ => b# "/" ++ join_slash p end.
Proof.
  unfold path_of. induction p as [|x p IH]; intros prefix Hne; [by rewrite app_nil_r|].
  cbn [foldl]. destruct prefix as [|c prefix]; [done|]. set (pre := c :: prefix).
  rewrite IH by done. unfold under_prefix, pre. rewrite <- !app_assoc. f_equal. f_equal.
  destruct p; [by rewrite app_nil_r|done].
Qed.

Lemma path_of_join p : Forall (λ s, s ≠ []) p → path_of [] p = join_slash p.
Proof.
  intros Hf. destruct Hf as [|x p Hx Hf]; [done|]. change (path_of [] (x :: p)) with (path_of x p).
  rewrite path_of_prefix by done. by destruct p; [rewrite app_nil_r|].
Qed.

(** The entry of a leaf, without a stat cache. *)
Definition fresh_entry (path : bytes) (m : EntryMode.t) (k : hash32) : IndexEntry :=
  {| ie_path := path; ie_status := status_of_mode m; ie_object_hash := k; ie_mtime_ns := 0;
     ie_size := 0; ie_ino := 0; ie_ctime_ns := 0 |}.

Definition entry_at (prefix : bytes) (l : list bytes * EntryMode.t * hash32) : IndexEntry :=
  fresh_entry (path_of prefix l.1.1) l.1.2 l.2.

Section from_tree.
Context `{B : Blake3} (st : ObjectStore).
Abbreviation leaf_list := (list (list bytes * EntryMode.t * hash32)).

(** The leaves below the entry, below the entries. *)
Definition lists_leaf (e : TreeEntry) (ls : leaf_list) : Prop :=
  NoDup (ls.*1.*1) ∧ ∀ p m k, (p, m, k) ∈ ls ↔ leaf (read st) e p m k.
Definition lists_leaves (es : list TreeEntry) (ls : leaf_list) : Prop :=
  NoDup (ls.*1.*1) ∧ ∀ p m k, (p, m, k) ∈ ls ↔ leaf_of (read st) es p m k.

(** What the walk below a prefix adds to the entries. *)
Definition pushes (ok : leaf_list → Prop) (prefix : bytes) (entries entries' : list IndexEntry) : Prop :=
  ∃ ls, ok ls ∧ entries' = entries ++ (entry_at prefix <$> ls) ∧
    Forall (λ e, validate_index_path (ie_path e) = true) (entry_at prefix <$> ls).

(** A subtree, walked. *)
Definition walks (sub : hash32 → bytes → list IndexEntry → result IndexError (list IndexEntry)) : Prop :=
  ∀ h prefix entries entries', sub h prefix entries = Ok entries' →
    ∃ es, view_object (read st) h = Ok (OTree {| tree_entries := es |}) ∧
      pushes (lists_leaves es) prefix entries entries'.

Lemma push_entry_ok sub prefix e entries entries' :
  walks sub → push_entry sub prefix e entries = Ok entries' →
  pushes (lists_leaf e) (under_prefix prefix (te_name e)) entries entries'.
Proof.
  intros Hsub. unfold push_entry. intros ([] & _ & H)%bind_Ok.
  destruct (is_tree e) eqn:Ht.
  - unfold is_tree in Ht. apply bool_decide_eq_true in Ht as Hm. rewrite Hm in H.
    apply Hsub in H as (es & Hv & ls & [Hnd Hls] & -> & Hval). exists ls. split_and!; [|done..].
    split; [done|]. intros p m k. rewrite Hls. symmetry. by apply leaf_tree.
  - assert (Hfile : ∀ mode, te_mode e = mode →
      (_ ← ensure (validate_index_path (under_prefix prefix (te_name e)))
             (IxInvalidPath (under_prefix prefix (te_name e)));
       Ok (entries ++ [fresh_entry (under_prefix prefix (te_name e)) mode (te_hash e)])) = Ok entries' →
      pushes (lists_leaf e) (under_prefix prefix (te_name e)) entries entries').
    { intros mode <- ([] & Hv%ensure_Ok & [= <-])%bind_Ok. exists [([], te_mode e, te_hash e)].
      split_and!; [|done|by repeat constructor]. split; [repeat constructor; apply not_elem_of_nil|].
      intros p m k. rewrite leaf_not_tree, list_elem_of_singleton by done. naive_solver. }
    unfold is_tree in Ht. apply bool_decide_eq_false in Ht.
    revert H. destruct (te_mode e) eqn:Em; intros H; try done; (eapply Hfile; [reflexivity|exact H]).
Qed.

Lemma push_entries_ok sub prefix es : ∀ entries entries',
  walks sub → NoDup (names es) → push_entries sub prefix es entries = Ok entries' →
  pushes (lists_leaves es) prefix entries entries'.
Proof.
  unfold names. induction es as [|e es IH]; intros entries entries' Hsub Hnd; cbn [push_entries].
  { intros [= <-]. exists []. rewrite app_nil_r. split_and!; [|done|constructor].
    split; [constructor|]. intros p m k. rewrite elem_of_nil. split; [done|].
    by intros (e & p' & ?%elem_of_nil & _). }
  rewrite fmap_cons in Hnd. inv Hnd as [|? ? Hn Hnd'].
  intros (en & (ls1 & [Hnd1 Hls1] & -> & Hv1)%push_entry_ok & H)%bind_Ok; [|done].
  apply IH in H as (ls2 & [Hnd2 Hls2] & -> & Hv2); [|done..].
  set (ls1' := (λ l, (te_name e :: l.1.1, l.1.2, l.2)) <$> ls1).
  assert (entry_at prefix <$> ls1' = entry_at (under_prefix prefix (te_name e)) <$> ls1) as E1.
  { unfold ls1'. rewrite <- list_fmap_compose. done. }
  assert (∀ p m k, (p, m, k) ∈ ls1' ↔ ∃ p', p = te_name e :: p' ∧ leaf (read st) e p' m k) as Hls1'.
  { intros p m k. unfold ls1'. rewrite list_elem_of_fmap. split.
    - intros ([[p' m'] k'] & [= -> -> ->] & Hin%Hls1). eauto.
    - intros (p' & -> & Hin%Hls1). by exists (p', m, k). }
  exists (ls1' ++ ls2). rewrite fmap_app, E1, <- app_assoc. split_and!; [|done|by apply Forall_app].
  split.
  - rewrite !fmap_app. apply list.NoDup_app. split_and!; [|..|done].
    + assert (ls1'.*1.*1 = (te_name e ::.) <$> ls1.*1.*1) as ->.
      { unfold ls1'. clear. induction ls1 as [|l ls1 IH]; [done|]. rewrite !fmap_cons. by rewrite IH. }
      apply NoDup_fmap; [intros ? ? [= ->]; done|done].
    + intros p ([p1 m1] & -> & ([[? ?] k1] & [= <- <-] & Hin1)%list_elem_of_fmap)%list_elem_of_fmap
        ([p2 m2] & Ep & ([[? ?] k2] & [= <- <-] & Hin2)%list_elem_of_fmap)%list_elem_of_fmap.
      cbn in Ep. subst p2. apply Hls1' in Hin1 as (p' & -> & _).
      apply Hls2 in Hin2 as (e2 & p2 & He2 & [= En _] & _). apply Hn. rewrite En. by apply list_elem_of_fmap_2.
  - intros p m k. rewrite elem_of_app, Hls1', Hls2. unfold leaf_of. split.
    + intros [(p' & -> & Hl)|(e2 & p' & He2 & -> & Hl)]; [exists e, p'|exists e2, p'];
        (split; [|done]); [by left|by right].
    + intros (e2 & p' & [->|He2]%elem_of_cons & -> & Hl); [left; eauto|right; eauto 6].
Qed.

Lemma good_names_NoDup es : good_entries es → NoDup (names es).
Proof. intros H. by apply ascending_NoDup, good_ascending. Qed.

Lemma push_tree_entries_ok levels : walks (push_tree_entries st levels).
Proof.
  induction levels as [|levels IH]; intros h prefix entries entries'; [done|]. cbn [push_tree_entries].
  intros (o & Ho & H)%bind_Ok. unfold ix_store in Ho. rewrite read_object_default in Ho.
  destruct (bs ← read st h; decode_err (deserialize bs)) as [o'|e] eqn:Ev; [|done]. injection Ho as ->.
  destruct o as [|[es]| | | | |]; try done. exists es. split; [exact Ev|].
  apply push_entries_ok in H; [done|done|]. by eapply good_names_NoDup, view_object_good.
Qed.
End from_tree.

Lemma validate_name_segment n : validate_name n = true → n ≠ [] ∧ (SLASH ∉ n).
Proof.
  unfold validate_name. intros H. split.
  - intros ->. done.
  - intros Hin. destruct (_ || _); [done|]. destruct (_ || _); [done|].
    destruct (existsb is_forbidden_byte n) eqn:E; [done|].
    apply not_true_iff_false in E. apply E, existsb_exists. exists SLASH.
    split; [by apply list_elem_of_In|done].
Qed.

Section leaf_paths.
Context `{B : Blake3} (v : hash32 → result StoreError bytes).

Lemma leaf_valid e p m k : leaf v e p m k → Forall (λ s, validate_name s = true) p.
Proof.
  induction 1 as [|e es e' p m k _ Hv Hin _ IH]; constructor; [|done].
  eapply good_valid; [by eapply view_object_good|by apply list_elem_of_fmap_2].
Qed.

Lemma leaf_of_valid es p m k : good_entries es → leaf_of v es p m k → Forall (λ s, validate_name s = true) p.
Proof.
  intros Hg (e & q & Hin & -> & Hl%leaf_valid). constructor; [|done].
  eapply good_valid; [exact Hg|by apply list_elem_of_fmap_2].
Qed.

(** The segments of the path of a leaf. *)
Definition segments (p : list bytes) : Prop := Forall (λ s, s ≠ [] ∧ (SLASH ∉ s)) p.

Lemma leaf_of_segments es p m k : good_entries es → leaf_of v es p m k → p ≠ [] ∧ segments p.
Proof.
  intros Hg Hl. split; [by destruct Hl as (e & p' & _ & -> & _)|].
  eapply list.Forall_impl; [by eapply leaf_of_valid|]. by intros s Hs%validate_name_segment.
Qed.
End leaf_paths.

Lemma segments_join p : p ≠ [] → segments p → path_of [] p = join_slash p ∧ split_slash (join_slash p) = p.
Proof.
  intros Hne Hs. split.
  - apply path_of_join. eapply list.Forall_impl; [exact Hs|]. by intros s [? _].
  - apply split_join_slash; [done|]. eapply list.Forall_impl; [exact Hs|]. by intros s [_ ?].
Qed.

Section from_tree_spec.
Context `{B : Blake3} (st : ObjectStore).

Lemma from_tree_ok h idx :
  from_tree st h = Ok idx →
  ∃ es, view_object (read st) h = Ok (OTree {| tree_entries := es |}) ∧ wf_index idx ∧
    Forall (λ e, validate_index_path (ie_path e) = true) (idx_entries idx) ∧
    ∀ e, e ∈ idx_entries idx ↔
      ∃ p m k, leaf_of (read st) es p m k ∧ split_slash (ie_path e) = p ∧
        e = fresh_entry (ie_path e) m k.
Proof.
  unfold from_tree. intros (en & H & [= <-])%bind_Ok.
  apply push_tree_entries_ok in H as (es & Hv & ls & [Hnd Hls] & -> & Hval). cbn [app] in *.
  exists es. split; [done|]. pose proof (view_object_good _ _ _ Hv) as Hg.
  assert (∀ l, l ∈ ls → split_slash (path_of [] l.1.1) = l.1.1) as Hsplit.
  { intros [[p m] k] Hin%Hls. destruct (leaf_of_segments _ _ _ _ _ Hg Hin) as [Hne Hs].
    cbn [fst]. by destruct (segments_join p Hne Hs) as [-> ->]. }
  assert (NoDup (paths (entry_at [] <$> ls))) as Hnd'.
  { apply (NoDup_fmap_1 split_slash).
    assert (split_slash <$> paths (entry_at [] <$> ls) = ls.*1.*1) as ->; [|done].
    clear -Hsplit. unfold paths. induction ls as [|l ls IH]; [done|]. rewrite !fmap_cons, IH.
    - f_equal. apply (Hsplit l). by left.
    - intros l' Hl'. apply Hsplit. by right. }
  split; [by apply rebuild_wf|]. split; [done|]. intros e. cbn [from_entries rebuild_path_index idx_entries].
  rewrite list_elem_of_fmap. split.
  - intros ([[p m] k] & -> & Hin). exists p, m, k. split; [by apply Hls|].
    split; [apply (Hsplit _ Hin)|done].
  - intros (p & m & k & Hl & Hp & E). pose proof Hl as Hin%Hls. exists (p, m, k). split; [|done].
    rewrite E. unfold entry_at. cbn [fst snd]. f_equal. apply split_slash_inj.
    rewrite Hp. symmetry. apply (Hsplit _ Hin).
Qed.
End from_tree_spec.

(** ** The tree of an index *)

Lemma try_for_each_Ok {T E} (f : T → result E unit) items :
  try_for_each f items = Ok tt ↔ Forall (λ it, f it = Ok tt) items.
Proof.
  induction items as [|x items IH]; cbn [try_for_each]; [by split; [constructor|]|].
  rewrite bind_Ok. split.
  - intros ([] & Hx & H%IH). by constructor.
  - intros H. inv H. exists tt. split; [done|by apply IH].
Qed.

Lemma try_for_each_Err {T E} (f : T → result E unit) items e :
  try_for_each f items = Err e → Exists (λ it, f it = Err e) items.
Proof.
  induction items as [|x items IH]; cbn [try_for_each]; [done|].
  intros [Hx|([] & _ & H%IH)]%bind_Err; by constructor.
Qed.

(** The entries that a tree is built of, and the trees that are written for it. *)
Definition live_entries (idx : Index) : list staged := omap stage (idx_entries idx).

Definition index_trees `{B : Blake3} (fmt_debug : bytes → bytes) (idx : Index) : list bytes :=
  match insert_entries Node_default (live_entries idx) with
  | Ok root => trees_of fmt_debug root
  | Err _ => []
  end.

(** The live entry at a path of segments. *)
Definition live_at_path (idx : Index) (p : list bytes) (m : EntryMode.t) (k : hash32) : Prop :=
  ∃ e, e ∈ idx_entries idx ∧ split_slash (ie_path e) = p ∧
    mode_of_status (ie_status e) = Some m ∧ ie_object_hash e = k.

Lemma elem_of_live_entries idx path m k :
  (path, m, k) ∈ live_entries idx ↔
  ∃ e, e ∈ idx_entries idx ∧ ie_path e = path ∧ mode_of_status (ie_status e) = Some m ∧
    ie_object_hash e = k.
Proof.
  unfold live_entries. rewrite list_elem_of_omap. unfold stage. split.
  - intros (e & Hin & H). destruct (mode_of_status (ie_status e)) eqn:E; [|done].
    injection H as <- <- <-. eauto.
  - intros (e & Hin & <- & Hm & <-). exists e. by rewrite Hm.
Qed.

Lemma live_paths_NoDup idx : NoDup (paths (idx_entries idx)) → NoDup (staged_paths (live_entries idx)).
Proof.
  unfold live_entries, staged_paths, paths. induction (idx_entries idx) as [|e es IH]; [constructor|].
  rewrite fmap_cons. intros H. inv H as [|? ? Hn Hnd]. cbn. destruct (stage e) as [[[p m] k]|] eqn:E; [|by apply IH].
  rewrite fmap_cons. constructor; [|by apply IH]. cbn.
  assert (p = ie_path e) as ->.
  { unfold stage in E. destruct (mode_of_status (ie_status e)); [|done]. by injection E as <- <- <-. }
  intros ([[p' m'] k'] & Ep & (e' & Hin & E')%list_elem_of_omap)%list_elem_of_fmap. apply Hn.
  unfold stage in E'. destruct (mode_of_status (ie_status e')); [|done]. injection E' as <- <- <-.
  cbn in Ep. rewrite Ep. by apply list_elem_of_fmap_2.
Qed.

Lemma live_entries_length idx : length (live_entries idx) ≤ length (idx_entries idx).
Proof.
  unfold live_entries. induction (idx_entries idx) as [|e es IH]; [done|].
  cbn. destruct (stage e); cbn; lia.
Qed.

(** The directories of a consistent index. *)
Lemma index_root_ok idx root :
  NoDup (paths (idx_entries idx)) →
  insert_entries Node_default (live_entries idx) = Ok root →
  wf_node root ∧ narrow (length (idx_entries idx)) root ∧
  ∀ p m k, node_get p root = Some (m, k) ↔ live_at_path idx p m k.
Proof.
  intros Hnd H.
  destruct (insert_entries_ok (live_entries idx) Node_default root) as (Hw & Hnar & Hg).
  - apply wf_default.
  - by apply live_paths_NoDup.
  - intros p m k (e & _ & _ & Hm & _)%elem_of_live_entries. destruct (ie_status e); by simplify_eq/=.
  - done.
  - split; [done|]. split.
    + eapply narrow_mono; [apply (Hnar 0), narrow_default|].
      pose proof (live_entries_length idx). lia.
    + intros p m k. rewrite Hg, node_get_default. unfold live_at_path. setoid_rewrite elem_of_live_entries.
      cbn [fst snd]. split.
      * intros [(path & (e & Hin & <- & Hm & Hk) & ->)|[_ ?]]; [|done]. by exists e.
      * intros (e & Hin & <- & Hm & Hk). left. exists (ie_path e). split; [|done]. by exists e.
Qed.

Section build.
Context `{B : Blake3, BI : !Blake3Incremental} (fmt_debug : bytes → bytes)
  {S : Type} `{!ObjectSource S, !ObjectSink S}
  (I : S → Prop) (view : S → hash32 → result StoreError bytes) `{V : !Keeper I view}.

Lemma build_ok threads st idx verify s :
  I s → (lenN (idx_entries idx) <= MAX_TREE_ENTRIES)%N →
  ∃ r s', build_tree_from_index_with fmt_debug threads st idx verify s = Some (r, s') ∧
    grows I view s s' ∧
    match r with
    | Ok h =>
        Forall (λ e, check_one_staged_object st verify e = Ok tt) (live_entries idx) ∧
        ((∃ es, view_object (view s') h = Ok (OTree {| tree_entries := es |}) ∧
            ∀ p m k, leaf_of (view s') es p m k ↔ live_at_path idx p m k) ∨
         clash (view s') (index_trees fmt_debug idx))
    | Err _ => True
    end.
Proof.
  intros Hs Hlen. unfold build_tree_from_index_with.
  destruct (keep_entries ∅ [] (idx_entries idx)) as [kept [e|]] eqn:Ek.
  { rewrite probe_ok. cbn [mbind option_bind]. destruct (try_for_each _ _) as [[]|]; cbn;
      (eexists _, _; split; [done|]; split; [by apply grows_refl|done]). }
  apply keep_entries_ok in Ek as (-> & Hnd & _ & _). cbn [app]. fold (live_entries idx).
  rewrite probe_ok. cbn [mbind option_bind].
  destruct (try_for_each _ _) as [[]|e] eqn:Ep; cbn [mbind result_bind];
    [|eexists _, _; split; [done|]; split; [by apply grows_refl|done]].
  apply try_for_each_Ok in Ep.
  destruct (insert_entries Node_default (live_entries idx)) as [root|e] eqn:Er;
    [|eexists _, _; split; [done|]; split; [by apply grows_refl|done]].
  destruct (index_root_ok idx root Hnd Er) as (Hw & Hnar & Hg).
  apply (narrow_mono _ (N.to_nat MAX_TREE_ENTRIES)) in Hnar; [|unfold lenN in Hlen; lia].
  destruct (write_node_ok fmt_debug I view root s Hs) as [Hgr Hh].
  destruct (write_node fmt_debug root s) as [r s'] eqn:Ew. cbn [fst snd] in *.
  exists r, s'. split; [done|]. split; [done|]. destruct r as [h|e]; [|done]. split; [done|].
  destruct (Hh h eq_refl) as (bs & Hbs & -> & Hr).
  destruct (view_node fmt_debug I view root bs s' (proj1 Hgr) Hw Hnar Hbs Hr) as [(es & Hv & Hl)|Hc].
  - left. exists es. split; [done|]. intros p m k. by rewrite Hl.
  - right. unfold index_trees. by rewrite Er.
Qed.
End build.
