(* ===== verification/IndexTreeSpec.v ===== *)
(** * Between trees and indexes

    Which indexes have a tree, and the round trip: the index of a tree builds that very
    tree, without a write. Here are also the theorems on reading an index from a tree, on
    building the tree of an index, and on the fan-out over threads. *)

From S2P Require Import Prelude Hash Object Serialize SerializeFacts ObjectId Store StoreFacts Content ContentFacts MergeTrees MergeTreesFacts TreeDiff TreeDiffFacts Ingest IngestFacts Index IndexFacts IndexTree IndexTreeFacts.

(** ** Directories without empty directories *)

Inductive bushy : Node → Prop :=
  | bushy_MkNode cs ls :
      (∀ k c, (k, c) ∈ cs → ∃ p v, node_get p c = Some v) →
      (∀ k c, (k, c) ∈ cs → bushy c) → bushy (MkNode cs ls).

Lemma bushy_default : bushy Node_default.
Proof. constructor; set_solver. Qed.

Lemma node_get_cons x p n :
  p ≠ [] → node_get (x :: p) n = (c ← bm_get x (children n); node_get p c).
Proof. by destruct p. Qed.

Lemma child_or_default seg n :
  wf_node n → bushy n →
  let c := default Node_default (bm_get seg (children n)) in
  wf_node c ∧ bushy c ∧ ∀ p, p ≠ [] → node_get p c = node_get (seg :: p) n.
Proof.
  intros Hw Hb. cbv zeta. destruct (bm_get seg (children n)) as [c|] eqn:E; cbn [default from_option].
  - split_and!.
    + by eapply wf_child.
    + inv Hb as [cs ls _ Hb']. by eapply Hb', bm_get_in.
    + intros p Hp. rewrite node_get_cons by done. by rewrite E.
  - split_and!; [apply wf_default|apply bushy_default|].
    intros p Hp. rewrite node_get_cons, node_get_default by done. by rewrite E.
Qed.

Lemma insert_leaf_bushy dirs leaf v : ∀ walked n n',
  v.1 ≠ EntryMode.Tree → wf_node n → bushy n → insert_leaf dirs leaf v walked n = Ok n' → bushy n'.
Proof.
  induction dirs as [|seg dirs IH]; intros walked n n' Hv Hw Hb; cbn [insert_leaf].
  - destruct (has_key leaf (children n)); [done|]. destruct (has_key leaf (leaves n)); [done|].
    intros [= <-]. inv Hb as [cs ls Hg Hs]. by constructor.
  - intros ([] & _ & ([] & _ & (c & Hc & [= <-])%bind_Ok)%bind_Ok)%bind_Ok.
    destruct (child_or_default seg n Hw Hb) as (Hwc & Hbc & _).
    destruct (insert_leaf_ok dirs leaf v _ _ _ Hv Hwc Hc) as [_ Hg].
    apply IH in Hc; [|done..]. inv Hb as [cs ls Hgs Hs]. cbn [children leaves] in *.
    constructor.
    + intros k c' [[= -> ->]|Hin]%bm_insert_elem; [|by eapply Hgs].
      exists (dirs ++ [leaf]), v. rewrite Hg. by rewrite bool_decide_eq_true_2.
    + intros k c' [[= -> ->]|Hin]%bm_insert_elem; [done|by eapply Hs].
Qed.

(** No leaf is on the way to another. *)
Definition apart (p q : list bytes) : Prop := ¬ p `prefix_of` q ∧ ¬ q `prefix_of` p.

Lemma apart_cons x p q : apart (x :: p) (x :: q) → apart p q.
Proof. intros [H1 H2]. split; intros H; [apply H1|apply H2]; by apply prefix_cons. Qed.

Lemma insert_leaf_total dirs leaf v : ∀ walked n,
  wf_node n → bushy n → Forall (λ s, s ≠ []) dirs →
  (∀ q w, node_get q n = Some w → apart (dirs ++ [leaf]) q) →
  is_ok (insert_leaf dirs leaf v walked n) = true.
Proof.
  induction dirs as [|seg dirs IH]; intros walked n Hw Hb Hne Hap; cbn [insert_leaf app] in *.
  - destruct (has_key leaf (children n)) eqn:Ec.
    { apply has_key_spec in Ec as [c Hc]. pose proof Hb as Hb'. inv Hb' as [cs ls Hg _].
      destruct (Hg leaf c (bm_get_in _ _ _ Hc)) as (p & w & Hp).
      assert (p ≠ []) as Hpne by (by intros ->).
      destruct (Hap (leaf :: p) w) as [Hn _].
      - rewrite node_get_cons by done. cbn [children] in *. by rewrite Hc.
      - destruct Hn. by exists p. }
    destruct (has_key leaf (leaves n)) eqn:El; [|done].
    apply has_key_spec in El as [w Hl]. by destruct (Hap [leaf] w Hl) as [[] _].
  - inv Hne as [|? ? Hs Hne']. rewrite bool_decide_eq_false_2 by done. cbn [negb ensure mbind result_bind].
    destruct (has_key seg (leaves n)) eqn:El.
    { apply has_key_spec in El as [w Hl]. destruct (Hap [seg] w Hl) as [_ []].
      by exists (dirs ++ [leaf]). }
    cbn [negb ensure mbind result_bind].
    destruct (child_or_default seg n Hw Hb) as (Hwc & Hbc & Hget).
    specialize (IH (under_prefix walked seg) _ Hwc Hbc Hne').
    destruct (insert_leaf dirs leaf v _ _) as [c|e]; [done|]. apply IH.
    intros q w Hq. apply (apart_cons seg), (Hap _ w). rewrite <- Hget; [done|]. by intros ->.
Qed.

(** ** Indexes that have a tree *)

(** Live entries at proper paths, none of them below another. *)
Definition placed (es : list staged) : Prop :=
  (∀ path, path ∈ staged_paths es → Forall (λ s, s ≠ []) (split_slash path)) ∧
  ∀ p q, p ∈ staged_paths es → q ∈ staged_paths es → split_slash p `prefix_of` split_slash q → p = q.

Lemma placed_tail e es : placed (e :: es) → placed es.
Proof.
  intros [H1 H2]. split; [intros p Hp; apply H1; by right|].
  intros p q Hp Hq. apply H2; by right.
Qed.

Lemma split_slash_last path : ∃ dirs leaf, split_slash path = dirs ++ [leaf].
Proof. destruct (exists_last (split_slash_ne path)) as (dirs & leaf & E). by exists dirs, leaf. Qed.

Lemma insert_entries_total es : ∀ root,
  wf_node root → bushy root → NoDup (staged_paths es) → (∀ p m k, (p, m, k) ∈ es → m ≠ EntryMode.Tree) →
  placed es → (∀ path q w, path ∈ staged_paths es → node_get q root = Some w → apart (split_slash path) q) →
  ∃ root', insert_entries root es = Ok root' ∧ bushy root'.
Proof.
  induction es as [|[[path m] k] es IH]; intros root Hw Hb Hnd Hmode Hpl Hap; cbn [insert_entries].
  { by exists root. }
  unfold insert_entry. destruct (split_slash_last path) as (dirs & leaf & Es).
  pose proof (proj1 Hpl path ltac:(by left)) as Hne. rewrite Es in Hne.
  apply Forall_app in Hne as [Hdirs Hleaf]. inv Hleaf as [|? ? Hl _].
  rewrite Es, split_last_app, bool_decide_eq_false_2 by done. cbn [negb ensure mbind result_bind].
  assert (m ≠ EntryMode.Tree) as Hm by (eapply Hmode; by left).
  pose proof (insert_leaf_total dirs leaf (m, k) [] root Hw Hb Hdirs) as Hok.
  rewrite <- Es in Hok. specialize (Hok (λ q w, Hap path q w ltac:(by left))).
  destruct (insert_leaf dirs leaf (m, k) [] root) as [r1|e] eqn:E; [|done]. cbn [mbind result_bind].
  destruct (insert_leaf_ok dirs leaf (m, k) [] root r1 Hm Hw E) as [Hw1 Hg1].
  unfold staged_paths in Hnd. rewrite fmap_cons in Hnd. inv Hnd as [|? ? Hn Hnd'].
  apply IH; [done|by apply (insert_leaf_bushy dirs leaf (m, k) [] root)|done|intros; eapply Hmode; by right|by eapply placed_tail|].
  intros p q w Hp. rewrite Hg1, <- Es. case_bool_decide as Eq; [intros _; subst q|by apply Hap; right].
  split; intros Hpre; apply Hn; [|].
  - rewrite <- (proj2 Hpl p path); [done|by right|by left|done].
  - rewrite (proj2 Hpl path p); [done|by left|by right|done].
Qed.

Lemma keep_entries_total es : ∀ seen kept,
  NoDup (paths es) → (∀ p, p ∈ paths es → p ∉ seen) → Forall (λ e, ie_status e ≠ EntryStatus.Tree) es →
  keep_entries seen kept es = (kept ++ omap stage es, None).
Proof.
  unfold paths. induction es as [|e es IH]; intros seen kept Hnd Hsn Hst; cbn [keep_entries].
  { by rewrite app_nil_r. }
  rewrite fmap_cons in Hnd, Hsn. inv Hnd as [|? ? Hn Hnd']. inv Hst as [|? ? Hs Hst'].
  rewrite bool_decide_eq_false_2 by (apply Hsn; by left).
  assert (∀ p, p ∈ ie_path <$> es → p ∉ ({[ie_path e]} ∪ seen : gset bytes)) as Hsn'.
  { intros p Hp. assert (p ∉ seen) by (apply Hsn; by right). assert (p ≠ ie_path e) by congruence. set_solver. }
  cbn [omap list_omap]. unfold stage at 1. destruct (ie_status e); try done; cbn [mode_of_status mbind option_bind];
    rewrite IH by done; by rewrite <- ?app_assoc.
Qed.

(** ** Trees without empty trees *)

Section full.
Context `{B : Blake3} (v : hash32 → result StoreError bytes).

(** The tree that an entry names. *)
Definition subtree (e : TreeEntry) (es : list TreeEntry) : Prop :=
  is_tree e = true ∧ view_object v (te_hash e) = Ok (OTree {| tree_entries := es |}).

(** Below the entries every tree can be read and has an entry. *)
Inductive full (es : list TreeEntry) : Prop :=
  | full_entries :
      (∀ e, e ∈ es → is_tree e = true → ∃ es', subtree e es') →
      (∀ e es', e ∈ es → subtree e es' → es' ≠ []) →
      (∀ e es', e ∈ es → subtree e es' → full es') → full es.

Lemma subtree_leaf es e es' p m k :
  e ∈ es → subtree e es' → leaf_of v es' p m k → leaf_of v es (te_name e :: p) m k.
Proof. intros Hin [Ht Hv] Hl. exists e, p. split; [done|]. split; [done|]. by eapply leaf_tree. Qed.

Lemma full_has_leaf es : full es → es ≠ [] → ∃ p m k, leaf_of v es p m k.
Proof.
  induction 1 as [es Hr Hne _ IH]. intros He. destruct es as [|e es]; [done|].
  assert (e ∈ e :: es) as Hin by (by left). destruct (is_tree e) eqn:Et.
  - destruct (Hr e Hin Et) as [es' Hs]. destruct (IH e es' Hin Hs (Hne e es' Hin Hs)) as (p & m & k & Hl).
    exists (te_name e :: p), m, k. by eapply subtree_leaf.
  - exists [te_name e], (te_mode e), (te_hash e), e, []. split; [done|]. split; [done|]. by constructor.
Qed.

(** A leaf is not on the way to another. *)
Lemma leaf_prefix e p m k : leaf v e p m k → ∀ q m' k', leaf v e q m' k' → p `prefix_of` q → p = q.
Proof.
  induction 1 as [e He|e es e' p m k He Hv Hin Hl IH]; intros q m' k' H' Hpre.
  - by apply leaf_not_tree in H' as (-> & _).
  - rewrite leaf_tree in H' by done. destruct H' as (e2 & p2 & Hin2 & -> & Hl2).
    pose proof (prefix_cons_inv_1 _ _ _ _ Hpre) as Hn. apply prefix_cons_inv_2 in Hpre.
    apply view_object_good in Hv. assert (e' = e2) as <- by (by eapply names_unique). f_equal. by eapply IH.
Qed.

Lemma leaf_of_prefix es p m k q m' k' :
  good_entries es → leaf_of v es p m k → leaf_of v es q m' k' → p `prefix_of` q → p = q.
Proof.
  intros Hg (e & p1 & Hin & -> & Hl) (e' & q1 & Hin' & -> & Hl') Hpre.
  pose proof (prefix_cons_inv_1 _ _ _ _ Hpre) as Hn. apply prefix_cons_inv_2 in Hpre.
  assert (e = e') as <- by (by eapply names_unique). f_equal. by eapply leaf_prefix.
Qed.

Lemma leaf_mode e p m k : leaf v e p m k → m ≠ EntryMode.Tree.
Proof. induction 1 as [e He|]; [|done]. intros E. unfold is_tree in He. by rewrite E in He. Qed.
End full.

(** Entries with ascending names are determined by which they are. *)
Lemma ascending_entries_eq l1 : ∀ l2,
  ascending (names l1) → ascending (names l2) → (∀ e, e ∈ l1 ↔ e ∈ l2) → l1 = l2.
Proof.
  unfold names. induction l1 as [|x l1 IH]; intros l2 H1 H2 Hin.
  { destruct l2 as [|y l2]; [done|]. pose proof (proj2 (Hin y) ltac:(by left)) as []%elem_of_nil. }
  destruct l2 as [|y l2]; [pose proof (proj1 (Hin x) ltac:(by left)) as []%elem_of_nil|].
  rewrite fmap_cons in H1, H2. inv H1 as [|? ? Hs1 Ha1]. inv H2 as [|? ? Hs2 Ha2].
  rewrite list.Forall_forall in Ha1, Ha2.
  assert (∀ e, e ∈ l1 → bytes_lt (te_name x) (te_name e)) as Hx
    by (intros; apply Ha1; by apply list_elem_of_fmap_2).
  assert (∀ e, e ∈ l2 → bytes_lt (te_name y) (te_name e)) as Hy
    by (intros; apply Ha2; by apply list_elem_of_fmap_2).
  assert (x = y) as ->.
  { pose proof (proj1 (Hin x) ltac:(by left)) as [->|Hxy]%elem_of_cons; [done|].
    pose proof (proj2 (Hin y) ltac:(by left)) as [->|Hyx]%elem_of_cons; [done|].
    destruct (bytes_lt_irrefl (te_name x)). etrans; [by apply Hx|by apply Hy]. }
  f_equal. apply IH; [done..|]. intros e. specialize (Hin e). rewrite !elem_of_cons in Hin. split; intros He.
  - destruct (proj1 Hin ltac:(by right)) as [->|]; [|done]. by destruct (bytes_lt_irrefl (te_name y)); apply Hx.
  - destruct (proj2 Hin ltac:(by right)) as [->|]; [|done]. by destruct (bytes_lt_irrefl (te_name y)); apply Hy.
Qed.

(** ** Writing a tree that is there *)

Section back.
Context `{B : Blake3} (fmt_debug : bytes → bytes) (now : option N) (st : ObjectStore).

Abbreviation wr := (write_node (ObjectSink0 := ObjectStore_sink now) fmt_debug).

Lemma write_present h bs : read st h = Ok bs → write now bs st = (Ok h, st).
Proof.
  intros [Hr <-]%read_Ok. unfold read_raw in Hr.
  apply bind_Ok in Hr as (f & Hf & ([] & Hl%ensure_Ok & [= <-])%bind_Ok).
  unfold write. apply N.leb_le, N.ltb_ge in Hl as ->. unfold contains.
  rewrite bool_decide_eq_true_2; [done|]. unfold open_object in Hf.
  by destruct (disk st !! path_for _).
Qed.

(** What writing a subdirectory gives, among the entries [es]. *)
Definition child_back (es : list TreeEntry) (c : bytes * Node) (e : TreeEntry) : Prop :=
  e ∈ es ∧ te_name e = c.1 ∧ te_mode e = EntryMode.Tree ∧ wr c.2 st = (Ok (te_hash e), st).

Lemma write_children_back es cs :
  good_entries es → Forall (λ c, ∃ e, child_back es c e) cs → ∀ acc,
  ∃ ces, write_children fmt_debug wr cs acc st = (Ok (acc ++ ces), st) ∧
    Forall2 (child_back es) cs ces.
Proof.
  intros Hg. induction 1 as [|[name c] cs (e & He) _ IH]; intros acc; cbn [write_children].
  { exists []. rewrite app_nil_r. split; [done|constructor]. }
  pose proof He as (Hin & Hn & Hm & Hw). cbn [fst snd] in *. unfold me_bind, me_lift. rewrite Hw.
  assert (node_entry fmt_debug name EntryMode.Tree (te_hash e) = Ok e) as ->.
  { apply node_entry_Ok. split; [rewrite <- Hn; by eapply good_valid, list_elem_of_fmap_2|].
    destruct e; cbn in *; by subst. }
  destruct (IH (acc ++ [e])) as (ces & -> & Hf). exists (e :: ces). rewrite <- app_assoc.
  split; [done|by constructor].
Qed.

Definition entry_of_leaf (l : bytes * (EntryMode.t * hash32)) : TreeEntry :=
  {| te_name := l.1; te_mode := l.2.1; te_hash := l.2.2 |}.

Lemma leaf_entries_back es ls :
  good_entries es → Forall (λ l, entry_of_leaf l ∈ es) ls → ∀ acc,
  leaf_entries fmt_debug ls acc = Ok (acc ++ map entry_of_leaf ls).
Proof.
  intros Hg. induction 1 as [|[name [m k]] ls Hl _ IH]; intros acc; cbn [leaf_entries].
  { cbn. by rewrite app_nil_r. }
  assert (node_entry fmt_debug name m k = Ok (entry_of_leaf (name, (m, k)))) as ->.
  { apply node_entry_Ok. split; [|done]. apply (good_valid es _ Hg). by apply (list_elem_of_fmap_2 te_name) in Hl. }
  cbn [mbind result_bind map]. by rewrite IH, <- app_assoc.
Qed.

(** The entries that the parts of a node give are those of a tree with its leaves. *)
Lemma entries_back es cs ls ces :
  good_entries es → wf_node (MkNode cs ls) →
  Forall2 (child_back es) cs ces → Forall (λ l, entry_of_leaf l ∈ es) ls →
  (∀ e, e ∈ es → if is_tree e then ∃ c, (te_name e, c) ∈ cs else (te_name e, (te_mode e, te_hash e)) ∈ ls) →
  sort_entries (ces ++ map entry_of_leaf ls) = es.
Proof.
  intros Hg Hw Hc Hl Hes. apply ascending_entries_eq.
  - apply sort_entries_ascending. unfold names. rewrite fmap_app.
    assert (te_name <$> ces = cs.*1) as ->.
    { clear -Hc. induction Hc as [|c e cs ces (_ & Hn & _) _ IH]; [done|]. by rewrite !fmap_cons, IH, Hn. }
    assert (te_name <$> map entry_of_leaf ls = ls.*1) as ->.
    { clear. induction ls as [|l ls IH]; [done|]. cbn [map]. by rewrite !fmap_cons, IH. }
    by apply node_names_NoDup.
  - by apply good_ascending.
  - intros e. unfold sort_entries. rewrite (stable_sort_perm _ _), elem_of_app. split.
    + intros [He|He].
      * destruct (Forall2_elem_r _ _ _ _ Hc He) as (c & _ & ? & _). done.
      * apply list_elem_of_In, in_map_iff in He as (l & <- & Hin%list_elem_of_In).
        rewrite list.Forall_forall in Hl. by apply Hl.
    + intros He. specialize (Hes e He). destruct (is_tree e).
      * left. destruct Hes as [c Hin]. destruct (Forall2_elem_l _ _ _ _ Hc Hin) as (e' & He' & Hin' & Hn & _).
        by rewrite (names_unique es e e').
      * right. apply list_elem_of_In, in_map_iff. eexists. split; [|by apply list_elem_of_In].
        by destruct e.
Qed.

(** The leaves below the entries are those of the node. *)
Definition matches (es : list TreeEntry) (n : Node) : Prop :=
  ∀ p m k, leaf_of (read st) es p m k ↔ node_get p n = Some (m, k).

Abbreviation subtree := (subtree (read st)).
Abbreviation full := (full (read st)).

Lemma matches_child es cs ls name c :
  good_entries es → full es → wf_node (MkNode cs ls) → matches es (MkNode cs ls) →
  (name, c) ∈ cs → (∃ p v, node_get p c = Some v) →
  ∃ e es', e ∈ es ∧ te_name e = name ∧ subtree e es' ∧ matches es' c.
Proof.
  intros Hg [Hr _ _] Hw Hl Hin (p & [m k] & Hp). inv Hw as [? ? Hcs _ _ _ _].
  assert (∀ q, q ≠ [] → node_get (name :: q) (MkNode cs ls) = node_get q c) as Hget.
  { intros q Hq. rewrite node_get_cons by done. cbn [children]. by apply bm_get_elem in Hin as ->. }
  assert (p ≠ []) as Hpne by (by intros ->).
  rewrite <- Hget in Hp by done. apply Hl in Hp as (e & p' & He & [= -> ->] & Hle).
  destruct (is_tree e) eqn:Et; [|by apply leaf_not_tree in Hle as (-> & _)].
  destruct (Hr e He Et) as [es' Hs]. exists e, es'. split_and!; [done..|]. intros q m' k'.
  destruct q as [|x q]; [split; [intros (? & ? & _ & ? & _)|]; done|].
  destruct Hs as [_ Hv]. rewrite <- leaf_tree, <- Hget by done. rewrite <- (Hl _ m' k').
  split; [intros Hq; by exists e, (x :: q)|].
  intros (e2 & q2 & He2 & [= Hn <-] & Hl2). by rewrite (names_unique es e e2).
Qed.

Lemma matches_leaf es cs ls l :
  wf_node (MkNode cs ls) → matches es (MkNode cs ls) → l ∈ ls → entry_of_leaf l ∈ es.
Proof.
  intros Hw Hl Hin. inv Hw as [? ? _ Hls _ _ _]. destruct l as [name [m k]].
  assert (node_get [name] (MkNode cs ls) = Some (m, k)) as Hp by (by apply bm_get_elem).
  apply Hl in Hp as (e & p' & He & [= -> <-] & Hle).
  destruct (is_tree e) eqn:Et; [by apply leaf_nil_tree in Hle|].
  apply leaf_not_tree in Hle as (_ & -> & ->); [|done]. by destruct e.
Qed.

Lemma matches_entry es cs ls e :
  full es → wf_node (MkNode cs ls) → matches es (MkNode cs ls) → e ∈ es →
  if is_tree e then ∃ c, (te_name e, c) ∈ cs else (te_name e, (te_mode e, te_hash e)) ∈ ls.
Proof.
  intros [Hr Hne Hfull] Hw Hl He. inv Hw as [? ? Hcs Hls _ _ _]. destruct (is_tree e) eqn:Et.
  - destruct (Hr e He Et) as [es' Hs].
    destruct (full_has_leaf _ es' (Hfull _ _ He Hs) (Hne _ _ He Hs)) as (p & m & k & Hle).
    pose proof (proj1 (Hl _ _ _) (subtree_leaf _ _ _ _ _ _ _ He Hs Hle)) as Hp.
    rewrite node_get_cons in Hp by (intros ->; by destruct Hle as (? & ? & _ & ? & _)).
    cbn [children] in Hp. destruct (bm_get (te_name e) cs) as [c|] eqn:Ec; [|done].
    exists c. by apply bm_get_elem.
  - assert (leaf_of (read st) es [te_name e] (te_mode e) (te_hash e)) as Hle.
    { exists e, []. split; [done|]. split; [done|]. by constructor. }
    apply Hl in Hle. by apply bm_get_elem.
Qed.

Lemma write_tree_back es h :
  view_object (read st) h = Ok (OTree {| tree_entries := es |}) →
  me_bind (me_lift (wt_object (serialize (OTree {| tree_entries := es |}))))
    (λ bs, wt (write now bs)) st = (Ok h, st).
Proof.
  unfold view_object. intros (bs & Hbs & (_ & l & E & ->)%decode_err_Ok%deserialize_inv)%bind_Ok.
  assert (serialize (OTree {| tree_entries := es |}) =
    Ok (write_prologue (object_type (OTree {| tree_entries := es |})) ++ l)) as ->
    by (unfold serialize; by rewrite E).
  unfold me_bind, me_lift, wt. cbn [wt_object]. by rewrite (write_present _ _ Hbs).
Qed.

Lemma write_node_back es : full es → ∀ h n,
  view_object (read st) h = Ok (OTree {| tree_entries := es |}) → wf_node n → bushy n →
  matches es n → wr n st = (Ok h, st).
Proof.
  intros Hf. pose proof Hf as Hfull. revert Hf. induction 1 as [es _ _ Hsub IH]. intros h [cs ls] Hv Hw Hb Hl.
  pose proof (view_object_good _ _ _ Hv) as Hg.
  assert (Forall (λ c, ∃ e, child_back es c e) cs) as Hback.
  { apply list.Forall_forall. intros [name c] Hin. inv Hb as [? ? Hbg Hbc].
    destruct (matches_child es cs ls name c Hg Hfull Hw Hl Hin (Hbg _ _ Hin)) as (e & es' & He & Hn & Hs & Hm).
    exists e. pose proof Hs as [Ht Hv']. split_and!; [done|done|by apply bool_decide_eq_true in Ht|].
    inv Hw as [? ? _ _ _ _ Hwc].
    apply (IH e es' He Hs); [by eapply Hsub|done|by eapply Hwc|by eapply Hbc|done]. }
  assert (Forall (λ l, entry_of_leaf l ∈ es) ls) as Hleaves
    by (apply list.Forall_forall; intros l; by eapply matches_leaf).
  destruct (write_children_back es cs Hg Hback []) as (ces & Hces & Hfc).
  cbn [write_node]. unfold me_bind at 1. rewrite Hces. cbn [app]. unfold me_bind at 1, me_lift at 1.
  rewrite (leaf_entries_back es ls Hg Hleaves).
  rewrite (entries_back es cs ls ces Hg Hw Hfc Hleaves) by (intros e; by apply matches_entry).
  by apply write_tree_back.
Qed.
End back.

(** ** Writing directories fails only when the store does *)

Inductive named : Node → Prop :=
  | named_MkNode cs ls :
      (∀ k c, (k, c) ∈ cs → validate_name k = true) → (∀ k v, (k, v) ∈ ls → validate_name k = true) →
      (∀ k c, (k, c) ∈ cs → named c) → named (MkNode cs ls).

Lemma bushy_named n :
  wf_node n → bushy n → (∀ p v, node_get p n = Some v → Forall (λ s, validate_name s = true) p) → named n.
Proof.
  intros Hw Hb. revert Hw. induction Hb as [cs ls Hg _ IH]. intros Hw Hp.
  inv Hw as [? ? Hcs Hls _ _ Hwc].
  assert (∀ k c p v, (k, c) ∈ cs → node_get p c = Some v → Forall (λ s, validate_name s = true) (k :: p)) as Hcp.
  { intros k c p v Hin Hv. apply (Hp _ v). rewrite node_get_cons by (by intros ->).
    cbn [children]. by apply bm_get_elem in Hin as ->. }
  constructor.
  - intros k c Hin. destruct (Hg k c Hin) as (p & v & Hv). pose proof (Hcp _ _ _ _ Hin Hv) as Hf. by inv Hf.
  - intros k v Hin. assert (Forall (λ s, validate_name s = true) [k]) as Hf; [|by inv Hf].
    apply (Hp _ v). by apply bm_get_elem.
  - intros k c Hin. apply (IH k c Hin); [by eapply Hwc|]. intros p v Hv.
    pose proof (Hcp _ _ _ _ Hin Hv) as Hf. by inv Hf.
Qed.

Section total.
Context `{B : Blake3, BI : !Blake3Incremental} (fmt_debug : bytes → bytes).

Lemma node_entry_total name mode h :
  validate_name name = true →
  node_entry fmt_debug name mode h = Ok {| te_name := name; te_mode := mode; te_hash := h |}.
Proof. intros H. by apply node_entry_Ok. Qed.

Lemma children_entries_total cs :
  (∀ k c, (k, c) ∈ cs → validate_name k = true ∧ is_ok (node_bytes fmt_debug c) = true) → ∀ acc,
  is_ok (children_entries fmt_debug (node_bytes fmt_debug) cs acc) = true.
Proof.
  induction cs as [|[k c] cs IH]; intros H acc; cbn [children_entries]; [done|].
  destruct (H k c ltac:(by left)) as [Hk Hc]. destruct (node_bytes fmt_debug c) as [bs|]; [|done].
  cbn [mbind result_bind]. rewrite node_entry_total by done. cbn [mbind result_bind].
  apply IH. intros k' c' Hin. apply H. by right.
Qed.

Lemma leaf_entries_total ls : (∀ k v, (k, v) ∈ ls → validate_name k = true) → ∀ acc,
  is_ok (leaf_entries fmt_debug ls acc) = true.
Proof.
  induction ls as [|[k [m h]] ls IH]; intros H acc; cbn [leaf_entries]; [done|].
  rewrite node_entry_total by (eapply H; by left). cbn [mbind result_bind].
  apply IH. intros k' v' Hin. eapply H. by right.
Qed.

Lemma node_bytes_total n :
  wf_node n → narrow (N.to_nat MAX_TREE_ENTRIES) n → named n → is_ok (node_bytes fmt_debug n) = true.
Proof.
  induction n as [cs ls IH] using Node_nested_ind. intros Hw Hn Hm. cbn [node_bytes].
  pose proof Hw as Hw'. inv Hw' as [? ? ? ? ? ? Hwc]. pose proof Hn as Hn'. inv Hn' as [? ? ? Hnc].
  inv Hm as [? ? Hck Hlk Hmc]. rewrite list.Forall_forall in IH.
  pose proof (children_entries_total cs) as Hc. specialize (Hc (λ k c Hin, conj (Hck k c Hin)
    (IH (k, c) Hin (Hwc k c Hin) (Hnc k c Hin) (Hmc k c Hin))) []).
  destruct (children_entries _ _ cs []) as [es|] eqn:Ec; [|done].
  apply children_entries_Ok in Ec as (ces & -> & Hcf). cbn [mbind result_bind app].
  pose proof (leaf_entries_total ls Hlk ces) as Hl.
  destruct (leaf_entries fmt_debug ls ces) as [es|] eqn:El; [|done].
  apply leaf_entries_Ok in El as (les & -> & Hlf). cbn [mbind result_bind].
  pose proof (node_tree_wf fmt_debug cs ls ces les Hw Hn Hcf Hlf) as Hwf.
  destruct (body_parse (OTree {| tree_entries := sort_entries (ces ++ les) |})) as (body & Hb & _); [exact Hwf|].
  unfold serialize. by rewrite Hb.
Qed.

Context {S : Type} `{!ObjectSource S, !ObjectSink S}
  (I : S → Prop) (view : S → hash32 → result StoreError bytes) `{V : !Keeper I view}.

(** Whether a result is that of the store. *)
Definition store_result {A} (r : result WorktreeError A) : Prop :=
  match r with Ok _ => True | Err e => ∃ se, e = WtStore se end.

Definition writes_or_store_error (n : Node) : Prop := ∀ s,
  I s → is_ok (node_bytes fmt_debug n) = true → store_result (write_node fmt_debug n s).1.

Lemma write_children_error cs : Forall (λ c, writes_or_store_error c.2) cs → ∀ acc s,
  I s → is_ok (children_entries fmt_debug (node_bytes fmt_debug) cs acc) = true →
  store_result (write_children fmt_debug (write_node fmt_debug) cs acc s).1.
Proof.
  induction 1 as [|[k c] cs Hc _ IH]; intros acc s Hs; cbn [write_children children_entries]; [done|].
  intros Hok. destruct (node_bytes fmt_debug c) as [bs|] eqn:Eb; [|done]. cbn [mbind result_bind] in Hok.
  unfold me_bind, me_lift. specialize (Hc s Hs). cbn [snd] in Hc. rewrite Eb in Hc. specialize (Hc eq_refl).
  destruct (write_node_ok fmt_debug I view c s Hs) as [[Hs' _] Hh].
  destruct (write_node fmt_debug c s) as [[h|e] s']; cbn in Hc, Hs', Hh; [|done].
  destruct (Hh h eq_refl) as (bs' & Hbs' & -> & _). assert (bs' = bs) as -> by congruence.
  destruct (node_entry _ _ _ _) as [e|]; [|done]. by apply IH.
Qed.

Lemma write_node_error n : writes_or_store_error n.
Proof.
  induction n as [cs ls IH] using Node_nested_ind. intros s Hs. cbn [node_bytes write_node]. intros Hok.
  destruct (children_entries _ _ cs []) as [es|] eqn:Ec; [|done]. cbn [mbind result_bind] in Hok.
  pose proof (write_children_error cs IH [] s Hs) as Hc. rewrite Ec in Hc. specialize (Hc eq_refl).
  destruct (write_children_ok fmt_debug I view cs) with (es := [] : list TreeEntry) (s := s) as [_ Hh]; [|done|].
  { apply list.Forall_forall. intros c _. apply (write_node_ok fmt_debug I view). }
  unfold me_bind, me_lift. destruct (write_children _ _ cs [] s) as [[es'|e] s']; cbn in Hc, Hh; [|done].
  destruct (Hh es' eq_refl) as [[= <-]%(eq_trans (eq_sym Ec)) _].
  destruct (leaf_entries fmt_debug ls es) as [es'|]; [|done]. cbn [mbind result_bind] in Hok.
  destruct (wt_object _) as [bs|]; [|done]. unfold wt.
  destruct (sink_put bs s') as [[id|e] s'']; cbn; [done|by eexists].
Qed.
End total.

(** ** The round trip *)

(** An index that every tree is made of: distinct paths, no reserved status, names that
    a tree can hold, and no live path below another. *)
Definition buildable (idx : Index) : Prop :=
  NoDup (paths (idx_entries idx)) ∧
  Forall (λ e, ie_status e ≠ EntryStatus.Tree) (idx_entries idx) ∧
  Forall (λ path, Forall (λ s, validate_name s = true) (split_slash path)) (staged_paths (live_entries idx)) ∧
  Forall (λ p, Forall (λ q, split_slash p `prefix_of` split_slash q → p = q)
    (staged_paths (live_entries idx))) (staged_paths (live_entries idx)).

#[export] Instance buildable_dec idx : Decision (buildable idx).
Proof. unfold buildable. apply _. Defined.

Lemma buildable_placed idx : buildable idx → placed (live_entries idx).
Proof.
  intros (_ & _ & Hv & Hp). rewrite list.Forall_forall in Hv, Hp. split.
  - intros path Hin. eapply list.Forall_impl; [by apply Hv|]. intros s Hs ->. by vm_compute in Hs.
  - intros p q Hin Hq. by apply (proj1 (list.Forall_forall _ _) (Hp p Hin)).
Qed.

Lemma live_path idx p m k :
  live_at_path idx p m k → ∃ path, path ∈ staged_paths (live_entries idx) ∧ p = split_slash path.
Proof.
  intros (e & Hin & <- & Hm & Hk). exists (ie_path e). split; [|done].
  apply list_elem_of_fmap. exists (ie_path e, m, k). split; [done|].
  apply elem_of_live_entries. eauto.
Qed.

Lemma index_root_total idx :
  buildable idx →
  ∃ root, insert_entries Node_default (live_entries idx) = Ok root ∧ wf_node root ∧
    narrow (length (idx_entries idx)) root ∧ bushy root ∧ named root ∧
    ∀ p m k, node_get p root = Some (m, k) ↔ live_at_path idx p m k.
Proof.
  intros Hb. pose proof (buildable_placed idx Hb) as Hpl. destruct Hb as (Hnd & _ & Hv & _).
  destruct (insert_entries_total (live_entries idx) Node_default) as (root & Hr & Hb).
  - apply wf_default.
  - apply bushy_default.
  - by apply live_paths_NoDup.
  - intros p m k (e & _ & _ & Hm & _)%elem_of_live_entries. destruct (ie_status e); by simplify_eq/=.
  - done.
  - intros path q w _. by rewrite node_get_default.
  - destruct (index_root_ok idx root Hnd Hr) as (Hw & Hnar & Hg). exists root. split_and!; [done..| |done].
    apply bushy_named; [done..|]. intros p [m k] (path & Hin & ->)%Hg%live_path.
    rewrite list.Forall_forall in Hv. by apply Hv.
Qed.

(** What building does with such an index: the probes, then the directories. *)
Lemma build_buildable `{B : Blake3} fmt_debug {S} `{!ObjectSink S} threads st idx verify (s : S) root :
  buildable idx → insert_entries Node_default (live_entries idx) = Ok root →
  build_tree_from_index_with fmt_debug threads st idx verify s =
  Some match try_for_each (check_one_staged_object st verify) (live_entries idx) with
       | Ok _ => write_node fmt_debug root s
       | Err e => (Err e, s)
       end.
Proof.
  intros (Hnd & Hst & _) Hr. unfold build_tree_from_index_with.
  rewrite keep_entries_total by (done || set_solver). cbn [app]. fold (live_entries idx).
  rewrite probe_ok. cbn [mbind option_bind].
  destruct (try_for_each _ _) as [[]|e]; cbn [mbind result_bind]; [by rewrite Hr|done].
Qed.

Section roundtrip.
Context `{B : Blake3} (st : ObjectStore).

Lemma mode_of_status_of_mode m : m ≠ EntryMode.Tree → mode_of_status (status_of_mode m) = Some m.
Proof. by destruct m. Qed.

Lemma from_tree_live h idx :
  from_tree st h = Ok idx →
  ∃ es, view_object (read st) h = Ok (OTree {| tree_entries := es |}) ∧ buildable idx ∧
    ∀ p m k, leaf_of (read st) es p m k ↔ live_at_path idx p m k.
Proof.
  intros (es & Hv & Hwf & _ & Hin)%from_tree_ok. exists es. split; [done|].
  pose proof (view_object_good _ _ _ Hv) as Hg.
  assert (∀ p m k, leaf_of (read st) es p m k ↔ live_at_path idx p m k) as Hiff.
  { intros p m k. split.
    - intros Hl. pose proof (leaf_of_segments _ _ _ _ _ Hg Hl) as [Hne Hs].
      exists (fresh_entry (join_slash p) m k). destruct (segments_join p Hne Hs) as [_ E].
      split; [apply Hin; by exists p, m, k|]. split; [done|]. split; [|done].
      destruct Hl as (e & p' & _ & _ & Hl). by eapply mode_of_status_of_mode, leaf_mode.
    - intros (e & (q & m' & k' & Hl & Hq & ->)%Hin & <- & Hm & <-). cbn in *. rewrite Hq.
      rewrite mode_of_status_of_mode in Hm; [by injection Hm as <-|].
      destruct Hl as (e' & p' & _ & _ & Hl). by eapply leaf_mode. }
  split; [|done]. assert (∀ path, path ∈ staged_paths (live_entries idx) →
    ∃ m k, leaf_of (read st) es (split_slash path) m k) as Hpath.
  { intros path ([[p m] k] & -> & (e & He & <- & Hm & <-)%elem_of_live_entries)%list_elem_of_fmap.
    exists m, (ie_object_hash e). apply Hiff. by exists e. }
  split_and!.
  - by apply wf_index_NoDup.
  - apply list.Forall_forall. intros e (q & m & k & (e' & p' & _ & _ & Hl%leaf_mode) & _ & ->)%Hin. by destruct m.
  - apply list.Forall_forall. intros path (m & k & Hl)%Hpath. by eapply leaf_of_valid.
  - apply list.Forall_forall. intros p (m & k & Hl)%Hpath.
    apply list.Forall_forall. intros q (m' & k' & Hl')%Hpath Hpre.
    by eapply split_slash_inj, leaf_of_prefix.
Qed.

Lemma from_tree_build_ok fmt_debug now threads h idx :
  from_tree st h = Ok idx →
  (∀ es, view_object (read st) h = Ok (OTree {| tree_entries := es |}) → full (read st) es) →
  build_tree_from_index fmt_debug now threads idx st =
  Some (match try_for_each (check_one_staged_object st true) (live_entries idx) with
        | Ok _ => Ok h
        | Err e => Err e
        end, st).
Proof.
  intros (es & Hv & Hb & Hl)%from_tree_live Hfull.
  destruct (index_root_total idx Hb) as (root & Hr & Hw & _ & Hbushy & _ & Hg).
  unfold build_tree_from_index. rewrite (build_buildable _ threads st idx true st root Hb Hr).
  destruct (try_for_each _ _); [|done].
  by rewrite (write_node_back fmt_debug now st es (Hfull es Hv) h root Hv Hw Hbushy)
    by (intros p m k; by rewrite Hl, Hg).
Qed.
End roundtrip.

(** ** Theorems *)

(** Fanning a fallible map out over any number of threads, by contiguous chunks that
    stop at their first error, never leaves a slot unfilled and gives what the loop in
    order gives: the results in order, or the error of the first item that fails, whatever
    the chunks are. So probing the staged objects in parallel is the loop over them. *)
Theorem fan_out_sequential `{B : Blake3} {T U E} (f : T → result E U) (items : list T) (threads : nat) :
  chunked_scoped_map items threads f = Some (seq_map f items) ∧
  ∀ st verify entries,
    probe_staged_objects threads st verify entries =
    Some (try_for_each (check_one_staged_object st verify) entries).
Proof. split; [apply chunked_map_ok|]. intros. apply probe_ok. Qed.

(** C26: Building the tree of an index, into any store that keeps what it is given, ends
    and only adds to the store. An id that it gives is that of a tree whose leaves are
    exactly the entries that are not removed, at their paths and with their modes and
    ids (or there is an explicit collision with a tree that was written), and the objects
    of those entries passed the probe; for an index of distinct paths of valid names,
    none below another, that passes the probe, it fails only when the store does. *)
Theorem build_tree_from_index_spec `{B : Blake3, BI : !Blake3Incremental} (fmt_debug : bytes → bytes)
    {S : Type} `{!ObjectSource S, !ObjectSink S} (I : S → Prop)
    (view : S → hash32 → result StoreError bytes) `{V : !Keeper I view}
    (threads : nat) (st : ObjectStore) (idx : Index) (verify : bool) (s : S) :
  I s → (lenN (idx_entries idx) <= MAX_TREE_ENTRIES)%N →
  let checked := Forall (λ e, check_one_staged_object st verify e = Ok tt) (live_entries idx) in
  ∃ r s', build_tree_from_index_with fmt_debug threads st idx verify s = Some (r, s') ∧
    grows I view s s' ∧
    match r with
    | Ok h =>
        checked ∧
        ((∃ es, view_object (view s') h = Ok (OTree {| tree_entries := es |}) ∧
            ∀ p m k, leaf_of (view s') es p m k ↔ live_at_path idx p m k) ∨
         clash (view s') (index_trees fmt_debug idx))
    | Err e => buildable idx → checked → ∃ se, e = WtStore se
    end.
Proof.
  intros Hs Hlen. cbv zeta.
  destruct (build_ok fmt_debug I view threads st idx verify s Hs Hlen) as (r & s' & E & Hg & Hr).
  exists r, s'. split; [done|]. split; [done|]. destruct r as [h|e]; [done|]. intros Hb Hc.
  destruct (index_root_total idx Hb) as (root & Hroot & Hw & Hn & _ & Hnm & _).
  rewrite (build_buildable fmt_debug threads st idx verify s root Hb Hroot) in E.
  rewrite (proj2 (try_for_each_Ok _ _) Hc) in E. injection E as E.
  apply (narrow_mono _ (N.to_nat MAX_TREE_ENTRIES)) in Hn; [|unfold lenN in Hlen; lia].
  pose proof (write_node_error fmt_debug I view root s Hs (node_bytes_total fmt_debug root Hw Hn Hnm)) as He.
  by rewrite E in He.
Qed.

(** An index that is read from a tree is consistent, every path of it is valid, and
    its entries are exactly the leaves of the tree: each at the path that its names spell,
    with the status of its mode, its id, and no stat cache. *)
Theorem from_tree_spec `{B : Blake3} (st : ObjectStore) (h : hash32) (idx : Index) :
  from_tree st h = Ok idx →
  ∃ es, view_object (read st) h = Ok (OTree {| tree_entries := es |}) ∧
    debug_assert_consistent idx = true ∧
    Forall (λ e, validate_index_path (ie_path e) = true) (idx_entries idx) ∧
    ∀ e, e ∈ idx_entries idx ↔
      ∃ p m k, leaf_of (read st) es p m k ∧ split_slash (ie_path e) = p ∧
        e = fresh_entry (ie_path e) m k.
Proof.
  intros (es & Hv & Hw & Hp & Hin)%from_tree_ok. exists es.
  split; [done|]. split; [by apply debug_assert_consistent_spec|]. done.
Qed.

(** C27: The round trip between trees and indexes: building from the index of a tree without
    empty subtrees ends and writes nothing to a store that holds the tree. It gives
    that very tree if every staged entry passes the probe, and else fails with the
    error of the probe of some entry that does not. *)
Theorem from_tree_build `{B : Blake3} (st : ObjectStore) (fmt_debug : bytes → bytes) (now : option N)
    (threads : nat) (h : hash32) (idx : Index) :
  from_tree st h = Ok idx →
  (∀ es, view_object (read st) h = Ok (OTree {| tree_entries := es |}) → full (read st) es) →
  ∃ r, build_tree_from_index fmt_debug now threads idx st = Some (r, st) ∧
    match r with
    | Ok h' => h' = h ∧ Forall (λ l, check_one_staged_object st true l = Ok tt) (live_entries idx)
    | Err e => Exists (λ l, check_one_staged_object st true l = Err e) (live_entries idx)
    end.
Proof.
  intros Hidx Hfull. eexists. split; [exact (from_tree_build_ok st fmt_debug now threads h idx Hidx Hfull)|].
  destruct (try_for_each _ _) as [[]|e] eqn:E; [split; [done|]; by apply try_for_each_Ok|].
  by apply try_for_each_Err.
Qed.

(** ** Witnesses *)

Import Toy.

(** A file [a] and a directory [d] with the file [f]. *)
Definition ex_nested : hash32 * hash32 * hash32 * ObjectStore :=
  let put o st := store_object o st in
  let '(x, st) := put (OBlob {| blob_data := b# "x" |}) {| disk := ∅ |} in
  let '(sub, st) := put (OTree {| tree_entries := [entry_of (b# "f") EntryMode.Executable x] |}) st in
  let '(root, st) := put (OTree {| tree_entries :=
    [entry_of (b# "a") EntryMode.Blob x; entry_of (b# "d") EntryMode.Tree sub] |}) st in
  (x, sub, root, st).
Definition ex_nested_file : hash32 := ex_nested.1.1.1.
Definition ex_nested_sub : hash32 := ex_nested.1.1.2.
Definition ex_nested_root : hash32 := ex_nested.1.2.
Definition ex_nested_store : ObjectStore := ex_nested.2.
Definition ex_sub_entries : list TreeEntry := [entry_of (b# "f") EntryMode.Executable ex_nested_file].
Definition ex_nested_entries : list TreeEntry :=
  [entry_of (b# "a") EntryMode.Blob ex_nested_file; entry_of (b# "d") EntryMode.Tree ex_nested_sub].

Definition ex_nested_index : Index :=
  from_entries [fresh_entry (b# "a") EntryMode.Blob ex_nested_file;
                fresh_entry (b# "d/f") EntryMode.Executable ex_nested_file].

Lemma ex_nested_read : from_tree ex_nested_store ex_nested_root = Ok ex_nested_index.
Proof. vm_compute. reflexivity. Qed.

Lemma ex_nested_full es :
  view_object (read ex_nested_store) ex_nested_root = Ok (OTree {| tree_entries := es |}) →
  full (read ex_nested_store) es.
Proof.
  assert (view_object (read ex_nested_store) ex_nested_root =
    Ok (OTree {| tree_entries := ex_nested_entries |})) as -> by (vm_compute; reflexivity).
  intros [= <-].
  assert (∀ e, e ∈ ex_sub_entries → is_tree e = false) as Hsub by (by intros e ->%list_elem_of_singleton).
  assert (∀ e, e ∈ ex_nested_entries → is_tree e = true → te_hash e = ex_nested_sub) as Hroot.
  { intros e [->|[->|[]%elem_of_nil]%elem_of_cons]%elem_of_cons; [|done]. intros H. by vm_compute in H. }
  assert (view_object (read ex_nested_store) ex_nested_sub =
    Ok (OTree {| tree_entries := ex_sub_entries |})) as Hv by (vm_compute; reflexivity).
  constructor.
  - intros e He Ht. exists ex_sub_entries. split; [done|]. by rewrite (Hroot e He Ht).
  - intros e es' He [Ht Hv']. rewrite (Hroot e He Ht), Hv in Hv'. by injection Hv' as <-.
  - intros e es' He [Ht Hv']. rewrite (Hroot e He Ht), Hv in Hv'. injection Hv' as <-.
    constructor; [intros e' He'|intros e' ? He' [H _]..]; by rewrite (Hsub e' He') in *.
Qed.

Definition ex_quoted : bytes → bytes := λ s, b# "'" ++ s ++ b# "'".

Lemma from_tree_spec_witness :
  from_tree ex_nested_store ex_nested_root = Ok ex_nested_index ∧
  ∃ es, view_object (read ex_nested_store) ex_nested_root = Ok (OTree {| tree_entries := es |}) ∧
    debug_assert_consistent ex_nested_index = true ∧
    Forall (λ e, validate_index_path (ie_path e) = true) (idx_entries ex_nested_index) ∧
    ∀ e, e ∈ idx_entries ex_nested_index ↔
      ∃ p m k, leaf_of (read ex_nested_store) es p m k ∧ split_slash (ie_path e) = p ∧
        e = fresh_entry (ie_path e) m k.
Proof.
  split; [exact ex_nested_read|].
  apply (from_tree_spec ex_nested_store ex_nested_root ex_nested_index ex_nested_read).
Defined.

Lemma from_tree_build_witness :
  from_tree ex_nested_store ex_nested_root = Ok ex_nested_index ∧
  try_for_each (check_one_staged_object ex_nested_store true) (live_entries ex_nested_index) = Ok tt ∧
  ∃ r, build_tree_from_index ex_quoted (Some 5%N) 4 ex_nested_index ex_nested_store =
      Some (r, ex_nested_store) ∧
    match r with
    | Ok h' => h' = ex_nested_root ∧
        Forall (λ l, check_one_staged_object ex_nested_store true l = Ok tt)
          (live_entries ex_nested_index)
    | Err e => Exists (λ l, check_one_staged_object ex_nested_store true l = Err e)
        (live_entries ex_nested_index)
    end.
Proof.
  split; [exact ex_nested_read|]. split; [vm_compute; reflexivity|].
  exact (from_tree_build ex_nested_store ex_quoted (Some 5%N) 4 ex_nested_root ex_nested_index
    ex_nested_read ex_nested_full).
Defined.

(** The tree is written to another store, whose files are intact. *)
Lemma build_tree_from_index_spec_witness :
  let sink := ObjectStore_sink (Some 5%N) in
  let checked := Forall (λ e, check_one_staged_object ex_nested_store true e = Ok tt)
    (live_entries ex_nested_index) in
  checked ∧ buildable ex_nested_index ∧
  ∃ r s', build_tree_from_index_with (ObjectSink0 := sink) ex_quoted 4 ex_nested_store ex_nested_index
            true ex_disk = Some (r, s') ∧
    grows intact read ex_disk s' ∧
    match r with
    | Ok h =>
        checked ∧
        ((∃ es, view_object (read s') h = Ok (OTree {| tree_entries := es |}) ∧
            ∀ p m k, leaf_of (read s') es p m k ↔ live_at_path ex_nested_index p m k) ∨
         clash (read s') (index_trees ex_quoted ex_nested_index))
    | Err e => buildable ex_nested_index → checked → ∃ se, e = WtStore se
    end.
Proof.
  split; [apply try_for_each_Ok; vm_compute; reflexivity|].
  split; [apply (bool_decide_eq_true (buildable ex_nested_index)); vm_compute; reflexivity|].
  apply (build_tree_from_index_spec (V := ObjectStore_keeper (Some 5%N)) ex_quoted intact read 4 ex_nested_store
    ex_nested_index true ex_disk ex_disk_intact).
  vm_compute. congruence.
Defined.
