(* ===== verification/Ignore.v ===== *)
(** * Ignore patterns

    Models [rust/crates/mkit-core/src/ignore.rs]: the patterns of [.gitignore] and
    [.mkitignore], the matcher of a segment with its classes and escapes, the matcher of
    paths, and the list of patterns of which the last that matches decides. A file is
    what its metadata and its reading give. *)

From S2P Require Import Prelude Object Store Index.

(** ** Strings *)

(** The functions of [str] on one character or on a literal. *)
Fixpoint strip_prefix (pre s : bytes) : option bytes :=
  match pre, s with
  | [], _ => Some s
  | c :: pre, d :: s => if bool_decide (c = d) then strip_prefix pre s else None
  | _ :: _, [] => None
  end.

Definition strip_suffix (suf s : bytes) : option bytes := reverse <$> strip_prefix (reverse suf) (reverse s).

Fixpoint trim_start (c : byte) (s : bytes) : bytes :=
  match s with
  | d :: s' => if bool_decide (d = c) then trim_start c s' else s
  | [] => []
  end.
Definition trim_end (c : byte) (s : bytes) : bytes := reverse (trim_start c (reverse s)).
Definition trim_matches (c : byte) (s : bytes) : bytes := trim_end c (trim_start c s).

(** [split(c)]. *)
Fixpoint split_byte (c : byte) (s : bytes) : list bytes :=
  match s with
  | [] => [[]]
  | d :: s =>
      if bool_decide (d = c) then [] :: split_byte c s
      else match split_byte c s with
           | t :: rest => (d :: t) :: rest
           | [] => [[d]]
           end
  end.

(** [rsplit('/').next()]. *)
Definition basename (s : bytes) : bytes := List.last (split_slash s) [].

(** [split('/').filter(|s| !s.is_empty())]. *)
Definition path_segments (s : bytes) : list bytes := filter (λ t, t ≠ []) (split_slash s).

(** ** Data *)

Definition MAX_IGNORE_FILE_BYTES : N := 1024 * 1024.

Definition c_star : byte := Byte.x2a.
Definition c_question : byte := Byte.x3f.
Definition c_open : byte := Byte.x5b.
Definition c_close : byte := Byte.x5d.
Definition c_backslash : byte := Byte.x5c.
Definition c_bang : byte := Byte.x21.
Definition c_caret : byte := Byte.x5e.
Definition c_dash : byte := Byte.x2d.

Inductive Segment :=
  | DoubleStar
  | Glob (g : bytes).

Inductive BasenameKind :=
  | BkLiteral (s : bytes)
  | BkSuffix (s : bytes)
  | BkPrefix (s : bytes)
  | BkGlob (g : bytes).

Record Pattern := {
  pat_pattern : bytes;
  pat_negated : bool;
  pat_dir_only : bool;
  pat_anchored : bool;
  pat_segments : list Segment;
  pat_basename_kind : option BasenameKind
}.

Record IgnoreList := { il_patterns : list Pattern }.

Definition IgnoreList_new : IgnoreList := {| il_patterns := [] |}.

Inductive IgnoreError := IgFileTooLarge | IgIo (e : io_error).

(** ** The matcher of a segment *)

(** The loop of [match_class] at offset [i], whose rest of the pattern is [rest];
    [first] says that [i] is [start]. *)
Fixpoint class_loop (ch : option byte) (negate first : bool) (i : nat) (matched : bool)
    (rest : bytes) : option (bool * nat) :=
  match rest with
  | [] => None
  | c :: rest1 =>
      if bool_decide (c = c_close) && negb first then
        Some (bool_decide (is_Some ch) && xorb matched negate, i + 1)
      else
        let one := class_loop ch negate false (i + 1) (bool_decide (ch = Some c) || matched) rest1 in
        match rest1 with
        | d :: hi :: rest3 =>
            if bool_decide (d = c_dash) && negb (bool_decide (hi = c_close)) then
              let within := match ch with
                            | Some x => (b2n c <=? b2n x)%N && (b2n x <=? b2n hi)%N
                            | None => false
                            end in
              class_loop ch negate false (i + 3) (within || matched) rest3
            else one
        | _ => one
        end
  end.

(** [p] starts with an opening bracket. *)
Definition match_class (p : bytes) (ch : option byte) : option (bool * nat) :=
  let negate := match p !! 1 with Some c => bool_decide (c = c_bang) || bool_decide (c = c_caret) | None => false end in
  let i := if negate then 2 else 1 in
  class_loop ch negate true i false (drop i p).

Definition is_some_and {A} (o : option A) (f : A → bool) : bool :=
  match o with Some a => f a | None => false end.

(** [fuel]: the length of the pattern. *)
Fixpoint segment_match_fuel (fuel : nat) (p s : bytes) : bool :=
  match fuel, p with
  | _, [] => bool_decide (s = [])
  | 0, _ => false
  | S fuel, c :: rest =>
      if bool_decide (c = c_star) then
        let rest := trim_start c_star rest in
        existsb (λ i, segment_match_fuel fuel rest (drop i s)) (seq 0 (S (length s)))
      else if bool_decide (c = c_question) then
        negb (bool_decide (s = [])) && segment_match_fuel fuel rest (drop 1 s)
      else if bool_decide (c = c_open) then
        match match_class p (head s) with
        | Some (matched, plen) => matched && segment_match_fuel fuel (drop plen p) (drop 1 s)
        | None => bool_decide (head s = Some c_open) && segment_match_fuel fuel (drop 1 p) (drop 1 s)
        end
      else if bool_decide (c = c_backslash) then
        match rest with
        | c :: rest2 => bool_decide (head s = Some c) && segment_match_fuel fuel rest2 (drop 1 s)
        | [] => bool_decide (head s = Some c_backslash) && (length s =? 1)
        end
      else bool_decide (head s = Some c) && segment_match_fuel fuel rest (drop 1 s)
  end.

Definition segment_match (p s : bytes) : bool := segment_match_fuel (length p) p s.

Definition glob_match (pattern name : bytes) : bool :=
  if bool_decide (SLASH ∈ name) then false else segment_match pattern name.

(** ** The fast path of a basename *)

Definition has_special (s : bytes) : bool :=
  existsb (λ b, bool_decide (b = c_star) || bool_decide (b = c_question)
                || bool_decide (b = c_open) || bool_decide (b = c_backslash)) s.

Definition classify_basename_glob (g : bytes) : BasenameKind :=
  if negb (has_special g) then BkLiteral g
  else
    let suffix := match strip_prefix [c_star] g with
                  | Some rest => if negb (has_special rest) then Some rest else None
                  | None => None
                  end in
    let prefix := match strip_suffix [c_star] g with
                  | Some prefix =>
                      if negb (bool_decide (prefix = [])) && negb (has_special prefix) then Some prefix
                      else None
                  | None => None
                  end in
    match suffix, prefix with
    | Some rest, _ => BkSuffix rest
    | None, Some prefix => BkPrefix prefix
    | None, None => BkGlob g
    end.

Definition BasenameKind_matches (k : BasenameKind) (base : bytes) : bool :=
  match k with
  | BkLiteral s => bytes_eqb base s
  | BkSuffix s => bool_decide (is_Some (strip_suffix s base))
  | BkPrefix s => starts_with s base
  | BkGlob g => segment_match g base
  end.

(** ** The matcher of paths *)

Fixpoint match_segments (pat : list Segment) (path : list bytes) : bool :=
  match pat with
  | [] => bool_decide (path = [])
  | DoubleStar :: rest =>
      match rest with
      | [] => negb (bool_decide (path = []))
      | _ => existsb (λ k, match_segments rest (drop k path)) (seq 0 (S (length path)))
      end
  | Glob g :: rest =>
      match path with
      | first :: tail => segment_match g first && match_segments rest tail
      | [] => false
      end
  end.

Definition Pattern_matches (p : Pattern) (path : list bytes) : bool :=
  match pat_basename_kind p with
  | Some kind => is_some_and (list.last path) (BasenameKind_matches kind)
  | None => match_segments (pat_segments p) path
  end.

(** The loop over the patterns in reverse. *)
Fixpoint last_match (path : list bytes) (is_dir : bool) (ps : list Pattern) : bool :=
  match ps with
  | [] => false
  | p :: ps =>
      if pat_dir_only p && negb is_dir then last_match path is_dir ps
      else if Pattern_matches p path then negb (pat_negated p)
      else last_match path is_dir ps
  end.

Definition is_ignored (il : IgnoreList) (rel_path : bytes) (is_dir : bool) : bool :=
  let trimmed := trim_matches SLASH rel_path in
  let base := basename trimmed in
  if eq_ignore_ascii_case base (b# ".mkit") || eq_ignore_ascii_case base (b# ".git") then true
  else
    let path := path_segments trimmed in
    if bool_decide (path = []) then false
    else last_match path is_dir (reverse (il_patterns il)).

Definition is_ignored_with_ancestors (il : IgnoreList) (rel_path : bytes) (is_dir : bool) : bool :=
  let trimmed := trim_matches SLASH rel_path in
  if bool_decide (trimmed = []) then false
  else
    let segs := path_segments trimmed in
    if existsb (λ i, is_ignored il (join_slash (take i segs)) true) (seq 1 (length segs - 1)) then true
    else is_ignored il trimmed is_dir.

(** ** Parsing *)

Definition finish_pattern (body : bytes) (negated : bool) : option Pattern :=
  let '(dir_only, body) := match strip_suffix [SLASH] body with
                           | Some rest => (true, rest)
                           | None => (false, body)
                           end in
  if bool_decide (body = []) then None
  else
    let anchored := bool_decide (SLASH ∈ body) in
    let core := default body (strip_prefix [SLASH] body) in
    if bool_decide (core = []) then None
    else
      let basename_kind :=
        if negb anchored && negb (bytes_eqb core (b# "**")) then Some (classify_basename_glob core)
        else None in
      let segments := (λ s, if bytes_eqb s (b# "**") then DoubleStar else Glob s) <$> path_segments core in
      match segments with
      | [] => None
      | _ =>
          Some {| pat_pattern := core; pat_negated := negated; pat_dir_only := dir_only;
                  pat_anchored := anchored;
                  pat_segments := if negb anchored then DoubleStar :: segments else segments;
                  pat_basename_kind := basename_kind |}
      end.

Definition parse_line (line : bytes) : option Pattern :=
  if bool_decide (line = []) || starts_with (b# "#") line then None
  else
    let line := trim_end Byte.x20 line in
    if bool_decide (line = []) then None
    else
      let '(negated, body) :=
        match strip_prefix [c_bang] line with
        | Some rest => (true, rest)
        | None =>
            match strip_prefix [c_backslash; c_bang] line with
            | Some rest => (false, c_bang :: rest)
            | None =>
                match strip_prefix [c_backslash; Byte.x23] line with
                | Some rest => (false, Byte.x23 :: rest)
                | None => (false, line)
                end
            end
        end in
      finish_pattern body negated.

Definition parse (content : bytes) : IgnoreList :=
  {| il_patterns := omap (λ raw, parse_line (default raw (strip_suffix [Byte.x0d] raw)))
                      (split_byte Byte.x0a content) |}.

(** ** Loading *)

(** What [fs::metadata] gives (nothing: there is no file), a length, and what
    [read_to_string] then gives. *)
Record IgnoreFile := {
  ig_metadata : option (result io_error N);
  ig_read_to_string : result io_error bytes
}.

Definition load_one (f : IgnoreFile) : result IgnoreError (option IgnoreList) :=
  match ig_metadata f with
  | None => Ok None
  | Some (Err e) => Err (IgIo e)
  | Some (Ok len) =>
      if (MAX_IGNORE_FILE_BYTES <? len)%N then Err IgFileTooLarge
      else match ig_read_to_string f with
           | Ok content => Ok (Some (parse content))
           | Err e => Err (IgIo e)
           end
  end.

(** The loop over the names of the files, in the directory [dir]. *)
Fixpoint load_names (dir : bytes → IgnoreFile) (names : list bytes) (patterns : list Pattern)
    : result IgnoreError (list Pattern) :=
  match names with
  | [] => Ok patterns
  | name :: names =>
      list ← load_one (dir name);
      load_names dir names (match list with Some l => patterns ++ il_patterns l | None => patterns end)
  end.

Definition load (dir : bytes → IgnoreFile) : result IgnoreError IgnoreList :=
  patterns ← load_names dir [b# ".gitignore"; b# ".mkitignore"] [];
  Ok {| il_patterns := patterns |}.
