(* ===== verification/IgnoreFacts.v ===== *)
(** * The ignore matcher decides the language of its patterns

    A pattern of a segment is a language of bytes and a pattern of paths one of lists of
    names, given by rules. The matchers, the fast path of a basename and the reverse scan
    of the list decide them, and what is below an ignored directory is ignored. *)

From S2P Require Import Prelude Object Store Index IndexFacts Ignore.

(** ** Splits of a list *)

Lemma existsb_drop {A} (f : list A → bool) (l : list A) :
  existsb (λ i, f (drop i l)) (seq 0 (S (length l))) = true ↔ ∃ l1 l2, l = l1 ++ l2 ∧ f l2 = true.
Proof.
  rewrite existsb_exists. split.
  - intros (i & _ & Hf). exists (take i l), (drop i l). by rewrite take_drop.
  - intros (l1 & l2 & -> & Hf). exists (length l1). rewrite drop_app_length. split; [|done].
    apply in_seq. rewrite length_app. lia.
Qed.

(** ** Classes *)

(** The ranges of a class up to its closing bracket, and the rest of the pattern. *)
Fixpoint class_items (first : bool) (rest : bytes) : option (list (byte * byte) * bytes) :=
  match rest with
  | [] => None
  | c :: rest1 =>
      if bool_decide (c = c_close) && negb first then Some ([], rest1)
      else
        let one := '(items, tail) ← class_items false rest1; Some ((c, c) :: items, tail) in
        match rest1 with
        | d :: hi :: rest3 =>
            if bool_decide (d = c_dash) && negb (bool_decide (hi = c_close)) then
              '(items, tail) ← class_items false rest3; Some ((c, hi) :: items, tail)
            else one
        | _ => one
        end
  end.

Definition in_range (x : byte) (r : byte * byte) : bool :=
  (b2n r.1 <=? b2n x)%N && (b2n x <=? b2n r.2)%N.

(** A class after its opening bracket: whether it is negated, its ranges, the rest. *)
Definition class_of (p : bytes) : option (bool * list (byte * byte) * bytes) :=
  let negate := match p !! 0 with Some c => bool_decide (c = c_bang) || bool_decide (c = c_caret) | None => false end in
  '(items, tail) ← class_items true (if negate then drop 1 p else p);
  Some (negate, items, tail).

Definition class_has (negate : bool) (items : list (byte * byte)) (x : byte) : bool :=
  xorb (existsb (in_range x) items) negate.

Lemma in_range_single x c : in_range x (c, c) = bool_decide (x = c).
Proof.
  unfold in_range. cbn. case_bool_decide as E.
  - subst. rewrite N.leb_refl. done.
  - apply andb_false_iff. assert (b2n x ≠ b2n c) as Hne by (intros H; by apply b2n_inj in H).
    destruct (N.leb_spec (b2n c) (b2n x)); [|by left]. right. apply N.leb_gt. lia.
Qed.

(** The loop computes the membership of the character while it parses. *)
Definition class_result (ch : option byte) (negate : bool) (i : nat) (m : bool) (rest : bytes)
    (parsed : option (list (byte * byte) * bytes)) (r : option (bool * nat)) : Prop :=
  match parsed with
  | None => r = None
  | Some (items, tail) =>
      ∃ n, tail = drop n rest ∧ n ≤ length rest ∧
        r = Some (match ch with
                  | Some x => xorb (existsb (in_range x) items || m) negate
                  | None => false
                  end, i + n)
  end.

Lemma class_loop_spec ch negate n : ∀ rest first i m,
  length rest ≤ n →
  class_result ch negate i m rest (class_items first rest) (class_loop ch negate first i m rest).
Proof.
  induction n as [|n IH]; intros [|c rest1] first i m Hn; cbn [length] in Hn; try (exact eq_refl || lia).
  assert (∀ lo hi rest' k m',
    length rest' ≤ n → drop k (c :: rest1) = rest' → k ≤ length (c :: rest1) →
    (∀ x, ch = Some x → m' = in_range x (lo, hi) || m) →
    class_result ch negate i m (c :: rest1)
      ('(items, tail) ← class_items false rest'; Some ((lo, hi) :: items, tail))
      (class_loop ch negate false (i + k) m' rest')) as Hstep.
  { intros lo hi rest' k m' Hl Hk Hkl Hm. specialize (IH rest' false (i + k) m' Hl).
    unfold class_result in *. destruct (class_items false rest') as [[items tail]|]; [|done].
    cbn [mbind option_bind]. destruct IH as (j & -> & Hj & ->). exists (k + j).
    split; [by rewrite <- Hk, drop_drop|]. split; [rewrite <- Hk, length_drop in Hj; lia|].
    f_equal. f_equal; [|lia]. destruct ch as [x|]; [|done]. cbn [existsb]. rewrite (Hm x eq_refl).
    f_equal. rewrite !(orb_comm _ m), orb_assoc, (orb_comm _ (in_range _ _)).
    by destruct (in_range x (lo, hi)), m, (existsb (in_range x) items). }
  cbn [class_items class_loop]. destruct (bool_decide (c = c_close) && negb first).
  { exists 1. split; [done|]. split; [cbn; lia|]. destruct ch as [x|]; [|done].
    by rewrite bool_decide_eq_true_2. }
  assert (class_result ch negate i m (c :: rest1)
    ('(items, tail) ← class_items false rest1; Some ((c, c) :: items, tail))
    (class_loop ch negate false (i + 1) (bool_decide (ch = Some c) || m) rest1)) as Hone.
  { apply Hstep; [cbn in Hn; lia|done|cbn; lia|]. intros x ->. f_equal.
    rewrite in_range_single. apply bool_decide_ext. naive_solver. }
  destruct rest1 as [|d [|hi rest3]]; [exact Hone..|].
  destruct (bool_decide (d = c_dash) && _); [|exact Hone].
  apply Hstep; [cbn in Hn; lia|done|cbn; lia|]. by intros x ->.
Qed.

Lemma match_class_spec p ch :
  match class_of p with
  | None => match_class (c_open :: p) ch = None
  | Some (negate, items, tail) =>
      ∃ plen, match_class (c_open :: p) ch =
        Some (match ch with Some x => class_has negate items x | None => false end, plen) ∧
        drop plen (c_open :: p) = tail ∧ length tail ≤ length p
  end.
Proof.
  unfold class_of, match_class. cbn [lookup list_lookup].
  set (negate := match p !! 0 with Some c => _ | None => false end).
  assert (drop (if negate then 2 else 1) (c_open :: p) = if negate then drop 1 p else p) as Hd
    by (destruct negate; cbn; by rewrite ?drop_0).
  rewrite Hd. set (q := if negate then drop 1 p else p) in *.
  pose proof (class_loop_spec ch negate (length q) q true (if negate then 2 else 1) false (le_n _)) as H.
  unfold class_result in H. destruct (class_items true q) as [[items tail]|]; [|exact H].
  cbn [mbind option_bind]. destruct H as (n & -> & Hn & ->). eexists. split.
  - f_equal. f_equal. destruct ch; [|done]. unfold class_has. by rewrite orb_false_r.
  - split; [by rewrite <- Hd, drop_drop|]. rewrite length_drop.
    assert (length q ≤ length p); [|lia]. unfold q. destruct negate; [rewrite length_drop|]; lia.
Qed.

(** ** The language of a pattern of a segment *)

Definition special (c : byte) : bool :=
  bool_decide (c = c_star) || bool_decide (c = c_question) || bool_decide (c = c_open)
  || bool_decide (c = c_backslash).

Inductive globs : bytes → bytes → Prop :=
  | globs_nil : globs [] []
  | globs_star p u s : globs p s → globs (c_star :: p) (u ++ s)
  | globs_question p c s : globs p s → globs (c_question :: p) (c :: s)
  | globs_class p negate items tail c s :
      class_of p = Some (negate, items, tail) → class_has negate items c = true →
      globs tail s → globs (c_open :: p) (c :: s)
  | globs_open p s : class_of p = None → globs p s → globs (c_open :: p) (c_open :: s)
  | globs_escape c p s : globs p s → globs (c_backslash :: c :: p) (c :: s)
  | globs_backslash : globs [c_backslash] [c_backslash]
  | globs_literal c p s : special c = false → globs p s → globs (c :: p) (c :: s).

Lemma globs_nil_inv s : globs [] s ↔ s = [].
Proof. split; [intros H; by inv H|intros ->; constructor]. Qed.

Lemma globs_star_inv p s : globs (c_star :: p) s ↔ ∃ u t, s = u ++ t ∧ globs p t.
Proof. split; [intros H; inv H; eauto; done|]. intros (u & t & -> & H). by constructor. Qed.

Lemma globs_question_inv p s : globs (c_question :: p) s ↔ ∃ c t, s = c :: t ∧ globs p t.
Proof. split; [intros H; inv H; eauto; done|]. intros (u & t & -> & H). by constructor. Qed.

Lemma globs_class_inv p s negate items tail :
  class_of p = Some (negate, items, tail) →
  globs (c_open :: p) s ↔ ∃ c t, s = c :: t ∧ class_has negate items c = true ∧ globs tail t.
Proof.
  intros Hc. split.
  - intros H. inv H as [| | |? ? ? ? ? ? Hc'| | | |]; simplify_eq; eauto; done.
  - intros (c & t & -> & Hin & H). by eapply globs_class.
Qed.

Lemma globs_open_inv p s :
  class_of p = None → globs (c_open :: p) s ↔ ∃ t, s = c_open :: t ∧ globs p t.
Proof.
  intros Hc. split.
  - intros H. inv H; simplify_eq; eauto; done.
  - intros (t & -> & H). by constructor.
Qed.

Lemma globs_escape_inv c p s : globs (c_backslash :: c :: p) s ↔ ∃ t, s = c :: t ∧ globs p t.
Proof. split; [intros H; inv H; eauto; done|]. intros (t & -> & H). by constructor. Qed.

Lemma globs_backslash_inv s : globs [c_backslash] s ↔ s = [c_backslash].
Proof. split; [intros H; by inv H|]. intros ->. constructor. Qed.

Lemma globs_literal_inv c p s : special c = false → globs (c :: p) s ↔ ∃ t, s = c :: t ∧ globs p t.
Proof.
  intros Hc. split.
  - intros H. inv H; eauto; done.
  - intros (t & -> & H). by constructor.
Qed.

(** A run of stars is a star. *)
Lemma globs_stars p s : globs (c_star :: p) s ↔ globs (c_star :: trim_start c_star p) s.
Proof.
  revert s. induction p as [|c p IH]; intros s; cbn [trim_start]; [done|].
  case_bool_decide as E; [|done]. subst c. rewrite <- IH, !globs_star_inv. split.
  - intros (u & t & -> & (u' & t' & -> & H)%globs_star_inv). exists (u ++ u'), t'. by rewrite app_assoc.
  - intros (u & t & -> & H). exists u, t. split; [done|]. apply globs_star_inv. by exists [], t.
Qed.

Lemma trim_start_length c s : length (trim_start c s) ≤ length s.
Proof. induction s as [|d s IH]; cbn; [done|]. case_bool_decide; cbn; lia. Qed.

Lemma head_tail (s : bytes) (f : bytes → bool) (c : byte) :
  bool_decide (head s = Some c) && f (drop 1 s) = true ↔ ∃ t, s = c :: t ∧ f t = true.
Proof.
  rewrite andb_true_iff, bool_decide_eq_true. destruct s as [|d s]; cbn; [naive_solver|].
  rewrite drop_0. naive_solver.
Qed.

Lemma segment_match_fuel_spec n : ∀ p s,
  length p ≤ n → segment_match_fuel n p s = true ↔ globs p s.
Proof.
  induction n as [|n IH]; intros [|c p] s Hn; cbn [length] in Hn; try lia;
    try (cbn; rewrite bool_decide_eq_true; symmetry; apply globs_nil_inv).
  cbn [segment_match_fuel]. case_bool_decide as E1.
  { subst c. rewrite existsb_drop, globs_stars, globs_star_inv.
    pose proof (trim_start_length c_star p). setoid_rewrite IH; [done|lia]. }
  case_bool_decide as E2.
  { subst c. rewrite globs_question_inv. destruct s as [|d s]; cbn; [naive_solver|].
    rewrite drop_0, IH by lia. naive_solver. }
  case_bool_decide as E3.
  { subst c. pose proof (match_class_spec p (head s)) as Hm.
    destruct (class_of p) as [[[negate items] tail]|] eqn:Ec.
    - destruct Hm as (plen & -> & -> & Hl). rewrite (globs_class_inv _ _ _ _ _ Ec).
      destruct s as [|d s]; cbn; [naive_solver|]. rewrite drop_0, andb_true_iff, IH by lia. naive_solver.
    - rewrite Hm, (globs_open_inv _ _ Ec), head_tail. cbn [drop]. rewrite drop_0.
      setoid_rewrite IH; [done|lia]. }
  case_bool_decide as E4.
  { subst c. destruct p as [|c p].
    - rewrite globs_backslash_inv, andb_true_iff, bool_decide_eq_true, Nat.eqb_eq.
      destruct s as [|d [|? ?]]; naive_solver.
    - rewrite globs_escape_inv, head_tail. cbn in Hn. setoid_rewrite IH; [done|lia]. }
  rewrite globs_literal_inv, head_tail; [setoid_rewrite IH; [done|lia]|].
  unfold special. by rewrite !bool_decide_eq_false_2.
Qed.

Lemma segment_match_ok p s : segment_match p s = true ↔ globs p s.
Proof. by apply segment_match_fuel_spec. Qed.

(** ** The language of a pattern of paths *)

Inductive seg_globs : list Segment → list bytes → Prop :=
  | sg_nil : seg_globs [] []
  | sg_trailing path : path ≠ [] → seg_globs [DoubleStar] path
  | sg_any pat dirs path : pat ≠ [] → seg_globs pat path → seg_globs (DoubleStar :: pat) (dirs ++ path)
  | sg_glob g pat name path : globs g name → seg_globs pat path → seg_globs (Glob g :: pat) (name :: path).

Lemma match_segments_ok pat : ∀ path, match_segments pat path = true ↔ seg_globs pat path.
Proof.
  induction pat as [|sg pat IH]; intros path; cbn [match_segments].
  { rewrite bool_decide_eq_true. split; [intros ->; constructor|intros H; by inv H]. }
  destruct sg as [|g].
  - destruct pat as [|sg pat].
    + rewrite negb_true_iff, bool_decide_eq_false.
      split; [by constructor|intros H; by inv H].
    + rewrite existsb_drop. setoid_rewrite IH. split.
      * intros (l1 & l2 & -> & H). by constructor.
      * intros H. inv H; eauto.
  - destruct path as [|name path]; [split; [done|intros H; by inv H]|].
    rewrite andb_true_iff, segment_match_ok, IH. split; [intros []; by constructor|].
    intros H. by inv H.
Qed.

(** ** The fast path *)

Lemma has_special_cons c s : has_special (c :: s) = special c || has_special s.
Proof. done. Qed.

Lemma globs_plain g : has_special g = false → ∀ p s, globs (g ++ p) s ↔ ∃ t, s = g ++ t ∧ globs p t.
Proof.
  induction g as [|c g IH]; intros Hg p s; [cbn; naive_solver|].
  rewrite has_special_cons in Hg. apply orb_false_iff in Hg as [Hc Hg].
  cbn [app]. rewrite globs_literal_inv by done. setoid_rewrite (IH Hg). naive_solver.
Qed.

Lemma globs_exact g s : has_special g = false → globs g s ↔ s = g.
Proof.
  intros Hg. pose proof (globs_plain g Hg [] s) as H. rewrite app_nil_r in H. rewrite H.
  setoid_rewrite globs_nil_inv. split; [|intros ->; exists []; by rewrite app_nil_r].
  intros (t & -> & ->). apply app_nil_r.
Qed.

Lemma strip_prefix_spec pre s t : strip_prefix pre s = Some t ↔ s = pre ++ t.
Proof.
  revert s. induction pre as [|c pre IH]; intros s; cbn; [naive_solver|].
  destruct s as [|d s]; [naive_solver|]. case_bool_decide as E; [rewrite IH; subst|]; naive_solver.
Qed.

Lemma strip_suffix_spec suf s t : strip_suffix suf s = Some t ↔ s = t ++ suf.
Proof.
  unfold strip_suffix. rewrite fmap_Some. setoid_rewrite strip_prefix_spec. split.
  - intros (u & H & ->). rewrite <- (reverse_involutive s), H, reverse_app. by rewrite reverse_involutive.
  - intros ->. exists (reverse t). rewrite reverse_app. by rewrite reverse_involutive.
Qed.

Lemma classify_matches g base :
  BasenameKind_matches (classify_basename_glob g) base = true ↔ globs g base.
Proof.
  unfold classify_basename_glob. destruct (has_special g) eqn:Hg; cbn [negb].
  2:{ cbn. by rewrite bytes_eqb_eq, globs_exact. }
  destruct (strip_prefix [c_star] g) as [rest|] eqn:Es; [apply strip_prefix_spec in Es; destruct (has_special rest) eqn:Hr|];
    cbn [negb].
  2:{ cbn [BasenameKind_matches]. rewrite bool_decide_eq_true. subst g. cbn [app]. rewrite globs_star_inv.
      unfold is_Some. setoid_rewrite strip_suffix_spec. setoid_rewrite (globs_exact rest); [|done].
      naive_solver. }
  all: destruct (strip_suffix [c_star] g) as [prefix|] eqn:Ep;
    [|cbn [BasenameKind_matches]; apply segment_match_ok].
  all: destruct (negb (bool_decide (prefix = [])) && negb (has_special prefix)) eqn:Hp;
    [|cbn [BasenameKind_matches]; apply segment_match_ok].
  all: apply andb_true_iff in Hp as [_ Hp%negb_true_iff]; apply strip_suffix_spec in Ep; rewrite Ep;
    cbn [BasenameKind_matches]; rewrite starts_with_spec, (globs_plain prefix Hp); setoid_rewrite globs_star_inv;
    setoid_rewrite globs_nil_inv; split; [intros [k ->]; exists k; split; [done|]; exists k, []; by rewrite app_nil_r|];
    intros (t & -> & _); by exists t.
Qed.

(** What every pattern of a list promises: its fast path is its general path. *)
Definition pattern_ok (p : Pattern) : Prop :=
  ∀ path, Pattern_matches p path = true ↔ seg_globs (pat_segments p) path.

Lemma seg_globs_basename g path :
  seg_globs [DoubleStar; Glob g] path ↔ ∃ base, list.last path = Some base ∧ globs g base.
Proof.
  split.
  - intros H. inv H as [| |? dirs path' _ H1|]. inv H1 as [| | |? ? name ? Hg H2]. inv H2.
    exists name. by rewrite last_snoc.
  - intros (base & (dirs & ->)%last_Some & Hg). apply sg_any; [done|]. repeat constructor. done.
Qed.

Lemma split_slash_plain s : SLASH ∉ s → split_slash s = [s].
Proof. intros H. pose proof (split_join_slash [s]) as E. cbn in E. apply E; [done|by constructor]. Qed.

Lemma finish_pattern_ok body negated p : finish_pattern body negated = Some p → pattern_ok p.
Proof.
  unfold finish_pattern. destruct (match strip_suffix [SLASH] body with Some _ => _ | None => _ end) as [dir_only b].
  cbv zeta. case_bool_decide as Hb; [done|]. case_bool_decide as Hc; [done|].
  case_bool_decide as Hs; cbn [negb andb].
  - destruct (_ <$> _) as [|sg segs]; [done|].
    intros [= <-] path. apply match_segments_ok.
  - assert (strip_prefix [SLASH] b = None) as ->.
    { destruct (strip_prefix [SLASH] b) as [t|] eqn:E; [|done]. apply strip_prefix_spec in E as ->.
      destruct Hs. by left. }
    cbn [default from_option].
    assert (path_segments b = [b]) as ->.
    { unfold path_segments. rewrite split_slash_plain by done. by rewrite filter_cons_True. }
    cbn [fmap list_fmap]. destruct (bytes_eqb b (b# "**")) eqn:E; cbn [negb].
    + intros [= <-] path. apply match_segments_ok.
    + intros [= <-] path. unfold Pattern_matches. cbn [pat_basename_kind pat_segments].
      rewrite seg_globs_basename. destruct (list.last path) as [base|]; cbn [is_some_and]; [|naive_solver].
      rewrite classify_matches. naive_solver.
Qed.

Lemma parse_ok content : Forall pattern_ok (il_patterns (parse content)).
Proof.
  apply list.Forall_forall. intros p (raw & _ & H)%list_elem_of_omap. unfold parse_line in H.
  destruct (_ || _); [done|]. case_bool_decide; [done|].
  destruct (match strip_prefix [c_bang] _ with Some _ => _ | None => _ end) as [negated body].
  by eapply finish_pattern_ok.
Qed.

Lemma load_one_ok f l : load_one f = Ok (Some l) → Forall pattern_ok (il_patterns l).
Proof.
  unfold load_one. destruct (ig_metadata f) as [[len|e]|]; [|done..].
  destruct (_ <? _)%N; [done|]. destruct (ig_read_to_string f); [|done]. intros [= <-]. apply parse_ok.
Qed.

Lemma load_ok dir il : load dir = Ok il → Forall pattern_ok (il_patterns il).
Proof.
  unfold load. intros (ps & H & [= <-])%bind_Ok. cbn [il_patterns].
  assert (∀ names acc, Forall pattern_ok acc → load_names dir names acc = Ok ps → Forall pattern_ok ps) as Hgo.
  { induction names as [|n names IH]; intros acc Hacc; cbn [load_names]; [by intros [= <-]|].
    intros ([l|] & Hl & Hr)%bind_Ok; eapply IH; [|exact Hr|exact Hacc|exact Hr].
    apply Forall_app. split; [done|by eapply load_one_ok]. }
  by eapply Hgo.
Qed.

(** ** The list of patterns *)

Definition applies (p : Pattern) (path : list bytes) (is_dir : bool) : Prop :=
  (pat_dir_only p = true → is_dir = true) ∧ seg_globs (pat_segments p) path.

(** [p] is the last pattern that applies. *)
Definition decides (ps : list Pattern) (path : list bytes) (is_dir : bool) (p : Pattern) : Prop :=
  ∃ l1 l2, ps = l1 ++ p :: l2 ∧ applies p path is_dir ∧ Forall (λ q, ¬ applies q path is_dir) l2.

Definition reserved (name : bytes) : bool :=
  eq_ignore_ascii_case name (b# ".mkit") || eq_ignore_ascii_case name (b# ".git").

(** The path is ignored itself. *)
Definition excluded (ps : list Pattern) (path : list bytes) (is_dir : bool) : Prop :=
  (∃ base, list.last path = Some base ∧ reserved base = true) ∨
  path ≠ [] ∧ ∃ p, decides ps path is_dir p ∧ pat_negated p = false.

Lemma decides_snoc ps q path is_dir p :
  decides (ps ++ [q]) path is_dir p ↔
  applies q path is_dir ∧ p = q ∨ ¬ applies q path is_dir ∧ decides ps path is_dir p.
Proof.
  split.
  - intros (l1 & l2 & E & Hp & Hl). destruct l2 as [|x l2 _] using rev_ind.
    + apply app_inj_tail in E as [_ ->]. by left.
    + rewrite app_comm_cons, app_assoc in E. apply app_inj_tail in E as [-> ->].
      apply Forall_app in Hl as [Hl Hx]. inv Hx. right. split; [done|]. by exists l1, l2.
  - intros [[Hq ->]|[Hq (l1 & l2 & -> & Hp & Hl)]].
    + exists ps, []. split; [done|]. split; [done|constructor].
    + exists l1, (l2 ++ [q]). rewrite <- app_assoc. split; [done|]. split; [done|].
      apply Forall_app. split; [done|]. by constructor.
Qed.

Lemma last_match_ok ps path is_dir :
  Forall pattern_ok ps →
  last_match path is_dir (reverse ps) = true ↔ ∃ p, decides ps path is_dir p ∧ pat_negated p = false.
Proof.
  induction ps as [|q ps IH] using rev_ind; intros Hok.
  { cbn. split; [done|]. intros (p & (l1 & l2 & E & _) & _). by destruct l1. }
  apply Forall_app in Hok as [Hok Hf]. inv Hf as [|? ? Hq _].
  rewrite reverse_app. cbn [reverse rev_append app last_match]. setoid_rewrite decides_snoc.
  destruct (pat_dir_only q && negb is_dir) eqn:Ed.
  - assert (¬ applies q path is_dir) as Hna.
    { intros [Hd _]. apply andb_true_iff in Ed as [E1 E2%negb_true_iff]. rewrite Hd in E2; done. }
    rewrite (IH Hok). naive_solver.
  - destruct (Pattern_matches q path) eqn:Em.
    + assert (applies q path is_dir) as Ha.
      { split; [|by apply Hq]. intros E. rewrite E in Ed. by destruct is_dir. }
      rewrite negb_true_iff. naive_solver.
    + assert (¬ applies q path is_dir) as Hna.
      { intros [_ Hm]. apply Hq in Hm. congruence. }
      rewrite (IH Hok). naive_solver.
Qed.

(** ** Paths *)

Lemma split_slash_app a b : split_slash (a ++ SLASH :: b) = split_slash a ++ split_slash b.
Proof.
  induction a as [|c a IH]; [done|]. cbn [app split_slash]. rewrite IH.
  case_bool_decide; [done|]. pose proof (split_slash_ne a). by destruct (split_slash a).
Qed.

Lemma path_segments_app a b : path_segments (a ++ SLASH :: b) = path_segments a ++ path_segments b.
Proof. unfold path_segments. by rewrite split_slash_app, list.filter_app. Qed.

Lemma path_segments_trailing s n : path_segments (s ++ replicate n SLASH) = path_segments s.
Proof.
  revert s. induction n as [|n IH]; intros s; cbn [replicate]; [by rewrite app_nil_r|].
  assert (s ++ SLASH :: replicate n SLASH = (s ++ SLASH :: []) ++ replicate n SLASH) as ->
    by (by rewrite <- app_assoc).
  rewrite IH, path_segments_app. apply app_nil_r.
Qed.

Lemma trim_start_spec c s : ∃ n, s = replicate n c ++ trim_start c s ∧ head (trim_start c s) ≠ Some c.
Proof.
  induction s as [|d s (n & IH & Hh)]; [by exists 0|]. cbn [trim_start]. case_bool_decide as E.
  - exists (S n). subst. cbn. by rewrite <- IH.
  - exists 0. split; [done|]. cbn. congruence.
Qed.

Lemma trim_end_spec c s : ∃ n, s = trim_end c s ++ replicate n c ∧ list.last (trim_end c s) ≠ Some c.
Proof.
  destruct (trim_start_spec c (reverse s)) as (n & E & Hh). exists n. unfold trim_end. split.
  - rewrite <- (reverse_involutive s) at 1. rewrite E at 1. by rewrite reverse_app, reverse_replicate.
  - by rewrite last_reverse.
Qed.

Lemma trim_start_segments s : path_segments (trim_start SLASH s) = path_segments s.
Proof.
  induction s as [|c s IH]; [done|]. cbn [trim_start]. case_bool_decide as E; [|done].
  subst. rewrite IH. symmetry. exact (path_segments_app [] s).
Qed.

Lemma trim_matches_segments s : path_segments (trim_matches SLASH s) = path_segments s.
Proof.
  unfold trim_matches. rewrite <- (trim_start_segments s).
  destruct (trim_end_spec SLASH (trim_start SLASH s)) as (n & E & _).
  rewrite E at 2. by rewrite path_segments_trailing.
Qed.

(** A path without a trailing slash ends with its basename. *)
Lemma basename_spec s :
  list.last s ≠ Some SLASH →
  if bool_decide (s = []) then path_segments s = [] ∧ basename s = []
  else list.last (path_segments s) = Some (basename s).
Proof.
  intros Hl. case_bool_decide as Hs; [by subst|].
  assert (∃ dirs b, split_slash s = dirs ++ [b] ∧ b ≠ []) as (dirs & b & E & Hb).
  { destruct (decide (SLASH ∈ s)) as [Hin|Hn]; [|exists [], s; by rewrite split_slash_plain].
    apply list_elem_of_split_r in Hin as (a & b & -> & Hb). exists (split_slash a), b.
    rewrite split_slash_app, (split_slash_plain b) by done. split; [done|].
    intros ->. by rewrite last_snoc in Hl. }
  unfold path_segments, basename. rewrite E, List.last_last, list.filter_app.
  rewrite (filter_cons_True _ b []) by done. apply last_snoc.
Qed.

Lemma is_ignored_ok il rel is_dir :
  Forall pattern_ok (il_patterns il) →
  is_ignored il rel is_dir = true ↔ excluded (il_patterns il) (path_segments rel) is_dir.
Proof.
  intros Hok. unfold is_ignored, excluded. cbv zeta.
  destruct (trim_end_spec SLASH (trim_start SLASH rel)) as (_ & _ & Hl).
  fold (trim_matches SLASH rel) in Hl. apply basename_spec in Hl.
  rewrite trim_matches_segments in *. fold (reserved (basename (trim_matches SLASH rel))).
  case_bool_decide as Ht.
  - destruct Hl as [-> ->]. cbn. naive_solver.
  - rewrite Hl. destruct (reserved _) eqn:Hr; [naive_solver|].
    rewrite (bool_decide_eq_false_2 (path_segments rel = [])) by (by intros E; rewrite E in Hl).
    rewrite last_match_ok by done.
    assert (path_segments rel ≠ []) by (by intros E; rewrite E in Hl).
    split; [by right|]. intros [(b & [= <-] & ?)|[_ ?]]; [congruence|done].
Qed.

Lemma segments_clean s : Forall (λ t, t ≠ [] ∧ (SLASH ∉ t)) (path_segments s).
Proof.
  apply list.Forall_forall. intros t [Hne Hin]%list_elem_of_filter. split; [done|].
  pose proof (split_slash_no_slash s) as Hf. rewrite list.Forall_forall in Hf. by apply Hf.
Qed.

Lemma path_segments_join l :
  l ≠ [] → Forall (λ t, t ≠ [] ∧ (SLASH ∉ t)) l → path_segments (join_slash l) = l.
Proof.
  intros Hne Hf. unfold path_segments. rewrite split_join_slash; [|done|].
  - clear Hne. induction Hf as [|t l [Ht _] _ IH]; [done|]. by rewrite filter_cons_True, IH.
  - eapply list.Forall_impl; [exact Hf|]. by intros t [].
Qed.

(** A directory on the way to the path, or the path, is ignored. *)
Definition excluded_below (ps : list Pattern) (path : list bytes) (is_dir : bool) : Prop :=
  (∃ n, 0 < n < length path ∧ excluded ps (take n path) true) ∨ excluded ps path is_dir.

Lemma excluded_ne ps path is_dir : excluded ps path is_dir → path ≠ [].
Proof. intros [(b & H & _)|[H _]]; [|done]. by intros ->. Qed.

Lemma is_ignored_with_ancestors_ok il rel is_dir :
  Forall pattern_ok (il_patterns il) →
  is_ignored_with_ancestors il rel is_dir = true ↔
  excluded_below (il_patterns il) (path_segments rel) is_dir.
Proof.
  intros Hok. unfold is_ignored_with_ancestors, excluded_below. cbv zeta.
  case_bool_decide as Ht.
  { assert (path_segments rel = []) as -> by (by rewrite <- trim_matches_segments, Ht).
    cbn. split; [done|]. intros [(n & ? & _)|H%excluded_ne]; [lia|done]. }
  rewrite trim_matches_segments.
  assert (∀ i, 0 < i < length (path_segments rel) →
    is_ignored il (join_slash (take i (path_segments rel))) true = true ↔
    excluded (il_patterns il) (take i (path_segments rel)) true) as Hanc.
  { intros i Hi. rewrite is_ignored_ok, path_segments_join; [done| | |done].
    - intros E%(f_equal length). rewrite length_take in E. cbn in E. lia.
    - apply Forall_take, segments_clean. }
  destruct (existsb _ _) eqn:Ee.
  - apply existsb_exists in Ee as (i & Hi%in_seq & H). split; [intros _|done]. left. exists i.
    assert (0 < i < length (path_segments rel)) as Hi' by lia. split; [done|]. by apply Hanc.
  - rewrite is_ignored_ok, trim_matches_segments by done. split; [by right|]. intros [(i & Hi & H)|H]; [|done].
    apply not_true_iff_false in Ee. destruct Ee. apply existsb_exists. exists i.
    split; [apply in_seq; lia|]. by apply Hanc.
Qed.

Lemma load_names_Ok dir names : ∀ acc ps,
  load_names dir names acc = Ok ps ↔
  ∃ ls, Forall2 (λ n l, load_one (dir n) = Ok l) names ls ∧
    ps = acc ++ concat (map (λ l, match l with Some l => il_patterns l | None => [] end) ls).
Proof.
  induction names as [|n names IH]; intros acc ps; cbn [load_names].
  { split.
    - intros [= <-]. exists []. cbn. rewrite app_nil_r. split; [constructor|done].
    - intros (ls & H & ->). inv H. cbn. by rewrite app_nil_r. }
  rewrite bind_Ok. setoid_rewrite IH. split.
  - intros (l & Hl & ls & Hf & ->). exists (l :: ls). split; [by constructor|].
    cbn. destruct l; by rewrite <- ?app_assoc.
  - intros (ls & H & ->). inv H as [|? l ? ls' Hl Hf]. exists l. split; [done|]. exists ls'. split; [done|].
    cbn. destruct l; by rewrite <- ?app_assoc.
Qed.

(** ** The documented language of a segment

    The grammar escapes every character with a backslash, so a pattern is a list of
    characters that are escaped or not. The code takes a backslash inside a class for a
    member; without one there, it decides the documented language. *)

(** A character of a pattern, and whether it is escaped. *)
Abbreviation token := (bool * byte)%type.

(** A backslash at the end escapes nothing and stands for itself. *)
Fixpoint lex (p : bytes) : list token :=
  match p with
  | [] => []
  | c :: p1 =>
      if bool_decide (c = c_backslash) then
        match p1 with
        | [] => [(false, c)]
        | x :: p2 => (true, x) :: lex p2
        end
      else (false, c) :: lex p1
  end.

(** The unescaped character [c]. *)
Definition is_tok (c : byte) (t : token) : bool := negb t.1 && bool_decide (t.2 = c).

Fixpoint doc_items (first : bool) (ts : list token) : option (list (byte * byte) * list token) :=
  match ts with
  | [] => None
  | c :: ts1 =>
      if is_tok c_close c && negb first then Some ([], ts1)
      else
        let one := '(items, tail) ← doc_items false ts1; Some ((c.2, c.2) :: items, tail) in
        match ts1 with
        | d :: hi :: ts3 =>
            if is_tok c_dash d && negb (is_tok c_close hi) then
              '(items, tail) ← doc_items false ts3; Some ((c.2, hi.2) :: items, tail)
            else one
        | _ => one
        end
  end.

Definition doc_class (ts : list token) : option (bool * list (byte * byte) * list token) :=
  let negate := match ts with t :: _ => is_tok c_bang t || is_tok c_caret t | [] => false end in
  '(items, tail) ← doc_items true (if negate then drop 1 ts else ts);
  Some (negate, items, tail).

Definition tok_special (t : token) : bool :=
  is_tok c_star t || is_tok c_question t || is_tok c_open t.

Inductive doc_globs : list token → bytes → Prop :=
  | dg_nil : doc_globs [] []
  | dg_star t ts u s : is_tok c_star t = true → doc_globs ts s → doc_globs (t :: ts) (u ++ s)
  | dg_question t ts c s : is_tok c_question t = true → doc_globs ts s → doc_globs (t :: ts) (c :: s)
  | dg_class t ts negate items tail c s :
      is_tok c_open t = true → doc_class ts = Some (negate, items, tail) →
      class_has negate items c = true → doc_globs tail s → doc_globs (t :: ts) (c :: s)
  | dg_open t ts s :
      is_tok c_open t = true → doc_class ts = None → doc_globs ts s →
      doc_globs (t :: ts) (c_open :: s)
  | dg_literal t ts s : tok_special t = false → doc_globs ts s → doc_globs (t :: ts) (t.2 :: s).

(** A class of the pattern has a backslash between its brackets. *)
Fixpoint class_backslash_fuel (fuel : nat) (p : bytes) : bool :=
  match fuel, p with
  | S fuel, c :: p =>
      if bool_decide (c = c_open) then
        match class_of p with
        | Some (_, _, tail) =>
            bool_decide (c_backslash ∈ take (length p - length tail) p)
            || class_backslash_fuel fuel tail
        | None => class_backslash_fuel fuel p
        end
      else if bool_decide (c = c_backslash) then class_backslash_fuel fuel (drop 1 p)
      else class_backslash_fuel fuel p
  | _, _ => false
  end.
Definition backslash_in_class (p : bytes) : bool := class_backslash_fuel (length p) p.

Lemma lex_plain c p : c ≠ c_backslash → lex (c :: p) = (false, c) :: lex p.
Proof. intros Hc. cbn [lex]. by rewrite bool_decide_eq_false_2. Qed.

(** A class without a backslash is the documented one. *)
Lemma class_items_lex n : ∀ rest first items tail,
  length rest ≤ n → class_items first rest = Some (items, tail) →
  ∃ text, rest = text ++ tail ∧ text ≠ [] ∧
    (c_backslash ∉ text → doc_items first (lex rest) = Some (items, lex tail)).
Proof.
  induction n as [|n IH]; intros [|c rest1] first items tail Hn; cbn [length] in Hn; try (done || lia).
  cbn [class_items]. destruct (bool_decide (c = c_close) && negb first) eqn:E.
  { intros [= <- <-]. apply andb_true_iff in E as [->%bool_decide_eq_true Ef]. exists [c_close].
    split_and!; [done..|]. intros _. by destruct first. }
  assert (Hnot : c ≠ c_backslash → is_tok c_close (false, c) && negb first = false) by (intros; exact E).
  assert (Hone : (∀ d hi r, rest1 = d :: hi :: r →
      bool_decide (d = c_dash) && negb (bool_decide (hi = c_close)) = false) →
    ('(items, tail) ← class_items false rest1; Some ((c, c) :: items, tail)) = Some (items, tail) →
    ∃ text, c :: rest1 = text ++ tail ∧ text ≠ [] ∧
      (c_backslash ∉ text → doc_items first (lex (c :: rest1)) = Some (items, lex tail))).
  { intros Hd. destruct (class_items false rest1) as [[items1 tail1]|] eqn:E1; [|done].
    cbn [mbind option_bind]. intros [= <- <-]. destruct (IH rest1 false items1 tail1) as (text & -> & Ht & Hdoc); [lia|done|].
    exists (c :: text). split_and!; [done..|]. intros [Hc Htext]%not_elem_of_cons.
    specialize (Hdoc Htext). rewrite lex_plain by done. cbn [doc_items]. rewrite Hnot by done.
    rewrite Hdoc. cbn [mbind option_bind]. destruct text as [|d text]; [done|].
    apply not_elem_of_cons in Htext as [Hcd Htext]. cbn [app]. rewrite lex_plain by done.
    destruct (lex (text ++ tail1)) as [|hi' r'] eqn:El; [done|].
    assert (is_tok c_dash (false, d) && negb (is_tok c_close hi') = false) as ->; [|done].
    destruct (text ++ tail1) as [|hi r] eqn:Er; [done|]. specialize (Hd d hi r).
    cbn [app] in Hd. rewrite Er in Hd. specialize (Hd eq_refl). unfold is_tok. cbn [fst snd negb andb].
    destruct (bool_decide (d = c_dash)); [|done]. cbn in Hd.
    apply negb_false_iff, bool_decide_eq_true in Hd as ->. rewrite lex_plain in El by done.
    by injection El as <- _. }
  destruct rest1 as [|d [|hi rest3]]; [apply Hone; naive_solver..|].
  destruct (bool_decide (d = c_dash) && negb (bool_decide (hi = c_close))) eqn:Ed.
  2:{ apply Hone. by intros ??? [= <- <- <-]. }
  destruct (class_items false rest3) as [[items1 tail1]|] eqn:E1; [|done].
  cbn [mbind option_bind]. intros [= <- <-]. destruct (IH rest3 false items1 tail1) as (text & -> & _ & Hdoc);
    [cbn in Hn; lia|done|].
  exists (c :: d :: hi :: text). split_and!; [done..|].
  intros [Hc [Hcd [Hhi Htext]%not_elem_of_cons]%not_elem_of_cons]%not_elem_of_cons.
  rewrite !lex_plain by done. cbn [doc_items]. rewrite Hnot by done.
  unfold is_tok at 1 2. cbn [fst snd negb andb]. rewrite Ed. by rewrite (Hdoc Htext).
Qed.

(** A class ends in both or in neither: both need a closing bracket. *)
Lemma class_items_open n : ∀ rest first,
  length rest ≤ n → class_items first rest = None →
  c_close ∉ (if first then drop 1 rest else rest).
Proof.
  induction n as [|n IH]; intros [|c rest1] first Hn; cbn [length] in Hn; try lia;
    try (intros _; destruct first; by apply not_elem_of_nil).
  cbn [class_items]. destruct (bool_decide (c = c_close) && negb first) eqn:E; [done|].
  assert (Hgo : c_close ∉ rest1 → c_close ∉ (if first then drop 1 (c :: rest1) else c :: rest1)).
  { intros Hr. destruct first; [cbn; by rewrite drop_0|]. apply not_elem_of_cons. split; [|done].
    intros <-. by rewrite bool_decide_eq_true_2 in E. }
  assert (Hone : ('(items, tail) ← class_items false rest1; Some ((c, c) :: items, tail)) = None →
    c_close ∉ rest1).
  { destruct (class_items false rest1) as [[]|] eqn:E1; [done|]. intros _.
    apply (IH rest1 false); [lia|done]. }
  destruct rest1 as [|d [|hi rest3]]; [by intros ?%Hone; apply Hgo..|].
  destruct (bool_decide (d = c_dash) && negb (bool_decide (hi = c_close))) eqn:Ed;
    [|by intros ?%Hone; apply Hgo].
  destruct (class_items false rest3) as [[]|] eqn:E1; [done|]. intros _. apply Hgo.
  apply andb_true_iff in Ed as [->%bool_decide_eq_true Hhi%negb_true_iff%bool_decide_eq_false].
  apply not_elem_of_cons. split; [done|]. apply not_elem_of_cons. split; [congruence|].
  apply (IH rest3 false); [cbn in Hn; lia|done].
Qed.

Lemma doc_items_close n : ∀ ts first r,
  length ts ≤ n → doc_items first ts = Some r →
  (false, c_close) ∈ (if first then drop 1 ts else ts).
Proof.
  induction n as [|n IH]; intros [|t ts1] first r Hn; cbn [length] in Hn; try (done || lia).
  cbn [doc_items]. destruct (is_tok c_close t && negb first) eqn:E.
  { intros _. apply andb_true_iff in E as [Ht Hf]. unfold is_tok in Ht. destruct t as [[] c], first; try done.
    apply bool_decide_eq_true in Ht. cbn in Ht. subst c. left. }
  assert (Hgo : (false, c_close) ∈ ts1 →
    (false, c_close) ∈ (if first then drop 1 (t :: ts1) else t :: ts1)).
  { intros Hr. destruct first; [cbn; by rewrite drop_0|by right]. }
  assert (Hone : ('(items, tail) ← doc_items false ts1; Some ((t.2, t.2) :: items, tail)) = Some r →
    (false, c_close) ∈ ts1).
  { destruct (doc_items false ts1) as [[]|] eqn:E1; [|done]. intros _.
    eapply (IH ts1 false); [lia|done]. }
  destruct ts1 as [|d [|hi ts3]]; [by intros ?%Hone; apply Hgo..|].
  destruct (is_tok c_dash d && negb (is_tok c_close hi)); [|by intros ?%Hone; apply Hgo].
  destruct (doc_items false ts3) as [[]|] eqn:E1; [|done]. intros _. apply Hgo. do 2 right.
  eapply (IH ts3 false); [cbn in Hn; lia|done].
Qed.

Lemma lex_unescaped n : ∀ c p, length p ≤ n → (false, c) ∈ lex p → c ∈ p.
Proof.
  induction n as [|n IH]; intros c [|x p] Hn; cbn [length] in Hn; try lia;
    try (by intros ?%not_elem_of_nil).
  cbn [lex]. case_bool_decide as E.
  - destruct p as [|y p]; [intros [= <-]%list_elem_of_singleton; left|].
    intros [[=]|H]%elem_of_cons. do 2 right. apply (IH c p); [cbn in Hn; lia|done].
  - intros [[= <-]|H]%elem_of_cons; [left|right]. apply (IH c p); [lia|done].
Qed.

(** The start of a class, negated or not. *)
Lemma lex_class_start p :
  match lex p with t :: _ => is_tok c_bang t || is_tok c_caret t | [] => false end =
  match p !! 0 with Some c => bool_decide (c = c_bang) || bool_decide (c = c_caret) | None => false end ∧
  (match p !! 0 with Some c => bool_decide (c = c_bang) || bool_decide (c = c_caret) | None => false end = true →
   drop 1 (lex p) = lex (drop 1 p)).
Proof.
  destruct p as [|c p]; [done|]. cbn [lookup list_lookup lex]. case_bool_decide as E.
  - subst c. by destruct p as [|x p].
  - cbn. by rewrite !drop_0.
Qed.

Lemma lex_drop_close p : (false, c_close) ∈ drop 1 (lex p) → c_close ∈ drop 1 p.
Proof.
  destruct p as [|c p]; [by intros ?%not_elem_of_nil|]. cbn [lex]. case_bool_decide as E.
  - destruct p as [|x p]; [by intros ?%not_elem_of_nil|]. cbn. rewrite !drop_0.
    intros H. right. by eapply lex_unescaped.
  - cbn. rewrite !drop_0. intros H. by eapply lex_unescaped.
Qed.

Lemma doc_class_None p : class_of p = None → doc_class (lex p) = None.
Proof.
  unfold class_of, doc_class. destruct (lex_class_start p) as [-> Hd].
  set (negate := match p !! 0 with Some c => _ | None => false end) in *.
  destruct (class_items true (if negate then drop 1 p else p)) as [[items tail]|] eqn:E; [done|]. intros _.
  assert ((if negate then drop 1 (lex p) else lex p) = lex (if negate then drop 1 p else p)) as ->
    by (destruct negate; [by apply Hd|done]).
  apply (class_items_open _ _ _ (le_n _)) in E. cbn [mbind option_bind] in *.
  destruct (doc_items true (lex (if negate then drop 1 p else p))) as [r|] eqn:Er; [|done].
  apply (doc_items_close _ _ _ _ (le_n _)), lex_drop_close in Er. by destruct E.
Qed.

Lemma doc_class_Some p negate items tail :
  class_of p = Some (negate, items, tail) →
  length tail < length p ∧
  (c_backslash ∉ take (length p - length tail) p →
   doc_class (lex p) = Some (negate, items, lex tail)).
Proof.
  unfold class_of, doc_class. destruct (lex_class_start p) as [-> Hd].
  set (neg := match p !! 0 with Some c => _ | None => false end) in *.
  destruct (class_items true (if neg then drop 1 p else p)) as [[items' tail']|] eqn:E; [|done].
  cbn [mbind option_bind]. intros [= <- <- <-].
  destruct (class_items_lex _ _ _ _ _ (le_n _) E) as (text & Ep & Hne & Hdoc).
  assert ((if neg then drop 1 (lex p) else lex p) = lex (if neg then drop 1 p else p)) as ->
    by (destruct neg; [by apply Hd|done]).
  assert (∃ pre, p = pre ++ text ++ tail') as [pre Hp].
  { destruct neg; [|by exists []]. exists (take 1 p). by rewrite <- Ep, take_drop. }
  assert (0 < length text) by (destruct text; [done|cbn; lia]).
  assert (length p = length pre + (length text + length tail')) as Hl
    by (rewrite Hp at 1; by rewrite !length_app).
  split; [lia|]. intros Hno. rewrite Hdoc; [done|]. intros Hin. apply Hno.
  replace (length p - length tail') with (length (pre ++ text)) by (rewrite length_app; lia).
  rewrite Hp, app_assoc, take_app_length. apply elem_of_app. by right.
Qed.

Lemma is_tok_ne a b t : a ≠ b → is_tok a t = true → is_tok b t = false.
Proof.
  unfold is_tok. intros Hab [-> ->%bool_decide_eq_true]%andb_true_iff.
  by rewrite bool_decide_eq_false_2.
Qed.

Lemma dg_cons_inv t ts s :
  doc_globs (t :: ts) s ↔
    if is_tok c_star t then ∃ u r, s = u ++ r ∧ doc_globs ts r
    else if is_tok c_question t then ∃ c r, s = c :: r ∧ doc_globs ts r
    else if is_tok c_open t then
      match doc_class ts with
      | Some (negate, items, tail) => ∃ c r, s = c :: r ∧ class_has negate items c = true ∧ doc_globs tail r
      | None => ∃ r, s = c_open :: r ∧ doc_globs ts r
      end
    else ∃ r, s = t.2 :: r ∧ doc_globs ts r.
Proof.
  split.
  - intros H. inv H as [|? ? u s' Ht H'|? ? c s' Ht H'|? ? negate items tail c s' Ht Hc Hin H'
      |? ? s' Ht Hc H'|? ? s' Ht H'].
    + rewrite Ht. eauto.
    + rewrite (is_tok_ne c_question c_star), Ht by done. eauto.
    + rewrite (is_tok_ne c_open c_star), (is_tok_ne c_open c_question), Ht, Hc by done. eauto.
    + rewrite (is_tok_ne c_open c_star), (is_tok_ne c_open c_question), Ht, Hc by done. eauto.
    + unfold tok_special in Ht. apply orb_false_iff in Ht as [[-> ->]%orb_false_iff ->]. eauto.
  - destruct (is_tok c_star t) eqn:E1; [intros (u & r & -> & ?); by constructor|].
    destruct (is_tok c_question t) eqn:E2; [intros (c & r & -> & ?); by constructor|].
    destruct (is_tok c_open t) eqn:E3.
    + destruct (doc_class ts) as [[[negate items] tail]|] eqn:Ec.
      * intros (c & r & -> & Hin & ?). by eapply dg_class.
      * intros (r & -> & ?). by apply dg_open.
    + intros (r & -> & ?). apply dg_literal; [|done]. unfold tok_special. by rewrite E1, E2, E3.
Qed.

(** Without a backslash in a class, the two languages are one. *)
Lemma globs_documented n : ∀ p s,
  length p ≤ n → class_backslash_fuel n p = false → globs p s ↔ doc_globs (lex p) s.
Proof.
  induction n as [|n IH]; intros [|c p] s Hn; cbn [length] in Hn; try lia;
    try (intros _; rewrite globs_nil_inv; split; [intros ->; constructor|intros H; by inv H]).
  cbn [class_backslash_fuel lex]. destruct (bool_decide_reflect (c = c_open)) as [->|Eo].
  { change (bool_decide (c_open = c_backslash)) with false. rewrite dg_cons_inv. cbn.
    destruct (class_of p) as [[[negate items] tail]|] eqn:Ec.
    - intros [Hb%bool_decide_eq_false Ht]%orb_false_iff.
      destruct (doc_class_Some _ _ _ _ Ec) as [Hl Hdoc]. rewrite (Hdoc Hb), (globs_class_inv _ _ _ _ _ Ec).
      setoid_rewrite (λ s, IH tail s ltac:(lia) Ht). done.
    - intros Ht. rewrite (doc_class_None _ Ec), (globs_open_inv _ _ Ec).
      setoid_rewrite (λ s, IH p s ltac:(lia) Ht). done. }
  destruct (bool_decide_reflect (c = c_backslash)) as [->|Eb].
  { destruct p as [|x p].
    - intros _. rewrite dg_cons_inv. cbn. rewrite globs_backslash_inv. split.
      + intros ->. exists []. split; [done|constructor].
      + intros (r & -> & H). by inv H.
    - intros Ht. cbn in Ht, Hn. rewrite dg_cons_inv. cbn. rewrite globs_escape_inv.
      rewrite drop_0 in Ht. setoid_rewrite (λ s, IH p s ltac:(lia) Ht). done. }
  intros Ht. rewrite dg_cons_inv. unfold is_tok. cbn [fst snd negb andb].
  rewrite (bool_decide_eq_false_2 (c = c_open)) by done.
  destruct (bool_decide_reflect (c = c_star)) as [->|Es].
  { rewrite globs_star_inv. setoid_rewrite (λ s, IH p s ltac:(lia) Ht). done. }
  destruct (bool_decide_reflect (c = c_question)) as [->|Eq].
  { rewrite globs_question_inv. setoid_rewrite (λ s, IH p s ltac:(lia) Ht). done. }
  rewrite globs_literal_inv by (unfold special; by rewrite !bool_decide_eq_false_2).
  setoid_rewrite (λ s, IH p s ltac:(lia) Ht). done.
Qed.

(** ** Theorems *)

(** C28: The matcher of a segment ends, and for a pattern without a backslash inside a class
    it decides the documented language: an unescaped run of stars is any text, an
    unescaped question mark any byte, an unescaped bracket with a closing one a class,
    its members or, after [!] or [^], their complement, and without a closing one
    itself; a backslash makes the byte after it a literal, and every other byte stands
    for itself. *)
Theorem segment_match_spec (p s : bytes) (Hp : backslash_in_class p = false) :
  segment_match p s = true ↔ doc_globs (lex p) s.
Proof. rewrite segment_match_ok. by apply (globs_documented (length p)). Qed.

(** C29: Of the patterns of the two files, those of [.gitignore] before those of
    [.mkitignore], the last that applies to a path decides whether it is ignored, in
    spite of the fast path for basenames and of the reverse scan; a path that ends with a
    reserved name is ignored always; and the form with ancestors ignores exactly the
    paths that are ignored or are below an ignored directory. *)
Theorem ignore_rules (dir : bytes → IgnoreFile) (il : IgnoreList) :
  load dir = Ok il →
  (∃ git own, load_one (dir (b# ".gitignore")) = Ok git ∧ load_one (dir (b# ".mkitignore")) = Ok own ∧
     let pats l := match l with Some l => il_patterns l | None => [] end in
     il_patterns il = pats git ++ pats own) ∧
  ∀ rel is_dir,
    (is_ignored il rel is_dir = true ↔ excluded (il_patterns il) (path_segments rel) is_dir) ∧
    (is_ignored_with_ancestors il rel is_dir = true ↔
       excluded_below (il_patterns il) (path_segments rel) is_dir).
Proof.
  intros H. pose proof (load_ok _ _ H) as Hok. split.
  - unfold load in H. apply bind_Ok in H as (ps & (ls & Hf & ->)%load_names_Ok & [= <-]).
    inv Hf as [|? git ? ls1 Hgit Hf1]. inv Hf1 as [|? own ? ls2 Hown Hf2]. inv Hf2.
    exists git, own. split_and!; [done..|]. cbn. by rewrite app_nil_r.
  - intros rel is_dir. split; [by apply is_ignored_ok|by apply is_ignored_with_ancestors_ok].
Qed.

(** Nothing below an ignored directory escapes: if the directory is ignored, itself
    or for an ancestor, so is every path below it, whatever re-includes it; and a path
    through a directory of a reserved name is ignored. *)
Theorem ignored_below (dir : bytes → IgnoreFile) (il : IgnoreList) (base sub : bytes) (is_dir : bool) :
  load dir = Ok il → path_segments sub ≠ [] →
  is_ignored_with_ancestors il base true = true ∨
    Exists (λ name, reserved name = true) (path_segments base) →
  is_ignored_with_ancestors il (base ++ b# "/" ++ sub) is_dir = true.
Proof.
  intros Hok%load_ok Hne H. apply is_ignored_with_ancestors_ok; [done|].
  pose proof (path_segments_app base sub : path_segments (base ++ b# "/" ++ sub) = _) as ->.
  assert (0 < length (path_segments sub)) as Hlen by (destruct (path_segments sub); cbn; [done|lia]).
  assert (excluded_below (il_patterns il) (path_segments base) true) as Hb; [|clear H; left].
  { destruct H as [H|(name & Hin & Hr)%list.Exists_exists]; [by apply is_ignored_with_ancestors_ok|].
    apply list_elem_of_split in Hin as (l1 & l2 & E).
    assert (excluded (il_patterns il) (l1 ++ [name]) true) as Hx.
    { left. exists name. by rewrite last_snoc. }
    unfold excluded_below. rewrite E. destruct l2 as [|x l2]; [by right|]. left.
    exists (S (length l1)). split; [rewrite length_app; cbn; lia|].
    rewrite cons_middle, app_assoc. by rewrite take_app_length' by (rewrite length_app; cbn; lia). }
  rewrite length_app. destruct Hb as [(n & Hn & Hx)|Hx].
  - exists n. split; [lia|]. by rewrite take_app_le by lia.
  - exists (length (path_segments base)). pose proof (excluded_ne _ _ _ Hx) as Hb.
    split; [|by rewrite take_app_length]. destruct (path_segments base); cbn; [done|lia].
Qed.

(** ** Witnesses *)

Definition ex_ignore_dir (name : bytes) : IgnoreFile :=
  if bytes_eqb name (b# ".gitignore") then
    {| ig_metadata := Some (Ok 12%N); ig_read_to_string := Ok (b# "build/" ++ [Byte.x0a] ++ b# "*.log") |}
  else if bytes_eqb name (b# ".mkitignore") then
    {| ig_metadata := Some (Ok 9%N); ig_read_to_string := Ok (b# "!keep.log") |}
  else {| ig_metadata := None; ig_read_to_string := Err (OtherError []) |}.

Definition ex_ignore_list : IgnoreList := {| il_patterns :=
  il_patterns (parse (b# "build/" ++ [Byte.x0a] ++ b# "*.log")) ++ il_patterns (parse (b# "!keep.log")) |}.

Lemma ignore_rules_witness :
  load ex_ignore_dir = Ok ex_ignore_list ∧
  (is_ignored ex_ignore_list (b# "src/keep.log") false = true ↔
   excluded (il_patterns ex_ignore_list) [b# "src"; b# "keep.log"] false) ∧
  is_ignored ex_ignore_list (b# "src/keep.log") false = false ∧
  is_ignored ex_ignore_list (b# "src/a.log") false = true.
Proof.
  split; [reflexivity|]. split; [|split; reflexivity].
  exact (proj1 (proj2 (ignore_rules ex_ignore_dir ex_ignore_list eq_refl) (b# "src/keep.log") false)).
Defined.

Lemma ignored_below_witness :
  is_ignored_with_ancestors ex_ignore_list (b# "build/keep.log") false = true.
Proof.
  apply (ignored_below ex_ignore_dir ex_ignore_list (b# "build") (b# "keep.log") false eq_refl);
    [done|]. left. reflexivity.
Defined.

(** A star, a class with a range, an escaped star and a question mark. *)
Lemma segment_match_spec_witness :
  let p := b# "*[a-c]\*?" in
  backslash_in_class p = false ∧ segment_match p (b# "xyb*z") = true ∧
  segment_match p (b# "xyd*z") = false ∧
  (segment_match p (b# "xyb*z") = true ↔ doc_globs (lex p) (b# "xyb*z")).
Proof.
  split; [reflexivity|]. split; [reflexivity|]. split; [reflexivity|].
  apply (segment_match_spec (b# "*[a-c]\*?") (b# "xyb*z")). reflexivity.
Defined.

(** In a class the backslash is a member and not an escape. *)
Example class_backslash :
  segment_match (b# "[\]]") (b# "]") = false ∧ segment_match (b# "[\]]") (b# "\]") = true.
Proof. split; reflexivity. Qed.
