(* ===== verification/Sign.v ===== *)
(** * Signatures

    Models the signing of [rust/crates/mkit-core/src/sign.rs]: the bytes that a signature
    covers, their digest under a domain, and the signing and verification of commits,
    remixes and tags. Ed25519 is the class [Ed25519], whose law [Ed25519Correct] says that
    what a seed signs verifies under its key. Key files, the generation of seeds, the
    scrubbing of memory and the optional batch verification are not modelled. *)

From S2P Require Import Prelude Hash Object Serialize.

(** ** Ed25519 *)

Class Ed25519 := {
  (** The key of a seed. *)
  ed_verifying_key : arr 32 → arr 32;
  ed_sign : arr 32 → bytes → arr 64;
  (** Whether [VerifyingKey::from_bytes] takes the bytes. *)
  ed_key_ok : arr 32 → bool;
  ed_verify_strict : arr 32 → bytes → arr 64 → bool
}.

Class Ed25519Correct `{Ed25519} : Prop := {
  ed_key_of_seed seed : ed_key_ok (ed_verifying_key seed) = true;
  ed_sign_verifies seed msg : ed_verify_strict (ed_verifying_key seed) msg (ed_sign seed msg) = true
}.

(** ** Domains *)

Definition COMMIT_DOMAIN : bytes := b# "mkit.commit" ++ [Byte.x00].
Definition REMIX_DOMAIN : bytes := b# "mkit.remix" ++ [Byte.x00].
Definition TAG_DOMAIN : bytes := b# "mkit.tag" ++ [Byte.x00].

(** ** Keys *)

Record PublicKey := { pk_bytes : arr 32 }.
Record SecretSeed := { seed_bytes : arr 32 }.
Record Signature := { sig_bytes : arr 64 }.

Record KeyPair := { kp_public : PublicKey; kp_secret : SecretSeed }.

(** ** The bytes that are signed *)

Definition write_identity (id : Identity) : result MkitError bytes :=
  _ ← ensure (Identity_is_valid id) InvalidIdentity;
  _ ← ensure (lenN (id_bytes id) <=? U16_MAX)%N IdentityTooLarge;
  Ok (IdentityKind.to_u8 (id_kind id) :: le_bytes 2 (lenN (id_bytes id)) ++ id_bytes id).

(** [u32::try_from(len).map_err(|_| e)]. *)
Definition try_u32 (len : N) (e : MkitError) : result MkitError N :=
  _ ← ensure (len <=? U32_MAX)%N e; Ok len.

Definition commit_signing_bytes (c : Commit) : result MkitError bytes :=
  parent_count ← try_u32 (lenN (c_parents c)) TooManyParents;
  author ← write_identity (c_author c);
  mlen ← try_u32 (lenN (c_message c)) UnexpectedEof;
  Ok (write_prologue ObjectType.Commit
      ++ arr_bytes (c_tree_hash c)
      ++ le_bytes 4 parent_count ++ concat (map arr_bytes (c_parents c))
      ++ author
      ++ le_bytes 4 mlen ++ c_message c
      ++ le_bytes 8 (c_timestamp c)
      ++ arr_bytes (c_signer c)).

Definition remix_signing_bytes (r : Remix) : result MkitError bytes :=
  parent_count ← try_u32 (lenN (r_parents r)) TooManyParents;
  source_count ← try_u32 (lenN (r_sources r)) TooManySources;
  author ← write_identity (r_author r);
  mlen ← try_u32 (lenN (r_message r)) UnexpectedEof;
  Ok (write_prologue ObjectType.Remix
      ++ arr_bytes (r_tree_hash r)
      ++ le_bytes 4 parent_count ++ concat (map arr_bytes (r_parents r))
      ++ le_bytes 4 source_count
      ++ concat (map (λ s, arr_bytes (rs_upstream_id s) ++ arr_bytes (rs_commit_hash s)) (r_sources r))
      ++ author
      ++ le_bytes 4 mlen ++ r_message r
      ++ le_bytes 8 (r_timestamp r)
      ++ arr_bytes (r_signer r)).

Definition tag_signing_bytes (t : Tag) : result MkitError bytes :=
  _ ← ensure (Tag_name_is_valid t) TagNameInvalid;
  _ ← ensure (negb (bool_decide (tag_target_type t = ObjectType.Delta)))
        (TagTargetTypeInvalid (ObjectType.to_u8 (tag_target_type t)));
  nlen ← try_u32 (lenN (tag_name t)) TagNameInvalid;
  tagger ← write_identity (tag_tagger t);
  mlen ← try_u32 (lenN (tag_message t)) UnexpectedEof;
  Ok (write_prologue ObjectType.Tag
      ++ arr_bytes (tag_target t)
      ++ [ObjectType.to_u8 (tag_target_type t)]
      ++ le_bytes 4 nlen ++ tag_name t
      ++ tagger
      ++ le_bytes 4 mlen ++ tag_message t
      ++ le_bytes 8 (tag_timestamp t)
      ++ arr_bytes (tag_signer t)).

Section signing.
Context `{B : Blake3, E : Ed25519}.

Definition commit_signing_hash (c : Commit) : result MkitError hash32 :=
  sb ← commit_signing_bytes c; Ok (domain_digest COMMIT_DOMAIN sb).

Definition remix_signing_hash (r : Remix) : result MkitError hash32 :=
  sb ← remix_signing_bytes r; Ok (domain_digest REMIX_DOMAIN sb).

Definition tag_signing_hash (t : Tag) : result MkitError hash32 :=
  sb ← tag_signing_bytes t; Ok (domain_digest TAG_DOMAIN sb).

(** ** Signing and verifying *)

Definition from_seed (seed : arr 32) : KeyPair :=
  {| kp_public := {| pk_bytes := ed_verifying_key seed |}; kp_secret := {| seed_bytes := seed |} |}.

Definition sign (kp : KeyPair) (domain signing_bytes : bytes) : Signature :=
  {| sig_bytes := ed_sign (seed_bytes (kp_secret kp)) (arr_bytes (domain_digest domain signing_bytes)) |}.

Definition verify (public : PublicKey) (domain signing_bytes : bytes) (sig : Signature)
    : result MkitError unit :=
  _ ← ensure (ed_key_ok (pk_bytes public)) InvalidPublicKey;
  ensure (ed_verify_strict (pk_bytes public) (arr_bytes (domain_digest domain signing_bytes)) (sig_bytes sig))
    SignatureInvalid.

Definition sign_commit (c : Commit) (kp : KeyPair) : result MkitError Signature :=
  sb ← commit_signing_bytes c; Ok (sign kp COMMIT_DOMAIN sb).

Definition sign_remix (r : Remix) (kp : KeyPair) : result MkitError Signature :=
  sb ← remix_signing_bytes r; Ok (sign kp REMIX_DOMAIN sb).

Definition sign_tag (t : Tag) (kp : KeyPair) : result MkitError Signature :=
  sb ← tag_signing_bytes t; Ok (sign kp TAG_DOMAIN sb).

Definition verify_commit (c : Commit) : result MkitError unit :=
  sb ← commit_signing_bytes c;
  verify {| pk_bytes := c_signer c |} COMMIT_DOMAIN sb {| sig_bytes := c_signature c |}.

Definition verify_remix (r : Remix) : result MkitError unit :=
  sb ← remix_signing_bytes r;
  verify {| pk_bytes := r_signer r |} REMIX_DOMAIN sb {| sig_bytes := r_signature r |}.

Definition verify_tag (t : Tag) : result MkitError unit :=
  sb ← tag_signing_bytes t;
  verify {| pk_bytes := tag_signer t |} TAG_DOMAIN sb {| sig_bytes := tag_signature t |}.

Definition verify_object_signature (obj : Object) : result MkitError unit :=
  match obj with
  | OCommit c => verify_commit c
  | ORemix r => verify_remix r
  | OTag t => verify_tag t
  | OBlob _ | OTree _ | OChunkedBlob _ | ODelta _ => Ok tt
  end.
End signing.
