(* ===== verification/SignFacts.v ===== *)
(** * A signature covers the encoding up to its tail

    The signed bytes of a well-formed object are its encoding without the fields that a
    signature leaves out, so they determine all other fields and the kind; with the
    domains apart, a digest that is signed commits to the signed object. *)

From S2P Require Import Prelude Hash Object Serialize SerializeFacts MerkleFacts ObjectId Sign.

(** ** The objects that are signed *)

Inductive Signed :=
  | SCommit (c : Commit)
  | SRemix (r : Remix)
  | STag (t : Tag).

Definition object_of (s : Signed) : Object :=
  match s with SCommit c => OCommit c | SRemix r => ORemix r | STag t => OTag t end.

Definition domain_of (s : Signed) : bytes :=
  match s with SCommit _ => COMMIT_DOMAIN | SRemix _ => REMIX_DOMAIN | STag _ => TAG_DOMAIN end.

Definition signing_bytes (s : Signed) : result MkitError bytes :=
  match s with
  | SCommit c => commit_signing_bytes c
  | SRemix r => remix_signing_bytes r
  | STag t => tag_signing_bytes t
  end.

(** The fields that a signature does not cover, as they are encoded. *)
Definition tail (s : Signed) : bytes :=
  match s with
  | SCommit c => arr_bytes (c_message_hash c) ++ arr_bytes (c_content_digest c) ++ arr_bytes (c_signature c)
  | SRemix r => arr_bytes (r_signature r)
  | STag t => arr_bytes (tag_signature t)
  end.

(** The object with these fields cleared. *)
Definition covered (s : Signed) : Signed :=
  match s with
  | SCommit c => SCommit {|
      c_tree_hash := c_tree_hash c; c_parents := c_parents c; c_author := c_author c;
      c_signer := c_signer c; c_message := c_message c; c_timestamp := c_timestamp c;
      c_message_hash := arr_zero 32; c_content_digest := arr_zero 32; c_signature := arr_zero 64 |}
  | SRemix r => SRemix {|
      r_tree_hash := r_tree_hash r; r_parents := r_parents r; r_sources := r_sources r;
      r_author := r_author r; r_signer := r_signer r; r_message := r_message r;
      r_timestamp := r_timestamp r; r_signature := arr_zero 64 |}
  | STag t => STag {|
      tag_target := tag_target t; tag_target_type := tag_target_type t; tag_name := tag_name t;
      tag_tagger := tag_tagger t; tag_signer := tag_signer t; tag_message := tag_message t;
      tag_timestamp := tag_timestamp t; tag_signature := arr_zero 64 |}
  end.

Lemma write_identity_same i w : Sign.write_identity i = Ok w ↔ Serialize.write_identity i = Ok w.
Proof.
  unfold Sign.write_identity, Serialize.write_identity, write_u16_le.
  destruct (Identity_is_valid i); [|done]. by destruct (_ <=? _)%N.
Qed.

Lemma try_u32_Ok len e n : try_u32 len e = Ok n ↔ n = len ∧ (len <= U32_MAX)%N.
Proof.
  unfold try_u32. destruct (N.leb_spec len U32_MAX); split; [by intros [= <-]|by intros [-> _]|done|lia].
Qed.

(** ** The signed bytes are a prefix of the encoding *)

Lemma signing_bytes_prefix s b :
  signing_bytes s = Ok b → ∃ k, b = write_prologue (object_type (object_of s)) ++ k.
Proof.
  destruct s as [c|r|t]; cbn [signing_bytes object_of object_type];
    unfold commit_signing_bytes, remix_signing_bytes, tag_signing_bytes; intros H; inv_ok; subst; eauto.
Qed.

(** What well-formedness gives for the fields that every signed object has. *)
Lemma signed_fields i (message : bytes) :
  Identity_is_valid i = true → u32_bounded (lenN message) = true →
  Sign.write_identity i = Serialize.write_identity i ∧
  ∀ e, try_u32 (lenN message) e = Ok (lenN message).
Proof.
  intros Hi Hm. split.
  - pose proof (write_identity_valid i Hi) as Hw. rewrite Hw. by apply write_identity_same.
  - intros e. apply try_u32_Ok. split; [done|]. by apply N.leb_le.
Qed.

Lemma u32_of_le n m e : (n <=? m)%N = true → (m <= U32_MAX)%N → try_u32 n e = Ok n.
Proof. intros Hn%N.leb_le Hm. apply try_u32_Ok. split; [done|]. lia. Qed.

Lemma write_lp_Ok field (l w : bytes) :
  u32_bounded (lenN l) = true → write_lp_bytes field l = Ok w → w = le_bytes 4 (lenN l) ++ l.
Proof. intros Hl. rewrite write_lp_bytes_bounded by done. by intros [= <-]. Qed.

Lemma signing_bytes_serialize s :
  wf (object_of s) = true →
  ∃ b, signing_bytes s = Ok b ∧ serialize (object_of s) = Ok (b ++ tail s).
Proof.
  intros Hw. destruct (body_parse _ Hw) as (l & E & _). unfold serialize. rewrite E. cbn [mbind result_bind].
  destruct s as [c|r|t]; cbn [object_of object_type write_body signing_bytes tail wf] in *.
  - unfold wf_commit in Hw. rewrite !andb_true_iff in Hw. destruct Hw as [[[Hp Hi] Hm] _].
    destruct (signed_fields _ _ Hi Hm) as [Hid Hlen]. unfold write_commit in E. inv_ok. subst l.
    rename select (checked_u32 _ _ = _) into Hn. apply checked_u32_Ok in Hn as [_ ->].
    rename select (write_lp_bytes _ _ = _) into Hl. apply (write_lp_Ok _ _ _ Hm) in Hl as ->.
    rename select (Serialize.write_identity _ = _) into Ha.
    unfold commit_signing_bytes. rewrite (u32_of_le _ _ _ Hp), Hid, Ha, Hlen by (cbv; discriminate).
    cbn [mbind result_bind]. eexists. split; [reflexivity|]. by rewrite <- !app_assoc.
  - unfold wf_remix in Hw. rewrite !andb_true_iff in Hw. destruct Hw as [[[[[Hp Hs] _] Hi] Hm] _].
    destruct (signed_fields _ _ Hi Hm) as [Hid Hlen]. unfold write_remix in E. inv_ok. subst l.
    rename select (checked_u32 "remix.parents" _ = _) into Hn. apply checked_u32_Ok in Hn as [_ ->].
    rename select (checked_u32 _ _ = _) into Hn. apply checked_u32_Ok in Hn as [_ ->].
    rename select (write_lp_bytes _ _ = _) into Hl. apply (write_lp_Ok _ _ _ Hm) in Hl as ->.
    rename select (Serialize.write_identity _ = _) into Ha.
    unfold remix_signing_bytes. rewrite (u32_of_le _ _ _ Hp), (u32_of_le _ _ _ Hs), Hid, Ha, Hlen by (cbv; discriminate).
    cbn [mbind result_bind]. eexists. split; [reflexivity|]. by rewrite <- !app_assoc.
  - unfold wf_tag in Hw. rewrite !andb_true_iff in Hw. destruct Hw as [[[[Hn Ht] Hi] Hm] _].
    destruct (signed_fields _ _ Hi Hm) as [Hid Hlen]. unfold write_tag in E. inv_ok. subst l.
    pose proof (tag_name_u32 _ (proj1 (proj1 (Tag_name_is_valid_iff t) Hn))) as Hnl.
    rename select (write_lp_bytes "tag.name" _ = _) into Hl. apply (write_lp_Ok _ _ _ Hnl) in Hl as ->.
    rename select (write_lp_bytes _ _ = _) into Hl. apply (write_lp_Ok _ _ _ Hm) in Hl as ->.
    rename select (Serialize.write_identity _ = _) into Ha.
    unfold tag_signing_bytes. rewrite Hn, Ht. cbn [ensure mbind result_bind].
    rewrite (proj2 (try_u32_Ok _ _ _) (conj eq_refl (proj1 (N.leb_le _ _) Hnl))), Hid, Ha, Hlen.
    cbn [mbind result_bind]. eexists. split; [reflexivity|].
    rewrite <- !app_assoc. done.
Qed.

Lemma covered_same s :
  signing_bytes (covered s) = signing_bytes s ∧ wf (object_of (covered s)) = wf (object_of s) ∧
  domain_of (covered s) = domain_of s.
Proof. by destruct s. Qed.

(** The signed bytes determine the object up to the fields that are left out. *)
Lemma signing_bytes_inj s1 s2 b :
  wf (object_of s1) = true → wf (object_of s2) = true →
  signing_bytes s1 = Ok b → signing_bytes s2 = Ok b → covered s1 = covered s2.
Proof.
  intros Hw1 Hw2 H1 H2.
  destruct (covered_same s1) as (E1 & W1 & _), (covered_same s2) as (E2 & W2 & _).
  rewrite <- E1 in H1. rewrite <- E2 in H2. rewrite <- W1 in Hw1. rewrite <- W2 in Hw2.
  assert (object_type (object_of (covered s1)) = object_type (object_of (covered s2))) as Ht.
  { destruct (signing_bytes_prefix _ _ H1) as [k1 E]. destruct (signing_bytes_prefix _ _ H2) as [k2 E'].
    rewrite E in E'. injection E' as Hu _. by apply (f_equal ObjectType.from_u8) in Hu;
      rewrite !ObjectType.object_type_from_to_u8 in Hu; injection Hu. }
  destruct (signing_bytes_serialize _ Hw1) as (b1 & Hb1 & Hs1).
  destruct (signing_bytes_serialize _ Hw2) as (b2 & Hb2 & Hs2).
  assert (b1 = b) as -> by congruence. assert (b2 = b) as -> by congruence.
  assert (tail (covered s1) = tail (covered s2)) as Htail by (by destruct s1, s2).
  rewrite Htail in Hs1.
  pose proof (serialize_deserialize _ _ Hw1 Hs1) as D1. pose proof (serialize_deserialize _ _ Hw2 Hs2) as D2.
  rewrite D1 in D2. destruct s1, s2; cbn in D2 |- *; congruence.
Qed.

(** ** Digests *)

Section signing.
Context `{B : Blake3, BI : !Blake3Incremental}.

Definition signing_hash (s : Signed) : result MkitError hash32 :=
  match s with
  | SCommit c => commit_signing_hash c
  | SRemix r => remix_signing_hash r
  | STag t => tag_signing_hash t
  end.

Lemma signing_hash_Ok s h :
  signing_hash s = Ok h ↔ ∃ b, signing_bytes s = Ok b ∧ h = domain_digest (domain_of s) b.
Proof.
  destruct s; cbn; unfold commit_signing_hash, remix_signing_hash, tag_signing_hash;
    rewrite bind_Ok; naive_solver.
Qed.

Lemma domain_short s : (lenN (domain_of s) <= U16_MAX)%N.
Proof. by destruct s. Qed.

(** C30: A digest that is signed commits to what a signature covers: two well-formed
    objects, each a commit, a remix or a tag, whose signing digests are equal are of one
    kind and agree on every field but the signature and, of commits, the two hashes that
    signatures leave out; or the digests are of two different inputs. *)
Theorem signing_hash_commits (s1 s2 : Signed) (h : hash32) :
  wf (object_of s1) = true → wf (object_of s2) = true →
  signing_hash s1 = Ok h → signing_hash s2 = Ok h →
  covered s1 = covered s2 ∨
  ∃ b1 b2, signing_bytes s1 = Ok b1 ∧ signing_bytes s2 = Ok b2 ∧
    collides [domain_preimage (domain_of s1) b1] [domain_preimage (domain_of s2) b2].
Proof.
  intros Hw1 Hw2 (b1 & Hb1 & ->)%signing_hash_Ok (b2 & Hb2 & E)%signing_hash_Ok.
  rewrite !domain_digest_preimage in E.
  destruct (same_digest [domain_preimage (domain_of s1) b1] [domain_preimage (domain_of s2) b2] _ _
    (list_elem_of_here _ _) (list_elem_of_here _ _) E) as [Ep|Hc].
  - left. apply domain_preimage_inj in Ep as [_ ->]; [|apply domain_short..]. by eapply signing_bytes_inj.
  - right. by exists b1, b2.
Qed.
End signing.

(** ** Signing and verifying *)

Section verifying.
Context `{B : Blake3, E : Ed25519}.

Definition sign_object (s : Signed) (kp : KeyPair) : result MkitError Signature :=
  match s with
  | SCommit c => sign_commit c kp
  | SRemix r => sign_remix r kp
  | STag t => sign_tag t kp
  end.

Definition signer_of (s : Signed) : arr 32 :=
  match s with SCommit c => c_signer c | SRemix r => r_signer r | STag t => tag_signer t end.

Definition signature_of (s : Signed) : Signature :=
  {| sig_bytes := match s with SCommit c => c_signature c | SRemix r => r_signature r
                  | STag t => tag_signature t end |}.

Lemma sign_object_eq s kp :
  sign_object s kp = b ← signing_bytes s; Ok (sign kp (domain_of s) b).
Proof. by destruct s. Qed.

Lemma verify_object_eq s :
  verify_object_signature (object_of s) =
  b ← signing_bytes s; verify {| pk_bytes := signer_of s |} (domain_of s) b (signature_of s).
Proof. by destruct s. Qed.

Lemma covered_signer s s' :
  covered s = covered s' →
  signing_bytes s = signing_bytes s' ∧ signer_of s = signer_of s' ∧ domain_of s = domain_of s'.
Proof.
  intros H. destruct (covered_same s) as (<- & _ & <-), (covered_same s') as (<- & _ & <-).
  rewrite H. split; [done|]. split; [|done]. destruct s, s'; cbn in *; congruence.
Qed.

(** C31: What a key pair signs verifies: signing a well-formed object gives a signature,
    and every object that agrees with it on the fields that are covered, names the key of
    the pair as its signer and carries that signature passes [verify_object_signature]; and
    verification accepts exactly the signatures of the signed digest that Ed25519 accepts
    under the embedded key, so it depends on nothing else. *)
Theorem sign_verify `{EC : !Ed25519Correct} (s : Signed) (seed : arr 32) :
  wf (object_of s) = true → signer_of s = pk_bytes (kp_public (from_seed seed)) →
  ∃ b, signing_bytes s = Ok b ∧
    sign_object s (from_seed seed) = Ok (sign (from_seed seed) (domain_of s) b) ∧
    ∀ s', covered s' = covered s →
      (signature_of s' = sign (from_seed seed) (domain_of s) b →
       verify_object_signature (object_of s') = Ok tt) ∧
      (verify_object_signature (object_of s') = Ok tt ↔
       ed_verify_strict (signer_of s) (arr_bytes (domain_digest (domain_of s) b))
         (sig_bytes (signature_of s')) = true).
Proof.
  intros Hw Hs. destruct (signing_bytes_serialize s Hw) as (b & Hb & _). exists b. split; [done|].
  split; [by rewrite sign_object_eq, Hb|]. intros s' Hc.
  destruct (covered_signer s' s Hc) as (Eb & Esig & Ed).
  assert (verify_object_signature (object_of s') = Ok tt ↔
    ed_verify_strict (signer_of s) (arr_bytes (domain_digest (domain_of s) b))
      (sig_bytes (signature_of s')) = true) as Hiff.
  { rewrite verify_object_eq, Eb, Hb. cbn [mbind result_bind]. unfold verify. cbn [pk_bytes].
    rewrite Esig, Ed, Hs. cbn. rewrite ed_key_of_seed. cbn. unfold ensure. by case_match. }
  split; [|done]. intros Hsig. apply Hiff. rewrite Hsig, Hs. cbn. apply ed_sign_verifies.
Qed.
End verifying.

(** ** Witnesses *)

Import Toy.

(** A toy scheme: the key is the seed, and a signature is the key and the message. *)
#[local] Instance toy_ed25519 : Ed25519 := {|
  ed_verifying_key seed := seed;
  ed_sign seed msg := arr_of 64 (arr_bytes seed ++ take 32 (msg ++ arr_bytes (arr_zero 32)));
  ed_key_ok _ := true;
  ed_verify_strict key msg sig :=
    bool_decide (sig = arr_of 64 (arr_bytes key ++ take 32 (msg ++ arr_bytes (arr_zero 32))))
|}.

#[local] Instance toy_ed25519_correct : Ed25519Correct.
Proof. split; [done|]. intros seed msg. by apply bool_decide_eq_true. Defined.

Definition ex_author : Identity := {| id_kind := IdentityKind.Ed25519; id_bytes := arr_bytes (arr_zero 32) |}.

Definition ex_commit (message_hash : hash32) (sig : arr 64) : Signed := SCommit {|
  c_tree_hash := ZERO; c_parents := [ZERO]; c_author := ex_author; c_signer := arr_zero 32;
  c_message := b# "first"; c_timestamp := 7; c_message_hash := message_hash; c_content_digest := ZERO;
  c_signature := sig |}.

Lemma sign_verify_witness :
  ∃ b, signing_bytes (ex_commit ZERO (arr_zero 64)) = Ok b ∧
    verify_object_signature (object_of (ex_commit (hash (b# "first"))
      (sig_bytes (sign (from_seed (arr_zero 32)) COMMIT_DOMAIN b)))) = Ok tt.
Proof.
  destruct (sign_verify (ex_commit ZERO (arr_zero 64)) (arr_zero 32)) as (b & Hb & _ & H).
  - vm_compute. reflexivity.
  - reflexivity.
  - exists b. split; [exact Hb|].
    exact (proj1 (H (ex_commit (hash (b# "first")) (sig_bytes (sign (from_seed (arr_zero 32)) COMMIT_DOMAIN b)))
      eq_refl) eq_refl).
Defined.

Lemma signing_hash_commits_witness :
  covered (ex_commit ZERO (arr_zero 64)) = covered (ex_commit (hash (b# "first")) (arr_zero 64)) ∨
  ∃ b1 b2, signing_bytes (ex_commit ZERO (arr_zero 64)) = Ok b1 ∧
    signing_bytes (ex_commit (hash (b# "first")) (arr_zero 64)) = Ok b2 ∧
    collides [domain_preimage COMMIT_DOMAIN b1] [domain_preimage COMMIT_DOMAIN b2].
Proof.
  apply (signing_hash_commits (ex_commit ZERO (arr_zero 64)) (ex_commit (hash (b# "first")) (arr_zero 64))
    (default ZERO (to_option (signing_hash (ex_commit ZERO (arr_zero 64)))))); vm_compute; reflexivity.
Defined.
