(* ===== verification/Wire.v ===== *)
(** * The wire form of proofs

    The [commonware-codec] library reads and writes integers, arrays, vectors and options;
    it is the class [WireCodec], with its round trips and ranges as the class [WireLaws]. Over
    it, the reader and the writer of [Proof] in [rust/crates/mkit-core/src/merkle.rs].
    Every codec failure has one meaning for the callers, so a reader gives an option. *)

From S2P Require Import Prelude Hash Merkle.

Abbreviation reader A := (bytes → option (A * bytes)).

(** ** [commonware_codec]: [Read] and [Write] *)

Class WireCodec := {
  read_u8 : reader byte;
  read_u32 : reader N;
  read_u64 : reader N;
  read_hash : reader hash32;
  (** [Vec::<u8>::read_range(r, lo..=hi)]. *)
  read_bytes (lo hi : N) : reader bytes;
  (** [Vec::<T>::read_range(r, lo..=hi)] from the reader of [T]. *)
  read_vec {A} (rd : reader A) (lo hi : N) : reader (list A);
  read_option {A} (rd : reader A) : reader (option A);
  write_u8 : byte → bytes;
  write_u32 : N → bytes;
  write_u64 : N → bytes;
  write_hash : hash32 → bytes;
  write_bytes : bytes → bytes;
  write_vec {A} (wr : A → bytes) : list A → bytes;
  write_option {A} (wr : A → bytes) : option A → bytes
}.

(** What is written is read back, and reading stops where it ends. *)
Definition reads {A} (rd : reader A) (w : bytes) (a : A) : Prop := ∀ k, rd (w ++ k) = Some (a, k).

(** What is read has a property. *)
Definition gives {A} (rd : reader A) (P : A → Prop) : Prop := ∀ r a k, rd r = Some (a, k) → P a.

(** A length that the codec writes: a varint of 32 bits. *)
Definition len_within {A} (lo hi : N) (l : list A) : Prop :=
  (lo <= lenN l <= hi)%N ∧ (lenN l <= U32_MAX)%N.

Class WireLaws `{WireCodec} : Prop := {
  reads_u8 b : reads read_u8 (write_u8 b) b;
  reads_u32 n : (n <= U32_MAX)%N → reads read_u32 (write_u32 n) n;
  reads_u64 n : (n <= U64_MAX)%N → reads read_u64 (write_u64 n) n;
  reads_hash h : reads read_hash (write_hash h) h;
  reads_bytes lo hi l : len_within lo hi l → reads (read_bytes lo hi) (write_bytes l) l;
  reads_vec {A} (rd : reader A) wr lo hi l :
    len_within lo hi l → (∀ a, a ∈ l → reads rd (wr a) a) →
    reads (read_vec rd lo hi) (write_vec wr l) l;
  reads_option {A} (rd : reader A) wr o :
    (∀ a, o = Some a → reads rd (wr a) a) → reads (read_option rd) (write_option wr o) o;
  (** A byte is written as it is, and so are the bytes of a vector. *)
  write_u8_raw b : write_u8 b = [b];
  size_bytes l : (lenN l <= lenN (write_bytes l))%N;
  gives_u32 : gives read_u32 (λ n, (n <= U32_MAX)%N);
  gives_u64 : gives read_u64 (λ n, (n <= U64_MAX)%N);
  gives_bytes lo hi : gives (read_bytes lo hi) (len_within lo hi);
  gives_vec {A} (rd : reader A) P lo hi :
    gives rd P → gives (read_vec rd lo hi) (λ l, len_within lo hi l ∧ Forall P l);
  gives_option {A} (rd : reader A) P : gives rd P → gives (read_option rd) (λ o, ∀ a, o = Some a → P a)
}.

(** Run the readers of a record over what its writer wrote. *)
Ltac read_back :=
  cbn [mbind option_bind];
  rewrite <- ?app_assoc;
  repeat (first
    [ rewrite reads_u8 | rewrite reads_u32 by assumption | rewrite reads_u64 by assumption
    | rewrite reads_hash | rewrite reads_bytes by assumption ];
    cbn [mbind option_bind]).

(** Take apart a successful read, keeping what each reader says of its value. *)
Ltac inv_read :=
  repeat match goal with
  | H : _ ≫= _ = Some _ |- _ => apply bind_Some in H as ([? ?] & ? & H)
  | H : Some _ = Some _ |- _ => injection H; clear H; intros; subst
  end.

(** ** [Proof] *)

(** [u32::BITS as usize]. *)
Definition MAX_LEVELS : N := 32.

Section proof.
Context `{C : WireCodec}.

Definition Proof_write (p : Proof_) : bytes :=
  write_u32 (N.of_nat (leaf_count p)) ++ write_vec write_hash (siblings p).

Definition Proof_read_cfg (max_items : N) : reader Proof_ := λ r,
  '(leaf_count, r) ← read_u32 r;
  let max_siblings := saturating_mul max_items MAX_LEVELS in
  '(siblings, r) ← read_vec read_hash 0 max_siblings r;
  Some ({| Merkle.leaf_count := N.to_nat leaf_count; Merkle.siblings := siblings |}, r).

Definition Proof_encode (p : Proof_) : bytes := Proof_write p.

Definition Proof_decode (bs : bytes) (max_items : N) : result MerkleError Proof_ :=
  '(p, rest) ← ok_or (Proof_read_cfg max_items bs) MalformedProof;
  _ ← ensure (bool_decide (rest = [])) MalformedProof;
  mret p.

(** A proof as the reader gives one for [max_items] items. *)
Definition proof_ok (max_items : N) (p : Proof_) : Prop :=
  (N.of_nat (leaf_count p) <= U32_MAX)%N ∧
  len_within 0 (saturating_mul max_items MAX_LEVELS) (siblings p).

Context `{L : !WireLaws}.

Lemma reads_proof max_items p :
  proof_ok max_items p → reads (Proof_read_cfg max_items) (Proof_write p) p.
Proof.
  intros [Hc Hs] k. unfold Proof_read_cfg, Proof_write. read_back.
  rewrite (reads_vec read_hash write_hash) by (done || intros; apply reads_hash).
  cbn [mbind option_bind]. rewrite Nat2N.id. by destruct p.
Qed.

Lemma gives_proof max_items : gives (Proof_read_cfg max_items) (proof_ok max_items).
Proof.
  intros r p k H. unfold Proof_read_cfg in H. inv_read.
  rename select (read_u32 _ = _) into Hu. apply gives_u32 in Hu.
  rename select (read_vec _ _ _ _ = _) into Hv.
  apply (gives_vec read_hash (λ _, True)) in Hv as [Hv _]; [|done].
  split; cbn; [by rewrite N2Nat.id|done].
Qed.
End proof.

(** ** A codec *)

Module ToyCodec.
Definition take_n (n : nat) : reader bytes := λ r,
  if (n <=? length r)%nat then Some (take n r, drop n r) else None.

Definition read_n (n : nat) : reader N := λ r, '(w, r) ← take_n n r; Some (le_val w, r).

Definition read_len (lo hi : N) : reader N := λ r,
  '(n, r) ← read_n 4 r; if (lo <=? n)%N && (n <=? hi)%N then Some (n, r) else None.

Fixpoint read_items {A} (rd : reader A) (n : nat) : reader (list A) := λ r,
  match n with
  | O => Some ([], r)
  | S n => '(a, r) ← rd r; '(l, r) ← read_items rd n r; Some (a :: l, r)
  end.

Lemma take_n_app n w k : length w = n → take_n n (w ++ k) = Some (w, k).
Proof.
  intros <-. unfold take_n. rewrite length_app, take_app_length, drop_app_length.
  destruct (Nat.leb_spec (length w) (length w + length k)); [done|lia].
Qed.

Lemma take_n_len n r w k : take_n n r = Some (w, k) → length w = n.
Proof.
  unfold take_n. destruct (Nat.leb_spec n (length r)); [|done]. intros [= <- _].
  rewrite length_take. lia.
Qed.

Lemma reads_n n v : (v < 256 ^ N.of_nat n)%N → reads (read_n n) (le_bytes n v) v.
Proof.
  intros Hv k. unfold read_n. rewrite take_n_app by apply length_le_bytes.
  cbn [mbind option_bind]. by rewrite le_val_le_bytes.
Qed.

Lemma gives_n n : gives (read_n n) (λ v, (v < 256 ^ N.of_nat n)%N).
Proof.
  intros r v k H. unfold read_n in H. inv_read. rename select (take_n _ _ = _) into Ht.
  apply take_n_len in Ht. rewrite <- Ht. apply le_val_bound.
Qed.

Lemma read_len_Some lo hi r n k :
  read_len lo hi r = Some (n, k) ↔ read_n 4 r = Some (n, k) ∧ (lo <= n <= hi)%N.
Proof.
  unfold read_len. destruct (read_n 4 r) as [[m j]|]; cbn [mbind option_bind]; [|naive_solver].
  destruct ((lo <=? m)%N && (m <=? hi)%N) eqn:E; reflect.
  - split; [by intros [= <- <-]|]. by intros [[= <- <-] _].
  - split; [done|]. intros [[= <- <-] ?]. lia.
Qed.

Lemma reads_len lo hi n :
  (lo <= n <= hi)%N → (n <= U32_MAX)%N → reads (read_len lo hi) (le_bytes 4 n) n.
Proof.
  intros Hn Hu k. apply read_len_Some. split; [|done]. apply reads_n. unfold U32_MAX in Hu. cbn. lia.
Qed.

Lemma gives_len lo hi r n k : read_len lo hi r = Some (n, k) → (lo <= n <= hi)%N ∧ (n <= U32_MAX)%N.
Proof.
  intros [H Hn]%read_len_Some. split; [done|]. apply gives_n in H. unfold U32_MAX. cbn in H. lia.
Qed.

Lemma reads_items {A} (rd : reader A) wr l :
  (∀ a, a ∈ l → reads rd (wr a) a) → reads (read_items rd (length l)) (concat (map wr l)) l.
Proof.
  induction l as [|a l IH]; intros Ha k; [done|]. cbn. rewrite <- app_assoc, Ha by by left.
  cbn. by rewrite IH by (intros; apply Ha; by right).
Qed.

Lemma gives_items {A} (rd : reader A) P n :
  gives rd P → gives (read_items rd n) (λ l, length l = n ∧ Forall P l).
Proof.
  intros Hrd. induction n as [|n IH]; intros r l k H; cbn in H; inv_read; [done|].
  rename select (rd _ = _) into Ha. apply Hrd in Ha.
  rename select (read_items _ _ _ = _) into Hl. apply IH in Hl as [<- Hl].
  split; [done|]. by constructor.
Qed.

#[export] Instance toy_codec : WireCodec := {|
  read_u8 r := match r with b :: r => Some (b, r) | [] => None end;
  read_u32 := read_n 4;
  read_u64 := read_n 8;
  read_hash r := '(w, r) ← take_n 32 r; Some (arr_of 32 w, r);
  read_bytes lo hi r := '(n, r) ← read_len lo hi r; take_n (N.to_nat n) r;
  read_vec A rd lo hi r := '(n, r) ← read_len lo hi r; read_items rd (N.to_nat n) r;
  read_option A rd r :=
    match r with
    | Byte.x00 :: r => Some (None, r)
    | Byte.x01 :: r => '(a, r) ← rd r; Some (Some a, r)
    | _ => None
    end;
  write_u8 b := [b];
  write_u32 := le_bytes 4;
  write_u64 := le_bytes 8;
  write_hash h := arr_bytes h;
  write_bytes l := le_bytes 4 (lenN l) ++ l;
  write_vec A wr l := le_bytes 4 (lenN l) ++ concat (map wr l);
  write_option A wr o := match o with None => [Byte.x00] | Some a => Byte.x01 :: wr a end
|}.

#[export] Instance toy_codec_laws : WireLaws.
Proof.
  split; cbn.
  - done.
  - intros n Hn. apply reads_n. unfold U32_MAX in Hn. cbn. lia.
  - intros n Hn. apply reads_n. unfold U64_MAX in Hn. cbn. lia.
  - intros h k. rewrite take_n_app by apply arr_length. cbn. by rewrite arr_of_bytes.
  - intros lo hi l [Hl Hu] k. rewrite <- app_assoc, reads_len by done. cbn.
    unfold lenN. rewrite Nat2N.id. by apply take_n_app.
  - intros A rd wr lo hi l [Hl Hu] Ha k. rewrite <- app_assoc, reads_len by done. cbn.
    unfold lenN. rewrite Nat2N.id. by apply reads_items.
  - intros A rd wr [a|] Ha k; [|done]. cbn. by rewrite Ha.
  - done.
  - intros l. rewrite lenN_app. lia.
  - intros r n k H%gives_n. unfold U32_MAX. cbn in H. lia.
  - intros r n k H%gives_n. unfold U64_MAX. cbn in H. lia.
  - intros lo hi r l k H. inv_read. rename select (read_len _ _ _ = _) into Hn.
    apply gives_len in Hn. apply take_n_len in H. unfold len_within, lenN. rewrite H. by rewrite N2Nat.id.
  - intros A rd P lo hi Hrd r l k H. inv_read. rename select (read_len _ _ _ = _) into Hn.
    apply gives_len in Hn. apply (gives_items _ _ _ Hrd) in H as [H HP]. split; [|done].
    unfold len_within, lenN. rewrite H. by rewrite N2Nat.id.
  - intros A rd P Hrd [|b r] o k H a ->; [done|].
    destruct b; try done. inv_read. eauto.
Qed.
End ToyCodec.
