(* ===== verification/Messages.v ===== *)
(** * Error messages

    The [Display] of the errors of [rust/crates/mkit-core/src/object.rs] and
    [rust/crates/mkit-core/src/delta.rs], as far as reports carry them as text. *)

From S2P Require Import Prelude Hash Object.

(** The digits of a number in a base below 17, lowest last. *)
Fixpoint digits_fuel (fuel : nat) (base n : N) : bytes :=
  match fuel with
  | 0 => []
  | S fuel =>
      if (n <? base)%N then [hex_digit n] else digits_fuel fuel base (n / base) ++ [hex_digit (n mod base)]
  end.

Definition digits (base n : N) : bytes := digits_fuel (S (N.to_nat (N.size n))) base n.

(** [{}], [{:#o}] and, for a byte, [{:#04x}]. *)
Definition dec : N → bytes := digits 10.
Definition oct (n : N) : bytes := b# "0o" ++ digits 8 n.
Definition hex_byte (b : byte) : bytes := b# "0x" ++ to_hex_bytes [b].

Definition DeltaCorruption_to_string (c : DeltaCorruption) : bytes :=
  match c with
  | BaseLenMismatch declared actual =>
      b# "declared base_len " ++ dec declared ++ b# " does not match the actual base length " ++ dec actual
  | ReservedOpcodeBits op => b# "COPY opcode " ++ hex_byte op ++ b# " has reserved low bits set"
  | ZeroOpcode => b# "opcode 0x00 is reserved and must not appear in the instruction stream"
  | ZeroLengthCopy => b# "COPY opcode declared a zero-length copy"
  | CopyPastBase offset length base_len =>
      b# "COPY offset " ++ dec offset ++ b# " + length " ++ dec length
      ++ b# " exceeds base_len " ++ dec base_len ++ b# " (or overflowed)"
  | ResultLenOverrun emitted requested result_len =>
      b# "emitting " ++ dec requested ++ b# " more byte(s) after " ++ dec emitted
      ++ b# " would exceed the declared result_len " ++ dec result_len
  | ResultLenUnderrun expected actual =>
      b# "stream ended after emitting " ++ dec actual
      ++ b# " byte(s), declared result_len is " ++ dec expected
  end.

(** A character that a string literal of the model cannot hold. *)
Definition quote : bytes := [Byte.x22].
Definition backslash : bytes := [Byte.x5c].
Definition em_dash : bytes := [Byte.xe2; Byte.x80; Byte.x94].

Definition MkitError_to_string (e : MkitError) : bytes :=
  match e with
  | EmptyData => b# "input is shorter than the 6-byte v1 prologue"
  | InvalidObjectType b => b# "object_type byte " ++ hex_byte b ++ b# " is not in 0x01..=0x07"
  | InvalidMagic => b# "magic at offset 1 is not " ++ quote ++ b# "MKT1" ++ quote
  | UnsupportedObjectVersion => b# "schema_version byte is not 0x01"
  | UnexpectedEof => b# "input ended before a complete field could be read"
  | TrailingData => b# "non-empty trailing bytes after a complete object"
  | TooManyEntries => b# "tree.entry_count > 1_000_000"
  | InvalidEntryName => b# "tree entry name is empty, too long, or contains a forbidden byte"
  | InvalidEntryMode b => b# "tree entry mode byte " ++ hex_byte b ++ b# " is not one of 0x01..=0x04"
  | InvalidEntryOrder => b# "tree entries are not lexicographically sorted / contain duplicates"
  | TooManyParents => b# "parent_count > 1_000"
  | TooManySources => b# "remix.source_count > 10_000"
  | TagNameInvalid =>
      b# "tag name is empty, too long, or contains a forbidden byte (" ++ backslash ++ b# "0 / "
      ++ backslash ++ b# ")"
  | TagTargetTypeInvalid b => b# "tag target_type byte " ++ hex_byte b ++ b# " is not a storable object type"
  | InvalidSourceOrder => b# "remix sources are not sorted by (upstream_id, commit_hash)"
  | TooManyChunks => b# "chunked_blob.chunk_count > 1_000_000"
  | ChunkedBlobSizeMismatch expected actual =>
      b# "chunked blob reassembles to " ++ dec actual ++ b# " bytes, manifest total_size is " ++ dec expected
  | UnknownIdentityKind b => b# "identity kind byte " ++ hex_byte b ++ b# " is not 0x01..=0x03"
  | InvalidIdentity => b# "identity has zero-length payload, or is Ed25519 with len != 32"
  | IdentityTooLarge => b# "identity payload len > " ++ dec IDENTITY_MAX_LEN
  | OversizePayload field len =>
      b# "oversized payload in field `" ++ String.list_byte_of_string field ++ b# "`: " ++ dec len
      ++ b# " bytes > u32::MAX"
  | RngFailure => b# "rng failed to produce key material"
  | SignatureInvalid => b# "signature verification failed"
  | InvalidPublicKey => b# "public key is not a valid Ed25519 point"
  | InsecureKeyPermissions actual => b# "key file mode " ++ oct actual ++ b# " is broader than 0600"
  | InsecureKeyOwner actual euid =>
      b# "key file owner uid " ++ dec actual ++ b# " does not match process euid " ++ dec euid
  | InsecureKeyDir actual => b# "key directory mode " ++ oct actual ++ b# " is broader than 0700"
  | KeyPathIsSymlink path => b# "key path " ++ path ++ b# " is a symlink " ++ em_dash ++ b# " refused"
  | InvalidKeyLength actual => b# "key file size " ++ dec actual ++ b# " is not 32 bytes (raw Ed25519 seed)"
  | KeyIo msg => b# "key file I/O error: " ++ msg
  | DeltaLengthOverflow field len =>
      b# "delta length " ++ dec len ++ b# " exceeds u32::MAX for field `"
      ++ String.list_byte_of_string field ++ b# "`"
  | DeltaCorrupt c => b# "delta stream is structurally corrupt: " ++ DeltaCorruption_to_string c
  end.

(** ** Facts *)

(** The digits of a number determine it. *)
Lemma digits_fuel_value base fuel n :
  (2 <= base <= 16)%N → (n < base ^ N.of_nat fuel)%N →
  foldl (λ v b, (v * base + default 0 (to_option (hex_nibble b)))%N) 0%N (digits_fuel fuel base n) = n.
Proof.
  intros Hb. revert n. induction fuel as [|fuel IH]; intros n Hn; [cbn in *; lia|].
  assert (Hd : ∀ d, (d < 16)%N → default 0%N (to_option (hex_nibble (hex_digit d))) = d).
  { intros d Hd. assert (d = N.of_nat (N.to_nat d)) as -> by lia.
    assert (N.to_nat d < 16) as Hd' by lia. revert Hd'. generalize (N.to_nat d) as i. intros i Hi.
    do 16 (destruct i as [|i]; [reflexivity|]). lia. }
  cbn [digits_fuel]. destruct (N.ltb_spec n base) as [Hlt|Hge].
  - cbn. apply Hd. lia.
  - rewrite foldl_app. rewrite IH; cbn [foldl].
    + rewrite Hd by (pose proof (N.mod_lt n base); lia).
      rewrite (N.mul_comm (n / base)). symmetry. apply N.div_mod. lia.
    + rewrite Nat2N.inj_succ, N.pow_succ_r' in Hn. apply N.Div0.div_lt_upper_bound. lia.
Qed.

Lemma digits_inj base m n : (2 <= base <= 16)%N → digits base m = digits base n → m = n.
Proof.
  intros Hb Hd.
  assert (Hn : ∀ n, foldl (λ v b, (v * base + default 0 (to_option (hex_nibble b)))%N) 0%N (digits base n) = n).
  { intros k. apply digits_fuel_value; [done|]. rewrite Nat2N.inj_succ, N2Nat.id.
    eapply N.lt_le_trans; [apply N.size_gt|].
    transitivity (base ^ N.size k)%N; [apply N.pow_le_mono_l; lia|apply N.pow_le_mono_r; lia]. }
  by rewrite <- (Hn m), <- (Hn n), Hd.
Qed.

Example dec_digits : (dec 0, dec 1048576, oct 420) = (b# "0", b# "1048576", b# "0o644").
Proof. reflexivity. Qed.
