(* ===== verification/ZstdFrame.v ===== *)
(** * Zstandard frames

    Models the checks that [rust/crates/mkit-core/src/pack.rs] makes of a compressed
    payload: the length that it claims, the walk over the headers of its frame and blocks
    before any decoder runs, and the decoding bounded by the claim. The C library is the
    class [Zstd]; its law [ZstdCorrect] says that what it compresses decompresses. *)

From S2P Require Import Prelude Store Messages.

Definition ZSTD_LEN_PREFIX : nat := 4.
Definition MIN_COMPRESS_LEN : N := 64.
Definition ZSTD_FRAME_MAGIC : bytes := [Byte.x28; Byte.xb5; Byte.x2f; Byte.xfd].
Definition ZSTD_WINDOW_LIMIT : N := N.shiftl 8 20.

Class Zstd := {
  (** [bulk::Compressor::compress] at [ZSTD_LEVEL], when it succeeds. *)
  zstd_compress : bytes → option bytes;
  (** [zstd_safe::find_frame_compressed_size], and the name of its error. *)
  zstd_frame_size : bytes → result bytes N;
  (** [Decompressor::decompress_to_buffer] into a buffer of the given capacity. *)
  zstd_decompress : bytes → N → result bytes bytes
}.

(** ** The headers of a frame *)

Definition MALFORMED : bytes := b# "malformed zstd frame".
Definition MALFORMED_BLOCK : bytes := b# "malformed zstd block".

(** [l.get(i)]. *)
Definition get_byte (msg : bytes) (l : bytes) (i : nat) : result bytes N :=
  ok_or (b2n <$> l !! i) msg.

(** [l.get(a..b)]. *)
Definition get_range (msg : bytes) (l : bytes) (a b : nat) : result bytes bytes :=
  _ ← ensure ((a <=? b) && (b <=? length l)) msg; Ok (slice a (b - a) l).

(** The little-endian value of the bytes from [start]. *)
Fixpoint bytes_value (msg : bytes) (l : bytes) (start n : nat) : result bytes N :=
  match n with
  | 0 => Ok 0%N
  | S n =>
      b ← get_byte msg l start;
      v ← bytes_value msg l (S start) n;
      Ok (N.lor (N.shiftl v 8) b)
  end.

Definition ruzstd_sequence_modes (block : bytes) : result bytes N :=
  let byte := get_byte MALFORMED_BLOCK block in
  b0 ← byte 0;
  let kind := N.land b0 3 in
  let format := N.land (N.shiftr b0 2) 3 in
  '(header_len, content_len) ←
    (if (kind <=? 1)%N then
       '(len, regen) ←
         (if (format =? 0)%N || (format =? 2)%N then Ok (1, N.shiftr b0 3)
          else if (format =? 1)%N then
            b1 ← byte 1; Ok (2, N.lor (N.shiftr b0 4) (N.shiftl b1 4))
          else
            b1 ← byte 1; b2 ← byte 2;
            Ok (3, N.lor (N.lor (N.shiftr b0 4) (N.shiftl b1 4)) (N.shiftl b2 12)));
       Ok (len, if (kind =? 0)%N then regen else 1%N)
     else
       let '(len, bits) := if (format <=? 1)%N then (3, 10%N)
                           else if (format =? 2)%N then (4, 14%N) else (5, 18%N) in
       h ← bytes_value MALFORMED_BLOCK block 0 len;
       Ok (len, N.land (N.shiftr h (4 + bits)) (N.shiftl 1 bits - 1)));
  let seq := (header_len + N.to_nat content_len)%nat in
  n ← byte seq;
  if (n =? 0)%N then Ok 0%N
  else byte (if (n <? 128)%N then seq + 1 else if (n =? 255)%N then seq + 3 else seq + 2)%nat.

(** One round of the loop over the blocks, from a position. *)
Definition block_step (frame : bytes) (block_maximum : N) (pos : nat) : nat + result bytes unit :=
  match
    bs ← get_range MALFORMED frame pos (pos + 3);
    let header := le_val bs in
    let pos := (pos + 3)%nat in
    let size := N.shiftr header 3 in
    let kind := N.land (N.shiftr header 1) 3 in
    _ ← ensure (size <=? block_maximum)%N (b# "zstd block exceeds its window or the 128 KiB maximum");
    body_len ← (if (kind =? 1)%N then Ok 1
                else if (kind =? 3)%N then Err (b# "zstd block has its reserved type set")
                else Ok (N.to_nat size));
    let body_end := (pos + body_len)%nat in
    body ← get_range MALFORMED frame pos body_end;
    modes ← (if (kind =? 2)%N then ruzstd_sequence_modes body else Ok 0%N);
    _ ← ensure (N.land modes 3 =? 0)%N (b# "zstd sequences section has its reserved mode bits set");
    Ok (body_end, (N.land header 1 =? 1)%N)
  with
  | Err e => inr (Err e)
  | Ok (pos, last) => if (last : bool) then inr (Ok tt) else inl pos
  end.

(** The window that the frame header declares, and where the blocks start. *)
Definition frame_header (frame : bytes) : result bytes (N * nat) :=
  _ ← ensure (starts_with ZSTD_FRAME_MAGIC frame) MALFORMED;
  descriptor ← get_byte MALFORMED frame 4;
  _ ← ensure (N.land descriptor 8 =? 0)%N (b# "zstd frame descriptor has its reserved bit set");
  let single_segment := negb (N.land descriptor 32 =? 0)%N in
  let fcs_len := nth (N.to_nat (N.shiftr descriptor 6)) [if single_segment then 1 else 0; 2; 4] 8 in
  let fcs_start := (4 + 1 + (if single_segment then 0 else 1)
                    + nth (N.to_nat (N.land descriptor 3)) [0; 1; 2] 4)%nat in
  let pos := (fcs_start + fcs_len)%nat in
  _ ← ensure (pos <=? length frame) MALFORMED;
  window ←
    (if single_segment then
       size ← bytes_value MALFORMED frame fcs_start fcs_len;
       Ok (if Nat.eqb fcs_len 2 then size + 256 else size)%N
     else
       d ← get_byte MALFORMED frame 5;
       let base := N.shiftl 1 (10 + N.shiftr d 3) in
       Ok (base + (base / 8) * N.land d 7)%N);
  Ok (window, pos).

(** [check_zstd_frame_bounds], with the rounds of its loop bounded by fuel. *)
Definition check_frame_fuel (fuel : nat) (frame : bytes) : option (result bytes unit) :=
  match frame_header frame with
  | Err e => Some (Err e)
  | Ok (window, pos) =>
      if (ZSTD_WINDOW_LIMIT <? window)%N then Some (Err (b# "zstd frame window exceeds the 8 MiB cap"))
      else loop fuel (block_step frame (N.min window (N.shiftl 128 10))) pos
  end.

(** A block takes at least the three bytes of its header. *)
Definition check_zstd_frame_bounds (frame : bytes) : result bytes unit :=
  default (Err MALFORMED) (check_frame_fuel (S (length frame)) frame).

(** ** Decoding bounded by the claim *)

(** [PackError], its variants that decompression returns. *)
Inductive ZstdError :=
  | ZstdEntryTruncated
  | DecompressedSizeOverCap (claim : N)
  | DecompressedSizeMismatch (claim actual : N)
  | ZstdDecompress (msg : bytes).

Definition zstd_claim (payload : bytes) : result ZstdError (N * bytes) :=
  _ ← ensure (ZSTD_LEN_PREFIX <=? length payload) ZstdEntryTruncated;
  let uncompressed_len := le_val (take ZSTD_LEN_PREFIX payload) in
  _ ← ensure (uncompressed_len <=? MAX_RAW_OBJECT_SIZE)%N (DecompressedSizeOverCap uncompressed_len);
  Ok (uncompressed_len, drop ZSTD_LEN_PREFIX payload).

Definition zstd_msg {A} (r : result bytes A) : result ZstdError A :=
  match r with Ok a => Ok a | Err m => Err (ZstdDecompress m) end.

Section zstd.
Context `{Z : Zstd}.

Definition zstd_decompress_into (frame : bytes) (capacity : N) : result ZstdError bytes :=
  _ ← zstd_msg (check_zstd_frame_bounds frame);
  n ← zstd_msg (zstd_frame_size frame);
  _ ← ensure (n =? lenN frame)%N 
        (ZstdDecompress (dec (lenN frame - n) ++ b# " byte(s) after the entry's single zstd frame"));
  output ← zstd_msg (zstd_decompress frame capacity);
  _ ← ensure (lenN output <=? capacity)%N (ZstdDecompress (b# "zstd frame exceeds its claim"));
  Ok output.

Definition decompress_zstd_entry (payload : bytes) : result ZstdError bytes :=
  '(len, frame) ← zstd_claim payload;
  output ← zstd_decompress_into frame len;
  _ ← ensure (lenN output =? len)%N (DecompressedSizeMismatch len (lenN output));
  Ok output.

Definition maybe_compress_capped (data : bytes) (max_len : N) : option bytes :=
  if (max_len <? lenN data)%N then None
  else if (lenN data <? MIN_COMPRESS_LEN)%N then None
  else match zstd_compress data with
       | None => None
       | Some compressed =>
           if (N.of_nat ZSTD_LEN_PREFIX + lenN compressed <? lenN data)%N then Some compressed else None
       end.

Definition maybe_compress (data : bytes) : option bytes := maybe_compress_capped data MAX_RAW_OBJECT_SIZE.

(** The compressor writes one frame within the bounds, which decompresses to its input. *)
Class ZstdCorrect : Prop := {
  zstd_frame_bounds d f : zstd_compress d = Some f → check_zstd_frame_bounds f = Ok tt;
  zstd_one_frame d f : zstd_compress d = Some f → zstd_frame_size f = Ok (lenN f);
  zstd_inverse d f : zstd_compress d = Some f → zstd_decompress f (lenN d) = Ok d
}.
End zstd.

(** ** Facts *)

Lemma get_range_Ok m l a b r :
  get_range m l a b = Ok r ↔ (a ≤ b ≤ length l)%nat ∧ r = slice a (b - a) l.
Proof.
  unfold get_range. rewrite bind_Ok. setoid_rewrite ensure_Ok. setoid_rewrite andb_true_iff.
  setoid_rewrite Nat.leb_le. split; [intros (? & ? & [= <-])|intros [? ->]; exists tt]; done.
Qed.

Lemma block_step_advances frame m pos pos' :
  block_step frame m pos = inl pos' → (pos + 3 ≤ pos' ≤ length frame)%nat.
Proof.
  unfold block_step. intros H.
  destruct (_ ← get_range MALFORMED frame pos (pos + 3); _) as [[p last]|e] eqn:E; [|done].
  destruct last; [done|]. injection H as ->. inv_ok.
  rename select (get_range _ _ (pos + 3) _ = Ok _) into Hb. apply get_range_Ok in Hb. injection E as <- _. lia.
Qed.

(** The walk over the blocks of every frame ends: the bound of the model is never what
    ends it. *)
Lemma check_frame_total frame fuel :
  (length frame < fuel)%nat → ∃ r, check_frame_fuel fuel frame = Some r.
Proof.
  intros Hf. unfold check_frame_fuel. destruct (frame_header frame) as [[window pos]|e]; [|by eexists].
  destruct (ZSTD_WINDOW_LIMIT <? window)%N; [by eexists|].
  destruct (loop_rule (block_step frame (N.min window (N.shiftl 128 10)))
    (λ pos, length frame - pos)%nat (λ _, True) (λ _, True)) with (fuel := fuel) (s := pos)
    as (r & ? & _); try done; [|lia|by exists r].
  intros p _. destruct (block_step _ _ p) as [p'|r] eqn:E; [|done].
  apply block_step_advances in E. split; [done|lia].
Qed.

Lemma check_zstd_frame_bounds_eq frame :
  check_frame_fuel (S (length frame)) frame = Some (check_zstd_frame_bounds frame).
Proof.
  unfold check_zstd_frame_bounds. by destruct (check_frame_total frame (S (length frame))) as [r ->]; [lia|].
Qed.

Lemma maybe_compress_Some `{Z : Zstd} d f :
  maybe_compress d = Some f →
  zstd_compress d = Some f ∧ (MIN_COMPRESS_LEN <= lenN d <= MAX_RAW_OBJECT_SIZE)%N ∧
  (4 + lenN f < lenN d)%N.
Proof.
  unfold maybe_compress, maybe_compress_capped.
  destruct (N.ltb_spec MAX_RAW_OBJECT_SIZE (lenN d)); [done|].
  destruct (N.ltb_spec (lenN d) MIN_COMPRESS_LEN); [done|].
  destruct (zstd_compress d) as [f'|]; [|done].
  destruct (N.ltb_spec (N.of_nat ZSTD_LEN_PREFIX + lenN f') (lenN d)) as [H1|]; [|done].
  intros [= ->]. change (N.of_nat ZSTD_LEN_PREFIX) with 4%N in H1. split_and!; done || lia.
Qed.

(** A payload that the writer compressed is read back. *)
Lemma decompress_compressed `{Z : Zstd, L : !ZstdCorrect} d f :
  maybe_compress d = Some f → decompress_zstd_entry (le_bytes 4 (lenN d) ++ f) = Ok d.
Proof.
  intros (Hf & [_ Hd] & _)%maybe_compress_Some. unfold decompress_zstd_entry, zstd_claim.
  change ZSTD_LEN_PREFIX with (length (le_bytes 4 (lenN d))).
  rewrite take_app_length, drop_app_length, length_app.
  assert (lenN d < 256 ^ N.of_nat 4)%N as Hd4 by (unfold MAX_RAW_OBJECT_SIZE in Hd; cbn; lia).
  rewrite (le_val_le_bytes 4) by exact Hd4.
  rewrite (proj2 (Nat.leb_le _ _)) by lia. simpl. rewrite (proj2 (N.leb_le _ _)) by done. simpl.
  unfold zstd_decompress_into.
  rewrite (zstd_frame_bounds d f Hf), (zstd_one_frame d f Hf). simpl. rewrite N.eqb_refl. simpl.
  rewrite (zstd_inverse d f Hf). simpl. rewrite N.leb_refl. simpl. by rewrite N.eqb_refl.
Qed.

(** ** A codec: one RLE block for 64 equal bytes *)

Module ToyZstd.
Definition frame_of (b : byte) : bytes :=
  ZSTD_FRAME_MAGIC ++ [Byte.x20; Byte.x40; Byte.x03; Byte.x02; Byte.x00; b].

#[export] Instance toy_zstd : Zstd := {|
  zstd_compress d :=
    match d with
    | b :: _ => if bool_decide (d = replicate 64 b) then Some (frame_of b) else None
    | [] => None
    end;
  zstd_frame_size f := Ok (lenN f);
  zstd_decompress f cap := Ok (replicate 64 (List.last f Byte.x00))
|}.

Lemma toy_compress d f : zstd_compress d = Some f → ∃ b, d = replicate 64 b ∧ f = frame_of b.
Proof. destruct d as [|b d]; [done|]. cbn. case_bool_decide; [|done]. intros [= <-]. eauto. Qed.

#[export] Instance toy_zstd_correct : ZstdCorrect.
Proof.
  split; intros d f (b & -> & ->)%toy_compress; try reflexivity.
Qed.
End ToyZstd.
