(* ===== verification/Pack.v ===== *)
(** * Packfiles

    Models the writer and the store-less reader of [rust/crates/mkit-core/src/pack.rs]: the
    frames, the caps, the version that the writer chooses, the trailer, and the iterator
    over the entries. Positions in a pack are [nat]; they never pass the end of the body, so
    the additions that the code checks do not overflow. *)

From S2P Require Import Prelude Hash Object Store Messages ZstdFrame.

Definition MAGIC : bytes := b# "MKIT".
Definition VERSION : N := 1.
Definition VERSION_V2 : N := 2.
Definition MAX_ENTRIES : N := 10000000.
Definition MAX_TOTAL_PAYLOAD : N := 4 * 1024 * 1024 * 1024.
Definition TRAILER_LEN : nat := 32.
Definition HEADER_LEN : nat := 4 + 4 + 4.
Definition ENTRY_FRAME_LEN : nat := 1 + 4.
Definition VERSION_OFFSET : nat := 4.
Definition ENTRY_COUNT_OFFSET : nat := 8.
Definition HASH_LEN : nat := 32.

Inductive PackError :=
  | PackfileTooShort
  | PeInvalidMagic
  | UnsupportedVersion (v : N)
  | InvalidEntryType (t : byte)
  | TooManyObjects (n : N)
  | PackfileTooLarge
  | PeUnexpectedEof
  | PackfileCorrupted
  | DeltaBaseMissing (hex : bytes)
  | DeltaEntryTruncated
  | DeltaApply (e : MkitError)
  | InvalidObject (e : MkitError)
  | NonStorableObject
  | PeTrailingData
  | PeStore (e : StoreError)
  | PeZstd (e : ZstdError)
  | RawOnly.

(** ** [PackWriter] *)

Record PackWriter := {
  pw_buf : bytes;
  pw_entry_count : N;
  pw_total_payload : N;
  pw_has_compressed_entry : bool;
  pw_raw_only : bool
}.

(** A method that can fail; the changes that it had made to its state stay. *)
Definition PM (S A : Type) : Type := S → result PackError A * S.

#[export] Instance PM_ret {S} : MRet (PM S) := λ A a s, (Ok a, s).
#[export] Instance PM_bind {S} : MBind (PM S) := λ A B f m s,
  match m s with
  | (Ok a, s) => f a s
  | (Err e, s) => (Err e, s)
  end.

Definition pm_lift {S A} (r : result PackError A) : PM S A := λ s, (r, s).
Definition pm_modify {S} (f : S → S) : PM S unit := λ s, (Ok tt, f s).

Abbreviation W := (PM PackWriter).

Definition PackWriter_new : PackWriter :=
  {| pw_buf := MAGIC ++ le_bytes 4 VERSION ++ le_bytes 4 0; pw_entry_count := 0;
     pw_total_payload := 0; pw_has_compressed_entry := false; pw_raw_only := false |}.

Definition new_raw_only : PackWriter :=
  {| pw_buf := pw_buf PackWriter_new; pw_entry_count := 0;
     pw_total_payload := 0; pw_has_compressed_entry := false; pw_raw_only := true |}.

Definition check_caps_for (add_len : N) : W unit := λ w,
  let next_count := (pw_entry_count w + 1)%N in
  if (MAX_ENTRIES <? next_count)%N then (Err (TooManyObjects (MAX_ENTRIES + 1)), w)
  else
    let next_total := N.min (pw_total_payload w + add_len) U64_MAX in
    if (MAX_TOTAL_PAYLOAD <? next_total)%N then (Err PackfileTooLarge, w) else (Ok tt, w).

Definition set_buf (buf : bytes) (w : PackWriter) : PackWriter :=
  {| pw_buf := buf; pw_entry_count := pw_entry_count w; pw_total_payload := pw_total_payload w;
     pw_has_compressed_entry := pw_has_compressed_entry w; pw_raw_only := pw_raw_only w |}.

(** [self.total_payload += n], [self.has_compressed_entry = true], [self.entry_count += 1]. *)
Definition add_payload (n : N) (w : PackWriter) : PackWriter :=
  {| pw_buf := pw_buf w; pw_entry_count := pw_entry_count w;
     pw_total_payload := (pw_total_payload w + n)%N;
     pw_has_compressed_entry := pw_has_compressed_entry w; pw_raw_only := pw_raw_only w |}.
Definition set_compressed (w : PackWriter) : PackWriter :=
  {| pw_buf := pw_buf w; pw_entry_count := pw_entry_count w; pw_total_payload := pw_total_payload w;
     pw_has_compressed_entry := true; pw_raw_only := pw_raw_only w |}.
Definition count_entry (w : PackWriter) : PackWriter :=
  {| pw_buf := pw_buf w; pw_entry_count := (pw_entry_count w + 1)%N;
     pw_total_payload := pw_total_payload w;
     pw_has_compressed_entry := pw_has_compressed_entry w; pw_raw_only := pw_raw_only w |}.

Definition append_entry (etype : byte) (parts : list bytes) : W unit := λ w,
  let payload_len := lenN (concat parts) in
  if (U32_MAX <? payload_len)%N then (Err PackfileTooLarge, w)
  else (Ok tt, set_buf (pw_buf w ++ [etype] ++ le_bytes 4 payload_len ++ concat parts) w).

Definition append_raw_frame (hash_of_bytes : hash32) (bs : bytes) (frame : option bytes) : W hash32 :=
  _ ← match frame with
      | Some frame =>
          _ ← pm_lift (ensure (lenN bs <=? U32_MAX)%N PackfileTooLarge);
          let payload_len := (N.of_nat ZSTD_LEN_PREFIX + lenN frame)%N in
          _ ← check_caps_for payload_len;
          _ ← pm_modify (add_payload payload_len);
          _ ← append_entry Byte.x03 [le_bytes 4 (lenN bs); frame];
          pm_modify set_compressed
      | None =>
          _ ← check_caps_for (lenN bs);
          _ ← pm_modify (add_payload (lenN bs));
          append_entry Byte.x00 [bs]
      end;
  _ ← pm_modify count_entry;
  mret hash_of_bytes.

Definition append_delta_frame (base_hash : hash32) (stream : bytes) (frame : option bytes) : W unit :=
  _ ← match frame with
      | Some frame =>
          _ ← pm_lift (ensure (lenN stream <=? U32_MAX)%N PackfileTooLarge);
          let payload_len := (N.of_nat HASH_LEN + N.of_nat ZSTD_LEN_PREFIX + lenN frame)%N in
          _ ← check_caps_for payload_len;
          _ ← pm_modify (add_payload payload_len);
          _ ← append_entry Byte.x04 [arr_bytes base_hash; le_bytes 4 (lenN stream); frame];
          pm_modify set_compressed
      | None =>
          let payload_len := (N.of_nat HASH_LEN + lenN stream)%N in
          _ ← check_caps_for payload_len;
          _ ← pm_modify (add_payload payload_len);
          append_entry Byte.x02 [arr_bytes base_hash; stream]
      end;
  pm_modify count_entry.

(** [buf[at..at + bs.len()].copy_from_slice(bs)]. *)
Definition copy_at (pos : nat) (bs buf : bytes) : bytes :=
  take pos buf ++ bs ++ drop (pos + length bs) buf.

(** ** [PackEntries] *)

Inductive EncodedPayload :=
  | Plain (bs : bytes)
  | ZstdPayload (bs : bytes).

(** [Entry]. *)
Inductive EncodedEntry :=
  | EnRaw (p : EncodedPayload)
  | EnDelta (base : hash32) (stream : EncodedPayload).

Inductive PackEntry :=
  | PRaw (bs : bytes)
  | PDelta (base : hash32) (stream : bytes).

Record PackEntries := {
  pe_bytes : bytes;
  pe_version : N;
  pe_split : nat;
  pe_count : N;
  pe_pos : nat;
  pe_yielded : N;
  pe_raw_only : bool;
  pe_first_non_raw : option N;
  pe_last_payload_range : option (nat * nat);
  pe_done : bool
}.

(** The type, the payload's length and where the payload starts, of the frame at [pos]. *)
Definition frame_at (bs : bytes) (split pos : nat) : result PackError (byte * N * nat) :=
  _ ← ensure (ENTRY_FRAME_LEN <=? split - pos) PeUnexpectedEof;
  Ok (nth pos bs Byte.x00, le_val (slice (pos + 1) 4 bs), (pos + 1 + 4)%nat).

(** [if payload_len > split - pos]. *)
Definition payload_fits (payload_len : N) (split pos : nat) : result PackError unit :=
  ensure (payload_len <=? N.of_nat (split - pos))%N PeUnexpectedEof.

(** The arms of the scan: whether the entry is raw. *)
Definition entry_type_raw (version : N) (etype : byte) (payload_len : N) : result PackError bool :=
  match etype with
  | Byte.x00 => Ok true
  | Byte.x02 => _ ← ensure (N.of_nat HASH_LEN <=? payload_len)%N DeltaEntryTruncated; Ok false
  | Byte.x03 => _ ← ensure (version =? VERSION_V2)%N (InvalidEntryType etype); Ok false
  | Byte.x04 =>
      _ ← ensure (version =? VERSION_V2)%N (InvalidEntryType etype);
      _ ← ensure (N.of_nat HASH_LEN <=? payload_len)%N DeltaEntryTruncated; Ok false
  | other => Err (InvalidEntryType other)
  end.

(** [for i in 0..count]: where the last frame ends, and the first entry that is not raw. *)
Fixpoint scan_entries (bs : bytes) (version : N) (split : nat) (payload_cap : N) (count : nat)
    (i : N) (pos : nat) (total : N) (first_non_raw : option N) : result PackError (nat * option N) :=
  match count with
  | 0 => Ok (pos, first_non_raw)
  | S count =>
      '(etype, payload_len, pos) ← frame_at bs split pos;
      let total := N.min (total + payload_len) U64_MAX in
      _ ← ensure (total <=? payload_cap)%N PackfileTooLarge;
      _ ← payload_fits payload_len split pos;
      raw ← entry_type_raw version etype payload_len;
      let first_non_raw :=
        if (raw : bool) then first_non_raw
        else match first_non_raw with Some j => Some j | None => Some i end in
      scan_entries bs version split payload_cap count (i + 1) (pos + N.to_nat payload_len) total
        first_non_raw
  end.

Definition is_raw_only (es : PackEntries) : bool := pe_raw_only es.
Definition first_non_raw_index (es : PackEntries) : option N := pe_first_non_raw es.
Definition last_payload_range (es : PackEntries) : option (nat * nat) := pe_last_payload_range es.
Definition entry_count (es : PackEntries) : N := pe_count es.

Definition encoded_payload (etype : byte) (version : N) (payload : bytes) : result PackError EncodedEntry :=
  let delta wrap :=
    _ ← ensure (HASH_LEN <=? length payload) DeltaEntryTruncated;
    Ok (EnDelta (arr_of 32 (take HASH_LEN payload)) (wrap (drop HASH_LEN payload))) in
  match etype with
  | Byte.x00 => Ok (EnRaw (Plain payload))
  | Byte.x03 => _ ← ensure (version =? VERSION_V2)%N (InvalidEntryType etype); Ok (EnRaw (ZstdPayload payload))
  | Byte.x02 => delta Plain
  | Byte.x04 => _ ← ensure (version =? VERSION_V2)%N (InvalidEntryType etype); delta ZstdPayload
  | other => Err (InvalidEntryType other)
  end.

(** [&mut self]: the iterator as it is left, also by an error. *)
Definition pe_move (es : PackEntries) (pos : nat) (yielded : N) (range : option (nat * nat))
    (done : bool) : PackEntries :=
  {| pe_bytes := pe_bytes es; pe_version := pe_version es; pe_split := pe_split es;
     pe_count := pe_count es; pe_pos := pos; pe_yielded := yielded;
     pe_raw_only := pe_raw_only es; pe_first_non_raw := pe_first_non_raw es;
     pe_last_payload_range := range; pe_done := done |}.

Definition next_encoded_entry (es : PackEntries) : result PackError EncodedEntry * PackEntries :=
  match frame_at (pe_bytes es) (pe_split es) (pe_pos es) with
  | Err e => (Err e, es)
  | Ok (etype, payload_len, pos) =>
      match payload_fits payload_len (pe_split es) pos with
      | Err e => (Err e, pe_move es pos (pe_yielded es) (pe_last_payload_range es) (pe_done es))
      | Ok _ =>
          let payload_end := (pos + N.to_nat payload_len)%nat in
          let payload := slice pos (N.to_nat payload_len) (pe_bytes es) in
          (encoded_payload etype (pe_version es) payload,
           pe_move es payload_end (pe_yielded es + 1) (Some (pos, payload_end)) (pe_done es))
      end
  end.

Section pack.
Context `{B : Blake3, Z : Zstd}.

(** ** The writer's entry points *)

Definition push_raw (hash_of_bytes : hash32) (bs : bytes) : W hash32 := λ w,
  append_raw_frame hash_of_bytes bs (if pw_raw_only w then None else maybe_compress bs) w.

Record PreparedRaw := { pr_hash : hash32; pr_bytes : bytes; pr_frame : option bytes }.
Record PreparedDelta := { pd_base : hash32; pd_stream : bytes; pd_frame : option bytes }.

Definition prepare_raw (hash_of_bytes : hash32) (bs : bytes) : PreparedRaw :=
  {| pr_hash := hash_of_bytes; pr_bytes := bs; pr_frame := maybe_compress bs |}.

Definition push_prepared_raw (entry : PreparedRaw) : W hash32 := λ w,
  append_raw_frame (pr_hash entry) (pr_bytes entry)
    (if pw_raw_only w then None else pr_frame entry) w.

Definition push_delta (base_hash : hash32) (stream : bytes) : W unit := λ w,
  if pw_raw_only w then (Err RawOnly, w)
  else append_delta_frame base_hash stream (maybe_compress stream) w.

Definition prepare_delta (base_hash : hash32) (stream : bytes) : PreparedDelta :=
  {| pd_base := base_hash; pd_stream := stream; pd_frame := maybe_compress stream |}.

Definition push_prepared_delta (entry : PreparedDelta) : W unit := λ w,
  if pw_raw_only w then (Err RawOnly, w)
  else append_delta_frame (pd_base entry) (pd_stream entry) (pd_frame entry) w.

Definition finish (w : PackWriter) : result PackError bytes :=
  _ ← ensure (pw_entry_count w <=? MAX_ENTRIES)%N (TooManyObjects (pw_entry_count w));
  let version := if pw_has_compressed_entry w then VERSION_V2 else VERSION in
  let buf := copy_at VERSION_OFFSET (le_bytes 4 version) (pw_buf w) in
  let buf := copy_at ENTRY_COUNT_OFFSET (le_bytes 4 (pw_entry_count w)) buf in
  Ok (buf ++ arr_bytes (hash buf)).

Definition pack_key (pack_bytes : bytes) : hash32 := hash pack_bytes.

(** ** The reader *)

Definition validate_pack_header (pack_bytes : bytes) : result PackError (N * nat * N) :=
  _ ← ensure (HEADER_LEN + TRAILER_LEN <=? length pack_bytes) PackfileTooShort;
  _ ← ensure (bytes_eqb (take 4 pack_bytes) MAGIC) PeInvalidMagic;
  let version := le_val (slice 4 4 pack_bytes) in
  _ ← ensure ((version =? VERSION) || (version =? VERSION_V2))%N (UnsupportedVersion version);
  let split := (length pack_bytes - TRAILER_LEN)%nat in
  let body := take split pack_bytes in
  let trailer := drop split pack_bytes in
  _ ← ensure (bytes_eqb (arr_bytes (hash body)) trailer) PackfileCorrupted;
  let count := le_val (slice ENTRY_COUNT_OFFSET 4 pack_bytes) in
  _ ← ensure (count <=? MAX_ENTRIES)%N (TooManyObjects count);
  _ ← ensure (count * N.of_nat ENTRY_FRAME_LEN <=? N.of_nat (length body - HEADER_LEN))%N
        (TooManyObjects count);
  Ok (version, split, count).

Definition new_with_payload_cap (bs : bytes) (payload_cap : N) : result PackError PackEntries :=
  '(version, split, count) ← validate_pack_header bs;
  '(pos, first_non_raw) ←
    scan_entries bs version split payload_cap (N.to_nat count) 0 HEADER_LEN 0 None;
  _ ← ensure (pos =? split)%nat PeTrailingData;
  Ok {| pe_bytes := bs; pe_version := version; pe_split := split; pe_count := count;
        pe_pos := HEADER_LEN; pe_yielded := 0;
        pe_raw_only := bool_decide (first_non_raw = None); pe_first_non_raw := first_non_raw;
        pe_last_payload_range := None; pe_done := false |}.

Definition PackEntries_new (bs : bytes) : result PackError PackEntries :=
  new_with_payload_cap bs MAX_TOTAL_PAYLOAD.

Definition decode_encoded (p : EncodedPayload) : result PackError bytes :=
  match p with
  | Plain bs => Ok bs
  | ZstdPayload bs => match decompress_zstd_entry bs with Ok d => Ok d | Err e => Err (PeZstd e) end
  end.

Definition decode_encoded_payload (entry : EncodedEntry) : result PackError PackEntry :=
  match entry with
  | EnRaw p => bs ← decode_encoded p; Ok (PRaw bs)
  | EnDelta base stream => s ← decode_encoded stream; Ok (PDelta base s)
  end.

Definition decode_payload (etype : byte) (version : N) (payload : bytes) : result PackError PackEntry :=
  e ← encoded_payload etype version payload; decode_encoded_payload e.

Definition next_entry (es : PackEntries) : result PackError PackEntry * PackEntries :=
  match next_encoded_entry es with
  | (Err e, es) => (Err e, es)
  | (Ok e, es) => (decode_encoded_payload e, es)
  end.

(** [Iterator::next]. *)
Definition next (es : PackEntries) : option (result PackError PackEntry) * PackEntries :=
  let finish es := pe_move es (pe_pos es) (pe_yielded es) (pe_last_payload_range es) true in
  if pe_done es || (pe_count es <=? pe_yielded es)%N then (None, finish es)
  else match next_entry es with
       | (Ok entry, es) => (Some (Ok entry), es)
       | (Err e, es) => (Some (Err e), finish es)
       end.
End pack.

(** ** [delta_base_hashes] *)

Fixpoint scan_bases (bs : bytes) (split : nat) (count : nat) (pos : nat) (seen : gset hash32)
    (bases : list hash32) : result PackError (list hash32) :=
  match count with
  | 0 => Ok bases
  | S count =>
      '(etype, payload_len, pos) ← frame_at bs split pos;
      _ ← payload_fits payload_len split pos;
      '(seen, bases) ←
        (if bool_decide (etype = Byte.x02 ∨ etype = Byte.x04) then
           _ ← ensure (N.of_nat TRAILER_LEN <=? payload_len)%N DeltaEntryTruncated;
           let base := arr_of 32 (slice pos TRAILER_LEN bs) in
           Ok (if bool_decide (base ∈ seen) then (seen, bases)
               else ({[base]} ∪ seen, bases ++ [base]))
         else Ok (seen, bases));
      scan_bases bs split count (pos + N.to_nat payload_len) seen bases
  end.

Definition delta_base_hashes (pack_bytes : bytes) : result PackError (list hash32) :=
  _ ← ensure (HEADER_LEN + TRAILER_LEN <=? length pack_bytes) PackfileTooShort;
  _ ← ensure (bytes_eqb (take 4 pack_bytes) MAGIC) PeInvalidMagic;
  let version := le_val (slice 4 4 pack_bytes) in
  _ ← ensure ((version =? VERSION) || (version =? VERSION_V2))%N (UnsupportedVersion version);
  let count := le_val (slice ENTRY_COUNT_OFFSET 4 pack_bytes) in
  _ ← ensure (count <=? MAX_ENTRIES)%N (TooManyObjects count);
  let split := (length pack_bytes - TRAILER_LEN)%nat in
  scan_bases pack_bytes split (N.to_nat count) HEADER_LEN ∅ [].
