(* ===== verification/PackFacts.v ===== *)
(** * Packfiles: facts

    A pack is the header, its frames and the digest of both. The reader opens exactly the
    packs whose frames are well formed and within the caps, and yields their entries in
    order; the writer's state stands for a list of frames, so what it finishes is read back. *)

From S2P Require Import Prelude Hash Object Store Messages ZstdFrame Pack.

(** ** The specification of a pack *)

Record frame := { fr_type : byte; fr_payload : bytes }.

Definition frame_bytes (f : frame) : bytes :=
  [fr_type f] ++ le_bytes 4 (lenN (fr_payload f)) ++ fr_payload f.

Definition frames_bytes (fs : list frame) : bytes := concat (map frame_bytes fs).

Definition payload_sum (fs : list frame) : N := foldr (λ f n, (lenN (fr_payload f) + n)%N) 0%N fs.

Definition frame_ok (version : N) (f : frame) : Prop :=
  (lenN (fr_payload f) <= U32_MAX)%N ∧
  is_ok (entry_type_raw version (fr_type f) (lenN (fr_payload f))) = true.

Definition frame_raw (f : frame) : bool := bool_decide (fr_type f = Byte.x00).

Fixpoint first_not_raw (i : N) (fs : list frame) : option N :=
  match fs with
  | [] => None
  | f :: fs => if frame_raw f then first_not_raw (i + 1) fs else Some i
  end.

Record pack_ok (version cap : N) (fs : list frame) : Prop := {
  po_version : version = VERSION ∨ version = VERSION_V2;
  po_count : (lenN fs <= MAX_ENTRIES)%N;
  po_frames : Forall (frame_ok version) fs;
  po_sum : (payload_sum fs <= cap)%N
}.

Definition header_bytes (version count : N) : bytes := MAGIC ++ le_bytes 4 version ++ le_bytes 4 count.

Definition pack_body (version : N) (fs : list frame) : bytes :=
  header_bytes version (lenN fs) ++ frames_bytes fs.

Definition pack_image `{B : Blake3} (version : N) (fs : list frame) : bytes :=
  pack_body version fs ++ arr_bytes (hash (pack_body version fs)).

(** The iterator over the frames of a pack after [done] of them. *)
Definition opened `{B : Blake3} (version : N) (fs : list frame) (k : nat) (range : option (nat * nat))
    : PackEntries :=
  {| pe_bytes := pack_image version fs; pe_version := version;
     pe_split := length (pack_body version fs); pe_count := lenN fs;
     pe_pos := HEADER_LEN + length (frames_bytes (take k fs)); pe_yielded := N.of_nat k;
     pe_raw_only := bool_decide (first_not_raw 0 fs = None);
     pe_first_non_raw := first_not_raw 0 fs; pe_last_payload_range := range; pe_done := false |}.

(** ** One frame *)

Lemma length_frame f : length (frame_bytes f) = (5 + length (fr_payload f))%nat.
Proof. unfold frame_bytes. rewrite !length_app, length_le_bytes. simpl. lia. Qed.

Lemma frames_bytes_cons f fs : frames_bytes (f :: fs) = frame_bytes f ++ frames_bytes fs.
Proof. done. Qed.

Lemma frames_bytes_app fs gs : frames_bytes (fs ++ gs) = frames_bytes fs ++ frames_bytes gs.
Proof. unfold frames_bytes. by rewrite map_app, concat_app. Qed.

Lemma payload_sum_cons f fs : payload_sum (f :: fs) = (lenN (fr_payload f) + payload_sum fs)%N.
Proof. done. Qed.

Lemma payload_sum_app fs gs : payload_sum (fs ++ gs) = (payload_sum fs + payload_sum gs)%N.
Proof. induction fs as [|f fs IH]; [done|]. simpl app. rewrite !payload_sum_cons, IH. lia. Qed.

Lemma payload_sum_length fs : (N.of_nat (length (frames_bytes fs)) = payload_sum fs + 5 * lenN fs)%N.
Proof.
  induction fs as [|f fs IH]; [done|]. rewrite frames_bytes_cons, length_app, length_frame, lenN_cons.
  rewrite payload_sum_cons. unfold lenN in *. lia.
Qed.

(** A frame lies at [pos], and ends by [split]. *)
Definition frame_lies (bs : bytes) (split pos : nat) (f : frame) : Prop :=
  (lenN (fr_payload f) <= U32_MAX)%N ∧
  drop pos bs = frame_bytes f ++ drop (pos + length (frame_bytes f)) bs ∧
  (pos + length (frame_bytes f) ≤ split)%nat.

Lemma frame_at_iff bs split pos t n p :
  (split ≤ length bs)%nat →
  frame_at bs split pos = Ok (t, n, p) ∧ payload_fits n split p = Ok tt ↔
  ∃ f, frame_lies bs split pos f ∧ t = fr_type f ∧ n = lenN (fr_payload f) ∧ p = (pos + 5)%nat.
Proof.
  intros Hs. unfold frame_at, payload_fits. rewrite bind_Ok. setoid_rewrite ensure_Ok.
  rewrite N.leb_le. split.
  - intros [(? & Hl & [= <- <- <-]) Hn]. apply Nat.leb_le in Hl. unfold ENTRY_FRAME_LEN in Hl.
    set (n := le_val _) in *.
    assert (n <= U32_MAX)%N as Hu.
    { pose proof (le_val_bound (slice (pos + 1) 4 bs)) as Hb. unfold lenN in Hb.
      rewrite slice_length in Hb by lia. unfold U32_MAX. cbn in Hb. lia. }
    exists {| fr_type := nth pos bs Byte.x00; fr_payload := slice (pos + 5) (N.to_nat n) bs |}.
    assert (length (slice (pos + 5) (N.to_nat n) bs) = N.to_nat n) as Hp by (apply slice_length; lia).
    unfold frame_lies. rewrite length_frame. cbn [fr_type fr_payload]. unfold lenN. rewrite Hp, N2Nat.id.
    split_and!; try done; try lia. unfold frame_bytes. cbn [fr_type fr_payload]. unfold lenN.
    rewrite Hp, N2Nat.id. rewrite (drop_nth bs Byte.x00) by lia. cbn. f_equal.
    rewrite <- Nat.add_1_r, (slice_drop _ 4), <- app_assoc. f_equal.
    { unfold n. rewrite <- (le_bytes_le_val (slice (pos + 1) 4 bs)) at 1. by rewrite slice_length by lia. }
    replace (pos + 1 + 4)%nat with (pos + 5)%nat by lia. rewrite (slice_drop _ (N.to_nat n)) at 1.
    by replace (pos + S (S (S (S (S (N.to_nat n))))))%nat with (pos + 5 + N.to_nat n)%nat by lia.
  - intros (f & (Hu & Hd & He) & -> & -> & ->). rewrite length_frame in Hd, He.
    unfold ENTRY_FRAME_LEN. unfold lenN in *. split; [|lia]. exists tt. split; [apply Nat.leb_le; lia|].
    assert (nth pos bs Byte.x00 = fr_type f) as ->.
    { rewrite (drop_nth bs Byte.x00) in Hd by lia. by injection Hd as <- _. }
    rewrite (drop_nth bs Byte.x00) in Hd by lia. cbn in Hd. injection Hd as _ Hd.
    rewrite <- Nat.add_1_r in Hd.
    replace (slice (pos + 1) 4 bs) with (le_bytes 4 (N.of_nat (length (fr_payload f)))).
    2: { symmetry. change 4 with (length (le_bytes 4 (N.of_nat (length (fr_payload f))))).
         eapply slice_app. unfold frame_bytes in Hd. cbn in Hd. rewrite Hd. cbn. reflexivity. }
    rewrite le_val_le_bytes by (unfold U32_MAX in Hu; cbn; lia). do 2 f_equal. lia.
Qed.

(** ** The scan over the frames *)

Lemma entry_type_raw_Ok v t n r :
  entry_type_raw v t n = Ok r → r = bool_decide (t = Byte.x00).
Proof.
  unfold entry_type_raw. destruct t; intros H; try done; inv_ok; subst; done.
Qed.

(** Frames that lie one after the other from [pos] to [pos']. *)
Definition frames_lie (bs : bytes) (split pos pos' : nat) (fs : list frame) : Prop :=
  drop pos bs = frames_bytes fs ++ drop pos' bs ∧ pos' = (pos + length (frames_bytes fs))%nat ∧
  (pos' ≤ split)%nat.

Lemma frames_lie_cons bs split pos pos' f fs :
  (split ≤ length bs)%nat →
  frames_lie bs split pos pos' (f :: fs) ↔
  drop pos bs = frame_bytes f ++ drop (pos + length (frame_bytes f)) bs ∧
  (pos + length (frame_bytes f) ≤ split)%nat ∧
  frames_lie bs split (pos + length (frame_bytes f)) pos' fs.
Proof.
  intros Hs. unfold frames_lie. rewrite frames_bytes_cons, length_app. split.
  - intros (Hd & -> & Hle). rewrite <- app_assoc in Hd.
    assert (drop (pos + length (frame_bytes f)) bs =
      frames_bytes fs ++ drop (pos + (length (frame_bytes f) + length (frames_bytes fs))) bs) as Hr.
    { by rewrite <- drop_drop, Hd, drop_app_length. }
    split_and!; [by rewrite Hd, Hr|lia|done|lia|lia].
  - intros (Hd & _ & Hr & -> & Hle). rewrite Hd, Hr at 1. rewrite app_assoc.
    split_and!; [done|lia|lia].
Qed.

Definition or_first (fnr : option N) (i : N) (fs : list frame) : option N :=
  match fnr with Some j => Some j | None => first_not_raw i fs end.

Lemma scan_step bs v split cap n i pos total fnr r :
  (split ≤ length bs)%nat → (total <= cap)%N → (cap < U64_MAX)%N →
  scan_entries bs v split cap (S n) i pos total fnr = Ok r ↔
  ∃ f, frame_lies bs split pos f ∧ frame_ok v f ∧ (total + lenN (fr_payload f) <= cap)%N ∧
    scan_entries bs v split cap n (i + 1) (pos + length (frame_bytes f))
      (total + lenN (fr_payload f)) (or_first fnr i [f]) = Ok r.
Proof.
  intros Hs Ht Hc. cbn [scan_entries].
  assert (Hsat : ∀ k, (N.min (total + k) U64_MAX <= cap)%N ↔ (total + k <= cap)%N) by lia.
  assert (Hacc : ∀ raw f, raw = frame_raw f → (if raw then fnr else
    match fnr with Some j => Some j | None => Some i end) = or_first fnr i [f]).
  { intros raw f ->. unfold or_first. cbn [first_not_raw]. by destruct (frame_raw f), fnr. }
  split.
  - intros H. inv_ok. destruct x as [[t m] p]. inv_ok.
    rename select (payload_fits _ _ _ = _) into Hfit. rename select (entry_type_raw _ _ _ = _) into Hraw.
    match type of Hraw with _ = Ok ?y => rename y into raw end.
    rename select ((_ <=? cap)%N = true) into Hcap. apply N.leb_le, Hsat in Hcap.
    destruct (proj1 (frame_at_iff bs split pos t m p Hs)) as (f & Hf & -> & -> & ->); [done|].
    exists f. split_and!; [done| |done|].
    + split; [apply Hf|]. by rewrite Hraw.
    + rewrite <- H, length_frame. rewrite (Hacc raw f) by exact (entry_type_raw_Ok _ _ _ _ Hraw).
      f_equal; [unfold lenN; lia|]. destruct (N.min_spec (total + lenN (fr_payload f)) U64_MAX); lia.
  - intros (f & Hf & [_ Hok] & Hcap & H).
    destruct (proj2 (frame_at_iff bs split pos (fr_type f) (lenN (fr_payload f)) (pos + 5) Hs)) as [-> Hfit];
      [by exists f|]. simpl. rewrite (proj2 (N.leb_le _ _)) by by apply Hsat. simpl. rewrite Hfit. simpl.
    destruct (entry_type_raw _ _ _) as [raw|e] eqn:Hraw; [|done]. simpl.
    rewrite (Hacc raw f) by exact (entry_type_raw_Ok _ _ _ _ Hraw). rewrite <- H, length_frame.
    f_equal; [unfold lenN; lia|]. destruct (N.min_spec (total + lenN (fr_payload f)) U64_MAX); lia.
Qed.

Lemma or_first_cons fnr i f fs : or_first (or_first fnr i [f]) (i + 1) fs = or_first fnr i (f :: fs).
Proof. destruct fnr; [done|]. unfold or_first. cbn [first_not_raw]. by destruct (frame_raw f). Qed.

Lemma scan_iff bs v split cap n i pos total fnr pos' fnr' :
  (split ≤ length bs)%nat → (pos ≤ split)%nat → (total <= cap)%N → (cap < U64_MAX)%N →
  scan_entries bs v split cap n i pos total fnr = Ok (pos', fnr') ↔
  ∃ fs, length fs = n ∧ frames_lie bs split pos pos' fs ∧ Forall (frame_ok v) fs ∧
    (total + payload_sum fs <= cap)%N ∧ fnr' = or_first fnr i fs.
Proof.
  intros Hs Hp Ht Hc. revert i pos total fnr Hp Ht.
  induction n as [|n IH]; intros i pos total fnr Hp Ht.
  - cbn [scan_entries]. split.
    + intros [= <- <-]. exists []. unfold frames_lie. cbn.
      split_and!; (done || lia || by destruct fnr).
    + intros ([|] & Hl & (_ & -> & _) & _ & _ & ->); [|done]. cbn. rewrite Nat.add_0_r. by destruct fnr.
  - rewrite scan_step by done. split.
    + intros (f & (Hu & Hd & Hle) & Hok & Hcap & H). apply IH in H as (fs & <- & Hl & Hoks & Hsum & ->); [|lia..].
      exists (f :: fs). rewrite frames_lie_cons, payload_sum_cons, or_first_cons by done.
      split_and!; try done; [by constructor|lia].
    + intros ([|f fs] & Hl & Hlie & Hoks & Hsum & ->); [done|]. injection Hl as <-.
      apply frames_lie_cons in Hlie as (Hd & Hle & Hlie); [|done]. apply list.Forall_cons in Hoks as [Hok Hoks].
      rewrite payload_sum_cons in Hsum. exists f. split; [split_and!; [apply Hok|done|done]|]. split; [done|]. split; [lia|].
      apply IH; [lia..|]. exists fs. rewrite or_first_cons. split_and!; (done || lia).
Qed.

(** ** Opening a pack *)

Lemma length_header v c : length (header_bytes v c) = 12.
Proof. unfold header_bytes. rewrite !length_app, !length_le_bytes. done. Qed.

Lemma drop_header v c k : drop HEADER_LEN (header_bytes v c ++ k) = k.
Proof. change HEADER_LEN with 12. rewrite <- (length_header v c). apply drop_app_length. Qed.

Lemma header_version v c k : slice 4 4 (header_bytes v c ++ k) = le_bytes 4 v.
Proof.
  change 4 with (length (le_bytes 4 v)) at 2. eapply slice_app. unfold header_bytes.
  rewrite <- !app_assoc. cbn. reflexivity.
Qed.

Lemma header_count v c k : slice ENTRY_COUNT_OFFSET 4 (header_bytes v c ++ k) = le_bytes 4 c.
Proof.
  change 4 with (length (le_bytes 4 c)). eapply slice_app. unfold header_bytes.
  rewrite <- !app_assoc. cbn. reflexivity.
Qed.

Section reader.
Context `{B : Blake3, Z : Zstd}.

Lemma length_body v fs : length (pack_body v fs) = (12 + length (frames_bytes fs))%nat.
Proof. unfold pack_body. by rewrite length_app, length_header. Qed.

Lemma length_image v fs : length (pack_image v fs) = (length (pack_body v fs) + 32)%nat.
Proof. unfold pack_image. by rewrite length_app, arr_length. Qed.

Lemma le_val_slice pos (bs : bytes) :
  (pos + 4 ≤ length bs)%nat → le_bytes 4 (le_val (slice pos 4 bs)) = slice pos 4 bs.
Proof.
  intros H. rewrite <- (slice_length pos 4 bs H) at 1. apply le_bytes_le_val.
Qed.

(** The first twelve bytes of a pack are its header. *)
Lemma header_split bs :
  (12 ≤ length bs)%nat → take 4 bs = MAGIC →
  bs = header_bytes (le_val (slice 4 4 bs)) (le_val (slice ENTRY_COUNT_OFFSET 4 bs)) ++ drop 12 bs.
Proof.
  intros Hl Hm. unfold header_bytes. rewrite !le_val_slice by (unfold ENTRY_COUNT_OFFSET; lia).
  rewrite <- Hm, <- !app_assoc, <- (slice_drop 8 4), <- (slice_drop 4 4). by rewrite take_drop.
Qed.

Lemma validate_pack_header_iff bs v split count :
  validate_pack_header bs = Ok (v, split, count) ↔
  ∃ mid, let body := header_bytes v count ++ mid in
    bs = body ++ arr_bytes (hash body) ∧ split = length body ∧
    (v = VERSION ∨ v = VERSION_V2) ∧ (count <= MAX_ENTRIES)%N ∧ (count * 5 <= lenN mid)%N.
Proof.
  unfold validate_pack_header. split.
  - intros H. inv_ok. injection H as <- <- <-. reflect.
    unfold HEADER_LEN, TRAILER_LEN in *. rename select (_ ≤ length bs)%nat into Hl.
    rename select (take 4 bs = MAGIC) into Hm. rename select (arr_bytes _ = _) into Ht.
    pose proof (header_split bs ltac:(lia) Hm) as Hb.
    set (v := le_val (slice 4 4 bs)) in *. set (c := le_val (slice ENTRY_COUNT_OFFSET 4 bs)) in *.
    set (sp := (length bs - 32)%nat) in *.
    assert (take sp bs = header_bytes v c ++ take (sp - 12) (drop 12 bs)) as Hbody.
    { rewrite Hb at 1. rewrite take_app_ge; rewrite length_header; [done|lia]. }
    exists (take (sp - 12) (drop 12 bs)). cbn zeta. rewrite <- Hbody.
    split_and!; try done.
    + rewrite Ht. by rewrite take_drop.
    + rewrite length_take. lia.
    + rename select (_ * _ <= _)%N into Hc. revert Hc. unfold lenN, ENTRY_FRAME_LEN.
      rewrite !length_take, length_drop. change (N.of_nat (1 + 4)) with 5%N. lia.
  - intros (mid & Hbs & -> & Hv & Hc & Hm). cbn zeta in *.
    set (body := header_bytes v count ++ mid) in *.
    assert (length bs = (length body + 32)%nat) as Hlb by (rewrite Hbs, length_app, arr_length; done).
    assert (12 + length mid = length body)%nat as Hlm by (unfold body; rewrite length_app, length_header; done).
    assert (bs = header_bytes v count ++ mid ++ arr_bytes (hash body)) as Hbs' by (rewrite Hbs; unfold body; by rewrite app_assoc).
    assert (take (length body) bs = body ∧ drop (length body) bs = arr_bytes (hash body)) as [Ht Hd].
    { rewrite Hbs. by rewrite take_app_length, drop_app_length. }
    assert (slice 4 4 bs = le_bytes 4 v) as -> by (rewrite Hbs'; apply header_version).
    assert (slice ENTRY_COUNT_OFFSET 4 bs = le_bytes 4 count) as -> by (rewrite Hbs'; apply header_count).
    assert (take 4 bs = MAGIC) as -> by (rewrite Hbs'; reflexivity).
    rewrite !le_val_le_bytes by (unfold VERSION, VERSION_V2, MAX_ENTRIES in *; cbn; lia).
    unfold TRAILER_LEN, HEADER_LEN, ENTRY_FRAME_LEN.
    replace (length bs - 32)%nat with (length body) by lia. rewrite Ht, Hd.
    rewrite (proj2 (Nat.leb_le _ _)) by lia.
    rewrite (proj2 (bytes_eqb_eq MAGIC MAGIC) eq_refl), (proj2 (bytes_eqb_eq _ _) eq_refl).
    rewrite (proj2 (N.leb_le count _)) by done. rewrite (proj2 (N.leb_le (count * _) _)) by (unfold lenN in Hm; lia).
    assert (((v =? VERSION) || (v =? VERSION_V2))%N = true) as -> by (reflect; done).
    done.
Qed.

(** [new_with_payload_cap] opens exactly the packs of well-formed frames. *)
Lemma open_iff bs cap es :
  (cap < U64_MAX)%N →
  new_with_payload_cap bs cap = Ok es ↔
  ∃ v fs, pack_ok v cap fs ∧ bs = pack_image v fs ∧ es = opened v fs 0 None.
Proof.
  intros Hcap. unfold new_with_payload_cap. split.
  - intros H. inv_ok. destruct x as [[v split] count]. inv_ok. destruct x as [pos fnr]. inv_ok.
    reflect. subst. rename select (validate_pack_header _ = _) into Hh.
    apply validate_pack_header_iff in Hh as (mid & Hbs & Hsp & Hv & Hc & Hm). cbn zeta in *.
    rename select (scan_entries _ _ _ _ _ _ _ _ _ = _) into Hs. subst split.
    assert (length (header_bytes v count ++ mid) = 12 + length mid)%nat as Hl by (by rewrite length_app, length_header).
    apply scan_iff in Hs as (fs & Hn & (Hd & _ & _) & Hok & Hsum & ->);
      [|rewrite Hbs, (length_app _ (arr_bytes _)); lia|unfold HEADER_LEN; lia|lia|done].
    assert (mid = frames_bytes fs) as ->.
    { rewrite Hbs, drop_app_length in Hd. rewrite <- app_assoc, drop_header in Hd.
      by apply app_inv_tail in Hd. }
    assert (count = lenN fs) as -> by (unfold lenN; lia).
    exists v, fs. split; [by split|]. split; [done|]. unfold opened.
    change (header_bytes v (lenN fs) ++ frames_bytes fs) with (pack_body v fs) in *. by rewrite Hbs.
  - intros (v & fs & [Hv Hc Hok Hsum] & -> & ->).
    assert (length (pack_body v fs) ≤ length (pack_image v fs))%nat as Hle by (rewrite length_image; lia).
    rewrite (proj2 (validate_pack_header_iff _ v (length (pack_body v fs)) (lenN fs))).
    2: { exists (frames_bytes fs). split_and!; try done. pose proof (payload_sum_length fs) as Hps.
         change (N.of_nat (length (frames_bytes fs))) with (lenN (frames_bytes fs)) in Hps. lia. }
    cbn [mbind result_bind]. replace (N.to_nat (lenN fs)) with (length fs) by (unfold lenN; lia).
    assert (scan_entries (pack_image v fs) v (length (pack_body v fs)) cap (length fs) 0 HEADER_LEN 0 None
      = Ok (length (pack_body v fs), first_not_raw 0 fs)) as ->.
    { apply (scan_iff _ _ _ _ _ _ _ _ None); [done|rewrite length_body; unfold HEADER_LEN; lia|lia|done|].
      exists fs. split; [done|]. split; [|by rewrite N.add_0_l].
      unfold frames_lie. rewrite length_body. split_and!; [|done|done].
      unfold pack_image, pack_body at 1. rewrite <- app_assoc, drop_header.
      f_equal. by rewrite <- (length_body v fs), drop_app_length. }
    simpl. by rewrite (proj2 (Nat.eqb_eq _ _)).
Qed.

(** ** Iterating *)

Definition decode_frame (v : N) (f : frame) : result PackError PackEntry :=
  decode_payload (fr_type f) v (fr_payload f).

(** Where the payload of the frame [k] lies. *)
Definition payload_range (fs : list frame) (k : nat) : nat * nat :=
  (HEADER_LEN + length (frames_bytes (take k fs)) + ENTRY_FRAME_LEN,
   HEADER_LEN + length (frames_bytes (take (S k) fs)))%nat.

Lemma take_S_frames fs k f :
  fs !! k = Some f → frames_bytes (take (S k) fs) = frames_bytes (take k fs) ++ frame_bytes f.
Proof.
  intros H. rewrite (take_S_r _ _ _ H), frames_bytes_app. by rewrite frames_bytes_cons, app_nil_r.
Qed.

Lemma frame_lies_image v fs k f :
  fs !! k = Some f → (lenN (fr_payload f) <= U32_MAX)%N →
  frame_lies (pack_image v fs) (length (pack_body v fs)) (HEADER_LEN + length (frames_bytes (take k fs))) f.
Proof.
  intros Hk Hu. pose proof (take_S_frames fs k f Hk) as Hs.
  assert (fs = take (S k) fs ++ drop (S k) fs) as Hfs by (by rewrite take_drop).
  assert (frames_bytes fs = frames_bytes (take k fs) ++ frame_bytes f ++ frames_bytes (drop (S k) fs)) as Hb.
  { rewrite Hfs at 1. by rewrite frames_bytes_app, Hs, <- app_assoc. }
  split; [done|]. split.
  - unfold pack_image, pack_body at 1 3. rewrite <- !app_assoc.
    rewrite <- !drop_drop, !drop_header, Hb, <- !app_assoc, !drop_app_length. done.
  - rewrite length_body, Hb, !length_app. change HEADER_LEN with 12. lia.
Qed.

Lemma next_encoded_opened v fs k f r :
  fs !! k = Some f → (lenN (fr_payload f) <= U32_MAX)%N →
  next_encoded_entry (opened v fs k r) =
    (encoded_payload (fr_type f) v (fr_payload f), opened v fs (S k) (Some (payload_range fs k))).
Proof.
  intros Hk Hu. pose proof (frame_lies_image v fs k f Hk Hu) as Hl.
  assert (length (pack_body v fs) ≤ length (pack_image v fs))%nat as Hle by (rewrite length_image; lia).
  destruct (proj2 (frame_at_iff _ _ (HEADER_LEN + length (frames_bytes (take k fs))) (fr_type f)
    (lenN (fr_payload f)) (HEADER_LEN + length (frames_bytes (take k fs)) + 5) Hle)) as [Hf Hp]; [by exists f|].
  unfold next_encoded_entry. cbn [opened pe_bytes pe_split pe_pos]. rewrite Hf, Hp.
  assert (N.to_nat (lenN (fr_payload f)) = length (fr_payload f)) as -> by (unfold lenN; lia).
  assert (slice (HEADER_LEN + length (frames_bytes (take k fs)) + 5) (length (fr_payload f)) (pack_image v fs)
    = fr_payload f) as ->.
  { destruct Hl as (_ & Hd & _). eapply slice_app. rewrite <- drop_drop, Hd. unfold frame_bytes at 1.
    cbn [app]. rewrite <- app_assoc. rewrite (app_comm_cons (le_bytes 4 _)).
    assert (length (fr_type f :: le_bytes 4 (lenN (fr_payload f))) = 5) as <- by (cbn; by rewrite ?length_le_bytes).
    by rewrite drop_app_length. }
  f_equal. unfold opened, pe_move. cbn. f_equal; [|lia|].
  - rewrite (take_S_frames fs k f Hk), length_app, length_frame. unfold HEADER_LEN. lia.
  - unfold payload_range, ENTRY_FRAME_LEN. rewrite (take_S_frames fs k f Hk), length_app, length_frame.
    do 2 f_equal. unfold HEADER_LEN. lia.
Qed.

(** The slice of a range is the payload of its frame. *)
Lemma slice_payload v fs k f :
  fs !! k = Some f → (lenN (fr_payload f) <= U32_MAX)%N →
  slice (payload_range fs k).1 ((payload_range fs k).2 - (payload_range fs k).1) (pack_image v fs) = fr_payload f.
Proof.
  intros Hk Hu. destruct (frame_lies_image v fs k f Hk Hu) as (_ & Hd & _).
  unfold payload_range. cbn [fst snd]. rewrite (take_S_frames fs k f Hk), length_app, length_frame.
  change ENTRY_FRAME_LEN with 5. set (q := (HEADER_LEN + length (frames_bytes (take k fs)))%nat) in *.
  replace (HEADER_LEN + (length (frames_bytes (take k fs)) + (5 + length (fr_payload f))) - (q + 5))%nat
    with (length (fr_payload f)) by (unfold q; lia).
  eapply slice_app. rewrite <- drop_drop, Hd. unfold frame_bytes at 1.
  cbn [app]. rewrite <- app_assoc, (app_comm_cons (le_bytes 4 _)).
  assert (length (fr_type f :: le_bytes 4 (lenN (fr_payload f))) = 5) as <- by (cbn; by rewrite ?length_le_bytes).
  by rewrite drop_app_length.
Qed.

(** What the iterator yields until it is done. *)
Fixpoint drain (fuel : nat) (es : PackEntries) : list (result PackError PackEntry) :=
  match fuel with
  | 0 => []
  | S fuel => match next es with (None, _) => [] | (Some r, es) => r :: drain fuel es end
  end.

(** Up to the first error, that included. *)
Fixpoint through_err {A} (l : list (result PackError A)) : list (result PackError A) :=
  match l with
  | [] => []
  | Ok a :: l => Ok a :: through_err l
  | Err e :: _ => [Err e]
  end.

Lemma next_opened v fs k f r :
  fs !! k = Some f → (lenN (fr_payload f) <= U32_MAX)%N →
  let es' := opened v fs (S k) (Some (payload_range fs k)) in
  next (opened v fs k r) =
    match decode_frame v f with
    | Ok e => (Some (Ok e), es')
    | Err e => (Some (Err e), pe_move es' (pe_pos es') (pe_yielded es') (pe_last_payload_range es') true)
    end.
Proof.
  intros Hk Hu es'. unfold next. cbn [opened pe_done pe_count pe_yielded orb].
  assert (k < length fs)%nat as Hlt by (by eapply lookup_lt_Some).
  destruct (N.leb_spec (lenN fs) (N.of_nat k)); [unfold lenN in *; lia|].
  unfold next_entry. rewrite (next_encoded_opened v fs k f r Hk Hu).
  unfold decode_frame, decode_payload. destruct (encoded_payload _ _ _) as [en|e]; [|done].
  cbn [mbind result_bind]. by destruct (decode_encoded_payload en).
Qed.

Lemma drain_done fuel es : pe_done es = true → drain fuel es = [].
Proof. intros H. destruct fuel; [done|]. cbn. unfold next. by rewrite H. Qed.

Lemma drain_opened v fs k fuel r :
  Forall (λ f, lenN (fr_payload f) <= U32_MAX)%N fs → (length fs - k < fuel)%nat →
  drain fuel (opened v fs k r) = through_err (map (decode_frame v) (drop k fs)).
Proof.
  intros Hu. revert k r. induction fuel as [|fuel IH]; intros k r Hf; [lia|]. cbn [drain].
  destruct (fs !! k) as [f|] eqn:Hk.
  - assert (lenN (fr_payload f) <= U32_MAX)%N as Huf by (by eapply list.Forall_lookup_1 in Hu).
    rewrite (next_opened v fs k f r Hk Huf), (drop_S _ _ _ Hk). cbn [map through_err].
    apply lookup_lt_Some in Hk. destruct (decode_frame v f); f_equal.
    + apply IH. lia.
    + by apply drain_done.
  - apply lookup_ge_None in Hk. unfold next. cbn [opened pe_done pe_count pe_yielded orb].
    destruct (N.leb_spec (lenN fs) (N.of_nat k)); [|unfold lenN in *; lia]. by rewrite drop_ge.
Qed.
End reader.

(** ** Writing a pack *)

Inductive item :=
  | IRaw (h : hash32) (bs : bytes)
  | IDelta (base : hash32) (stream : bytes).

Definition item_entry (i : item) : PackEntry :=
  match i with IRaw _ bs => PRaw bs | IDelta base s => PDelta base s end.

(** The length of its payload without compression. *)
Definition item_len (i : item) : N :=
  match i with IRaw _ bs => lenN bs | IDelta _ s => 32 + lenN s end.

Definition item_raw (i : item) : bool := match i with IRaw _ _ => true | IDelta _ _ => false end.

Definition is_compressed (f : frame) : bool := bool_decide (fr_type f = Byte.x03 ∨ fr_type f = Byte.x04).
Definition any_compressed (fs : list frame) : bool := existsb is_compressed fs.
Definition version_of (fs : list frame) : N := if any_compressed fs then VERSION_V2 else VERSION.

Section writer.
Context `{B : Blake3, Z : Zstd}.

Definition push_item (i : item) : W unit :=
  match i with
  | IRaw h bs => _ ← push_raw h bs; mret tt
  | IDelta base s => push_delta base s
  end.

Fixpoint push_items (its : list item) : W unit :=
  match its with [] => mret tt | i :: its => _ ← push_item i; push_items its end.

(** The frame of an item: the policy of the writer. *)
Definition item_frame (raw_only : bool) (i : item) : frame :=
  match i with
  | IRaw _ bs =>
      match (if raw_only then None else maybe_compress bs) with
      | Some c => {| fr_type := Byte.x03; fr_payload := le_bytes 4 (lenN bs) ++ c |}
      | None => {| fr_type := Byte.x00; fr_payload := bs |}
      end
  | IDelta base s =>
      match maybe_compress s with
      | Some c => {| fr_type := Byte.x04; fr_payload := arr_bytes base ++ le_bytes 4 (lenN s) ++ c |}
      | None => {| fr_type := Byte.x02; fr_payload := arr_bytes base ++ s |}
      end
  end.

(** The state of a writer that has written some frames and has never failed. *)
Definition written (ro : bool) (fs : list frame) : PackWriter :=
  {| pw_buf := header_bytes VERSION 0 ++ frames_bytes fs; pw_entry_count := lenN fs;
     pw_total_payload := payload_sum fs; pw_has_compressed_entry := any_compressed fs;
     pw_raw_only := ro |}.

(** What the writer checks before it takes an item. *)
Definition item_fits (ro : bool) (fs : list frame) (i : item) : Prop :=
  let n := lenN (fr_payload (item_frame ro i)) in
  (lenN fs < MAX_ENTRIES)%N ∧ (payload_sum fs + n <= MAX_TOTAL_PAYLOAD)%N ∧ (n <= U32_MAX)%N ∧
  (ro = true → item_raw i = true).

(** Compression only shrinks a payload. *)
Lemma item_frame_len ro i : (lenN (fr_payload (item_frame ro i)) <= item_len i)%N.
Proof.
  assert (Hc : ∀ d c, maybe_compress d = Some c → (4 + lenN c < lenN d)%N).
  { intros d c H. by apply maybe_compress_Some in H as (_ & _ & H). }
  destruct i as [h bs|base s]; cbn [item_frame item_len].
  - destruct (if ro then None else maybe_compress bs) as [c|] eqn:E; cbn [fr_payload]; [|done].
    destruct ro; [done|]. apply Hc in E. rewrite lenN_app. unfold lenN at 1. rewrite length_le_bytes. lia.
  - destruct (maybe_compress s) as [c|] eqn:E; cbn [fr_payload]; rewrite !lenN_app, lenN_arr; [|lia].
    apply Hc in E. unfold lenN at 1. rewrite length_le_bytes. lia.
Qed.

Lemma any_compressed_app fs gs : any_compressed (fs ++ gs) = any_compressed fs || any_compressed gs.
Proof. apply existsb_app. Qed.

Lemma written_snoc ro fs f :
  written ro (fs ++ [f]) =
  {| pw_buf := pw_buf (written ro fs) ++ frame_bytes f; pw_entry_count := lenN fs + 1;
     pw_total_payload := payload_sum fs + lenN (fr_payload f);
     pw_has_compressed_entry := any_compressed fs || is_compressed f; pw_raw_only := ro |}.
Proof.
  unfold written. cbn [pw_buf]. rewrite frames_bytes_app, lenN_app, payload_sum_app, any_compressed_app, <- app_assoc.
  unfold any_compressed at 2. cbn [existsb]. rewrite orb_false_r, frames_bytes_cons, app_nil_r, payload_sum_cons.
  f_equal. cbn. lia.
Qed.

(** One push: the frame is appended, or the cap that refuses it is named. *)
Lemma check_caps_written ro fs n :
  (payload_sum fs + n <= U64_MAX)%N →
  check_caps_for n (written ro fs) =
    (if (MAX_ENTRIES <=? lenN fs)%N then Err (TooManyObjects (MAX_ENTRIES + 1))
     else if (MAX_TOTAL_PAYLOAD <? payload_sum fs + n)%N then Err PackfileTooLarge else Ok tt,
     written ro fs).
Proof.
  intros Hn. unfold check_caps_for. cbn [written pw_entry_count pw_total_payload].
  rewrite N.min_l by done.
  destruct (N.ltb_spec MAX_ENTRIES (lenN fs + 1)), (N.leb_spec MAX_ENTRIES (lenN fs)); try lia; [done|].
  by destruct (_ <? _)%N.
Qed.

(** The caps let a payload through, and it is appended. *)
Lemma caps_pass ro fs n :
  (lenN fs < MAX_ENTRIES)%N → (payload_sum fs + n <= MAX_TOTAL_PAYLOAD)%N →
  check_caps_for n (written ro fs) = (Ok tt, written ro fs).
Proof.
  intros Hc Hs. rewrite check_caps_written by (unfold MAX_TOTAL_PAYLOAD, U64_MAX in *; lia).
  rewrite (proj2 (N.leb_gt _ _)) by done. by rewrite (proj2 (N.ltb_ge _ _)) by done.
Qed.

Lemma append_ok t parts w :
  (lenN (concat parts) <= U32_MAX)%N →
  append_entry t parts w =
    (Ok tt, set_buf (pw_buf w ++ frame_bytes {| fr_type := t; fr_payload := concat parts |}) w).
Proof. intros H. unfold append_entry. by rewrite (proj2 (N.ltb_ge _ _)) by done. Qed.

(** Run the steps of a push. *)
Ltac run_push := 
  unfold mbind, PM_bind, pm_lift, pm_modify, mret, PM_ret; cbn [ensure];
  rewrite ?caps_pass by done; cbn [concat app] in *;
  rewrite append_ok by (cbn [concat app]; rewrite ?app_nil_r; done);
  unfold count_entry, set_compressed, set_buf, add_payload, written; cbn;
  rewrite ?app_nil_r, ?orb_true_r, ?orb_false_r; try done.

Lemma push_fits ro fs i :
  item_fits ro fs i → push_item i (written ro fs) = (Ok tt, written ro (fs ++ [item_frame ro i])).
Proof.
  intros (Hc & Hs & Hu & Hr). rewrite written_snoc.
  assert (Hl : ∀ d c, maybe_compress d = Some c → ensure (lenN d <=? U32_MAX)%N PackfileTooLarge = Ok tt).
  { intros d c (_ & [_ Hd] & _)%maybe_compress_Some. unfold ensure.
    rewrite (proj2 (N.leb_le _ _)); [done|]. unfold MAX_RAW_OBJECT_SIZE, U32_MAX in *. lia. }
  destruct i as [h bs|base s]; cbn [push_item item_frame] in *.
  - change (push_raw h bs ≫= _) with
      (λ w, (append_raw_frame h bs (if pw_raw_only w then None else maybe_compress bs) ≫= (λ _, mret tt)) w).
    cbn [written pw_raw_only]. unfold append_raw_frame.
    destruct (if ro then None else maybe_compress bs) as [c|] eqn:E; cbn [fr_payload] in *.
    + destruct ro; [done|]. rewrite (Hl _ _ E). 
      replace (N.of_nat ZSTD_LEN_PREFIX + lenN c)%N with (lenN (le_bytes 4 (lenN bs) ++ c))
        by (rewrite lenN_app; unfold lenN; by rewrite length_le_bytes).
      run_push.
    + run_push.
  - destruct ro; [by specialize (Hr eq_refl)|].
    unfold push_delta, append_delta_frame. cbn [written pw_raw_only].
    destruct (maybe_compress s) as [c|] eqn:E; cbn [fr_payload] in *.
    + rewrite (Hl _ _ E).
      replace (N.of_nat HASH_LEN + N.of_nat ZSTD_LEN_PREFIX + lenN c)%N
        with (lenN (arr_bytes base ++ le_bytes 4 (lenN s) ++ c))
        by (rewrite !lenN_app, lenN_arr; change (lenN (le_bytes 4 (lenN s))) with 4%N;
            unfold HASH_LEN, ZSTD_LEN_PREFIX; lia).
      run_push.
    + replace (N.of_nat HASH_LEN + lenN s)%N with (lenN (arr_bytes base ++ s)) by (by rewrite lenN_app, lenN_arr).
      run_push.
Qed.

Lemma PM_bind_Ok {S A C} (m : PM S A) (f : A → PM S C) w c w'' :
  (m ≫= f) w = (Ok c, w'') → ∃ a w', m w = (Ok a, w') ∧ f a w' = (Ok c, w'').
Proof. unfold mbind, PM_bind. destruct (m w) as [[a|e] w'] eqn:E; [|done]. eauto. Qed.

Lemma check_caps_Ok n ro fs u w' :
  check_caps_for n (written ro fs) = (Ok u, w') →
  (lenN fs < MAX_ENTRIES)%N ∧ (payload_sum fs + n <= MAX_TOTAL_PAYLOAD)%N ∧ w' = written ro fs.
Proof.
  unfold check_caps_for. cbn [written pw_entry_count pw_total_payload].
  destruct (N.ltb_spec MAX_ENTRIES (lenN fs + 1)); [done|].
  destruct (N.ltb_spec MAX_TOTAL_PAYLOAD (N.min (payload_sum fs + n) U64_MAX)) as [|Hle]; [done|].
  intros [= _ <-]. unfold MAX_TOTAL_PAYLOAD, U64_MAX in *. split_and!; [lia|lia|done].
Qed.

Lemma append_Ok t parts w u w' : append_entry t parts w = (Ok u, w') → (lenN (concat parts) <= U32_MAX)%N.
Proof. unfold append_entry. by destruct (N.ltb_spec U32_MAX (lenN (concat parts))). Qed.

(** Take apart a push that succeeded. *)
Ltac inv_push :=
  repeat match goal with
  | H : (_ ≫= _) _ = (Ok _, _) |- _ => apply PM_bind_Ok in H as (? & ? & ? & ?)
  | H : check_caps_for _ (written _ _) = (Ok _, _) |- _ => apply check_caps_Ok in H as (? & ? & ->)
  | H : pm_lift _ _ = (Ok _, _) |- _ => injection H as ? <-
  | H : append_entry _ _ _ = (Ok _, _) |- _ => apply append_Ok in H; cbn [concat] in H; rewrite ?app_nil_r in H
  end.

(** [push_raw] and [push_delta] take exactly the items that fit. *)
Lemma push_item_iff ro fs i w' :
  push_item i (written ro fs) = (Ok tt, w') ↔ item_fits ro fs i ∧ w' = written ro (fs ++ [item_frame ro i]).
Proof.
  split; [|by intros [H ->]; apply push_fits].
  intros H. assert (item_fits ro fs i) as Hf; [|split; [done|]; rewrite (push_fits _ _ _ Hf) in H; congruence].
  destruct i as [h bs|base s]; cbn [push_item] in H; unfold item_fits; cbn [item_frame item_raw].
  - apply PM_bind_Ok in H as (a & w & H & _). unfold push_raw, append_raw_frame in H.
    cbn [written pw_raw_only] in H. change (Build_PackWriter _ _ _ _ _) with (written ro fs) in H.
    destruct (if ro then None else maybe_compress bs) as [c|]; inv_push; cbn [fr_payload];
      [|by split_and!].
    assert (lenN (le_bytes 4 (lenN bs) ++ c) = 4 + lenN c)%N as Hl by (by rewrite lenN_app).
    rewrite Hl in *. by split_and!.
  - unfold push_delta in H. cbn [written pw_raw_only] in H. destruct ro; [done|].
    change (Build_PackWriter _ _ _ _ _) with (written false fs) in H. unfold append_delta_frame in H.
    destruct (maybe_compress s) as [c|]; inv_push; cbn [fr_payload].
    + assert (lenN (arr_bytes base ++ le_bytes 4 (lenN s) ++ c) = 32 + 4 + lenN c)%N as Hl.
      { rewrite !lenN_app, lenN_arr. change (lenN (le_bytes 4 (lenN s))) with 4%N. lia. }
      rewrite Hl in *. by split_and!.
    + rewrite !lenN_app, !lenN_arr in *. by split_and!.
Qed.

(** An item that fits without compression fits. *)
Lemma small_fits ro fs i :
  (lenN fs < MAX_ENTRIES)%N → (payload_sum fs + item_len i <= MAX_TOTAL_PAYLOAD)%N →
  (item_len i <= U32_MAX)%N → (ro = true → item_raw i = true) → item_fits ro fs i.
Proof. intros. pose proof (item_frame_len ro i). split_and!; (done || lia). Qed.

(** ** What the writer has written is well formed *)

Lemma base_len (base : hash32) k : (N.of_nat HASH_LEN <= lenN (arr_bytes base ++ k))%N.
Proof. rewrite lenN_app, lenN_arr. unfold HASH_LEN. lia. Qed.

Lemma item_frame_ok ro i v :
  (lenN (fr_payload (item_frame ro i)) <= U32_MAX)%N →
  (is_compressed (item_frame ro i) = true → v = VERSION_V2) → frame_ok v (item_frame ro i).
Proof.
  intros Hu Hv. split; [done|]. destruct i as [h bs|base s]; cbn [item_frame] in *.
  - destruct (if ro then None else maybe_compress bs) as [c|]; cbn in *; [|done].
    by rewrite Hv.
  - destruct (maybe_compress s) as [c|]; cbn [fr_type fr_payload] in *.
    + rewrite Hv by done. cbn [entry_type_raw]. by rewrite (proj2 (N.leb_le _ _) (base_len base _)).
    + cbn [entry_type_raw]. by rewrite (proj2 (N.leb_le _ _) (base_len base _)).
Qed.

(** The frames of items that all fitted. *)
Inductive fitting (ro : bool) : list item → list frame → Prop :=
  | fitting_nil : fitting ro [] []
  | fitting_snoc its fs i : fitting ro its fs → item_fits ro fs i →
      fitting ro (its ++ [i]) (fs ++ [item_frame ro i]).

Lemma fitting_frames ro its fs : fitting ro its fs → fs = map (item_frame ro) its.
Proof. induction 1 as [|its fs i _ -> _]; [done|]. by rewrite map_app. Qed.

Lemma fitting_ok ro its fs : fitting ro its fs → pack_ok (version_of fs) MAX_TOTAL_PAYLOAD fs.
Proof.
  intros H. split.
  - unfold version_of. destruct (any_compressed fs); auto.
  - destruct H as [|its fs i H (Hc & _)]; [done|]. rewrite lenN_app, lenN_cons, lenN_nil. lia.
  - rewrite (fitting_frames _ _ _ H). apply list.Forall_forall. intros f Hf.
    assert (is_compressed f = true → version_of fs = VERSION_V2) as Hv.
    { intros Hcf. unfold version_of, any_compressed. rewrite (proj2 (existsb_exists _ _)); [done|].
      exists f. rewrite (fitting_frames _ _ _ H). split; [by apply list_elem_of_In|done]. }
    rewrite <- (fitting_frames _ _ _ H). apply list_elem_of_fmap in Hf as (i & -> & Hi).
    apply item_frame_ok; [|done]. clear Hv. induction H as [|its fs j H IH (_ & _ & Hu & _)]; [by apply not_elem_of_nil in Hi|].
    apply elem_of_app in Hi as [Hi| ->%list_elem_of_singleton]; auto.
  - destruct H as [|its fs i H (_ & Hs & _)]; [done|]. rewrite payload_sum_app, payload_sum_cons.
    cbn [payload_sum foldr]. lia.
Qed.

Lemma push_items_written ro past fs its w' :
  fitting ro past fs → push_items its (written ro fs) = (Ok tt, w') →
  ∃ fs', fitting ro (past ++ its) fs' ∧ w' = written ro fs'.
Proof.
  revert past fs. induction its as [|i its IH]; intros past fs Hf H; cbn [push_items] in H.
  - injection H as <-. rewrite app_nil_r. eauto.
  - apply PM_bind_Ok in H as ([] & w1 & [Hi ->]%push_item_iff & H).
    rewrite (cons_middle i past its), app_assoc. apply (IH (past ++ [i]) (fs ++ [item_frame ro i])); [|done].
    by constructor.
Qed.

Lemma finish_written ro fs :
  (lenN fs <= MAX_ENTRIES)%N → finish (written ro fs) = Ok (pack_image (version_of fs) fs).
Proof.
  intros H. unfold finish. cbn [written pw_entry_count pw_has_compressed_entry pw_buf].
  by rewrite (proj2 (N.leb_le _ _)) by done.
Qed.

(** A frame of the writer decodes to its item. *)
Lemma decode_item_frame `{L : !ZstdCorrect} ro i v :
  (is_compressed (item_frame ro i) = true → v = VERSION_V2) →
  decode_frame v (item_frame ro i) = Ok (item_entry i).
Proof.
  intros Hv. unfold decode_frame, decode_payload. destruct i as [h bs|base s]; cbn [item_frame item_entry] in *.
  - destruct (if ro then None else maybe_compress bs) as [c|] eqn:E; [|done].
    rewrite Hv by done. destruct ro; [done|]. cbn -[decompress_zstd_entry le_bytes].
    by rewrite (decompress_compressed bs c E).
  - assert (Hb : ∀ k, (HASH_LEN <=? length (arr_bytes base ++ k)) = true ∧
      arr_of 32 (take HASH_LEN (arr_bytes base ++ k)) = base ∧ drop HASH_LEN (arr_bytes base ++ k) = k).
    { intros k. unfold HASH_LEN. rewrite length_app, arr_length.
      rewrite take_app_length', drop_app_length' by (symmetry; apply arr_length).
      rewrite arr_of_bytes. split; [apply Nat.leb_le; lia|done]. }
    destruct (maybe_compress s) as [c|] eqn:E.
    + rewrite Hv by done. destruct (Hb (le_bytes 4 (lenN s) ++ c)) as (H1 & H2 & H3).
      cbn [fr_type fr_payload encoded_payload]. change (VERSION_V2 =? VERSION_V2)%N with true.
      rewrite H1. cbn [ensure mbind result_bind]. rewrite H2, H3. cbn -[decompress_zstd_entry le_bytes].
      by rewrite (decompress_compressed s c E).
    + destruct (Hb s) as (H1 & H2 & H3). cbn [fr_type fr_payload encoded_payload].
      rewrite H1. cbn [ensure mbind result_bind]. by rewrite H2, H3.
Qed.

Lemma compressed_version fs f : f ∈ fs → is_compressed f = true → version_of fs = VERSION_V2.
Proof.
  intros Hf Hc. unfold version_of, any_compressed. rewrite (proj2 (existsb_exists _ _)); [done|].
  exists f. split; [by apply list_elem_of_In|done].
Qed.

Lemma through_err_Ok {A} (l : list A) : through_err (map Ok l) = map Ok l.
Proof. induction l as [|a l IH]; [done|]. cbn. by rewrite IH. Qed.

Lemma fitting_decode `{L : !ZstdCorrect} ro its fs :
  fitting ro its fs → map (decode_frame (version_of fs)) fs = map Ok (map item_entry its).
Proof.
  intros H. rewrite map_map. rewrite (fitting_frames _ _ _ H) at 2. rewrite map_map.
  apply map_ext_in. intros i Hi. apply decode_item_frame. apply compressed_version.
  rewrite (fitting_frames _ _ _ H). apply list_elem_of_In, in_map, Hi.
Qed.

Lemma raw_frames its i : first_not_raw i (map (item_frame true) its) = None ∨ ∃ j, j ∈ its ∧ item_raw j = false.
Proof.
  revert i. induction its as [|j its IH]; intros i; [by left|].
  destruct j as [h bs|base s]; [|right; by exists (IDelta base s); split; [left|]].
  cbn. destruct (IH (i + 1)%N) as [?|(j & ? & ?)]; [by left|right]. exists j. by split; [right|].
Qed.

Lemma fitting_raw its fs : fitting true its fs → first_not_raw 0 fs = None.
Proof.
  intros H. rewrite (fitting_frames _ _ _ H). destruct (raw_frames its 0) as [?|(j & Hj & Hr)]; [done|].
  exfalso. clear -H Hj Hr. induction H as [|its fs i H IH (_ & _ & _ & Hi)]; [by apply not_elem_of_nil in Hj|].
  apply elem_of_app in Hj as [Hj| ->%list_elem_of_singleton]; [by apply IH|]. by rewrite Hi in Hr.
Qed.

(** What a writer that took all its items finishes opens, and holds those items. *)
Lemma fitting_finish `{L : !ZstdCorrect} ro its fs :
  fitting ro its fs →
  ∃ pack, finish (written ro fs) = Ok pack ∧ pack = pack_image (version_of fs) fs ∧
    PackEntries_new pack = Ok (opened (version_of fs) fs 0 None) ∧
    (∀ fuel, (length its < fuel)%nat → drain fuel (opened (version_of fs) fs 0 None) = map Ok (map item_entry its)).
Proof.
  intros H. pose proof (fitting_ok ro its fs H) as Hok. eexists. split; [apply finish_written, Hok|].
  split; [done|]. split.
  - apply (open_iff _ MAX_TOTAL_PAYLOAD); [done|]. eauto.
  - intros fuel Hf. rewrite drain_opened.
    + rewrite drop_0, (fitting_decode ro its fs H). apply through_err_Ok.
    + eapply list.Forall_impl; [apply Hok|]. by intros f [? _].
    + rewrite (fitting_frames _ _ _ H), length_map. lia.
Qed.

(** C35: packing is lossless. For every run of pushes that the writer accepts, raw objects and
    deltas in any order and compressed as the policy decides, [finish] gives a pack that the
    reader opens, with the same count, and the iterator yields exactly the pushed entries in
    order with their bytes; a raw-only writer's pack is raw-only. *)
Theorem pack_roundtrip `{L : !ZstdCorrect} (ro : bool) (its : list item) (w : PackWriter)
    (Hpush : push_items its (if ro then new_raw_only else PackWriter_new) = (Ok tt, w)) :
  ∃ pack es, finish w = Ok pack ∧ PackEntries_new pack = Ok es ∧ entry_count es = lenN its ∧
    (∀ fuel, (length its < fuel)%nat → drain fuel es = map Ok (map item_entry its)) ∧
    (ro = true → is_raw_only es = true).
Proof.
  assert (push_items its (written ro []) = (Ok tt, w)) as Hp by (by destruct ro).
  apply (push_items_written ro [] []) in Hp as (fs & Hf & ->); [|constructor].
  destruct (fitting_finish ro its fs Hf) as (pack & H1 & _ & H2 & H3).
  exists pack, (opened (version_of fs) fs 0 None). split_and!; try done.
  - cbn. rewrite (fitting_frames _ _ _ Hf). unfold lenN. by rewrite length_map.
  - intros ->. cbn. apply bool_decide_eq_true. by apply (fitting_raw its).
Qed.

(** C34: [PackEntries::new] opens a byte string if and only if it is a pack: the magic, one of
    the two versions, the number of frames, frames whose types the version allows and whose
    payloads are within the caps, nothing after them, and the digest of all that. Iterating
    then yields the entries of the frames in order, up to the first that does not decode. *)
Theorem pack_entries_iff (bs : bytes) (es : PackEntries) :
  (PackEntries_new bs = Ok es ↔
    ∃ v fs, pack_ok v MAX_TOTAL_PAYLOAD fs ∧ bs = pack_image v fs ∧ es = opened v fs 0 None) ∧
  (∀ v fs, es = opened v fs 0 None → Forall (frame_ok v) fs →
    ∀ fuel, (length fs < fuel)%nat → drain fuel es = through_err (map (decode_frame v) fs)).
Proof.
  split; [by apply open_iff|]. intros v fs -> Hok fuel Hf. rewrite drain_opened; [done| |lia].
  eapply list.Forall_impl; [exact Hok|]. by intros f [? _].
Qed.

(** Exactly the items within the caps are taken: fewer than [MAX_ENTRIES] entries, a sum of
    payloads up to [MAX_TOTAL_PAYLOAD], a payload whose length fits its field, and no delta by a
    raw-only writer; the frame that the policy chooses is appended. *)
Theorem push_takes (ro : bool) (fs : list frame) (i : item) (w' : PackWriter) :
  push_item i (written ro fs) = (Ok tt, w') ↔
  item_fits ro fs i ∧ w' = written ro (fs ++ [item_frame ro i]).
Proof. apply push_item_iff. Qed.

(** A payload of exactly 4 GiB passes the cap on the sum and is then refused for its length
    field, but its length stays counted: the writer takes no further payload. *)
Lemma four_gib_charged h bs :
  lenN bs = MAX_TOTAL_PAYLOAD → maybe_compress bs = None →
  push_raw h bs PackWriter_new = (Err PackfileTooLarge, add_payload MAX_TOTAL_PAYLOAD PackWriter_new).
Proof.
  intros Hl Hc. unfold push_raw. cbn [pw_raw_only PackWriter_new]. rewrite Hc. unfold append_raw_frame.
  unfold mbind, PM_bind, pm_modify, append_entry, check_caps_for. cbn [concat]. rewrite app_nil_r, Hl. done.
Qed.
End writer.

(** ** The bases of a pack *)

Definition frame_base (f : frame) : option hash32 :=
  if bool_decide (fr_type f = Byte.x02 ∨ fr_type f = Byte.x04)
  then Some (arr_of 32 (take 32 (fr_payload f))) else None.

(** Each base once, where it first occurs. *)
Fixpoint first_uses (seen : gset hash32) (hs : list hash32) : list hash32 :=
  match hs with
  | [] => []
  | h :: hs => if bool_decide (h ∈ seen) then first_uses seen hs else h :: first_uses ({[h]} ∪ seen) hs
  end.

Section bases.
Context `{B : Blake3, Z : Zstd}.

Lemma frame_base_len v f b :
  frame_ok v f → frame_base f = Some b → (N.of_nat TRAILER_LEN <=? lenN (fr_payload f))%N = true.
Proof.
  intros [_ Hok] Hb. unfold frame_base in Hb. case_bool_decide as Ht; [|done].
  change TRAILER_LEN with HASH_LEN. destruct Ht as [Ht|Ht]; rewrite Ht in Hok; unfold entry_type_raw in Hok.
  - by destruct (_ <=? _)%N.
  - destruct (v =? VERSION_V2)%N; [|done]. by destruct (_ <=? _)%N.
Qed.

Lemma scan_bases_frames bs split v fs pos seen bases :
  (split ≤ length bs)%nat → Forall (frame_ok v) fs → frames_lie bs split pos split fs →
  scan_bases bs split (length fs) pos seen bases = Ok (bases ++ first_uses seen (omap frame_base fs)).
Proof.
  intros Hs. revert pos seen bases. induction fs as [|f fs IH]; intros pos seen bases Hok Hlie.
  { cbn. by rewrite app_nil_r. }
  apply list.Forall_cons in Hok as [Hf Hok]. apply frames_lie_cons in Hlie as (Hd & Hle & Hlie); [|done].
  destruct (proj2 (frame_at_iff bs split pos (fr_type f) (lenN (fr_payload f)) (pos + 5) Hs)) as [Ha Hp].
  { exists f. split; [|done]. split; [apply Hf|done]. }
  cbn [scan_bases length]. rewrite Ha. cbn [mbind result_bind]. rewrite Hp. cbn [mbind result_bind].
  assert (pos + 5 + N.to_nat (lenN (fr_payload f)) = pos + length (frame_bytes f))%nat as ->.
  { rewrite length_frame. unfold lenN. lia. }
  cbn [omap list_omap]. pose proof (frame_base_len v f) as Hlen. destruct (frame_base f) as [b|] eqn:Eb; unfold frame_base in Eb;
    case_bool_decide as Ht; try done.
  - injection Eb as Eb. rewrite (Hlen b Hf eq_refl). cbn [ensure mbind result_bind].
    assert (arr_of 32 (slice (pos + 5) TRAILER_LEN bs) = b) as ->.
    { rewrite <- Eb. f_equal. unfold slice. rewrite <- drop_drop, Hd. unfold frame_bytes at 1. cbn [app].
      rewrite <- app_assoc, (app_comm_cons (le_bytes 4 _)).
      assert (length (fr_type f :: le_bytes 4 (lenN (fr_payload f))) = 5) as <- by (cbn; by rewrite ?length_le_bytes).
      rewrite drop_app_length, take_app_le; [done|]. specialize (Hlen b Hf eq_refl). reflect.
      unfold TRAILER_LEN, lenN in *. lia. }
    cbn [first_uses]. case_bool_decide; rewrite IH by done; [done|]. by rewrite <- app_assoc.
  - cbn [mbind result_bind]. by rewrite IH.
Qed.

(** [delta_base_hashes] of a pack: the bases of its deltas, each once, in order. *)
Lemma delta_base_hashes_pack v cap fs :
  pack_ok v cap fs → delta_base_hashes (pack_image v fs) = Ok (first_uses ∅ (omap frame_base fs)).
Proof.
  intros [Hv Hc Hok _]. unfold delta_base_hashes.
  pose proof (length_body v fs) as Hlb. pose proof (length_image v fs) as Hli.
  assert (pack_image v fs = header_bytes v (lenN fs) ++ frames_bytes fs ++ arr_bytes (hash (pack_body v fs))) as Hi.
  { unfold pack_image. by rewrite (app_assoc (header_bytes _ _)). }
  rewrite (proj2 (Nat.leb_le _ _)) by (unfold HEADER_LEN, TRAILER_LEN; lia).
  assert (take 4 (pack_image v fs) = MAGIC) as -> by (rewrite Hi; reflexivity).
  assert (slice 4 4 (pack_image v fs) = le_bytes 4 v) as -> by (rewrite Hi; apply header_version).
  assert (slice ENTRY_COUNT_OFFSET 4 (pack_image v fs) = le_bytes 4 (lenN fs)) as -> by (rewrite Hi; apply header_count).
  rewrite !le_val_le_bytes by (unfold VERSION, VERSION_V2, MAX_ENTRIES in *; cbn; lia).
  rewrite (proj2 (bytes_eqb_eq MAGIC MAGIC) eq_refl), (proj2 (N.leb_le (lenN fs) _)) by done.
  assert (((v =? VERSION) || (v =? VERSION_V2))%N = true) as -> by (reflect; done).
  cbn [ensure mbind result_bind]. unfold TRAILER_LEN.
  replace (length (pack_image v fs) - 32)%nat with (length (pack_body v fs)) by lia.
  replace (N.to_nat (lenN fs)) with (length fs) by (unfold lenN; lia).
  rewrite (scan_bases_frames _ _ v); [done|lia|done|].
  unfold frames_lie. rewrite Hlb. split_and!; [|done|done]. rewrite Hi, drop_header. f_equal.
  rewrite <- Hlb, <- Hi. unfold pack_image. by rewrite drop_app_length.
Qed.
End bases.

(** ** Witnesses *)

Import Toy ToyZstd.

Definition ex_items : list item :=
  [IRaw ZERO (b# "one"); IRaw ZERO (replicate 64 Byte.x41); IDelta ZERO (b# "copy"); IRaw ZERO []].

(** A compressed entry makes the pack a version 2 pack. *)
Lemma pack_roundtrip_witness :
  ∃ pack es, finish (push_items ex_items PackWriter_new).2 = Ok pack ∧ PackEntries_new pack = Ok es ∧
    entry_count es = 4%N ∧ take 4 (drop 4 pack) = le_bytes 4 2 ∧
    drain 5 es = map Ok (map item_entry ex_items).
Proof.
  destruct (pack_roundtrip false ex_items (push_items ex_items PackWriter_new).2) as
    (pack & es & H1 & H2 & H3 & H4 & _); [vm_compute; reflexivity|].
  exists pack, es. split; [exact H1|]. split; [exact H2|]. split; [exact H3|]. split; [|apply H4; cbn; lia].
  assert (to_option (finish (push_items ex_items PackWriter_new).2) = Some pack) as Hp by (rewrite H1; reflexivity).
  assert (option_map (λ p, take 4 (drop 4 p)) (to_option (finish (push_items ex_items PackWriter_new).2))
    = Some (le_bytes 4 2)) as Hv by (vm_compute; reflexivity).
  rewrite Hp in Hv. injection Hv as Hv. exact Hv.
Defined.
