(* ===== verification/PackDecode.v ===== *)
(** * Decoding packs

    Models the store-less decoder of [rust/crates/mkit-core/src/pack.rs]: the sources of
    external delta bases, the limits and their budget, the cursor that pauses at a missing
    base and resumes, and the decoding of one frame. Running out of memory is not
    modelled. *)

From S2P Require Import Prelude Hash Object Serialize ObjectId Delta Store Messages ZstdFrame Pack.

(** ** Sources of delta bases *)

(** The trait [DeltaBaseSource]. [admission] is the closure that a fetch is admitted by, over the
    state that it captures. *)
Class DeltaBaseSource (S : Type) := {
  VERIFIED : bool;
  ds_base : hash32 → S → result PackError (option bytes) * S;
  base_with_admission {A} : hash32 → (N → A → result PackError unit * A) → A → S →
    result PackError (option bytes) * A * S
}.

(** The method that the trait provides. *)
Definition admit_after {S A} (base : hash32 → S → result PackError (option bytes) * S)
    (id : hash32) (admission : N → A → result PackError unit * A) (a : A) (s : S)
    : result PackError (option bytes) * A * S :=
  let '(r, s) := base id s in
  match r with
  | Ok (Some bs) =>
      match admission (lenN bs) a with
      | (Ok _, a) => (Ok (Some bs), a, s)
      | (Err e, a) => (Err e, a, s)
      end
  | r => (r, a, s)
  end.

Inductive NoExternalBases := no_external_bases.

#[export] Instance NoExternalBases_source : DeltaBaseSource NoExternalBases := {
  VERIFIED := false;
  ds_base id s := (Ok None, s);
  base_with_admission A := admit_after (λ id s, (Ok None, s))
}.

Section store_source.
Context `{B : Blake3}.

(** [ObjectStore::read_with_allocator], with the admission as its allocator. *)
Definition read_with_allocator {A} (st : ObjectStore) (h : hash32) (admission : N → A → result PackError unit * A)
    (a : A) : result PackError bytes * A :=
  match open_object st h with
  | Err e => (Err (PeStore e), a)
  | Ok f =>
      if (MAX_RAW_OBJECT_SIZE <? lenN (fs_bytes f))%N then (Err (PeStore ObjectTooLarge), a)
      else match admission (lenN (fs_bytes f)) a with
           | (Err e, a) => (Err e, a)
           | (Ok _, a) =>
               (match check_hash h (object_id_from_bytes (fs_bytes f)) with
                | Ok _ => Ok (fs_bytes f)
                | Err e => Err (PeStore e)
                end, a)
           end
  end.

#[export] Instance store_base_source : DeltaBaseSource ObjectStore := {
  VERIFIED := true;
  ds_base id st :=
    (if contains st id then bs ← map_err PeStore (read st id); Ok (Some bs) else Ok None, st);
  base_with_admission A id admission a st :=
    if contains st id then
      let '(r, a) := read_with_allocator st id admission a in (Some <$> r, a, st)
    else (Ok None, a, st)
}.
End store_source.

(** ** Limits *)

Record DecodeLimits := {
  max_decoded_bytes : N;
  entry_geometry : option (N * N)
}.

Definition DEFAULT_MAX_DECODED_BYTES : N := MAX_RAW_OBJECT_SIZE.
Definition DecodeLimits_default : DecodeLimits :=
  {| max_decoded_bytes := DEFAULT_MAX_DECODED_BYTES; entry_geometry := None |}.
Definition with_max_decoded_bytes (n : N) (l : DecodeLimits) : DecodeLimits :=
  {| max_decoded_bytes := n; entry_geometry := entry_geometry l |}.
Definition with_entry_geometry (frame delta_stream : N) (l : DecodeLimits) : DecodeLimits :=
  {| max_decoded_bytes := max_decoded_bytes l; entry_geometry := Some (frame, delta_stream) |}.

(** [zstd_claim(payload)?.0], as the decoder uses it. *)
Definition claimed_len (payload : bytes) : result PackError N :=
  match zstd_claim payload with Ok (len, _) => Ok len | Err e => Err (PeZstd e) end.

Definition check_frame (l : DecodeLimits) (kind : byte) (payload : bytes) : result PackError unit :=
  match entry_geometry l with
  | None => Ok tt
  | Some (frame, stream) =>
      let len := lenN payload in
      _ ← ensure (negb ((frame <? len)%N
                  || (bool_decide (kind = Byte.x02) && (N.min (stream + 32) U64_MAX <? len)%N)))
            PackfileTooLarge;
      if bool_decide (kind = Byte.x04) then
        rest ← ok_or (if (32 <=? length payload)%nat then Some (drop 32 payload) else None) DeltaEntryTruncated;
        claim ← claimed_len rest;
        ensure (negb (stream <? claim)%N) PackfileTooLarge
      else Ok tt
  end.

Record DecodeBudget := { db_used : N; db_max : N }.

(** [DecodeBudget::charge]: what was added stays added when it is refused. *)
Definition budget_charge (n : N) (b : DecodeBudget) : result PackError unit * DecodeBudget :=
  let b := {| db_used := N.min (db_used b + n) U64_MAX; db_max := db_max b |} in
  (ensure (negb (db_max b <? db_used b)%N) PackfileTooLarge, b).

(** A charge whose refusal ends the decode with its budget. *)
Definition charge_or (n : N) (b : DecodeBudget) : result PackError DecodeBudget :=
  match budget_charge n b with (Ok _, b) => Ok b | (Err e, _) => Err e end.

Definition le_u32_at (bs : bytes) (pos : nat) : option N :=
  if (pos + 4 <=? length bs)%nat then Some (le_val (slice pos 4 bs)) else None.

(** One round of [charge_compressed_claims]. *)
Definition claims_step (pack : bytes) (split : nat) (st : nat * DecodeBudget)
    : nat * DecodeBudget + result PackError DecodeBudget :=
  let '(pos, budget) := st in
  if (pos <? split)%nat then
    match
      payload_len ← ok_or (le_u32_at pack (pos + 1)) PeUnexpectedEof;
      let start := (pos + ENTRY_FRAME_LEN)%nat in
      _ ← ensure (payload_len <=? N.of_nat (split - start))%N PeUnexpectedEof;
      let payload := slice start (N.to_nat payload_len) pack in
      budget ← match (match nth pos pack Byte.x00 with
                      | Byte.x03 => le_u32_at payload 0
                      | Byte.x04 => le_u32_at payload HASH_LEN
                      | _ => None
                      end) with
               | Some claim => charge_or claim budget
               | None => Ok budget
               end;
      Ok ((start + N.to_nat payload_len)%nat, budget)
    with
    | Ok st => inl st
    | Err e => inr (Err e)
    end
  else inr (Ok budget).

(** A round takes at least the header of a frame, so the length of the pack is fuel enough. *)
Definition charge_compressed_claims (pack : bytes) (budget : DecodeBudget) : result PackError DecodeBudget :=
  default (Err PeUnexpectedEof)
    (loop (S (length pack)) (claims_step pack (length pack - TRAILER_LEN)) (HEADER_LEN, budget)).

(** ** Resolving *)

Definition validate_storable_object (bs : bytes) : result PackError Object :=
  _ ← ensure (lenN bs <=? MAX_RAW_OBJECT_SIZE)%N (PeStore ObjectTooLarge);
  obj ← map_err InvalidObject (deserialize bs);
  match obj with
  | ODelta _ => Err NonStorableObject
  | obj => Ok obj
  end.

Definition validate_delta_result_size (stream : bytes) : result PackError N :=
  _ ← ensure (Delta.HEADER_LEN <=? length stream)%nat (DeltaApply UnexpectedEof);
  let result_len := le_val (slice 5 4 stream) in
  _ ← ensure (result_len <=? MAX_RAW_OBJECT_SIZE)%N (PeStore ObjectTooLarge);
  Ok result_len.

(** [delta::decode]; its loop always ends. *)
Definition delta_decode (base stream : bytes) : result PackError bytes :=
  map_err DeltaApply (default (Err UnexpectedEof) (Delta.decode base stream)).

Section decode.
Context `{B : Blake3, Z : Zstd}.

Definition external_base_matches (verified : bool) (bs : bytes) (id : hash32) : result PackError bool :=
  if verified then _ ← validate_storable_object bs; Ok true
  else Ok (match validate_storable_object bs with
           | Ok obj => bool_decide (id_from_object obj bs = id)
           | Err _ => false
           end).

(** [external_base] over any source, its [base] given. *)
Definition external_base {X} (verified : bool) (base : hash32 → X → result PackError (option bytes) * X)
    (id : hash32) (x : X) : result PackError (option bytes) * X :=
  let '(r, x) := base id x in
  (match r with
   | Err e => Err e
   | Ok None => Ok None
   | Ok (Some bs) =>
       m ← external_base_matches verified bs id;
       Ok (if (m : bool) then Some bs else None)
   end, x).

Definition resolve_delta_target {X} (verified : bool) (base : hash32 → X → result PackError (option bytes) * X)
    (in_pack : gmap hash32 bytes) (base_hash : hash32) (stream : bytes) (x : X)
    : result PackError bytes * gmap hash32 bytes * X :=
  let '(base_bytes, in_pack, x) :=
    match in_pack !! base_hash with
    | Some b => (Ok b, in_pack, x)
    | None =>
        let '(r, x) := external_base verified base base_hash x in
        match r with
        | Err e => (Err e, in_pack, x)
        | Ok (Some bs) => (Ok bs, <[ base_hash := bs ]> in_pack, x)
        | Ok None => (Err (DeltaBaseMissing (to_hex base_hash)), in_pack, x)
        end
    end in
  (b ← base_bytes; _ ← validate_delta_result_size stream; delta_decode b stream, in_pack, x).

(** ** The cursor *)

Record DecodedEntry := {
  de_id : hash32;
  de_bytes : bytes;
  de_object : Object;
  de_from_delta : bool;
  de_frame_offset : N;
  de_frame_length : N;
  de_wire_type : byte;
  de_delta_base : option hash32
}.

Record DecodeReport := {
  dr_raw_count : N;
  dr_delta_count : N;
  dr_ids : list hash32
}.

Record CursorFrame := {
  cf_entry : PackEntry;
  cf_frame_offset : N;
  cf_frame_length : N;
  cf_wire_type : byte;
  cf_delta_base : option hash32;
  cf_cap : option PackError
}.

Record PackDecodeCursor := {
  pc_entries : list (option CursorFrame);
  pc_next : nat;
  pc_budget : DecodeBudget;
  pc_charged : gmap hash32 N;
  pc_uses : gmap hash32 N;
  pc_in_pack : gmap hash32 bytes;
  pc_report : option DecodeReport
}.

(** The frame of an entry whose payload lies at a range of the pack. *)
Definition cursor_frame (pack : bytes) (limits : DecodeLimits) (entry : PackEntry) (range : nat * nat)
    : result PackError CursorFrame :=
  let '(start, end_) := range in
  let cap := match check_frame limits (nth (start - ENTRY_FRAME_LEN) pack Byte.x00) (slice start (end_ - start) pack) with
             | Ok _ => None
             | Err e => Some e
             end in
  _ ← ensure (ENTRY_FRAME_LEN <=? start)%nat PeUnexpectedEof;
  let offset := (start - ENTRY_FRAME_LEN)%nat in
  Ok {| cf_entry := entry; cf_frame_offset := N.of_nat offset; cf_frame_length := N.of_nat (end_ - offset);
        cf_wire_type := nth offset pack Byte.x00;
        cf_delta_base := match entry with PDelta base _ => Some base | PRaw _ => None end;
        cf_cap := cap |}.

(** [while let Some(entry) = pack_entries.next()], as in [packs_refs] of [Closure]. *)
Fixpoint drain_frames (bound : nat) (pack : bytes) (limits : DecodeLimits) (es : PackEntries)
    (frames : list CursorFrame) : result PackError (list CursorFrame) :=
  match next es with
  | (None, _) => Ok frames
  | (Some entry, es) =>
      entry ← entry;
      payload ← ok_or (last_payload_range es) PeUnexpectedEof;
      frame ← cursor_frame pack limits entry payload;
      match bound with
      | 0 => Ok (frames ++ [frame])
      | S bound => drain_frames bound pack limits es (frames ++ [frame])
      end
  end.

(** The claims of the deltas' results, and how many deltas name each base. *)
Fixpoint count_uses (frames : list CursorFrame) (budget : DecodeBudget) (uses : gmap hash32 N)
    : result PackError (DecodeBudget * gmap hash32 N) :=
  match frames with
  | [] => Ok (budget, uses)
  | frame :: frames =>
      match cf_entry frame with
      | PRaw _ => count_uses frames budget uses
      | PDelta base stream =>
          budget ← match le_u32_at stream 5 with
                   | Some result_len => charge_or result_len budget
                   | None => Ok budget
                   end;
          count_uses frames budget (<[ base := N.min (default 0 (uses !! base) + 1) U64_MAX ]> uses)%N
      end
  end.

Definition PackDecodeCursor_new (pack : bytes) (limits : DecodeLimits) : result PackError PackDecodeCursor :=
  pack_entries ← PackEntries_new pack;
  budget ← charge_compressed_claims pack {| db_used := 0; db_max := max_decoded_bytes limits |};
  entries ← drain_frames (N.to_nat (entry_count pack_entries)) pack limits pack_entries [];
  '(budget, uses) ← count_uses entries budget ∅;
  Ok {| pc_entries := map Some entries; pc_next := 0; pc_budget := budget; pc_charged := ∅;
        pc_uses := uses; pc_in_pack := ∅;
        pc_report := Some {| dr_raw_count := 0; dr_delta_count := 0; dr_ids := [] |} |}.

Definition set_max_decoded_bytes (max : N) (c : PackDecodeCursor) : result PackError unit * PackDecodeCursor :=
  if (max <? db_used (pc_budget c))%N then (Err PackfileTooLarge, c)
  else (Ok tt, {| pc_entries := pc_entries c; pc_next := pc_next c;
                  pc_budget := {| db_used := db_used (pc_budget c); db_max := max |};
                  pc_charged := pc_charged c; pc_uses := pc_uses c; pc_in_pack := pc_in_pack c;
                  pc_report := pc_report c |}).

(** What [ChargedBases] adds to a source: its budget and the charges that are held. *)
Record Charges := { ch_budget : DecodeBudget; ch_charged : gmap hash32 N }.

Definition charge_base (id : hash32) (len : N) (c : Charges) : result PackError unit * Charges :=
  match budget_charge len (ch_budget c) with
  | (Err e, b) => (Err e, {| ch_budget := b; ch_charged := ch_charged c |})
  | (Ok _, b) =>
      (Ok tt, {| ch_budget := b;
                 ch_charged := <[ id := N.min (default 0 (ch_charged c !! id) + len) U64_MAX ]> (ch_charged c) |})%N
  end.

Definition charged_base {S} `{!DeltaBaseSource S} (id : hash32) (x : Charges * S)
    : result PackError (option bytes) * (Charges * S) :=
  let '(r, c, s) := base_with_admission id (charge_base id) x.1 x.2 in (r, (c, s)).

(** [ChargedBases::release]. *)
Definition release (id : hash32) (c : Charges) : Charges :=
  match ch_charged c !! id with
  | None => c
  | Some len =>
      {| ch_budget := {| db_used := db_used (ch_budget c) - len; db_max := db_max (ch_budget c) |};
         ch_charged := delete id (ch_charged c) |}
  end.

(** ** Resuming *)

(** The cursor with the source and what the two closures keep. *)
Record Resuming (S Bf T : Type) := {
  rs_cursor : PackDecodeCursor;
  rs_source : S;
  rs_before : Bf;
  rs_sink : T
}.
#[global] Arguments rs_cursor {S Bf T} _.
#[global] Arguments rs_source {S Bf T} _.
#[global] Arguments rs_before {S Bf T} _.
#[global] Arguments rs_sink {S Bf T} _.

Definition set_entry (f : option CursorFrame) (c : PackDecodeCursor) : PackDecodeCursor :=
  {| pc_entries := <[ pc_next c := f ]> (pc_entries c); pc_next := pc_next c; pc_budget := pc_budget c;
     pc_charged := pc_charged c; pc_uses := pc_uses c; pc_in_pack := pc_in_pack c; pc_report := pc_report c |}.
Definition set_charges (ch : Charges) (c : PackDecodeCursor) : PackDecodeCursor :=
  {| pc_entries := pc_entries c; pc_next := pc_next c; pc_budget := ch_budget ch;
     pc_charged := ch_charged ch; pc_uses := pc_uses c; pc_in_pack := pc_in_pack c; pc_report := pc_report c |}.
Definition set_in_pack (m : gmap hash32 bytes) (c : PackDecodeCursor) : PackDecodeCursor :=
  {| pc_entries := pc_entries c; pc_next := pc_next c; pc_budget := pc_budget c;
     pc_charged := pc_charged c; pc_uses := pc_uses c; pc_in_pack := m; pc_report := pc_report c |}.
Definition set_uses (u : gmap hash32 N) (c : PackDecodeCursor) : PackDecodeCursor :=
  {| pc_entries := pc_entries c; pc_next := pc_next c; pc_budget := pc_budget c;
     pc_charged := pc_charged c; pc_uses := u; pc_in_pack := pc_in_pack c; pc_report := pc_report c |}.
Definition set_report (r : option DecodeReport) (c : PackDecodeCursor) : PackDecodeCursor :=
  {| pc_entries := pc_entries c; pc_next := pc_next c; pc_budget := pc_budget c;
     pc_charged := pc_charged c; pc_uses := pc_uses c; pc_in_pack := pc_in_pack c; pc_report := r |}.
Definition advance (c : PackDecodeCursor) : PackDecodeCursor :=
  {| pc_entries := pc_entries c; pc_next := S (pc_next c); pc_budget := pc_budget c;
     pc_charged := pc_charged c; pc_uses := pc_uses c; pc_in_pack := pc_in_pack c; pc_report := pc_report c |}.

Definition charges_of (c : PackDecodeCursor) : Charges :=
  {| ch_budget := pc_budget c; ch_charged := pc_charged c |}.

(** The charges of a base are put back to what they were. *)
Definition undo_charge (base : hash32) (before_used : N) (before_charged : option N) (ch : Charges) : Charges :=
  {| ch_budget := {| db_used := before_used; db_max := db_max (ch_budget ch) |};
     ch_charged := match before_charged with
                   | Some len => <[ base := len ]> (ch_charged ch)
                   | None => delete base (ch_charged ch)
                   end |}.

(** One delta that names the base is done; after the last the base is let go. *)
Definition use_base (base : hash32) (c : PackDecodeCursor) : PackDecodeCursor :=
  match pc_uses c !! base with
  | None => c
  | Some n =>
      if (n - 1 =? 0)%N
      then set_charges (release base (charges_of c))
             (set_in_pack (delete base (pc_in_pack c)) (set_uses (delete base (pc_uses c)) c))
      else set_uses (<[ base := (n - 1)%N ]> (pc_uses c)) c
  end.

Definition count_decoded (from_delta : bool) (id : hash32) (r : DecodeReport) : DecodeReport :=
  if from_delta
  then {| dr_raw_count := dr_raw_count r; dr_delta_count := dr_delta_count r + 1; dr_ids := dr_ids r ++ [id] |}
  else {| dr_raw_count := dr_raw_count r + 1; dr_delta_count := dr_delta_count r; dr_ids := dr_ids r ++ [id] |}.

Definition decoded_entry (frame : CursorFrame) (id : hash32) (bs : bytes) (object : Object) (from_delta : bool)
    : DecodedEntry :=
  {| de_id := id; de_bytes := bs; de_object := object; de_from_delta := from_delta;
     de_frame_offset := cf_frame_offset frame; de_frame_length := cf_frame_length frame;
     de_wire_type := cf_wire_type frame; de_delta_base := cf_delta_base frame |}.

Section resume.
Context {S Bf T : Type} `{!DeltaBaseSource S}.
Context (before : option hash32 → Bf → result PackError unit * Bf).
Context (sink : DecodedEntry → T → result PackError unit * T).

Abbreviation resuming := (Resuming S Bf T).

Definition resumed (c : PackDecodeCursor) (s : S) (bf : Bf) (t : T) : resuming :=
  {| rs_cursor := c; rs_source := s; rs_before := bf; rs_sink := t |}.

(** The end that both arms of the match share. *)
Definition deliver (frame : CursorFrame) (bs : bytes) (from_delta : bool)
    (c : PackDecodeCursor) (s : S) (bf : Bf) (t : T) : resuming + result PackError DecodeReport * resuming :=
  match validate_storable_object bs with
  | Err e => inr (Err e, resumed c s bf t)
  | Ok object =>
      let id := id_from_object object bs in
      match sink (decoded_entry frame id bs object from_delta) t with
      | (Err e, t) => inr (Err e, resumed c s bf t)
      | (Ok _, t) =>
          let c := if bool_decide (is_Some (pc_uses c !! id)) then set_in_pack (<[ id := bs ]> (pc_in_pack c)) c
                   else c in
          match pc_report c with
          | None => inr (Err PackfileCorrupted, resumed c s bf t)
          | Some r => inl (resumed (advance (set_report (Some (count_decoded from_delta id r)) c)) s bf t)
          end
      end
  end.

Definition resolve_step (frame : CursorFrame) (base : hash32) (stream : bytes)
    (c : PackDecodeCursor) (s : S) (bf : Bf) (t : T) : resuming + result PackError DecodeReport * resuming :=
  let before_used := db_used (pc_budget c) in
  let before_charged := pc_charged c !! base in
  let '(resolved, in_pack, (ch, s)) :=
    resolve_delta_target VERIFIED charged_base (pc_in_pack c) base stream (charges_of c, s) in
  let c := set_in_pack in_pack c in
  match resolved with
  | Err (DeltaBaseMissing h) =>
      let frame := {| cf_entry := PDelta base stream; cf_frame_offset := cf_frame_offset frame;
                      cf_frame_length := cf_frame_length frame; cf_wire_type := cf_wire_type frame;
                      cf_delta_base := cf_delta_base frame; cf_cap := None |} in
      inr (Err (DeltaBaseMissing h),
           resumed (set_entry (Some frame) (set_charges (undo_charge base before_used before_charged ch) c)) s bf t)
  | Err e => inr (Err e, resumed (set_charges ch c) s bf t)
  | Ok bs => deliver frame bs true (use_base base (set_charges ch c)) s bf t
  end.

(** One round of [while self.next < self.entries.len()]. *)
Definition resume_step (w : resuming) : resuming + result PackError DecodeReport * resuming :=
  let c := rs_cursor w in
  if (pc_next c <? length (pc_entries c))%nat then
    match pc_entries c !! pc_next c with
    | Some (Some frame) =>
        let c := set_entry None c in
        match cf_cap frame with
        | Some cap => inr (Err cap, resumed c (rs_source w) (rs_before w) (rs_sink w))
        | None =>
            match before (cf_delta_base frame) (rs_before w) with
            | (Err e, bf) => inr (Err e, resumed c (rs_source w) bf (rs_sink w))
            | (Ok _, bf) =>
                match cf_entry frame with
                | PRaw bs => deliver frame bs false c (rs_source w) bf (rs_sink w)
                | PDelta base stream => resolve_step frame base stream c (rs_source w) bf (rs_sink w)
                end
            end
        end
    | _ => inr (Err PackfileCorrupted, w)
    end
  else
    inr (ok_or (pc_report c) PackfileCorrupted,
         resumed (set_report None c) (rs_source w) (rs_before w) (rs_sink w)).

(** A round for each entry that is left, and one to see the end. *)
Definition resume_checked (c : PackDecodeCursor) (s : S) (bf : Bf) (t : T)
    : option (result PackError DecodeReport * resuming) :=
  match pc_report c with
  | None => Some (Err PackfileCorrupted, resumed c s bf t)
  | Some _ => loop (Datatypes.S (length (pc_entries c))) resume_step (resumed c s bf t)
  end.
End resume.

Definition resume {S T} `{!DeltaBaseSource S} (sink : DecodedEntry → T → result PackError unit * T)
    (c : PackDecodeCursor) (s : S) (t : T) : option (result PackError DecodeReport * Resuming S unit T) :=
  resume_checked (λ _ u, (Ok tt, u)) sink c s tt t.

Definition decode_entries_with {S T} `{!DeltaBaseSource S} (pack : bytes) (limits : DecodeLimits)
    (sink : DecodedEntry → T → result PackError unit * T) (s : S) (t : T)
    : option (result PackError DecodeReport * S * T) :=
  match PackDecodeCursor_new pack limits with
  | Err e => Some (Err e, s, t)
  | Ok c => '(r, w) ← resume sink c s t; Some (r, rs_source w, rs_sink w)
  end.

(** ** One frame *)

Definition decode_entry_with {S} `{!DeltaBaseSource S} (entry : PackEntry) (limits : DecodeLimits) (s : S)
    : result PackError (hash32 * bytes) * S :=
  let '(r, s) :=
    match entry with
    | PRaw bs => (Ok bs, s)
    | PDelta base stream =>
        match
          _ ← ensure (negb match entry_geometry limits with
                           | Some (_, cap) => (cap <? lenN stream)%N
                           | None => false
                           end) PackfileTooLarge;
          n ← validate_delta_result_size stream;
          ensure (negb (max_decoded_bytes limits <? n)%N) PackfileTooLarge
        with
        | Err e => (Err e, s)
        | Ok _ => let '(r, _, s) := resolve_delta_target VERIFIED ds_base ∅ base stream s in (r, s)
        end
    end in
  (bs ← r;
   _ ← ensure (negb (max_decoded_bytes limits <? lenN bs)%N) PackfileTooLarge;
   object ← validate_storable_object bs;
   Ok (id_from_object object bs, bs), s).

Definition decode_frame_with {S} `{!DeltaBaseSource S} (frame : bytes) (version : N) (limits : DecodeLimits) (s : S)
    : result PackError (hash32 * bytes) * S :=
  match
    _ ← ensure ((version =? VERSION) || (version =? VERSION_V2))%N (UnsupportedVersion version);
    _ ← ensure (ENTRY_FRAME_LEN <=? length frame)%nat PeUnexpectedEof;
    let payload_len := le_val (slice 1 4 frame) in
    _ ← ensure (lenN frame =? N.of_nat ENTRY_FRAME_LEN + payload_len)%N PeUnexpectedEof;
    let kind := nth 0 frame Byte.x00 in
    let payload := drop ENTRY_FRAME_LEN frame in
    _ ← check_frame limits kind payload;
    _ ← match kind with
        | Byte.x00 => ensure (negb (max_decoded_bytes limits <? lenN payload)%N) PackfileTooLarge
        | Byte.x03 =>
            n ← claimed_len payload;
            ensure (negb (max_decoded_bytes limits <? n)%N) PackfileTooLarge
        | Byte.x04 =>
            if (Pack.HASH_LEN <=? length payload)%nat then
              n ← claimed_len (drop Pack.HASH_LEN payload);
              let cap := match entry_geometry limits with Some (_, stream) => stream | None => max_decoded_bytes limits end in
              ensure (negb (cap <? n)%N) PackfileTooLarge
            else Ok tt
        | _ => Ok tt
        end;
    decode_payload kind version payload
  with
  | Err e => (Err e, s)
  | Ok entry => decode_entry_with entry limits s
  end.
End decode.
