(* ===== verification/PackDecodeFacts.v ===== *)
(** * Decoding packs: facts

    The cursor of [PackDecode], which keeps and lets go of bases and can pause, against a
    decoder that keeps every entry and cannot: they deliver the same entries. *)

From S2P Require Import Prelude Hash Object Serialize SerializeFacts ObjectId Delta DeltaFacts Store.
From S2P Require Import Messages ZstdFrame Pack PackFacts PackDecode.

(** ** A source with a view *)

(** Its answers do not depend on its state. A fetch is admitted once, with the length of what
    is returned; a fetch that fails may fail before or after its admission. *)
Class DeltaBaseView (S : Type) `{!DeltaBaseSource S} (I : S → Prop)
    (view : hash32 → result PackError (option bytes)) : Prop := {
  dbv_base id s : I s → (ds_base id s).1 = view id ∧ I (ds_base id s).2;
  dbv_admit {A} id (admission : N → A → result PackError unit * A) a s : I s →
    let '(r, a', s') := base_with_admission id admission a s in
    I s' ∧
    match view id with
    | Ok None => r = Ok None ∧ a' = a
    | Ok (Some bs) =>
        match admission (lenN bs) a with
        | (Ok _, a1) => r = Ok (Some bs) ∧ a' = a1
        | (Err e, a1) => r = Err e ∧ a' = a1
        end
    | Err e => r = Err e ∨ ∃ n e', (admission n a).1 = Err e' ∧ r = Err e'
    end
}.

(** The method that the trait provides has the view of [base]. *)
Lemma admit_after_view {S A} (base : hash32 → S → result PackError (option bytes) * S) id
    (admission : N → A → result PackError unit * A) a s :
  let '(r, a', s') := admit_after base id admission a s in
  s' = (base id s).2 ∧
  match (base id s).1 with
  | Ok None => r = Ok None ∧ a' = a
  | Ok (Some bs) =>
      match admission (lenN bs) a with
      | (Ok _, a1) => r = Ok (Some bs) ∧ a' = a1
      | (Err e, a1) => r = Err e ∧ a' = a1
      end
  | Err e => r = Err e
  end.
Proof.
  unfold admit_after. destruct (base id s) as [[[bs|]|e] s']; cbn; try done.
  by destruct (admission (lenN bs) a) as [[[]|e] a'].
Qed.

#[export] Instance no_external_view : DeltaBaseView NoExternalBases (λ _, True) (λ _, Ok None).
Proof. split; [done|]. intros A id admission a s _. done. Qed.

Section store_view.
Context `{B : Blake3}.

Definition store_bases (st : ObjectStore) (id : hash32) : result PackError (option bytes) :=
  if contains st id then bs ← map_err PeStore (read st id); Ok (Some bs) else Ok None.

#[export] Instance store_base_view st : DeltaBaseView ObjectStore (eq st) (store_bases st).
Proof.
  split; [by intros id s <-|]. intros A id admission a s <-. cbn. unfold store_bases.
  destruct (contains st id); [|done]. unfold read_with_allocator, read, read_raw.
  destruct (open_object st id) as [f|e]; cbn [mbind result_bind map_err]; [|by split; [done|left]].
  destruct (N.ltb_spec MAX_RAW_OBJECT_SIZE (lenN (fs_bytes f))) as [Hl|Hl].
  - rewrite (proj2 (N.leb_gt _ _)) by done. by split; [done|left].
  - rewrite (proj2 (N.leb_le _ _)) by done. cbn [ensure mbind result_bind mret result_ret].
    destruct (check_hash id (object_id_from_bytes (fs_bytes f))) as [u|e]; cbn [mbind result_bind map_err].
    + unfold mret, result_ret. cbn [map_err mbind result_bind].
      by destruct (admission (lenN (fs_bytes f)) a) as [[[]|e] a1].
    + destruct (admission (lenN (fs_bytes f)) a) as [[[]|e'] a1] eqn:E; cbn; split; try done; [by left|].
      right. exists (lenN (fs_bytes f)), e'. by rewrite E.
Qed.
End store_view.

(** ** The reference decoder *)

Definition is_delta (e : PackEntry) : bool := match e with PDelta _ _ => true | PRaw _ => false end.

Section reference.
Context `{B : Blake3, Z : Zstd}.

(** What a source is taken to hold for an id. *)
Definition external (verified : bool) (view : hash32 → result PackError (option bytes)) (id : hash32)
    : result PackError (option bytes) :=
  match view id with
  | Ok (Some bs) => m ← external_base_matches verified bs id; Ok (if (m : bool) then Some bs else None)
  | r => r
  end.

Definition ref_base (ext : hash32 → result PackError (option bytes)) (env : gmap hash32 bytes) (id : hash32)
    : result PackError bytes :=
  match env !! id with
  | Some b => Ok b
  | None =>
      match ext id with
      | Ok (Some b) => Ok b
      | Ok None => Err (DeltaBaseMissing (to_hex id))
      | Err e => Err e
      end
  end.

(** The canonical bytes of an entry, above all the entries before it. *)
Definition ref_bytes (ext : hash32 → result PackError (option bytes)) (env : gmap hash32 bytes) (e : PackEntry)
    : result PackError bytes :=
  match e with
  | PRaw bs => Ok bs
  | PDelta base stream =>
      b ← ref_base ext env base; _ ← validate_delta_result_size stream; delta_decode b stream
  end.

Section fold.
Context {Bf T : Type} (ext : hash32 → result PackError (option bytes)).
Context (before : option hash32 → Bf → result PackError unit * Bf).
Context (sink : DecodedEntry → T → result PackError unit * T).

(** Every frame in order; every entry is kept for good. *)
Fixpoint ref_decode (frames : list CursorFrame) (env : gmap hash32 bytes) (r : DecodeReport) (bf : Bf) (t : T)
    : result PackError DecodeReport * Bf * T :=
  match frames with
  | [] => (Ok r, bf, t)
  | f :: frames =>
      match cf_cap f with
      | Some e => (Err e, bf, t)
      | None =>
          match before (cf_delta_base f) bf with
          | (Err e, bf) => (Err e, bf, t)
          | (Ok _, bf) =>
              match (bs ← ref_bytes ext env (cf_entry f); o ← validate_storable_object bs; Ok (bs, o)) with
              | Err e => (Err e, bf, t)
              | Ok (bs, o) =>
                  let id := id_from_object o bs in
                  match sink (decoded_entry f id bs o (is_delta (cf_entry f))) t with
                  | (Err e, t) => (Err e, bf, t)
                  | (Ok _, t) =>
                      ref_decode frames (<[ id := bs ]> env) (count_decoded (is_delta (cf_entry f)) id r) bf t
                  end
              end
          end
      end
  end.
End fold.

(** ** Counting uses *)

Definition names_base (b : hash32) (f : CursorFrame) : bool :=
  match cf_entry f with PDelta base _ => bool_decide (base = b) | PRaw _ => false end.

Definition uses_left (b : hash32) (fs : list CursorFrame) : N := lenN (List.filter (names_base b) fs).

Definition uses_ok (uses : gmap hash32 N) (fs : list CursorFrame) : Prop :=
  ∀ b, uses !! b = if (uses_left b fs =? 0)%N then None else Some (uses_left b fs).

Lemma uses_left_cons b f fs :
  uses_left b (f :: fs) = ((if names_base b f then 1 else 0) + uses_left b fs)%N.
Proof. unfold uses_left. cbn [List.filter]. destruct (names_base b f); [by rewrite lenN_cons|done]. Qed.

Lemma uses_some uses fs b : uses_ok uses fs → is_Some (uses !! b) ↔ uses_left b fs ≠ 0%N.
Proof.
  intros H. rewrite H. destruct (N.eqb_spec (uses_left b fs) 0).
  - split; [by intros [? [=]]|done].
  - split; [done|by eexists].
Qed.

(** ** What a cursor that is not done holds *)

Record tracks (ext : hash32 → result PackError (option bytes)) (c : PackDecodeCursor) (fs : list CursorFrame)
    (env : gmap hash32 bytes) (r : DecodeReport) : Prop := {
  tr_next : drop (pc_next c) (pc_entries c) = map Some fs;
  tr_in : pc_next c ≤ length (pc_entries c);
  tr_report : pc_report c = Some r;
  tr_uses : uses_ok (pc_uses c) fs;
  tr_live b : is_Some (pc_in_pack c !! b) → uses_left b fs ≠ 0%N;
  tr_cached b bs : pc_in_pack c !! b = Some bs → env !! b = Some bs ∨ (env !! b = None ∧ ext b = Ok (Some bs));
  tr_kept b bs : env !! b = Some bs → uses_left b fs ≠ 0%N → pc_in_pack c !! b = Some bs
}.

(** A source that has gained bases. *)
Definition gains (ext ext' : hash32 → result PackError (option bytes)) : Prop :=
  ∀ b bs, ext b = Ok (Some bs) → ext' b = Ok (Some bs).

Lemma gains_refl ext : gains ext ext.
Proof. by intros b bs. Qed.

Lemma tracks_gains ext ext' c fs env r : gains ext ext' → tracks ext c fs env r → tracks ext' c fs env r.
Proof. intros Hg [H1 H2 H3 H4 H5 H6 H7]. split; try done. intros b bs Hb. destruct (H6 b bs Hb) as [?|[? ?]]; auto. Qed.

(** A cursor that differs only in its charges. *)
Lemma tracks_charges ext ch c fs env r : tracks ext c fs env r ↔ tracks ext (set_charges ch c) fs env r.
Proof. split; intros [H1 H2 H3 H4 H5 H6 H7]; by split. Qed.

Lemma cursor_frame_at ext c f fs env r :
  tracks ext c (f :: fs) env r →
  pc_entries c !! pc_next c = Some (Some f) ∧ (pc_next c < length (pc_entries c))%nat ∧
  drop (S (pc_next c)) (pc_entries c) = map Some fs.
Proof.
  intros [H1 _ _ _ _ _ _].
  assert (pc_entries c !! pc_next c = Some (Some f)) as Hl.
  { rewrite <- (Nat.add_0_r (pc_next c)), <- lookup_drop, H1. done. }
  split; [done|]. split; [by eapply lookup_lt_Some|].
  rewrite <- Nat.add_1_r, <- drop_drop, H1. done.
Qed.

(** The cursor while an entry is at hand: its frame is taken, and [us] are the frames whose uses
    are still counted. *)
Record delivering (ext : hash32 → result PackError (option bytes)) (c : PackDecodeCursor)
    (fs us : list CursorFrame) (env : gmap hash32 bytes) (r : DecodeReport) : Prop := {
  dl_next : drop (S (pc_next c)) (pc_entries c) = map Some fs;
  dl_in : pc_next c < length (pc_entries c);
  dl_report : pc_report c = Some r;
  dl_uses : uses_ok (pc_uses c) us;
  dl_live b : is_Some (pc_in_pack c !! b) → uses_left b us ≠ 0%N;
  dl_cached b bs : pc_in_pack c !! b = Some bs → env !! b = Some bs ∨ (env !! b = None ∧ ext b = Ok (Some bs));
  dl_kept b bs : env !! b = Some bs → uses_left b us ≠ 0%N → pc_in_pack c !! b = Some bs
}.

Lemma delivering_charges ext ch c fs us env r :
  delivering ext (set_charges ch c) fs us env r ↔ delivering ext c fs us env r.
Proof. split; intros [H1 H2 H3 H4 H5 H6 H7]; by split. Qed.

(** The frame is taken. *)
Lemma take_frame ext c f fs env r :
  tracks ext c (f :: fs) env r → delivering ext (set_entry None c) fs (f :: fs) env r.
Proof.
  intros Ht. destruct (cursor_frame_at _ _ _ _ _ _ Ht) as (_ & Hlt & Hd). destruct Ht as [H1 H2 H3 H4 H5 H6 H7].
  split; cbn [set_entry pc_entries pc_next pc_report pc_uses pc_in_pack]; try done.
  - rewrite drop_insert_lt by lia. done.
  - by rewrite length_insert.
Qed.

(** A frame that is put back. *)
Lemma put_frame ext c f fs env r :
  delivering ext c fs (f :: fs) env r → tracks ext (set_entry (Some f) c) (f :: fs) env r.
Proof.
  intros [H1 H2 H3 H4 H5 H6 H7]. split; cbn [set_entry pc_entries pc_next pc_report pc_uses pc_in_pack]; try done.
  - assert (<[pc_next c := Some f]> (pc_entries c) !! pc_next c = Some (Some f)) as Hl
      by (apply list_lookup_insert_eq; done).
    rewrite (drop_S _ _ _ Hl). cbn [map]. rewrite drop_insert_lt by lia. by rewrite H1.
  - rewrite length_insert. lia.
Qed.

Lemma raw_uses f fs : is_delta (cf_entry f) = false → ∀ b, uses_left b (f :: fs) = uses_left b fs.
Proof. intros Hf b. rewrite uses_left_cons. unfold names_base. by destruct (cf_entry f). Qed.

Lemma raw_delivering ext c f fs env r :
  is_delta (cf_entry f) = false → delivering ext c fs (f :: fs) env r → delivering ext c fs fs env r.
Proof.
  intros Hf [H1 H2 H3 H4 H5 H6 H7]. pose proof (raw_uses f fs Hf) as Hu. split; try done.
  - intros b. rewrite <- Hu. apply H4.
  - intros b. rewrite <- Hu. apply H5.
  - intros b bs. rewrite <- Hu. apply H7.
Qed.

(** The use of a base. *)
Lemma use_base_ok ext c f fs base stream env r :
  cf_entry f = PDelta base stream →
  delivering ext c fs (f :: fs) env r → delivering ext (use_base base c) fs fs env r.
Proof.
  intros Hf [H1 H2 H3 H4 H5 H6 H7].
  assert (Hu : ∀ b, uses_left b (f :: fs) = ((if bool_decide (base = b) then 1 else 0) + uses_left b fs)%N).
  { intros b. rewrite uses_left_cons. unfold names_base. by rewrite Hf. }
  unfold use_base. pose proof (H4 base) as Hb. rewrite Hu, bool_decide_true in Hb by done.
  destruct (N.eqb_spec (1 + uses_left base fs) 0) as [|_]; [lia|]. rewrite Hb.
  destruct (N.eqb_spec (1 + uses_left base fs - 1) 0) as [Hz|Hz].
  - apply delivering_charges. split; cbn [set_in_pack set_uses pc_entries pc_next pc_report pc_uses pc_in_pack]; try done.
    + intros b. destruct (decide (b = base)) as [->|Hne].
      * rewrite lookup_delete_eq. destruct (N.eqb_spec (uses_left base fs) 0); [done|lia].
      * rewrite lookup_delete_ne, H4, Hu, bool_decide_false by done. done.
    + intros b. destruct (decide (b = base)) as [->|Hne]; [rewrite lookup_delete_eq; by intros [? [=]]|].
      rewrite lookup_delete_ne by done. intros Hs. apply H5 in Hs. by rewrite Hu, bool_decide_false in Hs.
    + intros b bs. rewrite lookup_delete_Some. intros [_ ?]. by apply H6.
    + intros b bs He Hn. destruct (decide (b = base)) as [->|Hne]; [lia|].
      rewrite lookup_delete_ne by done. apply H7; [done|]. by rewrite Hu, bool_decide_false.
  - split; cbn [set_uses pc_entries pc_next pc_report pc_uses pc_in_pack]; try done.
    + intros b. destruct (decide (b = base)) as [->|Hne].
      * rewrite lookup_insert_eq. destruct (N.eqb_spec (uses_left base fs) 0); [lia|]. f_equal. lia.
      * rewrite lookup_insert_ne, H4, Hu, bool_decide_false by done. done.
    + intros b Hs. apply H5 in Hs. rewrite Hu in Hs. destruct (decide (b = base)) as [->|Hne]; [lia|].
      rewrite bool_decide_false in Hs by done. done.
    + intros b bs He Hn. apply H7; [done|]. rewrite Hu. lia.
Qed.

(** Of the entry delivered a copy is kept if it is still named. *)
Lemma keep_entry ext c fs env r id bs rep :
  delivering ext c fs fs env r →
  let c' := if bool_decide (is_Some (pc_uses c !! id)) then set_in_pack (<[ id := bs ]> (pc_in_pack c)) c else c in
  pc_report c' = Some r ∧ tracks ext (advance (set_report (Some rep) c')) fs (<[ id := bs ]> env) rep.
Proof.
  intros [H1 H2 H3 H4 H5 H6 H7] c'. subst c'. pose proof (uses_some _ _ id H4) as Hid.
  case_bool_decide as Hs; (split; [done|]); split;
    cbn [advance set_report set_in_pack pc_entries pc_next pc_report pc_uses pc_in_pack]; try done; try lia.
  - intros b [bs' Hb]. apply lookup_insert_Some in Hb as [[<- _]|[_ Hb]]; [by apply Hid|]. apply H5. by eexists.
  - intros b bs'. rewrite lookup_insert_Some. intros [[<- <-]|[Hne Hb]]; [left; by rewrite lookup_insert_eq|].
    rewrite lookup_insert_ne by done. by apply H6.
  - intros b bs'. rewrite lookup_insert_Some. intros [[<- <-]|[Hne Hb]] Hn; [by rewrite lookup_insert_eq|].
    rewrite lookup_insert_ne by done. by apply H7.
  - intros b bs' Hb. destruct (decide (b = id)) as [->|Hne].
    + destruct Hs. apply Hid, H5. by eexists.
    + rewrite lookup_insert_ne by done. by apply H6.
  - intros b bs'. rewrite lookup_insert_Some. intros [[<- <-]|[Hne Hb]] Hn; [by destruct Hs; apply Hid|by apply H7].
Qed.
End reference.

(** ** One round *)

(** The frame at the cursor is still there: the cursor can go on. *)
Definition paused (c : PackDecodeCursor) : Prop := ∃ f, pc_entries c !! pc_next c = Some (Some f).

Section steps.
Context `{B : Blake3, Z : Zstd} {S Bf T : Type} `{!DeltaBaseSource S}.
Context (I : S → Prop) (view : hash32 → result PackError (option bytes)) `{!DeltaBaseView S I view}.
Context (before : option hash32 → Bf → result PackError unit * Bf).
Context (sink : DecodedEntry → T → result PackError unit * T).

Abbreviation ext := (external VERIFIED view).
Abbreviation ref := (λ e, ref_decode e before sink).

(** A base comes from outside the pack. *)
Definition outside (fs : list CursorFrame) : Prop := ∃ b, uses_left b fs ≠ 0%N ∧ view b ≠ Ok None.

Lemma charged_base_ok id ch s :
  I s →
  let '(r, x) := charged_base id (ch, s) in
  I x.2 ∧ (r = view id ∨ (r = Err PackfileTooLarge ∧ view id ≠ Ok None)).
Proof.
  intros Hs. unfold charged_base. cbn [fst snd].
  assert (Hc : ∀ n c e, (charge_base id n c).1 = Err e → e = PackfileTooLarge).
  { intros n c e. unfold charge_base, budget_charge, ensure. destruct (negb _); cbn; congruence. }
  pose proof (dbv_admit id (charge_base id) ch s Hs) as H.
  destruct (base_with_admission id (charge_base id) ch s) as [[r ch'] s']. cbn [fst snd].
  destruct H as [Hs' H]. split; [done|]. destruct (view id) as [[bs|]|e].
  - pose proof (Hc (lenN bs) ch) as Hl. destruct (charge_base id (lenN bs) ch) as [[u|e] c1].
    + left. apply H.
    + right. destruct H as [-> _]. split; [f_equal; by apply Hl|done].
  - left. apply H.
  - destruct H as [->|(n & e' & Hn & ->)]; [by left|right]. split; [f_equal; by eapply Hc|done].
Qed.

Lemma external_charged id ch s :
  I s →
  let '(r, x) := external_base VERIFIED charged_base id (ch, s) in
  I x.2 ∧ (r = ext id ∨ (r = Err PackfileTooLarge ∧ view id ≠ Ok None)).
Proof.
  intros Hs. unfold external_base. pose proof (charged_base_ok id ch s Hs) as H.
  destruct (charged_base id (ch, s)) as [r x]. destruct H as [Hx [->|[-> Hv]]]; (split; [done|]); [left|by right].
  unfold external. by destruct (view id) as [[bs|]|e].
Qed.

Lemma delta_errors b stream h :
  (_ ← validate_delta_result_size stream; delta_decode b stream) ≠ Err (DeltaBaseMissing h).
Proof.
  unfold validate_delta_result_size, delta_decode.
  destruct (_ <=? _)%nat; cbn [ensure mbind result_bind]; [|done].
  destruct (_ <=? _)%N; cbn [ensure mbind result_bind]; [|done].
  by destruct (default _ _).
Qed.

(** The target of a delta, and what the cursor then holds. *)
Lemma resolve_ok c f fs env r base stream s :
  delivering ext c fs (f :: fs) env r → cf_entry f = PDelta base stream → I s →
  let '(res, in_pack, x) := resolve_delta_target VERIFIED charged_base (pc_in_pack c) base stream (charges_of c, s) in
  I x.2 ∧ delivering ext (set_in_pack in_pack c) fs (f :: fs) env r ∧
  ((res = Err PackfileTooLarge ∧ outside (f :: fs)) ∨
   (res = ref_bytes ext env (PDelta base stream) ∧
    ∀ e' bs, res = Ok bs → gains ext e' → ref_bytes e' env (PDelta base stream) = Ok bs)).
Proof.
  intros Hd Hf Hs.
  assert (Hused : uses_left base (f :: fs) ≠ 0%N).
  { rewrite uses_left_cons. unfold names_base. rewrite Hf, bool_decide_true by done. lia. }
  assert (Hsame : set_in_pack (pc_in_pack c) c = c) by by destruct c.
  unfold resolve_delta_target. cbn [ref_bytes]. unfold ref_base.
  destruct (pc_in_pack c !! base) as [b|] eqn:Eb.
  - rewrite Hsame. split; [done|]. split; [done|]. right.
    destruct (dl_cached _ _ _ _ _ _ Hd _ _ Eb) as [->|[-> He]]; [by split|]. rewrite He. split; [done|].
    intros e' bs <- Hg. by rewrite (Hg _ _ He).
  - assert (env !! base = None) as ->.
    { destruct (env !! base) as [bs|] eqn:E; [|done]. rewrite (dl_kept _ _ _ _ _ _ Hd _ _ E Hused) in Eb. done. }
    pose proof (external_charged base (charges_of c) s Hs) as Hx.
    destruct (external_base VERIFIED charged_base base (charges_of c, s)) as [res x].
    destruct Hx as [Hx Hres]. destruct res as [[bs|]|e].
    + split; [done|]. destruct Hres as [Hres|[[=] _]]. split.
      * destruct Hd as [H1 H2 H3 H4 H5 H6 H7]. split; cbn [set_in_pack pc_entries pc_next pc_report pc_uses pc_in_pack]; try done.
        -- intros b [v Hb]. apply lookup_insert_Some in Hb as [[<- _]|[_ Hb]]; [done|]. apply H5. by eexists.
        -- intros b v. rewrite lookup_insert_Some. intros [[<- <-]|[_ Hb]]; [|by apply H6]. right. split; [|done].
           destruct (env !! base) as [w|] eqn:E; [|done]. rewrite (H7 _ _ E Hused) in Eb. done.
        -- intros b v Hb Hn. destruct (decide (b = base)) as [->|Hne].
           ++ rewrite (H7 _ _ Hb Hused) in Eb. done.
           ++ rewrite lookup_insert_ne by done. by apply H7.
      * right. rewrite <- Hres. split; [done|]. intros e' bs' <- Hg. by rewrite (Hg _ _ (eq_sym Hres)).
    + rewrite Hsame. split; [done|]. split; [done|]. right. destruct Hres as [<-|[[=] _]]. split; [done|].
      done.
    + rewrite Hsame. split; [done|]. split; [done|]. destruct Hres as [<-|[[= ->] Hv]].
      * right. done.
      * left. split; [done|]. exists base. done.
Qed.

(** A report of a missing base that is not the decoder's. *)
Definition foreign (fs : list CursorFrame) (h : bytes) : Prop :=
  (∃ f, f ∈ fs ∧ cf_cap f = Some (DeltaBaseMissing h)) ∨
  (∃ b bf, (before b bf).1 = Err (DeltaBaseMissing h)) ∨
  (∃ d t, (sink d t).1 = Err (DeltaBaseMissing h)).

Lemma validate_errors bs h : validate_storable_object bs ≠ Err (DeltaBaseMissing h).
Proof.
  unfold validate_storable_object, map_err. destruct (_ <=? _)%N; cbn [ensure mbind result_bind]; [|done].
  destruct (deserialize bs) as [[]|]; done.
Qed.

(** The end of a call of the cursor, against the reference. *)
Definition call_end (fs : list CursorFrame) (env : gmap hash32 bytes) (r : DecodeReport) (bf : Bf) (t : T)
    (res : result PackError DecodeReport) (w' : Resuming S Bf T) : Prop :=
  I (rs_source w') ∧
  ((res = Err PackfileTooLarge ∧ outside fs ∧ ¬ paused (rs_cursor w')) ∨
   ((res, rs_before w', rs_sink w') = ref ext fs env r bf t ∧
    (¬ paused (rs_cursor w') → ∀ h, res = Err (DeltaBaseMissing h) → foreign fs h) ∧
    (paused (rs_cursor w') →
     ∃ fs' env' r' bf', tracks ext (rs_cursor w') fs' env' r' ∧ (∃ h, res = Err (DeltaBaseMissing h)) ∧
       ∀ e', gains ext e' → ref e' fs env r bf t = ref e' fs' env' r' bf' (rs_sink w')))).

(** A round that goes on. *)
Definition goes_on (f : CursorFrame) (fs : list CursorFrame) (env : gmap hash32 bytes) (r : DecodeReport)
    (bf : Bf) (t : T) (w' : Resuming S Bf T) : Prop :=
  I (rs_source w') ∧ ∃ env' r', tracks ext (rs_cursor w') fs env' r' ∧
    ∀ e', gains ext e' → ref e' (f :: fs) env r bf t = ref e' fs env' r' (rs_before w') (rs_sink w').

(** The frame at the cursor is taken. *)
Definition taken (c : PackDecodeCursor) : Prop := pc_entries c !! pc_next c = Some None.

Lemma taken_paused c : taken c → ¬ paused c.
Proof. unfold taken. intros Hc [g Hg]. congruence. Qed.

Lemma set_entry_taken c f : pc_entries c !! pc_next c = Some f → taken (set_entry None c).
Proof. intros Hc. apply list_lookup_insert_eq. by eapply lookup_lt_Some. Qed.

Lemma use_base_entries base c :
  pc_entries (use_base base c) = pc_entries c ∧ pc_next (use_base base c) = pc_next c.
Proof.
  unfold use_base. destruct (pc_uses c !! base) as [n|]; [|done]. by destruct (n - 1 =? 0)%N.
Qed.

Lemma deliver_ok c f fs env r bs s bf0 bf t0 t :
  delivering ext c fs fs env r → taken c → I s →
  cf_cap f = None → before (cf_delta_base f) bf0 = (Ok tt, bf) → t0 = t →
  (∀ e', gains ext e' → ref_bytes e' env (cf_entry f) = Ok bs) →
  match deliver sink f bs (is_delta (cf_entry f)) c s bf t with
  | inl w' => goes_on f fs env r bf0 t0 w'
  | inr (res, w') => call_end (f :: fs) env r bf0 t0 res w'
  end.
Proof.
  intros Hd Ht Hs Hcap Hbef -> Hbs. unfold deliver.
  assert (Href : ∀ e', gains ext e' → ref e' (f :: fs) env r bf0 t =
    match validate_storable_object bs with
    | Err e => (Err e, bf, t)
    | Ok o =>
        match sink (decoded_entry f (id_from_object o bs) bs o (is_delta (cf_entry f))) t with
        | (Err e, t) => (Err e, bf, t)
        | (Ok _, t) => ref e' fs (<[ id_from_object o bs := bs ]> env)
                         (count_decoded (is_delta (cf_entry f)) (id_from_object o bs) r) bf t
        end
    end).
  { intros e' Hg. cbn [ref_decode]. rewrite Hcap, Hbef, (Hbs e' Hg). cbn [mbind result_bind].
    by destruct (validate_storable_object bs). }
  pose proof (Href ext (gains_refl ext)) as Hext.
  destruct (validate_storable_object bs) as [o|e] eqn:Ev.
  2: { split; [done|]. right. split; [by rewrite Hext|]. split.
       - intros _ h [= ->]. by destruct (validate_errors bs h).
       - cbn. intros Hp. by destruct (taken_paused _ Ht). }
  destruct (sink (decoded_entry f (id_from_object o bs) bs o (is_delta (cf_entry f))) t) as [[[]|e] t'] eqn:Esink.
  2: { split; [done|]. right. split; [by rewrite Hext|]. split.
       - intros _ h [= ->]. right. right. eexists _, _. by rewrite Esink.
       - cbn. intros Hp. by destruct (taken_paused _ Ht). }
  destruct (keep_entry ext c fs env r (id_from_object o bs) bs
    (count_decoded (is_delta (cf_entry f)) (id_from_object o bs) r) Hd) as [Hr Htr].
  rewrite Hr. split; [done|]. eexists _, _. split; [exact Htr|]. exact Href.
Qed.

Lemma resume_step_ok w f fs env r :
  tracks ext (rs_cursor w) (f :: fs) env r → I (rs_source w) →
  match resume_step before sink w with
  | inl w' => goes_on f fs env r (rs_before w) (rs_sink w) w'
  | inr (res, w') => call_end (f :: fs) env r (rs_before w) (rs_sink w) res w'
  end.
Proof.
  intros Htr Hs. destruct (cursor_frame_at _ _ _ _ _ _ Htr) as (Hf & Hlt & _). unfold resume_step.
  rewrite (proj2 (Nat.ltb_lt _ _) Hlt), Hf. pose proof (set_entry_taken _ _ Hf) as Ht.
  pose proof (take_frame _ _ _ _ _ _ Htr) as Hd.
  destruct (cf_cap f) as [cap|] eqn:Hcap.
  { split; [done|]. right. split; [cbn [ref_decode]; by rewrite Hcap|]. split.
    - intros _ h [= ->]. left. exists f. split; [left|done].
    - cbn. intros Hp. by destruct (taken_paused _ Ht). }
  destruct (before (cf_delta_base f) (rs_before w)) as [[[]|e] bf] eqn:Hbef.
  2: { split; [done|]. right. split; [cbn [ref_decode]; by rewrite Hcap, Hbef|]. split.
       - intros _ h [= ->]. right. left. eexists _, _. by rewrite Hbef.
       - cbn. intros Hp. by destruct (taken_paused _ Ht). }
  destruct (cf_entry f) as [bs|base stream] eqn:Ef.
  - pose proof (deliver_ok (set_entry None (rs_cursor w)) f fs env r bs (rs_source w) (rs_before w) bf
      (rs_sink w) (rs_sink w)) as H.
    rewrite Ef in H. apply H; try done.
    apply (raw_delivering _ _ f); [by rewrite Ef|done].
  - unfold resolve_step.
    pose proof (resolve_ok _ _ _ _ _ _ _ _ Hd Ef Hs) as H.
    destruct (resolve_delta_target _ _ _ _ _ _) as [[res in_pack] [ch s']]. cbn [fst snd] in H.
    destruct H as (Hs' & Hd' & Hres).
    set (c := set_in_pack in_pack (set_entry None (rs_cursor w))) in *.
    assert (taken c) as Htc by exact Ht.
    destruct res as [bs|e].
    + destruct Hres as [[[=] _]|[Hres Hg]].
      pose proof (deliver_ok (use_base base (set_charges ch c)) f fs env r bs s' (rs_before w) bf
        (rs_sink w) (rs_sink w)) as H.
      rewrite Ef in H. apply H; try done.
      * apply (use_base_ok _ _ f _ _ stream); [done|]. by apply delivering_charges.
      * unfold taken. destruct (use_base_entries base (set_charges ch c)) as [-> ->]. done.
      * intros e' Hge. by apply Hg.
    + assert (Hend : e = PackfileTooLarge ∧ outside (f :: fs) ∨
        (Err e, bf, rs_sink w) = ref ext (f :: fs) env r (rs_before w) (rs_sink w)).
      { destruct Hres as [[[= ->] Ho]|[Hres _]]; [by left|right].
        cbn [ref_decode]. rewrite Hcap, Hbef, Ef, <- Hres. done. }
      assert (Hterm : (∀ h, e ≠ DeltaBaseMissing h) → call_end (f :: fs) env r (rs_before w) (rs_sink w) (Err e)
        (resumed (set_charges ch c) s' bf (rs_sink w))).
      { intros Hnm. assert (¬ paused (set_charges ch c)) as Hnp by (apply taken_paused; exact Htc).
        split; [done|]. destruct Hend as [[-> Ho]|Hend]; [by left|right]. split; [exact Hend|]. split.
        - intros _ h [= He]. by destruct (Hnm h).
        - intros Hp. by destruct Hnp. }
      destruct e; try (apply Hterm; intros ?; discriminate). destruct Hend as [[[=] _]|Hend].
      assert (Htr' : ∀ g, g = f → tracks ext (set_entry (Some g)
        (set_charges (undo_charge base (db_used (pc_budget (set_entry None (rs_cursor w))))
          (pc_charged (set_entry None (rs_cursor w)) !! base) ch) c)) (f :: fs) env r).
      { intros g ->. apply put_frame. by apply delivering_charges. }
      assert (Hpf : tracks ext (rs_cursor (resumed (set_entry (Some f) (set_charges (undo_charge base
          (db_used (pc_budget (set_entry None (rs_cursor w)))) (pc_charged (set_entry None (rs_cursor w)) !! base) ch) c))
          s' bf (rs_sink w))) (f :: fs) env r) by by apply Htr'.
      assert (f = {| cf_entry := PDelta base stream; cf_frame_offset := cf_frame_offset f;
        cf_frame_length := cf_frame_length f; cf_wire_type := cf_wire_type f;
        cf_delta_base := cf_delta_base f; cf_cap := None |}) as <- by (destruct f; cbn in *; by subst).
      split; [done|]. right. split; [exact Hend|]. split.
      * intros Hnp. destruct Hnp. exists f. by destruct (cursor_frame_at _ _ _ _ _ _ Hpf) as [? _].
      * intros _. exists (f :: fs), env, r, (rs_before w). split; [exact Hpf|]. split; [by eexists|done].
Qed.

(** ** A call *)

Lemma outside_cons f fs : outside fs → outside (f :: fs).
Proof. intros (b & Hb & Hv). exists b. split; [|done]. rewrite uses_left_cons. lia. Qed.

Lemma resume_end_ok w env r :
  tracks ext (rs_cursor w) [] env r → I (rs_source w) →
  match resume_step before sink w with
  | inl _ => False
  | inr (res, w') => call_end [] env r (rs_before w) (rs_sink w) res w'
  end.
Proof.
  intros [H1 H2 H3 _ _ _ _] Hs. unfold resume_step.
  assert (pc_next (rs_cursor w) = length (pc_entries (rs_cursor w))) as Hn.
  { apply (f_equal length) in H1. rewrite length_drop in H1. cbn in H1. lia. }
  rewrite Hn, Nat.ltb_irrefl, H3. split; [done|]. right. split; [done|]. split; [done|].
  intros [f Hf]. cbn in Hf. rewrite Hn in Hf. apply lookup_lt_Some in Hf. lia.
Qed.

Lemma call_end_cons f fs env r bf t (w' : Resuming S Bf T) env' r' res v :
  (∀ e', gains ext e' → ref e' (f :: fs) env r bf t = ref e' fs env' r' (rs_before w') (rs_sink w')) →
  call_end fs env' r' (rs_before w') (rs_sink w') res v → call_end (f :: fs) env r bf t res v.
Proof.
  intros Href [Hs [(-> & Ho & Hp)|[Hres Hp]]]; (split; [done|]).
  - left. split; [done|]. split; [by apply outside_cons|done].
  - right. rewrite (Href ext (gains_refl ext)). split; [done|]. destruct Hp as [Hf Hp]. split.
    { intros Hnp h Hh. destruct (Hf Hnp h Hh) as [(g & Hg & Hc)|?]; [left|by right].
      exists g. split; [by right|done]. }
    intros Hpa. destruct (Hp Hpa) as (fs' & env1 & r1 & bf1 & Ht & Hm & Hg). exists fs', env1, r1, bf1.
    split; [done|]. split; [done|]. intros e' Hge. rewrite (Href e' Hge). by apply Hg.
Qed.

Lemma resume_loop_ok fs : ∀ fuel w env r,
  (length fs < fuel)%nat → tracks ext (rs_cursor w) fs env r → I (rs_source w) →
  ∃ res w', loop fuel (resume_step before sink) w = Some (res, w') ∧
    call_end fs env r (rs_before w) (rs_sink w) res w'.
Proof.
  induction fs as [|f fs IH]; intros [|fuel] w env r Hf Ht Hs; try (cbn in Hf; lia); cbn [loop].
  - pose proof (resume_end_ok w env r Ht Hs) as H.
    destruct (resume_step before sink w) as [?|[res w']]; [done|eauto].
  - pose proof (resume_step_ok w f fs env r Ht Hs) as H.
    destruct (resume_step before sink w) as [w'|[res w']]; [|eauto].
    destruct H as (Hs' & env' & r' & Ht' & Href).
    destruct (IH fuel w' env' r' ltac:(cbn in Hf; lia) Ht' Hs') as (res & v & Hl & Hend).
    exists res, v. split; [done|]. by eapply call_end_cons.
Qed.

Lemma resume_checked_ok c fs env r s bf t :
  tracks ext c fs env r → I s →
  ∃ res w', resume_checked before sink c s bf t = Some (res, w') ∧ call_end fs env r bf t res w'.
Proof.
  intros Ht Hs. unfold resume_checked. rewrite (tr_report _ _ _ _ _ Ht).
  apply (resume_loop_ok fs _ (resumed c s bf t)); [|done..].
  pose proof (f_equal length (tr_next _ _ _ _ _ Ht)) as Hl. rewrite length_drop, length_map in Hl. lia.
Qed.
End steps.

(** ** A new cursor *)

Section new.
Context `{B : Blake3, Z : Zstd}.

Fixpoint decode_all (v : N) (fs : list frame) : result PackError (list PackEntry) :=
  match fs with
  | [] => Ok []
  | f :: fs => e ← decode_frame v f; es ← decode_all v fs; Ok (e :: es)
  end.

(** The frame of the cursor for a frame of the pack at a position. *)
Definition cursor_frame_of (limits : DecodeLimits) (pos : nat) (f : frame) (e : PackEntry) : CursorFrame :=
  {| cf_entry := e; cf_frame_offset := N.of_nat pos;
     cf_frame_length := N.of_nat (length (frame_bytes f)); cf_wire_type := fr_type f;
     cf_delta_base := match e with PDelta base _ => Some base | PRaw _ => None end;
     cf_cap := match check_frame limits (fr_type f) (fr_payload f) with Ok _ => None | Err e => Some e end |}.

Fixpoint cursor_frames (limits : DecodeLimits) (pos : nat) (fs : list frame) (es : list PackEntry)
    : list CursorFrame :=
  match fs, es with
  | f :: fs, e :: es => cursor_frame_of limits pos f e :: cursor_frames limits (pos + length (frame_bytes f)) fs es
  | _, _ => []
  end.

Lemma cursor_frame_eq limits v fs k f e :
  fs !! k = Some f → (lenN (fr_payload f) <= U32_MAX)%N →
  cursor_frame (pack_image v fs) limits e (payload_range fs k) =
    Ok (cursor_frame_of limits (HEADER_LEN + length (frames_bytes (take k fs))) f e).
Proof.
  intros Hk Hu. pose proof (slice_payload v fs k f Hk Hu) as Hsl.
  destruct (frame_lies_image v fs k f Hk Hu) as (_ & Hd & _). unfold cursor_frame, payload_range in *.
  cbn [fst snd] in Hsl. rewrite Hsl. set (q := (HEADER_LEN + length (frames_bytes (take k fs)))%nat) in *.
  rewrite (proj2 (Nat.leb_le _ _)) by lia. cbn [ensure mbind result_bind].
  replace (q + ENTRY_FRAME_LEN - ENTRY_FRAME_LEN)%nat with q by lia.
  assert (nth q (pack_image v fs) Byte.x00 = fr_type f) as ->.
  { rewrite <- (Nat.add_0_r q), <- nth_skipn. change (skipn q) with (@drop byte q). rewrite Hd. done. }
  unfold cursor_frame_of. do 3 f_equal. rewrite (take_S_frames fs k f Hk), length_app. lia.
Qed.

Lemma drain_frames_opened limits v fs k r bound acc :
  Forall (λ f, lenN (fr_payload f) <= U32_MAX)%N fs → (length fs - k <= bound)%nat →
  drain_frames bound (pack_image v fs) limits (opened v fs k r) acc =
    (es ← decode_all v (drop k fs);
     Ok (acc ++ cursor_frames limits (HEADER_LEN + length (frames_bytes (take k fs))) (drop k fs) es)).
Proof.
  intros Hu. revert k r acc. induction bound as [|bound IH]; intros k r acc Hb.
  - rewrite drop_ge by lia. cbn. unfold next. cbn [opened pe_done pe_count pe_yielded orb].
    destruct (N.leb_spec (lenN fs) (N.of_nat k)); [|unfold lenN in *; lia]. by rewrite app_nil_r.
  - destruct (fs !! k) as [f|] eqn:Hk.
    + assert (lenN (fr_payload f) <= U32_MAX)%N as Huf by (by eapply list.Forall_lookup_1 in Hu).
      cbn [drain_frames]. rewrite (next_opened v fs k f r Hk Huf), (drop_S _ _ _ Hk). cbn [decode_all].
      destruct (decode_frame v f) as [e|e]; cbn [mbind result_bind]; [|done].
      cbn [last_payload_range opened pe_last_payload_range ok_or mbind result_bind].
      rewrite (cursor_frame_eq limits v fs k f e Hk Huf). cbn [mbind result_bind].
      apply lookup_lt_Some in Hk as Hlt. rewrite IH by lia.
      destruct (decode_all v (drop (S k) fs)) as [es|e']; cbn [mbind result_bind]; [|done].
      cbn [cursor_frames]. rewrite <- app_assoc. cbn [app]. do 4 f_equal.
      rewrite (take_S_frames fs k f Hk), length_app. lia.
    + apply lookup_ge_None in Hk. rewrite drop_ge by lia. cbn [drain_frames]. unfold next.
      cbn [opened pe_done pe_count pe_yielded orb].
      destruct (N.leb_spec (lenN fs) (N.of_nat k)); [|unfold lenN in *; lia]. cbn. by rewrite app_nil_r.
Qed.

(** ** The claims *)

Definition frame_claim (f : frame) : option N :=
  match fr_type f with
  | Byte.x03 => le_u32_at (fr_payload f) 0
  | Byte.x04 => le_u32_at (fr_payload f) Pack.HASH_LEN
  | _ => None
  end.

Definition result_claim (e : PackEntry) : option N :=
  match e with PDelta _ stream => le_u32_at stream 5 | PRaw _ => None end.

Fixpoint charge_all (claims : list N) (b : DecodeBudget) : result PackError DecodeBudget :=
  match claims with
  | [] => Ok b
  | n :: claims => b ← charge_or n b; charge_all claims b
  end.

Definition sum (l : list N) : N := foldr N.add 0%N l.

Lemma charge_all_eq l b :
  (db_used b <= db_max b < U64_MAX)%N →
  charge_all l b =
    if (db_used b + sum l <=? db_max b)%N then Ok {| db_used := db_used b + sum l; db_max := db_max b |}
    else Err PackfileTooLarge.
Proof.
  revert b. induction l as [|n l IH]; intros [used max] Hb; cbn [charge_all sum foldr db_used db_max] in *.
  - rewrite N.add_0_r. by rewrite (proj2 (N.leb_le _ _)) by lia.
  - unfold charge_or, budget_charge. cbn [db_used db_max].
    destruct (N.ltb_spec max (N.min (used + n) U64_MAX)) as [Hl|Hl]; cbn [negb ensure mbind result_bind].
    + rewrite (proj2 (N.leb_gt _ _)) by lia. done.
    + rewrite N.min_l by lia. rewrite IH by (cbn; lia). cbn [db_used db_max].
      by rewrite N.add_assoc.
Qed.

Lemma claims_step_frame v fs k f b :
  fs !! k = Some f → (lenN (fr_payload f) <= U32_MAX)%N →
  let pos := (HEADER_LEN + length (frames_bytes (take k fs)))%nat in
  claims_step (pack_image v fs) (length (pack_body v fs)) (pos, b) =
    match match frame_claim f with Some n => charge_or n b | None => Ok b end with
    | Ok b => inl ((HEADER_LEN + length (frames_bytes (take (S k) fs)))%nat, b)
    | Err e => inr (Err e)
    end.
Proof.
  intros Hk Hu pos. pose proof (slice_payload v fs k f Hk Hu) as Hsl.
  destruct (frame_lies_image v fs k f Hk Hu) as (Hn & Hd & Hle). fold pos in Hd, Hle.
  unfold payload_range in Hsl. cbn [fst snd] in Hsl. fold pos in Hsl.
  assert (Hlen : (HEADER_LEN + length (frames_bytes (take (S k) fs)) = pos + length (frame_bytes f))%nat).
  { rewrite (take_S_frames fs k f Hk), length_app. unfold pos. lia. }
  rewrite Hlen in *. pose proof (length_frame f) as Hf.
  assert (nth pos (pack_image v fs) Byte.x00 = fr_type f) as Ht.
  { rewrite <- (Nat.add_0_r pos), <- nth_skipn. change (skipn pos) with (@drop byte pos). rewrite Hd. done. }
  assert (le_u32_at (pack_image v fs) (pos + 1) = Some (lenN (fr_payload f))) as Hl.
  { unfold le_u32_at. pose proof (f_equal length Hd) as Hlp. rewrite length_drop, length_app in Hlp.
    rewrite (proj2 (Nat.leb_le _ _)) by lia. f_equal. unfold slice. rewrite <- drop_drop, Hd. cbn [frame_bytes app drop].
    rewrite drop_0, <- app_assoc, take_app_length' by (by rewrite length_le_bytes).
    apply le_val_le_bytes. unfold U32_MAX in Hu. cbn. lia. }
  assert (length (fr_payload f) = N.to_nat (lenN (fr_payload f))) as Hpl by (unfold lenN; lia).
  unfold claims_step. rewrite (proj2 (Nat.ltb_lt _ _)) by lia. rewrite Hl. cbn [ok_or mbind result_bind].
  rewrite (proj2 (N.leb_le _ _)) by (unfold ENTRY_FRAME_LEN; lia). cbn [ensure mbind result_bind].
  assert (slice (pos + ENTRY_FRAME_LEN) (N.to_nat (lenN (fr_payload f))) (pack_image v fs) = fr_payload f) as ->.
  { rewrite <- Hsl at 2. f_equal. unfold ENTRY_FRAME_LEN. lia. }
  rewrite Ht. fold (frame_claim f).
  destruct (match frame_claim f with Some n => charge_or n b | None => Ok b end) as [b'|e]; cbn [mbind result_bind]; [|done].
  do 2 f_equal. unfold ENTRY_FRAME_LEN. lia.
Qed.

Lemma charge_claims_eq v cap fs b :
  pack_ok v cap fs →
  charge_compressed_claims (pack_image v fs) b = charge_all (omap frame_claim fs) b.
Proof.
  intros [_ _ Hok _]. unfold charge_compressed_claims.
  assert (Hgen : ∀ n k b fuel, (length fs - k = n)%nat → (n < fuel)%nat → (k <= length fs)%nat →
    loop fuel (claims_step (pack_image v fs) (length (pack_body v fs)))
      ((HEADER_LEN + length (frames_bytes (take k fs)))%nat, b) =
    Some (charge_all (omap frame_claim (drop k fs)) b)).
  { clear b. induction n as [|n IH]; intros k b [|fuel] Hn Hf Hk; try lia; cbn [loop].
    - rewrite take_ge, drop_ge by lia. unfold claims_step. rewrite length_body.
      rewrite (proj2 (Nat.ltb_ge _ _)) by (unfold HEADER_LEN; lia). done.
    - destruct (lookup_lt_is_Some_2 fs k) as [f Hf']; [lia|].
      assert (lenN (fr_payload f) <= U32_MAX)%N as Hu by (by eapply list.Forall_lookup_1 in Hok as [? _]).
      rewrite (claims_step_frame v fs k f b Hf' Hu), (drop_S _ _ _ Hf'). cbn [omap list_omap].
      destruct (frame_claim f) as [c|]; cbn [charge_all].
      + destruct (charge_or c b) as [b'|e]; cbn [mbind result_bind]; [|done]. apply IH; lia.
      + apply IH; lia. }
  replace (length (pack_image v fs) - TRAILER_LEN)%nat with (length (pack_body v fs))
    by (rewrite length_image; unfold TRAILER_LEN; lia).
  pose proof (Hgen (length fs) 0 b (S (length (pack_image v fs))) ltac:(lia)) as H.
  rewrite take_0, drop_0 in H. cbn [frames_bytes length] in H.
  rewrite Nat.add_0_r in H. rewrite H; [done| |lia].
  rewrite length_image, length_body.
  assert (length fs ≤ length (frames_bytes fs))%nat; [|lia].
  clear. induction fs as [|f fs IH]; [done|].
  rewrite frames_bytes_cons, length_app, length_frame. cbn. lia.
Qed.

Lemma count_uses_eq frames b uses :
  (∀ i, (default 0 (uses !! i) + uses_left i frames <= U64_MAX)%N) →
  count_uses frames b uses =
    (b ← charge_all (omap (λ f, result_claim (cf_entry f)) frames) b;
     Ok (b, foldl (λ u f, match cf_entry f with
                          | PDelta base _ => <[ base := (default 0 (u !! base) + 1)%N ]> u
                          | PRaw _ => u
                          end) uses frames)).
Proof.
  revert b uses. induction frames as [|f frames IH]; intros b uses Hu; [done|].
  cbn [count_uses omap list_omap foldl].
  destruct (cf_entry f) as [bs|base stream] eqn:Ef; cbn [result_claim].
  - apply IH. intros i. specialize (Hu i). rewrite uses_left_cons in Hu. unfold names_base in Hu. by rewrite Ef in Hu.
  - assert (Hu' : ∀ i, (default 0 (<[base:=default 0 (uses !! base) + 1]> uses !! i) + uses_left i frames <= U64_MAX)%N).
    { intros i. specialize (Hu i). rewrite uses_left_cons in Hu. unfold names_base in Hu. rewrite Ef in Hu.
      destruct (decide (base = i)) as [->|Hne].
      - rewrite bool_decide_true in Hu by done. rewrite lookup_insert_eq. simpl. lia.
      - rewrite bool_decide_false in Hu by done. by rewrite lookup_insert_ne. }
    assert (N.min (default 0 (uses !! base) + 1) U64_MAX = default 0 (uses !! base) + 1)%N as Hmin.
    { specialize (Hu base). rewrite uses_left_cons in Hu. unfold names_base in Hu. rewrite Ef, bool_decide_true in Hu by done. lia. }
    rewrite Hmin. destruct (le_u32_at stream 5) as [n|]; cbn [charge_all].
    + destruct (charge_or n b) as [b'|e]; cbn [mbind result_bind]; [|done]. by apply IH.
    + cbn [mbind result_bind]. by apply IH.
Qed.

Lemma count_uses_ok frames (n : hash32 → N) (uses : gmap hash32 N) :
  (∀ i, uses !! i = if (n i =? 0)%N then None else Some (n i)) →
  ∀ i, foldl (λ u f, match cf_entry f with
                     | PDelta base _ => <[ base := (default 0 (u !! base) + 1)%N ]> u
                     | PRaw _ => u
                     end) uses frames !! i =
    if (n i + uses_left i frames =? 0)%N then None else Some (n i + uses_left i frames)%N.
Proof.
  revert n uses. induction frames as [|f frames IH]; intros n uses Hu i; cbn [foldl].
  { unfold uses_left. cbn. rewrite lenN_nil, N.add_0_r. apply Hu. }
  rewrite (IH (λ i, (n i + if names_base i f then 1 else 0)%N)).
  - rewrite uses_left_cons. by rewrite N.add_assoc.
  - intros j. unfold names_base. destruct (cf_entry f) as [bs|base stream]; [by rewrite N.add_0_r|].
    destruct (decide (base = j)) as [->|Hne].
    + rewrite lookup_insert_eq, bool_decide_true, Hu by done.
      destruct (N.eqb_spec (n j) 0) as [->|]; [done|]. simpl. by destruct (N.eqb_spec (n j + 1) 0); [lia|].
    + rewrite lookup_insert_ne, bool_decide_false, N.add_0_r by done. apply Hu.
Qed.

Lemma decode_all_length v fs es : decode_all v fs = Ok es → length es = length fs.
Proof.
  revert es. induction fs as [|f fs IH]; intros es H; cbn [decode_all] in H; [by injection H as <-|].
  apply bind_Ok in H as (e & _ & H). apply bind_Ok in H as (es' & He & [= <-]). cbn. f_equal. by apply IH.
Qed.

Lemma cursor_frames_entries limits pos fs es :
  length es = length fs → map cf_entry (cursor_frames limits pos fs es) = es.
Proof.
  revert pos es. induction fs as [|f fs IH]; intros pos [|e es] Hl; try done. cbn. f_equal. apply IH. by injection Hl.
Qed.

Lemma uses_left_bound b frames : (uses_left b frames <= lenN frames)%N.
Proof.
  unfold uses_left, lenN. assert (length (List.filter (names_base b) frames) ≤ length frames)%nat; [|lia].
  apply filter_length_le.
Qed.

Definition report0 : DecodeReport := {| dr_raw_count := 0; dr_delta_count := 0; dr_ids := [] |}.

(** More is claimed than may be decoded. *)
Definition over_claims (v : N) (limits : DecodeLimits) (fs : list frame) : Prop :=
  (max_decoded_bytes limits < sum (omap frame_claim fs))%N ∨
  ∃ es, decode_all v fs = Ok es ∧
    (max_decoded_bytes limits < sum (omap frame_claim fs) + sum (omap result_claim es))%N.

Lemma cursor_new_spec v limits fs :
  pack_ok v MAX_TOTAL_PAYLOAD fs → (max_decoded_bytes limits < U64_MAX)%N →
  match PackDecodeCursor_new (pack_image v fs) limits with
  | Err e => e = PackfileTooLarge ∧ over_claims v limits fs ∨ decode_all v fs = Err e
  | Ok c => ∃ es, decode_all v fs = Ok es ∧
      (sum (omap frame_claim fs) + sum (omap result_claim es) <= max_decoded_bytes limits)%N ∧
      ∀ ext, tracks ext c (cursor_frames limits HEADER_LEN fs es) ∅ report0
  end.
Proof.
  intros Hok Hmax. unfold PackDecodeCursor_new.
  assert (PackEntries_new (pack_image v fs) = Ok (opened v fs 0 None)) as ->
    by (apply (open_iff _ MAX_TOTAL_PAYLOAD); [done|]; eauto).
  cbn [mbind result_bind]. rewrite (charge_claims_eq v MAX_TOTAL_PAYLOAD fs) by done.
  rewrite charge_all_eq by (cbn; lia). cbn [db_used db_max]. rewrite N.add_0_l.
  destruct (N.leb_spec (sum (omap frame_claim fs)) (max_decoded_bytes limits)) as [Hc|Hc]; cbn [mbind result_bind].
  2: { left. split; [done|by left]. }
  destruct Hok as [Hv Hcount Hfr Hsum].
  rewrite drain_frames_opened; [|eapply list.Forall_impl; [exact Hfr|by intros f [? _]]|cbn; unfold lenN; lia].
  rewrite drop_0, take_0. cbn [frames_bytes map concat length app]. rewrite Nat.add_0_r.
  destruct (decode_all v fs) as [es|e] eqn:Ed; cbn [mbind result_bind]; [|by right].
  pose proof (decode_all_length v fs es Ed) as Hlen.
  pose proof (cursor_frames_entries limits HEADER_LEN fs es Hlen) as Hent.
  set (frames := cursor_frames limits HEADER_LEN fs es) in *.
  assert (omap (λ f, result_claim (cf_entry f)) frames = omap result_claim es) as Hclaims.
  { rewrite <- Hent. clear. induction frames as [|f frames IH]; [done|]. cbn. by rewrite IH. }
  assert (lenN frames = lenN fs) as Hlf.
  { unfold lenN. f_equal. rewrite <- Hlen, <- Hent. by rewrite length_map. }
  rewrite count_uses_eq.
  2: { intros i. rewrite lookup_empty. pose proof (uses_left_bound i frames). simpl.
       unfold MAX_ENTRIES, U64_MAX in *. lia. }
  rewrite Hclaims, charge_all_eq by (cbn; lia). cbn [db_used db_max].
  destruct (N.leb_spec (sum (omap frame_claim fs) + sum (omap result_claim es)) (max_decoded_bytes limits)) as [Hr|Hr];
    cbn [mbind result_bind].
  2: { left. split; [done|right]. eauto. }
  exists es. split; [done|]. split; [done|]. intros ext. split; cbn; try done; try lia.
  - intros b. pose proof (count_uses_ok frames (λ _, 0%N) ∅) as H. rewrite H; [by rewrite N.add_0_l|].
    intros i. by rewrite lookup_empty.
  - intros b [x Hx]. by rewrite lookup_empty in Hx.
Qed.
End new.

(** ** The decoder *)

Section decoder.
Context `{B : Blake3, Z : Zstd} {S T : Type} `{!DeltaBaseSource S}.
Context (I : S → Prop) (view : hash32 → result PackError (option bytes)) `{!DeltaBaseView S I view}.
Context (sink : DecodedEntry → T → result PackError unit * T).

(** The reference decoder without a check before the frames. *)
Definition reference (ext : hash32 → result PackError (option bytes)) (frames : list CursorFrame) (t : T)
    : result PackError DecodeReport * T :=
  let '(r, _, t) := ref_decode ext (λ _ u, (Ok tt, u)) sink frames ∅ report0 tt t in (r, t).

Lemma reference_eq ext frames t :
  ref_decode ext (λ _ u, (Ok tt, u)) sink frames ∅ report0 tt t =
    ((reference ext frames t).1, tt, (reference ext frames t).2).
Proof. unfold reference. by destruct (ref_decode _ _ _ _ _ _ _ _) as [[r []] t']. Qed.

(** [decode_entries_with] on every byte string, with every source whose answers do not
    change, every limits and every sink. It ends. It refuses what is not a pack, more than it
    may decode, and the first entry that does not decompress, before the sink sees anything.
    Otherwise the cursor, which keeps a base only while a later delta names it, delivers to
    the sink and reports exactly what the decoder that keeps every entry does: a delta is taken
    over the last entry before it with the id of its base, or else over an external base that
    is proved to have this id; unless the budget is spent on a base from outside the pack. *)
Theorem decode_entries_spec (pack : bytes) (limits : DecodeLimits) (s : S) (t : T)
    (Hs : I s) (Hmax : (max_decoded_bytes limits < U64_MAX)%N) :
  ∃ res s' t', decode_entries_with pack limits sink s t = Some (res, s', t') ∧
    match PackEntries_new pack with
    | Err e => res = Err e ∧ t' = t
    | Ok _ =>
        ∃ v fs, pack_ok v MAX_TOTAL_PAYLOAD fs ∧ pack = pack_image v fs ∧
          (res = Err PackfileTooLarge ∧ t' = t ∧ over_claims v limits fs ∨
           match decode_all v fs with
           | Err e => res = Err e ∧ t' = t
           | Ok es =>
               let frames := cursor_frames limits HEADER_LEN fs es in
               (res, t') = reference (external VERIFIED view) frames t ∨
               res = Err PackfileTooLarge ∧ outside view frames
           end)
    end.
Proof.
  unfold decode_entries_with. destruct (PackEntries_new pack) as [es|e] eqn:Eo.
  2: { unfold PackDecodeCursor_new. rewrite Eo. cbn. by eexists _, _, _. }
  apply (open_iff _ MAX_TOTAL_PAYLOAD) in Eo as (v & fs & Hok & -> & ->); [|done].
  pose proof (cursor_new_spec v limits fs Hok Hmax) as Hn.
  destruct (PackDecodeCursor_new (pack_image v fs) limits) as [c|e].
  - destruct Hn as (es & Hes & _ & Htr).
    destruct (resume_checked_ok I view (λ _ u, (Ok tt, u)) sink c _ ∅ report0 s tt t (Htr _) Hs)
      as (res & w & Hr & _ & Hend).
    unfold resume. rewrite Hr. cbn [mbind option_bind]. exists res, (rs_source w), (rs_sink w). split; [done|].
    exists v, fs. split; [done|]. split; [done|]. right. rewrite Hes.
    destruct Hend as [(-> & Ho & _)|[Heq _]]; [by right|left].
    cbn beta in Heq. rewrite reference_eq in Heq. injection Heq as -> _ ->. by destruct (reference _ _ _).
  - exists (Err e), s, t. split; [done|]. exists v, fs. split; [done|]. split; [done|].
    destruct Hn as [[-> Ho]|Hd]; [by left|right]. by rewrite Hd.
Qed.
End decoder.
