(* ===== verification/Disclosure.v ===== *)
(** * Partial disclosure

    Models [rust/crates/mkit-core/src/verify.rs]: the verification that a path, a chunk or
    a range of bytes belongs to a commit, the bundle that carries the proof, and its
    builder over any object source. The Bao encoding is the class [Bao]; integers of a
    bundle are [N], positions in a Merkle tree are [nat] as in [Merkle]. *)

From S2P Require Import Messages Store ZstdFrame Pack.
From S2P Require Import Prelude Hash Object Serialize Merkle ObjectId Store Sign Wire Content.

Definition MAX_BUNDLE_BYTES : N := 64 * 1024 * 1024.
Definition BUNDLE_MAGIC : bytes := b# "MKDP".
Definition BUNDLE_VERSION : byte := Byte.x02.
Definition MAX_COMMIT_BYTES : N := 4 * 1024 * 1024.
Definition MAX_LEN_PROOF_SLICE_BYTES : N := 8 * 1024.

(** [VerifyError], its variants that these functions return. *)
Inductive VerifyError :=
  | VeBundleTooLarge
  | VeBadMagic
  | VeUnsupportedBundleVersion (version : byte)
  | VeInnerRootMismatch (expected inner_root : hash32)
  | VeInnerRootFoldMismatch
  | VeMalformed
  | VeCommitIdMismatch
  | VeCommitBytesHashMismatch
  | VeNotACommitOrRemix (t : ObjectType.t)
  | VeTooManySteps (n : nat)
  | VeInvalidEntryName (i : nat)
  | VeNonFinalStepNotTree (i : nat)
  | VeMerkle (e : MerkleError)
  | VeInvalidPayloadKind (kind : byte)
  | VePayloadIdMismatch
  | VeChunkIndexOutOfRange (index leaf_count : N)
  | VeTooManyChunks
  | VeZeroLengthRange
  | VeIncompleteLengthProofSet (index : N)
  | VeUnexpectedLengthProofs
  | VeBao (msg : bytes)
  | VeShortSlice (expected got : N)
  | VeInvalidBlobPrologue
  | VeOffsetOverflow
  | VeDecode (e : MkitError)
  | VeSelectorLeafMismatch
  | VeRangeCrossesChunkBoundary
  | VeRangeOutOfBounds
  | VePathNotFound (i : nat)
  | VePathThroughNonTree
  | VeStore (e : StoreError)
  | VeTooManyClosureObjects
  | VeClosureRootWrongType (t : ObjectType.t)
  | VeClosureProfileViolation (pack_index entry_index : N)
  | VePack (e : PackError)
  | VeClosureManifestBadMagic
  | VeClosureManifestUnsupportedVersion (version : byte)
  | VeClosureManifestMalformed
  | VeClosurePackCountMismatch (expected got : N)
  | VeClosurePackKeyMismatch (index : N)
  | VeClosureRootMismatch (expected got : hash32).

(** ** Bao *)

Class Bao := {
  (** [SliceExtractor::new_outboard] over the outboard encoding of the bytes, read to the end. *)
  bao_extract : bytes → N → N → result bytes bytes;
  (** [SliceDecoder::new] for a root, an offset and a length, read to the end. *)
  bao_decode : hash32 → N → N → bytes → result bytes bytes
}.

(** ** Data *)

Record Step := {
  st_name : bytes;
  st_mode : EntryMode.t;
  st_child_id : hash32;
  st_inner_root : hash32;
  st_position : N;
  st_proof : Proof_
}.

Record PathVerified := {
  pv_tree_hash : hash32;
  pv_path : list (bytes * EntryMode.t);
  pv_leaf_id : hash32;
  pv_signer : arr 32;
  pv_signature_valid : bool
}.

Inductive DisclosedPayload :=
  | DpObject (bytes_ : bytes)
  | DpChunk (total_size chunk_size index : N) (bytes_ : bytes)
  | DpRange (blob_id : hash32) (chunk : option (N * N * N)) (offset_in_blob : N)
      (absolute_offset : option N) (bytes_ : bytes).

Record Disclosed := {
  d_commit_id : hash32;
  d_tree_hash : hash32;
  d_path : list (bytes * EntryMode.t);
  d_leaf_id : hash32;
  d_payload : DisclosedPayload;
  d_signer : arr 32;
  d_signature_valid : bool;
  d_step_inner_roots : list hash32;
  d_chunk_inner_root : option hash32
}.

Inductive Selector :=
  | SelObject
  | SelChunk (index : N)
  | SelRange (offset len : N) (with_offsets : bool).

Record ChunkHdr := {
  ch_total_size : N;
  ch_chunk_size : N;
  ch_index : N;
  ch_inner_root : hash32;
  ch_chunk_id : hash32;
  ch_proof : Proof_
}.

Record LenProof := {
  lp_index : N;
  lp_chunk_id : hash32;
  lp_proof : Proof_;
  lp_slice : bytes
}.

Inductive PayloadWire :=
  | PwObject (bytes_ : bytes)
  | PwChunk (total_size chunk_size index : N) (inner_root : hash32) (proof : Proof_) (bytes_ : bytes)
  | PwRange (chunk : option ChunkHdr) (offset_in_blob len : N) (slice : bytes)
      (chunk_len_proofs : list LenProof).

(** ** The bundle *)

Section wire.
Context `{C : WireCodec}.

Definition ChunkHdr_write (h : ChunkHdr) : bytes :=
  write_u64 (ch_total_size h) ++ write_u32 (ch_chunk_size h) ++ write_u32 (ch_index h) ++
  write_hash (ch_inner_root h) ++ write_hash (ch_chunk_id h) ++ Proof_write (ch_proof h).

Definition ChunkHdr_read : reader ChunkHdr := λ r,
  '(total_size, r) ← read_u64 r;
  '(chunk_size, r) ← read_u32 r;
  '(index, r) ← read_u32 r;
  '(inner_root, r) ← read_hash r;
  '(chunk_id, r) ← read_hash r;
  '(proof, r) ← Proof_read_cfg 2 r;
  Some ({| ch_total_size := total_size; ch_chunk_size := chunk_size; ch_index := index;
           ch_inner_root := inner_root; ch_chunk_id := chunk_id; ch_proof := proof |}, r).

Definition LenProof_write (l : LenProof) : bytes :=
  write_u32 (lp_index l) ++ write_hash (lp_chunk_id l) ++ Proof_write (lp_proof l) ++
  write_bytes (lp_slice l).

Definition LenProof_read : reader LenProof := λ r,
  '(index, r) ← read_u32 r;
  '(chunk_id, r) ← read_hash r;
  '(proof, r) ← Proof_read_cfg 1 r;
  '(slice, r) ← read_bytes 0 MAX_LEN_PROOF_SLICE_BYTES r;
  Some ({| lp_index := index; lp_chunk_id := chunk_id; lp_proof := proof; lp_slice := slice |}, r).

Definition Step_write (s : Step) : bytes :=
  write_bytes (st_name s) ++ write_u8 (EntryMode.to_u8 (st_mode s)) ++ write_hash (st_child_id s) ++
  write_hash (st_inner_root s) ++ write_u32 (st_position s) ++ Proof_write (st_proof s).

Definition Step_read : reader Step := λ r,
  '(name, r) ← read_bytes 1 255 r;
  '(mode_byte, r) ← read_u8 r;
  mode ← to_option (EntryMode.from_u8 mode_byte);
  '(child_id, r) ← read_hash r;
  '(inner_root, r) ← read_hash r;
  '(position, r) ← read_u32 r;
  '(proof, r) ← Proof_read_cfg 1 r;
  Some ({| st_name := name; st_mode := mode; st_child_id := child_id; st_inner_root := inner_root;
           st_position := position; st_proof := proof |}, r).

(** [?] on a codec result. *)
Definition codec {A} (o : option A) : result VerifyError A := ok_or o VeMalformed.

Definition decode_payload (kind : byte) (r : bytes) : result VerifyError (PayloadWire * bytes) :=
  match kind with
  | Byte.x00 =>
      '(bytes_, r) ← codec (read_bytes 0 MAX_RAW_OBJECT_SIZE r);
      Ok (PwObject bytes_, r)
  | Byte.x01 =>
      '(total_size, r) ← codec (read_u64 r);
      '(chunk_size, r) ← codec (read_u32 r);
      '(index, r) ← codec (read_u32 r);
      '(inner_root, r) ← codec (read_hash r);
      '(proof, r) ← codec (Proof_read_cfg 2 r);
      '(bytes_, r) ← codec (read_bytes 0 MAX_RAW_OBJECT_SIZE r);
      Ok (PwChunk total_size chunk_size index inner_root proof bytes_, r)
  | Byte.x02 =>
      '(chunk, r) ← codec (read_option ChunkHdr_read r);
      '(offset_in_blob, r) ← codec (read_u64 r);
      '(len, r) ← codec (read_u64 r);
      '(slice, r) ← codec (read_bytes 0 MAX_BUNDLE_BYTES r);
      '(chunk_len_proofs, r) ← codec (read_vec LenProof_read 0 MAX_CHUNKS r);
      Ok (PwRange chunk offset_in_blob len slice chunk_len_proofs, r)
  | other => Err (VeInvalidPayloadKind other)
  end.

Definition decode_disclosure (bs : bytes)
    : result VerifyError (hash32 * bytes * list Step * PayloadWire) :=
  _ ← ensure (lenN bs <=? MAX_BUNDLE_BYTES)%N VeBundleTooLarge;
  _ ← ensure (negb ((length bs <? 5)%nat || negb (bytes_eqb (take 4 bs) BUNDLE_MAGIC))) VeBadMagic;
  let version := default Byte.x00 (bs !! 4) in
  _ ← ensure (bool_decide (version = BUNDLE_VERSION)) (VeUnsupportedBundleVersion version);
  let r := drop 5 bs in
  '(commit_id, r) ← codec (read_hash r);
  '(commit_bytes, r) ← codec (read_bytes 0 MAX_COMMIT_BYTES r);
  '(steps, r) ← codec (read_vec Step_read 0 MAX_TREE_DEPTH r);
  '(payload_kind, r) ← codec (read_u8 r);
  '(payload, r) ← decode_payload payload_kind r;
  _ ← ensure (bool_decide (r = [])) VeMalformed;
  Ok (commit_id, commit_bytes, steps, payload).

Definition encode_payload (payload : PayloadWire) : bytes :=
  match payload with
  | PwObject bytes_ => Byte.x00 :: write_bytes bytes_
  | PwChunk total_size chunk_size index inner_root proof bytes_ =>
      Byte.x01 :: write_u64 total_size ++ write_u32 chunk_size ++ write_u32 index ++
      write_hash inner_root ++ Proof_write proof ++ write_bytes bytes_
  | PwRange chunk offset_in_blob len slice chunk_len_proofs =>
      Byte.x02 :: write_option ChunkHdr_write chunk ++ write_u64 offset_in_blob ++ write_u64 len ++
      write_bytes slice ++ write_vec LenProof_write chunk_len_proofs
  end.

Definition encode_disclosure (commit_id : hash32) (commit_bytes : bytes) (steps : list Step)
    (payload : PayloadWire) : bytes :=
  BUNDLE_MAGIC ++ [BUNDLE_VERSION] ++ write_hash commit_id ++ write_bytes commit_bytes ++
  write_vec Step_write steps ++ encode_payload payload.
End wire.

(** ** Verification *)

Record CommitContext := {
  cx_tree_hash : hash32;
  cx_signer : arr 32;
  cx_signature_valid : bool
}.

Definition CommitContext_from_disclosed (d : Disclosed) : CommitContext :=
  {| cx_tree_hash := d_tree_hash d; cx_signer := d_signer d; cx_signature_valid := d_signature_valid d |}.

Section verify.
Context `{B : Blake3, E : Ed25519, O : Bao}.

Definition check_inner_root_wrap (kind : ObjectKind) (expected_id inner_root : hash32)
    : result VerifyError unit :=
  ensure (bool_decide (wrap_id kind inner_root = expected_id)) (VeInnerRootMismatch expected_id inner_root).

Definition check_inner_root_fold (folded declared expected_id : hash32) (kind : ObjectKind)
    : result VerifyError unit :=
  _ ← ensure (bool_decide (folded = declared)) VeInnerRootFoldMismatch;
  ensure (bool_decide (wrap_id kind folded = expected_id)) (VeMerkle VerificationFailed).

Definition verify_object_id (bs : bytes) (expected : hash32) : result VerifyError Object :=
  obj ← map_err VeDecode (deserialize bs);
  _ ← ensure (bool_decide (id_from_object obj bs = expected)) VePayloadIdMismatch;
  Ok obj.

Definition step_entry (step : Step) : TreeEntry :=
  {| te_name := st_name step; te_mode := st_mode step; te_hash := st_child_id step |}.

(** One round of the loop over the steps, the [i]-th of them. *)
Definition verify_step (last i : nat) (expected_parent : hash32) (step : Step)
    : result VerifyError unit :=
  _ ← ensure (validate_name (st_name step)) (VeInvalidEntryName i);
  _ ← ensure ((i =? last)%nat || bool_decide (st_mode step = EntryMode.Tree)) (VeNonFinalStepNotTree i);
  _ ← check_inner_root_wrap KTree expected_parent (st_inner_root step);
  folded ← map_err VeMerkle
    (reconstruct_element_root (st_proof step) (tree_entry_leaf (step_entry step))
       (N.to_nat (st_position step)));
  check_inner_root_fold folded (st_inner_root step) expected_parent KTree.

Fixpoint verify_steps (last i : nat) (steps : list Step) (expected_parent leaf_id : hash32)
    (path : list (bytes * EntryMode.t)) : result VerifyError (list (bytes * EntryMode.t) * hash32) :=
  match steps with
  | [] => Ok (path, leaf_id)
  | step :: steps =>
      _ ← verify_step last i expected_parent step;
      verify_steps last (S i) steps (st_child_id step) (st_child_id step)
        (path ++ [(st_name step, st_mode step)])
  end.

Definition verify_path_with_context (steps : list Step) (context : CommitContext)
    : result VerifyError PathVerified :=
  _ ← ensure (lenN steps <=? MAX_TREE_DEPTH)%N (VeTooManySteps (length steps));
  let last := length steps - 1 in
  '(path, leaf_id) ← verify_steps last 0 steps (cx_tree_hash context) (cx_tree_hash context) [];
  Ok {| pv_tree_hash := cx_tree_hash context; pv_path := path; pv_leaf_id := leaf_id;
        pv_signer := cx_signer context; pv_signature_valid := cx_signature_valid context |}.

Definition verify_path (commit_id : hash32) (commit_bytes : bytes) (steps : list Step)
    : result VerifyError PathVerified :=
  _ ← ensure (bool_decide (hash commit_bytes = commit_id)) VeCommitBytesHashMismatch;
  _ ← ensure (lenN steps <=? MAX_TREE_DEPTH)%N (VeTooManySteps (length steps));
  obj ← map_err VeDecode (deserialize commit_bytes);
  context ← match obj with
    | OCommit c => Ok {| cx_tree_hash := c_tree_hash c; cx_signer := c_signer c;
                         cx_signature_valid := is_ok (verify_commit c) |}
    | ORemix r => Ok {| cx_tree_hash := r_tree_hash r; cx_signer := r_signer r;
                        cx_signature_valid := is_ok (verify_remix r) |}
    | other => Err (VeNotACommitOrRemix (object_type other))
    end;
  verify_path_with_context steps context.

Definition verify_path_reusing_context (commit_id : hash32) (commit_bytes : bytes) (steps : list Step)
    (context : CommitContext) : result VerifyError PathVerified :=
  _ ← ensure (bool_decide (hash commit_bytes = commit_id)) VeCommitBytesHashMismatch;
  verify_path_with_context steps context.

(** The bounds on an index of a chunk; the position of its leaf. *)
Definition chunk_leaf_position (index : N) (p : Proof_) : result VerifyError nat :=
  let leaf_count := N.of_nat (Merkle.leaf_count p) in
  let out_of_range := VeChunkIndexOutOfRange index leaf_count in
  _ ← ensure (negb (leaf_count =? 0)%N) out_of_range;
  let chunk_count := (leaf_count - 1)%N in
  _ ← ensure (chunk_count <=? MAX_CHUNKS)%N VeTooManyChunks;
  _ ← ensure ((index + 1 <=? U32_MAX) && (index + 1 <? leaf_count))%N out_of_range;
  Ok (N.to_nat (index + 1)).

Definition verify_chunk_with_meta (chunked_id : hash32) (total_size chunk_size : N)
    (chunk_hash : hash32) (index : N) (p : Proof_) : result VerifyError unit :=
  position ← chunk_leaf_position index p;
  map_err VeMerkle
    (verify_chunk_with_meta_leaf chunked_id total_size chunk_size chunk_hash position p).

Definition verify_chunk_with_declared_root (chunked_id inner_root : hash32) (total_size chunk_size : N)
    (chunk_hash : hash32) (index : N) (p : Proof_) : result VerifyError unit :=
  position ← chunk_leaf_position index p;
  _ ← check_inner_root_wrap KChunkedBlob chunked_id inner_root;
  let meta_leaf := chunked_meta_leaf_raw total_size chunk_size in
  folded ← map_err VeMerkle (reconstruct_multi_root p [(meta_leaf, 0); (chunk_hash, position)]);
  check_inner_root_fold folded inner_root chunked_id KChunkedBlob.

Definition bao_verify_slice (root : hash32) (bao_offset len : N) (slice : bytes)
    : result VerifyError bytes :=
  out ← map_err VeBao (bao_decode root bao_offset len slice);
  _ ← ensure (lenN out =? len)%N (VeShortSlice len (lenN out));
  Ok out.

Definition verify_blob_slice (blob_id : hash32) (content_offset len : N) (slice : bytes)
    : result VerifyError bytes :=
  _ ← ensure (negb (len =? 0)%N) VeZeroLengthRange;
  bao_offset ← ok_or (checked_add content_offset 10) VeOffsetOverflow;
  bao_verify_slice blob_id bao_offset len slice.

Definition verify_blob_len_proof (blob_id : hash32) (slice : bytes) : result VerifyError N :=
  bs ← bao_verify_slice blob_id 0 10 slice;
  _ ← ensure (negb (negb (bool_decide (bs !! 0 = Some (ObjectType.to_u8 ObjectType.Blob)))
                    || negb (bytes_eqb (Prelude.slice 1 4 bs) MAGIC)
                    || negb (bool_decide (bs !! 5 = Some SCHEMA_VERSION)))) VeInvalidBlobPrologue;
  Ok (le_val (Prelude.slice 6 4 bs)).

(** The loop over the proofs of the lengths of preceding chunks. *)
Fixpoint check_len_proofs (chunked_id : hash32) (index : N) (proofs : list LenProof)
    (by_index : gmap N N) : result VerifyError (gmap N N) :=
  match proofs with
  | [] => Ok by_index
  | lp :: proofs =>
      _ ← ensure (negb ((index <=? lp_index lp)%N || bool_decide (is_Some (by_index !! lp_index lp))))
            (VeIncompleteLengthProofSet index);
      _ ← map_err VeMerkle
            (verify_chunk chunked_id (lp_chunk_id lp) (N.to_nat (lp_index lp + 1)) (lp_proof lp));
      len_j ← verify_blob_len_proof (lp_chunk_id lp) (lp_slice lp);
      check_len_proofs chunked_id index proofs (<[lp_index lp := len_j]> by_index)
  end.

(** [by_index.values().map(u64::from).sum()]. *)
Definition sum_values (m : gmap N N) : N := map_fold (λ _ l s, (l + s)%N) 0%N m.

Definition resolve_absolute_offset (chunked_id : hash32) (index : N) (chunk_len_proofs : list LenProof)
    (offset_in_blob : N) : result VerifyError (option N) :=
  if (index =? 0)%N then
    _ ← ensure (bool_decide (chunk_len_proofs = [])) VeUnexpectedLengthProofs;
    Ok (Some offset_in_blob)
  else match chunk_len_proofs with
  | [] => Ok None
  | _ =>
      by_index ← check_len_proofs chunked_id index chunk_len_proofs ∅;
      _ ← ensure (N.min (N.of_nat (size by_index)) U32_MAX =? index)%N (VeIncompleteLengthProofSet index);
      absolute ← ok_or (checked_add (sum_values by_index) offset_in_blob) VeOffsetOverflow;
      Ok (Some absolute)
  end.

Definition compose_payload (leaf_id : hash32) (payload : PayloadWire)
    : result VerifyError DisclosedPayload :=
  match payload with
  | PwObject bytes_ =>
      _ ← verify_object_id bytes_ leaf_id;
      Ok (DpObject bytes_)
  | PwChunk total_size chunk_size index inner_root proof bytes_ =>
      let chunk_hash := hash bytes_ in
      _ ← verify_chunk_with_declared_root leaf_id inner_root total_size chunk_size chunk_hash index proof;
      Ok (DpChunk total_size chunk_size index bytes_)
  | PwRange None offset_in_blob len slice chunk_len_proofs =>
      _ ← ensure (bool_decide (chunk_len_proofs = [])) VeUnexpectedLengthProofs;
      bytes_ ← verify_blob_slice leaf_id offset_in_blob len slice;
      Ok (DpRange leaf_id None offset_in_blob (Some offset_in_blob) bytes_)
  | PwRange (Some hdr) offset_in_blob len slice chunk_len_proofs =>
      _ ← ensure (negb (len =? 0)%N) VeZeroLengthRange;
      _ ← verify_chunk_with_declared_root leaf_id (ch_inner_root hdr) (ch_total_size hdr)
            (ch_chunk_size hdr) (ch_chunk_id hdr) (ch_index hdr) (ch_proof hdr);
      bytes_ ← verify_blob_slice (ch_chunk_id hdr) offset_in_blob len slice;
      absolute_offset ← resolve_absolute_offset leaf_id (ch_index hdr) chunk_len_proofs offset_in_blob;
      Ok (DpRange (ch_chunk_id hdr) (Some (ch_index hdr, ch_total_size hdr, ch_chunk_size hdr))
            offset_in_blob absolute_offset bytes_)
  end.

Definition payload_inner_root (payload : PayloadWire) : option hash32 :=
  match payload with
  | PwChunk _ _ _ inner_root _ _ => Some inner_root
  | PwRange (Some hdr) _ _ _ _ => Some (ch_inner_root hdr)
  | _ => None
  end.

(** What both verifications do with the path that they verified. *)
Definition disclosed_of (commit_id : hash32) (steps : list Step) (payload : PayloadWire)
    (verified : PathVerified) : result VerifyError Disclosed :=
  let step_inner_roots := map st_inner_root steps in
  let chunk_inner_root := payload_inner_root payload in
  payload ← compose_payload (pv_leaf_id verified) payload;
  Ok {| d_commit_id := commit_id; d_tree_hash := pv_tree_hash verified; d_path := pv_path verified;
        d_leaf_id := pv_leaf_id verified; d_payload := payload; d_signer := pv_signer verified;
        d_signature_valid := pv_signature_valid verified; d_step_inner_roots := step_inner_roots;
        d_chunk_inner_root := chunk_inner_root |}.

Context `{C : WireCodec}.

Definition verify_disclosure (commit_id : hash32) (bundle : bytes) : result VerifyError Disclosed :=
  '(wire_commit_id, commit_bytes, steps, payload) ← decode_disclosure bundle;
  _ ← ensure (bool_decide (wire_commit_id = commit_id)) VeCommitIdMismatch;
  verified ← verify_path commit_id commit_bytes steps;
  disclosed_of commit_id steps payload verified.

Definition verify_disclosure_reusing_context (commit_id : hash32) (bundle : bytes)
    (context : CommitContext) : result VerifyError Disclosed :=
  '(wire_commit_id, commit_bytes, steps, payload) ← decode_disclosure bundle;
  _ ← ensure (bool_decide (wire_commit_id = commit_id)) VeCommitIdMismatch;
  verified ← verify_path_reusing_context commit_id commit_bytes steps context;
  disclosed_of commit_id steps payload verified.
End verify.

(** ** The builder *)

Section build.
Context `{B : Blake3, O : Bao} {S : Type} `{!ObjectSource S}.

(** [?] with [From<StoreError> for VerifyError]. *)
Definition ve {A} (m : M S A) : ME VerifyError S A := λ s,
  let '(r, s) := m s in (map_err VeStore r, s).

Definition extract_bao_slice (bs : bytes) (bao_offset len : N) : result VerifyError bytes :=
  map_err VeBao (bao_extract bs bao_offset len).

(** The [i]-th round of the walk down the path: the step and the id to go on with. *)
Definition build_step (i : nat) (tree : Tree) (name : bytes) : result VerifyError Step :=
  position ← ok_or (tree_entry_position tree name) (VePathNotFound i);
  entry ← ok_or (tree_entries tree !! position) (VePathNotFound i);
  proof ← map_err VeMerkle (build_tree_entry_proof tree position);
  Ok {| st_name := name; st_mode := te_mode entry; st_child_id := te_hash entry;
        st_inner_root := tree_inner_root tree; st_position := N.of_nat position; st_proof := proof |}.

Fixpoint build_steps (i : nat) (path : list bytes) (current_tree_id leaf_id : hash32)
    (steps : list Step) : ME VerifyError S (list Step * hash32) :=
  match path with
  | [] => me_lift (Ok (steps, leaf_id))
  | name :: path =>
      me_bind (ve (src_read_object current_tree_id)) (λ o,
        match o with
        | OTree tree =>
            me_bind (me_lift (build_step i tree name)) (λ step,
              let steps := steps ++ [step] in
              let leaf_id := st_child_id step in
              let is_last := bool_decide (path = []) in
              if bool_decide (st_mode step = EntryMode.Tree) then
                build_steps (Datatypes.S i) path (st_child_id step) leaf_id steps
              else if negb is_last then me_lift (Err VePathThroughNonTree)
              else build_steps (Datatypes.S i) path current_tree_id leaf_id steps)
        | _ => me_lift (Err VePathThroughNonTree)
        end)
  end.

Definition build_prefix (commit_id : hash32) (path : list bytes)
    : ME VerifyError S (bytes * list Step * hash32) :=
  me_bind (me_lift (ensure (lenN path <=? MAX_TREE_DEPTH)%N (VeTooManySteps (length path)))) (λ _,
  me_bind (ve (src_read commit_id)) (λ commit_bytes,
  me_bind (me_lift (map_err VeDecode (deserialize commit_bytes))) (λ commit_obj,
  me_bind (me_lift match commit_obj with
                   | OCommit c => Ok (c_tree_hash c)
                   | ORemix r => Ok (r_tree_hash r)
                   | other => Err (VeNotACommitOrRemix (object_type other))
                   end) (λ tree_hash,
  me_bind (build_steps 0 path tree_hash tree_hash []) (λ '(steps, leaf_id),
  me_lift (Ok (commit_bytes, steps, leaf_id))))))).

(** [iter().map(|id| source.read(id)).collect::<Result<_, _>>()]. *)
Fixpoint read_all (ids : list hash32) : ME VerifyError S (list bytes) :=
  match ids with
  | [] => me_lift (Ok [])
  | id :: ids =>
      me_bind (ve (src_read id)) (λ bs, me_bind (read_all ids) (λ rest, me_lift (Ok (bs :: rest))))
  end.

(** The loop that finds the chunk that holds [offset]: its index, start and length. *)
Fixpoint locate (offset : N) (idx : nat) (cumulative : N) (chunk_bytes : list bytes)
    : result VerifyError (option (nat * N * N)) :=
  match chunk_bytes with
  | [] => Ok None
  | bs :: chunk_bytes =>
      _ ← ensure (10 <=? lenN bs)%N (VeDecode UnexpectedEof);
      let content_len := (lenN bs - 10)%N in
      chunk_end ← ok_or (checked_add cumulative content_len) VeOffsetOverflow;
      if (offset <? chunk_end)%N then Ok (Some (idx, cumulative, content_len))
      else locate offset (Datatypes.S idx) chunk_end chunk_bytes
  end.

(** The proofs of the lengths of the chunks from the [j]-th, one for each of their bytes. *)
Fixpoint len_proofs (cb : ChunkedBlob) (j : nat) (preceding : list bytes)
    : result VerifyError (list LenProof) :=
  match preceding with
  | [] => Ok []
  | preceding_bytes :: preceding =>
      _ ← ensure (N.of_nat j + 1 <=? U32_MAX)%N VeTooManyChunks;
      proof_j ← map_err VeMerkle (build_chunk_proof cb (j + 1));
      slice_j ← extract_bao_slice preceding_bytes 0 10;
      rest ← len_proofs cb (Datatypes.S j) preceding;
      Ok ({| lp_index := N.of_nat j; lp_chunk_id := default ZERO (cb_chunks cb !! j);
             lp_proof := proof_j; lp_slice := slice_j |} :: rest)
  end.

(** The part of [build_chunked_range_payload] after the reads. *)
Definition chunked_range_of (cb : ChunkedBlob) (chunk_bytes : list bytes) (offset len : N)
    (with_offsets : bool) : result VerifyError PayloadWire :=
  located ← locate offset 0 0 chunk_bytes;
  '(index, chunk_start, content_len) ← ok_or located VeRangeOutOfBounds;
  _ ← ensure (chunk_start <=? offset)%N VeOffsetOverflow;
  let offset_in_chunk := (offset - chunk_start)%N in
  range_end ← ok_or (checked_add offset_in_chunk len) VeOffsetOverflow;
  _ ← ensure (range_end <=? content_len)%N VeRangeCrossesChunkBoundary;
  _ ← ensure (N.of_nat index + 1 <=? U32_MAX)%N VeTooManyChunks;
  proof ← map_err VeMerkle (build_chunks_multi_proof cb [0; index + 1]);
  bao_offset ← ok_or (checked_add offset_in_chunk 10) VeOffsetOverflow;
  slice ← extract_bao_slice (default [] (chunk_bytes !! index)) bao_offset len;
  chunk_len_proofs ← (if with_offsets then len_proofs cb 0 (take index chunk_bytes) else Ok []);
  Ok (PwRange (Some {| ch_total_size := cb_total_size cb; ch_chunk_size := cb_chunk_size cb;
                       ch_index := N.of_nat index; ch_inner_root := chunked_inner_root cb;
                       ch_chunk_id := default ZERO (cb_chunks cb !! index); ch_proof := proof |})
        offset_in_chunk len slice chunk_len_proofs).

Definition build_chunked_range_payload (cb : ChunkedBlob) (offset len : N) (with_offsets : bool)
    : ME VerifyError S PayloadWire :=
  me_bind (read_all (cb_chunks cb)) (λ chunk_bytes,
  me_lift (chunked_range_of cb chunk_bytes offset len with_offsets)).

(** The checks of a chunk's index, its id and its proof. *)
Definition chunk_of (cb : ChunkedBlob) (index : N) : result VerifyError (hash32 * Proof_) :=
  _ ← ensure (lenN (cb_chunks cb) + 1 <=? U32_MAX)%N VeTooManyChunks;
  let leaf_count := (lenN (cb_chunks cb) + 1)%N in
  let out_of_range := VeChunkIndexOutOfRange index leaf_count in
  chunk_id ← ok_or (cb_chunks cb !! N.to_nat index) out_of_range;
  _ ← ensure (index + 1 <=? U32_MAX)%N out_of_range;
  proof ← map_err VeMerkle (build_chunks_multi_proof cb [0; N.to_nat index + 1]);
  Ok (chunk_id, proof).

Definition build_payload (leaf_id : hash32) (selector : Selector) : ME VerifyError S PayloadWire :=
  match selector with
  | SelObject => me_bind (ve (src_read leaf_id)) (λ bytes_, me_lift (Ok (PwObject bytes_)))
  | SelChunk index =>
      me_bind (ve (src_read_object leaf_id)) (λ o,
        match o with
        | OChunkedBlob cb =>
            me_bind (me_lift (chunk_of cb index)) (λ '(chunk_id, proof),
            me_bind (ve (src_read chunk_id)) (λ bytes_,
            me_lift (Ok (PwChunk (cb_total_size cb) (cb_chunk_size cb) index (chunked_inner_root cb)
                           proof bytes_))))
        | _ => me_lift (Err VeSelectorLeafMismatch)
        end)
  | SelRange offset len with_offsets =>
      me_bind (me_lift (ensure (negb (len =? 0)%N) VeZeroLengthRange)) (λ _,
      me_bind (ve (src_read_object leaf_id)) (λ o,
        match o with
        | OBlob b =>
            me_bind (me_lift (end_ ← ok_or (checked_add offset len) VeOffsetOverflow;
                              ensure (end_ <=? lenN (blob_data b))%N VeRangeOutOfBounds)) (λ _,
            me_bind (ve (src_read leaf_id)) (λ canonical,
            me_lift (bao_offset ← ok_or (checked_add offset 10) VeOffsetOverflow;
                     slice ← extract_bao_slice canonical bao_offset len;
                     Ok (PwRange None offset len slice []))))
        | OChunkedBlob cb => build_chunked_range_payload cb offset len with_offsets
        | _ => me_lift (Err VeSelectorLeafMismatch)
        end))
  end.

Context `{C : WireCodec}.

(** [build_disclosure_from]; [build_disclosure] is its instance at an [ObjectStore]. *)
Definition build_disclosure_from (commit_id : hash32) (path : list bytes) (selector : Selector)
    : ME VerifyError S bytes :=
  me_bind (build_prefix commit_id path) (λ '(commit_bytes, steps, leaf_id),
  me_bind (build_payload leaf_id selector) (λ payload,
  me_lift (Ok (encode_disclosure commit_id commit_bytes steps payload)))).
End build.

Definition build_disclosure `{B : Blake3, O : Bao, C : WireCodec} (commit_id : hash32) (path : list bytes)
    (selector : Selector) : ME VerifyError ObjectStore bytes :=
  build_disclosure_from commit_id path selector.
