(* ===== verification/DisclosureFacts.v ===== *)
(** * What a disclosure proves

    The contract of [verify_disclosure] towards a repository: whatever a genuine repository
    holds along the disclosed path agrees with the disclosure, or the verifier and the
    repository hash two different inputs to one digest (or the slice is a forgery of Bao). *)

From S2P Require Import Prelude Hash Object Serialize SerializeFacts Merkle MerkleFacts MerkleProofs.
From S2P Require Import ObjectId Store StoreFacts Sign Wire Content ContentFacts Disclosure.

(** ** The laws of Bao *)

(** [forges content offset len slice]: a slice that decodes under the root of the content,
    though the decoder hashed something else than the tree of the content. *)
Class BaoLaws `{Blake3, Bao} (forges : bytes → N → N → bytes → Prop) : Prop := {
  bao_sound content off len slice out :
    bao_decode (hash content) off len slice = Ok out →
    out = take (N.to_nat len) (drop (N.to_nat off) content) ∨ forges content off len slice;
  bao_complete content off len :
    (off + len <= lenN content)%N →
    ∃ slice, bao_extract content off len = Ok slice ∧
      bao_decode (hash content) off len slice =
        Ok (take (N.to_nat len) (drop (N.to_nat off) content));
  (** A slice of ten bytes at the start: a leaf, its parents and a header. *)
  bao_head_slice content slice :
    bao_extract content 0 10 = Ok slice → (lenN slice <= MAX_LEN_PROOF_SLICE_BYTES)%N
}.

(** ** A genuine repository *)

Section repo.
Context `{B : Blake3, BI : !Blake3Incremental} (view : hash32 → result StoreError bytes).

(** Every object is stored under its id. *)
Definition genuine : Prop := ∀ h bs, view h = Ok bs → object_id_from_bytes bs = h.

(** The object under an id, if there is one. *)
Definition holds (h : hash32) (o : Object) : Prop := view_object view h = Ok o.

Lemma holds_Ok h o : holds h o ↔ ∃ bs, view h = Ok bs ∧ deserialize bs = Ok o.
Proof.
  unfold holds, view_object. rewrite bind_Ok. split; intros (bs & Hv & H); exists bs; (split; [done|]).
  - unfold decode_err in H. destruct (deserialize bs); congruence.
  - by rewrite H.
Qed.

Lemma deserialize_serialize o bs : deserialize bs = Ok o → wf o = true ∧ serialize o = Ok bs.
Proof.
  intros (Hw & l & E & Hbs)%deserialize_inv. split; [done|]. unfold serialize. by rewrite E, Hbs.
Qed.

Lemma holds_wf h o :
  genuine → holds h o → wf o = true ∧ Object_id o = Ok h ∧ ∃ bs, view h = Ok bs ∧ serialize o = Ok bs.
Proof.
  intros G (bs & Hv & Hd)%holds_Ok. pose proof (G _ _ Hv) as Hid.
  destruct (deserialize_serialize _ _ Hd) as [Hw Hs].
  split; [done|]. split; [|by exists bs].
  rewrite (object_id_from_bytes_object o bs) in Hid by done. subst h. by apply Object_id_object.
Qed.

(** The bytes of a blob: a prologue of ten bytes before its content. *)
Lemma blob_bytes b bs :
  wf (OBlob b) = true → serialize (OBlob b) = Ok bs →
  bs = (write_prologue ObjectType.Blob ++ le_bytes 4 (lenN (blob_data b))) ++ blob_data b ∧
  (lenN (blob_data b) <= U32_MAX)%N.
Proof.
  intros Hw Hs. assert (u32_bounded (lenN (blob_data b)) = true) as Hb by (cbn in Hw; done).
  unfold serialize in Hs. cbn [write_body object_type] in Hs. unfold write_blob in Hs.
  rewrite write_lp_bytes_bounded in Hs by done. injection Hs as <-.
  split; [by rewrite <- app_assoc|]. by apply N.leb_le in Hb.
Qed.

(** A blob whose id is a plain digest of its bytes. *)
Lemma holds_blob h b :
  genuine → holds h (OBlob b) →
  ∃ bs, hash bs = h ∧ id_inputs (OBlob b) = [bs] ∧ serialize (OBlob b) = Ok bs ∧ wf (OBlob b) = true.
Proof.
  intros G Ho. destruct (holds_wf _ _ G Ho) as (Hw & Hid & bs & _ & Hs). exists bs.
  split; [|split; [|done]].
  - unfold Object_id in Hid. cbn [merkle_id] in Hid. rewrite Hs in Hid. by injection Hid.
  - cbn [id_inputs]. by rewrite Hs.
Qed.

(** Down from a tree along a path of names and modes: what the repository holds agrees. *)
Inductive agrees : hash32 → list (bytes * EntryMode.t) → hash32 → Prop :=
  | agrees_nil h : agrees h [] h
  | agrees_cons h name mode child path leaf :
      (∀ o, holds h o → ∃ t, o = OTree t ∧
         {| te_name := name; te_mode := mode; te_hash := child |} ∈ tree_entries t) →
      agrees child path leaf → agrees h ((name, mode) :: path) leaf.

(** The way down that a repository has. *)
Inductive leads : hash32 → list (bytes * EntryMode.t) → hash32 → Prop :=
  | leads_nil h : leads h [] h
  | leads_cons h t e path leaf :
      holds h (OTree t) → e ∈ tree_entries t → leads (te_hash e) path leaf →
      leads h ((te_name e, te_mode e) :: path) leaf.

(** Names of a well-formed tree are apart. *)
Lemma tree_name_unique t e1 e2 :
  wf_tree t = true → e1 ∈ tree_entries t → e2 ∈ tree_entries t → te_name e1 = te_name e2 → e1 = e2.
Proof.
  intros [_ Hs]%andb_true_iff [i1 H1]%list_elem_of_lookup_1 [i2 H2]%list_elem_of_lookup_1 Hn.
  apply sorted_names_NoDup in Hs. enough (i1 = i2) as -> by congruence.
  eapply (NoDup_lookup (te_name <$> tree_entries t)); [done|..]; rewrite list_lookup_fmap;
    [by rewrite H1|by rewrite H2, Hn].
Qed.

(** A path that the repository resolves, of the disclosed names, is the disclosed one. *)
Lemma agrees_leads h p leaf p' leaf' :
  genuine → agrees h p leaf → leads h p' leaf' → p.*1 = p'.*1 → p = p' ∧ leaf = leaf'.
Proof.
  intros G Ha. revert p' leaf'. induction Ha as [h|h name mode child path leaf Hh Ha IH];
    intros p' leaf' Hl Hn.
  - by inv Hl.
  - destruct Hl as [|h t e p' leaf' Ht He Hl]; [done|]. injection Hn as -> Hn.
    destruct (Hh _ Ht) as (t' & [= <-] & Hin). destruct (holds_wf _ _ G Ht) as (Hw & _ & _).
    assert ({| te_name := te_name e; te_mode := mode; te_hash := child |} = e) as Ee
      by by eapply tree_name_unique.
    destruct e as [n m k]. cbn in *. injection Ee as -> ->. by destruct (IH _ _ Hl Hn) as [-> ->].
Qed.

Lemma agrees_app h p1 m p2 leaf : agrees h p1 m → agrees m p2 leaf → agrees h (p1 ++ p2) leaf.
Proof. induction 1; intros; [done|]. cbn. econstructor; eauto. Qed.

(** ** The path *)

(** Everything that the verifier hashes for a step. *)
Definition step_inputs (step : Step) : list bytes :=
  tree_verify_inputs (st_proof step) [(step_entry step, N.to_nat (st_position step))].

Lemma verify_step_Ok last i parent step :
  verify_step last i parent step = Ok tt →
  validate_name (st_name step) = true ∧ (i = last ∨ st_mode step = EntryMode.Tree) ∧
  wrap_id KTree (st_inner_root step) = parent ∧
  reconstruct_multi_root (st_proof step)
    (entry_elements [(step_entry step, N.to_nat (st_position step))]) = Ok (st_inner_root step).
Proof.
  unfold verify_step, check_inner_root_wrap, check_inner_root_fold. intros H. inv_ok.
  rename select (map_err _ _ = _) into Hr. destruct (reconstruct_element_root _ _ _) eqn:Er; [|done].
  injection Hr as ->. reflect. subst. split; [done|]. split; [tauto|]. split; [done|].
  cbn [entry_elements map]. by rewrite <- climb_total.
Qed.

Lemma verify_step_sound last i parent step o :
  genuine → (N.of_nat (leaf_count (st_proof step)) <= U32_MAX)%N →
  verify_step last i parent step = Ok tt → holds parent o →
  (∃ t, o = OTree t ∧ step_entry step ∈ tree_entries t) ∨ collides (id_inputs o) (step_inputs step).
Proof.
  intros G Hc (Hn & _ & Hw & Hr)%verify_step_Ok Ho.
  destruct (holds_wf _ _ G Ho) as (Hwf & Hid & _).
  destruct (wrapped_object o parent KTree (st_inner_root step) (step_inputs step)) as [Hk|]; try done.
  { unfold step_inputs, tree_verify_inputs, verify_inputs. rewrite Hr. by right; left. }
  { destruct o as [|t| | | | |]; try done. injection Hid as Hid.
    destruct (tree_multi_sound t [(step_entry step, N.to_nat (st_position step))] (st_proof step))
      as [Hin|]; [by apply wf_tree_bounded| |done| | |by right].
    - constructor; [|constructor]. apply validate_name_len in Hn. unfold entry_bounded, U32_MAX. cbn. lia.
    - unfold verify_tree_entries_multi. unfold entry_elements in Hr. rewrite Hr. cbn.
      apply check_wrapped_Ok. by rewrite Hid.
    - left. exists t. split; [done|]. eapply list_elem_of_lookup_2, Hin. by left. }
  by right.
Qed.

(** An object of the repository and the verifier hash two inputs to one digest. *)
Definition conflict (ys : list bytes) : Prop := ∃ h o, holds h o ∧ collides (id_inputs o) ys.

Lemma conflict_mono ys ys' : ys ⊆ ys' → conflict ys → conflict ys'.
Proof. intros H (h & o & Ho & Hc). exists h, o. split; [done|]. by eapply collides_mono. Qed.

Definition steps_ok (steps : list Step) : Prop :=
  Forall (λ s, (N.of_nat (leaf_count (st_proof s)) <= U32_MAX)%N) steps.

Definition path_of (steps : list Step) : list (bytes * EntryMode.t) :=
  map (λ s, (st_name s, st_mode s)) steps.

Lemma verify_steps_sound last steps : ∀ i parent leaf path path' leaf',
  genuine → steps_ok steps → (steps = [] → leaf = parent) →
  verify_steps last i steps parent leaf path = Ok (path', leaf') →
  path' = path ++ path_of steps ∧
  (agrees parent (path_of steps) leaf' ∨ conflict (concat (map step_inputs steps))).
Proof.
  induction steps as [|step steps IH]; intros i parent leaf path path' leaf' G Hok Hl H; cbn in H.
  { injection H as <- <-. rewrite Hl by done. split; [by rewrite app_nil_r|left; constructor]. }
  apply bind_Ok in H as ([] & Hs & H). inv Hok.
  apply IH in H as [-> H]; [|done..]. cbn. split; [by rewrite <- app_assoc|].
  destruct H as [Ha|Hc]; [|right; eapply conflict_mono; [|exact Hc]; set_solver].
  destruct (view_object view parent) as [o|e] eqn:Eo.
  - destruct (verify_step_sound _ _ _ _ o G ltac:(done) Hs Eo) as [(t & -> & Hin)|Hc].
    + left. apply (agrees_cons _ _ _ (st_child_id step)); [|done]. intros o' Ho'. unfold holds in Ho'. rewrite Eo in Ho'.
      injection Ho' as <-. by exists t.
    + right. exists parent, o. split; [done|]. eapply collides_mono; [reflexivity| |exact Hc]. set_solver.
  - left. apply (agrees_cons _ _ _ (st_child_id step)); [|done]. intros o Ho. unfold holds in Ho. congruence.
Qed.

(** What a commit or a remix says of its tree and its signer. *)
Definition commit_says (o : Object) (tree : hash32) (signer : arr 32) : Prop :=
  match o with
  | OCommit c => tree = c_tree_hash c ∧ signer = c_signer c
  | ORemix r => tree = r_tree_hash r ∧ signer = r_signer r
  | _ => False
  end.

Context `{E : Ed25519}.

Lemma verify_context_sound steps ctx pv :
  genuine → steps_ok steps → verify_path_with_context steps ctx = Ok pv →
  pv_tree_hash pv = cx_tree_hash ctx ∧ pv_signer pv = cx_signer ctx ∧
  pv_signature_valid pv = cx_signature_valid ctx ∧ pv_path pv = path_of steps ∧
  (agrees (pv_tree_hash pv) (pv_path pv) (pv_leaf_id pv) ∨ conflict (concat (map step_inputs steps))).
Proof.
  intros G Hok H. unfold verify_path_with_context in H.
  apply bind_Ok in H as (_ & _ & ([path leaf] & Hs & H)%bind_Ok). injection H as <-.
  apply verify_steps_sound in Hs as [-> Hs]; done.
Qed.

Lemma verify_path_sound commit_id commit_bytes steps pv :
  genuine → steps_ok steps → verify_path commit_id commit_bytes steps = Ok pv →
  (∃ o, deserialize commit_bytes = Ok o ∧ commit_says o (pv_tree_hash pv) (pv_signer pv) ∧
     pv_signature_valid pv = is_ok (verify_object_signature o) ∧
     (∀ o', holds commit_id o' → o' = o) ∧
     pv_path pv = path_of steps ∧ agrees (pv_tree_hash pv) (pv_path pv) (pv_leaf_id pv)) ∨
  conflict (commit_bytes :: concat (map step_inputs steps)).
Proof.
  intros G Hok H. unfold verify_path in H. inv_ok.
  rename select (map_err _ _ = Ok _) into Hd. destruct (deserialize commit_bytes) as [o|] eqn:Eo; [|done].
  injection Hd as <-. reflect.
  match goal with H : match ?o with _ => _ end = Ok ?c |- _ => rename H into Hc; rename c into ctx end.
  destruct (verify_context_sound _ _ _ G Hok H) as (-> & -> & -> & Hp & [Ha|Hcf]);
    [|right; eapply conflict_mono; [|exact Hcf]; set_solver].
  destruct (deserialize_serialize _ _ Eo) as [Hw Hser].
  assert (Object_id o = Ok commit_id ∧ id_inputs o = [commit_bytes] ∧
    commit_says o (cx_tree_hash ctx) (cx_signer ctx) ∧
    cx_signature_valid ctx = is_ok (verify_object_signature o)) as (Hid & Hin & Hsays & Hval).
  { destruct o; try done; injection Hc as <-; unfold Object_id, id_inputs; cbn [merkle_id];
      rewrite Hser; split_and!; first [reflexivity|by apply (f_equal Ok)|done]. }
  destruct (view_object view commit_id) as [o'|e] eqn:Ev.
  - destruct (holds_wf _ _ G Ev) as (Hw' & Hid' & _).
    destruct (id_inj o' o commit_id Hw' Hw Hid' Hid) as [->|Hcol].
    + left. exists o. do 3 (split; [done|]). split; [|done]. unfold holds. intros; congruence.
    + right. exists commit_id, o'. split; [done|]. rewrite Hin in Hcol.
      eapply collides_mono; [reflexivity| |exact Hcol]. set_solver.
  - left. exists o. do 3 (split; [done|]). split; [|done]. unfold holds. intros; congruence.
Qed.
End repo.

(** ** The payload *)

Section payload.
Context `{B : Blake3, BI : !Blake3Incremental, E : Ed25519, O : Bao} (forges : bytes → N → N → bytes → Prop)
  `{BL : !BaoLaws forges} (view : hash32 → result StoreError bytes).

(** Bytes that stand at an offset of a content. *)
Definition part (off : N) (out data : bytes) : Prop :=
  ∃ k1 k2, data = k1 ++ out ++ k2 ∧ lenN k1 = off.

(** A slice of the bundle is a forgery over the bytes of a blob of the repository. *)
Definition forged (slices : list bytes) : Prop :=
  ∃ h b bs off len slice, holds view h (OBlob b) ∧ serialize (OBlob b) = Ok bs ∧
    slice ∈ slices ∧ forges bs off len slice.

Lemma forged_mono ss ss' : ss ⊆ ss' → forged ss → forged ss'.
Proof. intros H (h & b & bs & off & len & s & ? & ? & Hs & ?). exists h, b, bs, off, len, s. auto. Qed.

Lemma take_drop_part (off len : N) (out data : bytes) :
  out = take (N.to_nat len) (drop (N.to_nat off) data) → out ≠ [] → part off out data.
Proof.
  intros -> Hne. exists (take (N.to_nat off) data), (drop (N.to_nat len) (drop (N.to_nat off) data)).
  split; [by rewrite take_drop, take_drop|]. unfold lenN. rewrite length_take.
  assert (N.to_nat off < length data); [|lia].
  destruct (decide (N.to_nat off < length data)) as [|Hge]; [done|].
  by rewrite (drop_ge data), take_nil in Hne by lia.
Qed.

Lemma bao_slice_sound id off len slice out b :
  genuine view → holds view id (OBlob b) → bao_verify_slice id off len slice = Ok out →
  lenN out = len ∧
  ((∃ bs, serialize (OBlob b) = Ok bs ∧ wf (OBlob b) = true ∧
      out = take (N.to_nat len) (drop (N.to_nat off) bs)) ∨ forged [slice]).
Proof.
  intros G Hb H. unfold bao_verify_slice in H. inv_ok.
  rename select (map_err _ _ = _) into Hd. destruct (bao_decode _ _ _ _) eqn:Ed; [|done].
  injection Hd as <-. subst. reflect. split; [done|].
  destruct (holds_blob _ _ _ G Hb) as (bs & <- & _ & Hs & Hw).
  destruct (bao_sound _ _ _ _ _ Ed) as [Hout|Hf]; [left; by exists bs|right].
  exists (hash bs), b, bs, off, len, slice. split; [done|]. split; [done|]. split; [by left|done].
Qed.

Lemma blob_slice_sound id off len slice out b :
  genuine view → holds view id (OBlob b) → verify_blob_slice id off len slice = Ok out →
  lenN out = len ∧ (part off out (blob_data b) ∨ forged [slice]).
Proof.
  intros G Hb H. unfold verify_blob_slice in H. inv_ok. reflect.
  rename select (checked_add _ _ = _) into Ha. unfold checked_add in Ha. case_match; [|done].
  injection Ha as <-. apply (bao_slice_sound _ _ _ _ _ b G Hb) in H as [Hlen [(bs & Hs & Hw & Hout)|]];
    [|by split; [|right]].
  split; [done|left]. apply (take_drop_part _ len); [|by intros ->].
  destruct (blob_bytes _ _ Hw Hs) as [-> _]. rewrite Hout. f_equal. rewrite drop_app_ge.
  - f_equal. rewrite length_app, length_le_bytes. cbn. lia.
  - rewrite length_app, length_le_bytes. cbn. lia.
Qed.

Lemma len_proof_sound id slice n b :
  genuine view → holds view id (OBlob b) → verify_blob_len_proof id slice = Ok n →
  n = lenN (blob_data b) ∨ forged [slice].
Proof.
  intros G Hb H. unfold verify_blob_len_proof in H. inv_ok.
  rename select (bao_verify_slice _ _ _ _ = _) into Hv.
  apply (bao_slice_sound _ _ _ _ _ b G Hb) in Hv as [_ [(bs & Hs & Hw & ->)|]]; [|by right].
  left. subst n. destruct (blob_bytes _ _ Hw Hs) as [-> Hn].
  rewrite drop_0, take_app_ge by (rewrite length_app, length_le_bytes; cbn; lia).
  rewrite length_app, length_le_bytes. cbn [length write_prologue app].
  replace (N.to_nat 10 - _) with 0 by (cbn; lia). rewrite take_0, app_nil_r.
  change (Prelude.slice 6 4 _) with (take 4 (le_bytes 4 (lenN (blob_data b)))).
  rewrite take_ge by (by rewrite length_le_bytes). apply le_val_le_bytes.
  unfold U32_MAX in Hn. cbn. lia.
Qed.

(** Everything that the verifier hashes for a chunk and the metadata of its manifest. *)
Definition chunk_inputs (total_size chunk_size : N) (chunk : hash32) (index : N) (p : Proof_) : list bytes :=
  meta_input total_size chunk_size ::
  verify_inputs KChunkedBlob p
    [(chunked_meta_leaf_raw total_size chunk_size, 0); (chunk, N.to_nat (index + 1))].

Definition is_chunk (o : Object) (total_size chunk_size index : N) (chunk : hash32) (cb : ChunkedBlob) : Prop :=
  o = OChunkedBlob cb ∧ total_size = cb_total_size cb ∧ chunk_size = cb_chunk_size cb ∧
  cb_chunks cb !! N.to_nat index = Some chunk.

Lemma chunk_leaf_position_Ok index p pos :
  chunk_leaf_position index p = Ok pos →
  pos = N.to_nat (index + 1) ∧ (index < MAX_CHUNKS)%N ∧ pos < leaf_count p.
Proof. unfold chunk_leaf_position. intros H. inv_ok. reflect. subst. lia. Qed.

Lemma declared_chunk_sound id root ts cs chunk index p o :
  genuine view → (ts <= U64_MAX)%N → (cs <= U32_MAX)%N → (N.of_nat (leaf_count p) <= U32_MAX)%N →
  verify_chunk_with_declared_root id root ts cs chunk index p = Ok tt → holds view id o →
  (∃ cb, is_chunk o ts cs index chunk cb) ∨ collides (id_inputs o) (chunk_inputs ts cs chunk index p).
Proof.
  intros G Ht Hs Hc H Ho. unfold verify_chunk_with_declared_root in H.
  apply bind_Ok in H as (pos & (-> & _ & Hlt)%chunk_leaf_position_Ok & H).
  unfold check_inner_root_wrap, check_inner_root_fold in H. inv_ok.
  rename select (map_err _ _ = _) into Hr. destruct (reconstruct_multi_root _ _) eqn:Er; [|done].
  injection Hr as ->. reflect. subst.
  destruct (holds_wf _ _ _ G Ho) as (Hwf & Hid & _).
  destruct (wrapped_object o _ KChunkedBlob root (chunk_inputs ts cs chunk index p) Hid) as [Hk|]; try done.
  { unfold chunk_inputs, verify_inputs. rewrite Er. by right; left. }
  2: by right.
  destruct o as [| | | |cb| |]; try done. injection Hid as Hid.
  destruct (verify_chunk_with_meta_leaf_sound cb ts cs chunk (N.to_nat (index + 1)) p) as [Hok|Hcol];
    [by apply wf_chunked_bounded|done..| |left|by right].
  - unfold verify_chunk_with_meta_leaf. replace (N.to_nat (index + 1) =? 0)%nat with false
      by (symmetry; apply Nat.eqb_neq; lia). cbn [negb ensure mbind result_bind]. rewrite Er. cbn.
    apply check_wrapped_Ok. by rewrite Hid.
  - destruct Hok as (-> & -> & _ & Hch). exists cb. split_and!; try done.
    rewrite <- Hch. f_equal. lia.
Qed.

(** ** The offset in the whole file *)

(** What the verifier hashes for the proofs of the lengths of chunks. *)
Definition len_inputs (lps : list LenProof) : list bytes :=
  concat (map (λ lp, verify_inputs KChunkedBlob (lp_proof lp)
                       [(lp_chunk_id lp, N.to_nat (lp_index lp + 1))]) lps).

Definition len_proofs_ok (lps : list LenProof) : Prop :=
  Forall (λ lp, (N.of_nat (leaf_count (lp_proof lp)) <= U32_MAX)%N) lps.

(** [n] is the length of the [j]-th chunk, as far as the repository holds it as a blob. *)
Definition is_len (cb : ChunkedBlob) (j n : N) : Prop :=
  ∃ c, cb_chunks cb !! N.to_nat j = Some c ∧ ∀ b, holds view c (OBlob b) → n = lenN (blob_data b).

Lemma check_len_proof_sound id cb lp n :
  genuine view → (N.of_nat (leaf_count (lp_proof lp)) <= U32_MAX)%N → holds view id (OChunkedBlob cb) →
  verify_chunk id (lp_chunk_id lp) (N.to_nat (lp_index lp + 1)) (lp_proof lp) = Ok tt →
  verify_blob_len_proof (lp_chunk_id lp) (lp_slice lp) = Ok n →
  is_len cb (lp_index lp) n ∨ conflict view (len_inputs [lp]) ∨ forged [lp_slice lp].
Proof.
  intros G Hc Ho Hv Hl. destruct (holds_wf _ _ _ G Ho) as (Hwf & Hid & _). injection Hid as <-.
  destruct (chunk_sound cb (lp_chunk_id lp) (N.to_nat (lp_index lp + 1)) (lp_proof lp)) as [[_ Hch]|Hcol];
    [by apply wf_chunked_bounded|done..| |].
  2: { right; left. eexists _, _. split; [exact Ho|]. unfold len_inputs. cbn [map concat].
       by rewrite app_nil_r. }
  destruct (view_object view (lp_chunk_id lp)) as [[b| | | | | |]|e] eqn:Ev;
    [destruct (len_proof_sound _ _ _ b G Ev Hl) as [->|]; [|by right; right]|..];
    left; exists (lp_chunk_id lp); (split; [rewrite <- Hch; f_equal; lia|]);
    unfold holds; intros b'; rewrite Ev; intros Hb'; congruence.
Qed.

Lemma check_len_proofs_sound id cb index lps : ∀ m m',
  genuine view → len_proofs_ok lps → holds view id (OChunkedBlob cb) →
  check_len_proofs id index lps m = Ok m' →
  (∀ j n, m' !! j = Some n → m !! j = Some n ∨ (j < index)%N ∧ is_len cb j n) ∨
  conflict view (len_inputs lps) ∨ forged (map lp_slice lps).
Proof.
  induction lps as [|lp lps IH]; intros m m' G Hok Ho H; cbn in H.
  { injection H as <-. left. auto. }
  inv Hok. inv_ok. rename select (map_err _ _ = _) into Hv.
  destruct (verify_chunk _ _ _ _) as [[]|] eqn:Ev; [clear Hv|done].
  rename select (verify_blob_len_proof _ _ = _) into Hl.
  assert (len_inputs [lp] ⊆ len_inputs (lp :: lps) ∧ len_inputs lps ⊆ len_inputs (lp :: lps)) as [S1 S2].
  { unfold len_inputs. cbn. split; set_solver. }
  apply IH in H as [Hall|[Hc|Hf]]; [..|done|done|done].
  - eapply check_len_proof_sound in Hl as [Hl|[Hc|Hf]]; [..|done|done|done|done].
    + left. intros j n Hj. destruct (Hall j n Hj) as [Hin|]; [|by right].
      destruct (decide (j = lp_index lp)) as [->|Hne].
      * rewrite lookup_insert_eq in Hin. injection Hin as <-. right. reflect. split; [lia|done].
      * rewrite lookup_insert_ne in Hin by done. by left.
    + right; left. by eapply conflict_mono, Hc.
    + right; right. eapply forged_mono; [|exact Hf]. cbn. set_solver.
  - right; left. by eapply conflict_mono, Hc.
  - right; right. eapply forged_mono; [|exact Hf]. cbn. set_solver.
Qed.

(** The sum over a map whose keys are the numbers below [n]. *)
Lemma sum_values_below (f : nat → N) n : ∀ m : gmap N N,
  (∀ j x, m !! j = Some x → (j < N.of_nat n)%N ∧ x = f (N.to_nat j)) →
  (∀ j, (j < N.of_nat n)%N → is_Some (m !! j)) →
  sum_values m = foldr N.add 0%N (map f (seq 0 n)).
Proof.
  unfold sum_values. induction n as [|n IH]; intros m Hm Hd.
  - assert (m = ∅) as ->; [|done]. apply map_empty. intros j.
    destruct (m !! j) eqn:Ej; [apply Hm in Ej; lia|done].
  - destruct (Hd (N.of_nat n) ltac:(lia)) as [x Hx]. destruct (Hm _ _ Hx) as [_ ->].
    rewrite <- (insert_delete_id m (N.of_nat n) _ Hx).
    rewrite map_fold_insert_L by (intros; lia || apply lookup_delete_eq).
    rewrite (IH (delete (N.of_nat n) m)).
    + rewrite seq_S, map_app, foldr_app. cbn. rewrite Nat2N.id, N.add_0_r. generalize (f n). clear.
      induction (map f (seq 0 n)) as [|y l IH]; intros x; cbn; [lia|]. rewrite <- (IH x). lia.
    + intros j y Hj. destruct (decide (j = N.of_nat n)) as [->|Hne]; [by rewrite lookup_delete_eq in Hj|].
      rewrite lookup_delete_ne in Hj by done. destruct (Hm _ _ Hj). split; [lia|done].
    + intros j Hj. rewrite lookup_delete_ne by lia. apply Hd. lia.
Qed.

(** As many keys below [n] as [n] are all of them. *)
Lemma keys_below (m : gmap N N) n :
  (∀ j x, m !! j = Some x → (j < N.of_nat n)%N) → n <= size m → ∀ j, (j < N.of_nat n)%N → is_Some (m !! j).
Proof.
  intros Hm Hn j Hj. apply elem_of_dom.
  assert (dom m = list_to_set (N.of_nat <$> seq 0 n)) as ->.
  { apply set_subseteq_size_eq.
    - intros i [x Hx]%elem_of_dom. apply Hm in Hx. apply elem_of_list_to_set, list_elem_of_fmap.
      exists (N.to_nat i). split; [lia|]. apply elem_of_seq. lia.
    - rewrite size_list_to_set, length_fmap, length_seq, size_dom; [done|].
      apply NoDup_fmap; [apply _|]. apply NoDup_seq. }
  apply elem_of_list_to_set, list_elem_of_fmap. exists (N.to_nat j). split; [lia|]. apply elem_of_seq. lia.
Qed.

Lemma lens_sum (ds : list bytes) n :
  n <= length ds →
  foldr N.add 0%N (map (λ i, lenN (default [] (ds !! i))) (seq 0 n)) = lenN (concat (take n ds)).
Proof.
  revert n. induction ds as [|d ds IH]; intros [|n] Hn; try done; cbn in *; [lia|].
  rewrite lenN_app, <- IH by lia. f_equal. by rewrite <- seq_shift, map_map.
Qed.

(** The contents of the chunks, where the repository holds them all as blobs. *)
Definition contents (cb : ChunkedBlob) (ds : list bytes) : Prop :=
  Forall2 (λ c d, ∃ b, holds view c (OBlob b) ∧ d = blob_data b) (cb_chunks cb) ds.

Lemma absolute_offset_sound id cb index lps off a :
  genuine view → len_proofs_ok lps → holds view id (OChunkedBlob cb) → (index < lenN (cb_chunks cb))%N →
  resolve_absolute_offset id index lps off = Ok (Some a) →
  (∀ ds, contents cb ds → a = (lenN (concat (take (N.to_nat index) ds)) + off)%N) ∨
  conflict view (len_inputs lps) ∨ forged (map lp_slice lps).
Proof.
  intros G Hok Ho Hi H. unfold resolve_absolute_offset in H.
  destruct (N.eqb_spec index 0) as [->|Hne].
  { inv_ok. left. intros ds _. by injection H as <-. }
  destruct lps as [|lp lps]; [done|]. revert Hok H. generalize (lp :: lps). clear lp lps. intros lps Hok H.
  inv_ok. rename select (check_len_proofs _ _ _ _ = _) into Hc.
  apply (check_len_proofs_sound _ cb) in Hc as [Hall|]; [left|by right|done..].
  rename select (checked_add _ _ = _) into Ha. unfold checked_add in Ha. case_match; [|done].
  injection H as <-. injection Ha as <-. reflect. intros ds Hds. f_equal.
  rewrite <- (N2Nat.id index) in Hall.
  assert (N.to_nat index <= length ds) as Hlen.
  { apply Forall2_length in Hds. unfold lenN in Hi. lia. }
  rename select (N.min _ _ = _) into Hsz.
  assert (∀ j n, x !! j = Some n →
    (j < N.of_nat (N.to_nat index))%N ∧ n = lenN (default [] (ds !! N.to_nat j))) as Hx.
  { intros j n Hj. destruct (Hall j n Hj) as [Hj'|[Hlt (c & Hcj & Hb)]]; [by rewrite lookup_empty in Hj'|].
    split; [done|]. destruct (Forall2_lookup_l _ _ _ _ _ Hds Hcj) as (d & -> & b & Hb' & ->).
    cbn. by apply Hb. }
  rewrite <- lens_sum by done. apply sum_values_below; [done|].
  apply keys_below; [naive_solver|]. lia.
Qed.

(** ** What a payload says of the leaf *)

(** As far as the repository holds the leaf (and the chunks): the bytes are the leaf, the
    chunk at the index, or stand at the offset in the blob, the chunk and the file. *)
Definition payload_says (leaf_id : hash32) (payload : DisclosedPayload) : Prop :=
  match payload with
  | DpObject bs => ∀ o, holds view leaf_id o → serialize o = Ok bs
  | DpChunk total_size chunk_size index bs =>
      ∀ o, holds view leaf_id o → ∃ cb c, is_chunk o total_size chunk_size index c cb ∧
        ∀ b, holds view c (OBlob b) → serialize (OBlob b) = Ok bs
  | DpRange blob_id None off absolute bs =>
      blob_id = leaf_id ∧ absolute = Some off ∧ bs ≠ [] ∧
      ∀ b, holds view leaf_id (OBlob b) → part off bs (blob_data b)
  | DpRange blob_id (Some (index, total_size, chunk_size)) off absolute bs =>
      bs ≠ [] ∧ ∀ o, holds view leaf_id o → ∃ cb, is_chunk o total_size chunk_size index blob_id cb ∧
        (∀ b, holds view blob_id (OBlob b) → part off bs (blob_data b)) ∧
        ∀ a ds, absolute = Some a → contents cb ds → part a bs (concat ds)
  end.

(** What the verifier hashes for a payload, and its slices. *)
Definition payload_inputs (payload : PayloadWire) : list bytes :=
  match payload with
  | PwObject bs => match deserialize bs with Ok o => id_inputs o | Err _ => [] end
  | PwChunk ts cs index _ p bs => bs :: chunk_inputs ts cs (hash bs) index p
  | PwRange None _ _ _ _ => []
  | PwRange (Some hdr) _ _ _ lps =>
      chunk_inputs (ch_total_size hdr) (ch_chunk_size hdr) (ch_chunk_id hdr) (ch_index hdr) (ch_proof hdr)
      ++ len_inputs lps
  end.

Definition payload_slices (payload : PayloadWire) : list bytes :=
  match payload with PwRange _ _ _ slice lps => slice :: map lp_slice lps | _ => [] end.

(** The ranges of the numbers of a payload, which its reader establishes. *)
Definition header_ok (ts cs : N) (p : Proof_) : Prop :=
  (ts <= U64_MAX)%N ∧ (cs <= U32_MAX)%N ∧ (N.of_nat (leaf_count p) <= U32_MAX)%N.

Definition payload_ok (payload : PayloadWire) : Prop :=
  match payload with
  | PwObject _ => True
  | PwChunk ts cs _ _ p _ => header_ok ts cs p
  | PwRange hdr _ _ _ lps =>
      (∀ h, hdr = Some h → header_ok (ch_total_size h) (ch_chunk_size h) (ch_proof h)) ∧ len_proofs_ok lps
  end.

(** For the object under an id, or because there is none. *)
Lemma if_holds id (P : Object → Prop) Q :
  (∀ o, holds view id o → P o ∨ Q) → (∀ o, holds view id o → P o) ∨ Q.
Proof.
  intros H. destruct (view_object view id) as [o|e] eqn:Ev.
  - destruct (H o Ev) as [HP|]; [|by right]. left. intros o' Ho'. unfold holds in Ho'. congruence.
  - left. intros o Ho. unfold holds in Ho. congruence.
Qed.

Lemma if_blob id (P : Blob → Prop) Q :
  (∀ b, holds view id (OBlob b) → P b ∨ Q) → (∀ b, holds view id (OBlob b) → P b) ∨ Q.
Proof.
  intros H. destruct (if_holds id (λ o, ∀ b, o = OBlob b → P b) Q) as [Hall|]; [|left; eauto|by right].
  intros o Ho. destruct o as [b| | | | | |]; try (left; discriminate).
  destruct (H b Ho); [left|by right]. by intros b' [= <-].
Qed.

Lemma object_payload_sound id bs :
  genuine view → is_ok (verify_object_id bs id) = true →
  payload_says id (DpObject bs) ∨ conflict view (payload_inputs (PwObject bs)).
Proof.
  intros G H. unfold verify_object_id in H. cbn [payload_inputs].
  destruct (deserialize bs) as [obj|] eqn:Ed; [|done]. cbn in H.
  destruct (bool_decide _) eqn:Eid; [|done]. reflect.
  destruct (deserialize_serialize _ _ Ed) as [Hw Hs].
  apply if_holds. intros o Ho. destruct (holds_wf _ _ _ G Ho) as (Hw' & Hid & _).
  destruct (id_inj o obj id) as [->|Hc]; [done..| |by left|right; by exists id, o].
  rewrite <- Eid. by apply Object_id_object.
Qed.

Lemma chunk_payload_sound id ts cs index root p bs :
  genuine view → header_ok ts cs p →
  verify_chunk_with_declared_root id root ts cs (hash bs) index p = Ok tt →
  payload_says id (DpChunk ts cs index bs) ∨ conflict view (payload_inputs (PwChunk ts cs index root p bs)).
Proof.
  intros G (Ht & Hs & Hc) H. cbn [payload_inputs]. apply if_holds. intros o Ho.
  destruct (declared_chunk_sound _ _ _ _ _ _ _ o G Ht Hs Hc H Ho) as [[cb Hcb]|Hcol].
  - destruct (if_blob (hash bs) (λ b, serialize (OBlob b) = Ok bs)
      (conflict view (bs :: chunk_inputs ts cs (hash bs) index p))) as [Hb|]; [|left; eauto|by right].
    intros b Hb. destruct (holds_blob _ _ _ G Hb) as (bs' & Hh & Hin & Hser & _).
    destruct (same_digest [bs'] [bs] bs' bs) as [->|Hcol]; [by left|by left|done|by left|right].
    exists (hash bs), (OBlob b). split; [done|]. rewrite Hin.
    eapply collides_mono; [reflexivity| |exact Hcol]. set_solver.
  - right. exists id, o. split; [done|]. eapply collides_mono; [reflexivity| |exact Hcol]. set_solver.
Qed.

Lemma part_concat ds i (d : bytes) off bs :
  ds !! i = Some d → part off bs d → part (lenN (concat (take i ds)) + off) bs (concat ds).
Proof.
  intros Hd (k1 & k2 & -> & <-). exists (concat (take i ds) ++ k1), (k2 ++ concat (drop (S i) ds)).
  split; [|apply lenN_app]. rewrite <- (take_drop_middle _ _ _ Hd) at 1.
  rewrite concat_app. cbn. by rewrite <- !app_assoc.
Qed.

Lemma blob_range_sound id off len slice bs lps :
  genuine view → verify_blob_slice id off len slice = Ok bs →
  payload_says id (DpRange id None off (Some off) bs) ∨ forged (slice :: lps).
Proof.
  intros G H. assert (bs ≠ []) as Hne.
  { pose proof H as H'. unfold verify_blob_slice, bao_verify_slice in H'. inv_ok. intros ->. reflect.
    subst. done. }
  destruct (if_blob id (λ b, part off bs (blob_data b)) (forged (slice :: lps))) as [Hb|]; [|by left|by right].
  intros b Hb. destruct (blob_slice_sound _ _ _ _ _ _ G Hb H) as [_ [|Hf]]; [by left|right].
  eapply forged_mono; [|exact Hf]. set_solver.
Qed.

Lemma chunk_range_sound id hdr off len slice lps bs absolute :
  genuine view → payload_ok (PwRange (Some hdr) off len slice lps) →
  verify_chunk_with_declared_root id (ch_inner_root hdr) (ch_total_size hdr) (ch_chunk_size hdr)
    (ch_chunk_id hdr) (ch_index hdr) (ch_proof hdr) = Ok tt →
  verify_blob_slice (ch_chunk_id hdr) off len slice = Ok bs →
  resolve_absolute_offset id (ch_index hdr) lps off = Ok absolute →
  payload_says id (DpRange (ch_chunk_id hdr) (Some (ch_index hdr, ch_total_size hdr, ch_chunk_size hdr))
    off absolute bs) ∨
  conflict view (payload_inputs (PwRange (Some hdr) off len slice lps)) ∨
  forged (payload_slices (PwRange (Some hdr) off len slice lps)).
Proof.
  intros G [Hhdr Hlps] Hv Hs Ha. destruct (Hhdr _ eq_refl) as (Ht & Hcs & Hc).
  destruct (blob_range_sound _ _ _ _ _ (map lp_slice lps) G Hs) as [(_ & _ & Hne & Hpart)|Hf];
    [|by right; right].
  set (ys := payload_inputs _). set (ss := payload_slices _). cbn [payload_says].
  destruct (if_holds id (λ o, ∃ cb, is_chunk o (ch_total_size hdr) (ch_chunk_size hdr) (ch_index hdr)
      (ch_chunk_id hdr) cb ∧ (∀ b, holds view (ch_chunk_id hdr) (OBlob b) → part off bs (blob_data b)) ∧
      ∀ a ds, absolute = Some a → contents cb ds → part a bs (concat ds)) (conflict view ys ∨ forged ss))
    as [Hall|]; [|by left|by right].
  intros o Ho. destruct (declared_chunk_sound _ _ _ _ _ _ _ o G Ht Hcs Hc Hv Ho) as [[cb Hcb]|Hcol].
  2: { right; left. exists id, o. split; [done|]. eapply collides_mono; [reflexivity| |exact Hcol].
       unfold ys. cbn. set_solver. }
  pose proof Hcb as (-> & _ & _ & Hch).
  assert (∀ ds, contents cb ds → ∃ d, ds !! N.to_nat (ch_index hdr) = Some d ∧ part off bs d) as Hd.
  { intros ds Hds. destruct (Forall2_lookup_l _ _ _ _ _ Hds Hch) as (d & Hd & b & Hb & ->).
    exists (blob_data b). auto. }
  destruct absolute as [a|]; [|left; exists cb; by split_and!].
  destruct (absolute_offset_sound id cb (ch_index hdr) lps off a G Hlps Ho) as [Hoff|[Hcf|Hf]]; [|done|..].
  - apply lookup_lt_Some in Hch. unfold lenN. lia.
  - left. exists cb. split_and!; [done..|]. intros a' ds [= <-] Hds. destruct (Hd _ Hds) as (d & Hdd & Hp).
    rewrite (Hoff _ Hds). by eapply part_concat.
  - right; left. eapply conflict_mono; [|exact Hcf]. unfold ys. cbn. set_solver.
  - right; right. eapply forged_mono; [|exact Hf]. unfold ss. cbn. set_solver.
Qed.

Lemma compose_payload_sound id w payload :
  genuine view → payload_ok w → compose_payload id w = Ok payload →
  payload_says id payload ∨ conflict view (payload_inputs w) ∨ forged (payload_slices w).
Proof.
  intros G Hok H. destruct w as [bs|ts cs index root p bs|[hdr|] off len slice lps]; cbn in H.
  - apply bind_Ok in H as (o & Hv & [= <-]).
    destruct (object_payload_sound id bs G) as [|]; [by rewrite Hv|by left|by right; left].
  - apply bind_Ok in H as ([] & Hv & [= <-]).
    destruct (chunk_payload_sound id ts cs index root p bs G Hok Hv) as [|]; [by left|by right; left].
  - apply bind_Ok in H as (_ & _ & ([] & Hv & (bs & Hs & (a & Ha & [= <-])%bind_Ok)%bind_Ok)%bind_Ok).
    by eapply chunk_range_sound.
  - apply bind_Ok in H as (_ & _ & (bs & Hs & [= <-])%bind_Ok).
    destruct (blob_range_sound _ _ _ _ _ (map lp_slice lps) G Hs) as [|]; [by left|by right; right].
Qed.
End payload.

(** ** The bundle *)

Section bundle.
Context `{C : WireCodec, L : !WireLaws}.

Lemma gives_step : gives Step_read (λ s, (N.of_nat (leaf_count (st_proof s)) <= U32_MAX)%N).
Proof.
  intros r s k H. unfold Step_read in H. inv_read.
  destruct (to_option _); [|done]. cbn [mbind option_bind] in H. inv_read.
  rename select (Proof_read_cfg _ _ = _) into Hp. by apply gives_proof in Hp as [Hp _].
Qed.

Lemma gives_chunk_hdr :
  gives ChunkHdr_read (λ h, header_ok (ch_total_size h) (ch_chunk_size h) (ch_proof h)).
Proof.
  intros r h k H. unfold ChunkHdr_read in H. inv_read.
  rename select (Proof_read_cfg _ _ = _) into Hp. apply gives_proof in Hp as [Hp _].
  rename select (read_u64 _ = _) into Ht. apply gives_u64 in Ht.
  repeat match goal with Hs : read_u32 _ = Some _ |- _ => apply gives_u32 in Hs end.
  by split_and!.
Qed.

Lemma gives_len_proof : gives LenProof_read (λ lp, (N.of_nat (leaf_count (lp_proof lp)) <= U32_MAX)%N).
Proof.
  intros r lp k H. unfold LenProof_read in H. inv_read.
  rename select (Proof_read_cfg _ _ = _) into Hp. by apply gives_proof in Hp as [Hp _].
Qed.

(** Take apart successful codec reads. *)
Ltac inv_codec :=
  repeat match goal with
  | H : codec _ ≫= _ = Ok _ |- _ => apply bind_Ok in H as ([? ?] & ?%ok_or_Ok & H)
  | H : ensure _ _ ≫= _ = Ok _ |- _ => apply bind_Ok in H as ([] & ?%ensure_Ok & H)
  | H : Ok _ = Ok _ |- _ => injection H; clear H; intros; subst
  end.

Lemma decode_payload_ok kind r w k : decode_payload kind r = Ok (w, k) → payload_ok w.
Proof.
  intros H. destruct kind; try discriminate H; cbn [decode_payload] in H; inv_codec; [done|..].
  - rename select (Proof_read_cfg _ _ = _) into Hp. apply gives_proof in Hp as [Hp _].
    rename select (read_u64 _ = _) into Ht. apply gives_u64 in Ht.
    repeat match goal with Hs : read_u32 _ = Some _ |- _ => apply gives_u32 in Hs end.
    by split_and!.
  - rename select (read_option _ _ = _) into Hh. apply (gives_option _ _ gives_chunk_hdr) in Hh.
    rename select (read_vec _ _ _ _ = _) into Hv. apply (gives_vec _ _ _ _ gives_len_proof) in Hv as [_ Hv].
    by split.
Qed.

Lemma decode_disclosure_ok bs commit_id commit_bytes steps w :
  decode_disclosure bs = Ok (commit_id, commit_bytes, steps, w) → steps_ok steps ∧ payload_ok w.
Proof.
  intros H. unfold decode_disclosure in H. inv_codec.
  apply bind_Ok in H as ([w' k] & Hw%decode_payload_ok & H). inv_codec.
  rename select (read_vec _ _ _ _ = _) into Hv. by apply (gives_vec _ _ _ _ gives_step) in Hv as [_ Hv].
Qed.

(** What the verifier hashes for a bundle, and the slices of the bundle. *)
Definition bundle_inputs `{B : Blake3} (bundle : bytes) : list bytes :=
  match decode_disclosure bundle with
  | Ok (_, commit_bytes, steps, w) => commit_bytes :: concat (map step_inputs steps) ++ payload_inputs w
  | Err _ => []
  end.

Definition bundle_slices (bundle : bytes) : list bytes :=
  match decode_disclosure bundle with Ok (_, _, _, w) => payload_slices w | Err _ => [] end.

Context `{B : Blake3, BI : !Blake3Incremental, E : Ed25519, O : Bao} (forges : bytes → N → N → bytes → Prop)
  `{BL : !BaoLaws forges} (view : hash32 → result StoreError bytes).

(** What a disclosure claims, held against a repository. *)
Definition disclosure_says (d : Disclosed) : Prop :=
  (∀ o, holds view (d_commit_id d) o →
     commit_says o (d_tree_hash d) (d_signer d) ∧ d_signature_valid d = is_ok (verify_object_signature o)) ∧
  agrees view (d_tree_hash d) (d_path d) (d_leaf_id d) ∧
  payload_says view (d_leaf_id d) (d_payload d).

(** C32: A verified disclosure is sound. When [verify_disclosure] accepts a bundle for a
    commit, then against every repository that stores objects under their ids: the commit
    names the tree and the signer that are reported, and the signature is valid exactly
    when it is reported so; the objects along the path have the entries, with the names and
    modes, that lead to the leaf; the payload is the encoded leaf, the chunk at the index
    with the sizes of the manifest, or the bytes at the offset in the blob, in the chunk
    and (where an absolute offset is reported) in the whole file. Otherwise the repository
    and the verifier hash two different inputs to one digest, or a slice is a forgery of
    the Bao encoding of a blob of the repository. *)
Theorem verify_disclosure_sound (commit_id : hash32) (bundle : bytes) (d : Disclosed)
    (G : genuine view) (H : verify_disclosure commit_id bundle = Ok d) :
  d_commit_id d = commit_id ∧
  (disclosure_says d ∨ conflict view (bundle_inputs bundle) ∨ forged forges view (bundle_slices bundle)).
Proof.
  unfold verify_disclosure in H. apply bind_Ok in H as ([[[cid cb] steps] w] & Hd & H).
  destruct (decode_disclosure_ok _ _ _ _ _ Hd) as [Hsteps Hw].
  unfold bundle_inputs, bundle_slices. rewrite Hd.
  apply bind_Ok in H as (_ & _ & (pv & Hp & H)%bind_Ok).
  unfold disclosed_of in H. apply bind_Ok in H as (payload & Hc & [= <-]). split; [done|].
  destruct (verify_path_sound view _ _ _ _ G Hsteps Hp) as [(o & _ & Hsays & Hval & Ho & _ & Ha)|Hcf].
  2: { right; left. eapply conflict_mono; [|exact Hcf]. set_solver. }
  destruct (compose_payload_sound forges view _ _ _ G Hw Hc) as [Hpay|[Hcf|Hf]]; [left|right; left|by right; right].
  - split_and!; [|done..]. intros o' Ho'. by rewrite (Ho o' Ho').
  - eapply conflict_mono; [|exact Hcf]. set_solver.
Qed.

(** Reusing an authenticated commit changes nothing. With the context of a disclosure
    that verified for a commit, the verification of another bundle for the commit that
    reuses it gives the same result, error or disclosure, as the full verification; or the
    two bundles carry different commits of the same digest. *)
Theorem reused_context_same (commit_id : hash32) (b1 b2 : bytes) (d : Disclosed)
    (H : verify_disclosure commit_id b1 = Ok d) :
  verify_disclosure_reusing_context commit_id b2 (CommitContext_from_disclosed d) =
    verify_disclosure commit_id b2 ∨
  ∃ cb1 cb2 s1 s2 w1 w2, decode_disclosure b1 = Ok (commit_id, cb1, s1, w1) ∧
    decode_disclosure b2 = Ok (commit_id, cb2, s2, w2) ∧ collides [cb1] [cb2].
Proof.
  unfold verify_disclosure in H. apply bind_Ok in H as ([[[cid1 cb1] s1] w1] & Hd1 & H).
  apply bind_Ok in H as ([] & Hid1%ensure_Ok & (pv & Hp & H)%bind_Ok). reflect. subst cid1.
  unfold verify_disclosure, verify_disclosure_reusing_context.
  destruct (decode_disclosure b2) as [[[[cid2 cb2] s2] w2]|e] eqn:Hd2; [|by left]. cbn [mbind result_bind].
  destruct (decide (cid2 = commit_id)) as [->|Hne]; [|left; by rewrite bool_decide_false].
  rewrite bool_decide_true by done. cbn [ensure mbind result_bind].
  destruct (decide (hash cb2 = commit_id)) as [Hh2|Hne].
  2: { left. unfold verify_path, verify_path_reusing_context. by rewrite bool_decide_false. }
  unfold verify_path in Hp. apply bind_Ok in Hp as ([] & Hh1%ensure_Ok & ([] & _ & Hp)%bind_Ok). reflect.
  apply bind_Ok in Hp as (obj & Hobj & (ctx & Hctx & Hp)%bind_Ok).
  destruct (decide (cb2 = cb1)) as [->|Hne].
  - left. assert (CommitContext_from_disclosed d = ctx) as ->.
    { unfold verify_path_with_context in Hp. apply bind_Ok in Hp as (_ & _ & ([path leaf] & _ & [= <-])%bind_Ok).
      unfold disclosed_of in H. apply bind_Ok in H as (payload & _ & [= <-]). by destruct ctx. }
    unfold verify_path, verify_path_reusing_context. rewrite bool_decide_true by done. cbn [ensure mbind result_bind].
    unfold verify_path_with_context at 1. 
    destruct (lenN s2 <=? MAX_TREE_DEPTH)%N eqn:El; [|done]. cbn [ensure mbind result_bind].
    rewrite Hobj. cbn [mbind result_bind]. rewrite Hctx. cbn [mbind result_bind].
    unfold verify_path_with_context. by rewrite El.
  - right. exists cb1, cb2, s1, s2, w1, w2. split; [done|]. split; [done|].
    exists cb1, cb2. split; [by left|]. split; [by left|]. split; [done|congruence].
Qed.
End bundle.

(** A store is genuine: its reads check the digest. *)
Lemma store_genuine `{B : Blake3} st : genuine (read st).
Proof.
  intros h bs H. unfold read in H. inv_ok. subst.
  match goal with Hc : check_hash _ _ = Ok _ |- _ => by apply check_hash_Ok in Hc end.
Qed.

(** ** A Bao and an Ed25519 for witnesses *)

Module ToyBao.
Import Toy.

(** A slice is the bytes themselves, so every other slice is a forgery. *)
#[export] Instance toy_bao : Bao := {|
  bao_extract content off len := Ok (take (N.to_nat len) (drop (N.to_nat off) content));
  bao_decode _ _ _ slice := Ok slice
|}.

Definition toy_forges (content : bytes) (off len : N) (slice : bytes) : Prop :=
  bao_extract content off len ≠ Ok slice.

#[export] Instance toy_bao_laws : BaoLaws toy_forges.
Proof.
  split; cbn.
  - intros content off len slice out [= <-].
    destruct (decide (slice = take (N.to_nat len) (drop (N.to_nat off) content))) as [->|Hne]; [by left|right].
    unfold toy_forges. cbn. by intros [= <-].
  - intros content off len _. by eexists.
  - intros content slice [= <-]. unfold lenN, MAX_LEN_PROOF_SLICE_BYTES.
    rewrite length_take. lia.
Qed.

#[export] Instance toy_ed : Ed25519 := {|
  ed_verifying_key seed := seed;
  ed_sign seed msg := arr_of 64 (arr_bytes seed ++ take 32 (msg ++ arr_bytes (arr_zero 32)));
  ed_key_ok _ := true;
  ed_verify_strict key msg sig :=
    bool_decide (sig = arr_of 64 (arr_bytes key ++ take 32 (msg ++ arr_bytes (arr_zero 32))))
|}.

(** A commit whose tree has the directory [d] with the blob [f]. *)
Definition ex_put (o : Object) (st : ObjectStore) : hash32 * ObjectStore :=
  let '(r, st) := write (Some 5%N) (default [] (to_option (serialize o))) st in
  (match r with Ok h => h | Err _ => ZERO end, st).

Definition ex_blob : Object := OBlob {| blob_data := b# "hello world" |}.
Definition ex_sub : Tree := {| tree_entries :=
  [{| te_name := b# "f"; te_mode := EntryMode.Blob; te_hash := (ex_put ex_blob {| disk := ∅ |}).1 |}] |}.
Definition ex_sub_id : hash32 := compute_tree_id ex_sub.
Definition ex_root : Tree := {| tree_entries :=
  [{| te_name := b# "d"; te_mode := EntryMode.Tree; te_hash := ex_sub_id |}] |}.
Definition ex_top : Object := OCommit {|
  c_tree_hash := compute_tree_id ex_root; c_parents := [];
  c_author := {| id_kind := IdentityKind.Ed25519; id_bytes := arr_bytes (arr_zero 32) |};
  c_signer := arr_zero 32; c_message := b# "first"; c_timestamp := 7;
  c_message_hash := ZERO; c_content_digest := ZERO; c_signature := arr_zero 64 |}.
Definition ex_repo : hash32 * ObjectStore :=
  ex_put ex_top (ex_put (OTree ex_root) (ex_put (OTree ex_sub) (ex_put ex_blob {| disk := ∅ |}).2).2).2.
Definition ex_path : list (bytes * EntryMode.t) := [(b# "d", EntryMode.Tree); (b# "f", EntryMode.Blob)].
End ToyBao.

(** ** Witnesses *)

Import Toy ToyCodec ToyBao.

(** The bundle for a range of the file [d/f] of the example. *)
Definition ex_bundle (sel : Selector) : bytes :=
  match (build_disclosure ex_repo.1 ex_path.*1 sel ex_repo.2).1 with Ok bs => bs | Err _ => [] end.

Definition ex_disclosed (sel : Selector) : Disclosed :=
  match verify_disclosure ex_repo.1 (ex_bundle sel) with
  | Ok d => d
  | Err _ => {| d_commit_id := ZERO; d_tree_hash := ZERO; d_path := []; d_leaf_id := ZERO;
      d_payload := DpObject []; d_signer := arr_zero 32; d_signature_valid := false;
      d_step_inner_roots := []; d_chunk_inner_root := None |}
  end.

Lemma verify_disclosure_sound_witness :
  d_payload (ex_disclosed (SelRange 6 5 true)) =
    DpRange (d_leaf_id (ex_disclosed (SelRange 6 5 true))) None 6 (Some 6%N) (b# "world") ∧
  (disclosure_says (read ex_repo.2) (ex_disclosed (SelRange 6 5 true)) ∨
   conflict (read ex_repo.2) (bundle_inputs (ex_bundle (SelRange 6 5 true))) ∨
   forged toy_forges (read ex_repo.2) (bundle_slices (ex_bundle (SelRange 6 5 true)))).
Proof.
  split; [vm_compute; reflexivity|].
  apply (verify_disclosure_sound toy_forges (read ex_repo.2) ex_repo.1 (ex_bundle (SelRange 6 5 true))
    (ex_disclosed (SelRange 6 5 true)) (store_genuine ex_repo.2)).
  vm_compute. reflexivity.
Defined.

Lemma reused_context_same_witness :
  verify_disclosure_reusing_context ex_repo.1 (ex_bundle SelObject)
    (CommitContext_from_disclosed (ex_disclosed (SelRange 6 5 true))) =
    verify_disclosure ex_repo.1 (ex_bundle SelObject) ∨
  ∃ cb1 cb2 s1 s2 w1 w2,
    decode_disclosure (ex_bundle (SelRange 6 5 true)) = Ok (ex_repo.1, cb1, s1, w1) ∧
    decode_disclosure (ex_bundle SelObject) = Ok (ex_repo.1, cb2, s2, w2) ∧ collides [cb1] [cb2].
Proof.
  apply (reused_context_same ex_repo.1 (ex_bundle (SelRange 6 5 true)) (ex_bundle SelObject)
    (ex_disclosed (SelRange 6 5 true))).
  vm_compute. reflexivity.
Defined.
