(* ===== verification/DisclosureBuild.v ===== *)
(** * Built disclosures verify

    The bundle that [build_disclosure_from] gives for a path and a selector is accepted by
    [verify_disclosure], and discloses what was asked for. First the round trip of the
    bundle, then the sizes of built Merkle proofs, then the builder. *)

From S2P Require Import Prelude Hash Object Serialize SerializeFacts Merkle MerkleFacts MerkleProofs.
From S2P Require Import ObjectId Store StoreFacts Sign Wire Content ContentFacts Disclosure DisclosureFacts.

(** ** The round trip of the bundle *)

Section roundtrip.
Context `{C : WireCodec, L : !WireLaws}.

Definition step_wire_ok (s : Step) : Prop :=
  len_within 1 255 (st_name s) ∧ (st_position s <= U32_MAX)%N ∧ proof_ok 1 (st_proof s).

Definition hdr_wire_ok (h : ChunkHdr) : Prop :=
  (ch_total_size h <= U64_MAX)%N ∧ (ch_chunk_size h <= U32_MAX)%N ∧ (ch_index h <= U32_MAX)%N ∧
  proof_ok 2 (ch_proof h).

Definition len_proof_wire_ok (l : LenProof) : Prop :=
  (lp_index l <= U32_MAX)%N ∧ proof_ok 1 (lp_proof l) ∧
  len_within 0 MAX_LEN_PROOF_SLICE_BYTES (lp_slice l).

Definition payload_wire_ok (w : PayloadWire) : Prop :=
  match w with
  | PwObject bs => len_within 0 MAX_RAW_OBJECT_SIZE bs
  | PwChunk ts cs index _ p bs =>
      (ts <= U64_MAX)%N ∧ (cs <= U32_MAX)%N ∧ (index <= U32_MAX)%N ∧ proof_ok 2 p ∧
      len_within 0 MAX_RAW_OBJECT_SIZE bs
  | PwRange hdr off len slice lps =>
      (∀ h, hdr = Some h → hdr_wire_ok h) ∧ (off <= U64_MAX)%N ∧ (len <= U64_MAX)%N ∧
      len_within 0 MAX_BUNDLE_BYTES slice ∧ len_within 0 MAX_CHUNKS lps ∧ Forall len_proof_wire_ok lps
  end.

Lemma reads_step s : step_wire_ok s → reads Step_read (Step_write s) s.
Proof.
  intros (Hn & Hp & Hpr) k. unfold Step_read, Step_write. read_back.
  rewrite EntryMode.entry_mode_from_to_u8. cbn [to_option mbind option_bind]. read_back.
  rewrite (reads_proof _ _ Hpr). by destruct s.
Qed.

Lemma reads_chunk_hdr h : hdr_wire_ok h → reads ChunkHdr_read (ChunkHdr_write h) h.
Proof.
  intros (Ht & Hc & Hi & Hp) k. unfold ChunkHdr_read, ChunkHdr_write. read_back.
  rewrite (reads_proof _ _ Hp). by destruct h.
Qed.

Lemma reads_len_proof l : len_proof_wire_ok l → reads LenProof_read (LenProof_write l) l.
Proof.
  intros (Hi & Hp & Hs) k. unfold LenProof_read, LenProof_write. read_back.
  rewrite (reads_proof _ _ Hp). read_back. by destruct l.
Qed.

(** The kind byte, and the rest of an encoded payload. *)
Lemma payload_roundtrip w :
  payload_wire_ok w → ∃ kind body, encode_payload w = kind :: body ∧
    ∀ k, decode_payload kind (body ++ k) = Ok (w, k).
Proof.
  intros Hw. destruct w as [bs|ts cs index root p bs|hdr off len slice lps]; cbn [encode_payload];
    eexists _, _; (split; [reflexivity|]); intros k; cbn [decode_payload payload_wire_ok] in *; unfold codec.
  - by rewrite (reads_bytes _ _ _ Hw).
  - destruct Hw as (Ht & Hc & Hi & Hp & Hb). rewrite <- !app_assoc.
    rewrite (reads_u64 _ Ht). cbn [ok_or mbind result_bind].
    rewrite (reads_u32 _ Hc). cbn [ok_or mbind result_bind].
    rewrite (reads_u32 _ Hi). cbn [ok_or mbind result_bind].
    rewrite reads_hash. cbn [ok_or mbind result_bind].
    rewrite (reads_proof _ _ Hp). cbn [ok_or mbind result_bind].
    by rewrite (reads_bytes _ _ _ Hb).
  - destruct Hw as (Hh & Ho & Hl & Hs & Hn & Hlps). rewrite <- !app_assoc.
    rewrite (reads_option ChunkHdr_read) by (intros h E; by apply reads_chunk_hdr, Hh).
    cbn [ok_or mbind result_bind].
    rewrite (reads_u64 _ Ho). cbn [ok_or mbind result_bind].
    rewrite (reads_u64 _ Hl). cbn [ok_or mbind result_bind].
    rewrite (reads_bytes _ _ _ Hs). cbn [ok_or mbind result_bind].
    rewrite (reads_vec LenProof_read); [done|done|].
    intros lp Hin. apply reads_len_proof. by rewrite list.Forall_forall in Hlps; apply Hlps.
Qed.

Lemma decode_encode commit_id commit_bytes steps w :
  len_within 0 MAX_COMMIT_BYTES commit_bytes → len_within 0 MAX_TREE_DEPTH steps →
  Forall step_wire_ok steps → payload_wire_ok w →
  (lenN (encode_disclosure commit_id commit_bytes steps w) <= MAX_BUNDLE_BYTES)%N →
  decode_disclosure (encode_disclosure commit_id commit_bytes steps w) =
    Ok (commit_id, commit_bytes, steps, w).
Proof.
  intros Hc Hn Hs Hw Hlen. unfold decode_disclosure. rewrite (proj2 (N.leb_le _ _) Hlen).
  cbn [ensure mbind result_bind]. unfold encode_disclosure.
  set (body := write_hash commit_id ++ _).
  change (BUNDLE_MAGIC ++ [BUNDLE_VERSION] ++ body) with (BUNDLE_MAGIC ++ BUNDLE_VERSION :: body).
  replace (length _ <? 5)%nat with false by (symmetry; apply Nat.ltb_ge; cbn; lia).
  cbn [orb]. change (take 4 (BUNDLE_MAGIC ++ _)) with BUNDLE_MAGIC.
  change (drop 5 (BUNDLE_MAGIC ++ _)) with body. change ((BUNDLE_MAGIC ++ _) !! 4) with (Some BUNDLE_VERSION).
  cbn [default from_option]. unfold bytes_eqb. rewrite !bool_decide_true by done.
  cbn [negb ensure mbind result_bind]. unfold body, codec. clear Hlen.
  rewrite reads_hash. cbn [ok_or mbind result_bind].
  rewrite (reads_bytes _ _ _ Hc). cbn [ok_or mbind result_bind].
  rewrite (reads_vec Step_read); [|done|].
  2: { intros s Hin. apply reads_step. by rewrite list.Forall_forall in Hs; apply Hs. }
  cbn [ok_or mbind result_bind].
  destruct (payload_roundtrip w Hw) as (kind & rest & -> & Hr).
  change (kind :: rest) with ([kind] ++ rest). rewrite <- write_u8_raw, reads_u8. cbn [ok_or mbind result_bind].
  specialize (Hr []). rewrite app_nil_r in Hr. by rewrite Hr.
Qed.
End roundtrip.

(** ** The size of a built proof *)

Section sizes.
Context `{B : Blake3}.

Lemma groups_length size n : ∀ ps, length ps <= n → length (groups size ps) <= length ps.
Proof.
  induction n as [|n IH]; intros [|p rest] Hn; cbn [length] in *; try lia; [done..|]. cbn [groups].
  pose proof (IH rest ltac:(lia)) as Hr.
  destruct (Nat.even p); [|cbn [length]; lia]. destruct rest as [|q rest]; [cbn; lia|].
  destruct (q =? p + 1)%nat; cbn [length] in *; [|lia].
  specialize (IH rest ltac:(lia)). lia.
Qed.

Lemma spec_sibs_length n : ∀ level size ps, length (spec_sibs n level size ps) <= n * length ps.
Proof.
  induction n as [|n IH]; intros level size ps; cbn [spec_sibs]; [done|].
  rewrite length_app, length_map. specialize (IH (S level) (div_ceil2 size) (parents size ps)).
  pose proof (groups_length size (length ps) ps (le_n _)) as Hg.
  assert (length (sibs_of size ps) <= length ps ∧ length (parents size ps) <= length ps) as [H1 H2].
  { unfold sibs_of, parents. rewrite length_map. split; [|done].
    etrans; [|exact Hg]. clear. induction (groups size ps) as [|[a [x|]] l IH]; cbn; lia. }
  nia.
Qed.

(** A proof that is built over at most 2^32 - 1 leaves is one that the reader takes. *)
Lemma built_proof_ok leaves positions elements :
  NoDup positions → positions ≠ [] → (∀ p, p ∈ positions → p < length leaves) →
  (lenN leaves <= U32_MAX)%N → length positions <= 2 →
  elements ≡ₚ leaves_at leaves positions →
  ∃ p, bt_multi_proof (build_bmt leaves) positions = Ok p ∧ proof_ok (lenN positions) p ∧
    leaf_count p = length leaves ∧
    reconstruct_multi_root p elements = Ok (bt_root (build_bmt leaves)).
Proof.
  intros Hnd Hne Hlt Hn Hk Hel.
  destruct (multi_complete leaves positions elements Hnd Hne Hlt Hel) as (p & Hp & Hc & Hs & Hr).
  exists p. split; [done|]. split; [|done]. unfold proof_ok. rewrite Hc, Hs. split; [done|].
  assert (length (bt_collect Nat.ltb positions) <= length positions) as Hcol.
  { pose proof (NoDup_Permutation (bt_collect Nat.ltb positions) positions) as HP.
    rewrite HP; [done| |done|apply (bt_collect_elem Nat.ltb)].
    pose proof (bt_collect_sorted Nat.ltb positions) as Hss. clear -Hss.
    induction Hss as [|x l Hl IH Hx]; constructor; [|done].
    rewrite list.Forall_forall in Hx. intros Hin%Hx. apply Nat.ltb_lt in Hin. lia. }
  set (sibs := spec_sibs _ _ _ _).
  assert (length sibs <= 32 * length positions) as Hsib.
  { etrans; [apply spec_sibs_length|]. apply Nat.mul_le_mono; [|done]. unfold levels_in_tree.
    rewrite Nat.add_sub. destruct (decide (length leaves - 1 = 0)) as [->|Hz]; [vm_compute; lia|].
    rewrite N.size_log2 by lia.
    assert (N.log2 (N.of_nat (length leaves - 1)) < 32)%N; [|lia].
    apply N.log2_lt_pow2; [lia|]. unfold lenN, U32_MAX in Hn. lia. }
  unfold len_within, lenN, saturating_mul, MAX_LEVELS, USIZE_MAX, U64_MAX, U32_MAX.
  rewrite length_map. lia.
Qed.
End sizes.

(** ** The steps *)

Section build.
Context `{B : Blake3, BI : !Blake3Incremental, O : Bao} (forges : bytes → N → N → bytes → Prop)
  `{BL : !BaoLaws forges}.
Context {S : Type} `{!ObjectSource S} (I : S → Prop)
  (view : hash32 → result StoreError bytes) `{V : !SourceView S I view}.
Hypothesis G : genuine view.

(** The builder gives [r], or the source runs out of a budget. *)
Definition builds {A} (m : ME VerifyError S A) (r : result VerifyError A) : Prop :=
  ∀ s, I s → I (m s).2 ∧ ((m s).1 = r ∨ ∃ name, (m s).1 = Err (VeStore (OperationLimitExceeded name))).

Lemma builds_lift {A} (r : result VerifyError A) : builds (me_lift r) r.
Proof. intros s Hs. split; [done|by left]. Qed.

Lemma builds_bind {A D} (m : ME VerifyError S A) a (f : A → ME VerifyError S D) r :
  builds m (Ok a) → builds (f a) r → builds (me_bind m f) r.
Proof.
  intros Hm Hf s Hs. unfold me_bind. destruct (Hm s Hs) as [Hs' Hr].
  destruct (m s) as [[a'|e] s']; cbn in *.
  - destruct Hr as [[= ->]|[name ?]]; [|done]. by apply Hf.
  - split; [done|]. by destruct Hr as [?|[name [= ->]]]; [|right; exists name].
Qed.

Lemma builds_read h bs : view h = Ok bs → builds (ve (src_read h)) (Ok bs).
Proof.
  intros Hv s Hs. unfold ve. destruct (view_read h s Hs) as [Hs' Hr]. destruct (src_read h s) as [r s'].
  cbn in *. split; [done|]. destruct Hr as [->|[name ->]]; [left; by rewrite Hv|right; by exists name].
Qed.

Lemma builds_read_object h o : holds view h o → builds (ve (src_read_object h)) (Ok o).
Proof.
  intros Hv s Hs. unfold ve. destruct (view_read_object h s Hs) as [Hs' Hr].
  destruct (src_read_object h s) as [r s'].
  cbn in *. split; [done|]. destruct Hr as [->|[name ->]]; [left; by rewrite Hv|right; by exists name].
Qed.

(** All entries of a path but the last are directories. *)
Fixpoint dirs (p : list (bytes * EntryMode.t)) : Prop :=
  match p with
  | x :: (_ :: _) as p' => x.2 = EntryMode.Tree ∧ dirs p'
  | _ => True
  end.

Lemma position_of_Some {A} (f : A → bool) l x :
  x ∈ l → f x = true → (∀ y, y ∈ l → f y = true → y = x) →
  ∃ i, position_of f l = Some i ∧ l !! i = Some x.
Proof.
  induction l as [|y l IH]; intros Hin Hx Hu; [by apply elem_of_nil in Hin|]. cbn.
  destruct (f y) eqn:Ey.
  - exists 0. split; [done|]. cbn. f_equal. apply Hu; [by left|done].
  - apply elem_of_cons in Hin as [->|Hin]; [congruence|].
    destruct IH as (i & -> & Hi); [done|done|intros; apply Hu; [by right|done]|].
    by exists (Datatypes.S i).
Qed.

Lemma tree_position t e :
  wf_tree t = true → e ∈ tree_entries t →
  ∃ i, tree_entry_position t (te_name e) = Some i ∧ tree_entries t !! i = Some e.
Proof.
  intros Hw Hin. apply position_of_Some; [done|by apply bytes_eqb_eq|].
  intros y Hy E%bytes_eqb_eq. by eapply tree_name_unique.
Qed.

Lemma wf_tree_entry t e : wf_tree t = true → e ∈ tree_entries t → validate_name (te_name e) = true.
Proof.
  intros [[_ Hv]%andb_true_iff _]%andb_true_iff He.
  apply forallb_forall with (x := e) in Hv; [done|by apply list_elem_of_In].
Qed.

(** One hop: the step that is built is the one that is verified. *)
Lemma build_step_ok h t e i last :
  holds view h (OTree t) → e ∈ tree_entries t → (i = last ∨ te_mode e = EntryMode.Tree) →
  ∃ step, build_step i t (te_name e) = Ok step ∧ verify_step last i h step = Ok tt ∧
    step_entry step = e ∧ step_wire_ok step.
Proof.
  intros Ht Hin Hm. destruct (holds_wf _ _ _ G Ht) as (Hw & Hid & _).
  destruct (tree_position t e Hw Hin) as (pos & Hpos & Hat).
  pose proof (wf_tree_bounded _ Hw) as [Hn _]. pose proof (wf_tree_entry _ _ Hw Hin) as Hname.
  assert (tree_leaves t !! pos = Some (tree_entry_leaf e)) as Hleaf
    by (unfold tree_leaves; by rewrite list_lookup_fmap, Hat).
  pose proof (lookup_lt_Some _ _ _ Hleaf) as Hlt.
  destruct (built_proof_ok (tree_leaves t) [pos] [(tree_entry_leaf e, pos)])
    as (p & Hp & Hok & Hc & Hr); [apply list.NoDup_singleton|done|..].
  { by intros q ->%list_elem_of_singleton. }
  { unfold lenN, tree_leaves in *. by rewrite length_map. }
  { cbn. lia. }
  { unfold leaves_at, node. cbn. by rewrite Hleaf. }
  eexists. split; [|split; [|split]].
  - unfold build_step. rewrite Hpos. cbn [ok_or mbind result_bind]. rewrite Hat.
    cbn [ok_or mbind result_bind]. unfold build_tree_entry_proof, bt_proof. rewrite Hp.
    cbn [map_err mbind result_bind]. reflexivity.
  - unfold verify_step, check_inner_root_wrap, check_inner_root_fold. cbn [st_name st_mode st_inner_root].
    rewrite Hname. cbn [ensure mbind result_bind].
    replace ((i =? last) || bool_decide (te_mode e = EntryMode.Tree)) with true.
    2: { destruct Hm as [->| ->]; [by rewrite Nat.eqb_refl|by rewrite orb_true_r]. }
    injection Hid as Hid. cbn [ensure mbind result_bind].
    rewrite bool_decide_true by exact Hid. cbn [ensure mbind result_bind st_proof st_position].
    rewrite Nat2N.id, climb_total.
    replace (step_entry _) with e by by destruct e.
    rewrite Hr. cbn [map_err mbind result_bind].
    rewrite (bool_decide_true (bt_root _ = tree_inner_root t)) by reflexivity.
    cbn [ensure mbind result_bind]. rewrite bool_decide_true by exact Hid. done.
  - by destruct e.
  - split; cbn [st_name st_position st_proof].
    + apply validate_name_len in Hname. unfold len_within, U32_MAX. lia.
    + split; [|done]. unfold lenN, tree_leaves in *. rewrite length_map in Hlt. lia.
Qed.

Lemma build_steps_ok h p leaf :
  leads view h p leaf → dirs p →
  ∃ steps, path_of steps = p ∧ Forall step_wire_ok steps ∧
    ∀ i leaf0, (p = [] → leaf0 = leaf) →
      (∀ acc, builds (build_steps i p.*1 h leaf0 acc) (Ok (acc ++ steps, leaf))) ∧
      ∀ last path, (p ≠ [] → last = i + length p - 1) →
        verify_steps last i steps h leaf0 path = Ok (path ++ p, leaf).
Proof.
  induction 1 as [h|h t e p leaf Ht Hin Hl IH]; intros Hd.
  { exists []. split; [done|]. split; [constructor|]. intros i leaf0 H0. rewrite (H0 eq_refl).
    split; intros; cbn; rewrite app_nil_r; [apply builds_lift|done]. }
  destruct IH as (steps & Hp & Hok & IH); [destruct p; [done|apply Hd]|].
  assert (p = [] ∨ te_mode e = EntryMode.Tree) as Hm by (destruct p; [by left|right; apply Hd]).
  destruct (build_step_ok h t e 0 0 Ht Hin) as (step & Hb & _ & He & Hw); [by left|].
  assert (∀ i, build_step i t (te_name e) = Ok step) as Hb'.
  { intros i. unfold build_step in *. destruct (tree_entry_position _ _) eqn:?; [|done].
    cbn [ok_or mbind result_bind] in *. destruct (_ !! _) eqn:?; [|done]. done. }
  exists (step :: steps).
  split; [change ((st_name step, st_mode step) :: path_of steps = (te_name e, te_mode e) :: p);
          by rewrite Hp, <- He|]. split; [by constructor|].
  intros i leaf0 _. destruct (IH (Datatypes.S i) (te_hash e)) as [IHb IHv].
  { intros ->. by inv Hl. }
  assert (st_child_id step = te_hash e ∧ st_name step = te_name e ∧ st_mode step = te_mode e) as (Ec & En & Em)
    by by rewrite <- He.
  split.
  - intros acc. cbn [fmap list_fmap build_steps fst]. eapply builds_bind; [by apply builds_read_object|].
    cbn. eapply builds_bind; [rewrite Hb'; apply builds_lift|]. rewrite Em, Ec.
    replace (acc ++ step :: steps) with ((acc ++ [step]) ++ steps) by by rewrite <- app_assoc.
    destruct (decide (te_mode e = EntryMode.Tree)) as [Et|Et].
    + rewrite bool_decide_true by done. apply IHb.
    + destruct Hm as [->|?]; [|done]. rewrite bool_decide_false by done. cbn. inv Hl.
      destruct steps; [|done]. rewrite app_nil_r. apply builds_lift.
  - intros last path Hlast. cbn [verify_steps].
    destruct (build_step_ok h t e i last Ht Hin) as (step' & Hb2 & Hv & _); [|].
    { destruct Hm as [->|]; [left|by right]. rewrite Hlast by done. cbn. lia. }
    rewrite Hb' in Hb2. injection Hb2 as <-. rewrite Hv. cbn [mbind result_bind].
    rewrite Ec, En, Em. rewrite IHv; [by rewrite <- app_assoc|].
    intros Hne. rewrite Hlast by done. destruct p; [done|]. cbn. lia.
Qed.

(** ** The payload *)

(** What a selector discloses of a leaf, as the repository holds it. *)
Inductive selects (leaf : hash32) : Selector → DisclosedPayload → Prop :=
  | sel_object o bs :
      holds view leaf o → serialize o = Ok bs → selects leaf SelObject (DpObject bs)
  | sel_chunk cb i c b bs :
      holds view leaf (OChunkedBlob cb) → cb_chunks cb !! i = Some c →
      holds view c (OBlob b) → serialize (OBlob b) = Ok bs →
      selects leaf (SelChunk (N.of_nat i)) (DpChunk (cb_total_size cb) (cb_chunk_size cb) (N.of_nat i) bs)
  | sel_blob_range b off len w :
      holds view leaf (OBlob b) → (0 < len)%N → (off + len <= lenN (blob_data b))%N →
      selects leaf (SelRange off len w)
        (DpRange leaf None off (Some off) (take (N.to_nat len) (drop (N.to_nat off) (blob_data b))))
  | sel_chunk_range cb ds i c d off len w :
      holds view leaf (OChunkedBlob cb) → contents view cb ds →
      cb_chunks cb !! i = Some c → ds !! i = Some d → (0 < len)%N →
      let start := lenN (concat (take i ds)) in
      (start <= off)%N → (off + len <= start + lenN d)%N →
      selects leaf (SelRange off len w)
        (DpRange c (Some (N.of_nat i, cb_total_size cb, cb_chunk_size cb)) (off - start)
           (if w || (i =? 0)%nat then Some off else None)
           (take (N.to_nat len) (drop (N.to_nat (off - start)) d))).

(** The encoding of a blob. *)
Definition blob_enc (d : bytes) : bytes :=
  (write_prologue ObjectType.Blob ++ le_bytes 4 (lenN d)) ++ d.

Lemma blob_enc_len d : lenN (blob_enc d) = (10 + lenN d)%N.
Proof. unfold blob_enc. rewrite !lenN_app. unfold lenN at 2. by rewrite length_le_bytes. Qed.

Lemma holds_blob_enc c b :
  holds view c (OBlob b) →
  view c = Ok (blob_enc (blob_data b)) ∧ hash (blob_enc (blob_data b)) = c ∧
  (lenN (blob_data b) <= U32_MAX)%N.
Proof.
  intros Hb. destruct (holds_blob _ _ _ G Hb) as (bs & Hh & _ & Hs & Hw).
  destruct (holds_wf _ _ _ G Hb) as (_ & _ & bs' & Hv & Hs').
  destruct (blob_bytes _ _ Hw Hs) as [-> Hn]. rewrite Hs in Hs'. by injection Hs' as <-.
Qed.

Lemma manifest_bounded leaf cb :
  holds view leaf (OChunkedBlob cb) →
  compute_chunked_id cb = leaf ∧ (lenN (cb_chunks cb) <= MAX_CHUNKS)%N ∧
  (cb_total_size cb <= U64_MAX)%N ∧ (cb_chunk_size cb <= U32_MAX)%N.
Proof.
  intros Ho. destruct (holds_wf _ _ _ G Ho) as (Hw & Hid & _). injection Hid as ->. split; [done|].
  change (wf_chunked_blob cb = true) in Hw.
  apply andb_true_iff in Hw as [[Ht%N.leb_le Hc%N.leb_le]%andb_true_iff Hn%N.leb_le]. done.
Qed.

Lemma chunks_u32 n : (n <= MAX_CHUNKS)%N → (n + 1 <= U32_MAX)%N.
Proof. unfold MAX_CHUNKS, U32_MAX. lia. Qed.

(** The joint proof of a chunk and the metadata. *)
Lemma declared_chunk_ok leaf cb i c :
  holds view leaf (OChunkedBlob cb) → cb_chunks cb !! i = Some c →
  ∃ p, build_chunks_multi_proof cb [0; i + 1] = Ok p ∧ proof_ok 2 p ∧
    verify_chunk_with_declared_root leaf (chunked_inner_root cb) (cb_total_size cb) (cb_chunk_size cb)
      c (N.of_nat i) p = Ok tt.
Proof.
  intros Ho Hi. destruct (manifest_bounded _ _ Ho) as (Hid & Hn & _).
  pose proof (chunks_u32 _ Hn) as Hu. pose proof (lookup_lt_Some _ _ _ Hi) as Hlt.
  destruct (built_proof_ok (chunked_leaves cb) [0; i + 1]
    [(chunked_meta_leaf_raw (cb_total_size cb) (cb_chunk_size cb), 0); (c, i + 1)])
    as (p & Hp & Hok & Hc & Hr).
  { constructor; [rewrite list_elem_of_singleton; lia|apply list.NoDup_singleton]. }
  { done. }
  { intros q. rewrite !elem_of_cons, elem_of_nil. unfold chunked_leaves. cbn. lia. }
  { rewrite chunked_leaves_len. lia. }
  { done. }
  { assert (chunked_leaves cb !! (i + 1) = Some c) as Hat by by rewrite Nat.add_1_r.
    unfold leaves_at, node. cbn [map]. by rewrite Hat. }
  exists p. split; [done|]. split; [done|].
  unfold verify_chunk_with_declared_root, chunk_leaf_position. rewrite Hc.
  assert (length (chunked_leaves cb) = 1 + length (cb_chunks cb)) as -> by done.
  unfold lenN in *.
  replace (N.of_nat (1 + length (cb_chunks cb)) =? 0)%N with false by (symmetry; apply N.eqb_neq; lia).
  cbn [negb ensure mbind result_bind].
  replace (N.of_nat (1 + length (cb_chunks cb)) - 1 <=? MAX_CHUNKS)%N with true
    by (symmetry; apply N.leb_le; lia).
  cbn [ensure mbind result_bind].
  replace ((N.of_nat i + 1 <=? U32_MAX) && (N.of_nat i + 1 <? N.of_nat (1 + length (cb_chunks cb))))%N with true
    by (symmetry; apply andb_true_iff; rewrite N.leb_le, N.ltb_lt; lia).
  cbn [ensure mbind result_bind]. unfold check_inner_root_wrap, check_inner_root_fold.
  rewrite bool_decide_true by exact Hid. cbn [ensure mbind result_bind].
  replace (N.to_nat (N.of_nat i + 1)) with (i + 1) by lia. rewrite Hr. cbn [map_err mbind result_bind].
  rewrite (bool_decide_true (bt_root _ = _)) by reflexivity. cbn [ensure mbind result_bind].
  by rewrite bool_decide_true by exact Hid.
Qed.

(** A slice of a blob: what is extracted verifies. *)
Lemma blob_slice_ok c b off len :
  holds view c (OBlob b) → (0 < len)%N → (off + len <= lenN (blob_data b))%N →
  ∃ slice, checked_add off 10 = Some (off + 10)%N ∧
    extract_bao_slice (blob_enc (blob_data b)) (off + 10) len = Ok slice ∧
    verify_blob_slice c off len slice = Ok (take (N.to_nat len) (drop (N.to_nat off) (blob_data b))).
Proof.
  intros Hb Hlen Hr. destruct (holds_blob_enc _ _ Hb) as (_ & Hh & Hn).
  destruct (bao_complete (blob_enc (blob_data b)) (off + 10) len) as (slice & He & Hd).
  { rewrite blob_enc_len. lia. }
  assert (checked_add off 10 = Some (off + 10)%N) as Hadd.
  { apply checked_add_Some. split; [done|]. unfold U32_MAX in Hn. lia. }
  exists slice. split; [done|]. unfold extract_bao_slice. rewrite He. split; [done|].
  unfold verify_blob_slice. replace (len =? 0)%N with false by (symmetry; apply N.eqb_neq; lia).
  cbn [negb ensure mbind result_bind]. rewrite Hadd. cbn [ok_or mbind result_bind].
  unfold bao_verify_slice. rewrite <- Hh, Hd. cbn [map_err mbind result_bind].
  assert (drop (N.to_nat (off + 10)) (blob_enc (blob_data b)) = drop (N.to_nat off) (blob_data b)) as ->.
  { unfold blob_enc. rewrite drop_app_ge by (rewrite length_app, length_le_bytes; cbn; lia).
    f_equal. rewrite length_app, length_le_bytes. cbn. lia. }
  replace (lenN _ =? len)%N with true; [done|]. symmetry. apply N.eqb_eq. unfold lenN in *.
  rewrite length_take, length_drop. lia.
Qed.

(** The proof of the length of one chunk. *)
Lemma len_proof_ok leaf cb j c b :
  holds view leaf (OChunkedBlob cb) → cb_chunks cb !! j = Some c → holds view c (OBlob b) →
  ∃ p slice, build_chunk_proof cb (j + 1) = Ok p ∧ proof_ok 1 p ∧
    verify_chunk leaf c (j + 1) p = Ok tt ∧
    extract_bao_slice (blob_enc (blob_data b)) 0 10 = Ok slice ∧
    (lenN slice <= MAX_LEN_PROOF_SLICE_BYTES)%N ∧
    verify_blob_len_proof c slice = Ok (lenN (blob_data b)).
Proof.
  intros Ho Hj Hb. destruct (manifest_bounded _ _ Ho) as (Hid & Hn & _).
  pose proof (chunks_u32 _ Hn) as Hu. pose proof (lookup_lt_Some _ _ _ Hj) as Hlt.
  assert (chunked_leaves cb !! (j + 1) = Some c) as Hat by by rewrite Nat.add_1_r.
  destruct (built_proof_ok (chunked_leaves cb) [j + 1] [(c, j + 1)]) as (p & Hp & Hok & _ & Hr);
    [apply list.NoDup_singleton|done| | |cbn; lia|unfold leaves_at, node; cbn [map]; by rewrite Hat|].
  { intros q ->%list_elem_of_singleton. unfold chunked_leaves. cbn. lia. }
  { rewrite chunked_leaves_len. lia. }
  destruct (holds_blob_enc _ _ Hb) as (_ & Hh & Hd).
  destruct (bao_complete (blob_enc (blob_data b)) 0 10) as (slice & He & Hdec); [rewrite blob_enc_len; lia|].
  exists p, slice. split; [done|]. split; [done|]. split; [|split; [|split]].
  - unfold verify_chunk. replace (j + 1 =? 0)%nat with false by (symmetry; apply Nat.eqb_neq; lia).
    cbn [negb ensure mbind result_bind]. rewrite climb_total, Hr. cbn [mbind result_bind].
    by apply check_wrapped_Ok.
  - unfold extract_bao_slice. by rewrite He.
  - by eapply bao_head_slice.
  - unfold verify_blob_len_proof, bao_verify_slice. rewrite <- Hh, Hdec. cbn [map_err mbind result_bind].
    change (drop (N.to_nat 0) ?l) with l.
    assert (take (N.to_nat 10) (blob_enc (blob_data b)) =
      write_prologue ObjectType.Blob ++ le_bytes 4 (lenN (blob_data b))) as ->.
    { unfold blob_enc. apply take_app_length'. by rewrite length_app, length_le_bytes. }
    replace (lenN _ =? 10)%N with true by (unfold lenN; by rewrite length_app, length_le_bytes).
    cbn [ensure mbind result_bind].
    change (Prelude.slice 1 4 _) with MAGIC. change ((write_prologue _ ++ _) !! 0) with (Some (ObjectType.to_u8 ObjectType.Blob)).
    change ((write_prologue _ ++ _) !! 5) with (Some SCHEMA_VERSION).
    unfold bytes_eqb. rewrite !bool_decide_true by done. cbn [negb orb ensure mbind result_bind]. f_equal.
    change (Prelude.slice 6 4 _) with (take 4 (le_bytes 4 (lenN (blob_data b)))).
    rewrite take_ge by (by rewrite length_le_bytes). apply le_val_le_bytes.
    unfold U32_MAX in Hd. cbn. lia.
Qed.

(** The map that has the lengths of the first [n] chunks. *)
Definition lens_below (ds : list bytes) (n : nat) (m : gmap N N) : Prop :=
  ∀ k, m !! k = if (k <? N.of_nat n)%N then Some (lenN (default [] (ds !! N.to_nat k))) else None.

Lemma lens_below_insert ds n m :
  lens_below ds n m → lens_below ds (n + 1) (<[N.of_nat n := lenN (default [] (ds !! n))]> m).
Proof.
  intros Hm k. destruct (decide (k = N.of_nat n)) as [->|Hne].
  - rewrite lookup_insert_eq, Nat2N.id. destruct (N.ltb_spec (N.of_nat n) (N.of_nat (n + 1))); [done|lia].
  - rewrite lookup_insert_ne, Hm by done.
    destruct (N.ltb_spec k (N.of_nat n)), (N.ltb_spec k (N.of_nat (n + 1))); done || lia.
Qed.

Lemma lens_below_size ds n m : lens_below ds n m → size m = n.
Proof.
  revert m. induction n as [|n IH]; intros m Hm.
  - apply map_size_empty_iff, map_empty. intros k. rewrite Hm. destruct (N.ltb_spec k (N.of_nat 0)); [lia|done].
  - assert (m !! N.of_nat n = Some (lenN (default [] (ds !! n)))) as Hn.
    { rewrite Hm, Nat2N.id. destruct (N.ltb_spec (N.of_nat n) (N.of_nat (Datatypes.S n))); [done|lia]. }
    rewrite <- (insert_delete_id m _ _ Hn), map_size_insert_None by apply lookup_delete_eq.
    f_equal. apply IH. intros k. destruct (decide (k = N.of_nat n)) as [->|Hne].
    + rewrite lookup_delete_eq. destruct (N.ltb_spec (N.of_nat n) (N.of_nat n)); [lia|done].
    + rewrite lookup_delete_ne, Hm by done.
      destruct (N.ltb_spec k (N.of_nat n)), (N.ltb_spec k (N.of_nat (Datatypes.S n))); done || lia.
Qed.

Lemma manifest_chunk cb ds j :
  contents view cb ds → j < length (cb_chunks cb) →
  ∃ c b, cb_chunks cb !! j = Some c ∧ holds view c (OBlob b) ∧ ds !! j = Some (blob_data b).
Proof.
  intros Hds [c Hc]%lookup_lt_is_Some_2.
  destruct (Forall2_lookup_l _ _ _ _ _ Hds Hc) as (d & Hd & b & Hb & ->). by exists c, b.
Qed.

(** The proofs of the lengths of [n] chunks from the [j]-th. *)
Lemma len_proofs_built leaf cb ds :
  holds view leaf (OChunkedBlob cb) → contents view cb ds →
  ∀ n j, j + n <= length (cb_chunks cb) →
  ∃ lps, len_proofs cb j (map blob_enc (take n (drop j ds))) = Ok lps ∧ length lps = n ∧
    Forall len_proof_wire_ok lps ∧
    ∀ index m, (N.of_nat (j + n) <= index)%N → lens_below ds j m →
      ∃ m', check_len_proofs leaf index lps m = Ok m' ∧ lens_below ds (j + n) m'.
Proof.
  intros Ho Hds. destruct (manifest_bounded _ _ Ho) as (_ & Hn & _). pose proof (chunks_u32 _ Hn) as Hu.
  induction n as [|n IH]; intros j Hj.
  { exists []. split; [by rewrite take_0|]. split; [done|]. split; [constructor|].
    intros index m _ Hm. exists m. by rewrite Nat.add_0_r. }
  destruct (manifest_chunk cb ds j Hds) as (c & b & Hc & Hb & Hd); [lia|].
  destruct (len_proof_ok leaf cb j c b Ho Hc Hb) as (p & slice & Hp & Hok & Hv & Hs & Hsl & Hl).
  destruct (IH (Datatypes.S j)) as (lps & Hlps & Hlen & Hall & Hcheck); [lia|].
  exists ({| lp_index := N.of_nat j; lp_chunk_id := c; lp_proof := p; lp_slice := slice |} :: lps).
  unfold lenN in Hu. split; [|split; [cbn; lia|split]].
  - rewrite (drop_S _ _ _ Hd). cbn [take map len_proofs].
    rewrite (proj2 (N.leb_le _ _)) by lia. cbn [ensure mbind result_bind].
    rewrite Hp. cbn [map_err mbind result_bind]. rewrite Hs. cbn [mbind result_bind].
    rewrite Hlps. cbn [mbind result_bind]. by rewrite Hc.
  - constructor; [|done]. unfold len_proof_wire_ok, len_within, MAX_LEN_PROOF_SLICE_BYTES, U32_MAX in *.
    cbn. split; [lia|]. split; [done|]. lia.
  - intros index m Hi Hm. destruct (Hcheck index (<[N.of_nat j := lenN (default [] (ds !! j))]> m))
      as (m' & Hm' & Hb'); [lia|rewrite <- Nat.add_1_r; by apply lens_below_insert|].
    exists m'. split; [|by rewrite <- Nat.add_succ_comm]. cbn [check_len_proofs lp_index lp_chunk_id lp_proof lp_slice].
    rewrite (proj2 (N.leb_gt _ _)) by lia. rewrite bool_decide_false.
    2: { rewrite Hm. destruct (N.ltb_spec (N.of_nat j) (N.of_nat j)); [lia|]. by intros [? ?]. }
    cbn [orb negb ensure mbind result_bind].
    replace (N.to_nat (N.of_nat j + 1)) with (j + 1) by lia. rewrite Hv. cbn [map_err mbind result_bind].
    rewrite Hl. cbn [mbind result_bind]. by rewrite Hd in Hm'.
Qed.

(** The search finds the chunk that holds the offset. *)
Lemma locate_ok off ds : ∀ idx cum i d,
  ds !! i = Some d → (cum + lenN (concat (take i ds)) <= off)%N →
  (off < cum + lenN (concat (take i ds)) + lenN d)%N → (cum + lenN (concat ds) < 2 ^ 64)%N →
  locate off idx cum (map blob_enc ds) = Ok (Some (idx + i, (cum + lenN (concat (take i ds)))%N, lenN d)).
Proof.
  induction ds as [|d' ds IH]; intros idx cum i d Hi Hlo Hhi Hmax; [done|]. cbn [map locate].
  rewrite blob_enc_len, (proj2 (N.leb_le _ _)) by lia. cbn [ensure mbind result_bind].
  replace (10 + lenN d' - 10)%N with (lenN d') by lia. cbn [concat] in Hmax. rewrite lenN_app in Hmax.
  rewrite (proj2 (checked_add_Some _ _ (cum + lenN d')%N)) by (split; [done|lia]). cbn [ok_or mbind result_bind].
  destruct i as [|i].
  - injection Hi as ->. cbn [take concat] in *. unfold lenN in Hlo, Hhi. cbn in Hlo, Hhi.
    rewrite (proj2 (N.ltb_lt _ _)) by (unfold lenN; lia). unfold lenN at 2. cbn. by rewrite N.add_0_r, Nat.add_0_r.
  - cbn [take concat] in *. rewrite lenN_app in *. rewrite (proj2 (N.ltb_ge _ _)) by lia.
    rewrite (IH _ _ i d) by (done || lia). do 4 f_equal; lia.
Qed.

Lemma contents_bound leaf cb ds :
  holds view leaf (OChunkedBlob cb) → contents view cb ds → (lenN (concat ds) < 2 ^ 63)%N.
Proof.
  intros Ho Hds. destruct (manifest_bounded _ _ Ho) as (_ & Hn & _).
  assert (lenN (concat ds) <= lenN (cb_chunks cb) * U32_MAX)%N as H.
  { clear Ho Hn. unfold contents in Hds. induction Hds as [|c d cs ds (b & Hb & ->) _ IH]; [done|].
    cbn [concat]. rewrite lenN_app, lenN_cons. destruct (holds_blob_enc _ _ Hb) as (_ & _ & Hl). lia. }
  unfold MAX_CHUNKS, U32_MAX in *. lia.
Qed.

Lemma read_all_ok cb ds :
  contents view cb ds → builds (read_all (cb_chunks cb)) (Ok (map blob_enc ds)).
Proof.
  unfold contents. induction 1 as [|c d cs ds (b & Hb & ->) _ IH]; [apply builds_lift|]. cbn [read_all map].
  destruct (holds_blob_enc _ _ Hb) as (Hv & _). eapply builds_bind; [by apply builds_read|].
  eapply builds_bind; [exact IH|]. apply builds_lift.
Qed.

(** A payload that fits: what is left of its bounds when the bundle does not exceed its cap. *)
Definition fits (w : PayloadWire) : Prop :=
  match w with
  | PwObject bs | PwChunk _ _ _ _ _ bs => (lenN bs <= MAX_BUNDLE_BYTES)%N
  | PwRange _ _ _ slice _ => (lenN slice <= MAX_BUNDLE_BYTES)%N
  end.

Lemma fits_within {A} (l : list A) n :
  (lenN l <= MAX_BUNDLE_BYTES)%N → (MAX_BUNDLE_BYTES <= n)%N → len_within 0 n l.
Proof. unfold len_within, MAX_BUNDLE_BYTES, U32_MAX. lia. Qed.

Definition built_payload (leaf : hash32) (sel : Selector) (payload : DisclosedPayload) : Prop :=
  ∃ w, builds (build_payload leaf sel) (Ok w) ∧ compose_payload leaf w = Ok payload ∧
    (fits w → payload_wire_ok w).

Lemma build_object leaf o bs :
  holds view leaf o → serialize o = Ok bs → built_payload leaf SelObject (DpObject bs).
Proof.
  intros Ho Hs. destruct (holds_wf _ _ _ G Ho) as (Hw & Hid & bs' & Hv & Hs').
  rewrite Hs in Hs'. injection Hs' as <-. exists (PwObject bs). split; [|split].
  - cbn [build_payload]. eapply builds_bind; [by apply builds_read|apply builds_lift].
  - cbn [compose_payload]. unfold verify_object_id. rewrite (serialize_deserialize o bs) by done.
    cbn [map_err mbind result_bind]. rewrite bool_decide_true; [done|].
    rewrite (Object_id_object o bs Hs) in Hid. by injection Hid.
  - intros Hf. by apply fits_within.
Qed.

Lemma build_chunk leaf cb i c b bs :
  holds view leaf (OChunkedBlob cb) → cb_chunks cb !! i = Some c →
  holds view c (OBlob b) → serialize (OBlob b) = Ok bs →
  built_payload leaf (SelChunk (N.of_nat i))
    (DpChunk (cb_total_size cb) (cb_chunk_size cb) (N.of_nat i) bs).
Proof.
  intros Ho Hi Hb Hs. destruct (declared_chunk_ok leaf cb i c Ho Hi) as (p & Hp & Hok & Hv).
  destruct (holds_wf _ _ _ G Hb) as (_ & _ & bs' & Hvc & Hs'). rewrite Hs in Hs'. injection Hs' as <-.
  destruct (holds_blob _ _ _ G Hb) as (bs' & Hh & _ & Hs' & _). rewrite Hs in Hs'. injection Hs' as <-.
  destruct (manifest_bounded _ _ Ho) as (_ & Hn & Ht & Hc). pose proof (chunks_u32 _ Hn) as Hu.
  pose proof (lookup_lt_Some _ _ _ Hi) as Hlt. unfold lenN in Hu.
  exists (PwChunk (cb_total_size cb) (cb_chunk_size cb) (N.of_nat i) (chunked_inner_root cb) p bs).
  split; [|split].
  - assert (chunk_of cb (N.of_nat i) = Ok (c, p)) as Hco.
    { unfold chunk_of, lenN. rewrite (proj2 (N.leb_le _ _) Hu). cbn [ensure mbind result_bind].
      rewrite Nat2N.id, Hi. cbn [ok_or mbind result_bind].
      rewrite (proj2 (N.leb_le _ _)) by lia. cbn [ensure mbind result_bind]. by rewrite Hp. }
    cbn [build_payload]. eapply builds_bind; [by apply builds_read_object|]. cbn beta iota.
    rewrite Hco. eapply builds_bind; [apply builds_lift|]. cbn beta iota.
    eapply builds_bind; [by apply builds_read|apply builds_lift].
  - cbn [compose_payload]. by rewrite Hh, Hv.
  - intros Hf. split_and!; [done..|lia|done|]. by apply fits_within.
Qed.

Lemma build_blob_range leaf b off len w :
  holds view leaf (OBlob b) → (0 < len)%N → (off + len <= lenN (blob_data b))%N →
  built_payload leaf (SelRange off len w)
    (DpRange leaf None off (Some off) (take (N.to_nat len) (drop (N.to_nat off) (blob_data b)))).
Proof.
  intros Hb Hl Hr. destruct (blob_slice_ok leaf b off len Hb Hl Hr) as (slice & Hadd & He & Hv).
  destruct (holds_blob_enc _ _ Hb) as (Hview & _ & Hn).
  assert (off <= U32_MAX ∧ len <= U32_MAX)%N as [Ho Hlen] by lia.
  exists (PwRange None off len slice []). split; [|split].
  - cbn [build_payload]. rewrite (proj2 (N.eqb_neq _ _)) by lia. eapply builds_bind; [apply builds_lift|].
    eapply builds_bind; [by apply builds_read_object|]. cbn beta iota.
    rewrite (proj2 (checked_add_Some off len (off + len)%N)) by (unfold U32_MAX in *; split; [done|lia]).
    cbn [ok_or mbind result_bind]. rewrite (proj2 (N.leb_le _ _)) by done.
    eapply builds_bind; [apply builds_lift|]. eapply builds_bind; [by apply builds_read|].
    rewrite Hadd. cbn [ok_or mbind result_bind]. rewrite He. apply builds_lift.
  - cbn [compose_payload]. rewrite bool_decide_true by done. cbn [ensure mbind result_bind]. by rewrite Hv.
  - intros Hf. cbn [payload_wire_ok]. split_and!;
      [done|unfold U32_MAX, U64_MAX in *; lia|unfold U32_MAX, U64_MAX in *; lia| |done|constructor].
    by apply fits_within.
Qed.

(** The proofs of lengths that a range asks for, and the offset they resolve to. *)
Lemma offsets_ok leaf cb ds i off (with_offsets : bool) :
  holds view leaf (OChunkedBlob cb) → contents view cb ds → i < length (cb_chunks cb) →
  (off <= U32_MAX)%N →
  let start := lenN (concat (take i ds)) in
  ∃ lps, (if with_offsets then len_proofs cb 0 (take i (map blob_enc ds)) else Ok []) = Ok lps ∧
    len_within 0 MAX_CHUNKS lps ∧ Forall len_proof_wire_ok lps ∧
    resolve_absolute_offset leaf (N.of_nat i) lps off =
      Ok (if with_offsets || (i =? 0)%nat then Some (start + off)%N else None).
Proof.
  intros Ho Hds Hi Hoff start. destruct (manifest_bounded _ _ Ho) as (_ & Hn & _).
  pose proof (chunks_u32 _ Hn) as Hu. unfold lenN in Hn, Hu.
  assert (∃ lps, (if with_offsets then len_proofs cb 0 (take i (map blob_enc ds)) else Ok []) = Ok lps ∧
    length lps = (if with_offsets then i else 0) ∧ Forall len_proof_wire_ok lps ∧
    (with_offsets = true → ∃ m, check_len_proofs leaf (N.of_nat i) lps ∅ = Ok m ∧ lens_below ds i m))
    as (lps & Hb & Hlen & Hok & Hm).
  { destruct with_offsets; [|by exists []].
    destruct (len_proofs_built leaf cb ds Ho Hds i 0) as (lps & Hlps & Hlen & Hok & Hc); [lia|].
    exists lps. rewrite <- fmap_take. split; [by rewrite drop_0 in Hlps|]. split; [done|]. split; [done|].
    intros _. apply Hc; [done|]. intros k. rewrite lookup_empty.
    destruct (N.ltb_spec k (N.of_nat 0)); [lia|done]. }
  exists lps. split; [done|].
  split; [unfold len_within, lenN, MAX_CHUNKS, U32_MAX in *; destruct with_offsets; lia|].
  split; [done|]. unfold resolve_absolute_offset.
  destruct (N.eqb_spec (N.of_nat i) 0) as [Hz|Hz].
  - assert (i = 0) as -> by lia. destruct lps; [|destruct with_offsets; done]. rewrite orb_true_r. done.
  - rewrite (proj2 (Nat.eqb_neq _ _)) by lia. rewrite orb_false_r.
    destruct with_offsets; [|by destruct lps]. destruct lps as [|lp lps]; [cbn in Hlen; lia|].
    destruct (Hm eq_refl) as (m & Hc & Hbelow). rewrite Hc. cbn [mbind result_bind].
    rewrite (lens_below_size _ _ _ Hbelow), N.min_l, N.eqb_refl by lia. cbn [ensure mbind result_bind].
    assert (sum_values m = start) as ->.
    { unfold start. rewrite <- lens_sum; [|apply Forall2_length in Hds; lia].
      apply sum_values_below.
      - intros j x Hj. rewrite Hbelow in Hj. destruct (N.ltb_spec j (N.of_nat i)); [|done]. by injection Hj as <-.
      - intros j Hj. rewrite Hbelow, (proj2 (N.ltb_lt _ _)) by done. by eexists. }
    pose proof (contents_bound _ _ _ Ho Hds) as Hbd.
    rewrite (proj2 (checked_add_Some _ _ (start + off)%N)); [done|]. split; [done|].
    rewrite <- (take_drop i ds), concat_app, lenN_app in Hbd. fold start in Hbd. unfold U32_MAX in *. lia.
Qed.

Lemma build_chunk_range leaf cb ds i c d off len w :
  holds view leaf (OChunkedBlob cb) → contents view cb ds →
  cb_chunks cb !! i = Some c → ds !! i = Some d → (0 < len)%N →
  let start := lenN (concat (take i ds)) in
  (start <= off)%N → (off + len <= start + lenN d)%N →
  built_payload leaf (SelRange off len w)
    (DpRange c (Some (N.of_nat i, cb_total_size cb, cb_chunk_size cb)) (off - start)
       (if w || (i =? 0)%nat then Some off else None)
       (take (N.to_nat len) (drop (N.to_nat (off - start)) d))).
Proof.
  intros Ho Hds Hi Hd Hl start Hlo Hhi.
  destruct (Forall2_lookup_l _ _ _ _ _ Hds Hi) as (d' & Hd' & b & Hb & ->).
  rewrite Hd in Hd'. injection Hd' as ->. pose proof (lookup_lt_Some _ _ _ Hi) as Hlt.
  destruct (declared_chunk_ok leaf cb i c Ho Hi) as (p & Hp & Hok & Hv).
  destruct (blob_slice_ok c b (off - start) len Hb Hl) as (slice & Hadd & He & Hvs); [lia|].
  destruct (holds_blob_enc _ _ Hb) as (_ & _ & Hn).
  destruct (manifest_bounded _ _ Ho) as (_ & Hnc & Ht & Hc). pose proof (chunks_u32 _ Hnc) as Hu.
  unfold lenN in Hu. pose proof (contents_bound _ _ _ Ho Hds) as Hbd.
  destruct (offsets_ok leaf cb ds i (off - start) w Ho Hds Hlt) as (lps & Hlps & Hlen & Hall & Hres); [lia|].
  fold start in Hres. replace (start + (off - start))%N with off in Hres by lia.
  set (hdr := {| ch_total_size := cb_total_size cb; ch_chunk_size := cb_chunk_size cb;
    ch_index := N.of_nat i; ch_inner_root := chunked_inner_root cb; ch_chunk_id := c; ch_proof := p |}).
  exists (PwRange (Some hdr) (off - start) len slice lps). split; [|split].
  - assert (chunked_range_of cb (map blob_enc ds) off len w =
      Ok (PwRange (Some hdr) (off - start) len slice lps)) as Hrange.
    { unfold chunked_range_of. rewrite (locate_ok off ds 0 0 i (blob_data b));
        [|done|fold start; lia|fold start; lia|lia].
      fold start. cbn [ok_or mbind result_bind]. rewrite N.add_0_l, Nat.add_0_l, (proj2 (N.leb_le _ _) Hlo).
      cbn [ensure mbind result_bind].
      rewrite (proj2 (checked_add_Some (off - start) len (off - start + len)%N))
        by (unfold U32_MAX in Hn; split; [done|lia]).
      cbn [ok_or mbind result_bind]. rewrite (proj2 (N.leb_le _ _)) by lia. cbn [ensure mbind result_bind].
      rewrite (proj2 (N.leb_le _ _)) by lia. cbn [ensure mbind result_bind].
      rewrite Hp. cbn [map_err mbind result_bind]. rewrite Hadd. cbn [ok_or mbind result_bind].
      assert (map blob_enc ds !! i = Some (blob_enc (blob_data b))) as ->
        by (change (map blob_enc ds) with (blob_enc <$> ds); by rewrite list_lookup_fmap, Hd).
      cbn [default from_option id]. rewrite He. cbn [mbind result_bind]. rewrite Hlps. cbn [mbind result_bind]. by rewrite Hi. }
    cbn [build_payload]. rewrite (proj2 (N.eqb_neq _ _)) by lia. eapply builds_bind; [apply builds_lift|].
    eapply builds_bind; [by apply builds_read_object|]. cbn beta iota.
    unfold build_chunked_range_payload. eapply builds_bind; [by apply read_all_ok|].
    rewrite Hrange. apply builds_lift.
  - cbn [compose_payload]. rewrite (proj2 (N.eqb_neq _ _)) by lia. cbn [negb ensure mbind result_bind].
    unfold hdr. cbn [ch_total_size ch_chunk_size ch_index ch_inner_root ch_chunk_id ch_proof].
    rewrite Hv. cbn [mbind result_bind]. rewrite Hvs. cbn [mbind result_bind]. by rewrite Hres.
  - intros Hf. cbn [payload_wire_ok].
    split; [intros h [= <-]; unfold hdr_wire_ok, hdr; cbn; split_and!; [done|done|lia|done]|].
    assert (off - start <= U64_MAX ∧ len <= U64_MAX)%N as [H1 H2] by (unfold U32_MAX, U64_MAX in *; lia).
    split; [done|]. split; [done|]. split; [by apply fits_within|done].
Qed.

Lemma build_payload_ok leaf sel payload : selects leaf sel payload → built_payload leaf sel payload.
Proof.
  intros []; eauto using build_object, build_chunk, build_blob_range, build_chunk_range.
Qed.

(** ** The bundle *)

Context `{C : WireCodec, L : !WireLaws, E : Ed25519}.

Lemma bundle_fits commit_id commit_bytes steps w :
  (lenN (encode_disclosure commit_id commit_bytes steps w) <= MAX_BUNDLE_BYTES)%N → fits w.
Proof.
  unfold encode_disclosure. rewrite !lenN_app. intros H.
  destruct w as [bs|ts cs index root p bs|hdr off len slice lps]; cbn [encode_payload fits] in *;
    rewrite !lenN_cons in H; [pose proof (size_bytes bs)|pose proof (size_bytes bs)|pose proof (size_bytes slice)];
    rewrite ?lenN_app in H; lia.
Qed.

Lemma build_prefix_ok commit_id o commit_bytes tree signer p leaf :
  holds view commit_id o → serialize o = Ok commit_bytes → commit_says o tree signer →
  leads view tree p leaf → dirs p → (lenN p <= MAX_TREE_DEPTH)%N →
  ∃ steps, builds (build_prefix commit_id p.*1) (Ok (commit_bytes, steps, leaf)) ∧
    Forall step_wire_ok steps ∧ lenN steps = lenN p ∧
    verify_path commit_id commit_bytes steps = Ok {| pv_tree_hash := tree; pv_path := p; pv_leaf_id := leaf;
      pv_signer := signer; pv_signature_valid := is_ok (verify_object_signature o) |}.
Proof.
  intros Ho Hs Hsays Hl Hd Hlen. destruct (holds_wf _ _ _ G Ho) as (Hw & Hid & bs & Hv & Hs').
  rewrite Hs in Hs'. injection Hs' as <-.
  pose proof (serialize_deserialize _ _ Hw Hs) as Hdes.
  destruct (build_steps_ok tree p leaf Hl Hd) as (steps & Hp & Hok & Hsteps).
  assert (lenN steps = lenN p) as Hlp.
  { rewrite <- Hp. unfold lenN, path_of. by rewrite length_map. }
  destruct (Hsteps 0 tree) as [Hb Hvs]; [intros ->; by inv Hl|].
  exists steps. split; [|split; [done|split; [done|]]].
  - unfold build_prefix. unfold lenN at 1. rewrite length_fmap. fold (lenN p).
    rewrite (proj2 (N.leb_le _ _) Hlen). eapply builds_bind; [apply builds_lift|].
    eapply builds_bind; [by apply builds_read|]. rewrite Hdes. eapply builds_bind; [apply builds_lift|].
    eapply (builds_bind _ tree); [destruct o; try done; destruct Hsays as [-> _]; apply builds_lift|].
    eapply builds_bind; [apply Hb|]. apply builds_lift.
  - assert (hash commit_bytes = commit_id) as Hh.
    { destruct o; try done; unfold Object_id in Hid; cbn [merkle_id] in Hid; rewrite Hs in Hid; by injection Hid. }
    unfold verify_path. rewrite bool_decide_true by done. cbn [ensure mbind result_bind].
    rewrite Hlp, (proj2 (N.leb_le _ _) Hlen). cbn [ensure mbind result_bind]. rewrite Hdes.
    cbn [map_err mbind result_bind].
    assert (∀ ctx, cx_tree_hash ctx = tree → verify_path_with_context steps ctx =
      Ok {| pv_tree_hash := tree; pv_path := p; pv_leaf_id := leaf; pv_signer := cx_signer ctx;
            pv_signature_valid := cx_signature_valid ctx |}) as Hctx.
    { intros ctx <-. unfold verify_path_with_context. rewrite Hlp, (proj2 (N.leb_le _ _) Hlen).
      cbn [ensure mbind result_bind]. rewrite Hvs; [done|]. intros _. cbn. unfold lenN in Hlp. lia. }
    destruct o; try done; destruct Hsays as [-> ->]; cbn [mbind result_bind]; by rewrite Hctx.
Qed.

(** C33: What is built verifies, and is what was asked for. When the repository holds a
    commit or a remix, its tree leads along a path of directories of at most 128 names to a
    leaf, and the selector selects something of the leaf (the object, a chunk that is a
    blob, a range within a blob or within one chunk), then the builder over any source with
    that view ends with a bundle, or fails because the source ran out of a budget; and a
    bundle within the cap of bundles, of a commit within the cap of commits, verifies and
    discloses the tree, the path, the leaf, the signer, the validity of the signature, and
    exactly the selected payload, with the absolute offset where it was asked for. *)
Theorem build_disclosure_verifies (commit_id : hash32) (o : Object) (commit_bytes : bytes) (tree : hash32)
    (signer : arr 32) (p : list (bytes * EntryMode.t)) (leaf : hash32) (sel : Selector)
    (payload : DisclosedPayload) (s : S)
    (Ho : holds view commit_id o) (Hs : serialize o = Ok commit_bytes) (Hsays : commit_says o tree signer)
    (Hl : leads view tree p leaf) (Hd : dirs p) (Hlen : (lenN p <= MAX_TREE_DEPTH)%N)
    (Hsel : selects leaf sel payload) (HI : I s) :
  let r := build_disclosure_from commit_id p.*1 sel s in
  I r.2 ∧
  ((∃ name, r.1 = Err (VeStore (OperationLimitExceeded name))) ∨
   ∃ bundle, r.1 = Ok bundle ∧
     ((lenN bundle <= MAX_BUNDLE_BYTES)%N → (lenN commit_bytes <= MAX_COMMIT_BYTES)%N →
      ∃ d, verify_disclosure commit_id bundle = Ok d ∧
        d_commit_id d = commit_id ∧ d_tree_hash d = tree ∧ d_path d = p ∧ d_leaf_id d = leaf ∧
        d_payload d = payload ∧ d_signer d = signer ∧
        d_signature_valid d = is_ok (verify_object_signature o))).
Proof.
  destruct (build_prefix_ok commit_id o commit_bytes tree signer p leaf Ho Hs Hsays Hl Hd Hlen)
    as (steps & Hb & Hok & Hn & Hv).
  destruct (build_payload_ok leaf sel payload Hsel) as (w & Hw & Hc & Hfit).
  set (bundle := encode_disclosure commit_id commit_bytes steps w).
  assert (builds (build_disclosure_from commit_id p.*1 sel) (Ok bundle)) as Hbuild.
  { unfold build_disclosure_from. eapply builds_bind; [exact Hb|]. cbn beta iota.
    eapply builds_bind; [exact Hw|]. apply builds_lift. }
  intros r. destruct (Hbuild s HI) as [HI' Hr]. split; [done|]. destruct Hr as [Hr|]; [right|by left].
  exists bundle. split; [done|]. intros Hcap Hccap.
  assert (decode_disclosure bundle = Ok (commit_id, commit_bytes, steps, w)) as Hdec.
  { apply decode_encode; [|unfold len_within; rewrite Hn; unfold MAX_TREE_DEPTH, U32_MAX in *; lia|done| |done].
    - unfold len_within, MAX_COMMIT_BYTES, U32_MAX in *. lia.
    - by eapply Hfit, bundle_fits. }
  unfold verify_disclosure. rewrite Hdec. cbn [mbind result_bind]. rewrite bool_decide_true by done.
  cbn [ensure mbind result_bind]. rewrite Hv. cbn [mbind result_bind]. unfold disclosed_of.
  cbn [pv_leaf_id pv_tree_hash pv_path pv_signer pv_signature_valid]. rewrite Hc. cbn [mbind result_bind].
  eexists. split; [reflexivity|]. done.
Qed.
End build.

(** A range without a chunk header is not checked against the kind of the leaf: any bytes
    whose digest is the id of the leaf give a payload, whatever object they encode, and the
    payload calls the leaf a blob. *)
Theorem range_of_any_leaf `{B : Blake3, O : Bao} (forges : bytes → N → N → bytes → Prop) `{BL : !BaoLaws forges}
    (content : bytes) (off len : N) :
  (0 < len)%N → (off + 10 + len <= lenN content)%N → (lenN content < 2 ^ 64)%N →
  ∃ slice, compose_payload (hash content) (PwRange None off len slice []) =
    Ok (DpRange (hash content) None off (Some off)
          (take (N.to_nat len) (drop (N.to_nat (off + 10)) content))).
Proof.
  intros Hl Hr Hm. destruct (bao_complete content (off + 10) len Hr) as (slice & _ & Hd).
  exists slice. cbn [compose_payload]. rewrite bool_decide_true by done. cbn [ensure mbind result_bind].
  unfold verify_blob_slice, bao_verify_slice. rewrite (proj2 (N.eqb_neq _ _)) by lia.
  cbn [negb ensure mbind result_bind]. rewrite (proj2 (checked_add_Some off 10 (off + 10)%N)) by (split; [done|lia]).
  cbn [ok_or mbind result_bind]. rewrite Hd. cbn [map_err mbind result_bind].
  replace (lenN _ =? len)%N with true; [done|]. symmetry. apply N.eqb_eq. unfold lenN in *.
  rewrite length_take, length_drop. lia.
Qed.

(** ** Witnesses *)

Import Toy ToyCodec ToyBao.

Definition ex_leaf : hash32 := (ex_put ex_blob {| disk := ∅ |}).1.

Lemma ex_leads : leads (read ex_repo.2) (compute_tree_id ex_root) ex_path ex_leaf.
Proof.
  apply (leads_cons _ _ ex_root {| te_name := b# "d"; te_mode := EntryMode.Tree; te_hash := ex_sub_id |});
    [vm_compute; reflexivity|by left|].
  apply (leads_cons _ _ ex_sub {| te_name := b# "f"; te_mode := EntryMode.Blob; te_hash := ex_leaf |});
    [vm_compute; reflexivity|by left|]. constructor.
Defined.

Definition ex_payload : DisclosedPayload := DpRange ex_leaf None 6 (Some 6%N) (b# "world").

Lemma ex_selects : selects (read ex_repo.2) ex_leaf (SelRange 6 5 true) ex_payload.
Proof.
  apply (sel_blob_range _ _ {| blob_data := b# "hello world" |}); [vm_compute; reflexivity|lia|].
  vm_compute. discriminate.
Defined.

Lemma build_disclosure_verifies_witness :
  let r := build_disclosure_from ex_repo.1 ex_path.*1 (SelRange 6 5 true) ex_repo.2 in
  ex_repo.2 = r.2 ∧
  ((∃ name, r.1 = Err (VeStore (OperationLimitExceeded name))) ∨
   ∃ bundle, r.1 = Ok bundle ∧
     ((lenN bundle <= MAX_BUNDLE_BYTES)%N →
      (lenN (default [] (to_option (serialize ex_top))) <= MAX_COMMIT_BYTES)%N →
      ∃ d, verify_disclosure ex_repo.1 bundle = Ok d ∧
        d_commit_id d = ex_repo.1 ∧ d_tree_hash d = compute_tree_id ex_root ∧ d_path d = ex_path ∧
        d_leaf_id d = ex_leaf ∧ d_payload d = ex_payload ∧ d_signer d = arr_zero 32 ∧
        d_signature_valid d = is_ok (verify_object_signature ex_top))).
Proof.
  apply (build_disclosure_verifies toy_forges (eq ex_repo.2) (read ex_repo.2) (store_genuine ex_repo.2)
    ex_repo.1 ex_top (default [] (to_option (serialize ex_top))) (compute_tree_id ex_root) (arr_zero 32)
    ex_path ex_leaf (SelRange 6 5 true) ex_payload ex_repo.2).
  - vm_compute. reflexivity.
  - vm_compute. reflexivity.
  - split; reflexivity.
  - exact ex_leads.
  - by split.
  - vm_compute. discriminate.
  - exact ex_selects.
  - reflexivity.
Defined.

(** The commit of the example, read as a blob: four bytes of the id of its tree. *)
Example range_of_a_commit :
  ∃ slice, compose_payload ex_repo.1 (PwRange None 0 4 slice []) =
    Ok (DpRange ex_repo.1 None 0 (Some 0%N) (take 4 (drop 4 (arr_bytes (compute_tree_id ex_root))))).
Proof. exists (take 4 (drop 4 (arr_bytes (compute_tree_id ex_root)))). vm_compute. reflexivity. Qed.
