(* ===== verification/Closure.v ===== *)
(** * Closures

    Models [rust/crates/mkit-core/src/verify/closure.rs] and
    [rust/crates/mkit-core/src/verify/push.rs]: the one walk that re-derives the id of every
    object that a root reaches, the verifiers over a source, a store, a supplied set, packs
    and a manifest, the export of a closure, and the verification of a push. A walk is a
    loop cut by fuel; that enough fuel exists is proved. *)

From S2P Require Import IndexTree.
From S2P Require Import Prelude Hash Object Serialize Messages Store ZstdFrame Pack ObjectId.
From S2P Require Import Graph Sign Wire Disclosure.

Definition MAX_CLOSURE_PACKS : N := 65536.
Definition MANIFEST_MAGIC : bytes := b# "MKCL".
Definition MANIFEST_VERSION : byte := Byte.x01.
Definition MODE_SNAPSHOT : byte := Byte.x00.
Definition MODE_HISTORY : byte := Byte.x01.
Definition CLOSURE_ENTRIES_PER_THREAD : N := 1024.

(** ** Sources *)

(** The trait [ObjectSource] of this module. *)
Class ClosureSource (S : Type) := {
  cs_fetch : hash32 → S → result VerifyError (option bytes) * S
}.

Record MapObjectSource := { mo_objects : gmap hash32 bytes }.

#[export] Instance MapObjectSource_source : ClosureSource MapObjectSource := {
  cs_fetch id s := (Ok (mo_objects s !! id), s)
}.

(** A list of [(id, message)]. *)
Abbreviation corrupt_list := (list (hash32 * bytes)).

Record PackObjectSource := {
  po_packs : list bytes;
  po_index : gmap hash32 (nat * (nat * nat));
  po_corrupt : corrupt_list
}.

(** [&packs[pack_index][range]]. *)
Definition pack_slice (packs : list bytes) (at_ : nat * (nat * nat)) : bytes :=
  let '(pack_index, (start, end_)) := at_ in slice start (end_ - start) (nth pack_index packs []).

#[export] Instance PackObjectSource_source : ClosureSource PackObjectSource := {
  cs_fetch id s := (Ok (pack_slice (po_packs s) <$> po_index s !! id), s)
}.

(** [&ObjectStore], by [read_raw_for_verification]. *)
#[export] Instance store_closure_source : ClosureSource ObjectStore := {
  cs_fetch id st :=
    (match read_raw st id with
     | Ok bs => Ok (Some bs)
     | Err (ObjectNotFound _) => Ok None
     | Err error => Err (VeStore error)
     end, st)
}.

(** ** The walk *)

Inductive RootRule := RrFail | RrRecord.

Record Walk := {
  wk_verified : N;
  wk_skipped_known : N;
  wk_missing : list hash32;
  wk_corrupt : corrupt_list;
  wk_bad_roots : list (hash32 * ObjectType.t);
  wk_visited : gset hash32
}.

Definition Walk_default : Walk :=
  {| wk_verified := 0; wk_skipped_known := 0; wk_missing := []; wk_corrupt := [];
     wk_bad_roots := []; wk_visited := ∅ |}.

Definition set_visited (v : gset hash32) (w : Walk) : Walk :=
  {| wk_verified := wk_verified w; wk_skipped_known := wk_skipped_known w;
     wk_missing := wk_missing w; wk_corrupt := wk_corrupt w; wk_bad_roots := wk_bad_roots w;
     wk_visited := v |}.
Definition add_skipped (w : Walk) : Walk :=
  {| wk_verified := wk_verified w; wk_skipped_known := wk_skipped_known w + 1;
     wk_missing := wk_missing w; wk_corrupt := wk_corrupt w; wk_bad_roots := wk_bad_roots w;
     wk_visited := wk_visited w |}.
Definition add_verified (w : Walk) : Walk :=
  {| wk_verified := wk_verified w + 1; wk_skipped_known := wk_skipped_known w;
     wk_missing := wk_missing w; wk_corrupt := wk_corrupt w; wk_bad_roots := wk_bad_roots w;
     wk_visited := wk_visited w |}.
Definition add_missing (id : hash32) (w : Walk) : Walk :=
  {| wk_verified := wk_verified w; wk_skipped_known := wk_skipped_known w;
     wk_missing := wk_missing w ++ [id]; wk_corrupt := wk_corrupt w;
     wk_bad_roots := wk_bad_roots w; wk_visited := wk_visited w |}.
Definition add_corrupt (id : hash32) (msg : bytes) (w : Walk) : Walk :=
  {| wk_verified := wk_verified w; wk_skipped_known := wk_skipped_known w;
     wk_missing := wk_missing w; wk_corrupt := wk_corrupt w ++ [(id, msg)];
     wk_bad_roots := wk_bad_roots w; wk_visited := wk_visited w |}.
Definition add_bad_root (id : hash32) (t : ObjectType.t) (w : Walk) : Walk :=
  {| wk_verified := wk_verified w; wk_skipped_known := wk_skipped_known w;
     wk_missing := wk_missing w; wk_corrupt := wk_corrupt w;
     wk_bad_roots := wk_bad_roots w ++ [(id, t)]; wk_visited := wk_visited w |}.

(** The closure [reach]. *)
Definition reach (id : hash32) (st : Walk * list hash32) : result VerifyError (Walk * list hash32) :=
  let '(out, queue) := st in
  if bool_decide (id ∈ wk_visited out) then Ok (out, queue)
  else
    let visited := {[ id ]} ∪ wk_visited out in
    _ ← ensure (N.of_nat (size visited) <=? MAX_ENTRIES)%N VeTooManyClosureObjects;
    Ok (set_visited visited out, queue ++ [id]).

Fixpoint reach_all (ids : list hash32) (st : Walk * list hash32)
    : result VerifyError (Walk * list hash32) :=
  match ids with
  | [] => Ok st
  | id :: ids => st ← reach id st; reach_all ids st
  end.

(** [sort_unstable] of hashes, whose equal elements are the same, and [dedup]. *)
Definition hash_leb (a b : hash32) : bool := negb (hash_ltb b a).

Fixpoint dedup_from {A} (same : A → A → bool) (x : A) (l : list A) : list A :=
  match l with
  | [] => [x]
  | y :: l => if same x y then dedup_from same x l else x :: dedup_from same y l
  end.
Definition dedup_by {A} (same : A → A → bool) (l : list A) : list A :=
  match l with [] => [] | x :: l => dedup_from same x l end.

Definition hash_eqb (a b : hash32) : bool := bool_decide (a = b).

(** [sort_by_key(|(id, _)| *id)], a stable sort. *)
Definition sort_by_id {A} (l : list (hash32 * A)) : list (hash32 * A) :=
  stable_sort (λ a b, hash_leb a.1 b.1) l.

(** What [walk] does when the queue is empty. *)
Definition finish_walk (w : Walk) : Walk :=
  {| wk_verified := wk_verified w; wk_skipped_known := wk_skipped_known w;
     wk_missing := dedup_by hash_eqb (stable_sort hash_leb (wk_missing w));
     wk_corrupt := sort_by_id (wk_corrupt w); wk_bad_roots := sort_by_id (wk_bad_roots w);
     wk_visited := wk_visited w |}.

(** The check of a root's type. *)
Definition check_root (is_root : bool) (root_rule : RootRule) (id : hash32) (object : Object) (out : Walk)
    : result VerifyError Walk :=
  if is_root then
    match object with
    | OCommit _ | ORemix _ | OTag _ => Ok out
    | other =>
        match root_rule with
        | RrFail => Err (VeClosureRootWrongType (object_type other))
        | RrRecord => Ok (add_bad_root id (object_type other) out)
        end
    end
  else Ok out.

(** The message for bytes with another id. *)
Definition mismatch_message (derived id : hash32) : bytes :=
  b# "object bytes hash to " ++ to_hex derived ++ b# ", expected " ++ to_hex id.

(** The state of the walk: with the source, and what the callbacks [known] and [visit] keep. *)
Record Walking (S K V : Type) := {
  wg_out : Walk;
  wg_queue : list hash32;
  wg_source : S;
  wg_known : K;
  wg_visit : V
}.
#[global] Arguments wg_out {S K V} _.
#[global] Arguments wg_queue {S K V} _.
#[global] Arguments wg_source {S K V} _.
#[global] Arguments wg_known {S K V} _.
#[global] Arguments wg_visit {S K V} _.

Section walk.
Context `{B : Blake3} {S K V : Type} `{!ClosureSource S}.
Context (mode : ClosureMode) (known : hash32 → K → bool * K) (root_rule : RootRule).
Context (visit : hash32 → Object → V → result VerifyError unit * V) (roots : list hash32).

Abbreviation walked := (result VerifyError Walk * S * K * V)%type.

(** A fetched object whose bytes decode and have the requested id. *)
Definition visit_object (id : hash32) (object : Object) (out : Walk) (queue : list hash32)
    (s : S) (k : K) (v : V) : Walking S K V + walked :=
  match check_root (bool_decide (id ∈ roots)) root_rule id object out with
  | Err e => inr (Err e, s, k, v)
  | Ok out =>
      match visit id object v with
      | (Err e, v) => inr (Err e, s, k, v)
      | (Ok _, v) =>
          match reach_all (children object mode) (add_verified out, queue) with
          | Err e => inr (Err e, s, k, v)
          | Ok (out, queue) =>
              inl {| wg_out := out; wg_queue := queue; wg_source := s; wg_known := k; wg_visit := v |}
          end
      end
  end.

(** One round of [while let Some(id) = queue.pop_front()]. *)
Definition walk_step (w : Walking S K V) : Walking S K V + walked :=
  match wg_queue w with
  | [] => inr (Ok (finish_walk (wg_out w)), wg_source w, wg_known w, wg_visit w)
  | id :: queue =>
      let '(is_known, k) := known id (wg_known w) in
      let continue out s :=
        inl {| wg_out := out; wg_queue := queue; wg_source := s; wg_known := k; wg_visit := wg_visit w |} in
      if (is_known : bool) then continue (add_skipped (wg_out w)) (wg_source w)
      else
        let '(fetched, s) := cs_fetch id (wg_source w) in
        match fetched with
        | Err e => inr (Err e, s, k, wg_visit w)
        | Ok None => continue (add_missing id (wg_out w)) s
        | Ok (Some bs) =>
            match deserialize bs with
            | Err error => continue (add_corrupt id (MkitError_to_string error) (wg_out w)) s
            | Ok object =>
                let derived := id_from_object object bs in
                if hash_eqb derived id
                then visit_object id object (wg_out w) queue s k (wg_visit w)
                else continue (add_corrupt id (mismatch_message derived id) (wg_out w)) s
            end
        end
  end.

Definition walk (fuel : nat) (source : S) (k : K) (v : V) : option walked :=
  match reach_all roots (Walk_default, []) with
  | Err e => Some (Err e, source, k, v)
  | Ok (out, queue) =>
      loop fuel walk_step
        {| wg_out := out; wg_queue := queue; wg_source := source; wg_known := k; wg_visit := v |}
  end.
End walk.

(** ** Reports *)

Record ClosureReport := {
  cr_root : hash32;
  cr_mode : ClosureMode;
  cr_verified : N;
  cr_missing : list hash32;
  cr_corrupt : corrupt_list;
  cr_unreferenced : list hash32;
  cr_unreferenced_checked : bool
}.

Definition is_complete (r : ClosureReport) : bool :=
  bool_decide (cr_missing r = []) && bool_decide (cr_corrupt r = []).

Definition merge_corrupt (r : ClosureReport) (extra : corrupt_list) : ClosureReport :=
  {| cr_root := cr_root r; cr_mode := cr_mode r; cr_verified := cr_verified r;
     cr_missing := cr_missing r;
     cr_corrupt := dedup_by (λ a b, hash_eqb a.1 b.1) (sort_by_id (cr_corrupt r ++ extra));
     cr_unreferenced := cr_unreferenced r; cr_unreferenced_checked := cr_unreferenced_checked r |}.

(** The two assignments that end [verify_closure] and [verify_closure_packs]: the keys of the
    index, in the order of a [BTreeMap], that were not visited. *)
Definition set_unreferenced {A} (index : gmap hash32 A) (visited : gset hash32) (r : ClosureReport)
    : ClosureReport :=
  {| cr_root := cr_root r; cr_mode := cr_mode r; cr_verified := cr_verified r;
     cr_missing := cr_missing r; cr_corrupt := cr_corrupt r;
     cr_unreferenced := filter (.∉ visited) (bt_collect hash_ltb (map_to_list index).*1);
     cr_unreferenced_checked := true |}.

Section closure.
Context `{B : Blake3}.

Definition walk_closure {S} `{!ClosureSource S} (fuel : nat) (root : hash32) (mode : ClosureMode)
    (source : S) : option (result VerifyError (ClosureReport * gset hash32) * S) :=
  '(r, s, _, _) ← walk mode (λ _ u, (false, u)) RrFail (λ _ _ u, (Ok tt, u)) [root] fuel source tt tt;
  Some (w ← r;
        Ok ({| cr_root := root; cr_mode := mode; cr_verified := wk_verified w;
               cr_missing := wk_missing w; cr_corrupt := wk_corrupt w;
               cr_unreferenced := []; cr_unreferenced_checked := false |}, wk_visited w), s).

Definition verify_closure_streaming {S} `{!ClosureSource S} (fuel : nat) (root : hash32)
    (mode : ClosureMode) (source : S) : option (result VerifyError ClosureReport * S) :=
  '(r, s) ← walk_closure fuel root mode source;
  Some ('(report, _) ← r; Ok report, s).

Definition verify_closure_store (fuel : nat) (store : ObjectStore) (root : hash32) (mode : ClosureMode)
    : option (result VerifyError ClosureReport) :=
  fst <$> verify_closure_streaming fuel root mode store.

(** ** The index of what is supplied *)

Definition classify_object (bs : bytes) : result (hash32 * bytes) hash32 :=
  match deserialize bs with
  | Err e => Err (hash bs, MkitError_to_string e)
  | Ok obj => Ok (id_from_object obj bs)
  end.

(** The loop over results that both branches of both indexers end with. *)
Definition collect_results {A} (rs : list (result (hash32 * bytes) (hash32 * A)))
    (acc : gmap hash32 A * corrupt_list) : gmap hash32 A * corrupt_list :=
  foldl (λ '(by_id, corrupt) r,
    match r with
    | Ok (id, a) => (<[ id := a ]> by_id, corrupt)
    | Err e => (by_id, corrupt ++ [e])
    end) acc rs.

Definition index_sequential {A} (get : A → bytes) (items : list A) : gmap hash32 A * corrupt_list :=
  foldl (λ '(by_id, corrupt) a,
    match classify_object (get a) with
    | Ok id => (<[ id := a ]> by_id, corrupt)
    | Err e => (by_id, corrupt ++ [e])
    end) (∅, []) items.

(** Each worker maps its chunk; the handles are joined in order. *)
Definition index_parallel {A} (get : A → bytes) (items : list A) (threads : nat)
    : gmap hash32 A * corrupt_list :=
  let chunk_size := Nat.max ((length items + threads - 1) / threads) 1 in
  foldl (λ acc chunk,
    collect_results (map (λ a, id ← classify_object (get a); Ok (id, a)) chunk) acc)
    (∅, []) (chunks_of (length items) chunk_size items).

(** [threads]: what [available_parallelism] says. *)
Definition index_with {A} (get : A → bytes) (threads : nat) (items : list A)
    : gmap hash32 A * corrupt_list :=
  if (1 <? threads) && (saturating_mul CLOSURE_ENTRIES_PER_THREAD (N.of_nat threads) <=? lenN items)%N
  then index_parallel get items threads
  else index_sequential get items.

Definition index_supplied_objects (threads : nat) (items : list bytes) : gmap hash32 bytes * corrupt_list :=
  index_with id threads items.

Definition index_pack_entries (threads : nat) (packs : list bytes) (refs : list (nat * (nat * nat)))
    : gmap hash32 (nat * (nat * nat)) * corrupt_list :=
  index_with (pack_slice packs) threads refs.

Definition verify_closure (fuel threads : nat) (root : hash32) (mode : ClosureMode) (objects : list bytes)
    : option (result VerifyError ClosureReport) :=
  if (MAX_ENTRIES <? lenN objects)%N then Some (Err VeTooManyClosureObjects)
  else
    let '(by_id, corrupt) := index_supplied_objects threads objects in
    let corrupt := sort_by_id corrupt in
    '(r, source) ← walk_closure fuel root mode {| mo_objects := by_id |};
    Some ('(report, visited) ← r;
          Ok (set_unreferenced (mo_objects source) visited (merge_corrupt report corrupt))).
End closure.

(** ** The manifest *)

Record ClosureManifest := {
  cm_root : hash32;
  cm_mode : ClosureMode;
  cm_packs : list hash32
}.

Definition mode_byte (mode : ClosureMode) : byte :=
  match mode with Snapshot => MODE_SNAPSHOT | History => MODE_HISTORY end.

Section manifest.
Context `{C : WireCodec}.

Definition manifest_encode (m : ClosureManifest) : bytes :=
  MANIFEST_MAGIC ++ [MANIFEST_VERSION] ++ write_hash (cm_root m) ++ write_u8 (mode_byte (cm_mode m))
  ++ write_vec write_hash (cm_packs m).

Definition manifest_decode (bs : bytes) : result VerifyError ClosureManifest :=
  _ ← ensure ((5 <=? length bs) && bytes_eqb (take 4 bs) MANIFEST_MAGIC) VeClosureManifestBadMagic;
  let version := nth 4 bs Byte.x00 in
  _ ← ensure (bool_decide (version = MANIFEST_VERSION)) (VeClosureManifestUnsupportedVersion version);
  '(root, r) ← ok_or (read_hash (drop 5 bs)) VeClosureManifestMalformed;
  '(mode_b, r) ← ok_or (read_u8 r) VeClosureManifestMalformed;
  mode ← (if bool_decide (mode_b = MODE_SNAPSHOT) then Ok Snapshot
          else if bool_decide (mode_b = MODE_HISTORY) then Ok History
          else Err VeClosureManifestMalformed);
  '(packs, r) ← ok_or (read_vec read_hash 0 MAX_CLOSURE_PACKS r) VeClosureManifestMalformed;
  _ ← ensure (bool_decide (r = [])) VeClosureManifestMalformed;
  Ok {| cm_root := root; cm_mode := mode; cm_packs := packs |}.
End manifest.

(** ** Packs *)

Section packs.
Context `{B : Blake3, Z : Zstd}.

(** [while let Some(entry) = entries.next()]: a round for each entry that is left, and at the
    bound the iterator is at its end. *)
Fixpoint pack_refs (bound : nat) (pack_index : nat) (entries : PackEntries) (entry_index : N)
    (refs : list (nat * (nat * nat))) (supplied : N)
    : result VerifyError (list (nat * (nat * nat)) * N) :=
  match next entries with
  | (None, _) => Ok (refs, supplied)
  | (Some entry, entries) =>
      _ ← ensure (supplied <? MAX_ENTRIES)%N VeTooManyClosureObjects;
      let supplied := (supplied + 1)%N in
      payload_range ← ok_or (last_payload_range entries) (VePack PeUnexpectedEof);
      entry ← map_err VePack entry;
      match entry with
      | PRaw _ =>
          let refs := refs ++ [(pack_index, payload_range)] in
          match bound with
          | 0 => Ok (refs, supplied)
          | S bound => pack_refs bound pack_index entries (entry_index + 1) refs supplied
          end
      | PDelta _ _ => Err (VeClosureProfileViolation (N.of_nat pack_index) entry_index)
      end
  end.

Fixpoint packs_refs (packs : list bytes) (pack_index : nat) (refs : list (nat * (nat * nat)))
    (supplied : N) : result VerifyError (list (nat * (nat * nat))) :=
  match packs with
  | [] => Ok refs
  | pack :: packs =>
      entries ← map_err VePack (PackEntries_new pack);
      _ ← ensure (is_raw_only entries)
            (VeClosureProfileViolation (N.of_nat pack_index) (default 0%N (first_non_raw_index entries)));
      '(refs, supplied) ← pack_refs (N.to_nat (entry_count entries)) pack_index entries 0 refs supplied;
      packs_refs packs (S pack_index) refs supplied
  end.

Definition verify_closure_packs (fuel threads : nat) (root : hash32) (mode : ClosureMode)
    (packs : list bytes) : option (result VerifyError ClosureReport) :=
  match packs_refs packs 0 [] 0 with
  | Err e => Some (Err e)
  | Ok refs =>
      let '(index, corrupt) := index_pack_entries threads packs refs in
      let source := {| po_packs := packs; po_index := index; po_corrupt := sort_by_id corrupt |} in
      '(r, source) ← walk_closure fuel root mode source;
      Some ('(report, visited) ← r;
            Ok (set_unreferenced (po_index source) visited (merge_corrupt report (po_corrupt source))))
  end.

(** The first position where the keys differ. *)
Fixpoint keys_match (index : N) (want : list hash32) (packs : list bytes) : result VerifyError unit :=
  match want, packs with
  | w :: want, p :: packs =>
      _ ← ensure (hash_eqb (pack_key p) w) (VeClosurePackKeyMismatch index);
      keys_match (index + 1) want packs
  | _, _ => Ok tt
  end.

Definition verify_closure_manifest `{C : WireCodec} (fuel threads : nat) (expected_root : hash32)
    (manifest : bytes) (packs : list bytes) : option (result VerifyError ClosureReport) :=
  match
    decoded ← manifest_decode manifest;
    _ ← ensure (hash_eqb (cm_root decoded) expected_root) (VeClosureRootMismatch expected_root (cm_root decoded));
    _ ← ensure (lenN (cm_packs decoded) =? lenN packs)%N
          (VeClosurePackCountMismatch (lenN (cm_packs decoded)) (lenN packs));
    _ ← keys_match 0 (cm_packs decoded) packs;
    Ok decoded
  with
  | Err e => Some (Err e)
  | Ok decoded => verify_closure_packs fuel threads (cm_root decoded) (cm_mode decoded) packs
  end.

(** ** Export *)

Record ClosureExport := { ce_manifest : bytes; ce_packs : list bytes }.

Definition pack_err {A} (r : result PackError A) : result VerifyError A := map_err VePack r.

(** The loop of [export_closure_with_limits] over the objects. *)
Fixpoint export_packs (st : ObjectStore) (max_pack_payload max_entries : N) (hashes : list hash32)
    (packs : list bytes) (writer : PackWriter) : result VerifyError (list bytes * PackWriter) :=
  match hashes with
  | [] => Ok (packs, writer)
  | h :: hashes =>
      bs ← map_err VeStore (read st h);
      let next_payload := N.min (pw_total_payload writer + lenN bs) U64_MAX in
      '(packs, writer) ←
        (if (0 <? pw_entry_count writer)%N
            && ((max_pack_payload <? next_payload)%N || (max_entries <=? pw_entry_count writer)%N)
         then p ← pack_err (finish writer); Ok (packs ++ [p], new_raw_only)
         else Ok (packs, writer));
      match push_raw h bs writer with
      | (Err e, _) => Err (VePack e)
      | (Ok _, writer) => export_packs st max_pack_payload max_entries hashes packs writer
      end
  end.

Definition export_closure_with_limits `{C : WireCodec} (fuel : nat) (st : ObjectStore) (root : hash32)
    (mode : ClosureMode) (max_pack_payload max_entries : N) : option (result VerifyError ClosureExport) :=
  match
    obj ← map_err VeStore (read_object st root);
    match obj with
    | OCommit _ | ORemix _ | OTag _ => Ok tt
    | other => Err (VeClosureRootWrongType (object_type other))
    end
  with
  | Err e => Some (Err e)
  | Ok _ =>
      hashes ← match mode with
               | Snapshot => reachable_snapshot fuel st root
               | History => reachable_objects fuel st root
               end;
      Some (
        hashes ← map_err VeStore hashes;
        '(packs, writer) ← export_packs st max_pack_payload max_entries hashes [] new_raw_only;
        packs ← (if (0 <? pw_entry_count writer)%N then p ← pack_err (finish writer); Ok (packs ++ [p])
                 else Ok packs);
        _ ← ensure (lenN packs <=? MAX_CLOSURE_PACKS)%N VeTooManyClosureObjects;
        Ok {| ce_manifest := manifest_encode {| cm_root := root; cm_mode := mode; cm_packs := map pack_key packs |};
              ce_packs := packs |})
  end.

Definition export_closure `{C : WireCodec} (fuel : nat) (st : ObjectStore) (root : hash32) (mode : ClosureMode)
    : option (result VerifyError ClosureExport) :=
  export_closure_with_limits fuel st root mode MAX_TOTAL_PAYLOAD MAX_ENTRIES.
End packs.

(** ** Pushes *)

Record PushReport := {
  pr_verified : N;
  pr_skipped_known : N;
  pr_missing : list hash32;
  pr_corrupt : corrupt_list;
  pr_bad_signatures : corrupt_list;
  pr_bad_tips : list (hash32 * ObjectType.t)
}.

Definition is_accepted (r : PushReport) : bool :=
  bool_decide (pr_missing r = []) && bool_decide (pr_corrupt r = [])
  && bool_decide (pr_bad_signatures r = []) && bool_decide (pr_bad_tips r = []).

Section push.
Context `{B : Blake3, E : Ed25519} {S K : Type} `{!ClosureSource S}.

(** The [visit] of a push: the failures it has seen. *)
Definition collect_bad_signature (id : hash32) (obj : Object) (bad : corrupt_list)
    : result VerifyError unit * corrupt_list :=
  match verify_object_signature obj with
  | Err error => (Ok tt, bad ++ [(id, MkitError_to_string error)])
  | Ok _ => (Ok tt, bad)
  end.

Definition verify_push (fuel : nat) (new_tips : list hash32) (mode : ClosureMode) (source : S)
    (known : hash32 → K → bool * K) (k : K) : option (result VerifyError PushReport * S * K) :=
  '(r, s, k, bad) ← walk mode known RrRecord collect_bad_signature new_tips fuel source k [];
  Some (walked ← r;
        Ok {| pr_verified := wk_verified walked; pr_skipped_known := wk_skipped_known walked;
              pr_missing := wk_missing walked; pr_corrupt := wk_corrupt walked;
              pr_bad_signatures := sort_by_id bad; pr_bad_tips := wk_bad_roots walked |}, s, k).
End push.
