(* ===== verification/ClosureFacts.v ===== *)
(** * Closures: facts

    What the walk of [Closure] finds: it ends within [MAX_ENTRIES] rounds, reaches exactly
    what the roots reach through correctly identified objects, and reports each reached id
    as verified, known, missing or corrupt. From it: what a complete report and an accepted
    push prove. *)

From S2P Require Import Prelude Hash Object Serialize SerializeFacts Messages Store StoreFacts.
From S2P Require Import ZstdFrame Pack ObjectId Graph GraphFacts Sign Wire Disclosure Closure.

(** ** A worklist that queues each node once *)

Section worklist_once.
Context {A : Type} (edges : A → list A) (Root : A → Prop).

(** The node [x] is visited; of its successors only new ones are queued. *)
Lemma wl_visit_once (V V' : A → Prop) x pending pending' :
  (∀ y, V' y ↔ y = x ∨ V y) →
  (∀ y, y ∈ pending → V' y ∨ y ∈ pending') → (∀ y, edge edges x y → V' y ∨ y ∈ pending') →
  (∀ y, y ∈ pending' → y ∈ pending ∨ edge edges x y) →
  wl_inv edges Root (λ _, False) V (x :: pending) → wl_inv edges Root (λ _, False) V' pending'.
Proof.
  intros HV Hkeep Hnew Hfrom [H1 H2 H3 H4].
  assert (Hx : reachable edges Root x) by (destruct (H4 x) as [[]|?]; [right; left|done]).
  split.
  - done.
  - intros y Hy. destruct (H2 y Hy) as [?|[->|?]%elem_of_cons]; [left; apply HV; auto..|by apply Hkeep].
  - intros y z [->|Hy]%HV Hz; [by apply Hnew|].
    destruct (H3 y z Hy Hz) as [?|[->|?]%elem_of_cons]; [left; apply HV; auto..|by apply Hkeep].
  - intros y [[->|Hy]%HV|[Hy|Hy]%Hfrom]; [by right|by apply H4; left|by apply H4; right; right|].
    right. destruct Hx as (r & Hr & Hx). exists r. split; [done|]. by eapply rtc_r.
Qed.
End worklist_once.

(** ** Lists that are sorted *)

Lemma hash_leb_tot a b : hash_leb a b = true ∨ hash_leb b a = true.
Proof.
  unfold hash_leb. rewrite !negb_true_iff.
  destruct (hash_ltb b a) eqn:E1; [|by left]. right. destruct (hash_ltb a b) eqn:E2; [|done].
  pose proof (ltb_tr (ltb := hash_ltb) _ _ _ E1 E2) as H.
  by destruct (ltb_irr (ltb := hash_ltb) b).
Qed.

Lemma elem_of_sort_by_id {A} (l : list (hash32 * A)) x : x ∈ sort_by_id l ↔ x ∈ l.
Proof. unfold sort_by_id. by rewrite stable_sort_perm. Qed.

Lemma sort_by_id_nil {A} (l : list (hash32 * A)) : sort_by_id l = [] ↔ l = [].
Proof.
  unfold sort_by_id. split; [|by intros ->]. intros H.
  pose proof (stable_sort_perm (λ a b : hash32 * A, hash_leb a.1 b.1) l) as Hp. rewrite H in Hp.
  by apply Permutation_nil in Hp.
Qed.

Lemma dedup_from_nodup (l : list hash32) x :
  NoDup (x :: l) → dedup_from hash_eqb x l = x :: l.
Proof.
  revert x. induction l as [|y l IH]; intros x H; [done|]. cbn.
  apply list.NoDup_cons in H as [Hx Hl]. unfold hash_eqb. rewrite bool_decide_false by set_solver.
  by rewrite IH.
Qed.

Lemma missing_sorted (l : list hash32) :
  NoDup l → dedup_by hash_eqb (stable_sort hash_leb l) = stable_sort hash_leb l.
Proof.
  intros H. assert (NoDup (stable_sort hash_leb l)) as Hs by by rewrite stable_sort_perm.
  unfold dedup_by. destruct (stable_sort hash_leb l) as [|x k]; [done|]. by apply dedup_from_nodup.
Qed.

(** ** Reaching ids *)

Lemma size_add (x : hash32) (X : gset hash32) : x ∉ X → size ({[x]} ∪ X) = S (size X).
Proof. intros H. rewrite size_union by set_solver. by rewrite size_singleton. Qed.

Lemma set_visited_same w : set_visited (wk_visited w) w = w.
Proof. by destruct w. Qed.

Lemma reach_all_spec ids out queue :
  (N.of_nat (size (wk_visited out)) <= MAX_ENTRIES)%N → NoDup queue → (∀ x, x ∈ queue → x ∈ wk_visited out) →
  match reach_all ids (out, queue) with
  | Ok (out', queue') =>
      out' = set_visited (wk_visited out ∪ list_to_set ids) out ∧ NoDup queue' ∧
      (N.of_nat (size (wk_visited out')) <= MAX_ENTRIES)%N ∧
      (∀ x, x ∈ queue' ↔ x ∈ queue ∨ x ∈ ids ∧ x ∉ wk_visited out)
  | Err e => e = VeTooManyClosureObjects ∧
      (MAX_ENTRIES < N.of_nat (size (wk_visited out ∪ list_to_set ids)))%N
  end.
Proof.
  revert out queue. induction ids as [|id ids IH]; intros out queue Hcap Hnd Hq; cbn [reach_all].
  { cbn [list_to_set]. rewrite union_empty_r_L, set_visited_same. split_and!; (done || set_solver). }
  unfold reach. case_bool_decide as Hin.
  - cbn [mbind result_bind]. specialize (IH out queue Hcap Hnd Hq). cbn [list_to_set].
    assert (wk_visited out ∪ ({[id]} ∪ list_to_set ids) = wk_visited out ∪ list_to_set ids) as -> by set_solver.
    destruct (reach_all ids (out, queue)) as [[out' queue']|e]; [|done].
    destruct IH as (H1 & H2 & H3 & H4). split_and!; try done. intros x. rewrite H4, elem_of_cons. naive_solver.
  - destruct (N.leb_spec (N.of_nat (size ({[id]} ∪ wk_visited out))) MAX_ENTRIES) as [Hle|Hgt]; cbn [ensure mbind result_bind].
    + specialize (IH (set_visited ({[id]} ∪ wk_visited out) out) (queue ++ [id]) Hle).
      cbn [set_visited wk_visited] in IH. cbn [list_to_set].
      assert (wk_visited out ∪ ({[id]} ∪ list_to_set ids) = {[id]} ∪ wk_visited out ∪ list_to_set ids) as -> by set_solver.
      assert (NoDup (queue ++ [id])) as Hnd'.
      { apply list.NoDup_app. split; [done|]. split; [|apply NoDup_singleton].
        intros x Hx ->%list_elem_of_singleton. by apply Hin, Hq. }
      specialize (IH Hnd' ltac:(intros x; rewrite elem_of_app, list_elem_of_singleton; set_solver)).
      destruct (reach_all ids _) as [[out' queue']|e]; [|done].
      destruct IH as (H1 & H2 & H3 & H4). split_and!; try done.
      intros x. rewrite H4, elem_of_app, list_elem_of_singleton, elem_of_cons, not_elem_of_union, elem_of_singleton.
      destruct (decide (x = id)) as [->|]; naive_solver.
    + split; [done|]. cbn [list_to_set]. eapply N.lt_le_trans; [exact Hgt|].
      assert (size ({[id]} ∪ wk_visited out) ≤ size (wk_visited out ∪ ({[id]} ∪ list_to_set ids)))%nat; [|lia].
      apply subseteq_size. set_solver.
Qed.

#[export] Instance RootRule_eq_dec : EqDecision RootRule.
Proof. solve_decision. Defined.

(** ** What the walk finds *)

Inductive status :=
  | SKnown
  | SGood (o : Object)
  | SMissing
  | SCorrupt (msg : bytes)
  | SError (e : VerifyError).

Definition is_good (s : status) : bool := match s with SGood _ => true | _ => false end.
Definition is_known (s : status) : bool := match s with SKnown => true | _ => false end.

(** The types that a root may have. *)
Definition root_type (o : Object) : bool :=
  match o with OCommit _ | ORemix _ | OTag _ => true | _ => false end.

(** What bytes are, that were fetched for an id. *)
Definition bytes_status `{B : Blake3} (h : hash32) (bs : bytes) : status :=
  match deserialize bs with
  | Err e => SCorrupt (MkitError_to_string e)
  | Ok o => if hash_eqb (id_from_object o bs) h then SGood o
            else SCorrupt (mismatch_message (id_from_object o bs) h)
  end.

(** A source whose answers do not depend on its state. *)
Class ClosureView (S : Type) `{!ClosureSource S} (I : S → Prop)
    (view : hash32 → result VerifyError (option bytes)) : Prop :=
  cv_fetch id s : I s → I (cs_fetch id s).2 ∧ (cs_fetch id s).1 = view id.

Lemma size_filter_add (P : hash32 → Prop) `{∀ h, Decision (P h)} (h : hash32) (D : gset hash32) :
  h ∉ D → size (filter P ({[h]} ∪ D)) = ((if decide (P h) then 1 else 0) + size (filter P D))%nat.
Proof.
  intros Hh. destruct (decide (P h)) as [Hp|Hp].
  - change (1 + size (filter P D))%nat with (S (size (filter P D))).
    rewrite <- (size_add h (filter P D)) by (rewrite elem_of_filter; naive_solver). apply (f_equal size).
    apply set_eq. intros x. rewrite !elem_of_filter, !elem_of_union, !elem_of_filter, elem_of_singleton. naive_solver.
  - apply (f_equal size), set_eq. intros x. rewrite !elem_of_filter, elem_of_union, elem_of_singleton. naive_solver.
Qed.

Lemma size_filter_none (P : hash32 → Prop) `{∀ h, Decision (P h)} :
  size (filter P (∅ : gset hash32)) = 0%nat.
Proof. apply size_empty_iff. intros x. rewrite elem_of_filter. set_solver. Qed.

(** A list of what the ids of a set enter, each once. *)
Definition log_of {X} (E : hash32 → X → Prop) (D : gset hash32) (l : list X) : Prop :=
  NoDup l ∧ ∀ x, x ∈ l ↔ ∃ h, h ∈ D ∧ E h x.

Lemma log_add {X} (E : hash32 → X → Prop) (key : X → hash32) D l h x :
  (∀ h x, E h x → key x = h) → log_of E D l → h ∉ D → E h x → (∀ y, E h y → y = x) →
  log_of E ({[h]} ∪ D) (l ++ [x]).
Proof.
  intros Hkey [Hn Hl] Hh Hx Hu. split.
  - apply list.NoDup_app. split; [done|]. split; [|apply NoDup_singleton].
    intros y (h' & Hh' & Hy)%Hl ->%list_elem_of_singleton. apply Hh.
    apply Hkey in Hx, Hy. congruence.
  - intros y. rewrite elem_of_app, list_elem_of_singleton, Hl. split.
    + intros [(h' & Hh' & Hy)| ->]; [exists h'|exists h]; split; (set_solver || done).
    + intros (h' & [->%elem_of_singleton|Hh']%elem_of_union & Hy); [right; by apply Hu|left; eauto].
Qed.

Lemma log_pass {X} (E : hash32 → X → Prop) D l h :
  log_of E D l → (∀ y, ¬ E h y) → log_of E ({[h]} ∪ D) l.
Proof.
  intros [Hn Hl] Hu. split; [done|]. intros y. rewrite Hl. split.
  - intros (h' & Hh' & Hy). exists h'. split; [set_solver|done].
  - intros (h' & [->%elem_of_singleton|Hh']%elem_of_union & Hy); [by destruct (Hu y)|eauto].
Qed.

Lemma log_empty {X} (E : hash32 → X → Prop) : log_of E ∅ [].
Proof. split; [apply NoDup_nil_2|]. intros x. split; [by intros ?%not_elem_of_nil|]. intros (h & Hh & _). set_solver. Qed.

Section walk_spec.
Context `{B : Blake3} {S K V : Type} `{!ClosureSource S}.
Context (I : S → Prop) (view : hash32 → result VerifyError (option bytes)) `{!ClosureView S I view}.
Context (mode : ClosureMode) (known : hash32 → K → bool * K) (kn : hash32 → bool).
Context (Hkn : ∀ h k, (known h k).1 = kn h) (root_rule : RootRule).
Context (visit : hash32 → Object → V → result VerifyError unit * V) (roots : list hash32).

Definition status_of (h : hash32) : status :=
  if kn h then SKnown
  else match view h with
       | Err e => SError e
       | Ok None => SMissing
       | Ok (Some bs) => bytes_status h bs
       end.

(** The edges of the walk: only a correctly identified object has any. *)
Definition cedges (h : hash32) : list hash32 :=
  match status_of h with SGood o => children o mode | _ => [] end.

Definition reached (h : hash32) : Prop := reachable cedges (.∈ roots) h.

(** What the visitor keeps, for the ids handled so far, and the errors it may return. *)
Context (VI : gset hash32 → V → Prop) (VE : hash32 → VerifyError → Prop).
Context (Hvisit : ∀ D h o v, h ∉ D → status_of h = SGood o → VI D v →
  match visit h o v with (Ok _, v') => VI ({[h]} ∪ D) v' | (Err e, _) => VE h e end).
Context (Hpass : ∀ D h v, h ∉ D → is_good (status_of h) = false → VI D v → VI ({[h]} ∪ D) v).

Definition e_missing (h x : hash32) : Prop := x = h ∧ status_of h = SMissing.
Definition e_corrupt (h : hash32) (x : hash32 * bytes) : Prop := x.1 = h ∧ status_of h = SCorrupt x.2.
Definition e_bad (h : hash32) (x : hash32 * ObjectType.t) : Prop :=
  x.1 = h ∧ h ∈ roots ∧ ∃ o, status_of h = SGood o ∧ root_type o = false ∧ x.2 = object_type o.

Record out_ok (D : gset hash32) (out : Walk) : Prop := {
  oo_verified : wk_verified out = N.of_nat (size (filter (λ h, is_good (status_of h) = true) D));
  oo_skipped : wk_skipped_known out = N.of_nat (size (filter (λ h, is_known (status_of h) = true) D));
  oo_missing : log_of e_missing D (wk_missing out);
  oo_corrupt : log_of e_corrupt D (wk_corrupt out);
  oo_bad : log_of e_bad D (wk_bad_roots out)
}.

(** The ids that the walk has taken from its queue. *)
Definition done_ids (w : Walking S K V) : gset hash32 :=
  wk_visited (wg_out w) ∖ list_to_set (wg_queue w).

Record walk_inv (w : Walking S K V) : Prop := {
  wi_source : I (wg_source w);
  wi_nodup : NoDup (wg_queue w);
  wi_queue x : x ∈ wg_queue w → x ∈ wk_visited (wg_out w);
  wi_wl : wl_inv cedges (.∈ roots) (λ _, False) (.∈ done_ids w) (wg_queue w);
  wi_cap : (N.of_nat (size (wk_visited (wg_out w))) <= MAX_ENTRIES)%N;
  wi_out : out_ok (done_ids w) (wg_out w);
  wi_visit : VI (done_ids w) (wg_visit w);
  wi_rule : root_rule = RrFail → wk_bad_roots (wg_out w) = [];
  wi_clean h e : h ∈ done_ids w → status_of h ≠ SError e
}.

(** What a finished walk promises. *)
Definition walk_post (r : result VerifyError Walk * S * K * V) : Prop :=
  let '(r, s, k, v) := r in
  match r with
  | Ok out =>
      I s ∧ (∀ h, h ∈ wk_visited out ↔ reached h) ∧ out_ok (wk_visited out) out ∧
      VI (wk_visited out) v ∧ (N.of_nat (size (wk_visited out)) <= MAX_ENTRIES)%N ∧
      (∀ h, reached h → ∀ e, status_of h ≠ SError e) ∧
      (root_rule = RrFail → wk_bad_roots out = []) ∧
      Sorted (λ a b, hash_leb a b = true) (wk_missing out)
  | Err e =>
      (e = VeTooManyClosureObjects ∧ ∃ X : gset hash32, (∀ h, h ∈ X → reached h) ∧
        (MAX_ENTRIES < N.of_nat (size X))%N) ∨
      (∃ h, reached h ∧ status_of h = SError e) ∨
      (∃ h o, root_rule = RrFail ∧ h ∈ roots ∧ status_of h = SGood o ∧ root_type o = false ∧
        e = VeClosureRootWrongType (object_type o)) ∨
      (∃ h, reached h ∧ VE h e)
  end.

(** How one id enters the report. *)
Definition with_bad_root (h : hash32) (o : Object) (out : Walk) : Walk :=
  if bool_decide (h ∈ roots) && negb (root_type o) then add_bad_root h (object_type o) out else out.

Definition record (h : hash32) (out : Walk) : Walk :=
  match status_of h with
  | SKnown => add_skipped out
  | SGood o => add_verified (with_bad_root h o out)
  | SMissing => add_missing h out
  | SCorrupt m => add_corrupt h m out
  | SError _ => out
  end.

Lemma e_missing_key h x : e_missing h x → id x = h.
Proof. by intros [-> _]. Qed.
Lemma e_corrupt_key h x : e_corrupt h x → x.1 = h.
Proof. by intros [? _]. Qed.
Lemma e_bad_key h x : e_bad h x → x.1 = h.
Proof. by intros [? _]. Qed.

Lemma missing_step D l h :
  log_of e_missing D l → h ∉ D →
  log_of e_missing ({[h]} ∪ D) (match status_of h with SMissing => l ++ [h] | _ => l end).
Proof.
  intros Hl Hh. destruct (status_of h) eqn:E.
  3: { apply (log_add _ id); [apply e_missing_key|done|done|done|]. by intros y [-> _]. }
  all: apply log_pass; [done|]; intros y [_ Hy]; congruence.
Qed.

Lemma corrupt_step D l h :
  log_of e_corrupt D l → h ∉ D →
  log_of e_corrupt ({[h]} ∪ D) (match status_of h with SCorrupt m => l ++ [(h, m)] | _ => l end).
Proof.
  intros Hl Hh. destruct (status_of h) eqn:E.
  4: { apply (log_add _ fst); [apply e_corrupt_key|done|done|done|].
       intros [y m] [Hy Hm]. cbn in *. congruence. }
  all: apply log_pass; [done|]; intros y [_ Hy]; congruence.
Qed.

Lemma bad_step D out h :
  log_of e_bad D (wk_bad_roots out) → h ∉ D →
  log_of e_bad ({[h]} ∪ D)
    (match status_of h with SGood o => wk_bad_roots (with_bad_root h o out) | _ => wk_bad_roots out end).
Proof.
  intros Hl Hh. destruct (status_of h) as [|o| | |] eqn:E.
  2: { unfold with_bad_root. destruct (bool_decide (h ∈ roots) && negb (root_type o)) eqn:Eb; reflect; cbn.
       - apply (log_add _ fst); [apply e_bad_key|done|done| |].
         + split; [done|]. split; [apply Eb|]. exists o. by split_and!; [|apply Eb|].
         + intros [x t] (Hx & _ & o' & Ho & _ & Ht). cbn in *. congruence.
       - apply log_pass; [done|]. intros [x t] (_ & Hr & o' & Ho & Ht & _). rewrite E in Ho. injection Ho as <-.
         destruct Eb; congruence. }
  all: apply log_pass; [done|]; intros y (_ & _ & o' & Hy & _); congruence.
Qed.

Lemma record_counts h out :
  wk_verified (record h out) = (wk_verified out + if is_good (status_of h) then 1 else 0)%N ∧
  wk_skipped_known (record h out) = (wk_skipped_known out + if is_known (status_of h) then 1 else 0)%N.
Proof.
  unfold record. destruct (status_of h) as [|o| |m|e]; unfold with_bad_root;
    try destruct (bool_decide (h ∈ roots) && negb (root_type o)); cbn [is_good is_known add_skipped add_verified add_missing add_corrupt add_bad_root
         wk_verified wk_skipped_known]; split; lia.
Qed.

Lemma count_step (D : gset hash32) (p : status → bool) h :
  h ∉ D →
  N.of_nat (size (filter (λ h, p (status_of h) = true) ({[h]} ∪ D))) =
    (N.of_nat (size (filter (λ h, p (status_of h) = true) D)) + if p (status_of h) then 1 else 0)%N.
Proof.
  intros Hh. rewrite size_filter_add by done.
  case_decide; destruct (p (status_of h)); (congruence || lia).
Qed.

Lemma record_ok D out h :
  out_ok D out → h ∉ D → (∀ e, status_of h ≠ SError e) → out_ok ({[h]} ∪ D) (record h out).
Proof.
  intros [H1 H2 H3 H4 H5] Hh He. destruct (record_counts h out) as [Hv Hs].
  split; [by rewrite Hv, H1, count_step|by rewrite Hs, H2, count_step| | |].
  - apply (missing_step _ _ h) in H3; [|done]. unfold record, with_bad_root. revert H3.
    destruct (status_of h) as [|o| | |]; try destruct (bool_decide (h ∈ roots) && negb (root_type o)); done.
  - apply (corrupt_step _ _ h) in H4; [|done]. unfold record, with_bad_root. revert H4.
    destruct (status_of h) as [|o| | |]; try destruct (bool_decide (h ∈ roots) && negb (root_type o)); done.
  - apply (bad_step _ _ h) in H5; [|done]. unfold record. revert H5. by destruct (status_of h).
Qed.

(** [check_root] adds a bad root, or fails under the hard rule. *)
Lemma check_root_eq h o out :
  check_root (bool_decide (h ∈ roots)) root_rule h o out =
    if bool_decide (root_rule = RrFail) && bool_decide (h ∈ roots) && negb (root_type o)
    then Err (VeClosureRootWrongType (object_type o)) else Ok (with_bad_root h o out).
Proof.
  unfold check_root, with_bad_root. destruct (bool_decide (h ∈ roots)); [|by rewrite andb_false_r].
  by destruct o, root_rule.
Qed.

(** ** The walk keeps its invariant *)

Lemma elem_of_done w x : x ∈ done_ids w ↔ x ∈ wk_visited (wg_out w) ∧ x ∉ wg_queue w.
Proof. unfold done_ids. by rewrite elem_of_difference, elem_of_list_to_set. Qed.

(** A round takes [h] from the queue: what is done grows by it. *)
Lemma done_next w h queue out queue' s k v :
  walk_inv w → wg_queue w = h :: queue →
  (∀ x, x ∈ wk_visited (wg_out w) → x ∈ wk_visited out) →
  (∀ x, x ∈ wk_visited out → x ∈ wk_visited (wg_out w) ∨ x ∈ queue') →
  (∀ x, x ∈ queue' ↔ x ∈ queue ∨ x ∈ wk_visited out ∧ x ∉ wk_visited (wg_out w)) →
  done_ids {| wg_out := out; wg_queue := queue'; wg_source := s; wg_known := k; wg_visit := v |}
    = {[h]} ∪ done_ids w ∧ h ∉ done_ids w.
Proof.
  intros Hi Hq Hin Hout Hq'. pose proof (wi_nodup _ Hi) as Hn. rewrite Hq in Hn.
  apply list.NoDup_cons in Hn as [Hh _].
  assert (h ∈ wk_visited (wg_out w)) as Hv by (apply (wi_queue _ Hi); rewrite Hq; left).
  split; [|rewrite elem_of_done, Hq; intros [_ []]; left].
  apply set_eq. intros x. rewrite elem_of_union, elem_of_singleton, !elem_of_done, Hq, not_elem_of_cons. cbn.
  rewrite Hq'. split.
  - intros [Hx Hnx]. destruct (decide (x = h)) as [|Hne]; [by left|right].
    assert (x ∈ wk_visited (wg_out w)) by (destruct (decide (x ∈ wk_visited (wg_out w))); naive_solver).
    naive_solver.
  - intros [->|(Hx & Hne & Hnq)]; (split; [by auto|]); naive_solver.
Qed.

Lemma walk_next w h queue out queue' s k v :
  walk_inv w → wg_queue w = h :: queue → (∀ e, status_of h ≠ SError e) →
  wk_visited out = wk_visited (wg_out w) ∪ list_to_set (cedges h) →
  set_visited (wk_visited (wg_out w)) out = record h (wg_out w) →
  NoDup queue' → (N.of_nat (size (wk_visited out)) <= MAX_ENTRIES)%N →
  (∀ x, x ∈ queue' ↔ x ∈ queue ∨ x ∈ cedges h ∧ x ∉ wk_visited (wg_out w)) →
  I s → VI ({[h]} ∪ done_ids w) v → (root_rule = RrFail → wk_bad_roots out = []) →
  let w' := {| wg_out := out; wg_queue := queue'; wg_source := s; wg_known := k; wg_visit := v |} in
  walk_inv w' ∧ (size (done_ids w') = 1 + size (done_ids w))%nat.
Proof.
  intros Hi Hq He Hvis Hrec Hnd Hcap Hq' Hs Hv Hr w'.
  assert (Hvx : ∀ x, x ∈ wk_visited out ↔ x ∈ wk_visited (wg_out w) ∨ x ∈ cedges h).
  { intros x. by rewrite Hvis, elem_of_union, elem_of_list_to_set. }
  destruct (done_next w h queue out queue' s k v Hi Hq) as [Hd Hh].
  { intros x Hx. apply Hvx. by left. }
  { intros x [Hx|Hx]%Hvx; [by left|]. destruct (decide (x ∈ wk_visited (wg_out w))); [by left|right].
    apply Hq'. by right. }
  { intros x. rewrite Hq', Hvx. naive_solver. }
  fold w' in Hd. split; [|by rewrite Hd, size_add].
  assert (Hqv : ∀ x, x ∈ h :: queue → x ∈ wk_visited (wg_out w)) by (intros x Hx; apply (wi_queue _ Hi); by rewrite Hq).
  split; try rewrite Hd; try done.
  - intros x [Hx|[Hx _]]%Hq'; apply Hvx; [left; apply Hqv; by right|by right].
  - pose proof (wi_wl _ Hi) as Hw. rewrite Hq in Hw. eapply wl_visit_once; [..|exact Hw].
    + intros y. by rewrite elem_of_union, elem_of_singleton.
    + intros y Hy. right. apply Hq'. by left.
    + intros y Hy. destruct (decide (y ∈ wk_visited (wg_out w))) as [Hyv|Hyv].
      * rewrite elem_of_union, elem_of_singleton, elem_of_done, Hq, not_elem_of_cons.
        destruct (decide (y = h)); [by left; left|].
        destruct (decide (y ∈ queue)); [right; apply Hq'; by left|].
        left. right. done.
      * right. apply Hq'. by right.
    + intros y [Hy|[Hy _]]%Hq'; [by left|by right].
  - pose proof (record_ok _ _ h (wi_out _ Hi) Hh He) as [H1 H2 H3 H4 H5]. rewrite <- Hrec in *. by split.
  - intros x e [->%elem_of_singleton|Hx]%elem_of_union; [apply He|by apply (wi_clean _ Hi)].
Qed.

(** Rounds that only report: known, missing and corrupt ids have no edges. *)
Lemma walk_report w h queue s k :
  walk_inv w → wg_queue w = h :: queue → (∀ e, status_of h ≠ SError e) → is_good (status_of h) = false → I s →
  let w' := {| wg_out := record h (wg_out w); wg_queue := queue; wg_source := s; wg_known := k;
               wg_visit := wg_visit w |} in
  walk_inv w' ∧ (size (done_ids w') = 1 + size (done_ids w))%nat.
Proof.
  intros Hi Hq He Hg Hs.
  assert (cedges h = []) as Hc by (unfold cedges; by destruct (status_of h)).
  assert (wk_visited (record h (wg_out w)) = wk_visited (wg_out w)) as Hv.
  { unfold record. by destruct (status_of h). }
  assert (h ∉ done_ids w) as Hh by (rewrite elem_of_done, Hq; intros [_ []]; left).
  eapply walk_next; try done.
  - rewrite Hv, Hc. cbn. by rewrite union_empty_r_L.
  - rewrite <- Hv. apply set_visited_same.
  - pose proof (wi_nodup _ Hi) as Hn. rewrite Hq in Hn. by apply list.NoDup_cons in Hn as [_ ?].
  - rewrite Hv. apply Hi.
  - intros x. rewrite Hc. set_solver.
  - apply Hpass; [done|done|apply Hi].
  - intros Hr. unfold record. destruct (status_of h); try done; by apply (wi_rule _ Hi).
Qed.

Lemma reached_queue w h queue : walk_inv w → wg_queue w = h :: queue → reached h.
Proof.
  intros Hi Hq. destruct (wl_reach _ _ _ _ _ (wi_wl _ Hi) h) as [[]|?]; [|done].
  right. rewrite Hq. left.
Qed.

Lemma reached_child h x : reached h → x ∈ cedges h → reached x.
Proof. intros (r & Hr & Hp) Hx. exists r. split; [done|]. by eapply rtc_r. Qed.

Lemma reached_visited w x : walk_inv w → x ∈ wk_visited (wg_out w) → reached x.
Proof.
  intros Hi Hx. destruct (wl_reach _ _ _ _ _ (wi_wl _ Hi) x) as [[]|?]; [|done].
  destruct (decide (x ∈ wg_queue w)); [by right|left]. by apply elem_of_done.
Qed.

(** A round that visits a correctly identified object. *)
Lemma visit_step w h o queue s k :
  walk_inv w → wg_queue w = h :: queue → status_of h = SGood o → I s →
  match visit_object mode root_rule visit roots h o (wg_out w) queue s k (wg_visit w) with
  | inl w' => walk_inv w' ∧ (size (done_ids w') = 1 + size (done_ids w))%nat
  | inr r => walk_post r
  end.
Proof.
  intros Hi Hq Ho Hs. unfold visit_object. rewrite check_root_eq.
  pose proof (reached_queue _ _ _ Hi Hq) as Hreach.
  assert (Hh : h ∉ done_ids w) by (rewrite elem_of_done, Hq; intros [_ []]; left).
  destruct (bool_decide (root_rule = RrFail) && bool_decide (h ∈ roots) && negb (root_type o)) eqn:Er.
  { reflect. destruct Er as [[Hf Hroot] Ht]. right. right. left. by exists h, o. }
  pose proof (Hvisit _ h o _ Hh Ho (wi_visit _ Hi)) as Hv.
  destruct (visit h o (wg_visit w)) as [[[]|e] v]; [|right; right; right; eauto].
  set (out := add_verified (with_bad_root h o (wg_out w))).
  assert (wk_visited out = wk_visited (wg_out w)) as Hvo.
  { unfold out, with_bad_root. by destruct (bool_decide (h ∈ roots) && negb (root_type o)). }
  assert (Hcap : (N.of_nat (size (wk_visited out)) <= MAX_ENTRIES)%N) by (rewrite Hvo; apply Hi).
  pose proof (wi_nodup _ Hi) as Hn. rewrite Hq in Hn. apply list.NoDup_cons in Hn as [_ Hn].
  assert (cedges h = children o mode) as Hc by (unfold cedges; by rewrite Ho).
  pose proof (reach_all_spec (children o mode) out queue Hcap Hn) as Hall.
  specialize (Hall ltac:(intros x Hx; rewrite Hvo; apply (wi_queue _ Hi); rewrite Hq; by right)).
  destruct (reach_all _ _) as [[out' queue']|e].
  - destruct Hall as (-> & Hn' & Hcap' & Hq'). rewrite Hvo, <- Hc in Hcap', Hq' |- *.
    apply (walk_next w h queue); try done.
    + intros e. congruence.
    + unfold record. rewrite Ho. change (add_verified _) with out.
      transitivity (set_visited (wk_visited out) out); [by rewrite Hvo|apply set_visited_same].
    + intros Hr. unfold out, with_bad_root. cbn. rewrite bool_decide_true in Er by done. cbn in Er.
      rewrite Er. cbn. by apply (wi_rule _ Hi).
  - destruct Hall as [-> Hbig]. left. split; [done|]. rewrite Hvo in Hbig. eexists. split; [|exact Hbig].
    intros x [Hx|Hx]%elem_of_union; [by apply (reached_visited w)|].
    apply elem_of_list_to_set in Hx. rewrite <- Hc in Hx. by eapply reached_child.
Qed.

Lemma walk_step_inv w :
  walk_inv w →
  match walk_step mode known root_rule visit roots w with
  | inl w' => walk_inv w' ∧ (size (done_ids w') = 1 + size (done_ids w))%nat
  | inr r => walk_post r
  end.
Proof.
  intros Hi. unfold walk_step. destruct (wg_queue w) as [|h queue] eqn:Hq.
  - assert (done_ids w = wk_visited (wg_out w)) as Hd.
    { apply set_eq. intros x. rewrite elem_of_done, Hq. set_solver. }
    pose proof (wi_wl _ Hi) as Hw. rewrite Hq in Hw. pose proof (wl_done _ _ _ _ Hw) as Hreach.
    rewrite Hd in Hreach.
    assert (Hr : ∀ x, x ∈ wk_visited (wg_out w) ↔ reached x) by (intros x; rewrite Hreach; unfold reached; naive_solver).
    pose proof (wi_out _ Hi) as [H1 H2 H3 H4 H5]. pose proof (wi_visit _ Hi) as Hv. rewrite Hd in *.
    split; [apply Hi|]. split; [exact Hr|]. split; [|split; [exact Hv|split; [apply Hi|split; [|split]]]].
    + destruct H3 as [Hn3 H3], H4 as [Hn4 H4], H5 as [Hn5 H5].
      split; try done; cbn; (split; [|intros x]).
      * by rewrite missing_sorted, stable_sort_perm.
      * by rewrite missing_sorted, stable_sort_perm by done.
      * unfold sort_by_id. by rewrite stable_sort_perm.
      * by rewrite elem_of_sort_by_id.
      * unfold sort_by_id. by rewrite stable_sort_perm.
      * by rewrite elem_of_sort_by_id.
    + intros x Hx e. apply (wi_clean _ Hi). rewrite Hd. by apply Hr.
    + intros Hrule. cbn. rewrite (wi_rule _ Hi Hrule). done.
    + cbn. rewrite missing_sorted by apply H3. apply stable_sort_sorted, hash_leb_tot.
  - pose proof (Hkn h (wg_known w)) as Hk. destruct (known h (wg_known w)) as [is_k k]. cbn in Hk. subst is_k.
    destruct (kn h) eqn:Ek.
    { assert (status_of h = SKnown) as Hst by (unfold status_of; by rewrite Ek).
      pose proof (walk_report w h queue (wg_source w) k Hi Hq) as H. unfold record in H. rewrite Hst in H.
      apply H; try done. apply Hi. }
    destruct (cv_fetch h (wg_source w) (wi_source _ Hi)) as [Hs Hf].
    destruct (cs_fetch h (wg_source w)) as [r s]. cbn in Hs, Hf. subst r.
    assert (Hst : status_of h = match view h with Err e => SError e | Ok None => SMissing
      | Ok (Some bs) => bytes_status h bs end) by (unfold status_of; by rewrite Ek).
    pose proof (walk_report w h queue s k Hi Hq) as H. unfold record in H.
    destruct (view h) as [[bs|]|e]; [|by rewrite Hst in H; apply H|].
    + unfold bytes_status in Hst. destruct (deserialize bs) as [o|e]; [|by rewrite Hst in H; apply H].
      destruct (hash_eqb (id_from_object o bs) h); [by apply visit_step|by rewrite Hst in H; apply H].
    + right. left. exists h. split; [by eapply reached_queue|done].
Qed.

(** The walk over any source with a view: [MAX_ENTRIES + 1] rounds are enough, and the result is
    as [walk_post] says. *)
Lemma walk_spec fuel (s : S) (k : K) (v : V) :
  (MAX_ENTRIES < N.of_nat fuel)%N → I s → VI ∅ v →
  ∃ r, walk mode known root_rule visit roots fuel s k v = Some r ∧ walk_post r.
Proof.
  intros Hf Hs Hv. unfold walk.
  pose proof (reach_all_spec roots Walk_default []) as Hall.
  specialize (Hall ltac:(cbn; rewrite size_empty; lia) ltac:(apply NoDup_nil_2) ltac:(set_solver)).
  cbn [wk_visited Walk_default] in Hall. rewrite union_empty_l_L in Hall.
  destruct (reach_all roots (Walk_default, [])) as [[out queue]|e].
  2: { destruct Hall as [-> Hbig]. eexists. split; [done|]. left. split; [done|]. eexists. split; [|exact Hbig].
       intros x Hx%elem_of_list_to_set. by exists x. }
  destruct Hall as (-> & Hn & Hcap & Hq).
  apply (loop_rule (walk_step mode known root_rule visit roots)
    (λ w, N.to_nat MAX_ENTRIES - size (done_ids w))%nat walk_inv walk_post).
  - intros w Hw. pose proof (walk_step_inv w Hw) as H.
    destruct (walk_step mode known root_rule visit roots w) as [w'|r]; [|done].
    destruct H as [Hw' Hsz]. split; [done|].
    assert (size (done_ids w') ≤ size (wk_visited (wg_out w')))%nat.
    { apply subseteq_size. unfold done_ids. set_solver. }
    pose proof (wi_cap _ Hw'). lia.
  - assert (done_ids {| wg_out := set_visited (list_to_set roots) Walk_default; wg_queue := queue;
      wg_source := s; wg_known := k; wg_visit := v |} = ∅) as Hd.
    { apply set_eq. intros x. rewrite elem_of_done. cbn. rewrite elem_of_list_to_set, Hq. set_solver. }
    split; try rewrite Hd; try done.
    + intros x Hx%Hq. cbn. rewrite elem_of_list_to_set. set_solver.
    + apply wl_init; [set_solver| |done]. intros x. cbn. rewrite Hq. set_solver.
    + split; [..|apply log_empty|apply log_empty|apply log_empty]; cbn [wk_verified wk_skipped_known set_visited Walk_default wg_out].
      all: by rewrite size_filter_none.
  - lia.
Qed.
End walk_spec.
