(* ===== verification/ClosureSpec.v ===== *)
(** * Closures: what a report proves

    The report of each closure verifier and of the verification of a push, in terms of what
    the source holds; the root as the only trust anchor; and that an exported closure
    verifies. *)

From S2P Require Import IndexTree IndexTreeFacts.
From S2P Require Import Prelude Hash Object Serialize SerializeFacts MerkleFacts Messages Store StoreFacts.
From S2P Require Import ZstdFrame Pack PackFacts ObjectId Graph GraphFacts Sign Wire Disclosure DisclosureFacts.
From S2P Require Import Closure ClosureFacts.

(** ** Closures of a view *)

Section closure_of.
Context `{B : Blake3, BI : !Blake3Incremental}.

(** A view of a source, by id. *)
Abbreviation view_t := (hash32 → result VerifyError (option bytes)).

(** The status of an id for a verifier that knows nothing. *)
Definition stat (view : view_t) : hash32 → status := status_of view (λ _, false).

(** What the root reaches through correctly identified objects. *)
Definition in_closure (view : view_t) (mode : ClosureMode) (root : hash32) : hash32 → Prop :=
  reached view mode (λ _, false) [root].

(** Every object of the closure is there, under its own id, below a root of the right type. *)
Definition closed (view : view_t) (mode : ClosureMode) (root : hash32) : Prop :=
  (∀ h, in_closure view mode root h → ∃ o, stat view h = SGood o) ∧
  (∀ o, stat view root = SGood o → root_type o = true).

Lemma bytes_status_good h bs o :
  bytes_status h bs = SGood o ↔ deserialize bs = Ok o ∧ id_from_object o bs = h.
Proof.
  unfold bytes_status, hash_eqb. destruct (deserialize bs) as [o'|e]; [|naive_solver].
  case_bool_decide; split; try naive_solver.
Qed.

Lemma status_good view kn h o :
  status_of view kn h = SGood o ↔
  kn h = false ∧ ∃ bs, view h = Ok (Some bs) ∧ deserialize bs = Ok o ∧ id_from_object o bs = h.
Proof.
  unfold status_of. destruct (kn h); [naive_solver|]. destruct (view h) as [[bs|]|e]; try naive_solver.
  rewrite bytes_status_good. naive_solver.
Qed.

(** A good status is the object's own id. *)
Lemma good_id view kn h o :
  status_of view kn h = SGood o → wf o = true ∧ Object_id o = Ok h.
Proof.
  intros (_ & bs & _ & Hd & <-)%status_good. destruct (deserialize_serialize _ _ Hd) as [Hw Hs].
  split; [done|]. by apply Object_id_object.
Qed.

Lemma root_in_closure view mode root : in_closure view mode root root.
Proof. exists root. split; [by apply list_elem_of_singleton|done]. Qed.

(** The bytes that some id of both views commits to collide. *)
Definition closures_conflict (v1 v2 : view_t) : Prop :=
  ∃ h o1 o2, stat v1 h = SGood o1 ∧ stat v2 h = SGood o2 ∧ collides (id_inputs o1) (id_inputs o2).

Lemma same_object v1 v2 h o1 o2 :
  stat v1 h = SGood o1 → stat v2 h = SGood o2 → o1 = o2 ∨ closures_conflict v1 v2.
Proof.
  intros H1 H2. destruct (good_id _ _ _ _ H1) as [W1 I1], (good_id _ _ _ _ H2) as [W2 I2].
  destruct (id_inj o1 o2 h W1 W2 I1 I2) as [->|Hc]; [by left|right]. by exists h, o1, o2.
Qed.

(** Two closed views of one root hold the same objects, or two of theirs collide. *)
Lemma closed_same v1 v2 mode root h :
  closed v1 mode root → closed v2 mode root → in_closure v1 mode root h →
  (in_closure v2 mode root h ∧ stat v2 h = stat v1 h) ∨ closures_conflict v1 v2.
Proof.
  intros [C1 _] [C2 _] (r & ->%list_elem_of_singleton & Hp).
  assert (Hstep : ∀ h, in_closure v1 mode root h → in_closure v2 mode root h →
    stat v2 h = stat v1 h ∨ closures_conflict v1 v2).
  { intros x [o1 H1]%C1 [o2 H2]%C2. destruct (same_object v1 v2 x o1 o2 H1 H2) as [->|]; [left; congruence|by right]. }
  assert (Hin : in_closure v1 mode root h ∧ (in_closure v2 mode root h ∨ closures_conflict v1 v2)).
  { revert h Hp. apply (rtc_ind_r (λ h, in_closure v1 mode root h ∧
      (in_closure v2 mode root h ∨ closures_conflict v1 v2))).
    - split; [|left]; apply root_in_closure.
    - intros x y _ Hxy [I1 [I2|]]; [|by split; [eapply reached_child|right]].
      split; [by eapply reached_child|]. destruct (Hstep x I1 I2) as [Hx|]; [left|by right].
      eapply reached_child; [exact I2|]. unfold edge, cedges, stat in *. by rewrite Hx. }
  destruct Hin as [I1 [I2|]]; [|by right]. destruct (Hstep h I1 I2); [by left|by right].
Qed.
End closure_of.

(** ** The report of a walk *)

Section reports.
Context `{B : Blake3, BI : !Blake3Incremental}.

(** A report tells exactly what of the closure is not there. *)
Record report_of (view : hash32 → result VerifyError (option bytes)) (mode : ClosureMode) (root : hash32)
    (visited : gset hash32) (rep : ClosureReport) : Prop := {
  ro_root : cr_root rep = root;
  ro_mode : cr_mode rep = mode;
  ro_visited h : h ∈ visited ↔ in_closure view mode root h;
  ro_verified : cr_verified rep = N.of_nat (size (filter (λ h, is_good (stat view h) = true) visited));
  ro_sorted : NoDup (cr_missing rep) ∧ Sorted (λ a b, hash_leb a b = true) (cr_missing rep);
  ro_missing h : h ∈ cr_missing rep ↔ in_closure view mode root h ∧ stat view h = SMissing;
  ro_corrupt h m : (h, m) ∈ cr_corrupt rep ↔ in_closure view mode root h ∧ stat view h = SCorrupt m;
  ro_clean h e : in_closure view mode root h → stat view h ≠ SError e;
  ro_type o : stat view root = SGood o → root_type o = true
}.

(** Why a walk gives no report: more than [MAX_ENTRIES] ids, an error of the source at one of
    them, or a root of the wrong type. *)
Definition closure_error (view : hash32 → result VerifyError (option bytes)) (mode : ClosureMode)
    (root : hash32) (e : VerifyError) : Prop :=
  (e = VeTooManyClosureObjects ∧
    ∃ X : gset hash32, (∀ h, h ∈ X → in_closure view mode root h) ∧ (MAX_ENTRIES < N.of_nat (size X))%N) ∨
  (∃ h, in_closure view mode root h ∧ stat view h = SError e) ∨
  (∃ o, stat view root = SGood o ∧ root_type o = false ∧ e = VeClosureRootWrongType (object_type o)).

Lemma walk_closure_spec {S} `{!ClosureSource S} (I : S → Prop) view `{!ClosureView S I view} fuel root mode s :
  (MAX_ENTRIES < N.of_nat fuel)%N → I s →
  ∃ r s', walk_closure fuel root mode s = Some (r, s') ∧
    match r with
    | Ok (rep, visited) =>
        I s' ∧ report_of view mode root visited rep ∧ NoDup (cr_corrupt rep) ∧
        cr_unreferenced rep = [] ∧ cr_unreferenced_checked rep = false
    | Err e => closure_error view mode root e
    end.
Proof.
  intros Hf Hs. unfold walk_closure.
  destruct (walk_spec I view mode (λ _ (u : unit), (false, u)) (λ _, false) (λ _ _, eq_refl) RrFail
    (λ _ _ (u : unit), (Ok tt, u)) [root] (λ _ _, True) (λ _ _, False)) with (fuel := fuel) (s := s) (k := tt) (v := tt)
    as ([[[r s'] k] v] & Hw & Hp); try done.
  rewrite Hw. cbn [mbind option_bind]. eexists _, s'. split; [reflexivity|].
  destruct r as [out|e]; cbn [mbind result_bind].
  - destruct Hp as (HI & Hv & [H1 H2 [H3 H3'] [H4 H4'] [_ H5]] & _ & _ & Hc & Hb & Hsort).
    split; [done|]. split; [|done]. split; cbn; try done.
    + intros h. rewrite H3'. unfold e_missing. setoid_rewrite Hv. unfold in_closure, stat. naive_solver.
    + intros h m. rewrite H4'. unfold e_corrupt. cbn. setoid_rewrite Hv. unfold in_closure, stat. naive_solver.
    + intros h e Hh. by apply Hc.
    + intros o Ho. destruct (root_type o) eqn:Et; [done|]. exfalso. specialize (Hb eq_refl).
      assert ((root, object_type o) ∈ wk_bad_roots out) as Hin; [|by rewrite Hb in Hin; apply not_elem_of_nil in Hin].
      apply H5. exists root. split; [apply Hv, root_in_closure|]. split; [done|].
      split; [by apply list_elem_of_singleton|]. exists o. done.
  - destruct Hp as [H|[H|[(h & o & _ & ->%list_elem_of_singleton & Ho & Ht & ->)|(h & _ & [])]]]; [by left|by right; left|].
    right. right. eauto.
Qed.

(** A complete report is one of a closed view. *)
Lemma report_complete view mode root visited rep :
  report_of view mode root visited rep → (is_complete rep = true ↔ closed view mode root).
Proof.
  intros [_ _ _ _ _ Hm Hc He Ht]. unfold is_complete, closed. reflect. split.
  - intros [Em Ec]. split; [|exact Ht]. intros h Hh. destruct (stat view h) as [|o| |m|e] eqn:E.
    + unfold stat, status_of in E. destruct (view h) as [[bs|]|]; try done.
      unfold bytes_status in E. destruct (deserialize bs); [|done]. by destruct (hash_eqb _ _).
    + eauto.
    + assert (h ∈ cr_missing rep) as Hin by by apply Hm. rewrite Em in Hin. by apply not_elem_of_nil in Hin.
    + assert ((h, m) ∈ cr_corrupt rep) as Hin by by apply Hc. rewrite Ec in Hin. by apply not_elem_of_nil in Hin.
    + by destruct (He h e Hh).
  - intros [Hg _]. split; apply elem_of_nil_inv.
    + intros h [Hh Hs]%Hm. destruct (Hg h Hh). congruence.
    + intros [h m] [Hh Hs]%Hc. destruct (Hg h Hh). congruence.
Qed.

Lemma streaming_report_ok {S} `{!ClosureSource S} (I : S → Prop) view `{!ClosureView S I view} fuel root mode s :
  (MAX_ENTRIES < N.of_nat fuel)%N → I s →
  ∃ r s', verify_closure_streaming fuel root mode s = Some (r, s') ∧
    match r with
    | Ok rep =>
        (∃ visited, report_of view mode root visited rep) ∧
        (is_complete rep = true ↔ closed view mode root)
    | Err e => closure_error view mode root e
    end.
Proof.
  intros Hf Hs.
  destruct (walk_closure_spec I view fuel root mode s Hf Hs) as (r & s' & Hw & Hr).
  unfold verify_closure_streaming. rewrite Hw. cbn [mbind option_bind]. eexists _, s'. split; [reflexivity|].
  destruct r as [[rep visited]|e]; cbn [mbind result_bind]; [|done].
  destruct Hr as (_ & Hr & _). split; [by exists visited|by apply (report_complete _ _ _ visited)].
Qed.

(** C36: [verify_closure_streaming] from any source whose answers do not change, for every root and
    mode. [MAX_ENTRIES + 1] rounds are enough. A report lists, in ascending order and once each,
    exactly the reached ids that the source lacks, and those whose bytes do not decode or have
    another id; every other reached id was verified, and the root is a commit, remix or tag. So it
    is complete if and only if the closure is closed. Without a report the cap, an error of the
    source or the root's type is the reason. *)
Theorem verify_closure_streaming_spec {S} `{!ClosureSource S} (I : S → Prop) view `{!ClosureView S I view}
    (fuel : nat) (root : hash32) (mode : ClosureMode) (s : S)
    (Hf : (MAX_ENTRIES < N.of_nat fuel)%N) (Hs : I s) :
  ∃ r s', verify_closure_streaming fuel root mode s = Some (r, s') ∧
    match r with
    | Ok rep =>
        (∃ visited, report_of view mode root visited rep) ∧
        (is_complete rep = true ↔ closed view mode root)
    | Err e => closure_error view mode root e
    end.
Proof. exact (streaming_report_ok I view fuel root mode s Hf Hs). Qed.

(** C37: the root id is the only trust anchor. When two sources both have a complete report for one
    root and mode, every object of the closure is the same in both, wherever the bytes came
    from; otherwise the inputs hashed for two of their objects contain a collision. *)
Theorem complete_closures_agree {S1 S2} `{!ClosureSource S1, !ClosureSource S2} (I1 : S1 → Prop) (I2 : S2 → Prop)
    view1 view2 `{!ClosureView S1 I1 view1, !ClosureView S2 I2 view2}
    (fuel : nat) (root : hash32) (mode : ClosureMode) (s1 s1' : S1) (s2 s2' : S2) (rep1 rep2 : ClosureReport)
    (Hf : (MAX_ENTRIES < N.of_nat fuel)%N) (H1 : I1 s1) (H2 : I2 s2)
    (R1 : verify_closure_streaming fuel root mode s1 = Some (Ok rep1, s1')) (C1 : is_complete rep1 = true)
    (R2 : verify_closure_streaming fuel root mode s2 = Some (Ok rep2, s2')) (C2 : is_complete rep2 = true)
    (h : hash32) (Hh : in_closure view1 mode root h) :
  (in_closure view2 mode root h ∧ ∃ o, stat view1 h = SGood o ∧ stat view2 h = SGood o) ∨
  closures_conflict view1 view2.
Proof.
  destruct (streaming_report_ok I1 view1 fuel root mode s1 Hf H1) as (r1 & t1 & E1 & P1).
  destruct (streaming_report_ok I2 view2 fuel root mode s2 Hf H2) as (r2 & t2 & E2 & P2).
  rewrite R1 in E1. rewrite R2 in E2. injection E1 as <- <-. injection E2 as <- <-.
  apply P1 in C1. apply P2 in C2.
  destruct (closed_same view1 view2 mode root h C1 C2 Hh) as [[Hin Hst]|]; [left|by right].
  split; [done|]. destruct (proj1 C1 h Hh) as [o Ho]. exists o. by rewrite Hst.
Qed.
End reports.

(** ** The index of what is supplied *)

Section index.
Context `{B : Blake3, BI : !Blake3Incremental} {A : Type} (get : A → bytes).

Definition classified (a : A) : result (hash32 * bytes) (hash32 * A) :=
  id ← classify_object (get a); Ok (id, a).

Lemma sequential_collect items acc :
  foldl (λ '(by_id, corrupt) a,
    match classify_object (get a) with
    | Ok id => (<[ id := a ]> by_id, corrupt)
    | Err e => (by_id, corrupt ++ [e])
    end) acc items = collect_results (map classified items) acc.
Proof.
  revert acc. induction items as [|a items IH]; intros [m c]; [done|]. cbn [foldl map]. rewrite IH.
  unfold collect_results at 2. cbn [foldl]. unfold classified at 2.
  destruct (classify_object (get a)); reflexivity.
Qed.

Lemma collect_chunks chunks acc :
  foldl (λ acc chunk, collect_results (map classified chunk) acc) acc chunks =
    collect_results (map classified (concat chunks)) acc.
Proof.
  revert acc. induction chunks as [|c chunks IH]; intros acc; [done|]. cbn [foldl concat].
  rewrite IH, map_app. unfold collect_results. by rewrite foldl_app.
Qed.

(** The workers' results, joined in order, are those of the sequential loop. *)
Lemma index_parallel_eq items threads : index_parallel get items threads = index_sequential get items.
Proof.
  unfold index_parallel, index_sequential. rewrite sequential_collect. fold classified.
  change (λ a, id ← classify_object (get a); Ok (id, a)) with classified. rewrite collect_chunks.
  by destruct (chunks_of_spec (λ _ : A, @Ok unit unit tt) (length items) (Nat.max ((length items + threads - 1) / threads) 1) items) as [-> _]; [lia|lia|].
Qed.

Lemma index_with_eq items threads : index_with get threads items = index_sequential get items.
Proof. unfold index_with. case_match; [apply index_parallel_eq|done]. Qed.

(** What an index holds of the items. *)
Record indexed (items : list A) (m : gmap hash32 A) (corrupt : list (hash32 * bytes)) : Prop := {
  ix_item h a : m !! h = Some a → a ∈ items ∧ classify_object (get a) = Ok h;
  ix_id a h : a ∈ items → classify_object (get a) = Ok h → is_Some (m !! h);
  ix_corrupt e : e ∈ corrupt ↔ ∃ a, a ∈ items ∧ classify_object (get a) = Err e
}.

Lemma index_ok items : indexed items (index_sequential get items).1 (index_sequential get items).2.
Proof.
  unfold index_sequential.
  assert (Hgen : ∀ done todo m c, indexed done m c →
    let r := foldl (λ '(by_id, corrupt) a,
      match classify_object (get a) with
      | Ok id => (<[ id := a ]> by_id, corrupt)
      | Err e => (by_id, corrupt ++ [e])
      end) (m, c) todo in indexed (done ++ todo) r.1 r.2).
  { intros past todo. revert past. induction todo as [|a todo IH]; intros past m c [H1 H2 H3]; cbn zeta; cbn [foldl].
    { rewrite app_nil_r. by split. }
    rewrite (cons_middle a past todo), app_assoc.
    destruct (classify_object (get a)) as [h|e] eqn:E; apply IH; split.
    - intros h' a' [[-> ->]|[Hne Ha]]%lookup_insert_Some; [split; [set_solver|done]|].
      apply H1 in Ha as [? ?]. split; [set_solver|done].
    - intros a' h' [Ha| ->%list_elem_of_singleton]%elem_of_app Hc.
      + destruct (decide (h = h')) as [->|]; [by rewrite lookup_insert_eq|]. rewrite lookup_insert_ne by done. eauto.
      + rewrite E in Hc. injection Hc as <-. by rewrite lookup_insert_eq.
    - intros e. rewrite H3. setoid_rewrite elem_of_app. setoid_rewrite list_elem_of_singleton.
      split; [naive_solver|]. intros (a' & [Ha| ->] & Hc); [eauto|congruence].
    - intros h' a' Ha%H1. set_solver.
    - intros a' h' [Ha| ->%list_elem_of_singleton]%elem_of_app Hc; [eauto|congruence].
    - intros e'. rewrite elem_of_app, list_elem_of_singleton, H3. setoid_rewrite elem_of_app.
      setoid_rewrite list_elem_of_singleton. split; [naive_solver|].
      intros (a' & [Ha| ->] & Hc); [eauto|right; congruence]. }
  apply (Hgen [] items ∅ []). split.
  - intros h a Ha. by rewrite lookup_empty in Ha.
  - intros a h Ha. by apply not_elem_of_nil in Ha.
  - intros e. split; [by intros ?%not_elem_of_nil|]. by intros (a & ?%not_elem_of_nil & _).
Qed.

Lemma classify_Ok bs h : classify_object bs = Ok h ↔ ∃ o, bytes_status h bs = SGood o.
Proof.
  unfold classify_object. setoid_rewrite bytes_status_good. destruct (deserialize bs); naive_solver.
Qed.
End index.

(** ** The report of a supplied set *)

Lemma dedup_from_keys {A} (x : hash32 * A) l h :
  h ∈ (dedup_from (λ a b, hash_eqb a.1 b.1) x l).*1 ↔ h = x.1 ∨ h ∈ l.*1.
Proof.
  revert x. induction l as [|y l IH]; intros x; cbn [dedup_from fmap list_fmap].
  - rewrite list_elem_of_singleton. set_solver.
  - unfold hash_eqb at 1. case_bool_decide as E; cbn [fmap list_fmap]; rewrite ?elem_of_cons, IH; [|done].
    rewrite E. naive_solver.
Qed.

Lemma dedup_keys {A} (l : list (hash32 * A)) h :
  h ∈ (dedup_by (λ a b, hash_eqb a.1 b.1) l).*1 ↔ h ∈ l.*1.
Proof. destruct l as [|x l]; [done|]. cbn [dedup_by]. rewrite dedup_from_keys. cbn. by rewrite elem_of_cons. Qed.

Lemma sort_keys {A} (l : list (hash32 * A)) h : h ∈ (sort_by_id l).*1 ↔ h ∈ l.*1.
Proof. unfold sort_by_id. by rewrite stable_sort_perm. Qed.

Section supplied.
Context `{B : Blake3, BI : !Blake3Incremental} {A : Type} (get : A → bytes).

(** The source that an index is. *)
Definition index_view (m : gmap hash32 A) (h : hash32) : result VerifyError (option bytes) :=
  Ok (get <$> m !! h).

(** Some item has this id. *)
Definition supplies (items : list A) (h : hash32) : Prop :=
  ∃ a, a ∈ items ∧ classify_object (get a) = Ok h.

Record supplied_report (items : list A) (m : gmap hash32 A) (mode : ClosureMode) (root : hash32)
    (rep : ClosureReport) : Prop := {
  sr_root : cr_root rep = root;
  sr_mode : cr_mode rep = mode;
  sr_verified : ∃ visited : gset hash32, (∀ h, h ∈ visited ↔ in_closure (index_view m) mode root h) ∧
    cr_verified rep = N.of_nat (size (filter (λ h, is_good (stat (index_view m) h) = true) visited));
  sr_missing h : h ∈ cr_missing rep ↔ in_closure (index_view m) mode root h ∧ ¬ supplies items h;
  sr_corrupt h : h ∈ (cr_corrupt rep).*1 ↔
    ∃ a e, a ∈ items ∧ deserialize (get a) = Err e ∧ h = hash (get a);
  sr_unreferenced h : h ∈ cr_unreferenced rep ↔
    supplies items h ∧ ¬ in_closure (index_view m) mode root h;
  sr_checked : cr_unreferenced_checked rep = true;
  sr_complete : is_complete rep = true ↔
    closed (index_view m) mode root ∧ (∀ a, a ∈ items → is_ok (deserialize (get a)) = true)
}.

Lemma indexed_status items m corrupt h :
  indexed get items m corrupt →
  (supplies items h ∧ ∃ o, stat (index_view m) h = SGood o) ∨
  (¬ supplies items h ∧ stat (index_view m) h = SMissing).
Proof.
  intros [H1 H2 _]. unfold stat, status_of, index_view. destruct (m !! h) as [a|] eqn:E.
  - left. apply H1 in E as [Ha Hc]. split; [by exists a|]. by apply classify_Ok.
  - right. split; [|done]. intros (a & Ha & Hc). destruct (H2 a h Ha Hc). congruence.
Qed.

Lemma classify_Err bs e : classify_object bs = Err e ↔
  ∃ err, deserialize bs = Err err ∧ e = (hash bs, MkitError_to_string err).
Proof. unfold classify_object. destruct (deserialize bs); naive_solver. Qed.

(** The assignments that end both verifiers. *)
Lemma supplied_finish items m corrupt mode root rep visited :
  indexed get items m corrupt → report_of (index_view m) mode root visited rep →
  supplied_report items m mode root (set_unreferenced m visited (merge_corrupt rep (sort_by_id corrupt))).
Proof.
  intros Hix Hrep. pose proof (report_complete _ _ _ _ _ Hrep) as Hcomp. pose proof Hix as [H1 H2 H3].
  destruct Hrep as [R1 R2 R3 R4 _ R5 R6 R7 R8].
  assert (Hcor : cr_corrupt rep = []).
  { apply elem_of_nil_inv. intros [h msg] [_ Hs]%R6. destruct (indexed_status _ _ _ h Hix) as [[_ [o Ho]]|[_ Ho]]; congruence. }
  assert (Hkeys : ∀ h, h ∈ (dedup_by (λ a b, hash_eqb a.1 b.1) (sort_by_id (cr_corrupt rep ++ sort_by_id corrupt))).*1
    ↔ ∃ a e, a ∈ items ∧ deserialize (get a) = Err e ∧ h = hash (get a)).
  { intros h. rewrite dedup_keys, sort_keys, Hcor. cbn [app]. rewrite sort_keys, list_elem_of_fmap. split.
    - intros ([h' msg] & -> & (a & Ha & (e & He & [= -> ->])%classify_Err)%H3). cbn. eauto.
    - intros (a & e & Ha & He & ->). exists (hash (get a), MkitError_to_string e). split; [done|].
      apply H3. exists a. split; [done|]. apply classify_Err. eauto. }
  split; cbn; try done.
  - by exists visited.
  - intros h. rewrite R5. destruct (indexed_status _ _ _ h Hix) as [[? [o Ho]]|[? Ho]]; rewrite Ho; naive_solver.
  - intros h. rewrite list_elem_of_filter, (bt_collect_elem hash_ltb), list_elem_of_fmap, R3.
    setoid_rewrite elem_of_map_to_list'. split.
    + intros (Hn & [h' a] & -> & Hm). cbn in *. apply H1 in Hm as [Ha Hc]. split; [by exists a|done].
    + intros ((a & Ha & Hc) & Hn). split; [done|]. destruct (H2 a h Ha Hc) as [a' Ha']. by exists (h, a').
  - unfold is_complete. cbn. rewrite andb_true_iff, !bool_decide_eq_true.
    unfold is_complete in Hcomp. rewrite andb_true_iff, !bool_decide_eq_true in Hcomp.
    rewrite <- Hcomp. split.
    + intros [Hm Hc]. split; [done|]. intros a Ha. destruct (deserialize (get a)) as [o|e] eqn:E; [done|].
      exfalso. assert (hash (get a) ∈ (@nil hash32)) as Hin; [|by apply not_elem_of_nil in Hin].
      rewrite Hc in Hkeys. apply (Hkeys (hash (get a))). eauto.
    + intros [[Hm _] Hok]. split; [done|]. apply (fmap_nil_inv fst), elem_of_nil_inv.
      intros h (a & e & Ha & He & _)%Hkeys. specialize (Hok a Ha). by rewrite He in Hok.
Qed.
End supplied.

Section verifiers.
Context `{B : Blake3, BI : !Blake3Incremental}.

#[export] Instance map_closure_view (m : gmap hash32 bytes) :
  ClosureView MapObjectSource (λ s, mo_objects s = m) (index_view id m).
Proof. intros id' s <-. split; [done|]. cbn. unfold index_view. by destruct (_ !! _). Qed.

Lemma verify_closure_ok fuel threads root mode objects :
  (MAX_ENTRIES < N.of_nat fuel)%N → (lenN objects <= MAX_ENTRIES)%N →
  ∃ r, verify_closure fuel threads root mode objects = Some r ∧
    let m := (index_sequential id objects).1 in
    match r with
    | Ok rep => supplied_report id objects m mode root rep
    | Err e => closure_error (index_view id m) mode root e
    end.
Proof.
  intros Hf Hl. unfold verify_closure. rewrite (proj2 (N.ltb_ge _ _)) by done.
  unfold index_supplied_objects. rewrite index_with_eq. pose proof (index_ok id objects) as Hix.
  destruct (index_sequential id objects) as [m corrupt]. cbn [fst snd] in *. cbn zeta.
  destruct (walk_closure_spec (λ s, mo_objects s = m) (index_view id m) fuel root mode {| mo_objects := m |} Hf eq_refl)
    as (r & s' & Hw & Hr). rewrite Hw. cbn [mbind option_bind]. eexists. split; [reflexivity|].
  destruct r as [[rep visited]|e]; cbn [mbind result_bind]; [|done].
  destruct Hr as (-> & Hr & _). by apply (supplied_finish id objects m corrupt).
Qed.

(** [verify_closure] over every supplied set, root, mode and number of threads. The threads
    change nothing. The report lists as missing the reached ids that no supplied object has, as
    corrupt the digests of the supplied bytes that do not decode, and as unreferenced the ids
    that were supplied and not reached; it is complete if and only if all supplied bytes decode
    and the closure is closed. *)
Theorem verify_closure_spec (fuel threads : nat) (root : hash32) (mode : ClosureMode) (objects : list bytes)
    (Hf : (MAX_ENTRIES < N.of_nat fuel)%N) (Hl : (lenN objects <= MAX_ENTRIES)%N) :
  ∃ r, verify_closure fuel threads root mode objects = Some r ∧
    let m := (index_sequential id objects).1 in
    match r with
    | Ok rep => supplied_report id objects m mode root rep
    | Err e => closure_error (index_view id m) mode root e
    end.
Proof. exact (verify_closure_ok fuel threads root mode objects Hf Hl). Qed.
End verifiers.

(** ** A store as a source *)

Section store.
Context `{B : Blake3}.

(** What [read_raw_for_verification] answers. *)
Definition store_view (st : ObjectStore) (h : hash32) : result VerifyError (option bytes) :=
  match read_raw st h with
  | Ok bs => Ok (Some bs)
  | Err (ObjectNotFound _) => Ok None
  | Err error => Err (VeStore error)
  end.

#[export] Instance store_closure_view (st : ObjectStore) :
  ClosureView ObjectStore (eq st) (store_view st).
Proof. intros h s <-. done. Qed.

(** More fuel changes nothing. *)
Lemma streaming_mono {S} `{!ClosureSource S} fuel fuel' root mode (s : S) r :
  verify_closure_streaming fuel root mode s = Some r → fuel ≤ fuel' →
  verify_closure_streaming fuel' root mode s = Some r.
Proof.
  unfold verify_closure_streaming, walk_closure, walk. intros H Hle.
  destruct (reach_all [root] (Walk_default, [])) as [[out queue]|e]; [|exact H].
  destruct (loop fuel _ _) as [w|] eqn:E; [|done].
  by rewrite (loop_mono _ _ fuel' _ _ E Hle).
Qed.
End store.

(** ** Witnesses *)

Import Toy.

(** Fuel that is never computed. *)
Definition ex_fuel : nat := N.to_nat (MAX_ENTRIES + 1).

Lemma ex_fuel_enough : (MAX_ENTRIES < N.of_nat ex_fuel)%N.
Proof. unfold ex_fuel. rewrite N2Nat.id. lia. Qed.
#[global] Opaque ex_fuel.

Lemma ex_fuel_some : 10 ≤ ex_fuel.
Proof. pose proof ex_fuel_enough as H. unfold MAX_ENTRIES in H. lia. Qed.

(** The example repository, as a store and as what a server would send for a snapshot. *)
Definition ex_reached : list hash32 :=
  default [] (option_bind _ _ to_option (reachable_snapshot 10 ex_objects ex_c2)).
Definition ex_supplied : list bytes := omap (λ h, to_option (read ex_objects h)) ex_reached.
Definition ex_served : MapObjectSource :=
  {| mo_objects := (index_sequential id ex_supplied).1 |}.

Definition ok_report {S} (r : option (result VerifyError ClosureReport * S)) : option ClosureReport :=
  match r with Some (Ok rep, _) => Some rep | _ => None end.

(** A run within ten rounds is the run with [ex_fuel]. *)
Lemma ex_streaming {S} `{!ClosureSource S} (s : S) rep :
  ok_report (verify_closure_streaming 10 ex_c2 Snapshot s) = Some rep →
  ∃ s', verify_closure_streaming ex_fuel ex_c2 Snapshot s = Some (Ok rep, s').
Proof.
  destruct (verify_closure_streaming 10 ex_c2 Snapshot s) as [[[rep'|e] s']|] eqn:E; [|done..].
  intros [= ->]. exists s'. apply (streaming_mono 10); [exact E|apply ex_fuel_some].
Qed.

Lemma ex_complete : option_map is_complete (ok_report (verify_closure_streaming 10 ex_c2 Snapshot ex_objects)) = Some true.
Proof. vm_compute. reflexivity. Qed.

Lemma verify_closure_streaming_spec_witness : closed (store_view ex_objects) Snapshot ex_c2.
Proof.
  destruct (verify_closure_streaming_spec (eq ex_objects) (store_view ex_objects) ex_fuel ex_c2 Snapshot ex_objects
    ex_fuel_enough eq_refl) as (r & s' & Hr & Hp).
  pose proof ex_complete as Hc. destruct (ok_report _) as [rep|] eqn:E; [|discriminate Hc].
  destruct (ex_streaming ex_objects rep E) as [s1 H1]. rewrite H1 in Hr. injection Hr as <- <-.
  apply (proj2 Hp). injection Hc as Hc. exact Hc.
Defined.

Definition ex_report : ClosureReport :=
  default {| cr_root := ZERO; cr_mode := Snapshot; cr_verified := 0; cr_missing := []; cr_corrupt := [];
    cr_unreferenced := []; cr_unreferenced_checked := false |}
    (ok_report (verify_closure_streaming 10 ex_c2 Snapshot ex_objects)).

Lemma complete_closures_agree_witness :
  (in_closure (index_view id (mo_objects ex_served)) Snapshot ex_c2 ex_c2 ∧
   ∃ o, stat (store_view ex_objects) ex_c2 = SGood o ∧
     stat (index_view id (mo_objects ex_served)) ex_c2 = SGood o) ∨
  closures_conflict (store_view ex_objects) (index_view id (mo_objects ex_served)).
Proof.
  destruct (ex_streaming ex_objects ex_report) as [s1 H1]; [vm_compute; reflexivity|].
  destruct (ex_streaming ex_served ex_report) as [s2 H2]; [vm_compute; reflexivity|].
  apply (complete_closures_agree (eq ex_objects) (λ s, mo_objects s = mo_objects ex_served)
    (store_view ex_objects) (index_view id (mo_objects ex_served)) ex_fuel ex_c2 Snapshot
    ex_objects s1 ex_served s2 ex_report ex_report ex_fuel_enough eq_refl eq_refl).
  - exact H1.
  - vm_compute. reflexivity.
  - exact H2.
  - vm_compute. reflexivity.
  - apply root_in_closure.
Defined.

(** One supplied file does not decode. *)
Lemma verify_closure_spec_witness :
  ∃ r, verify_closure ex_fuel 4 ex_c2 Snapshot (b# "junk" :: ex_supplied) = Some r ∧
    let m := (index_sequential id (b# "junk" :: ex_supplied)).1 in
    match r with
    | Ok rep => supplied_report id (b# "junk" :: ex_supplied) m Snapshot ex_c2 rep
    | Err e => closure_error (index_view id m) Snapshot ex_c2 e
    end.
Proof.
  apply (verify_closure_spec ex_fuel 4 ex_c2 Snapshot (b# "junk" :: ex_supplied) ex_fuel_enough).
  vm_compute. discriminate.
Defined.

Example ex_junk :
  (λ r, match r with Ok rep => Some (cr_verified rep, length (cr_corrupt rep), is_complete rep) | Err _ => None end)
    <$> verify_closure 10 4 ex_c2 Snapshot (b# "junk" :: ex_supplied) = Some (Some (3%N, 1, false)).
Proof. vm_compute. reflexivity. Qed.
