(* ===== verification/ClosurePacks.v ===== *)
(** * Closures in packs

    The manifest of a closure export, the verification of a closure from packs, and that
    what [export_closure] writes of a sound store verifies as complete. *)

From S2P Require Import Messages Store StoreFacts ZstdFrame Pack PackFacts.
From S2P Require Import Prelude Hash Object Serialize SerializeFacts MerkleFacts ObjectId.
From S2P Require Import Graph GraphFacts Sign Wire Disclosure DisclosureFacts Closure ClosureFacts ClosureSpec.

(** ** The manifest *)

Section manifest.
Context `{C : WireCodec, L : !WireLaws}.

Lemma manifest_roundtrip m :
  (lenN (cm_packs m) <= MAX_CLOSURE_PACKS)%N → manifest_decode (manifest_encode m) = Ok m.
Proof.
  intros Hp. unfold manifest_decode, manifest_encode.
  assert (len_within 0 MAX_CLOSURE_PACKS (cm_packs m)) as Hlen.
  { split; [lia|]. unfold MAX_CLOSURE_PACKS, U32_MAX in *. lia. }
  set (rest := write_hash (cm_root m) ++ _). set (bs := MANIFEST_MAGIC ++ _).
  assert ((5 <=? length bs) = true ∧ take 4 bs = MANIFEST_MAGIC ∧ nth 4 bs Byte.x00 = MANIFEST_VERSION ∧
    drop 5 bs = rest) as (-> & -> & -> & ->) by done.
  rewrite (proj2 (bytes_eqb_eq MANIFEST_MAGIC MANIFEST_MAGIC) eq_refl), bool_decide_true by done.
  cbn [andb ensure mbind result_bind].
  unfold rest. rewrite reads_hash. cbn [ok_or mbind result_bind].
  rewrite reads_u8. cbn [ok_or mbind result_bind].
  assert (read_vec read_hash 0 MAX_CLOSURE_PACKS (write_vec write_hash (cm_packs m)) = Some (cm_packs m, [])) as Hv.
  { rewrite <- (app_nil_r (write_vec _ _)). apply reads_vec; [done|]. intros h _. apply reads_hash. }
  destruct m as [root [|] packs]; cbn [mode_byte cm_mode cm_packs cm_root] in *.
  - rewrite bool_decide_true by done. cbn [mbind result_bind]. rewrite Hv. done.
  - rewrite bool_decide_false by done. rewrite bool_decide_true by done. cbn [mbind result_bind]. rewrite Hv. done.
Qed.

(** What [decode] accepts is within the cap on packs. *)
Lemma manifest_decode_bound bs m :
  manifest_decode bs = Ok m → (lenN (cm_packs m) <= MAX_CLOSURE_PACKS)%N.
Proof.
  intros H. unfold manifest_decode in H.
  repeat match goal with
  | H : (_ ≫= _) = Ok _ |- _ => apply bind_Ok in H as (? & ? & H)
  | H : (let '(_, _) := ?x in _) = Ok _ |- _ => destruct x
  end.
  injection H as <-. rename select (ok_or (read_vec _ _ _ _) _ = _) into Hv. apply ok_or_Ok in Hv.
  apply (gives_vec read_hash (λ _, True)) in Hv as [[[_ Hl] _] _]; [exact Hl|by intros ???].
Qed.
End manifest.

(** ** The entries of raw packs *)

Section refs.
Context `{B : Blake3, Z : Zstd}.

Definition frame_refs (i : nat) (fs : list frame) : list (nat * (nat * nat)) :=
  map (λ k, (i, payload_range fs k)) (seq 0 (length fs)).

(** A pack of raw frames. *)
Definition raw_pack (p : bytes) (vfs : N * list frame) : Prop :=
  pack_ok vfs.1 MAX_TOTAL_PAYLOAD vfs.2 ∧ p = pack_image vfs.1 vfs.2 ∧
  Forall (λ f, frame_raw f = true) vfs.2.

Lemma first_not_raw_None i fs : first_not_raw i fs = None ↔ Forall (λ f, frame_raw f = true) fs.
Proof.
  revert i. induction fs as [|f fs IH]; intros i; cbn; [done|].
  rewrite list.Forall_cons. destruct (frame_raw f); [rewrite IH; naive_solver|]. split; [done|]. by intros [? _].
Qed.

Lemma decode_raw v f : frame_raw f = true → decode_frame v f = Ok (PRaw (fr_payload f)).
Proof. unfold frame_raw. rewrite bool_decide_eq_true. intros H. unfold decode_frame, decode_payload. by rewrite H. Qed.

Lemma pack_refs_opened i v fs k r bound entry_index refs supplied :
  Forall (frame_ok v) fs → Forall (λ f, frame_raw f = true) fs → (length fs - k <= bound)%nat →
  pack_refs bound i (opened v fs k r) entry_index refs supplied =
    (if (supplied + lenN (drop k fs) <=? MAX_ENTRIES)%N || bool_decide (drop k fs = [])
     then Ok (refs ++ drop k (frame_refs i fs), supplied + lenN (drop k fs))
     else Err VeTooManyClosureObjects)%N.
Proof.
  intros Hok Hraw. revert k r entry_index refs supplied. induction bound as [|bound IH]; intros k r idx refs supplied Hb.
  - assert (drop k fs = []) as Hd by (apply drop_ge; lia). rewrite Hd, bool_decide_true, orb_true_r by done.
    cbn [pack_refs]. unfold next. cbn [opened pe_done pe_count pe_yielded orb].
    destruct (N.leb_spec (lenN fs) (N.of_nat k)); [|unfold lenN in *; lia].
    rewrite lenN_nil, N.add_0_r, drop_ge, app_nil_r; [done|]. unfold frame_refs. rewrite length_map, length_seq. lia.
  - destruct (fs !! k) as [f|] eqn:Hk.
    + destruct (list.Forall_lookup_1 _ _ _ _ Hok Hk) as [Hu _].
      pose proof (list.Forall_lookup_1 _ _ _ _ Hraw Hk) as Hr. cbn in Hr.
      cbn [pack_refs]. rewrite (next_opened v fs k f r Hk Hu), (decode_raw v f Hr). rewrite (drop_S _ _ _ Hk).
      rewrite lenN_cons, bool_decide_false, orb_false_r by done.
      destruct (N.ltb_spec supplied MAX_ENTRIES) as [Hlt|Hge]; cbn [ensure mbind result_bind].
      2: { destruct (N.leb_spec (supplied + (1 + lenN (drop (S k) fs))) MAX_ENTRIES); [lia|done]. }
      cbn [last_payload_range opened pe_last_payload_range ok_or map_err mbind result_bind].
      rewrite IH by (apply lookup_lt_Some in Hk; lia).
      replace (supplied + 1 + lenN (drop (S k) fs))%N with (supplied + (1 + lenN (drop (S k) fs)))%N by lia.
      assert (drop k (frame_refs i fs) = (i, payload_range fs k) :: drop (S k) (frame_refs i fs)) as ->.
      { apply drop_S. unfold frame_refs. rewrite list_lookup_fmap. rewrite lookup_seq_lt by by eapply lookup_lt_Some.
        done. }
      rewrite <- app_assoc. destruct (N.leb_spec (supplied + (1 + lenN (drop (S k) fs))) MAX_ENTRIES) as [|Hbig]; [done|].
      cbn [orb]. case_bool_decide as Hd; [|done]. rewrite Hd, lenN_nil in Hbig. lia.
    + apply lookup_ge_None in Hk. assert (drop k fs = []) as Hd by (apply drop_ge; lia).
      rewrite Hd, bool_decide_true, orb_true_r by done.
      cbn [pack_refs]. unfold next. cbn [opened pe_done pe_count pe_yielded orb].
      destruct (N.leb_spec (lenN fs) (N.of_nat k)); [|unfold lenN in *; lia].
      rewrite lenN_nil, N.add_0_r, drop_ge, app_nil_r; [done|]. unfold frame_refs. rewrite length_map, length_seq. lia.
Qed.

(** The entries of all packs, from the pack [i] on. *)
Fixpoint all_refs (i : nat) (vfss : list (N * list frame)) : list (nat * (nat * nat)) :=
  match vfss with
  | [] => []
  | vfs :: vfss => frame_refs i vfs.2 ++ all_refs (S i) vfss
  end.

Definition all_payloads (vfss : list (N * list frame)) : list bytes :=
  concat (map (λ vfs, map fr_payload vfs.2) vfss).

Lemma open_raw p es :
  PackEntries_new p = Ok es → is_raw_only es = true →
  ∃ vfs, raw_pack p vfs ∧ es = opened vfs.1 vfs.2 0 None.
Proof.
  intros Ho Hr. apply (open_iff _ MAX_TOTAL_PAYLOAD) in Ho as (v & fs & Hok & -> & ->); [|done].
  exists (v, fs). split; [|done]. split; [done|]. split; [done|].
  cbn in Hr. apply bool_decide_eq_true in Hr. by apply (first_not_raw_None 0).
Qed.

Lemma raw_open p vfs :
  raw_pack p vfs → PackEntries_new p = Ok (opened vfs.1 vfs.2 0 None) ∧
  is_raw_only (opened vfs.1 vfs.2 0 None) = true.
Proof.
  intros (Hok & -> & Hr). split; [apply (open_iff _ MAX_TOTAL_PAYLOAD); [done|]; eauto|].
  cbn. apply bool_decide_eq_true. by apply first_not_raw_None.
Qed.

Lemma pack_refs_raw i p vfs refs supplied :
  raw_pack p vfs →
  pack_refs (N.to_nat (entry_count (opened vfs.1 vfs.2 0 None))) i (opened vfs.1 vfs.2 0 None) 0 refs supplied =
    (if (supplied + lenN vfs.2 <=? MAX_ENTRIES)%N || bool_decide (vfs.2 = [])
     then Ok (refs ++ frame_refs i vfs.2, supplied + lenN vfs.2)%N else Err VeTooManyClosureObjects).
Proof.
  intros ([_ _ Hok _] & _ & Hr). rewrite pack_refs_opened; [by rewrite !drop_0|done|done|].
  cbn. unfold lenN. lia.
Qed.

Lemma packs_refs_raw packs i refs supplied refs' :
  (supplied <= MAX_ENTRIES)%N →
  packs_refs packs i refs supplied = Ok refs' ↔
  ∃ vfss, Forall2 raw_pack packs vfss ∧ (supplied + lenN (all_payloads vfss) <= MAX_ENTRIES)%N ∧
    refs' = refs ++ all_refs i vfss.
Proof.
  revert i refs supplied. induction packs as [|p packs IH]; intros i refs supplied Hs; cbn [packs_refs].
  - split.
    + intros [= <-]. exists []. rewrite app_nil_r. split_and!; [constructor|cbn; rewrite lenN_nil; lia|done].
    + intros (vfss & H & _ & ->). inversion H; subst. cbn. by rewrite app_nil_r.
  - assert (Hlen : ∀ vfs vfss, lenN (all_payloads (vfs :: vfss)) = (lenN vfs.2 + lenN (all_payloads vfss))%N).
    { intros vfs vfss. unfold all_payloads. cbn [map concat]. rewrite lenN_app. unfold lenN at 1.
      by rewrite length_map. }
    split.
    + intros H. apply bind_Ok in H as (es & He & H). apply bind_Ok in H as (? & Hr & H). apply ensure_Ok in Hr.
      unfold map_err in He. destruct (PackEntries_new p) as [es'|e] eqn:Ep; [|done]. injection He as ->.
      destruct (open_raw p es Ep Hr) as (vfs & Hvfs & ->).
      rewrite (pack_refs_raw i p vfs refs supplied Hvfs) in H.
      destruct (_ || _) eqn:Eo; [|done]. cbn [mbind result_bind] in H.
      assert (supplied + lenN vfs.2 <= MAX_ENTRIES)%N as Hle.
      { reflect. destruct Eo as [|En]; [done|]. rewrite En, lenN_nil. lia. }
      apply IH in H as (vfss & Hf & Hl & ->); [|done].
      exists (vfs :: vfss). split; [by constructor|]. rewrite Hlen. split; [lia|]. cbn. by rewrite app_assoc.
    + intros (vfss & H & Hl & ->). inversion H as [|? vfs ? vfss' Hvfs Hf]; subst. rewrite Hlen in Hl.
      destruct (raw_open p vfs Hvfs) as [-> Hr]. cbn [map_err mbind result_bind]. rewrite Hr.
      cbn [ensure mbind result_bind]. rewrite (pack_refs_raw i p vfs refs supplied Hvfs).
      rewrite (proj2 (N.leb_le _ _)) by lia. cbn [orb mbind result_bind]. apply IH; [lia|].
      exists vfss'. split; [done|]. split; [lia|]. cbn. by rewrite app_assoc.
Qed.

Lemma refs_payloads packs i vfss before :
  length before = i → Forall2 raw_pack packs vfss →
  map (pack_slice (before ++ packs)) (all_refs i vfss) = all_payloads vfss.
Proof.
  intros Hi H. revert i before Hi. induction H as [|p vfs packs vfss Hp _ IH]; intros i before Hi; [done|].
  cbn [all_refs]. rewrite map_app. unfold all_payloads. cbn [map concat]. f_equal.
  - unfold frame_refs. rewrite map_map. destruct Hp as ([_ _ Hok _] & -> & _).
    apply list_eq. intros k. rewrite !list_lookup_fmap. destruct (vfs.2 !! k) as [f|] eqn:Hk.
    + rewrite lookup_seq_lt by by eapply lookup_lt_Some. cbn.
      rewrite app_nth2 by lia. replace (i - length before)%nat with 0 by lia. cbn [nth].
      f_equal. apply slice_payload; [done|]. by eapply list.Forall_lookup_1 in Hok as [? _].
    + assert (length vfs.2 ≤ k)%nat by by apply lookup_ge_None. by rewrite lookup_seq_ge.
  - rewrite (cons_middle p before packs), app_assoc. apply IH. rewrite length_app. cbn. lia.
Qed.
End refs.

(** ** Verification from packs *)

Section verify.
Context `{B : Blake3, BI : !Blake3Incremental, Z : Zstd}.

#[export] Instance pack_closure_view (packs : list bytes) (m : gmap hash32 (nat * (nat * nat))) corrupt :
  ClosureView PackObjectSource (λ s, s = {| po_packs := packs; po_index := m; po_corrupt := corrupt |})
    (index_view (pack_slice packs) m).
Proof. intros h s ->. done. Qed.

Lemma verify_packs_ok fuel threads root mode packs vfss :
  (MAX_ENTRIES < N.of_nat fuel)%N → Forall2 raw_pack packs vfss →
  (lenN (all_payloads vfss) <= MAX_ENTRIES)%N →
  let refs := all_refs 0 vfss in
  let m := (index_sequential (pack_slice packs) refs).1 in
  map (pack_slice packs) refs = all_payloads vfss ∧
  ∃ r, verify_closure_packs fuel threads root mode packs = Some r ∧
    match r with
    | Ok rep => supplied_report (pack_slice packs) refs m mode root rep
    | Err e => closure_error (index_view (pack_slice packs) m) mode root e
    end.
Proof.
  intros Hf Hraw Hl refs m. split; [exact (refs_payloads packs 0 vfss [] eq_refl Hraw)|].
  unfold verify_closure_packs.
  rewrite (proj2 (packs_refs_raw packs 0 [] 0 refs ltac:(unfold MAX_ENTRIES; lia))) by by exists vfss.
  unfold index_pack_entries. rewrite index_with_eq. pose proof (index_ok (pack_slice packs) refs) as Hix.
  unfold m in *. clear m. destruct (index_sequential (pack_slice packs) refs) as [m corrupt]. cbn [fst snd] in *.
  destruct (walk_closure_spec (λ s, s = {| po_packs := packs; po_index := m; po_corrupt := sort_by_id corrupt |})
    (index_view (pack_slice packs) m) fuel root mode _ Hf eq_refl) as (r & s' & Hw & Hr).
  rewrite Hw. cbn [mbind option_bind]. eexists. split; [reflexivity|].
  destruct r as [[rep visited]|e]; cbn [mbind result_bind]; [|done].
  destruct Hr as (-> & Hr & _). by apply (supplied_finish (pack_slice packs) refs m corrupt).
Qed.

(** [verify_closure_packs] never reports on anything but raw packs: a report is one on the
    payloads of the packs' frames, each pack the well-formed image of its raw frames, with no
    more than [MAX_ENTRIES] in all, as [verify_closure] reports on a supplied set. *)
Theorem verify_closure_packs_spec (fuel threads : nat) (root : hash32) (mode : ClosureMode) (packs : list bytes)
    (Hf : (MAX_ENTRIES < N.of_nat fuel)%N) :
  ∃ r, verify_closure_packs fuel threads root mode packs = Some r ∧
    match r with
    | Ok rep =>
        ∃ vfss, Forall2 raw_pack packs vfss ∧ (lenN (all_payloads vfss) <= MAX_ENTRIES)%N ∧
          let refs := all_refs 0 vfss in
          map (pack_slice packs) refs = all_payloads vfss ∧
          supplied_report (pack_slice packs) refs (index_sequential (pack_slice packs) refs).1 mode root rep
    | Err e =>
        packs_refs packs 0 [] 0 = Err e ∨
        ∃ refs, packs_refs packs 0 [] 0 = Ok refs ∧
          closure_error (index_view (pack_slice packs) (index_sequential (pack_slice packs) refs).1) mode root e
    end.
Proof.
  destruct (packs_refs packs 0 [] 0) as [refs|e] eqn:E.
  - apply packs_refs_raw in E as (vfss & Hraw & Hl & ->); [|unfold MAX_ENTRIES; lia].
    destruct (verify_packs_ok fuel threads root mode packs vfss Hf Hraw Hl) as (Hs & r & Hr & Hrep).
    exists r. split; [done|]. destruct r as [rep|e]; [by exists vfss|right]. by exists (all_refs 0 vfss).
  - exists (Err e). unfold verify_closure_packs. rewrite E. split; [done|by left].
Qed.
End verify.

(** ** The export of a closure *)

Section export.
Context `{B : Blake3, BI : !Blake3Incremental, Z : Zstd, C : WireCodec, L : !WireLaws}.
Context (st : ObjectStore).

(** The objects of the store under some ids, as the writer takes them. *)
Definition stored_items (hs : list hash32) (its : list item) : Prop :=
  Forall2 (λ h i, ∃ bs, read st h = Ok bs ∧ i = IRaw h bs) hs its.

(** A finished pack of some items. *)
Definition pack_of (its : list item) (p : bytes) : Prop :=
  ∃ fs, fitting true its fs ∧ p = pack_image (version_of fs) fs.

Lemma new_raw_only_written : new_raw_only = PackFacts.written true [].
Proof. done. Qed.

Lemma export_packs_ok mp me hs packs past fs groups packs' w' :
  fitting true past fs → Forall2 pack_of groups packs →
  export_packs st mp me hs packs (PackFacts.written true fs) = Ok (packs', w') →
  ∃ new its' fs' groups', stored_items hs new ∧ fitting true its' fs' ∧ w' = PackFacts.written true fs' ∧
    Forall2 pack_of groups' packs' ∧ concat groups' ++ its' = concat groups ++ past ++ new.
Proof.
  revert packs past fs groups. induction hs as [|h hs IH]; intros packs past fs groups Hfit Hpk H; cbn [export_packs] in H.
  - injection H as <- <-. exists [], past, fs, groups. rewrite app_nil_r. split_and!; try done. constructor.
  - apply bind_Ok in H as (bs & Hbs & H). unfold map_err in Hbs. destruct (read st h) as [bs'|e] eqn:Er; [|done].
    injection Hbs as ->. apply bind_Ok in H as ([packs1 w1] & Hseal & H).
    assert (∃ past1 fs1 groups1, fitting true past1 fs1 ∧ w1 = PackFacts.written true fs1 ∧ Forall2 pack_of groups1 packs1 ∧
      concat groups1 ++ past1 = concat groups ++ past) as (past1 & fs1 & groups1 & Hfit1 & -> & Hpk1 & Hcat1).
    { destruct (_ && _) in Hseal.
      - apply bind_Ok in Hseal as (p & Hp & [= <- <-]). unfold pack_err, map_err in Hp.
        rewrite finish_written in Hp by apply (fitting_ok true past fs Hfit). injection Hp as <-.
        exists [], [], (groups ++ [past]). split; [constructor|]. split; [done|]. split.
        + apply Forall2_app; [done|]. constructor; [|constructor]. by exists fs.
        + rewrite concat_app. cbn. by rewrite !app_nil_r.
      - injection Hseal as <- <-. by exists past, fs, groups. }
    destruct (push_raw h bs (PackFacts.written true fs1)) as [[h'|e] w2] eqn:Ep; [|done].
    assert (push_item (IRaw h bs) (PackFacts.written true fs1) = (Ok tt, w2)) as Hpush.
    { cbn [push_item]. unfold mbind, PM_bind. by rewrite Ep. }
    apply push_item_iff in Hpush as [Hfits ->].
    destruct (IH packs1 (past1 ++ [IRaw h bs]) _ groups1 ltac:(by constructor) Hpk1 H)
      as (new & its' & fs' & groups' & Hnew & Hfit' & Hw' & Hpk' & Hcat').
    exists (IRaw h bs :: new), its', fs', groups'. split_and!; try done.
    + constructor; [by exists bs|done].
    + rewrite Hcat', (app_assoc (concat groups1)), (app_assoc (concat groups1)), Hcat1.
      by rewrite <- !app_assoc.
Qed.

(** The payloads of raw items are their bytes. *)
Lemma fitting_payloads its fs :
  fitting true its fs → map fr_payload fs = map (λ i, match i with IRaw _ bs | IDelta _ bs => bs end) its ∧
  Forall (λ f, frame_raw f = true) fs ∧ any_compressed fs = false.
Proof.
  induction 1 as [|its fs i _ (IH1 & IH2 & IH3) (_ & _ & _ & Hi)]; [done|]. specialize (Hi eq_refl).
  destruct i as [h bs|]; [|done]. rewrite !map_app, IH1, any_compressed_app, IH3. split_and!; [done| |done].
  apply Forall_app. split; [done|]. by repeat constructor.
Qed.

Lemma pack_of_raw its p : pack_of its p → ∃ vfs, raw_pack p vfs ∧
  map fr_payload vfs.2 = map (λ i, match i with IRaw _ bs | IDelta _ bs => bs end) its.
Proof.
  intros (fs & Hf & ->). destruct (fitting_payloads its fs Hf) as (Hp & Hr & _).
  exists (version_of fs, fs). split; [|done]. split; [by apply (fitting_ok true its)|done].
Qed.

Lemma packs_of_raw groups packs :
  Forall2 pack_of groups packs → ∃ vfss, Forall2 raw_pack packs vfss ∧
    all_payloads vfss = map (λ i, match i with IRaw _ bs | IDelta _ bs => bs end) (concat groups).
Proof.
  induction 1 as [|g p groups packs (vfs & Hv & Hp)%pack_of_raw _ (vfss & IH & Hall)].
  - exists []. split; [constructor|done].
  - exists (vfs :: vfss). split; [by constructor|]. unfold all_payloads in *. cbn [map concat].
    by rewrite Hp, Hall, map_app.
Qed.

(** The last pack, if it has any entry. *)
Lemma export_last packs its fs groups packs' :
  fitting true its fs → Forall2 pack_of groups packs →
  (if (0 <? pw_entry_count (PackFacts.written true fs))%N
   then p ← pack_err (finish (PackFacts.written true fs)); Ok (packs ++ [p]) else Ok packs) = Ok packs' →
  ∃ groups', Forall2 pack_of groups' packs' ∧ concat groups' = concat groups ++ its.
Proof.
  intros Hfit Hpk H. rewrite finish_written in H by apply (fitting_ok true its fs Hfit).
  cbn [PackFacts.written pw_entry_count] in H. destruct (N.ltb_spec 0 (lenN fs)) as [Hlt|Hge].
  - injection H as <-. exists (groups ++ [its]). split.
    + apply Forall2_app; [done|]. constructor; [|constructor]. by exists fs.
    + rewrite concat_app. cbn. by rewrite app_nil_r.
  - injection H as <-. exists groups. split; [done|]. destruct Hfit; [by rewrite app_nil_r|].
    rewrite lenN_app, lenN_cons in Hge. lia.
Qed.

Lemma stored_payloads hs its :
  stored_items hs its →
  Forall2 (λ h bs, read st h = Ok bs) hs (map (λ i, match i with IRaw _ bs | IDelta _ bs => bs end) its).
Proof. induction 1 as [|h i hs its (bs & Hr & ->) _ IH]; [constructor|]. by constructor. Qed.

Lemma keys_match_self packs i : keys_match i (map pack_key packs) packs = Ok tt.
Proof.
  revert i. induction packs as [|p packs IH]; intros i; [done|]. cbn [map keys_match].
  unfold hash_eqb. rewrite bool_decide_true by done. cbn [ensure mbind result_bind]. apply IH.
Qed.

(** The manifest of an export leads to its packs. *)
Lemma verify_manifest_packs fuel threads root mode packs :
  (lenN packs <= MAX_CLOSURE_PACKS)%N →
  verify_closure_manifest fuel threads root
    (manifest_encode {| cm_root := root; cm_mode := mode; cm_packs := map pack_key packs |}) packs =
  verify_closure_packs fuel threads root mode packs.
Proof.
  intros Hl. unfold verify_closure_manifest.
  assert (lenN (map pack_key packs) = lenN packs) as Hlen by (unfold lenN; by rewrite length_map).
  rewrite manifest_roundtrip by (cbn; by rewrite Hlen). cbn [mbind result_bind cm_root cm_packs cm_mode].
  unfold hash_eqb at 1. rewrite bool_decide_true, Hlen, N.eqb_refl by done. cbn [ensure mbind result_bind].
  by rewrite keys_match_self.
Qed.

Lemma good_bytes h bs o :
  deserialize bs = Ok o → object_id_from_bytes bs = h → bytes_status h bs = SGood o.
Proof.
  intros Hd <-. apply bytes_status_good. split; [done|]. destruct (deserialize_serialize _ _ Hd).
  symmetry. by apply object_id_from_bytes_object.
Qed.

Lemma read_object_bytes h o :
  read_object st h = Ok o → ∃ bs, read st h = Ok bs ∧ bytes_status h bs = SGood o.
Proof.
  rewrite read_object_default. intros (bs & Hr & Hd%decode_err_Ok)%bind_Ok. exists bs. split; [done|].
  apply good_bytes; [done|]. by apply read_Ok in Hr as [_ ?].
Qed.

(** Items that are the stored bytes of all that the root reaches. *)
Section sound.
Context (mode : ClosureMode) (root : hash32) (X : gset hash32).
Context (HX : ∀ h, h ∈ X ↔ reachable_from st mode [root] h).
Context (Hread : ∀ h, h ∈ X → is_ok (read_object st h) = true).
Context {A : Type} (get : A → bytes) (items : list A) (m : gmap hash32 A) (corrupt : corrupt_list).
Context (Hix : indexed get items m corrupt).
Context (Hitems : ∀ bs, bs ∈ map get items ↔ ∃ h, h ∈ X ∧ read st h = Ok bs).

Lemma item_status h o : stat (index_view get m) h = SGood o ↔ h ∈ X ∧ read_object st h = Ok o.
Proof.
  assert (Hto : ∀ o, stat (index_view get m) h = SGood o → h ∈ X ∧ read_object st h = Ok o).
  { unfold stat. intros o' (_ & bs & Hv & Hd & Hid)%status_good. unfold index_view in Hv.
    destruct (m !! h) as [a|] eqn:Ea; [|done]. injection Hv as <-.
    destruct (ix_item _ _ _ _ Hix h a Ea) as [Ha _].
    destruct (proj1 (Hitems (get a))) as (h' & Hh' & Hr); [by apply list_elem_of_fmap_2|].
    assert (h' = h) as ->.
    { apply read_Ok in Hr as [_ <-]. destruct (deserialize_serialize _ _ Hd) as [Hw Hs].
      by rewrite (object_id_from_bytes_object _ _ Hw Hs). }
    split; [done|]. rewrite read_object_default, Hr. cbn [mbind result_bind]. by rewrite Hd. }
  split; [apply Hto|]. intros [Hh Ho]. destruct (read_object_bytes h o Ho) as (bs & Hr & Hb).
  assert (bs ∈ map get items) as Hin by (apply Hitems; eauto). apply list_elem_of_fmap in Hin as (a & -> & Ha).
  destruct (indexed_status get items m corrupt h Hix) as [[_ [o' Ho']]|[Hn _]].
  - destruct (Hto o' Ho') as [_ E]. congruence.
  - destruct Hn. exists a. split; [done|]. apply bytes_status_good in Hb as [Hd Hid].
    unfold classify_object. rewrite Hd. by f_equal.
Qed.

Lemma item_closure h : in_closure (index_view get m) mode root h ↔ h ∈ X.
Proof.
  split.
  - intros (r & ->%list_elem_of_singleton & Hp). revert h Hp. apply (rtc_ind_r (λ h, h ∈ X)).
    + apply HX. exists root. split; [by apply list_elem_of_singleton|done].
    + intros x y _ Hxy [r [Hr Hx]]%HX. apply HX. exists r. split; [done|]. eapply rtc_r; [exact Hx|].
      unfold edge, cedges in Hxy. fold (stat (index_view get m) x) in Hxy.
      destruct (stat (index_view get m) x) as [|o| | |] eqn:E; try by apply not_elem_of_nil in Hxy.
      apply item_status in E as [_ Ho]. unfold edge, redges. by rewrite Ho.
  - intros (r & ->%list_elem_of_singleton & Hp)%HX. revert h Hp.
    apply (rtc_ind_r (λ h, in_closure (index_view get m) mode root h)); [apply root_in_closure|].
    intros x y Hx Hxy Hin. eapply reached_child; [exact Hin|]. unfold edge, redges in Hxy.
    destruct (read_object st x) as [o|] eqn:Ho; [|by apply not_elem_of_nil in Hxy].
    unfold cedges. fold (stat (index_view get m) x). rewrite (proj2 (item_status x o)); [done|].
    split; [|done]. apply HX. exists root. split; [by apply list_elem_of_singleton|done].
Qed.

Lemma item_good h : h ∈ X → ∃ o, stat (index_view get m) h = SGood o ∧ read_object st h = Ok o.
Proof.
  intros Hh. pose proof (Hread h Hh) as Ho. destruct (read_object st h) as [o|] eqn:E; [|done].
  exists o. split; [by apply item_status|done].
Qed.
End sound.

Lemma reachable_run fuel mode cap roots r :
  reachable_with_mode fuel st roots mode cap = Some r → reach_post st mode cap roots r.
Proof.
  intros Hw. destruct (reachable_with_mode_ok st mode cap roots) as (fuel0 & r' & Hr & Hpost).
  specialize (Hr (fuel0 + fuel)%nat ltac:(lia)). unfold reachable_with_mode in Hr, Hw.
  apply (loop_mono _ _ (fuel0 + fuel)%nat) in Hw; [|lia]. rewrite Hw in Hr. by injection Hr as <-.
Qed.

(** What the export collects, as long as it is below the cap of the walk. *)
Lemma export_hashes fuel root mode (X : gset hash32) hashes :
  (∀ h, h ∈ X ↔ reachable_from st mode [root] h) → (N.of_nat (size X) <= MAX_REACHABLE)%N →
  match mode with
  | Snapshot => reachable_snapshot fuel st root
  | History => reachable_objects fuel st root
  end = Some (Ok hashes) →
  NoDup hashes ∧ ∀ h, h ∈ hashes ↔ h ∈ X.
Proof.
  intros HX Hsz H.
  assert (∃ tr, reachable_with_mode fuel st [root] mode MAX_REACHABLE = Some (Ok (hashes, tr))) as [tr Hw].
  { destruct mode; [unfold reachable_snapshot in H|unfold reachable_objects, reachable_closure,
      reachable_closure_checked, reachable_closure_checked_with_cap in H];
    (destruct (reachable_with_mode _ _ _ _ _) as [[[out tr]|e]|]; [|done..]); injection H as <-; by exists tr. }
  pose proof (reachable_run _ _ _ _ _ Hw) as Hpost.
  destruct Hpost as (Hs & _ & Ht). apply sorted_nodup in Hs. split; [done|].
  destruct tr; [|intros h; rewrite HX; apply Ht]. destruct Ht as [Hlen Hin].
  assert (list_to_set hashes = X) as <-; [|intros h; by rewrite elem_of_list_to_set].
  apply set_subseteq_size_eq.
  - intros h Hh%elem_of_list_to_set. by apply HX, Hin.
  - rewrite size_list_to_set by done. unfold lenN in Hlen. lia.
Qed.

Lemma export_packs_of fuel root mode (X : gset hash32) ex :
  (∀ h, h ∈ X ↔ reachable_from st mode [root] h) → (N.of_nat (size X) <= MAX_REACHABLE)%N →
  export_closure fuel st root mode = Some (Ok ex) →
  ∃ packs vfss, (lenN packs <= MAX_CLOSURE_PACKS)%N ∧
    ex = {| ce_manifest := manifest_encode {| cm_root := root; cm_mode := mode; cm_packs := map pack_key packs |};
            ce_packs := packs |} ∧
    Forall2 raw_pack packs vfss ∧ lenN (all_payloads vfss) = N.of_nat (size X) ∧
    (∀ o, read_object st root = Ok o → root_type o = true) ∧
    ∀ bs, bs ∈ all_payloads vfss ↔ ∃ h, h ∈ X ∧ read st h = Ok bs.
Proof.
  intros HX Hsz H. unfold export_closure, export_closure_with_limits in H.
  destruct (map_err VeStore (read_object st root) ≫= _) as [[]|e] eqn:Eroot; [|done].
  assert (∀ o, read_object st root = Ok o → root_type o = true) as Hroot.
  { intros o Ho. rewrite Ho in Eroot. by destruct o. }
  destruct (match mode with Snapshot => _ | History => _ end) as [[hashes|e]|] eqn:Eh; [|done..].
  destruct (export_hashes fuel root mode X hashes HX Hsz Eh) as [Hnd Hin].
  cbn [mbind option_bind map_err result_bind] in H. injection H as H.
  apply bind_Ok in H as ([packs w] & Hpacks & H). apply bind_Ok in H as (packs' & Hlast & H).
  apply bind_Ok in H as (u & Hl%ensure_Ok & [= <-]).
  rewrite new_raw_only_written in Hpacks.
  apply (export_packs_ok _ _ hashes [] [] [] []) in Hpacks
    as (new & its & fs & groups & Hnew & Hfit & -> & Hpk & Hcat); [|constructor..].
  destruct (export_last _ _ _ _ _ Hfit Hpk Hlast) as (groups' & Hpk' & Hcat').
  destruct (packs_of_raw _ _ Hpk') as (vfss & Hraw & Hall). rewrite Hcat', Hcat in Hall.
  apply stored_payloads in Hnew. cbn [concat app] in Hall. rewrite <- Hall in Hnew.
  exists packs', vfss. split; [by apply N.leb_le|]. split; [done|]. split; [done|]. split.
  { unfold lenN. rewrite <- (list.Forall2_length _ _ _ Hnew). f_equal.
    assert (X = list_to_set hashes) as -> by (apply set_eq; intros x; by rewrite elem_of_list_to_set, Hin).
    by rewrite size_list_to_set. }
  split; [done|]. intros bs. setoid_rewrite <- Hin. split.
  - intros (i & Hi)%list_elem_of_lookup. destruct (Forall2_lookup_r _ _ _ _ _ Hnew Hi) as (h & Hh & Hr).
    exists h. split; [by eapply list_elem_of_lookup_2|done].
  - intros (h & (i & Hi)%list_elem_of_lookup & Hr).
    destruct (Forall2_lookup_l _ _ _ _ _ Hnew Hi) as (bs' & Hbs & Hr'). rewrite Hr in Hr'. injection Hr' as <-.
    by eapply list_elem_of_lookup_2.
Qed.

(** C38: what [export_closure] writes verifies. For every store, root and mode of which the walk
    reaches no more than [MAX_REACHABLE] objects and can read each of them, the manifest and the
    packs of the export pass [verify_closure_manifest] with any number of threads: complete,
    for the root and the mode of the export, with every reachable object verified and nothing
    unreferenced. *)
Theorem export_verifies (fuel fuel' threads : nat) (root : hash32) (mode : ClosureMode) (ex : ClosureExport)
    (X : gset hash32)
    (Hf : (MAX_ENTRIES < N.of_nat fuel')%N)
    (HX : ∀ h, h ∈ X ↔ reachable_from st mode [root] h)
    (Hsz : (N.of_nat (size X) <= MAX_REACHABLE)%N)
    (Hread : ∀ h, h ∈ X → is_ok (read_object st h) = true)
    (Hex : export_closure fuel st root mode = Some (Ok ex)) :
  ∃ rep, verify_closure_manifest fuel' threads root (ce_manifest ex) (ce_packs ex) = Some (Ok rep) ∧
    is_complete rep = true ∧ cr_root rep = root ∧ cr_mode rep = mode ∧
    cr_verified rep = N.of_nat (size X) ∧ cr_unreferenced rep = [].
Proof.
  apply (export_packs_of _ _ _ X) in Hex as (packs & vfss & Hl & -> & Hraw & Hlen & Hroot & Hitems); [|done..].
  cbn [ce_manifest ce_packs]. rewrite verify_manifest_packs by done.
  assert (lenN (all_payloads vfss) <= MAX_ENTRIES)%N as Hcap by (rewrite Hlen; exact Hsz).
  destruct (verify_packs_ok fuel' threads root mode packs vfss Hf Hraw Hcap) as (Hs & r & Hr & Hrep).
  pose proof (index_ok (pack_slice packs) (all_refs 0 vfss)) as Hix.
  rewrite <- Hs in Hitems. rewrite Hr. clear Hr Hraw Hs Hcap.
  pose proof (item_closure mode root X HX _ _ _ _ Hix Hitems) as Hin.
  pose proof (item_good X Hread _ _ _ _ Hix Hitems) as Hgood.
  assert (Hdec : ∀ a, a ∈ all_refs 0 vfss → ∃ h o, h ∈ X ∧ deserialize (pack_slice packs a) = Ok o ∧
    classify_object (pack_slice packs a) = Ok h).
  { intros a Ha. destruct (proj1 (Hitems (pack_slice packs a))) as (h & Hh & Hb); [by apply list_elem_of_fmap_2|].
    destruct (Hgood h Hh) as (o & _ & Ho). destruct (read_object_bytes h o Ho) as (bs & Hb' & Hst).
    rewrite Hb in Hb'. injection Hb' as <-. apply bytes_status_good in Hst as [Hd Hid]. exists h, o.
    split; [done|]. split; [done|]. unfold classify_object. rewrite Hd. by f_equal. }
  destruct r as [rep|e].
  - destruct Hrep as [S1 S2 (visited & Hv & S3) _ _ S4 _ S5]. exists rep. split; [done|]. split_and!; try done.
    + apply S5. split; [split|].
      * intros h Hh%Hin. destruct (Hgood h Hh) as (o & Ho & _). eauto.
      * intros o Ho. apply Hroot. apply (item_status X _ _ _ _ Hix Hitems) in Ho as [_ Ho]. done.
      * intros a (h & o & _ & Hd & _)%Hdec. by rewrite Hd.
    + rewrite S3. do 2 f_equal. apply set_eq. intros h. rewrite elem_of_filter, Hv, Hin. split; [by intros [_ ?]|].
      intros Hh. split; [|done]. destruct (Hgood h Hh) as (o & Ho & _). by rewrite Ho.
    + apply elem_of_nil_inv. intros h [(a & Ha & Hc) Hn]%S4. apply Hn, Hin.
      destruct (Hdec a Ha) as (h' & o & Hh' & _ & Hc'). congruence.
  - exfalso. destruct Hrep as [[-> (Y & HY & Hbig)]|[(h & Hh%Hin & He)|(o & Ho & Ht & _)]].
    + assert (size Y ≤ size X)%nat; [|unfold MAX_REACHABLE, MAX_ENTRIES in *; lia].
      apply subseteq_size. intros h Hh%HY. by apply Hin.
    + destruct (Hgood h Hh) as (o & Ho & _). congruence.
    + apply (item_status X _ _ _ _ Hix Hitems) in Ho as [_ Ho]. apply Hroot in Ho. congruence.
Qed.
End export.

(** ** Witnesses *)

Import Toy ToyZstd ToyCodec.

Definition ex_export : ClosureExport :=
  default {| ce_manifest := []; ce_packs := [] |}
    (option_bind _ _ to_option (export_closure 10 ex_objects ex_c2 Snapshot)).

Example ex_export_packs : length (ce_packs ex_export) = 1 ∧ length ex_reached = 3.
Proof. vm_compute. split; reflexivity. Qed.

Lemma verify_closure_packs_spec_witness :
  ∃ r, verify_closure_packs ex_fuel 4 ex_c2 Snapshot (ce_packs ex_export) = Some r ∧
    match r with
    | Ok rep =>
        ∃ vfss, Forall2 raw_pack (ce_packs ex_export) vfss ∧ (lenN (all_payloads vfss) <= MAX_ENTRIES)%N ∧
          let refs := all_refs 0 vfss in
          map (pack_slice (ce_packs ex_export)) refs = all_payloads vfss ∧
          supplied_report (pack_slice (ce_packs ex_export)) refs
            (index_sequential (pack_slice (ce_packs ex_export)) refs).1 Snapshot ex_c2 rep
    | Err e =>
        packs_refs (ce_packs ex_export) 0 [] 0 = Err e ∨
        ∃ refs, packs_refs (ce_packs ex_export) 0 [] 0 = Ok refs ∧
          closure_error (index_view (pack_slice (ce_packs ex_export))
            (index_sequential (pack_slice (ce_packs ex_export)) refs).1) Snapshot ex_c2 e
    end.
Proof.
  apply (verify_closure_packs_spec ex_fuel 4 ex_c2 Snapshot (ce_packs ex_export) ex_fuel_enough).
Defined.

Lemma ex_reached_all x : x ∈ ex_reached ↔ reachable_from ex_objects Snapshot [ex_c2] x.
Proof.
  assert (reachable_with_mode 10 ex_objects [ex_c2] Snapshot MAX_REACHABLE = Some (Ok (ex_reached, false))) as H
    by (vm_compute; reflexivity).
  apply reachable_run in H as (_ & _ & _ & H). apply H.
Qed.

Lemma export_verifies_witness :
  ∃ rep, verify_closure_manifest ex_fuel 4 ex_c2 (ce_manifest ex_export) (ce_packs ex_export) = Some (Ok rep) ∧
    is_complete rep = true ∧ cr_root rep = ex_c2 ∧ cr_mode rep = Snapshot ∧
    cr_verified rep = N.of_nat (size (list_to_set ex_reached : gset hash32)) ∧ cr_unreferenced rep = [].
Proof.
  apply (export_verifies ex_objects 10 ex_fuel 4 ex_c2 Snapshot ex_export (list_to_set ex_reached) ex_fuel_enough).
  - intros h. rewrite elem_of_list_to_set. apply ex_reached_all.
  - vm_compute. discriminate.
  - intros h Hh%elem_of_list_to_set.
    assert (forallb (λ h, is_ok (read_object ex_objects h)) ex_reached = true) as Hall by (vm_compute; reflexivity).
    exact (proj1 (forallb_forall _ _) Hall h (proj1 (list_elem_of_In _ _) Hh)).
  - vm_compute. reflexivity.
Defined.
