(* ===== verification/ClosurePush.v ===== *)
(** * Pushes: what an accepted report proves

    The report of [verify_push] in terms of what the source holds, and that an accepted push
    above a closed frontier leaves nothing open below the new tips. *)

From S2P Require Import Prelude Hash Object Serialize SerializeFacts Messages Store StoreFacts.
From S2P Require Import ZstdFrame Pack ObjectId Graph GraphFacts Sign Wire Disclosure.
From S2P Require Import Closure ClosureFacts ClosureSpec SignFacts.

Section push.
Context `{B : Blake3, BI : !Blake3Incremental, E : Ed25519} {S K : Type} `{!ClosureSource S}.
Context (I : S → Prop) (view : hash32 → result VerifyError (option bytes)) `{!ClosureView S I view}.
Context (mode : ClosureMode) (tips : list hash32).
Context (known : hash32 → K → bool * K) (kn : hash32 → bool) (Hkn : ∀ h k, (known h k).1 = kn h).

Abbreviation status := (status_of view kn).

(** What the tips reach down to the known frontier, that included. *)
Definition pushed (h : hash32) : Prop := reached view mode kn tips h.

(** How one id enters the list of bad signatures. *)
Definition e_signature (h : hash32) (x : hash32 * bytes) : Prop :=
  x.1 = h ∧ ∃ o e, status h = SGood o ∧ verify_object_signature o = Err e ∧ x.2 = MkitError_to_string e.

Lemma collect_signature (D : gset hash32) h o bad :
  h ∉ D → status h = SGood o → log_of e_signature D bad →
  match collect_bad_signature h o bad with
  | (Ok _, bad') => log_of e_signature ({[h]} ∪ D) bad'
  | (Err _, _) => False
  end.
Proof.
  intros Hh Ho Hl. unfold collect_bad_signature. destruct (verify_object_signature o) as [u|e] eqn:Ev.
  - apply log_pass; [done|]. intros [y m] (_ & o' & e & Ho' & He & _). congruence.
  - apply (log_add _ fst); [by intros ?? [? _]|done|done| |].
    + split; [done|]. exists o, e. by split_and!.
    + intros [y m] (Hy & o' & e' & Ho' & He & Hm). cbn in *. congruence.
Qed.

(** A push report tells exactly what is wrong with what was pushed. *)
Record push_report (visited : gset hash32) (rep : PushReport) : Prop := {
  pp_visited h : h ∈ visited ↔ pushed h;
  pp_verified : pr_verified rep = N.of_nat (size (filter (λ h, is_good (status h) = true) visited));
  pp_skipped : pr_skipped_known rep = N.of_nat (size (filter (λ h, is_known (status h) = true) visited));
  pp_missing h : h ∈ pr_missing rep ↔ pushed h ∧ status h = SMissing;
  pp_corrupt h m : (h, m) ∈ pr_corrupt rep ↔ pushed h ∧ status h = SCorrupt m;
  pp_signatures h m : (h, m) ∈ pr_bad_signatures rep ↔ pushed h ∧ ∃ o e,
    status h = SGood o ∧ verify_object_signature o = Err e ∧ m = MkitError_to_string e;
  pp_tips h t : (h, t) ∈ pr_bad_tips rep ↔ h ∈ tips ∧ ∃ o,
    status h = SGood o ∧ root_type o = false ∧ t = object_type o;
  pp_once : NoDup (pr_missing rep) ∧ NoDup (pr_corrupt rep) ∧ NoDup (pr_bad_signatures rep) ∧
    NoDup (pr_bad_tips rep)
}.

(** What acceptance is to mean. *)
Definition sound_push : Prop :=
  ∀ h, pushed h →
    kn h = true ∨
    ∃ o, status h = SGood o ∧ verify_object_signature o = Ok tt ∧ (h ∈ tips → root_type o = true).

Lemma tip_pushed h : h ∈ tips → pushed h.
Proof. intros Hh. exists h. by split. Qed.

Lemma accepted_iff visited rep :
  (∀ h e, pushed h → status h ≠ SError e) → push_report visited rep →
  is_accepted rep = true ↔ sound_push.
Proof.
  intros He [_ _ _ Hm Hc Hs Ht _]. unfold is_accepted. reflect. split.
  - intros [[[Em Ec] Es] Et] h Hh. rewrite Em in Hm. rewrite Ec in Hc. rewrite Es in Hs. rewrite Et in Ht.
    destruct (status h) as [|o| |m|e] eqn:Est.
    + left. unfold status_of in Est. destruct (kn h); [done|]. destruct (view h) as [[bs|]|]; try done.
      unfold bytes_status in Est. destruct (deserialize bs); [|done]. by destruct (hash_eqb _ _).
    + right. exists o. split; [done|]. split.
      * destruct (verify_object_signature o) as [[]|e] eqn:Ev; [done|]. exfalso.
        eapply not_elem_of_nil, Hs. split; [exact Hh|]. eauto.
      * intros Htip. destruct (root_type o) eqn:Er; [done|]. exfalso.
        eapply not_elem_of_nil, Ht. split; [exact Htip|]. eauto.
    + exfalso. eapply not_elem_of_nil, Hm. eauto.
    + exfalso. eapply not_elem_of_nil, Hc. eauto.
    + by destruct (He h e Hh).
  - intros Hok.
    assert (Hbad : ∀ h, pushed h → status h = SKnown ∨ ∃ o, status h = SGood o ∧
      verify_object_signature o = Ok tt ∧ (h ∈ tips → root_type o = true)).
    { intros h Hh. destruct (Hok h Hh) as [Hk|?]; [left; unfold status_of; by rewrite Hk|by right]. }
    split_and!; apply elem_of_nil_inv.
    + intros h [Hh Hst]%Hm. destruct (Hbad h Hh) as [?|(o & ? & _)]; congruence.
    + intros [h m] [Hh Hst]%Hc. destruct (Hbad h Hh) as [?|(o & ? & _)]; congruence.
    + intros [h m] [Hh (o & e & Ho & Hv & _)]%Hs. destruct (Hbad h Hh) as [?|(o' & ? & ? & _)]; congruence.
    + intros [h t] [Hh (o & Ho & Hr & _)]%Ht. destruct (Hbad h (tip_pushed h Hh)) as [?|(o' & Ho' & _ & Hr')]; [congruence|].
      specialize (Hr' Hh). congruence.
Qed.

Lemma push_ok fuel s k :
  (MAX_ENTRIES < N.of_nat fuel)%N → I s →
  ∃ r s' k', verify_push fuel tips mode s known k = Some (r, s', k') ∧
    match r with
    | Ok rep => (∃ visited, push_report visited rep) ∧ (is_accepted rep = true ↔ sound_push)
    | Err e =>
        (e = VeTooManyClosureObjects ∧
          ∃ X : gset hash32, (∀ h, h ∈ X → pushed h) ∧ (MAX_ENTRIES < N.of_nat (size X))%N) ∨
        (∃ h, pushed h ∧ status h = SError e)
    end.
Proof.
  intros Hf Hs. unfold verify_push.
  destruct (walk_spec I view mode known kn Hkn RrRecord collect_bad_signature tips
    (log_of e_signature) (λ _ _, False)) with (fuel := fuel) (s := s) (k := k) (v := [] : corrupt_list)
    as ([[[r s'] k'] bad] & Hw & Hp); try done.
  { intros D h o v Hh Ho Hv. pose proof (collect_signature D h o v Hh Ho Hv) as H.
    by destruct (collect_bad_signature h o v) as [[[]|]]. }
  { intros D h v Hh Hg Hv. apply log_pass; [done|]. intros [y m] (_ & o & e & Ho & _). by rewrite Ho in Hg. }
  { apply log_empty. }
  rewrite Hw. cbn [mbind option_bind]. eexists _, s', k'. split; [reflexivity|].
  destruct r as [out|e]; cbn [mbind result_bind].
  - destruct Hp as (_ & Hv & [H1 H2 [N3 H3] [N4 H4] [N5 H5]] & [N6 H6] & _ & Hc & _ & _).
    assert (Hrep : push_report (wk_visited out) {|
      pr_verified := wk_verified out; pr_skipped_known := wk_skipped_known out;
      pr_missing := wk_missing out; pr_corrupt := wk_corrupt out;
      pr_bad_signatures := sort_by_id bad; pr_bad_tips := wk_bad_roots out |}).
    { split; cbn; try done.
      - intros h. rewrite H3. unfold e_missing. setoid_rewrite Hv. naive_solver.
      - intros h m. rewrite H4. unfold e_corrupt. cbn. setoid_rewrite Hv. naive_solver.
      - intros h m. rewrite elem_of_sort_by_id, H6. unfold e_signature. cbn. setoid_rewrite Hv.
        split; [intros (x & Hx & <- & ?); by split|]. intros [Hh ?]. exists h. by split_and!.
      - intros h t. rewrite H5. unfold e_bad. cbn. setoid_rewrite Hv.
        split; [intros (x & Hx & <- & ?); done|]. intros [Hh ?]. exists h. split; [by apply tip_pushed|done].
      - split_and!; try done. unfold sort_by_id. by rewrite stable_sort_perm. }
    split; [by exists (wk_visited out)|]. eapply accepted_iff; [|exact Hrep]. intros h e Hh. by apply Hc.
  - destruct Hp as [H|[H|[(h & o & [=] & _)|(h & _ & [])]]]; [by left|by right].
Qed.

(** C39: [verify_push] over any source whose answers do not change, every list of tips, every mode
    and every frontier of known ids. [MAX_ENTRIES + 1] rounds are enough. The report counts the
    verified and the known ids, and lists exactly the reached ids that are missing, that are
    corrupt, whose signature fails, and the tips that are not a commit, remix or tag. It is
    accepted if and only if every id that the tips reach, down to the frontier, is known or is
    a correctly identified object whose signature verifies. *)
Theorem verify_push_spec (fuel : nat) (s : S) (k : K) (Hf : (MAX_ENTRIES < N.of_nat fuel)%N) (Hs : I s) :
  ∃ r s' k', verify_push fuel tips mode s known k = Some (r, s', k') ∧
    match r with
    | Ok rep => (∃ visited, push_report visited rep) ∧ (is_accepted rep = true ↔ sound_push)
    | Err e =>
        (e = VeTooManyClosureObjects ∧
          ∃ X : gset hash32, (∀ h, h ∈ X → pushed h) ∧ (MAX_ENTRIES < N.of_nat (size X))%N) ∨
        (∃ h, pushed h ∧ status h = SError e)
    end.
Proof. exact (push_ok fuel s k Hf Hs). Qed.

(** C40: an accepted push leaves nothing open. When the closure of every known id is closed in the
    source, then after an accepted push so is the closure of every tip: each id that a tip
    reaches, known or not, is a correctly identified object. *)
Theorem accepted_push_closes (fuel : nat) (s s' : S) (k k' : K) (rep : PushReport)
    (Hf : (MAX_ENTRIES < N.of_nat fuel)%N) (Hs : I s)
    (Hfrontier : ∀ f, kn f = true → ∀ h, in_closure view mode f h → ∃ o, stat view h = SGood o)
    (Hpush : verify_push fuel tips mode s known k = Some (Ok rep, s', k')) (Hacc : is_accepted rep = true)
    (tip h : hash32) (Htip : tip ∈ tips) (Hh : in_closure view mode tip h) :
  ∃ o, stat view h = SGood o.
Proof.
  destruct (push_ok fuel s k Hf Hs) as (r & t & l & Hr & Hp). rewrite Hpush in Hr. injection Hr as <- <- <-.
  destruct Hp as [_ Hok]. apply Hok in Hacc. clear Hok.
  destruct Hh as (r & ->%list_elem_of_singleton & Hh).
  assert (Hgood : ∀ x, pushed x → kn x = false → ∃ o, stat view x = SGood o ∧ status x = SGood o).
  { intros x Hx Hk. destruct (Hacc x Hx) as [?|(o & Ho & _)]; [congruence|]. exists o. split; [|done].
    unfold stat, status_of in *. by rewrite Hk in Ho. }
  assert (pushed h ∨ ∃ f, kn f = true ∧ in_closure view mode f h) as [Hx|(f & Hf' & Hx)].
  { revert h Hh. apply (rtc_ind_r (λ h, pushed h ∨ ∃ f, kn f = true ∧ in_closure view mode f h)).
    - left. by apply tip_pushed.
    - intros x y _ Hxy [Hx|(f & Hf' & Hx)]; [|right; exists f; split; [done|]; by eapply reached_child].
      destruct (kn x) eqn:Ek.
      + right. exists x. split; [done|]. eapply reached_child; [apply root_in_closure|exact Hxy].
      + left. eapply reached_child; [exact Hx|]. destruct (Hgood x Hx Ek) as (o & Ho & Ho').
        unfold edge, cedges, stat in *. rewrite Ho in Hxy. by rewrite Ho'. }
  - destruct (kn h) eqn:Ek; [apply (Hfrontier h Ek), root_in_closure|].
    destruct (Hgood h Hx Ek) as (o & Ho & _). eauto.
  - by eapply Hfrontier.
Qed.
End push.

Lemma push_mono `{B : Blake3, E : Ed25519} {S K} `{!ClosureSource S} fuel fuel' tips mode (s : S) known (k : K) r :
  verify_push fuel tips mode s known k = Some r → fuel ≤ fuel' → verify_push fuel' tips mode s known k = Some r.
Proof.
  unfold verify_push, walk. intros H Hle.
  destruct (reach_all tips (Walk_default, [])) as [[out queue]|e]; [|exact H].
  destruct (loop fuel _ _) as [w|] eqn:Ew; [|done].
  by rewrite (loop_mono _ _ fuel' _ _ Ew Hle).
Qed.

(** ** Witnesses *)

Import Toy.
#[local] Existing Instance SignFacts.toy_ed25519.

Definition ex_unsigned (tree : hash32) (parents : list hash32) (sig : arr 64) : Commit := {|
  c_tree_hash := tree; c_parents := parents; c_author := SignFacts.ex_author; c_signer := arr_zero 32;
  c_message := b# "pushed"; c_timestamp := 7; c_message_hash := hash (b# "pushed"); c_content_digest := ZERO;
  c_signature := sig |}.
Definition ex_signed (tree : hash32) (parents : list hash32) : Commit :=
  ex_unsigned tree parents (default (arr_zero 64) (option_map sig_bytes
    (to_option (sign_commit (ex_unsigned tree parents (arr_zero 64)) (from_seed (arr_zero 32)))))).

(** A known commit and a pushed one above it, both signed, in one store. *)
Definition ex_pushed : hash32 * hash32 * ObjectStore :=
  let '(b, st) := put_object (OBlob {| blob_data := b# "hello" |}) {| disk := ∅ |} in
  let '(t, st) := put_object (OTree {| tree_entries :=
    [{| te_name := b# "f"; te_mode := EntryMode.Blob; te_hash := b |}] |}) st in
  let '(c1, st) := put_object (OCommit (ex_signed t [])) st in
  let '(c2, st) := put_object (OCommit (ex_signed t [c1])) st in
  (c1, c2, st).

Definition ex_kn (h : hash32) : bool := bool_decide (h = ex_pushed.1.1).
Definition ex_known (h : hash32) (u : unit) : bool * unit := (ex_kn h, u).

Definition ok_push {S K} (r : option (result VerifyError PushReport * S * K)) : option PushReport :=
  match r with Some (Ok rep, _, _) => Some rep | _ => None end.

Lemma ex_push_run :
  ∃ rep s k, verify_push ex_fuel [ex_pushed.1.2] History ex_pushed.2 ex_known tt = Some (Ok rep, s, k) ∧
    is_accepted rep = true.
Proof.
  assert (option_map is_accepted (ok_push (verify_push 10 [ex_pushed.1.2] History ex_pushed.2 ex_known tt)) = Some true)
    as H by (vm_compute; reflexivity).
  destruct (verify_push 10 _ _ _ _ _) as [[[[rep|e] s] k]|] eqn:E; [|done..]. injection H as H.
  exists rep, s, k. split; [|done]. apply (push_mono 10); [exact E|apply ex_fuel_some].
Qed.

(** Three ids are verified, the commit, its tree and its blob; one is known. *)
Example ex_push_counts :
  option_map (λ r, (pr_verified r, pr_skipped_known r))
    (ok_push (verify_push 10 [ex_pushed.1.2] History ex_pushed.2 ex_known tt)) = Some (3%N, 1%N).
Proof. vm_compute. reflexivity. Qed.

Lemma verify_push_spec_witness :
  sound_push (store_view ex_pushed.2) History [ex_pushed.1.2] ex_kn.
Proof.
  destruct (verify_push_spec (eq ex_pushed.2) (store_view ex_pushed.2) History [ex_pushed.1.2] ex_known ex_kn
    (λ _ _, eq_refl) ex_fuel ex_pushed.2 tt ex_fuel_enough eq_refl) as (r & s' & k' & Hr & Hp).
  destruct ex_push_run as (rep & s & k & H & Hacc). rewrite H in Hr. injection Hr as <- <- <-.
  apply (proj2 Hp). exact Hacc.
Defined.

Lemma ex_frontier f :
  ex_kn f = true → ∀ h, in_closure (store_view ex_pushed.2) History f h →
  ∃ o, stat (store_view ex_pushed.2) h = SGood o.
Proof.
  intros ->%bool_decide_eq_true. assert (closed (store_view ex_pushed.2) History ex_pushed.1.1) as [H _]; [|exact H].
  destruct (streaming_report_ok (eq ex_pushed.2) (store_view ex_pushed.2) ex_fuel ex_pushed.1.1 History ex_pushed.2
    ex_fuel_enough eq_refl) as (r & s' & Hr & Hp).
  assert (option_map is_complete (ok_report (verify_closure_streaming 10 ex_pushed.1.1 History ex_pushed.2)) = Some true)
    as H by (vm_compute; reflexivity).
  destruct (verify_closure_streaming 10 _ _ _) as [[[rep|e] s]|] eqn:E; [|done..]. injection H as H.
  apply (streaming_mono 10 ex_fuel) in E; [|apply ex_fuel_some]. rewrite E in Hr. injection Hr as <- <-.
  by apply (proj2 Hp).
Qed.

Lemma accepted_push_closes_witness : ∃ o, stat (store_view ex_pushed.2) ex_pushed.1.2 = SGood o.
Proof.
  destruct ex_push_run as (rep & s & k & H & Hacc).
  apply (accepted_push_closes (eq ex_pushed.2) (store_view ex_pushed.2) History [ex_pushed.1.2] ex_known ex_kn
    (λ _ _, eq_refl) ex_fuel ex_pushed.2 s tt k rep ex_fuel_enough eq_refl ex_frontier H Hacc ex_pushed.1.2).
  - by left.
  - apply root_in_closure.
Defined.
